(* ===== verification/_CoqProject ===== *)
-Q . S2P
Prelude.v
Schema.v
Planning.v
Effects.v
Dict.v
WorkerCore.v
Parser.v
Download.v
ListView.v
WorkLock.v
FileContent.v
Delta.v
StreamedDiff.v
Reload.v
WorkerRun.v
Footprint.v
ReloadSpec.v
RemovalSpec.v
Encoding.v
Request.v
Namespaces.v
Producer.v
Membership.v
Backoff.v
Stores.v
SpecDeltas.v
Outbound.v
Fetch.v
Polling.v
LogEvents.v
RedisAuth.v
RedisPool.v
RateLimiter.v
Enrichment.v
RedisCache.v
Grpc.v
Warmup.v
Responses.v
Events.v
Metrics.v
Utf8.v
Body.v
Diagnostics.v
Loops.v
Startup.v
Servers.v
EventBus.v
