(* ===== verification/Prelude.v ===== *)
(** * Statsig forward proxy: a verification library

    The proxy stands between Statsig SDKs and Statsig: it authorizes requests by SDK
    key, keeps the latest config specs and ID lists, and answers from them. Its largest
    subsystem keeps an index of ID lists in Redis: background producers and workers of
    many pods synchronize it with append-only files on an origin server, and lookups
    read it while it changes. This library models that subsystem whole, from the poll
    responses to the lookup, and the proxy proper: the requests it accepts, the polls
    it makes, the stores it answers from, and the answers.

    ** The program and the files of this library

    Sources are named below [src/src/].

    - [Prelude.v]: Rust's results, integers, string and slice operations; tactics;
      shared lemmas.
    - [Schema.v]: [datastore/idlist_membership/schema.rs]: Redis keys, the state hash of
      a list, queue members, version tags.
    - [Planning.v]: [redis_syncer/planning.rs]: full load, delta or nothing; queue order.
    - [Effects.v]: Redis commands on an explicit keyspace, HTTP exchanges, programs over
      them, their executions under interference and faults, and a weakest-precondition
      calculus.
    - [Dict.v]: the token dictionary and its allocation script ([schema.rs]).
    - [WorkerCore.v], [Parser.v], [Download.v]: [worker/core.rs], [worker/parser.rs],
      [worker/download.rs].
    - [ListView.v]: what Redis shows of one list (state, forward sets, reverse index,
      token) and how each command changes that view.
    - [WorkLock.v]: [work_lock.rs] and the claim of [worker/run.rs].
    - [FileContent.v]: which members a prefix of an append-only file denotes.
    - [Delta.v], [StreamedDiff.v], [Reload.v], [WorkerRun.v]: [worker/delta.rs],
      [worker/streamed_diff.rs], [worker/reload.rs], [worker/removal.rs] and
      [worker/run.rs], with the theorem of deltas in [Delta.v].
    - [Footprint.v]: which keys the programs may touch.
    - [ReloadSpec.v], [RemovalSpec.v]: the invariant of a list between runs and the
      theorems of full reloads and removals.
    - [Encoding.v]: [utils/compress_encoder.rs] and the choice of encodings.
    - [Request.v]: [servers/normalized_path.rs], [servers/sdk_key_normalizer.rs],
      [servers/authorized_request_context.rs], [utils/request_helper.rs],
      [utils/sdk_key_redacting_logger.rs].
    - [Namespaces.v]: [namespaces.rs], [company_ids.rs], the manifest observer of
      [redis_syncer.rs], [datastore/id_list_manifest.rs].
    - [Producer.v]: the producer of [redis_syncer.rs].
    - [Membership.v]: [redis_membership.rs] and [redis_membership/forward.rs].
    - [Backoff.v]: [datastore/data_providers/request_backoff.rs],
      [background_poll_dispatch.rs], [background_request_interval_tracker.rs].
    - [Stores.v]: [datastore/sdk_key_store.rs], [config_spec_store.rs],
      [id_list_store.rs], [id_list_file_store.rs], and the payloads of
      [servers/http_server.rs].
    - [SpecDeltas.v]: [datastore/deltas_store.rs] and its endpoint.
    - [Outbound.v]: [datastore/data_providers/request_builder.rs] and
      [http_data_provider.rs].
    - [Fetch.v]: results and observers ([background_data_provider.rs],
      [observers/http_data_provider_observer.rs], the wiring of [server.rs]) and the
      handlers of [servers/http_server.rs] that may wait for a fetch.
    - [Polling.v]: the poll cycle of [background_data_provider.rs].
    - [LogEvents.v]: [datastore/log_event_store.rs], [datatypes/log_event.rs].
    - [RedisAuth.v], [RedisPool.v]: [datastore/caching/redis_auth.rs] and
      [datastore/caching/redis_pool.rs]: the token Redis connections authenticate with,
      its replacement, and the settings pools are built from.
    - [RateLimiter.v]: [utils/rate_limiter.rs], in IEEE double arithmetic.
    - [Enrichment.v]: [servers/http_apis/user_enrichment_api.rs] and its
      [company_resolver.rs].
    - [RedisCache.v]: [datastore/caching/redis_cache.rs], [disabled_cache.rs].
    - [Grpc.v]: [servers/grpc_server.rs], [servers/streaming_channel.rs].
    - [Warmup.v]: [datastore/data_providers/startup_warmup_parser.rs], its use in
      [server.rs], [datastore/id_list_file_refresh_observer.rs]; the registration of keys
      for manifest polling ([redis_syncer.rs]) and the discovery of company identities
      ([company_ids.rs]).
    - [Responses.v]: the responder of [servers/http_server.rs] and the forwarding of
      [datastore/log_event_store.rs].
    - [Events.v]: the events of [observers/mod.rs] and the report of each request
      ([servers/request_logging_fairing.rs]).
    - [Metrics.v]: [loggers/stats_logger.rs] (tags, batching, sinks) and
      [loggers/nginx_cache_monitor.rs].
    - [Utf8.v]: the standard library's check that bytes are text.
    - [Body.v]: [datatypes/gzip_data.rs]: posted bodies, their limit and inflation.
    - [Diagnostics.v]: the reporting half of [http_data_provider.rs]: events, error lines,
      previews of bodies.
    - [Loops.v]: the shared client of [data_providers/mod.rs], and the loops of
      [background_data_provider.rs] and [worker/run.rs].
    - [Startup.v]: [server.rs]: settings, wiring and [main]; [utils/statsig_sdk_wrapper.rs],
      [utils/deserialization_helpers.rs].
    - [Servers.v]: the listeners of [servers/grpc_server.rs], the routes and the catcher of
      [servers/http_server.rs], [servers/http_apis/healthchecks.rs].
    - [EventBus.v]: [observers/proxy_event_observer.rs].

    Poll responses feed the observers of [Namespaces.v]; the producer merges the
    manifests of a company, plans with [Planning.v] against the states in Redis and
    enqueues tasks; a worker claims a task ([WorkLock.v]), plans again and runs a delta,
    a full reload or a removal; lookups ([Membership.v]) read forward sets or the
    reverse index with the dictionary. A poll chooses its requests ([Polling.v]) by
    builder and backoff, sends them ([Outbound.v]) and hands the result to the
    observers of its path ([Fetch.v]), which update the stores; requests are answered
    from the stores, after a foreground fetch when their key is not registered; gRPC
    clients may stay and are streamed what later polls bring ([Grpc.v]). The user
    enrichment endpoint puts the guard, the rate limit and the lookups together
    ([Enrichment.v]). Configs are backed up in Redis ([RedisCache.v]) for when the
    origin cannot be reached, over pools whose credentials rotate ([RedisAuth.v],
    [RedisPool.v]). [main] puts all of it together ([Startup.v]): its theorem says that the
    builders and observers it registers are those the theorems of [Fetch.v] and
    [Polling.v] assume.

    ** How code becomes definitions

    Pure code is a function with the source's branches; fallible code returns [result].
    Code that talks to Redis or to the origin is a [prog]: a tree of commands whose
    continuation gets the reply. [runs env p ks out ks'] says that [p], started in
    keyspace [ks], may end with [out] in [ks']: before every command the environment
    may change the keyspace by its [rely], every command may fail, with or without
    effect, and a pipeline that is not atomic interleaves with other clients and may be
    cut anywhere. Code that talks to the origin alone threads the list of requests sent
    ([http] of [Outbound.v]), and the origin may answer by all of it. Stores are maps
    passed from step to step; an operation that takes a lock twice takes the map at
    both times. [u64] values are [N] with their saturation and parsing bounds; byte
    strings are lists of [ascii]. The background renewal of a claim and a timer are the
    [Lost] effect, a flag the environment chooses. Clocks are readings passed in, one per
    call of the code that reads them. Streams and pools are state machines whose events
    are the sections the code runs without waiting.

    Third-party code is a parameter with what the code relies on: [Digest] (SHA-256 and
    base64), [UrlLib], [HttpLib] (URL and query parsing), [PayloadLib] (gzip, brotli,
    JSON), [ScanOrder] (the guarantee of SCAN iterations), [PartitionHash], [HashOrder]
    (hash-map iteration), [SpecsProto] with [SpecsProtoLaws] (generated protobuf
    messages and their codec), [CompressLib], [Transport], [BodyHash], [KeyHasher],
    [EventHash], [Calendar], [TokenClient] (the token endpoint), [PoolLib], [EnrichmentJson],
    [WarmupJson], [ManifestUrl], [Broadcast] with [BroadcastLaws] and [EventChannel] with
    [EventChannelLaws] (tokio's channel), [GzipDecoder], [RegexTemplate], [TonicTls] (when a TLS server
    asks for a client certificate). What [main] asks of
    its environment and of libraries is the record [surroundings]. Each theorem with
    hypotheses has a witness that instantiates them with executable definitions.

    ** What is proved

    - A list between runs satisfies one invariant; a full reload from it ends,
      keeps it under any failures but a torn commit, serves the old version or the file of
      its task throughout, and when it succeeds the reverse index is in step with the
      published file ([ReloadSpec.v]). Deltas keep set, index
      and checkpoint in step with the file at every failure point ([Delta.v]). A
      removal that succeeds leaves no token, state, name or published set, and any other
      can be completed by the next ([RemovalSpec.v]).
    - The lock is exclusive; tokens are never reused; keys never clash; states and tasks
      survive encoding ([WorkLock.v], [Dict.v], [Schema.v]).
    - Plans never go back to an older file and cover exactly the cases that need work;
      the queue is ordered and duplicate-free ([Planning.v]).
    - A removal is only ever derived from complete knowledge; merged manifests hold what
      the keys publish, the newest file of each list; enqueued metadata decodes to the
      task; ticks touch nothing else ([Namespaces.v], [Producer.v]).
    - Lookups are exact in both modes, agree with one another on a published list and
      never show a list the key cannot see ([Membership.v]).
    - Requests are authorized exactly with agreeing credentials, contexts come from the
      cache unmixed, headers parse to what they say ([Request.v], [Encoding.v]).
    - A poll makes exactly the requests it should, each once, within its limits, and
      ends; backoff follows the history of its key; results say what the origin's last
      answer said ([Polling.v], [Backoff.v], [Outbound.v]).
    - A registered key is answered from the stores with the newest config; cached files
      are served by their ranges; combined deltas decode to every update the client
      misses, unless a client registered a time ahead of the poller, which leaves a
      hole ([Fetch.v], [Stores.v], [SpecDeltas.v]). Exposure events are forwarded once
      between clearings of the cache ([LogEvents.v]).
    - Tokens are replaced in time, the first one is acquired or given up within its
      budget, and no connection is handed out on a token about to expire; the secret
      only goes to an https authority ([RedisAuth.v], [RedisPool.v]).
    - The backup's versions never go back and are not rewritten, a read finds what was written, and only a
      version a poll confirmed is kept alive ([RedisCache.v]).
    - A user's lists are told only to a key within its rate, and only those it still
      sees ([Enrichment.v], [RateLimiter.v]).
    - Streams are counted right and hand out only configs of their own context, what the
      channel brings newer each time; one that falls behind by two goes stale ([Grpc.v]). What is warmed up
      is what live requests ask for, and discovery learns the identities it can
      ([Warmup.v]). A proxy behind another one reads from its answers what that one has
      ([Responses.v]).
    - Requests are reported with the context they were served with ([Events.v]); metrics
      are batched without loss or double count, and tags read back ([Metrics.v]). Every
      fetch is reported once, as what it came to ([Diagnostics.v]), and observers get
      events in order, losing only what they count ([EventBus.v]).
    - A body is read within its limit ([Body.v]); bytes are text exactly when they encode
      scalar values ([Utf8.v]).
    - Fetches share one client, and polls keep their cadence ([Loops.v]).
    - A start that is refused has begun no work: at most the loops of its loggers and the
      refresh of its Redis token run; one that is not has wired everything before the
      first of its work ([Startup.v]). Enforced TLS leaves no plaintext listener
      ([Servers.v]).

    ** Bounds and fuel

    Loops whose number of rounds the data bounds use that bound as fuel (the length of
    a string, of a slice, of a response body). A chunked download and a scan end when
    the server says so: the worker has a [stream_rounds] and the scan rank of
    [ScanOrder] as measure, and the theorems of deltas and reloads show that
    [length F + 2] rounds suffice for a file [F], so that no run ends out of fuel. Lua's
    number formatting bounds dictionary counters by fourteen digits ([LUA_INT_MAX]).

    ** Not modelled

    HTTP and gRPC transport, TLS handshakes, compression and JSON codecs, the matching of
    paths to routes, the clients of the metric sinks, the parsing of the command line and
    the timers of the runtime are libraries. [loggers/debug_logger.rs] prints, [otlp.rs]
    builds an exporter, [client.rs] is a client for manual tests, and
    [datastore/caching/fake_redis.rs] a server for automatic ones. The task that downloads
    the files of a manifest, eight at a time, is left out; which files it downloads is
    modelled ([Warmup.v]). A posted body is a finished value, so the wait for a client that
    stalls is not; the check of a pooled connection and its hand-out are one step, without
    the time of the PING between them; in the history of the token dictionary ([Dict.v])
    a removal is the deletion of a name, the program that does it being that of
    [WorkerRun.v]. *)
From stdpp Require Export prelude gmap strings list sets sorting.
From Stdlib Require Export Ascii.
From Stdlib Require Import DecimalString DecimalN.

Declare Scope sfp_scope.
Delimit Scope sfp_scope with sfp.
Open Scope sfp_scope.

Create HintDb sfp discriminated.

#[global] Arguments ascii_dec : simpl never.

(** ** Results: Rust's [Result<A, E>] *)

Inductive result (E A : Type) : Type :=
| Ok (a : A)
| Err (e : E).
Arguments Ok {E A} a.
Arguments Err {E A} e.

#[export] Instance result_ret {E} : MRet (result E) := fun A a => Ok a.
#[export] Instance result_bind {E} : MBind (result E) := fun A B f m =>
  match m with Ok a => f a | Err e => Err e end.
#[export] Instance result_fmap {E} : FMap (result E) := fun A B f m =>
  match m with Ok a => Ok (f a) | Err e => Err e end.

(** [Result::map_err], [Option::ok_or], [Result::ok]. *)
Definition map_err {E F A} (f : E -> F) (m : result E A) : result F A :=
  match m with Ok a => Ok a | Err e => Err (f e) end.
Definition ok_or {E A} (e : E) (o : option A) : result E A :=
  match o with Some a => Ok a | None => Err e end.
Definition result_ok {E A} (m : result E A) : option A :=
  match m with Ok a => Some a | Err _ => None end.

(** ** Machine integers: [u64] values are [N] with the width written out *)

Definition u64_max : N := 18446744073709551615%N.
Definition u32_max : N := 4294967295%N.
Definition i64_max : N := 9223372036854775807%N.

Definition is_u64 (n : N) : Prop := (n ≤ u64_max)%N.
#[export] Instance is_u64_dec n : Decision (is_u64 n) := decide (n ≤ u64_max)%N.

(** [u64::saturating_add], [saturating_mul], [saturating_sub]. *)
Definition sat_add (a b : N) : N := N.min (a + b) u64_max.
Definition sat_mul (a b : N) : N := N.min (a * b) u64_max.
Definition sat_sub (a b : N) : N := (a - b)%N.
(** [n as i64] *)
Definition as_i64 (n : N) : Z := if bool_decide (n <= i64_max)%N then Z.of_N n else (Z.of_N n - 2 ^ 64)%Z.

(** [<u64 as Display>::fmt] and [<u64 as FromStr>::from_str]: an optional
    leading [+], at least one decimal digit, no overflow. *)
Definition show_u64 (n : N) : string := NilZero.string_of_uint (N.to_uint n).
Definition parse_bounded (bound : N) (s : string) : option N :=
  let digits := match s with String "+"%char rest => rest | _ => s end in
  d ← NilZero.uint_of_string digits;
  if decide (N.of_uint d ≤ bound)%N then Some (N.of_uint d) else None.
Definition parse_u64 : string -> option N := parse_bounded u64_max.
Definition parse_u32 : string -> option N := parse_bounded u32_max.

(** ** String operations of [str] *)

(** [str::strip_prefix] *)
Fixpoint strip_prefix (p s : string) : option string :=
  match p, s with
  | EmptyString, _ => Some s
  | String a p', String b s' => if decide (a = b) then strip_prefix p' s' else None
  | String _ _, EmptyString => None
  end.

(** [str::starts_with] *)
Definition starts_with (p s : string) : bool := bool_decide (is_Some (strip_prefix p s)).

(** [str::split_once] with a string pattern: the first occurrence wins. *)
Fixpoint split_once (sep s : string) : option (string * string) :=
  match strip_prefix sep s with
  | Some rest => Some (EmptyString, rest)
  | None =>
      match s with
      | EmptyString => None
      | String c s' =>
          match split_once sep s' with
          | Some (a, b) => Some (String c a, b)
          | None => None
          end
      end
  end.

Definition str_empty (s : string) : bool := bool_decide (s = EmptyString).

Fixpoint str_forall (P : ascii -> bool) (s : string) : bool :=
  match s with
  | EmptyString => true
  | String c s' => P c && str_forall P s'
  end.

(** ** Slices: [slice::chunks], [Vec::dedup], stable [sort_by] *)

Fixpoint chunks_fuel {A} (fuel n : nat) (l : list A) : list (list A) :=
  match fuel, l with
  | S fuel', _ :: _ => take n l :: chunks_fuel fuel' n (drop n l)
  | _, _ => []
  end.
(** Each chunk takes at least one element when [0 < n], so [length l] rounds
    are enough. *)
Definition chunks {A} (n : nat) (l : list A) : list (list A) := chunks_fuel (length l) n l.

Fixpoint dedup {A} `{EqDecision A} (l : list A) : list A :=
  match l with
  | x :: (y :: _) as l' => if decide (x = y) then dedup l' else x :: dedup l'
  | _ => l
  end.

Fixpoint insert_by {A} (le : A -> A -> bool) (x : A) (l : list A) : list A :=
  match l with
  | [] => [x]
  | y :: l' => if le x y then x :: l else y :: insert_by le x l'
  end.
(** [slice::sort_by]: the stable sort for a total preorder. *)
Definition sort_by {A} (le : A -> A -> bool) (l : list A) : list A := foldr (insert_by le) [] l.

(** ** Automation shared by the components *)

(** Splits a conjunction hypothesis or a match/if in the goal, then closes
    what computation and congruence close. *)
Ltac case_goal :=
  repeat (case_match || case_decide || case_bool_decide); simplify_eq/=; try done.

Ltac boolify :=
  repeat match goal with
  | H : _ && _ = true |- _ => apply andb_true_iff in H as [??]
  | H : _ || _ = false |- _ => apply orb_false_iff in H as [??]
  | H : negb _ = true |- _ => apply negb_true_iff in H
  | H : negb _ = false |- _ => apply negb_false_iff in H
  | H : bool_decide _ = true |- _ => apply bool_decide_eq_true_1 in H
  | H : bool_decide _ = false |- _ => apply bool_decide_eq_false_1 in H
  end.

(** ** Lemmas on integers *)

Lemma show_u64_head n c s : show_u64 n = String c s -> c <> "+"%char.
Proof.
  unfold show_u64. intros H ->.
  destruct (N.to_uint n); simpl in H; simplify_eq.
Qed.

Lemma show_u64_parse_uint n :
  NilZero.uint_of_string (show_u64 n) = Some (N.to_uint n).
Proof.
  unfold show_u64. apply NilZero.usu. intros H.
  assert (n = 0%N) as -> by (rewrite <- (DecimalN.Unsigned.of_to n), H; done). done.
Qed.

Lemma parse_bounded_show b n : (n ≤ b)%N -> parse_bounded b (show_u64 n) = Some n.
Proof.
  intros Hn. unfold parse_bounded.
  assert (match show_u64 n with String "+"%char rest => rest | _ => show_u64 n end
          = show_u64 n) as ->.
  { destruct (show_u64 n) as [|c s] eqn:E; [done|].
    apply show_u64_head in E.
    by destruct c as [[] [] [] [] [] [] [] []]. }
  rewrite show_u64_parse_uint. simpl. rewrite DecimalN.Unsigned.of_to.
  by rewrite decide_True.
Qed.

Lemma parse_u64_show n : is_u64 n -> parse_u64 (show_u64 n) = Some n.
Proof. apply parse_bounded_show. Qed.

Lemma parse_u64_bound s n : parse_u64 s = Some n -> is_u64 n.
Proof.
  unfold parse_u64, parse_bounded. intros H.
  apply bind_Some in H as (d & _ & H). case_decide; by simplify_eq.
Qed.

Lemma show_u64_inj n m : show_u64 n = show_u64 m -> n = m.
Proof.
  intros H. apply DecimalN.Unsigned.to_uint_inj.
  apply (inj Some). by rewrite <- !show_u64_parse_uint, H.
Qed.

#[export] Hint Resolve parse_u64_show parse_u64_bound : sfp.

(** ** Lemmas on strings *)

Lemma str_cons_app c (a b : string) : String c a +:+ b = String c (a +:+ b).
Proof. done. Qed.

Lemma str_nil_app (b : string) : EmptyString +:+ b = b.
Proof. done. Qed.

Lemma strip_prefix_app p s : strip_prefix p (p +:+ s) = Some s.
Proof. induction p as [|a p IH]; rewrite ?str_cons_app; simpl; [done|].
  by rewrite decide_True.
Qed.

Lemma strip_prefix_Some p s r : strip_prefix p s = Some r <-> s = p +:+ r.
Proof.
  split; [|intros ->; apply strip_prefix_app].
  revert s. induction p as [|a p IH]; intros s H; simpl in *; [by simplify_eq|].
  destruct s as [|b s]; [done|]. case_decide; [|done].
  subst. rewrite str_cons_app. f_equal. by apply IH.
Qed.

Lemma starts_with_spec p s : starts_with p s = true <-> exists r, s = p +:+ r.
Proof.
  unfold starts_with. rewrite bool_decide_eq_true. split.
  - intros [r Hr]. exists r. by apply strip_prefix_Some.
  - intros [r ->]. exists r. apply strip_prefix_app.
Qed.

Lemma str_app_assoc (a b c : string) : (a +:+ b) +:+ c = a +:+ b +:+ c.
Proof. induction a; rewrite ?str_cons_app; [done|congruence]. Qed.

Lemma str_app_nil_r (a : string) : a +:+ EmptyString = a.
Proof. induction a; rewrite ?str_cons_app; [done|congruence]. Qed.

Lemma str_app_length (a b : string) :
  String.length (a +:+ b) = String.length a + String.length b.
Proof.
  induction a as [|c a IH]; [done|]. rewrite str_cons_app. simpl. by rewrite IH.
Qed.

Lemma str_app_inj_l (a b b' : string) : a +:+ b = a +:+ b' -> b = b'.
Proof. apply (inj (String.append a)). Qed.

Lemma str_app_inj_len (a a' b b' : string) :
  String.length a = String.length a' -> a +:+ b = a' +:+ b' -> a = a' /\ b = b'.
Proof.
  revert a'. induction a as [|c a IH]; intros [|c' a'];
    rewrite ?str_cons_app; simpl; try done.
  intros [= Hl] [= -> H]. apply IH in H as [-> ->]; done.
Qed.

(** [split_once] finds the first separator: nothing before it contains one. *)
Lemma split_once_Some sep s a b : split_once sep s = Some (a, b) -> s = a +:+ sep +:+ b.
Proof.
  revert a. induction s as [|c s IH]; intros a; simpl.
  - destruct (strip_prefix sep "") eqn:E; [|done]. intros [= <- <-].
    by apply strip_prefix_Some in E.
  - destruct (strip_prefix sep (String c s)) eqn:E.
    + intros [= <- <-]. by apply strip_prefix_Some in E.
    + destruct (split_once sep s) as [[x y]|] eqn:E2; [|done].
      intros [= <- <-]. rewrite str_cons_app. f_equal. by apply IH.
Qed.

(** ** Lemmas on slices *)

Lemma chunks_fuel_concat {A} n fuel (l : list A) :
  0 < n -> length l <= fuel -> concat (chunks_fuel fuel n l) = l.
Proof.
  intros Hn. revert l. induction fuel as [|fuel IH]; intros [|x l] Hl; simpl in *; try done; [lia|].
  destruct n as [|n]; [lia|]. simpl. f_equal.
  rewrite IH; [apply take_drop|]. rewrite length_drop. lia.
Qed.

Lemma chunks_concat {A} n (l : list A) : 0 < n -> concat (chunks n l) = l.
Proof. intros. by apply chunks_fuel_concat. Qed.

Lemma chunks_fuel_bound {A} n fuel (l c : list A) :
  0 < n -> c ∈ chunks_fuel fuel n l -> 0 < length c <= n.
Proof.
  intros Hn. revert l. induction fuel as [|fuel IH]; intros [|x l]; simpl;
    try (intros H; by apply elem_of_nil in H).
  intros [->|H]%elem_of_cons; [|by eapply IH].
  rewrite length_take. destruct n; simpl; lia.
Qed.

Lemma insert_by_perm {A} (le : A -> A -> bool) x l : insert_by le x l ≡ₚ x :: l.
Proof.
  induction l as [|y l IH]; simpl; [done|]. destruct (le x y); [done|].
  rewrite IH. apply Permutation_swap.
Qed.

Lemma sort_by_perm {A} (le : A -> A -> bool) l : sort_by le l ≡ₚ l.
Proof. induction l as [|x l IH]; simpl; [done|]. rewrite insert_by_perm. by rewrite IH. Qed.

Section sort_by_sorted.
Context {A : Type} (le : A -> A -> bool).
Context (le_total : forall x y, le x y = true \/ le y x = true).
Context (le_trans : forall x y z, le x y = true -> le y z = true -> le x z = true).

Lemma insert_by_sorted x l : StronglySorted le l -> StronglySorted le (insert_by le x l).
Proof.
  induction 1 as [|y l Hs IH Hall]; simpl; [repeat constructor|].
  destruct (le x y) eqn:E.
  - constructor; [by constructor|]. constructor; [by rewrite E|].
    eapply Forall_impl; [done|]. intros z Hz; simpl in *.
    rewrite (le_trans x y z); [done| done | by apply Is_true_true in Hz].
  - constructor; [done|]. rewrite insert_by_perm. constructor; [|done].
    destruct (le_total x y); [congruence|]. by apply Is_true_true.
Qed.

Lemma sort_by_sorted l : StronglySorted le (sort_by le l).
Proof. induction l; simpl; [constructor|]. by apply insert_by_sorted. Qed.
End sort_by_sorted.

(** ** [str::trim]: Unicode white space, as UTF-8 byte sequences *)

Definition byte_str (bs : list nat) : string := foldr (fun b s => String (ascii_of_nat b) s) EmptyString bs.

(** The characters with the Unicode property White_Space ([char::is_whitespace]). *)
Definition unicode_ws : list string :=
  (byte_str <$> [[9]; [10]; [11]; [12]; [13]; [32]; [194; 133]; [194; 160]; [225; 154; 128]])
  ++ ((fun b => byte_str [226; 128; b]) <$> [128; 129; 130; 131; 132; 133; 134; 135; 136; 137; 138; 168; 169; 175])
  ++ (byte_str <$> [[226; 129; 159]; [227; 128; 128]]).

(** Strips one leading character of [ws], if there is one. *)
Definition strip_ws (ws : list string) (s : string) : option string :=
  head (omap (fun w => strip_prefix w s) ws).
Fixpoint trim_start_fuel (ws : list string) (fuel : nat) (s : string) : string :=
  match fuel with
  | O => s
  | S fuel' => match strip_ws ws s with Some r => trim_start_fuel ws fuel' r | None => s end
  end.
(** Each round removes at least one byte, so [String.length s] rounds are enough. *)
Definition trim_start (s : string) : string := trim_start_fuel unicode_ws (String.length s) s.
Definition trim_end (s : string) : string :=
  String.rev (trim_start_fuel (String.rev <$> unicode_ws) (String.length s) (String.rev s)).
Definition trim (s : string) : string := trim_end (trim_start s).

(** [str::ends_with] and [str::trim_end_matches] for one character. *)
Definition ends_with (c : ascii) (s : string) : bool :=
  match String.rev s with String d _ => bool_decide (c = d) | EmptyString => false end.
Fixpoint drop_leading (c : ascii) (s : string) : string :=
  match s with
  | String d s' => if decide (c = d) then drop_leading c s' else s
  | EmptyString => s
  end.
Definition trim_end_matches (c : ascii) (s : string) : string := String.rev (drop_leading c (String.rev s)).

(** ** ASCII case *)

Definition ascii_lower (c : ascii) : ascii :=
  if bool_decide (65 <= nat_of_ascii c <= 90) then ascii_of_nat (nat_of_ascii c + 32) else c.
Fixpoint to_lower (s : string) : string :=
  match s with EmptyString => EmptyString | String c s' => String (ascii_lower c) (to_lower s') end.
Definition eq_ignore_ascii_case (a b : string) : bool := bool_decide (to_lower a = to_lower b).

(** [str::split] with one character: always at least one piece. *)
Fixpoint split_char (sep : ascii) (s : string) : list string :=
  match s with
  | EmptyString => [EmptyString]
  | String c s' =>
      if decide (c = sep) then EmptyString :: split_char sep s'
      else match split_char sep s' with
           | p :: ps => String c p :: ps
           | [] => [String c EmptyString]
           end
  end.

(** [<[String]>::join] *)
Fixpoint join (sep : string) (ss : list string) : string :=
  match ss with
  | [] => EmptyString
  | [s] => s
  | s :: ss' => s +:+ sep +:+ join sep ss'
  end.

(** [str::strip_suffix] and [str::rsplit_once] with one character. *)
Definition strip_suffix (p s : string) : option string :=
  String.rev <$> strip_prefix (String.rev p) (String.rev s).
Definition rsplit_once (sep : ascii) (s : string) : option (string * string) :=
  match split_once (String sep EmptyString) (String.rev s) with
  | Some (b, a) => Some (String.rev a, String.rev b)
  | None => None
  end.

Lemma split_join sep s : join (String sep EmptyString) (split_char sep s) = s.
Proof.
  induction s as [|c s IH]; [done|]. cbn [split_char]. destruct (decide (c = sep)) as [->|Hne].
  - assert (split_char sep s <> []) as Hn by (destruct s; simpl; [done|]; repeat case_match; done).
    destruct (split_char sep s) as [|p ps]; [done|]. cbn [join]. rewrite str_nil_app, str_cons_app, str_nil_app.
    cbn [join] in IH. by rewrite IH.
  - destruct (split_char sep s) as [|p ps]; [by rewrite <- IH|].
    rewrite <- IH. destruct ps; cbn [join]; by rewrite ?str_cons_app.
Qed.

(** ** Splitting and reversing *)

Lemma dedup_cons_cons {A} `{EqDecision A} (x y : A) l :
  dedup (x :: y :: l) = if decide (x = y) then dedup (y :: l) else x :: dedup (y :: l).
Proof. done. Qed.

Lemma elem_of_dedup {A} `{EqDecision A} (x : A) l : x ∈ dedup l <-> x ∈ l.
Proof.
  induction l as [|y [|z l] IH]; [done..|]. rewrite dedup_cons_cons. destruct (decide (y = z)) as [->|].
  - rewrite IH, !elem_of_cons. naive_solver.
  - rewrite elem_of_cons, IH, (elem_of_cons (z :: l)). done.
Qed.

Definition no_char (c : ascii) (s : string) : bool := str_forall (fun d => negb (bool_decide (d = c))) s.

Lemma split_char_app sep s t :
  no_char sep s = true -> split_char sep (s +:+ String sep t) = s :: split_char sep t.
Proof.
  unfold no_char. induction s as [|c s IH]; rewrite ?str_nil_app, ?str_cons_app; cbn [split_char str_forall].
  - by rewrite decide_True.
  - intros Hb. boolify. rewrite decide_False by done. by rewrite IH.
Qed.

Lemma split_char_single sep s : no_char sep s = true -> split_char sep s = [s].
Proof.
  unfold no_char. induction s as [|c s IH]; cbn [split_char str_forall]; [done|].
  intros Hb. boolify. rewrite decide_False by done. by rewrite IH.
Qed.

Lemma split_char_join sep ss :
  ss <> [] -> Forall (fun s => no_char sep s = true) ss ->
  split_char sep (join (String sep EmptyString) ss) = ss.
Proof.
  intros Hne Hall. induction Hall as [|s ss Hs Hall IH]; [done|].
  destruct ss as [|s' ss]; [by apply split_char_single|].
  change (join (String sep EmptyString) (s :: s' :: ss))
    with (s +:+ String sep EmptyString +:+ join (String sep EmptyString) (s' :: ss)).
  rewrite str_cons_app, str_nil_app, split_char_app by done. by rewrite IH.
Qed.

Lemma str_forall_impl (P Q : ascii -> bool) s :
  (forall c, P c = true -> Q c = true) -> str_forall P s = true -> str_forall Q s = true.
Proof.
  intros HPQ. induction s as [|c s IH]; [done|]. cbn [str_forall]. intros Hb. boolify.
  rewrite IH by done. by rewrite HPQ.
Qed.

Lemma split_once_app_char sep s t :
  no_char sep s = true -> split_once (String sep EmptyString) (s +:+ String sep t) = Some (s, t).
Proof.
  unfold no_char. induction s as [|c s IH]; rewrite ?str_nil_app, ?str_cons_app; cbn [split_once str_forall].
  - cbn [strip_prefix]. by rewrite decide_True.
  - intros Hb. boolify. cbn [strip_prefix]. rewrite decide_False by congruence. by rewrite IH.
Qed.

Lemma split_once_char_None sep s :
  no_char sep s = true -> split_once (String sep EmptyString) s = None.
Proof.
  unfold no_char. induction s as [|c s IH]; cbn [split_once str_forall strip_prefix]; [done|].
  intros Hb. boolify. rewrite decide_False by congruence. by rewrite IH.
Qed.

Lemma no_char_app c s t : no_char c (s +:+ t) = no_char c s && no_char c t.
Proof.
  unfold no_char. induction s as [|d s IH]; rewrite ?str_nil_app, ?str_cons_app; cbn [str_forall]; [done|].
  by rewrite IH, andb_assoc.
Qed.

Lemma str_rev_app (s t : string) : String.rev (s +:+ t) = String.rev t +:+ String.rev s.
Proof.
  assert (forall a b, String.rev_app a b = String.rev_app a EmptyString +:+ b) as Hacc.
  { induction a as [|c a IH]; intros b; cbn [String.rev_app]; [by rewrite str_nil_app|].
    rewrite IH, (IH (String c EmptyString)), str_app_assoc. done. }
  unfold String.rev. induction s as [|c s IH].
  - by rewrite str_nil_app, str_app_nil_r.
  - rewrite str_cons_app. cbn [String.rev_app]. by rewrite Hacc, IH, (Hacc s (String c EmptyString)), str_app_assoc.
Qed.

Lemma str_rev_rev s : String.rev (String.rev s) = s.
Proof.
  induction s as [|c s IH]; [done|].
  change (String c s) with (String c EmptyString +:+ s) at 1. by rewrite !str_rev_app, IH.
Qed.

Lemma no_char_rev c s : no_char c (String.rev s) = no_char c s.
Proof.
  induction s as [|d s IH]; [done|].
  change (String d s) with (String d EmptyString +:+ s).
  rewrite str_rev_app, !no_char_app, IH, andb_comm. done.
Qed.

Lemma strip_suffix_app s suf : strip_suffix suf (s +:+ suf) = Some s.
Proof. unfold strip_suffix. rewrite str_rev_app, strip_prefix_app. simpl. by rewrite str_rev_rev. Qed.

Lemma strip_suffix_other s suf c rest c' rest' :
  String.rev suf = String c rest -> String.rev s = String c' rest' -> c <> c' -> strip_suffix suf s = None.
Proof. unfold strip_suffix. intros -> -> Hne. cbn [strip_prefix]. by rewrite decide_False. Qed.

Lemma rsplit_once_app sep s t :
  no_char sep t = true -> rsplit_once sep (s +:+ String sep t) = Some (s, t).
Proof.
  intros Ht. unfold rsplit_once.
  change (String sep t) with (String sep EmptyString +:+ t).
  rewrite !str_rev_app, str_app_assoc.
  change (String.rev (String sep EmptyString) +:+ String.rev s) with (String sep (String.rev s)).
  rewrite split_once_app_char by by rewrite no_char_rev. by rewrite !str_rev_rev.
Qed.
