(* ===== verification/Schema.v ===== *)
(** * Schema: keys, states and task members of the ID-list index

    Models [src/src/datastore/idlist_membership/schema.rs] up to the dictionary
    client (which is in [Dict.v]), the manifest entry of
    [src/src/datastore/id_list_manifest.rs] and [apply_key_prefix] of
    [src/src/datastore/caching/redis_pool.rs]. *)
From S2P Require Import Prelude.
From Stdlib Require DecimalString.

(** ** Manifest entries and file metadata *)

Record IdListManifestEntry := {
  entry_name : string;
  entry_size : N;
  entry_url : string;
  entry_creation_time : N;
  entry_file_id : string;
}.

Record IdListMetadata := {
  meta_file_id : string;
  meta_creation_time : N;
  meta_url : string;
  meta_size : N;
}.

#[export] Instance manifest_entry_eq_dec : EqDecision IdListManifestEntry.
Proof. solve_decision. Defined.
#[export] Instance metadata_eq_dec : EqDecision IdListMetadata.
Proof. solve_decision. Defined.

Definition metadata_of_entry (entry : IdListManifestEntry) : IdListMetadata := {|
  meta_file_id := entry_file_id entry;
  meta_creation_time := entry_creation_time entry;
  meta_url := entry_url entry;
  meta_size := entry_size entry;
|}.

(** ** Hashing of keys and company identifiers

    SHA-256 and the standard base64 encoding are third-party crates: a digest is
    32 bytes, so its padded encoding is 44 characters of the base64 alphabet. *)

Definition is_base64_char (c : ascii) : bool :=
  let n := nat_of_ascii c in
  bool_decide (65 <= n <= 90) || bool_decide (97 <= n <= 122) || bool_decide (48 <= n <= 57)
  || bool_decide (n = 43) || bool_decide (n = 47) || bool_decide (n = 61).

Class Digest := {
  sha256_base64 : string -> string;
  sha256_base64_length : forall s, String.length (sha256_base64 s) = 44;
  sha256_base64_alphabet : forall s, str_forall is_base64_char (sha256_base64 s) = true;
}.

Section Hashing.
Context `{Digest}.

Definition hash_server_key (sdk_key : string) : string := sha256_base64 sdk_key.

(** [BASE64_STANDARD.encode(..)[..4]] *)
Definition hash_company_id (company_id : string) : string :=
  String.substring 0 4 (sha256_base64 company_id).
End Hashing.

(** ** The per-list synchronization state *)

Module state_fields.
Definition VERSION : string := "version".
Definition FILE_ID : string := "file_id".
Definition URL : string := "url".
Definition CREATION_TIME : string := "creation_time".
Definition SIZE : string := "size".
Definition CARDINALITY : string := "cardinality".
Definition LOADING_CARDINALITY : string := "loading_cardinality".
Definition RECONCILE_REQUIRED : string := "reconcile_required".
Definition LOADING_VERSION : string := "loading_version".
Definition LOADING_SIZE : string := "loading_size".
Definition DIFF_PARTITION : string := "diff_partition".
Definition REMOVAL_FANOUT_COMPLETE : string := "removal_fanout_complete".
End state_fields.

Module task_meta_fields.
Definition OP : string := "op".
Definition URL : string := "url".
Definition FILE_ID : string := "file_id".
Definition CREATION_TIME : string := "creation_time".
Definition SIZE : string := "size".
End task_meta_fields.

Definition TASK_OP_LOAD : string := "load".
Definition TASK_OP_REMOVE : string := "remove".
Definition DEFAULT_WORKER_CLAIM_TTL_S : N := 60.
Definition REVERSE_INDEX_DISABLED : string := "__reverse_index_disabled".

Record ListSyncState := {
  reverse_index_disabled : bool;
  version : string;
  file_id : string;
  url : string;
  creation_time : N;
  size_ : N;
  cardinality : option N;
  loading_cardinality : option N;
  reconcile_required : bool;
  loading_version : option string;
  loading_size : option N;
  diff_partition : option N;
}.

(** [#[derive(Default)]] *)
Definition ListSyncState_default : ListSyncState := {|
  reverse_index_disabled := false; version := ""; file_id := ""; url := "";
  creation_time := 0; size_ := 0; cardinality := None; loading_cardinality := None;
  reconcile_required := false; loading_version := None; loading_size := None;
  diff_partition := None;
|}.

(** [if let Some(v) = o { fields.push((k, v)) }] *)
Definition push_opt (k : string) (o : option string) : list (string * string) :=
  match o with Some v => [(k, v)] | None => [] end.
Definition flag (b : bool) : option string := if b then Some "1" else None.

Definition to_hash_fields (s : ListSyncState) : list (string * string) :=
  [ (state_fields.VERSION, version s);
    (state_fields.FILE_ID, file_id s);
    (state_fields.URL, url s);
    (state_fields.CREATION_TIME, show_u64 (creation_time s));
    (state_fields.SIZE, show_u64 (size_ s)) ]
  ++ push_opt REVERSE_INDEX_DISABLED (flag (reverse_index_disabled s))
  ++ push_opt state_fields.CARDINALITY (show_u64 <$> cardinality s)
  ++ push_opt state_fields.LOADING_CARDINALITY (show_u64 <$> loading_cardinality s)
  ++ push_opt state_fields.RECONCILE_REQUIRED (flag (reconcile_required s))
  ++ push_opt state_fields.LOADING_VERSION (loading_version s)
  ++ push_opt state_fields.LOADING_SIZE (show_u64 <$> loading_size s)
  ++ push_opt state_fields.DIFF_PARTITION (show_u64 <$> diff_partition s).

Definition from_hash_fields (fields : gmap string string) : ListSyncState := {|
  reverse_index_disabled := bool_decide (is_Some (fields !! REVERSE_INDEX_DISABLED));
  version := default "" (fields !! state_fields.VERSION);
  file_id := default "" (fields !! state_fields.FILE_ID);
  url := default "" (fields !! state_fields.URL);
  creation_time := default 0%N (fields !! state_fields.CREATION_TIME ≫= parse_u64);
  size_ := default 0%N (fields !! state_fields.SIZE ≫= parse_u64);
  cardinality := fields !! state_fields.CARDINALITY ≫= parse_u64;
  loading_cardinality := fields !! state_fields.LOADING_CARDINALITY ≫= parse_u64;
  reconcile_required := bool_decide (is_Some (fields !! state_fields.RECONCILE_REQUIRED));
  loading_version := fields !! state_fields.LOADING_VERSION;
  loading_size := fields !! state_fields.LOADING_SIZE ≫= parse_u64;
  diff_partition := fields !! state_fields.DIFF_PARTITION ≫= parse_u32;
|}.

(** ** Component escaping *)

Fixpoint escape_component (s : string) : string :=
  match s with
  | EmptyString => EmptyString
  | String ch s' =>
      if decide (ch = "%"%char) then "%25" +:+ escape_component s'
      else if decide (ch = ":"%char) then "%3A" +:+ escape_component s'
      else String ch (escape_component s')
  end.

(** The two characters after a [%] are taken and compared with [25] and [3A];
    fewer than two, or any others, are malformed. *)
Fixpoint unescape_component (s : string) : option string :=
  match s with
  | EmptyString => Some EmptyString
  | String ch s' =>
      if decide (ch = "%"%char) then
        match s' with
        | String h1 (String h2 rest) =>
            if decide (h1 = "2"%char /\ h2 = "5"%char) then String "%" <$> unescape_component rest
            else if decide (h1 = "3"%char /\ h2 = "A"%char) then String ":" <$> unescape_component rest
            else None
        | _ => None
        end
      else String ch <$> unescape_component s'
  end.

(** ** The key schema *)

Definition apply_key_prefix (prefix key : string) : string :=
  let prefix := trim prefix in
  if str_empty prefix then key
  else if ends_with ":" prefix then prefix +:+ key
  else prefix +:+ ":" +:+ key.

Record IdListKeySchema := { key_prefix : string }.

Section Keys.
Context (self : IdListKeySchema).

Definition prefixed (key : string) : string := apply_key_prefix (key_prefix self) key.
Definition dict_key (skh : string) : string := prefixed ("idlist::dict::" +:+ skh).
Definition member_key (skh lookup_id : string) : string :=
  prefixed ("i:" +:+ skh +:+ escape_component lookup_id).
Definition fwd_hash_tag (skh list : string) : string :=
  "{" +:+ skh +:+ "::" +:+ escape_component list +:+ "}".
Definition fwd_key (skh list ver : string) : string :=
  prefixed ("idlist::fwd::" +:+ fwd_hash_tag skh list +:+ "::" +:+ escape_component ver).
Definition state_key (skh list : string) : string :=
  prefixed ("idlist::" +:+ skh +:+ "::" +:+ escape_component list +:+ "::state").
Definition claim_key (skh list : string) : string :=
  prefixed ("idlist::claim::" +:+ skh +:+ "::" +:+ escape_component list).
Definition queue_key : string := prefixed "idlist::queue::pending".
Definition task_meta_key (skh list : string) : string :=
  prefixed ("idlist::task_meta::" +:+ skh +:+ "::" +:+ escape_component list).
Definition all_lists_key (skh : string) : string := prefixed ("idlist::" +:+ skh +:+ "::__all").
Definition ready_key (skh : string) : string := prefixed ("idlist::" +:+ skh +:+ "::__ready").
Definition producer_lock_key : string := prefixed "idlist::producer_lock".
End Keys.

Definition version_tag (meta : IdListMetadata) : string :=
  if str_empty (meta_file_id meta) then show_u64 (meta_creation_time meta)
  else meta_file_id meta +:+ "@" +:+ show_u64 (meta_creation_time meta).

Definition encode_task (skh list : string) : string := skh +:+ "::" +:+ escape_component list.

Definition decode_task (member : string) : option (string * string) :=
  '(skh, rest) ← split_once "::" member;
  list ← unescape_component rest;
  Some (skh, list).

(** ** Lemmas: escaping *)

Definition colon_free (s : string) : Prop := str_forall (fun c => bool_decide (c <> ":"%char)) s = true.

Lemma str_forall_app P a b : str_forall P (a +:+ b) = str_forall P a && str_forall P b.
Proof.
  induction a as [|c a IH]; [done|]. rewrite str_cons_app. simpl. by rewrite IH, andb_assoc.
Qed.

Lemma colon_free_app a b : colon_free (a +:+ b) <-> colon_free a /\ colon_free b.
Proof. unfold colon_free. rewrite str_forall_app. apply andb_true_iff. Qed.

Lemma escape_colon_free s : colon_free (escape_component s).
Proof.
  induction s as [|c s IH]; [done|]. simpl.
  repeat case_decide; subst; try (apply colon_free_app; by split).
  unfold colon_free in *. simpl. by rewrite bool_decide_eq_true_2.
Qed.
#[export] Hint Resolve escape_colon_free : sfp.

Lemma unescape_pct25 e : unescape_component ("%25" +:+ e) = String "%" <$> unescape_component e.
Proof. done. Qed.
Lemma unescape_pct3A e : unescape_component ("%3A" +:+ e) = String ":" <$> unescape_component e.
Proof. done. Qed.

Lemma unescape_escape_id s : unescape_component (escape_component s) = Some s.
Proof.
  induction s as [|c s IH]; [done|]. simpl.
  repeat case_decide; subst.
  - by rewrite unescape_pct25, IH.
  - by rewrite unescape_pct3A, IH.
  - simpl. by rewrite decide_False, IH by done.
Qed.

Lemma escape_inj s t : escape_component s = escape_component t -> s = t.
Proof.
  intros H. apply (inj Some). rewrite <- (unescape_escape_id s), H. apply unescape_escape_id.
Qed.

(** A colon-free prefix ends at the first colon, so it can be read back. *)
Lemma colon_free_split a a' b b' :
  colon_free a -> colon_free a' ->
  a +:+ String ":" b = a' +:+ String ":" b' -> a = a' /\ b = b'.
Proof.
  revert a'. induction a as [|c a IH]; intros [|c' a'] Ha Ha' H;
    rewrite ?str_cons_app, ?str_nil_app in H; unfold colon_free in *; simpl in *; boolify;
    simplify_eq; try done.
  destruct (IH a') as [-> ->]; done.
Qed.

Lemma colon_free_not_split a b c : colon_free c -> a +:+ String ":" b <> c.
Proof.
  intros Hc <-. apply colon_free_app in Hc as [_ Hc]. by unfold colon_free in Hc.
Qed.

Lemma split_once_colons a b :
  colon_free a -> split_once "::" (a +:+ "::" +:+ b) = Some (a, b).
Proof.
  induction a as [|c a IH]; intros Ha.
  - unfold split_once. change ("" +:+ "::" +:+ b) with ("::" +:+ b).
    destruct ("::" +:+ b) eqn:E; [done|]. by rewrite <- E, strip_prefix_app.
  - unfold colon_free in Ha. simpl in Ha. boolify. rewrite str_cons_app.
    change (split_once "::" (String c (a +:+ "::" +:+ b))) with
      (match strip_prefix "::" (String c (a +:+ "::" +:+ b)) with
       | Some rest => Some (EmptyString, rest)
       | None => match split_once "::" (a +:+ "::" +:+ b) with
                 | Some (x, y) => Some (String c x, y) | None => None end
       end).
    rewrite IH by done. simpl. by rewrite decide_False by congruence.
Qed.

(** ** Lemmas: hashed namespaces *)

(** What a Redis namespace looks like: four characters of the base64 alphabet. *)
Definition namespace_ok (skh : string) : Prop :=
  String.length skh = 4 /\ str_forall is_base64_char skh = true.

Lemma base64_not_colon c : is_base64_char c = true -> c <> ":"%char.
Proof. intros H ->. by vm_compute in H. Qed.

Lemma base64_colon_free s : str_forall is_base64_char s = true -> colon_free s.
Proof.
  unfold colon_free. induction s as [|c s IH]; simpl; intros; [done|]. boolify.
  rewrite bool_decide_eq_true_2 by (by apply base64_not_colon). by apply IH.
Qed.

Lemma namespace_ok_colon_free skh : namespace_ok skh -> colon_free skh.
Proof. intros [_ ?]. by apply base64_colon_free. Qed.
#[export] Hint Resolve namespace_ok_colon_free : sfp.

Lemma substring_prefix n s : n <= String.length s ->
  exists r, s = String.substring 0 n s +:+ r /\ String.length (String.substring 0 n s) = n.
Proof.
  revert s. induction n as [|n IH]; intros [|c s] Hl; simpl in *; try lia.
  - by exists EmptyString.
  - by exists (String c s).
  - destruct (IH s) as (r & Hr & Hlen); [lia|]. exists r. rewrite str_cons_app, <- Hr, Hlen. done.
Qed.

Lemma hash_company_id_ok `{Digest} id : namespace_ok (hash_company_id id).
Proof.
  unfold hash_company_id. pose proof (sha256_base64_length id) as Hl.
  destruct (substring_prefix 4 (sha256_base64 id)) as (r & Hr & Hlen); [lia|].
  split; [done|]. pose proof (sha256_base64_alphabet id) as Ha.
  rewrite Hr, str_forall_app in Ha. by boolify.
Qed.

(** ** Key collisions

    Every key the schema can build, as data; [render_key] is the schema's own
    constructors. *)

Inductive redis_key : Type :=
| KDict (skh : string)
| KMember (skh lookup_id : string)
| KFwd (skh list ver : string)
| KState (skh list : string)
| KClaim (skh list : string)
| KQueue
| KTaskMeta (skh list : string)
| KAll (skh : string)
| KReady (skh : string)
| KProducerLock.

Definition render_key (self : IdListKeySchema) (k : redis_key) : string :=
  match k with
  | KDict skh => dict_key self skh
  | KMember skh id => member_key self skh id
  | KFwd skh list ver => fwd_key self skh list ver
  | KState skh list => state_key self skh list
  | KClaim skh list => claim_key self skh list
  | KQueue => queue_key self
  | KTaskMeta skh list => task_meta_key self skh list
  | KAll skh => all_lists_key self skh
  | KReady skh => ready_key self skh
  | KProducerLock => producer_lock_key self
  end.

Definition key_namespace_ok (k : redis_key) : Prop :=
  match k with
  | KDict skh | KMember skh _ | KFwd skh _ _ | KState skh _ | KClaim skh _
  | KTaskMeta skh _ | KAll skh | KReady skh => namespace_ok skh
  | KQueue | KProducerLock => True
  end.

Lemma prefixed_inj self a b : prefixed self a = prefixed self b -> a = b.
Proof.
  unfold prefixed, apply_key_prefix. intros Heq. repeat case_match; [done| |].
  - by apply str_app_inj_l in Heq.
  - by do 2 apply str_app_inj_l in Heq.
Qed.

Lemma namespace_ok_chars skh : namespace_ok skh -> exists c1 c2 c3 c4,
  skh = String c1 (String c2 (String c3 (String c4 EmptyString)))
  /\ c1 <> ":"%char /\ c2 <> ":"%char /\ c3 <> ":"%char /\ c4 <> ":"%char.
Proof.
  intros [Hl Ha].
  destruct skh as [|c1 [|c2 [|c3 [|c4 [|]]]]]; simplify_eq/=. boolify.
  exists c1, c2, c3, c4. split_and!; [done|by apply base64_not_colon..].
Qed.

(** [a ++ "::" ++ b] read at its first colon. *)
Lemma colons_split a a' b b' :
  colon_free a -> colon_free a' -> a +:+ "::" +:+ b = a' +:+ "::" +:+ b' -> a = a' /\ b = b'.
Proof.
  intros Ha Ha' H. rewrite !str_cons_app, !str_nil_app in H.
  apply colon_free_split in H as [-> H]; [|done..]. by simplify_eq.
Qed.

(** Exposes the characters of literals and of four-character namespaces, and
    closes the pairs of keys that already differ in one of them. *)
Ltac expose_chars :=
  repeat match goal with
  | H : namespace_ok _ |- _ =>
      apply namespace_ok_chars in H as (? & ? & ? & ? & -> & ? & ? & ? & ?)
  end;
  repeat (rewrite ?str_cons_app, ?str_nil_app in * ); simplify_eq; try done.

Lemma escape_then_colon e b c :
  colon_free c -> escape_component e +:+ "::" +:+ b <> c.
Proof. intros Hc. rewrite !str_cons_app, !str_nil_app. by apply colon_free_not_split. Qed.

Lemma esc_app_length e b : String.length (escape_component e +:+ b) >= String.length b.
Proof. rewrite str_app_length. lia. Qed.

Lemma app_same_tail_inj (a b t : string) : a +:+ t = b +:+ t -> a = b.
Proof.
  intros H. apply str_app_inj_len in H as [-> _]; [done|].
  apply (f_equal String.length) in H. rewrite !str_app_length in H. lia.
Qed.

Lemma lookup_push_ne k k' o (l : list (string * string)) :
  k <> k' -> (list_to_map (push_opt k o ++ l) : gmap string string) !! k'
  = (list_to_map l : gmap string string) !! k'.
Proof. intros. destruct o; simpl; [by apply lookup_insert_ne|done]. Qed.

Lemma lookup_push_eq k o (l : list (string * string)) :
  (list_to_map l : gmap string string) !! k = None ->
  (list_to_map (push_opt k o ++ l) : gmap string string) !! k = o.
Proof. intros. destruct o; simpl; [by apply lookup_insert_eq|done]. Qed.

Lemma to_hash_fields_lookup s (m : gmap string string) :
  m = list_to_map (to_hash_fields s) ->
  m !! state_fields.VERSION = Some (version s) /\
  m !! state_fields.FILE_ID = Some (file_id s) /\
  m !! state_fields.URL = Some (url s) /\
  m !! state_fields.CREATION_TIME = Some (show_u64 (creation_time s)) /\
  m !! state_fields.SIZE = Some (show_u64 (size_ s)) /\
  m !! REVERSE_INDEX_DISABLED = flag (reverse_index_disabled s) /\
  m !! state_fields.CARDINALITY = show_u64 <$> cardinality s /\
  m !! state_fields.LOADING_CARDINALITY = show_u64 <$> loading_cardinality s /\
  m !! state_fields.RECONCILE_REQUIRED = flag (reconcile_required s) /\
  m !! state_fields.LOADING_VERSION = loading_version s /\
  m !! state_fields.LOADING_SIZE = show_u64 <$> loading_size s /\
  m !! state_fields.DIFF_PARTITION = show_u64 <$> diff_partition s.
Proof.
  intros ->. unfold to_hash_fields.
  cbn [app list_to_map foldr uncurry fst snd].
  rewrite <- (app_nil_r (push_opt state_fields.DIFF_PARTITION _)).
  split_and!;
    repeat first [rewrite lookup_insert_eq; done | rewrite lookup_insert_ne by done
                 | rewrite lookup_push_ne by done
                 | apply lookup_push_eq | apply lookup_empty].
Qed.

Definition state_bounded (s : ListSyncState) : Prop :=
  is_u64 (creation_time s) /\ is_u64 (size_ s) /\
  (forall v, cardinality s = Some v -> is_u64 v) /\
  (forall v, loading_cardinality s = Some v -> is_u64 v) /\
  (forall v, loading_size s = Some v -> is_u64 v) /\
  (forall v, diff_partition s = Some v -> (v ≤ u32_max)%N).

Lemma option_parse_show b (o : option N) :
  (forall v, o = Some v -> (v ≤ b)%N) -> (show_u64 <$> o) ≫= parse_bounded b = o.
Proof. destruct o; simpl; [|done]. intros H. by apply parse_bounded_show, H. Qed.

(** ** Lemmas: version tags *)

Definition at_free (s : string) : Prop := str_forall (fun c => bool_decide (c <> "@"%char)) s = true.

Lemma show_uint_at_free d : at_free (DecimalString.NilEmpty.string_of_uint d).
Proof. by induction d. Qed.

Lemma show_u64_at_free n : at_free (show_u64 n).
Proof. unfold show_u64. pose proof (show_uint_at_free (N.to_uint n)). by destruct (N.to_uint n). Qed.

Lemma at_suffix_absurd a x y : at_free x -> x <> a +:+ String "@" y.
Proof. unfold at_free. intros Hx ->. rewrite str_forall_app in Hx. simpl in Hx. by boolify. Qed.

Lemma at_free_split a a' x x' :
  at_free x -> at_free x' -> a +:+ String "@" x = a' +:+ String "@" x' -> a = a' /\ x = x'.
Proof.
  intros Hx Hx'. revert a'. induction a as [|c a IH]; intros [|c' a'] H;
    rewrite ?str_cons_app, ?str_nil_app in H; simplify_eq; try done.
  - by destruct (at_suffix_absurd _ _ _ Hx eq_refl).
  - by destruct (at_suffix_absurd _ _ _ Hx' eq_refl).
  - by destruct (IH a') as [-> ->].
Qed.

(** ** Properties *)

(** a version tag determines the file it names: two snapshots share a
    forward-set version only when both file identifier and creation time agree. *)
Theorem version_tag_inj (m m' : IdListMetadata) :
  version_tag m = version_tag m' ->
  meta_file_id m = meta_file_id m' /\ meta_creation_time m = meta_creation_time m'.
Proof.
  unfold version_tag, str_empty. intros H. repeat case_bool_decide;
    rewrite ?str_cons_app, ?str_nil_app in H.
  - by split; [congruence|apply show_u64_inj].
  - by apply at_suffix_absurd in H; [|apply show_u64_at_free].
  - symmetry in H. by apply at_suffix_absurd in H; [|apply show_u64_at_free].
  - apply at_free_split in H as [-> H]; [|apply show_u64_at_free..].
    split; [done|]. by apply show_u64_inj.
Qed.

Lemma version_tag_inj_witness :
  let m := {| meta_file_id := "a@1"; meta_creation_time := 2; meta_url := "u"; meta_size := 3 |} in
  meta_file_id m = meta_file_id m /\ meta_creation_time m = meta_creation_time m.
Proof. intros m. apply version_tag_inj. reflexivity. Defined.

(** unescaping reverses escaping for every list name, so the colon
    delimiters of keys and queue members never lose a character of a name. *)
Theorem unescape_escape (s : string) : unescape_component (escape_component s) = Some s.
Proof. apply unescape_escape_id. Qed.

Lemma decode_encode_id (skh list : string) :
  namespace_ok skh -> decode_task (encode_task skh list) = Some (skh, list).
Proof.
  intros Hns. unfold decode_task, encode_task.
  rewrite split_once_colons by auto with sfp. simpl. by rewrite unescape_escape_id.
Qed.

(** a queue member decodes to the namespace and list name it was encoded
    from, for every list name and every namespace of base64 characters. *)
Theorem decode_encode_task (skh list : string) :
  namespace_ok skh -> decode_task (encode_task skh list) = Some (skh, list).
Proof. apply decode_encode_id. Qed.

Lemma decode_encode_task_witness : decode_task (encode_task "aB3/" "a::b%") = Some ("aB3/", "a::b%").
Proof. apply decode_encode_task. by split. Defined.

Lemma render_key_inj_id self k k' :
  key_namespace_ok k -> key_namespace_ok k' ->
  render_key self k = render_key self k' -> k = k'.
Proof.
  intros Hk Hk' H.
  destruct k, k'; simpl in *; apply prefixed_inj in H; unfold fwd_hash_tag in *; expose_chars.
  all: repeat match goal with
    | H : escape_component _ = escape_component _ |- _ => apply escape_inj in H; by subst
    | H : _ +:+ "::state" = _ +:+ "::state" |- _ => apply app_same_tail_inj in H
    | H : _ = escape_component _ +:+ "::state" |- _ => symmetry in H
    | H : escape_component ?e +:+ "::state" = _ |- _ =>
        exfalso; apply (f_equal String.length) in H as Hl; rewrite str_app_length in Hl;
        simpl in Hl; first [lia | by apply escape_then_colon in H]
    end.
  match goal with H : (_ +:+ "}") +:+ _ = _ |- _ => rename H into Hf end.
  apply colon_free_split in Hf as [Hf Hv]; [|apply colon_free_app; split; [auto with sfp|done]..].
  apply app_same_tail_inj, escape_inj in Hf. simplify_eq. by apply escape_inj in Hv as ->.
Qed.

(** the schema never maps two different logical keys to one Redis key:
    with namespaces as [hash_company_id] builds them, the dictionary, member,
    forward, state, claim, queue, task, list-set, readiness and lock keys of all
    companies, lists, versions and members are pairwise different, whatever the
    configured prefix. *)
Theorem render_key_inj self k k' :
  key_namespace_ok k -> key_namespace_ok k' ->
  render_key self k = render_key self k' -> k = k'.
Proof. apply render_key_inj_id. Qed.

Lemma render_key_inj_witness :
  render_key {| key_prefix := "sfp" |} (KState "dict" "l") <>
  render_key {| key_prefix := "sfp" |} (KDict "l+/s").
Proof.
  intros H. apply render_key_inj in H; [done| |]; by split.
Defined.

(** writing a synchronization state to its Redis hash and reading it back
    gives the same state, whenever its numbers fit their Rust types. *)
Theorem state_hash_roundtrip (s : ListSyncState) :
  state_bounded s -> from_hash_fields (list_to_map (to_hash_fields s)) = s.
Proof.
  intros (Hc & Hz & Hcard & Hlc & Hls & Hdp).
  destruct (to_hash_fields_lookup s _ eq_refl)
    as (E1 & E2 & E3 & E4 & E5 & E6 & E7 & E8 & E9 & E10 & E11 & E12).
  unfold from_hash_fields, parse_u64, parse_u32.
  rewrite E1, E2, E3, E4, E5, E6, E7, E8, E9, E10, E11, E12. simpl.
  rewrite !parse_bounded_show, !option_parse_show by done.
  destruct s as [[] ? ? ? ? ? ? ? [] ? ? ?]; reflexivity.
Qed.

Lemma state_hash_roundtrip_witness :
  let s := {| reverse_index_disabled := true; version := "f@1"; file_id := "f"; url := "u";
              creation_time := u64_max; size_ := 7; cardinality := Some 3%N;
              loading_cardinality := None; reconcile_required := false;
              loading_version := Some "g@2"; loading_size := Some 0%N;
              diff_partition := Some u32_max |} in
  from_hash_fields (list_to_map (to_hash_fields s)) = s.
Proof.
  apply state_hash_roundtrip. unfold state_bounded, is_u64; simpl.
  split_and!; intros; simplify_eq; by vm_compute.
Defined.
