(* ===== verification/Planning.v ===== *)
(** * Planning: what work a list needs, and the order of the task queue

    Models [src/src/datastore/idlist_membership/redis_syncer/planning.rs]. The
    producer and the worker both plan with these functions. *)
From S2P Require Import Prelude Schema.

Definition DEFAULT_SYNC_INTERVAL_S : N := 60.
Definition CLASS_SCORE_BASE : N := 2 ^ 40.
Definition MIN_ATTEMPT_INTERVAL_S : N := 5.

Inductive SyncAction :=
| FullLoad
| Delta (lag : N)
| Remove.

#[export] Instance sync_action_eq_dec : EqDecision SyncAction.
Proof. solve_decision. Defined.

Definition action_class (a : SyncAction) : nat :=
  match a with FullLoad => 0 | Delta _ => 1 | Remove => 2 end.
Definition action_lag (a : SyncAction) : N :=
  match a with Delta lag => lag | _ => 0%N end.
Definition op_str (a : SyncAction) : string :=
  match a with Remove => TASK_OP_REMOVE | FullLoad | Delta _ => TASK_OP_LOAD end.

Record DerivedTask := {
  task_skh : string;
  task_list : string;
  task_action : SyncAction;
  task_meta : option IdListMetadata;
}.

(** ** Full load, delta or nothing *)

Definition needs_work_with_reverse_index (state : option ListSyncState) (meta : IdListMetadata)
    (fwd_exists enable_reverse_index : bool) : option SyncAction :=
  match state with
  | None => Some FullLoad
  | Some state =>
      if str_empty (version state) then Some FullLoad
      else if negb (bool_decide (meta_file_id meta = file_id state)) then
        if bool_decide (creation_time state < meta_creation_time meta)%N then Some FullLoad else None
      else if enable_reverse_index && reverse_index_disabled state then Some FullLoad
      else if bool_decide (is_Some (loading_version state)) then Some FullLoad
      else if bool_decide (0 < default (size_ state) (cardinality state))%N && negb fwd_exists
      then Some FullLoad
      else if bool_decide (size_ state < meta_size meta)%N
      then Some (Delta (meta_size meta - size_ state))
      else None
  end.

(** The committed file as a load target. *)
Definition committed_metadata (state : ListSyncState) : IdListMetadata := {|
  meta_file_id := file_id state;
  meta_creation_time := creation_time state;
  meta_url := url state;
  meta_size := size_ state;
|}.

Definition plan_sync_with_reverse_index (state : option ListSyncState) (meta : IdListMetadata)
    (fwd_exists enable_reverse_index : bool) : option (SyncAction * IdListMetadata) :=
  let target :=
    match state with
    | Some state =>
        if enable_reverse_index && reverse_index_disabled state && negb (str_empty (version state))
           && negb (bool_decide (meta_file_id meta = file_id state))
           && bool_decide (meta_creation_time meta <= creation_time state)%N
        then committed_metadata state
        else meta
    | None => meta
    end in
  (fun action => (action, target)) <$>
    needs_work_with_reverse_index state target fwd_exists enable_reverse_index.

Definition needs_work (state : option ListSyncState) (meta : IdListMetadata) (fwd_exists : bool)
    : option SyncAction :=
  fst <$> plan_sync_with_reverse_index state meta fwd_exists true.

(** ** Queue order *)

(** [Ordering::then_with] over the four comparisons of the sort closure. *)
Definition then_with (c d : comparison) : comparison := match c with Eq => d | _ => c end.
Definition task_cmp (a b : DerivedTask) : comparison :=
  then_with (Nat.compare (action_class (task_action a)) (action_class (task_action b)))
  (then_with (N.compare (action_lag (task_action b)) (action_lag (task_action a)))
  (then_with (String.compare (task_skh a) (task_skh b))
             (String.compare (task_list a) (task_list b)))).
Definition task_le (a b : DerivedTask) : bool :=
  match task_cmp a b with Gt => false | _ => true end.

Definition task_score (class : nat) (seq : N) : N := (N.of_nat class * CLASS_SCORE_BASE + seq)%N.

Definition task_key (task : DerivedTask) : string * string := (task_skh task, task_list task).

(** The dedupe loop: [seen] and the per-class sequence numbers are its state. *)
Fixpoint assign_scores (seen : gset (string * string)) (seq_by_class : list N)
    (tasks : list DerivedTask) : list (N * DerivedTask) :=
  match tasks with
  | [] => []
  | task :: tasks' =>
      if decide (task_key task ∈ seen) then assign_scores seen seq_by_class tasks'
      else
        let class := action_class (task_action task) in
        let seq := seq_by_class !!! class in
        (task_score class seq, task) ::
        assign_scores ({[task_key task]} ∪ seen) (<[class := (seq + 1)%N]> seq_by_class) tasks'
  end.

Definition order_and_dedupe_tasks (tasks : list DerivedTask) : list (N * DerivedTask) :=
  assign_scores ∅ [0%N; 0%N; 0%N] (sort_by task_le tasks).

(** ** Cadence and configuration *)

Definition producer_attempt_interval_s (interval_s : N) : N :=
  N.max (interval_s / 4) MIN_ATTEMPT_INTERVAL_S.

Definition parse_sync_interval (raw : option string) : N :=
  default DEFAULT_SYNC_INTERVAL_S
    (v ← raw ≫= parse_u64; if bool_decide (0 < v)%N then Some v else None).

Definition str_le (a b : string) : bool := String.leb a b.

Definition IDLIST_SYNC_KEYS_ENV : string := "SFP_IDLIST_SYNC_KEYS_JSON".

(** [serde_json::from_str(raw)] is the argument: the parsed array or its error. *)
Definition idlist_sync_keys_from_json (parsed : result string (list string))
    : result string (list string) :=
  keys ← map_err (fun error => "invalid JSON for " +:+ IDLIST_SYNC_KEYS_ENV +:+ ": " +:+ error) parsed;
  if existsb (fun key => str_empty (trim key)) keys
  then Err (IDLIST_SYNC_KEYS_ENV +:+ " cannot contain empty keys")
  else
    let keys := dedup (sort_by str_le keys) in
    match keys with
    | [] => Err (IDLIST_SYNC_KEYS_ENV +:+ " must contain at least one key")
    | _ => Ok keys
    end.

(** ** Lemmas: planning *)

(** The committed snapshot the state describes. *)
Definition committed (s : ListSyncState) : Prop := version s <> "".

(** The stale-manifest guard: another file, not newer than the committed one. *)
Definition stale_file (s : ListSyncState) (meta : IdListMetadata) : Prop :=
  meta_file_id meta <> file_id s /\ (meta_creation_time meta <= creation_time s)%N.

(** The forward set the state promises is there, or there is none to expect. *)
Definition forward_intact (s : ListSyncState) (fwd_exists : bool) : Prop :=
  default (size_ s) (cardinality s) = 0%N \/ fwd_exists = true.

Ltac plan_cases :=
  unfold plan_sync_with_reverse_index, needs_work_with_reverse_index, str_empty, committed,
    stale_file, forward_intact in *;
  repeat (simpl in *; case_bool_decide || case_match); boolify; simplify_eq/=.

(** ** Properties: planning *)

(** a stale manifest never rolls a committed list back. Whatever is planned
    for a committed list targets either the committed file itself or a different
    file whose creation time is strictly newer. *)
Theorem plan_no_rollback s meta fwd_exists enable action target :
  committed s ->
  plan_sync_with_reverse_index (Some s) meta fwd_exists enable = Some (action, target) ->
  meta_file_id target = file_id s \/
  (target = meta /\ action = FullLoad /\ (creation_time s < meta_creation_time target)%N).
Proof. intros Hc H. plan_cases; auto. Qed.

Lemma plan_no_rollback_witness :
  let s := {| reverse_index_disabled := true; version := "f@9"; file_id := "f"; url := "u";
              creation_time := 9; size_ := 7; cardinality := None; loading_cardinality := None;
              reconcile_required := false; loading_version := None; loading_size := None;
              diff_partition := None |} in
  let old := {| meta_file_id := "e"; meta_creation_time := 8; meta_url := "o"; meta_size := 99 |} in
  meta_file_id (committed_metadata s) = file_id s \/
  (committed_metadata s = old /\ FullLoad = FullLoad /\
   (creation_time s < meta_creation_time (committed_metadata s))%N).
Proof. intros s old. by apply (plan_no_rollback s old true true). Defined.

(** a delta is only planned to append to the committed file: same file
    identifier, no interrupted load, no pending reverse repair, an intact forward
    set, and strictly more bytes; its lag is exactly the missing suffix. *)
Theorem plan_delta_sound s meta fwd_exists enable lag target :
  plan_sync_with_reverse_index (Some s) meta fwd_exists enable = Some (Delta lag, target) ->
  target = meta /\ committed s /\ meta_file_id meta = file_id s /\
  loading_version s = None /\ enable && reverse_index_disabled s = false /\
  forward_intact s fwd_exists /\ (size_ s + lag = meta_size meta)%N /\ (0 < lag)%N.
Proof.
  intros H. plan_cases; split_and!; try done; try lia;
    try (destruct (loading_version s); naive_solver);
    try (destruct fwd_exists; naive_solver lia).
Qed.

Lemma plan_delta_sound_witness :
  let s := {| reverse_index_disabled := false; version := "f@9"; file_id := "f"; url := "u";
              creation_time := 9; size_ := 7; cardinality := Some 2%N; loading_cardinality := None;
              reconcile_required := false; loading_version := None; loading_size := None;
              diff_partition := None |} in
  let m := {| meta_file_id := "f"; meta_creation_time := 12; meta_url := "u"; meta_size := 20 |} in
  (size_ s + 13 = meta_size m)%N.
Proof. intros s m. by apply (plan_delta_sound s m true true 13 m). Defined.

(** exactly when nothing is planned. A list is left alone iff it has a
    committed version and either the manifest advertises another file that is not
    newer (and no reverse repair is pending), or it advertises the committed file
    with nothing left to load: no repair, no interrupted load, the forward set in
    place, and no byte beyond the checkpoint. *)
Theorem plan_none_iff state meta fwd_exists enable :
  plan_sync_with_reverse_index state meta fwd_exists enable = None <->
  exists s, state = Some s /\ committed s /\ enable && reverse_index_disabled s = false /\
    (stale_file s meta \/
     (meta_file_id meta = file_id s /\ loading_version s = None /\
      forward_intact s fwd_exists /\ (meta_size meta <= size_ s)%N)).
Proof.
  split.
  - intros H. destruct state as [s|]; [|done]. exists s.
    destruct (loading_version s) eqn:Hl; plan_cases;
      rewrite ?Hl, ?andb_true_r in *; split_and!; try done; try (left; split; [done|lia]);
      try (right; split_and!; [done|done| |lia]); try (destruct fwd_exists; naive_solver lia);
      try naive_solver.
  - intros (s & -> & Hc & Hd & Hcase). unfold committed in *.
    unfold plan_sync_with_reverse_index, needs_work_with_reverse_index, str_empty.
    rewrite bool_decide_eq_false_2 by done. simpl. rewrite Hd. simpl.
    destruct Hcase as [[Hne Hct]|(He & Hl & Hf & Hs)].
    + rewrite (bool_decide_eq_false_2 (_ = _)), (bool_decide_eq_false_2 (_ < _)%N); [done|lia|done].
    + rewrite bool_decide_eq_true_2, Hl by done. simpl.
      rewrite (bool_decide_eq_false_2 (size_ s < _)%N) by lia.
      destruct Hf as [-> | ->]; [done|]. by rewrite andb_false_r.
Qed.

(** ** Lemmas: queue order *)

(** A comparison of a total preorder: reversing the arguments reverses the
    outcome, and [<=] chains strictly as soon as one link is strict. *)
Definition cmp_ok {A} (c : A -> A -> comparison) : Prop :=
  (forall x y, c y x = CompOpp (c x y)) /\
  (forall x y z, c x y <> Gt -> c y z <> Gt ->
     c x z <> Gt /\ (c x z = Eq -> c x y = Eq /\ c y z = Eq)).

Lemma cmp_ok_flip {A} (c : A -> A -> comparison) : cmp_ok c -> cmp_ok (fun x y => c y x).
Proof.
  intros [Ho Ht]. split; [intros; apply Ho|]. intros x y z Hxy Hyz.
  destruct (Ht z y x) as [? Heq]; [done..|]. split; [done|].
  intros Hz. destruct (Heq Hz). done.
Qed.

Lemma cmp_ok_on {A B} (c : A -> A -> comparison) (f : B -> A) :
  cmp_ok c -> cmp_ok (fun x y => c (f x) (f y)).
Proof. intros [Ho Ht]. split; intros; [apply Ho|by apply Ht]. Qed.

Lemma cmp_ok_eq_trans {A} (c : A -> A -> comparison) x y z :
  cmp_ok c -> c x y = Eq -> c y z = Eq -> c x z = Eq.
Proof.
  intros [Ho Ht] Hxy Hyz. destruct (Ht x y z) as [H1 _]; [congruence..|].
  destruct (Ht z y x) as [H2 _]; [by rewrite Ho, ?Hxy, ?Hyz..|].
  rewrite Ho in H2. by destruct (c x z).
Qed.

Lemma cmp_ok_then {A} (c d : A -> A -> comparison) :
  cmp_ok c -> cmp_ok d -> cmp_ok (fun x y => then_with (c x y) (d x y)).
Proof.
  intros Hc Hd. pose proof Hc as [Hco Hct]. pose proof Hd as [Hdo Hdt]. split.
  - intros x y. rewrite Hco, Hdo. by destruct (c x y).
  - intros x y z Hxy Hyz.
    destruct (c x y) eqn:E1, (c y z) eqn:E2; simpl in *; try done.
    1: { rewrite (cmp_ok_eq_trans c x y z) by done. simpl. by apply Hdt. }
    all: destruct (Hct x y z) as [H1 H2]; [congruence..|];
      destruct (c x z); simpl; try done; destruct H2; congruence.
Qed.

Lemma string_cmp_ok : cmp_ok String.compare.
Proof.
  split.
  - intros x y. apply String.compare_antisym.
  - intros x y z Hxy Hyz.
    assert (forall a b, String.compare a b <> Gt <-> String.le a b) as Hle.
    { intros a b. unfold String.le, String.leb. by destruct (String.compare a b). }
    apply Hle in Hxy, Hyz. split; [apply Hle; by trans y|].
    intros ->%String.compare_eq_iff. assert (z = y) as -> by (by apply (anti_symm String.le)).
    pose proof (String.compare_antisym y y) as Hr. by destruct (String.compare y y).
Qed.

Lemma nat_cmp_ok : cmp_ok Nat.compare.
Proof.
  split; [intros; apply Nat.compare_antisym|]. intros x y z.
  rewrite !Nat.compare_le_iff, !Nat.compare_eq_iff. lia.
Qed.

Lemma N_cmp_ok : cmp_ok N.compare.
Proof.
  split; [intros; apply N.compare_antisym|]. intros x y z.
  rewrite !N.compare_le_iff, !N.compare_eq_iff. lia.
Qed.

Lemma task_cmp_ok : cmp_ok task_cmp.
Proof.
  unfold task_cmp. repeat apply cmp_ok_then.
  - exact (cmp_ok_on _ (fun t => action_class (task_action t)) nat_cmp_ok).
  - exact (cmp_ok_flip _ (cmp_ok_on _ (fun t => action_lag (task_action t)) N_cmp_ok)).
  - exact (cmp_ok_on _ task_skh string_cmp_ok).
  - exact (cmp_ok_on _ task_list string_cmp_ok).
Qed.

Lemma task_le_total a b : task_le a b = true \/ task_le b a = true.
Proof.
  unfold task_le. destruct task_cmp_ok as [Ho _]. rewrite (Ho a b).
  destruct (task_cmp a b); auto.
Qed.

Lemma task_le_trans a b c : task_le a b = true -> task_le b c = true -> task_le a c = true.
Proof.
  unfold task_le. destruct task_cmp_ok as [_ Ht]. intros H1 H2.
  destruct (Ht a b c) as [Hn _]; [by destruct (task_cmp a b)|by destruct (task_cmp b c)|].
  by destruct (task_cmp a c).
Qed.

Lemma task_le_class a b : task_le a b -> action_class (task_action a) <= action_class (task_action b).
Proof.
  unfold task_le, task_cmp. intros H.
  destruct (Nat.compare_spec (action_class (task_action a)) (action_class (task_action b)));
    simpl in *; lia || done.
Qed.

Lemma task_sorted tasks : StronglySorted task_le (sort_by task_le tasks).
Proof. apply sort_by_sorted; [apply task_le_total|apply task_le_trans]. Qed.

Lemma action_class_lt a : action_class a < 3.
Proof. destruct a; simpl; lia. Qed.

Lemma assign_scores_sub seen seqs tasks s t : (s, t) ∈ assign_scores seen seqs tasks ->
  t ∈ tasks /\ task_key t ∉ seen.
Proof.
  revert seen seqs. induction tasks as [|u tasks IH]; intros seen seqs; simpl.
  - by intros ?%elem_of_nil.
  - case_decide.
    + intros [??]%IH. split; [by right|done].
    + intros [[= -> ->]|H']%elem_of_cons; [split; [by left|done]|].
      apply IH in H' as [??]. split; [by right|]. set_solver.
Qed.

Lemma assign_scores_nodup seen seqs tasks :
  NoDup (task_key ∘ snd <$> assign_scores seen seqs tasks).
Proof.
  revert seen seqs. induction tasks as [|t tasks IH]; intros seen seqs; simpl; [constructor|].
  case_decide; [apply IH|]. simpl. constructor; [|apply IH].
  intros ([s u] & Hk & Hin)%list_elem_of_fmap.
  apply assign_scores_sub in Hin as [_ Hin]. simpl in *. rewrite <- Hk in Hin. set_solver.
Qed.

(** The kept task of a key is the first of the sorted input with that key. *)
Lemma assign_scores_covers seen seqs tasks t :
  StronglySorted task_le tasks -> t ∈ tasks -> task_key t ∉ seen ->
  exists s u, (s, u) ∈ assign_scores seen seqs tasks /\ task_key u = task_key t /\
    (u = t \/ task_le u t).
Proof.
  intros Hs. revert seen seqs. induction Hs as [|u tasks Hs IH Hall]; intros seen seqs Hin Hseen;
    [by apply elem_of_nil in Hin|]. simpl.
  apply elem_of_cons in Hin as [->|Hin].
  - rewrite decide_False by done. eexists _, u. split; [by left|]. auto.
  - case_decide.
    + by apply IH.
    + destruct (decide (task_key t = task_key u)) as [Hk|Hk].
      * eexists _, u. split; [by left|]. split; [done|]. right.
        rewrite Forall_forall in Hall. by apply Hall.
      * destruct (IH ({[task_key u]} ∪ seen)
          (<[action_class (task_action u):=(seqs !!! action_class (task_action u) + 1)%N]> seqs))
          as (s & v & Hv & ?); [done|set_solver|].
        exists s, v. split; [by right|done].
Qed.

(** The sequence numbers stay within their class as long as the input is
    shorter than the class width. *)
Lemma assign_scores_bounds seen seqs tasks s t :
  length seqs = 3 ->
  (forall c, c < 3 -> (seqs !!! c + N.of_nat (length tasks) <= CLASS_SCORE_BASE)%N) ->
  (s, t) ∈ assign_scores seen seqs tasks ->
  let c := action_class (task_action t) in
  (N.of_nat c * CLASS_SCORE_BASE + seqs !!! c <= s < (N.of_nat c + 1) * CLASS_SCORE_BASE)%N.
Proof.
  revert seen seqs. induction tasks as [|u tasks IH]; intros seen seqs Hl Hb Hin; simpl in *;
    [by apply elem_of_nil in Hin|].
  case_decide.
  - eapply IH; [done| |done]. intros c Hc. specialize (Hb c Hc). lia.
  - pose proof (action_class_lt (task_action u)) as Hu.
    apply elem_of_cons in Hin as [[= -> ->]|Hin].
    + specialize (Hb _ Hu). unfold task_score. lia.
    + apply IH in Hin; [| by rewrite length_insert |].
      * destruct (decide (action_class (task_action t) = action_class (task_action u))) as [He|Hne].
        -- rewrite He, list_lookup_total_insert_eq in Hin by lia. rewrite He. lia.
        -- by rewrite list_lookup_total_insert_ne in Hin.
      * intros c Hc. specialize (Hb c Hc).
        destruct (decide (c = action_class (task_action u))) as [->|Hne].
        -- rewrite list_lookup_total_insert_eq by lia. lia.
        -- rewrite list_lookup_total_insert_ne by done. lia.
Qed.

Lemma assign_scores_increasing seen seqs tasks :
  length seqs = 3 ->
  (forall c, c < 3 -> (seqs !!! c + N.of_nat (length tasks) <= CLASS_SCORE_BASE)%N) ->
  StronglySorted task_le tasks ->
  StronglySorted N.lt (fst <$> assign_scores seen seqs tasks).
Proof.
  intros Hl Hb Hs. revert seen seqs Hl Hb. induction Hs as [|u tasks Hs IH Hall];
    intros seen seqs Hl Hb; simpl in *; [constructor|].
  pose proof (action_class_lt (task_action u)) as Hu.
  case_decide; [apply IH; [done|intros c Hc; specialize (Hb c Hc); lia]|].
  assert (forall c, c < 3 ->
    (<[action_class (task_action u):=(seqs !!! action_class (task_action u) + 1)%N]> seqs !!! c
      + N.of_nat (length tasks) <= CLASS_SCORE_BASE)%N) as Hb'.
  { intros c Hc. specialize (Hb c Hc). destruct (decide (c = action_class (task_action u))) as [->|Hne].
    - rewrite list_lookup_total_insert_eq by lia. lia.
    - rewrite list_lookup_total_insert_ne by done. lia. }
  simpl. constructor; [apply IH; [by rewrite length_insert|done]|].
  apply Forall_forall. intros x ([s t] & -> & Hin)%list_elem_of_fmap. simpl.
  pose proof Hin as Hsub. apply assign_scores_sub in Hsub as [Hsub _].
  rewrite Forall_forall in Hall. apply Hall, task_le_class in Hsub.
  apply assign_scores_bounds in Hin; [|by rewrite length_insert|done].
  simpl in Hin. unfold task_score. specialize (Hb _ Hu).
  destruct (decide (action_class (task_action t) = action_class (task_action u))) as [He|Hne].
  - rewrite He, list_lookup_total_insert_eq in Hin by lia. lia.
  - assert (action_class (task_action u) < action_class (task_action t)) by lia. nia.
Qed.

(** ** Properties: queue order *)

(** ordering and deduplication of a tick's tasks. The result holds one entry
    per (company, list), only tasks of the input, and for every input task an
    entry of the same list that is the task or precedes it in priority order; the
    scores strictly increase along the result and stay below 2^53, so they are
    exact as [f64] and ZPOPMIN serves the tasks in this order. *)
Theorem order_and_dedupe_tasks_correct tasks :
  (N.of_nat (length tasks) <= CLASS_SCORE_BASE)%N ->
  let out := order_and_dedupe_tasks tasks in
  NoDup (task_key ∘ snd <$> out) /\
  (forall s t, (s, t) ∈ out -> t ∈ tasks /\ (s < 2 ^ 53)%N) /\
  (forall t, t ∈ tasks -> exists s u, (s, u) ∈ out /\ task_key u = task_key t /\
     (u = t \/ task_le u t)) /\
  StronglySorted N.lt (fst <$> out).
Proof.
  intros Hlen out. unfold out, order_and_dedupe_tasks.
  pose proof (sort_by_perm task_le tasks) as Hperm.
  assert (forall c, c < 3 -> ([0; 0; 0]%N !!! c + N.of_nat (length (sort_by task_le tasks))
    <= CLASS_SCORE_BASE)%N) as Hb.
  { intros c Hc. rewrite Hperm. destruct c as [|[|[|c]]]; simpl; lia. }
  split_and!.
  - apply assign_scores_nodup.
  - intros s t Hin. split.
    + apply assign_scores_sub in Hin as [Hin _]. by rewrite Hperm in Hin.
    + apply assign_scores_bounds in Hin; [|done..]. simpl in Hin.
      pose proof (action_class_lt (task_action t)). unfold CLASS_SCORE_BASE in *. nia.
  - intros t Hin. apply assign_scores_covers; [apply task_sorted|by rewrite Hperm|set_solver].
  - apply assign_scores_increasing; [done..|apply task_sorted].
Qed.

Lemma order_and_dedupe_tasks_correct_witness :
  let mk l a := {| task_skh := "k"; task_list := l; task_action := a; task_meta := None |} in
  StronglySorted N.lt (fst <$> order_and_dedupe_tasks
    [mk "x" Remove; mk "y" (Delta 3); mk "x" FullLoad; mk "z" (Delta 9)]).
Proof. intros mk. apply order_and_dedupe_tasks_correct. by vm_compute. Defined.
