(* ===== verification/Effects.v ===== *)
(** * Effects: the services the components talk to

    Redis, the HTTP origin and the claim-loss flag are outside the repository.
    This file states what the code relies on of them:

    - the Redis keyspace and the documented effect of each command used
      ([exec_w], [exec]), with faults: any command may fail, and a failed command
      may or may not have been executed ([contract]);
    - the scan guarantee of SCAN and SSCAN ([ScanOrder]);
    - programs over these effects ([prog]), every execution of a program
      ([runs]), and the calculus used to reason about all of them ([wp]). Other
      clients run between any two commands: they are a rely relation. *)
From S2P Require Import Prelude.

(** ** Redis values *)

Inductive rval :=
| VStr (s : string)
| VHash (h : gmap string string)
| VSet (s : gset string)
| VZset (z : gmap string N).

Record entry := { val : rval; ttl : option N }.
Abbreviation keyspace := (gmap string entry).

Inductive redis_error := Fault | WrongType | TypeError (detail : string).

#[export] Instance redis_error_eq_dec : EqDecision redis_error.
Proof. solve_decision. Defined.

(** The collection at a key; a missing key reads as empty, [None] is WRONGTYPE. *)
Definition as_set (ks : keyspace) (k : string) : option (gset string) :=
  match ks !! k with
  | None => Some ∅
  | Some e => match val e with VSet s => Some s | _ => None end
  end.
Definition as_hash (ks : keyspace) (k : string) : option (gmap string string) :=
  match ks !! k with
  | None => Some ∅
  | Some e => match val e with VHash h => Some h | _ => None end
  end.
Definition as_zset (ks : keyspace) (k : string) : option (gmap string N) :=
  match ks !! k with
  | None => Some ∅
  | Some e => match val e with VZset z => Some z | _ => None end
  end.
Definition as_str (ks : keyspace) (k : string) : option (option string) :=
  match ks !! k with
  | None => Some None
  | Some e => match val e with VStr s => Some (Some s) | _ => None end
  end.

Definition set_at ks k : gset string := default ∅ (as_set ks k).
Definition hash_at ks k : gmap string string := default ∅ (as_hash ks k).
Definition zset_at ks k : gmap string N := default ∅ (as_zset ks k).

(** Writing a collection keeps the key's TTL; an empty collection is no key. *)
Definition put (k : string) (v : rval) (ks : keyspace) : keyspace :=
  <[k := {| val := v; ttl := ks !! k ≫= ttl |}]> ks.
Definition put_set (k : string) (s : gset string) (ks : keyspace) : keyspace :=
  if decide (s = ∅) then delete k ks else put k (VSet s) ks.
Definition put_hash (k : string) (h : gmap string string) (ks : keyspace) : keyspace :=
  if decide (h = ∅) then delete k ks else put k (VHash h) ks.
Definition put_zset (k : string) (z : gmap string N) (ks : keyspace) : keyspace :=
  if decide (z = ∅) then delete k ks else put k (VZset z) ks.

(** ** Commands *)

(** Write commands; each replies with an integer. *)
Inductive wcmd :=
| SADD (k x : string)
| SREM (k x : string)
| HSET (k : string) (fvs : list (string * string))
| HDEL (k : string) (fs : list string)
| DEL (k : string)
| EXPIRE (k : string) (seconds : Z)
| PERSIST (k : string)
| ZADD_NX (k : string) (score : N) (m : string)
| SET (k v : string).

(** The commands of a transaction that reads as well as writes, and its replies. *)
Inductive tcmd :=
| T_TTL (k : string)
| T_SETNX (k v : string)
| T_GET (k : string)
| T_HGET (k f : string)
| T_WRITE (w : wcmd).
Inductive treply := RInt (z : Z) | RBulk (o : option string).

(** Every command with the type of its reply. [CONN] is taking a connection from
    the pool. The scripts are the Lua sources of [work_lock.rs], [schema.rs] and
    [redis_cache.rs], run atomically by the server. *)
Inductive cmd : Type -> Type :=
| CONN : cmd unit
| Write (w : wcmd) : cmd N
| MULTI (ws : list wcmd) : cmd unit
| SCARD (k : string) : cmd N
| SMEMBERS (k : string) : cmd (list string)
| SMISMEMBER (k : string) (xs : list string) : cmd (list bool)
| SSCAN (k : string) (cursor : N) (count : N) : cmd (N * list string)
| SCAN (cursor : N) (pattern : string) (count : N) : cmd (N * list string)
| HGET (k f : string) : cmd (option string)
| HMGET (k : string) (fs : list string) : cmd (list (option string))
| HGETALL (k : string) : cmd (gmap string string)
| EXISTS (k : string) : cmd bool
| TTL (k : string) : cmd Z
| GET (k : string) : cmd (option string)
| SET_NX_EX (k v : string) (seconds : N) : cmd bool
| ZPOPMIN (k : string) : cmd (option (string * N))
| ZCARD (k : string) : cmd N
| RENEW_SCRIPT (k holder : string) (seconds : N) : cmd N
| RELEASE_SCRIPT (k holder : string) : cmd N
| ALLOC_TOKEN_SCRIPT (dict_key name_field list_name counter_field : string) : cmd string
| EXEC (cs : list tcmd) : cmd (list treply)
| REFRESH_TTL_SCRIPT (k lcut : string) (seconds : Z) : cmd Z.

Definition bool_N (b : bool) : N := if b then 1 else 0.

(** EXPIRE with a deadline that is not in the future deletes the key. *)
Definition expire (k : string) (seconds : Z) (ks : keyspace) : keyspace :=
  match ks !! k with
  | None => ks
  | Some e =>
      if bool_decide (0 < seconds)%Z
      then <[k := {| val := val e; ttl := Some (Z.to_N seconds) |}]> ks else delete k ks
  end.
Definition persist (k : string) (ks : keyspace) : keyspace :=
  match ks !! k with
  | None => ks
  | Some e => <[k := {| val := val e; ttl := None |}]> ks
  end.

Definition exec_w (w : wcmd) (ks : keyspace) : result redis_error N * keyspace :=
  match w with
  | SADD k x =>
      match as_set ks k with
      | None => (Err WrongType, ks)
      | Some s => (Ok (bool_N (bool_decide (x ∉ s))), put_set k ({[x]} ∪ s) ks)
      end
  | SREM k x =>
      match as_set ks k with
      | None => (Err WrongType, ks)
      | Some s => (Ok (bool_N (bool_decide (x ∈ s))), put_set k (s ∖ {[x]}) ks)
      end
  | HSET k fvs =>
      match as_hash ks k with
      | None => (Err WrongType, ks)
      | Some h =>
          (Ok (N.of_nat (size ((list_to_map fvs : gmap string string) ∖ h))),
           put_hash k (foldl (fun h fv => <[fv.1 := fv.2]> h) h fvs) ks)
      end
  | HDEL k fs =>
      match as_hash ks k with
      | None => (Err WrongType, ks)
      | Some h =>
          (Ok (N.of_nat (size (dom h ∩ (list_to_set fs : gset string)))),
           put_hash k (foldl (fun h f => delete f h) h fs) ks)
      end
  | DEL k => (Ok (bool_N (bool_decide (is_Some (ks !! k)))), delete k ks)
  | EXPIRE k t => (Ok (bool_N (bool_decide (is_Some (ks !! k)))), expire k t ks)
  | PERSIST k => (Ok (bool_N (bool_decide (is_Some (ks !! k ≫= ttl)))), persist k ks)
  | ZADD_NX k score m =>
      match as_zset ks k with
      | None => (Err WrongType, ks)
      | Some z =>
          match z !! m with
          | Some _ => (Ok 0%N, ks)
          | None => (Ok 1%N, put_zset k (<[m := score]> z) ks)
          end
      end
  | SET k v => (Ok 1%N, <[k := {| val := VStr v; ttl := None |}]> ks)
  end.

(** A transaction runs its commands in order, each whatever the others reply. *)
Definition exec_multi (ws : list wcmd) (ks : keyspace) : keyspace :=
  foldl (fun ks w => (exec_w w ks).2) ks ws.
Fixpoint multi_error (ws : list wcmd) (ks : keyspace) : option redis_error :=
  match ws with
  | [] => None
  | w :: ws' =>
      match (exec_w w ks).1 with
      | Err e => Some e
      | Ok _ => multi_error ws' (exec_w w ks).2
      end
  end.

(** ZPOPMIN: the lowest score, members in lexicographic order among equals. *)
Definition zmin (z : gmap string N) : option (string * N) :=
  head (sort_by (fun a b => bool_decide (a.2 < b.2)%N
                            || (bool_decide (a.2 = b.2) && String.leb a.1 b.1)) (map_to_list z)).

(** HINCRBY by one. The script formats the new value with Lua's [tostring],
    which prints an integer as its decimal digits up to fourteen of them; larger
    counters are outside the model and fail. *)
Definition LUA_INT_MAX : N := 99999999999999.
Definition hincr (h : gmap string string) (f : string) : option N :=
  match h !! f with
  | None => Some 1%N
  | Some v => n ← parse_bounded (LUA_INT_MAX - 1) v; Some (n + 1)%N
  end.

(** [get_at read ks k] replies with what [read] finds, or WRONGTYPE. *)
Definition reply_of {A B} (o : option A) (f : A -> B) : result redis_error B :=
  match o with Some a => Ok (f a) | None => Err WrongType end.

(** The remaining time of a key: [-2] without the key, [-1] without a deadline. *)
Definition ttl_of (ks : keyspace) (k : string) : Z :=
  match ks !! k with
  | None => -2
  | Some e => match ttl e with None => -1 | Some t => Z.of_N t end
  end.

Definition exec_t (c : tcmd) (ks : keyspace) : result redis_error treply * keyspace :=
  match c with
  | T_TTL k => (Ok (RInt (ttl_of ks k)), ks)
  | T_SETNX k v =>
      match ks !! k with
      | Some _ => (Ok (RInt 0), ks)
      | None => (Ok (RInt 1), <[k := {| val := VStr v; ttl := None |}]> ks)
      end
  | T_GET k => (reply_of (as_str ks k) RBulk, ks)
  | T_HGET k f => (reply_of (as_hash ks k) (fun h => RBulk (h !! f)), ks)
  | T_WRITE w => let '(r, ks) := exec_w w ks in ((fun n => RInt (Z.of_N n)) <$> r, ks)
  end.
Definition exec_txn (cs : list tcmd) (ks : keyspace) : keyspace := foldl (fun ks c => (exec_t c ks).2) ks cs.
Fixpoint txn_replies (cs : list tcmd) (ks : keyspace) : result redis_error (list treply) :=
  match cs with
  | [] => Ok []
  | c :: cs' =>
      match (exec_t c ks).1 with
      | Err e => Err e
      | Ok r => (fun rs => r :: rs) <$> txn_replies cs' (exec_t c ks).2
      end
  end.

(** Every command but the scans, whose replies are not a function of the data. *)
Definition exec {R} (c : cmd R) (ks : keyspace) : option (result redis_error R * keyspace) :=
  match c with
  | CONN => Some (Ok tt, ks)
  | Write w => Some (exec_w w ks)
  | MULTI ws =>
      Some (match multi_error ws ks with Some e => Err e | None => Ok tt end, exec_multi ws ks)
  | SCARD k => Some (reply_of (as_set ks k) (fun s => N.of_nat (size s)), ks)
  | SMEMBERS k => Some (reply_of (as_set ks k) elements, ks)
  | SMISMEMBER k xs =>
      Some (reply_of (as_set ks k) (fun s => (fun x => bool_decide (x ∈ s)) <$> xs), ks)
  | SSCAN _ _ _ => None
  | SCAN _ _ _ => None
  | HGET k f => Some (reply_of (as_hash ks k) (fun h => h !! f), ks)
  | HMGET k fs => Some (reply_of (as_hash ks k) (fun h => (fun f => h !! f) <$> fs), ks)
  | HGETALL k => Some (reply_of (as_hash ks k) id, ks)
  | EXISTS k => Some (Ok (bool_decide (is_Some (ks !! k))), ks)
  | TTL k => Some (Ok (ttl_of ks k), ks)
  | GET k => Some (reply_of (as_str ks k) id, ks)
  | SET_NX_EX k v t =>
      match ks !! k with
      | Some _ => Some (Ok false, ks)
      | None => Some (Ok true, <[k := {| val := VStr v; ttl := Some t |}]> ks)
      end
  | ZPOPMIN k =>
      match as_zset ks k with
      | None => Some (Err WrongType, ks)
      | Some z =>
          match zmin z with
          | None => Some (Ok None, ks)
          | Some (m, s) => Some (Ok (Some (m, s)), put_zset k (delete m z) ks)
          end
      end
  | ZCARD k => Some (reply_of (as_zset ks k) (fun z => N.of_nat (size z)), ks)
  | RENEW_SCRIPT k holder t =>
      match as_str ks k with
      | None => Some (Err WrongType, ks)
      | Some v =>
          if decide (v = Some holder)
          then Some (Ok 1%N, expire k (Z.of_N t) ks) else Some (Ok 0%N, ks)
      end
  | RELEASE_SCRIPT k holder =>
      match as_str ks k with
      | None => Some (Err WrongType, ks)
      | Some v =>
          if decide (v = Some holder) then Some (Ok 1%N, delete k ks) else Some (Ok 0%N, ks)
      end
  | ALLOC_TOKEN_SCRIPT dict_key name_field list_name counter_field =>
      match as_hash ks dict_key with
      | None => Some (Err WrongType, ks)
      | Some h =>
          match h !! name_field with
          | Some existing => Some (Ok existing, ks)
          | None =>
              match hincr h counter_field with
              | None => Some (Err Fault, ks)
              | Some token =>
                  Some (Ok (show_u64 token),
                    put_hash dict_key
                      (<["t:" +:+ show_u64 token := list_name]>
                        (<[name_field := show_u64 token]>
                          (<[counter_field := show_u64 token]> h))) ks)
              end
          end
      end
  | EXEC cs => Some (txn_replies cs ks, exec_txn cs ks)
  | REFRESH_TTL_SCRIPT k lcut t =>
      match as_hash ks k with
      | None => Some (Err WrongType, ks)
      | Some h =>
          if decide (h !! "lcut" = Some lcut) then Some (Ok 1%Z, expire k t ks) else Some (Ok 0%Z, ks)
      end
  end.

(** ** The scan guarantee

    An iteration that starts at cursor 0 returns every element that is present
    throughout: [later coll cursor x] says that [x] is still to be returned by the
    calls from [cursor] on. A call moves the cursor forward ([rank]), and cursor 0
    ends the iteration. Elements may be returned more than once. MATCH patterns
    are globs, in which a backslash makes the next character literal. *)

Definition glob_special (c : ascii) : bool :=
  existsb (fun d => bool_decide (c = d)) ["*"; "?"; "["; "]"; "\"]%char.

(** [pat] is a pattern for exactly the text [s]. *)
Inductive literal_pattern : string -> string -> Prop :=
| lit_nil : literal_pattern EmptyString EmptyString
| lit_plain c pat s : glob_special c = false ->
    literal_pattern pat s -> literal_pattern (String c pat) (String c s)
| lit_escaped c pat s : literal_pattern pat s ->
    literal_pattern (String "\" (String c pat)) (String c s).

Class ScanOrder := {
  glob_match : string -> string -> bool;
  glob_match_prefix : forall pat s k, literal_pattern pat s ->
    glob_match (pat +:+ "*") k = starts_with s k;
  later : option string -> N -> string -> Prop;
  rank : option string -> N -> nat;
  later_start : forall coll x, later coll 0 x;
}.

Section Scan.
Context `{ScanOrder}.

(** One page of an iteration over the elements [S] of collection [coll]. *)
Definition page_ok (coll : option string) (S : string -> Prop) (cursor next : N)
    (page : list string) : Prop :=
  (forall x, x ∈ page -> S x) /\
  (forall x, S x -> later coll cursor x -> x ∈ page \/ (next <> 0%N /\ later coll next x)) /\
  (next <> 0%N -> rank coll next < rank coll cursor).

Definition scan_contract {R} (c : cmd R) (ks : keyspace) (r : R) : Prop :=
  match c in cmd R return R -> Prop with
  | SSCAN k cursor _ => fun r =>
      exists s, as_set ks k = Some s /\ page_ok (Some k) (fun x => x ∈ s) cursor r.1 r.2
  | SCAN cursor pattern _ => fun r =>
      page_ok None (fun k => is_Some (ks !! k) /\ glob_match pattern k = true) cursor r.1 r.2
  | _ => fun _ => False
  end r.

(** What a command may do: reply as documented, or fail, executed or not. *)
Definition contract {R} (c : cmd R) (ks : keyspace) (r : result redis_error R) (ks' : keyspace)
    : Prop :=
  match exec c ks with
  | Some (r0, ks0) => (r = r0 /\ ks' = ks0) \/ ((exists e, r = Err e) /\ (ks' = ks \/ ks' = ks0))
  | None => ks' = ks /\ ((exists e, r = Err e) \/ exists a, r = Ok a /\ scan_contract c ks a)
  end.
End Scan.

(** ** HTTP *)

Inductive http_error := HttpError.

Record http_request := { req_url : string; req_headers : list (string * string) }.
Record http_response := {
  resp_status : N;
  resp_headers : list (string * string);
  resp_content_length : option N;
  resp_body : list (result http_error (list ascii));
}.

(** ** Programs *)

Inductive prog (E A : Type) : Type :=
| Ret (a : A)
| Throw (e : E)
| OutOfFuel
| Redis {R : Type} (c : cmd R) (k : result redis_error R -> prog E A)
| Http (q : http_request) (k : result http_error http_response -> prog E A)
| Lost (k : bool -> prog E A).
Arguments Ret {E A} a.
Arguments Throw {E A} e.
Arguments OutOfFuel {E A}.
Arguments Redis {E A R} c k.
Arguments Http {E A} q k.
Arguments Lost {E A} k.

#[export] Instance prog_ret {E} : MRet (prog E) := fun A a => Ret a.
#[export] Instance prog_bind {E} : MBind (prog E) := fun A B f =>
  fix bind (m : prog E A) : prog E B :=
  match m with
  | Ret a => f a
  | Throw e => Throw e
  | OutOfFuel => OutOfFuel
  | Redis c k => Redis c (fun r => bind (k r))
  | Http q k => Http q (fun r => bind (k r))
  | Lost k => Lost (fun b => bind (k b))
  end.

(** [match p.await { Ok(a) => .., Err(e) => .. }] *)
Fixpoint attempt {E F A} (p : prog E A) : prog F (result E A) :=
  match p with
  | Ret a => Ret (Ok a)
  | Throw e => Ret (Err e)
  | OutOfFuel => OutOfFuel
  | Redis c k => Redis c (fun r => attempt (k r))
  | Http q k => Http q (fun r => attempt (k r))
  | Lost k => Lost (fun b => attempt (k b))
  end.

(** [From<RedisError>] of the caller's error type. *)
Class FromRedis (E : Type) := from_redis : redis_error -> E.
#[export] Instance from_redis_self : FromRedis redis_error := id.

Section Commands.
Context {E : Type} `{FromRedis E}.

(** [cmd.query_async(conn).await?] *)
Definition redis {R} (c : cmd R) : prog E R :=
  Redis c (fun r => match r with Ok a => Ret a | Err e => Throw (from_redis e) end).

(** [self.pool.get().await.map_err(pool_get_err)?] *)
Definition get_conn : prog E unit := redis CONN.

Definition write (w : wcmd) : prog E N := redis (Write w).

(** A pipeline of writes that is not atomic: every command is sent, other clients
    run in between, and the first error is returned at the end. *)
Fixpoint pipe_from (err : option redis_error) (acc : list N) (ws : list wcmd) : prog E (list N) :=
  match ws with
  | [] => match err with Some e => Throw (from_redis e) | None => Ret (reverse acc) end
  | w :: ws' =>
      Redis (Write w) (fun r =>
        match r with
        | Ok n => pipe_from err (n :: acc) ws'
        | Err e => pipe_from (Some (default e err)) acc ws'
        end)
  end.
Definition pipe (ws : list wcmd) : prog E (list N) := pipe_from None [] ws.

(** A pipeline of reads of one kind. *)
Fixpoint pipe_reads_from {R} (err : option redis_error) (acc : list R) (cs : list (cmd R))
    : prog E (list R) :=
  match cs with
  | [] => match err with Some e => Throw (from_redis e) | None => Ret (reverse acc) end
  | c :: cs' =>
      Redis c (fun r =>
        match r with
        | Ok a => pipe_reads_from err (a :: acc) cs'
        | Err e => pipe_reads_from (Some (default e err)) acc cs'
        end)
  end.
Definition pipe_reads {R} (cs : list (cmd R)) : prog E (list R) := pipe_reads_from None [] cs.

(** An atomic pipeline; an empty one sends nothing. *)
Definition pipe_atomic (ws : list wcmd) : prog E unit :=
  match ws with [] => Ret tt | _ => redis (MULTI ws) end.
End Commands.

(** ** Executions and the program logic *)

Inductive outcome (E A : Type) := Returned (a : A) | Failed (e : E) | NoFuel.
Arguments Returned {E A} a.
Arguments Failed {E A} e.
Arguments NoFuel {E A}.

(** The environment of a program: the other clients of Redis between two of its
    commands, and what the origin may answer to a request. *)
Record environment := {
  rely : keyspace -> keyspace -> Prop;
  http_ok : http_request -> result http_error http_response -> Prop;
}.

Section Runs.
Context `{ScanOrder} (env : environment).

(** [runs p ks out ks']: the program may end with [out], leaving [ks']. *)
Fixpoint runs {E A} (p : prog E A) (ks : keyspace) (out : outcome E A) (ks' : keyspace) : Prop :=
  match p with
  | Ret a => out = Returned a /\ ks' = ks
  | Throw e => out = Failed e /\ ks' = ks
  | OutOfFuel => out = NoFuel /\ ks' = ks
  | Redis c k => exists ks1 r ks2, rely env ks ks1 /\ contract c ks1 r ks2 /\ runs (k r) ks2 out ks'
  | Http q k => exists r, http_ok env q r /\ runs (k r) ks out ks'
  | Lost k => exists b, runs (k b) ks out ks'
  end.

Fixpoint wp {E A} (p : prog E A) (Q : outcome E A -> keyspace -> Prop) (ks : keyspace) : Prop :=
  match p with
  | Ret a => Q (Returned a) ks
  | Throw e => Q (Failed e) ks
  | OutOfFuel => Q NoFuel ks
  | Redis c k => forall ks1 r ks2, rely env ks ks1 -> contract c ks1 r ks2 -> wp (k r) Q ks2
  | Http q k => forall r, http_ok env q r -> wp (k r) Q ks
  | Lost k => forall b, wp (k b) Q ks
  end.

Lemma wp_adequate {E A} (p : prog E A) Q ks out ks' : wp p Q ks -> runs p ks out ks' -> Q out ks'.
Proof.
  revert ks. induction p as [a|e| |R c k IH|q k IH|k IH]; intros ks Hwp Hr; simpl in *.
  - by destruct Hr as [-> ->].
  - by destruct Hr as [-> ->].
  - by destruct Hr as [-> ->].
  - destruct Hr as (ks1 & r & ks2 & HR & Hc & Hr). eauto.
  - destruct Hr as (r & Hq & Hr). eauto.
  - destruct Hr as (b & Hr). eauto.
Qed.

Lemma wp_mono {E A} (p : prog E A) (Q Q' : outcome E A -> keyspace -> Prop) ks :
  wp p Q ks -> (forall out ks', Q out ks' -> Q' out ks') -> wp p Q' ks.
Proof.
  intros Hp HQ. revert ks Hp. induction p; intros ks Hp; simpl in *; eauto.
Qed.

Lemma wp_bind {E A B} (p : prog E A) (f : A -> prog E B) Q ks :
  wp p (fun out ks' =>
    match out with
    | Returned a => wp (f a) Q ks'
    | Failed e => Q (Failed e) ks'
    | NoFuel => Q NoFuel ks'
    end) ks -> wp (p ≫= f) Q ks.
Proof.
  revert ks. induction p as [a|e| |R c k IH|q k IH|k IH]; intros ks Hp; simpl in *; try done.
  - intros ks1 r ks2 HR Hc. apply IH. eauto.
  - intros r Hr. apply IH. eauto.
  - intros b. apply IH. eauto.
Qed.

Lemma wp_attempt {E F A} (p : prog E A) (Q : outcome F (result E A) -> keyspace -> Prop) ks :
  wp p (fun out ks' =>
    match out with
    | Returned a => Q (Returned (Ok a)) ks'
    | Failed e => Q (Returned (Err e)) ks'
    | NoFuel => Q NoFuel ks'
    end) ks -> wp (attempt p) Q ks.
Proof.
  revert ks. induction p as [a|e| |R c k IH|q k IH|k IH]; intros ks Hp; simpl in *; eauto.
Qed.

(** Assertions other clients cannot invalidate. *)
Definition stable (P : keyspace -> Prop) : Prop := forall ks ks1, P ks -> rely env ks ks1 -> P ks1.

Lemma wp_redis {E R} `{FromRedis E} (c : cmd R) (P : keyspace -> Prop)
    (Q : outcome E R -> keyspace -> Prop) ks :
  stable P -> P ks ->
  (forall r ks1 ks2, P ks1 -> contract c ks1 r ks2 ->
     match r with Ok a => Q (Returned a) ks2 | Err e => Q (Failed (from_redis e)) ks2 end) ->
  wp (redis c) Q ks.
Proof.
  intros HS HP HQ ks1 r ks2 HR Hc. specialize (HQ r ks1 ks2 (HS _ _ HP HR) Hc).
  by destruct r.
Qed.

(** What a run that returns delivers, whatever happens in between. *)
Definition delivers {E A} (p : prog E A) (P : A -> Prop) : Prop :=
  forall ks, wp p (fun out _ => forall a, out = Returned a -> P a) ks.

Lemma delivers_ret {E A} (a : A) (P : A -> Prop) : P a -> delivers (E := E) (Ret a) P.
Proof. intros HP ks b [= <-]. done. Qed.

Lemma delivers_bind {E A B} (p : prog E A) (f : A -> prog E B) (P : A -> Prop) (Q : B -> Prop) :
  delivers p P -> (forall a, P a -> delivers (f a) Q) -> delivers (p ≫= f) Q.
Proof.
  intros Hp Hf ks. apply wp_bind. eapply wp_mono; [apply Hp|]. intros [a|e|] ks' Ha; [|done..].
  by apply Hf, Ha.
Qed.

Lemma delivers_any {E A} (p : prog E A) : delivers p (fun _ => True).
Proof.
  intros ks. revert ks. induction p as [a|e| |R c k IH|q k IH|k IH]; intros ks; simpl; eauto; naive_solver.
Qed.

Lemma delivers_skip {E A B} (p : prog E A) (f : A -> prog E B) (Q : B -> Prop) :
  (forall a, delivers (f a) Q) -> delivers (p ≫= f) Q.
Proof. intros Hf. eapply delivers_bind; [apply delivers_any|]. intros a _. apply Hf. Qed.

(** A program whose commands all satisfy [G] keeps every invariant of [G]. *)
Fixpoint commands_ok (G : forall R, cmd R -> Prop) {E A} (p : prog E A) : Prop :=
  match p with
  | Ret _ | Throw _ | OutOfFuel => True
  | Redis c k => G _ c /\ forall r, commands_ok G (k r)
  | Http _ k => forall r, commands_ok G (k r)
  | Lost k => forall b, commands_ok G (k b)
  end.

Lemma commands_ok_bind G {E A B} (p : prog E A) (f : A -> prog E B) :
  commands_ok G p -> (forall a, commands_ok G (f a)) -> commands_ok G (p ≫= f).
Proof.
  intros Hp Hf. induction p as [a|e| |R c k IH|q k IH|k IH]; simpl in *; try done; naive_solver.
Qed.

Lemma commands_ok_runs G {E A} (p : prog E A) (P : keyspace -> Prop) ks out ks' :
  commands_ok G p -> stable P ->
  (forall R (c : cmd R) ks1 r ks2, G R c -> P ks1 -> contract c ks1 r ks2 -> P ks2) ->
  P ks -> runs p ks out ks' -> P ks'.
Proof.
  intros Hp HS HG. revert ks. induction p as [a|e| |R c k IH|q k IH|k IH];
    intros ks HP Hr; simpl in *; try (by destruct Hr as [_ ->]).
  - destruct Hp as [Hc Hk]. destruct Hr as (ks1 & r & ks2 & HR & Hcon & Hr). eauto.
  - destruct Hr as (r & _ & Hr). eauto.
  - destruct Hr as (b & Hr). eauto.
Qed.
End Runs.

(** ** A reference server

    One page per scan and no faults: an executable instance of the contract. *)

Fixpoint glob_prefix_match (pat k : string) : bool :=
  match pat with
  | EmptyString => str_empty k
  | String p pat' =>
      if decide (p = "*"%char) then true
      else if decide (p = "\"%char) then
        match pat', k with
        | String c pat2, String d k' => if decide (c = d) then glob_prefix_match pat2 k' else false
        | _, _ => false
        end
      else match k with
           | String d k' => if decide (p = d) then glob_prefix_match pat' k' else false
           | EmptyString => false
           end
  end.

Lemma glob_prefix_match_literal pat s k :
  literal_pattern pat s -> glob_prefix_match (pat +:+ "*") k = starts_with s k.
Proof.
  intros Hl. revert k. induction Hl as [|c pat s Hc Hl IH|c pat s Hl IH]; intros k.
  - done.
  - rewrite str_cons_app. simpl.
    rewrite decide_False by (intros ->; by vm_compute in Hc).
    rewrite decide_False by (intros ->; by vm_compute in Hc).
    destruct k as [|d k]; unfold starts_with in *; simpl.
    + done.
    + case_decide; [apply IH|done].
  - rewrite !str_cons_app. simpl.
    destruct k as [|d k]; unfold starts_with in *; simpl.
    + done.
    + case_decide; [apply IH|done].
Qed.

#[export] Instance one_page_scan : ScanOrder | 100 := {|
  glob_match := glob_prefix_match;
  glob_match_prefix := glob_prefix_match_literal;
  later := fun _ cursor _ => cursor = 0%N;
  rank := fun _ _ => 0;
  later_start := fun _ _ => eq_refl;
|}.

Definition serve {R} (c : cmd R) (ks : keyspace) : result redis_error R * keyspace :=
  match exec c ks with
  | Some reply => reply
  | None =>
      (match c in cmd R return result redis_error R with
       | SSCAN k cursor _ =>
           reply_of (as_set ks k) (fun s => (0%N, if decide (cursor = 0%N) then elements s else []))
       | SCAN cursor pattern _ =>
           Ok (0%N, if decide (cursor = 0%N)
                    then filter (fun k => glob_prefix_match pattern k = true) (elements (dom ks))
                    else [])
       | _ => Err Fault
       end, ks)
  end.

Fixpoint eval {E A} (http : http_request -> result http_error http_response) (p : prog E A)
    (ks : keyspace) : outcome E A * keyspace :=
  match p with
  | Ret a => (Returned a, ks)
  | Throw e => (Failed e, ks)
  | OutOfFuel => (NoFuel, ks)
  | Redis c k => let '(r, ks') := serve c ks in eval http (k r) ks'
  | Http q k => eval http (k (http q)) ks
  | Lost k => eval http (k false) ks
  end.

Lemma serve_contract {R} (c : cmd R) ks : contract c ks (serve c ks).1 (serve c ks).2.
Proof.
  unfold contract, serve. destruct (exec c ks) as [[r ks']|] eqn:E; [by left|]. simpl.
  split; [done|].
  destruct c; simpl in E; try (by left; eexists); try (by repeat case_match).
  - destruct (as_set ks k) as [s|] eqn:Es; simpl; [right|left; eauto].
    eexists. split; [done|]. exists s. split; [done|]. simpl.
    split_and!; [|intros x Hx ->; left|done].
    + intros x. case_decide; [by rewrite elem_of_elements|by intros ?%elem_of_nil].
    + by rewrite decide_True, elem_of_elements.
  - right. eexists. split; [done|]. simpl. split_and!; [|intros x Hx ->; left|done].
    + intros x. case_decide; [|by intros ?%elem_of_nil].
      rewrite list_elem_of_filter, elem_of_elements, elem_of_dom. naive_solver.
    + rewrite decide_True by done. rewrite list_elem_of_filter, elem_of_elements, elem_of_dom.
      naive_solver.
Qed.

Lemma eval_runs env http {E A} (p : prog E A) ks :
  (forall ks, rely env ks ks) -> (forall q, http_ok env q (http q)) ->
  runs env p ks (eval http p ks).1 (eval http p ks).2.
Proof.
  intros HR Hq. revert ks. induction p as [a|e| |R c k IH|q k IH|k IH]; intros ks; simpl; try done.
  - destruct (serve c ks) as [r ks'] eqn:Es. exists ks, r, ks'. split_and!; [done| |apply IH].
    pose proof (serve_contract c ks) as Hs. by rewrite Es in Hs.
  - exists (http q). split; [done|apply IH].
  - exists false. apply IH.
Qed.

(** ** Lemmas: reading what was written *)

Lemma put_set_ne k k' s ks : k <> k' -> put_set k s ks !! k' = ks !! k'.
Proof.
  intros. unfold put_set, put. case_decide; [by rewrite lookup_delete_ne|by rewrite lookup_insert_ne].
Qed.
Lemma put_hash_ne k k' s ks : k <> k' -> put_hash k s ks !! k' = ks !! k'.
Proof.
  intros. unfold put_hash, put. case_decide; [by rewrite lookup_delete_ne|by rewrite lookup_insert_ne].
Qed.
Lemma put_zset_ne k k' s ks : k <> k' -> put_zset k s ks !! k' = ks !! k'.
Proof.
  intros. unfold put_zset, put. case_decide; [by rewrite lookup_delete_ne|by rewrite lookup_insert_ne].
Qed.
Lemma expire_ne k k' t ks : k <> k' -> expire k t ks !! k' = ks !! k'.
Proof.
  intros. unfold expire. repeat case_match; [|by rewrite lookup_delete_ne|done].
  by rewrite lookup_insert_ne.
Qed.
Lemma persist_ne k k' ks : k <> k' -> persist k ks !! k' = ks !! k'.
Proof. intros. unfold persist. case_match; [|done]. by rewrite lookup_insert_ne. Qed.

Lemma set_at_put k s ks : set_at (put_set k s ks) k = s.
Proof.
  unfold set_at, as_set, put_set, put. case_decide; subst.
  - by rewrite lookup_delete_eq.
  - by rewrite lookup_insert_eq.
Qed.
Lemma hash_at_put k h ks : hash_at (put_hash k h ks) k = h.
Proof.
  unfold hash_at, as_hash, put_hash, put. case_decide; subst.
  - by rewrite lookup_delete_eq.
  - by rewrite lookup_insert_eq.
Qed.

Lemma set_at_ext ks ks' k : ks !! k = ks' !! k -> set_at ks k = set_at ks' k.
Proof. unfold set_at, as_set. by intros ->. Qed.
Lemma hash_at_ext ks ks' k : ks !! k = ks' !! k -> hash_at ks k = hash_at ks' k.
Proof. unfold hash_at, as_hash. by intros ->. Qed.
(** The key a write command touches; it changes no other key. *)
Definition wcmd_key (w : wcmd) : string :=
  match w with
  | SADD k _ | SREM k _ | HSET k _ | HDEL k _ | DEL k | EXPIRE k _ | PERSIST k
  | ZADD_NX k _ _ | SET k _ => k
  end.

Lemma exec_w_frame w ks k : k <> wcmd_key w -> (exec_w w ks).2 !! k = ks !! k.
Proof.
  intros Hk. destruct w; simpl in *; repeat case_match; simpl; try done;
    first [by rewrite put_set_ne | by rewrite put_hash_ne | by rewrite put_zset_ne
          | by rewrite expire_ne | by rewrite persist_ne | by rewrite lookup_delete_ne
          | by rewrite lookup_insert_ne].
Qed.

Lemma exec_multi_frame ws ks k : k ∉ wcmd_key <$> ws -> exec_multi ws ks !! k = ks !! k.
Proof.
  unfold exec_multi. revert ks. induction ws as [|w ws IH]; intros ks Hk; simpl; [done|].
  rewrite IH by set_solver. apply exec_w_frame. set_solver.
Qed.

(** The keys a command of a transaction writes. *)
Definition tcmd_keys (c : tcmd) : list string :=
  match c with T_SETNX k _ => [k] | T_WRITE w => [wcmd_key w] | _ => [] end.

Lemma exec_t_frame c ks k : k ∉ tcmd_keys c -> (exec_t c ks).2 !! k = ks !! k.
Proof.
  destruct c; simpl; try done.
  - intros Hk. case_match; [done|]. simpl. rewrite lookup_insert_ne by set_solver. done.
  - intros Hk. destruct (exec_w w ks) as [r ks'] eqn:E. simpl. apply (f_equal snd) in E. simpl in E. subst.
    apply exec_w_frame. set_solver.
Qed.

Lemma exec_txn_frame cs ks k : k ∉ cs ≫= tcmd_keys -> exec_txn cs ks !! k = ks !! k.
Proof.
  unfold exec_txn. revert ks. induction cs as [|c cs IH]; intros ks Hk; simpl in *; [done|].
  rewrite elem_of_app in Hk. rewrite IH by tauto. apply exec_t_frame. tauto.
Qed.

(** The keys a command may write. *)
Definition cmd_keys {R} (c : cmd R) : list string :=
  match c with
  | Write w => [wcmd_key w]
  | MULTI ws => wcmd_key <$> ws
  | SET_NX_EX k _ _ | ZPOPMIN k | RENEW_SCRIPT k _ _ | RELEASE_SCRIPT k _
  | ALLOC_TOKEN_SCRIPT k _ _ _ | REFRESH_TTL_SCRIPT k _ _ => [k]
  | EXEC cs => cs ≫= tcmd_keys
  | _ => []
  end.

Lemma contract_frame `{ScanOrder} {R} (c : cmd R) ks r ks' k :
  contract c ks r ks' -> k ∉ cmd_keys c -> ks' !! k = ks !! k.
Proof.
  unfold contract. destruct (exec c ks) as [[r0 ks0]|] eqn:E; [|by intros [-> _]].
  intros Hc Hk. assert (ks0 !! k = ks !! k) as H0; [|by destruct Hc as [[_ ->]|[_ [-> | ->]]]].
  destruct c; simpl in *; repeat case_match; simplify_eq/=; try done;
    try (apply (f_equal snd) in E; simpl in E; subst; apply exec_w_frame; set_solver);
    first [by apply exec_multi_frame | by apply exec_txn_frame | by rewrite put_hash_ne by set_solver
          | by rewrite put_zset_ne by set_solver | by rewrite expire_ne by set_solver
          | by rewrite lookup_delete_ne by set_solver | by rewrite lookup_insert_ne by set_solver
          | idtac].
Qed.

Lemma contract_read `{ScanOrder} {R} (c : cmd R) ks r ks' :
  contract c ks r ks' -> cmd_keys c = [] -> ks' = ks.
Proof.
  intros Hc Hk. apply map_eq. intros k. eapply contract_frame; [done|]. rewrite Hk. set_solver.
Qed.
