(* ===== verification/Dict.v ===== *)
(** * Dict: the list-name/token dictionary

    Models [DictClient] of [src/src/datastore/idlist_membership/schema.rs]. The
    dictionary is one Redis hash per company; tokens are allocated by the Lua
    script [ALLOC_TOKEN_SCRIPT], whose effect is [Effects.exec]. *)
From S2P Require Import Prelude Schema Effects.

Definition DICT_COUNTER_FIELD : string := "__counter".
Definition DICT_NAME_PREFIX : string := "n:".
Definition DICT_TOKEN_PREFIX : string := "t:".

Record DictSnapshot := {
  name_to_token : gmap string N;
  token_to_name : gmap N string;
}.
Definition DictSnapshot_default : DictSnapshot := {| name_to_token := ∅; token_to_name := ∅ |}.

Definition name_field (list_name : string) : string := DICT_NAME_PREFIX +:+ list_name.
Definition token_field (token : N) : string := DICT_TOKEN_PREFIX +:+ show_u64 token.

Section DictClient.
Context {E : Type} `{FromRedis E} (self : IdListKeySchema).

Definition parse_token (token : string) : prog E N :=
  match parse_u64 token with
  | Some t => Ret t
  | None => Throw (from_redis (TypeError "dictionary token was not an integer"))
  end.

Definition get_or_allocate_token (skh list_name : string) : prog E N :=
  _ ← get_conn;
  token ← redis (ALLOC_TOKEN_SCRIPT (dict_key self skh) (name_field list_name) list_name
                   DICT_COUNTER_FIELD);
  parse_token token.

Definition get_token (skh list_name : string) : prog E (option N) :=
  _ ← get_conn;
  value ← redis (HGET (dict_key self skh) (name_field list_name));
  match value with
  | None => Ret None
  | Some token => t ← parse_token token; Ret (Some t)
  end.

(** One iteration of the loop over the hash's fields. *)
Definition snapshot_field (snap : DictSnapshot) (fv : string * string) : DictSnapshot :=
  let '(field, value) := fv in
  match strip_prefix DICT_NAME_PREFIX field with
  | Some name =>
      match parse_u64 value with
      | Some token => {| name_to_token := <[name := token]> (name_to_token snap);
                         token_to_name := token_to_name snap |}
      | None => snap
      end
  | None =>
      match strip_prefix DICT_TOKEN_PREFIX field with
      | Some token_str =>
          match parse_u64 token_str with
          | Some token => {| name_to_token := name_to_token snap;
                             token_to_name := <[token := value]> (token_to_name snap) |}
          | None => snap
          end
      | None => snap
      end
  end.

Definition snapshot_of_fields (fields : gmap string string) : DictSnapshot :=
  foldl snapshot_field DictSnapshot_default (map_to_list fields).

Definition snapshot (skh : string) : prog E DictSnapshot :=
  _ ← get_conn;
  fields ← redis (HGETALL (dict_key self skh));
  Ret (snapshot_of_fields fields).
End DictClient.

(** ** The dictionary invariant *)

Definition counter_is (h : gmap string string) (c : N) : Prop :=
  match h !! DICT_COUNTER_FIELD with
  | None => c = 0%N
  | Some v => v = show_u64 c
  end.

(** Names and tokens are inverse to each other, every token was handed out by
    the counter, and the token entries are written in decimal. *)
Record dict_ok (h : gmap string string) (c : N) : Prop := {
  dok_counter : counter_is h c;
  dok_bound : (c <= LUA_INT_MAX)%N;
  dok_name name v : h !! name_field name = Some v ->
    exists t, v = show_u64 t /\ (1 <= t <= c)%N /\ h !! token_field t = Some name;
  dok_token str name : h !! (DICT_TOKEN_PREFIX +:+ str) = Some name ->
    exists t, str = show_u64 t /\ (1 <= t <= c)%N /\ h !! name_field name = Some (show_u64 t);
}.

Lemma name_field_inj a b : name_field a = name_field b -> a = b.
Proof. apply str_app_inj_l. Qed.
Lemma token_field_inj t u : token_field t = token_field u -> t = u.
Proof. intros H%str_app_inj_l. by apply show_u64_inj. Qed.
Lemma name_not_token n s : name_field n <> DICT_TOKEN_PREFIX +:+ s.
Proof. unfold name_field, DICT_NAME_PREFIX, DICT_TOKEN_PREFIX. rewrite !str_cons_app. done. Qed.
Lemma counter_not_name n : DICT_COUNTER_FIELD <> name_field n.
Proof. unfold name_field, DICT_NAME_PREFIX. by rewrite !str_cons_app. Qed.
Lemma counter_not_token s : DICT_COUNTER_FIELD <> DICT_TOKEN_PREFIX +:+ s.
Proof. unfold DICT_TOKEN_PREFIX. by rewrite !str_cons_app. Qed.
#[export] Hint Resolve name_not_token counter_not_name counter_not_token not_eq_sym : sfp.

Lemma dict_ok_bound_u64 h c t : dict_ok h c -> (t <= c)%N -> is_u64 t.
Proof. intros [_ Hb _ _] Ht. unfold is_u64, u64_max, LUA_INT_MAX in *. lia. Qed.

Lemma hincr_counter h c :
  dict_ok h c -> (c < LUA_INT_MAX)%N -> hincr h DICT_COUNTER_FIELD = Some (c + 1)%N.
Proof.
  intros Hok Hc. unfold hincr. pose proof (dok_counter _ _ Hok) as Hcount. unfold counter_is in Hcount.
  destruct (h !! DICT_COUNTER_FIELD); subst; [|done].
  rewrite parse_bounded_show; [done|lia].
Qed.

(** The three fields the script writes for a new name. *)
Definition allocated (h : gmap string string) (name : string) (t : N) : gmap string string :=
  <[token_field t := name]> (<[name_field name := show_u64 t]> (<[DICT_COUNTER_FIELD := show_u64 t]> h)).

Lemma allocated_ok h c name :
  dict_ok h c -> (c < LUA_INT_MAX)%N -> h !! name_field name = None ->
  dict_ok (allocated h name (c + 1)) (c + 1).
Proof.
  intros Hok Hc Hnew. unfold allocated. constructor.
  - unfold counter_is. rewrite lookup_insert_ne by (unfold token_field; auto with sfp).
    rewrite lookup_insert_ne by auto with sfp. by rewrite lookup_insert_eq.
  - lia.
  - intros n v. rewrite lookup_insert_ne by (intros e; symmetry in e; by apply name_not_token in e).
    destruct (decide (n = name)) as [->|Hne].
    + rewrite lookup_insert_eq. intros [= <-]. exists (c + 1)%N. split_and!; [done|lia|lia|].
      by rewrite lookup_insert_eq.
    + rewrite lookup_insert_ne by (intros e%name_field_inj; congruence).
      rewrite lookup_insert_ne by auto with sfp.
      intros (t & -> & Ht & Htok)%(dok_name _ _ Hok). exists t. split_and!; [done|lia|lia|].
      rewrite lookup_insert_ne by (intros e%token_field_inj; lia).
      rewrite lookup_insert_ne by auto with sfp. by rewrite lookup_insert_ne by (unfold token_field; auto with sfp).
  - intros str n. destruct (decide (str = show_u64 (c + 1))) as [->|Hne].
    + rewrite lookup_insert_eq. intros [= <-]. exists (c + 1)%N. split_and!; [done|lia|lia|].
      rewrite lookup_insert_ne by (intros e; symmetry in e; by apply name_not_token in e).
      by rewrite lookup_insert_eq.
    + intros Hl. rewrite lookup_insert_ne in Hl by (intros e%str_app_inj_l; congruence).
      rewrite !lookup_insert_ne in Hl by auto with sfp.
      apply (dok_token _ _ Hok) in Hl as (t & -> & Ht & Hname). exists t. split_and!; [done|lia|lia|].
      rewrite lookup_insert_ne by (intros e; symmetry in e; by apply name_not_token in e).
      destruct (decide (n = name)) as [->|Hn]; [congruence|].
      rewrite lookup_insert_ne by (intros e%name_field_inj; congruence).
      by rewrite lookup_insert_ne by auto with sfp.
Qed.

(** Removal deletes both directions of one entry. *)
Definition forgotten (h : gmap string string) (name : string) (t : N) : gmap string string :=
  delete (token_field t) (delete (name_field name) h).

Lemma forgotten_ok h c name t :
  dict_ok h c -> h !! name_field name = Some (show_u64 t) -> dict_ok (forgotten h name t) c.
Proof.
  intros Hok Hmap. unfold forgotten. constructor.
  - unfold counter_is. rewrite !lookup_delete_ne by (unfold token_field; auto with sfp).
    apply (dok_counter _ _ Hok).
  - apply (dok_bound _ _ Hok).
  - intros n v. rewrite lookup_delete_ne by (intros e; symmetry in e; by apply name_not_token in e).
    intros [Hne Hn]%lookup_delete_Some.
    destruct (dok_name _ _ Hok _ _ Hn) as (u & -> & Hu & Htok). exists u. split_and!; [done|lia..|].
    rewrite lookup_delete_ne; [by rewrite lookup_delete_ne by auto with sfp|].
    intros <-%token_field_inj.
    destruct (dok_name _ _ Hok _ _ Hmap) as (u & ->%show_u64_inj & _ & Htok'). congruence.
  - intros str n [Hne Hn]%lookup_delete_Some. rewrite lookup_delete_ne in Hn by auto with sfp.
    destruct (dok_token _ _ Hok _ _ Hn) as (u & -> & Hu & Hname). exists u. split_and!; [done|lia..|].
    rewrite lookup_delete_ne by (intros e; symmetry in e; by apply name_not_token in e).
    rewrite lookup_delete_ne; [done|]. intros <-%name_field_inj.
    apply Hne. unfold token_field. congruence.
Qed.

(** ** Dictionary histories

    The writers of a dictionary hash: the allocation script, the removal
    worker's HDEL and the marker of a disabled reverse index. The ghost log
    records every token ever handed out. *)
Inductive dict_step : gmap string string * list (N * string) ->
                      gmap string string * list (N * string) -> Prop :=
| step_alloc ks ks' k h log name tok :
    hash_at ks k = h ->
    exec (ALLOC_TOKEN_SCRIPT k (name_field name) name DICT_COUNTER_FIELD) ks
      = Some (Ok (show_u64 tok), ks') ->
    h !! name_field name = None ->
    dict_step (h, log) (hash_at ks' k, (tok, name) :: log)
| step_existing h log name v : h !! name_field name = Some v -> dict_step (h, log) (h, log)
| step_remove h log name tok :
    h !! name_field name = Some (show_u64 tok) ->
    dict_step (h, log) (forgotten h name tok, log)
| step_disable h log v : dict_step (h, log) (<[REVERSE_INDEX_DISABLED := v]> h, log)
| step_enable h log : dict_step (h, log) (delete REVERSE_INDEX_DISABLED h, log).

Definition log_ok (c : N) (log : list (N * string)) : Prop :=
  NoDup (fst <$> log) /\ Forall (fun tn => 1 <= tn.1 <= c)%N log.

Lemma marker_not_name n : REVERSE_INDEX_DISABLED <> name_field n.
Proof. unfold name_field, DICT_NAME_PREFIX. by rewrite !str_cons_app. Qed.
Lemma marker_not_token s : REVERSE_INDEX_DISABLED <> DICT_TOKEN_PREFIX +:+ s.
Proof. unfold DICT_TOKEN_PREFIX. by rewrite !str_cons_app. Qed.
#[export] Hint Resolve marker_not_name marker_not_token : sfp.

(** The marker is outside every entry of the dictionary. *)
Lemma dict_ok_ext h h' c :
  (forall f, f <> REVERSE_INDEX_DISABLED -> h' !! f = h !! f) -> dict_ok h c -> dict_ok h' c.
Proof.
  intros Hext Hok. constructor.
  - unfold counter_is. rewrite Hext by done. apply (dok_counter _ _ Hok).
  - apply (dok_bound _ _ Hok).
  - intros n v. rewrite Hext by auto with sfp. intros (t & ? & ? & ?)%(dok_name _ _ Hok).
    exists t. by rewrite Hext by (unfold token_field; auto with sfp).
  - intros s n. rewrite Hext by auto with sfp. intros (t & ? & ? & ?)%(dok_token _ _ Hok).
    exists t. by rewrite Hext by auto with sfp.
Qed.

Lemma exec_alloc_new ks k name ks' r :
  hash_at ks k !! name_field name = None ->
  exec (ALLOC_TOKEN_SCRIPT k (name_field name) name DICT_COUNTER_FIELD) ks = Some (Ok r, ks') ->
  exists t, r = show_u64 t /\ hincr (hash_at ks k) DICT_COUNTER_FIELD = Some t /\
    hash_at ks' k = allocated (hash_at ks k) name t.
Proof.
  unfold hash_at at 1 2 4. simpl. destruct (as_hash ks k) as [h|]; [|done]. simpl.
  intros -> H. destruct (hincr h DICT_COUNTER_FIELD) as [t|]; [|done]. simplify_eq.
  exists t. split_and!; [done..|]. apply hash_at_put.
Qed.

Lemma exec_alloc_fresh ks k name ks' r c :
  dict_ok (hash_at ks k) c -> hash_at ks k !! name_field name = None ->
  exec (ALLOC_TOKEN_SCRIPT k (name_field name) name DICT_COUNTER_FIELD) ks = Some (Ok r, ks') ->
  (c < LUA_INT_MAX)%N /\ r = show_u64 (c + 1) /\
  hash_at ks' k = allocated (hash_at ks k) name (c + 1).
Proof.
  intros Hok Hnew Hexec. destruct (exec_alloc_new _ _ _ _ _ Hnew Hexec) as (t & -> & Ht & ->).
  assert (c < LUA_INT_MAX)%N as Hc.
  { destruct (decide (c = LUA_INT_MAX)) as [->|]; [|pose proof (dok_bound _ _ Hok); lia].
    unfold hincr in Ht. pose proof (dok_counter _ _ Hok) as Hcount. unfold counter_is in Hcount.
    destruct (hash_at ks k !! DICT_COUNTER_FIELD); [subst|done].
    by vm_compute in Ht. }
  rewrite (hincr_counter _ c) in Ht by done. by simplify_eq.
Qed.

Lemma dict_step_ok s s' c : dict_step s s' -> dict_ok s.1 c -> log_ok c s.2 ->
  exists c', dict_ok s'.1 c' /\ log_ok c' s'.2.
Proof.
  intros Hstep Hok [Hnd Hall]. destruct Hstep as [ks ks' k h log name tok <- He Hnew|
    h log name v Hv|h log name tok Ht|h log v|h log]; simpl in *.
  - destruct (exec_alloc_fresh _ _ _ _ _ c Hok Hnew He) as (Hc & ->%show_u64_inj & ->).
    exists (c + 1)%N. split; [by apply allocated_ok|]. split; simpl.
    + constructor; [|done]. intros ([t n] & Heq & Hin)%list_elem_of_fmap. simpl in *.
      rewrite Forall_forall in Hall. specialize (Hall _ Hin). simpl in Hall. lia.
    + constructor; [simpl; lia|]. eapply Forall_impl; [done|]. intros [t n]; simpl; lia.
  - by exists c.
  - exists c. split; [by apply forgotten_ok|done].
  - exists c. split; [|done]. eapply dict_ok_ext; [|done]. intros. by rewrite lookup_insert_ne.
  - exists c. split; [|done]. eapply dict_ok_ext; [|done]. intros. by rewrite lookup_delete_ne.
Qed.

Lemma dict_empty_ok : dict_ok ∅ 0.
Proof.
  constructor; [done|done|intros ?? H; by rewrite lookup_empty in H..].
Qed.

(** ** Snapshots *)

(** A name entry and a token entry never have the same field. *)
Lemma strip_name_token f name tok :
  strip_prefix DICT_NAME_PREFIX f = Some name -> strip_prefix DICT_TOKEN_PREFIX f = Some tok -> False.
Proof.
  intros ->%strip_prefix_Some H%strip_prefix_Some. by apply name_not_token in H.
Qed.

Lemma snapshot_field_lookup snap f v name t :
  (name_to_token (snapshot_field snap (f, v)) !! name =
     if decide (f = name_field name /\ is_Some (parse_u64 v)) then parse_u64 v
     else name_to_token snap !! name) /\
  (token_to_name (snapshot_field snap (f, v)) !! t =
     match strip_prefix DICT_NAME_PREFIX f, strip_prefix DICT_TOKEN_PREFIX f with
     | None, Some s => if decide (parse_u64 s = Some t) then Some v else token_to_name snap !! t
     | _, _ => token_to_name snap !! t
     end).
Proof.
  unfold snapshot_field. destruct (strip_prefix DICT_NAME_PREFIX f) as [n|] eqn:En.
  - apply strip_prefix_Some in En as ->. split; [|by case_match].
    destruct (parse_u64 v) as [u|]; simpl.
    + destruct (decide (n = name)) as [->|Hne].
      * rewrite lookup_insert_eq, decide_True; done.
      * rewrite lookup_insert_ne, decide_False; [done| |done].
        intros [He _]. by apply name_field_inj in He.
    + rewrite decide_False; [done|]. intros [_ [? ?]]. done.
  - rewrite decide_False.
    2:{ intros [-> _]. unfold name_field in En. by rewrite strip_prefix_app in En. }
    destruct (strip_prefix DICT_TOKEN_PREFIX f) as [s|]; [|done].
    destruct (parse_u64 s) as [u|]; simpl; (split; [done|]).
    + destruct (decide (u = t)) as [->|Hne].
      * by rewrite lookup_insert_eq, decide_True.
      * rewrite lookup_insert_ne, decide_False; congruence.
    + done.
Qed.

Definition snapshot_fold (l : list (string * string)) : DictSnapshot :=
  foldl snapshot_field DictSnapshot_default l.

Lemma snapshot_fold_snoc l fv : snapshot_fold (l ++ [fv]) = snapshot_field (snapshot_fold l) fv.
Proof. unfold snapshot_fold. by rewrite foldl_app. Qed.

Lemma snapshot_names l name t : NoDup l.*1 ->
  name_to_token (snapshot_fold l) !! name = Some t <->
  exists v, (name_field name, v) ∈ l /\ parse_u64 v = Some t.
Proof.
  induction l as [|[f v] l IH] using rev_ind.
  - intros _. simpl. split; [by rewrite lookup_empty|]. intros (? & []%elem_of_nil & _).
  - rewrite fmap_app, NoDup_app. simpl. intros (Hnd & Hdis & _). specialize (IH Hnd).
    rewrite snapshot_fold_snoc.
    rewrite (proj1 (snapshot_field_lookup (snapshot_fold l) f v name 0%N)).
    case_decide as Hd.
    + destruct Hd as [-> _]. split.
      * intros Hp. exists v. split; [set_solver|done].
      * intros (w & [Hin|Hin]%elem_of_app & Hw); [|set_solver].
        exfalso. apply (Hdis (name_field name)); [|set_solver].
        apply list_elem_of_fmap. by exists (name_field name, w).
    + rewrite IH. split.
      * intros (w & Hin & Hw). exists w. split; [set_solver|done].
      * intros (w & [Hin|Hin]%elem_of_app & Hw); [by exists w|].
        apply list_elem_of_singleton in Hin. simplify_eq. exfalso. apply Hd. split; [done|by eexists].
Qed.

Lemma snapshot_tokens l t name : NoDup l.*1 ->
  (forall str v, (DICT_TOKEN_PREFIX +:+ str, v) ∈ l -> exists u, str = show_u64 u /\ is_u64 u) ->
  is_u64 t ->
  token_to_name (snapshot_fold l) !! t = Some name <-> (token_field t, name) ∈ l.
Proof.
  intros Hnd Hdec Ht. induction l as [|[f v] l IH] using rev_ind.
  - simpl. split; [by rewrite lookup_empty|]. intros []%elem_of_nil.
  - rewrite fmap_app, NoDup_app in Hnd. simpl in Hnd. destruct Hnd as (Hnd & Hdis & _).
    specialize (IH Hnd ltac:(intros; eapply Hdec, elem_of_app; by left)).
    rewrite snapshot_fold_snoc.
    rewrite (proj2 (snapshot_field_lookup (snapshot_fold l) f v "" t)).
    destruct (decide (f = token_field t)) as [->|Hf].
    + assert (strip_prefix DICT_NAME_PREFIX (token_field t) = None) as ->.
      { destruct (strip_prefix _ _) eqn:E; [|done]. exfalso.
        eapply strip_name_token; [done|apply strip_prefix_app]. }
      unfold token_field at 1. rewrite strip_prefix_app.
      rewrite decide_True by (by apply parse_u64_show).
      split; [intros [= ->]; set_solver|].
      intros [Hin|Hin]%elem_of_app; [|set_solver]. exfalso.
      apply (Hdis (token_field t)); [|set_solver].
      apply list_elem_of_fmap. by exists (token_field t, name).
    + assert (match strip_prefix DICT_NAME_PREFIX f, strip_prefix DICT_TOKEN_PREFIX f with
       | None, Some s => if decide (parse_u64 s = Some t) then Some v
                         else token_to_name (snapshot_fold l) !! t
       | _, _ => token_to_name (snapshot_fold l) !! t
       end = token_to_name (snapshot_fold l) !! t) as ->.
      { destruct (strip_prefix DICT_NAME_PREFIX f); [done|].
        destruct (strip_prefix DICT_TOKEN_PREFIX f) as [str|] eqn:Es; [|done].
        case_decide as Hp; [|done]. exfalso. apply strip_prefix_Some in Es as ->.
        destruct (Hdec str v) as (u & -> & Hu); [set_solver|].
        rewrite parse_u64_show in Hp by done. simplify_eq. }
      rewrite IH. set_solver.
Qed.

(** ** Properties *)

(** the allocation script hands out tokens as the dictionary promises. On a
    well-formed dictionary it returns the existing token of a known name and
    changes nothing; a new name gets the successor of the counter, which names no
    list yet, and the dictionary stays well formed with both directions written. *)
Theorem alloc_token_correct ks k name c :
  dict_ok (hash_at ks k) c -> (c < LUA_INT_MAX)%N -> is_Some (as_hash ks k) ->
  exists t ks' c',
    exec (ALLOC_TOKEN_SCRIPT k (name_field name) name DICT_COUNTER_FIELD) ks
      = Some (Ok (show_u64 t), ks') /\
    dict_ok (hash_at ks' k) c' /\
    hash_at ks' k !! name_field name = Some (show_u64 t) /\
    hash_at ks' k !! token_field t = Some name /\
    ((ks' = ks /\ hash_at ks k !! name_field name = Some (show_u64 t)) \/
     (hash_at ks k !! name_field name = None /\ hash_at ks k !! token_field t = None /\ t = (c + 1)%N)).
Proof.
  intros Hok Hc [h Hh]. destruct (hash_at ks k !! name_field name) as [v|] eqn:En.
  - destruct (dok_name _ _ Hok _ _ En) as (t & -> & Ht & Htok). exists t, ks, c.
    split_and!; [|done..|by left].
    simpl. unfold hash_at in En. rewrite Hh in *. simpl in En. by rewrite En.
  - destruct (exec (ALLOC_TOKEN_SCRIPT k (name_field name) name DICT_COUNTER_FIELD) ks)
      as [[r ks']|] eqn:Ex; [|simpl in Ex; by repeat case_match].
    assert (exists t, r = Ok t) as [r' ->].
    { simpl in Ex. pose proof (hincr_counter _ _ Hok Hc) as Hi. unfold hash_at in En, Hi.
      rewrite Hh in *. simpl in En, Hi. rewrite En, Hi in Ex. simplify_eq. by eexists. }
    destruct (exec_alloc_fresh _ _ _ _ _ c Hok En Ex) as (_ & -> & Hks').
    exists (c + 1)%N, ks', (c + 1)%N. rewrite Hks'. split_and!; [done|by apply allocated_ok| | |].
    + unfold allocated. rewrite lookup_insert_ne by (intros e; symmetry in e; by apply name_not_token in e).
      by rewrite lookup_insert_eq.
    + unfold allocated. by rewrite lookup_insert_eq.
    + right. split_and!; [done| |done]. destruct (hash_at ks k !! token_field (c + 1)) eqn:E; [|done].
      apply (dok_token _ _ Hok) in E as (t & <-%show_u64_inj & Ht & _). lia.
Qed.

Lemma alloc_token_correct_witness :
  let ks : keyspace :=
    {["d" := {| val := VHash (allocated ∅ "a" 1); ttl := None |}]} in
  exists t ks' c',
    exec (ALLOC_TOKEN_SCRIPT "d" (name_field "b") "b" DICT_COUNTER_FIELD) ks
      = Some (Ok (show_u64 t), ks') /\
    dict_ok (hash_at ks' "d") c' /\
    hash_at ks' "d" !! name_field "b" = Some (show_u64 t) /\
    hash_at ks' "d" !! token_field t = Some "b" /\
    ((ks' = ks /\ hash_at ks "d" !! name_field "b" = Some (show_u64 t)) \/
     (hash_at ks "d" !! name_field "b" = None /\ hash_at ks "d" !! token_field t = None /\
      t = (1 + 1)%N)).
Proof.
  intros ks. apply (alloc_token_correct ks "d" "b" 1); [|done|by eexists].
  exact (allocated_ok ∅ 0 "a" dict_empty_ok eq_refl eq_refl).
Defined.

(** C36: a token is never reused. Along every sequence of allocations, removals and
    reverse-index markers of a company's dictionary, the tokens handed out are
    pairwise different and the dictionary stays well formed, so a member set that
    still holds the token of a removed list cannot resolve to another list. *)
Theorem tokens_never_reused h log :
  rtc dict_step (∅, []) (h, log) -> NoDup (fst <$> log) /\ exists c, dict_ok h c.
Proof.
  intros Hr.
  assert (forall s, rtc dict_step s (h, log) -> (exists c, dict_ok s.1 c /\ log_ok c s.2) ->
            exists c, dict_ok h c /\ log_ok c log) as Hinv.
  { intros s Hs. remember (h, log) as e eqn:He.
    induction Hs as [s|s s1 e Hstep Hs IH]; intros (c & Hok & Hlog); subst; [by exists c|].
    apply IH; [done..|]. by eapply dict_step_ok. }
  destruct (Hinv _ Hr) as (c & Hok & [Hnd _]); [|eauto].
  exists 0%N. split; [apply dict_empty_ok|]. split; [apply NoDup_nil_2|apply Forall_nil_2].
Qed.

Lemma tokens_never_reused_witness :
  NoDup (fst <$> [(1%N, "a")]) /\ exists c, dict_ok (forgotten (allocated ∅ "a" 1) "a" 1) c.
Proof.
  apply (tokens_never_reused (forgotten (allocated ∅ "a" 1) "a" 1) [(1%N, "a")]).
  eapply rtc_l.
  - eapply (step_alloc ∅ _ "d" ∅ [] "a" 1); reflexivity.
  - apply rtc_once. rewrite hash_at_put. by apply (step_remove (allocated ∅ "a" 1) _ "a" 1).
Defined.

(** the in-memory snapshot is faithful. For a well-formed dictionary the
    snapshot maps a name to a token exactly when the hash does, and its two maps
    are inverse to each other; the counter and the markers do not leak in. *)
Theorem snapshot_faithful h c name t :
  dict_ok h c ->
  let snap := snapshot_of_fields h in
  (name_to_token snap !! name = Some t <->
     is_u64 t /\ h !! name_field name = Some (show_u64 t)) /\
  (is_u64 t -> token_to_name snap !! t = Some name <-> name_to_token snap !! name = Some t).
Proof.
  intros Hok snap. change snap with (snapshot_fold (map_to_list h)).
  pose proof (NoDup_fst_map_to_list h) as Hnd.
  assert (name_to_token (snapshot_fold (map_to_list h)) !! name = Some t <->
     is_u64 t /\ h !! name_field name = Some (show_u64 t)) as Hname.
  { rewrite snapshot_names by done. split.
    - intros (v & Hin%elem_of_map_to_list & Hp). split; [by apply parse_u64_bound in Hp|].
      destruct (dok_name _ _ Hok _ _ Hin) as (u & -> & Hu & _).
      rewrite parse_u64_show in Hp by (eapply dict_ok_bound_u64; [done|lia]). by simplify_eq.
    - intros [Ht Hl]. exists (show_u64 t). rewrite elem_of_map_to_list. auto with sfp. }
  split; [done|]. intros Ht. rewrite Hname, snapshot_tokens; [|done| |done].
  - rewrite elem_of_map_to_list. split.
    + intros (u & ->%show_u64_inj & _ & Hl)%(dok_token _ _ Hok). done.
    + intros [_ Hl]. destruct (dok_name _ _ Hok _ _ Hl) as (u & ->%show_u64_inj & _ & ?). done.
  - intros str v Hin%elem_of_map_to_list. destruct (dok_token _ _ Hok _ _ Hin) as (u & -> & Hu & _).
    exists u. split; [done|]. eapply dict_ok_bound_u64; [done|lia].
Qed.

Lemma snapshot_faithful_witness :
  token_to_name (snapshot_of_fields (allocated ∅ "a" 1)) !! 1%N = Some "a" <->
  name_to_token (snapshot_of_fields (allocated ∅ "a" 1)) !! "a" = Some 1%N.
Proof.
  apply (snapshot_faithful (allocated ∅ "a" 1) 1 "a" 1); [|by vm_compute].
  exact (allocated_ok ∅ 0 "a" dict_empty_ok eq_refl eq_refl).
Defined.
