(* ===== verification/WorkerCore.v ===== *)
(** * WorkerCore: configuration, task metadata and errors of the sync worker

    Models [src/src/datastore/idlist_membership/worker/core.rs] and the
    configuration switch of [src/src/datastore/idlist_membership/mod.rs]. *)
From S2P Require Import Prelude Schema Effects.

Definition PENDING_VERSION_TTL_S : N := 24 * 60 * 60.
Definition LOCK_RENEWAL_SCAN_PAGES : nat := 512.

(** ** Errors *)

Inductive WorkerError :=
| WeRedis (error : redis_error)
| WeHttp (error : http_error)
| InvalidTask (error : string)
| InvalidFile (error : string)
| OriginStatus (status : N)
| RangeIgnored
| LockLost
| ScanVerification (error : string)
| MissingDictionaryToken.

#[export] Instance from_redis_worker : FromRedis WorkerError := WeRedis.

(** ** Environment variables *)

(** [std::env::var]; [usize] is 64 bits wide. *)
Inductive env_var := EnvOk (value : string) | NotPresent | NotUnicode (error : string).

Definition ENABLE_REVERSE_INDEX_ENV : string := "IDLIST_ENABLE_REVERSE_INDEX".

Definition parse_reverse_index_enabled (value : option string) : result string bool :=
  match value with
  | None => Ok true
  | Some v =>
      if decide (v = "true") then Ok true
      else if decide (v = "false") then Ok false
      else Err (ENABLE_REVERSE_INDEX_ENV +:+ " must be true or false")
  end.

Section FromEnv.
Context (env : string -> env_var).

Definition reverse_index_enabled_from_env : result string bool :=
  match env ENABLE_REVERSE_INDEX_ENV with
  | EnvOk value => parse_reverse_index_enabled (Some value)
  | NotPresent => Ok true
  | NotUnicode error => Err ("failed reading " +:+ ENABLE_REVERSE_INDEX_ENV +:+ ": " +:+ error)
  end.

Definition env_u64 (name : string) (dflt : N) : result string N :=
  match env name with
  | EnvOk value =>
      ok_or (name +:+ " must be a non-negative integer, got '" +:+ value +:+ "'") (parse_u64 value)
  | NotPresent => Ok dflt
  | NotUnicode error => Err ("failed reading " +:+ name +:+ ": " +:+ error)
  end.

Definition env_usize (name : string) (dflt : N) : result string N :=
  value ← env_u64 name dflt;
  if decide (value <= u64_max)%N then Ok value
  else Err (name +:+ " is too large for this platform").

Definition env_u32 (name : string) (dflt : N) : result string N :=
  value ← env_u64 name dflt;
  if decide (value <= u32_max)%N then Ok value
  else Err (name +:+ " is too large, got '" +:+ show_u64 value +:+ "'").
End FromEnv.

(** ** Configuration *)

Record IdListWorkerConfig := {
  enable_reverse_index : bool;
  poll_interval_ms : N;
  lock_ttl_s : N;
  pipeline_batch_size : N;
  scan_count : N;
  diff_partition_max_members : N;
  old_version_ttl_s : N;
}.

Definition IdListWorkerConfig_default : IdListWorkerConfig := {|
  enable_reverse_index := true;
  poll_interval_ms := 2000;
  lock_ttl_s := DEFAULT_WORKER_CLAIM_TTL_S;
  pipeline_batch_size := 5000;
  scan_count := 1000;
  diff_partition_max_members := 2000000;
  old_version_ttl_s := 24 * 60 * 60;
|}.

Definition worker_config_from_env (env : string -> env_var) : result string IdListWorkerConfig :=
  let defaults := IdListWorkerConfig_default in
  reverse ← reverse_index_enabled_from_env env;
  poll ← env_u64 env "IDLIST_QUEUE_POLL_INTERVAL_MS" (poll_interval_ms defaults);
  lock ← env_u64 env "IDLIST_LOCK_TTL_IN_S" (lock_ttl_s defaults);
  batch ← env_usize env "IDLIST_PIPELINE_BATCH_SIZE" (pipeline_batch_size defaults);
  scan ← env_usize env "IDLIST_SCAN_COUNT" (scan_count defaults);
  diff ← env_u64 env "IDLIST_DIFF_PARTITION_MAX_MEMBERS" (diff_partition_max_members defaults);
  old ← env_u64 env "IDLIST_OLD_VERSION_TTL_IN_S" (old_version_ttl_s defaults);
  if bool_decide (poll = 0%N) || bool_decide (lock < 3)%N || bool_decide (batch = 0%N)
     || bool_decide (scan = 0%N) || bool_decide (diff = 0%N)
  then Err "IDLIST worker sizes/intervals must be positive and lock TTL must be >= 3s"
  else Ok {| enable_reverse_index := reverse; poll_interval_ms := poll; lock_ttl_s := lock;
             pipeline_batch_size := batch; scan_count := scan;
             diff_partition_max_members := diff; old_version_ttl_s := old |}.

(** What the loops of the worker rely on. *)
Record config_ok (config : IdListWorkerConfig) : Prop := {
  cfg_poll : (0 < poll_interval_ms config)%N;
  cfg_ttl : (3 <= lock_ttl_s config)%N;
  cfg_batch : (0 < pipeline_batch_size config)%N;
  cfg_scan : (0 < scan_count config)%N;
  cfg_diff : (0 < diff_partition_max_members config)%N;
}.

(** ** Task metadata *)

Inductive TaskOp := OpLoad | OpRemove.

Record TaskMetadata := {
  tm_op : TaskOp;
  tm_file_id : string;
  tm_creation_time : N;
  tm_url : string;
  tm_size : N;
}.

#[export] Instance task_op_eq_dec : EqDecision TaskOp.
Proof. solve_decision. Defined.
#[export] Instance task_metadata_eq_dec : EqDecision TaskMetadata.
Proof. solve_decision. Defined.

Definition parse_number (fields : gmap string string) (field : string) : result WorkerError N :=
  value ← ok_or (InvalidTask (field +:+ " is missing")) (fields !! field);
  ok_or (InvalidTask (field +:+ " is not an integer")) (parse_u64 value).

Definition from_hash (fields : gmap string string) : result WorkerError TaskMetadata :=
  op ← match fields !! task_meta_fields.OP with
       | Some op =>
           if decide (op = TASK_OP_LOAD) then Ok OpLoad
           else if decide (op = TASK_OP_REMOVE) then Ok OpRemove
           else Err (InvalidTask ("unsupported task op '" +:+ op +:+ "'"))
       | None => Err (InvalidTask "task op is missing")
       end;
  if decide (op = OpRemove) then
    Ok {| tm_op := op;
          tm_file_id := default "" (fields !! task_meta_fields.FILE_ID);
          tm_creation_time := default 0%N (fields !! task_meta_fields.CREATION_TIME ≫= parse_u64);
          tm_url := default "" (fields !! task_meta_fields.URL);
          tm_size := default 0%N (fields !! task_meta_fields.SIZE ≫= parse_u64) |}
  else
    creation_time ← parse_number fields task_meta_fields.CREATION_TIME;
    url ← ok_or (InvalidTask "url is missing")
            (u ← fields !! task_meta_fields.URL; if str_empty u then None else Some u);
    size ← parse_number fields task_meta_fields.SIZE;
    Ok {| tm_op := op;
          tm_file_id := default "" (fields !! task_meta_fields.FILE_ID);
          tm_creation_time := creation_time;
          tm_url := url;
          tm_size := size |}.

Definition as_idlist_metadata (self : TaskMetadata) : IdListMetadata := {|
  meta_file_id := tm_file_id self;
  meta_creation_time := tm_creation_time self;
  meta_url := tm_url self;
  meta_size := tm_size self;
|}.

Definition tm_version_tag (self : TaskMetadata) : string := version_tag (as_idlist_metadata self).

Inductive WorkerAction := WaDelta | WaFullReload | WaRemove.
Inductive WorkerRunOutcome := Idle | Dropped | ClaimConflict | Completed (action : WorkerAction).

(** ** Properties *)

(** a configuration read from the environment is always usable: whatever the
    variables hold, an accepted configuration has positive poll interval, batch,
    page and partition sizes and a claim TTL of at least three seconds, so that
    the renewal period (a third of it) is at least one. *)
Theorem worker_config_from_env_ok env config :
  worker_config_from_env env = Ok config ->
  config_ok config /\ (1 <= lock_ttl_s config / 3)%N.
Proof.
  unfold worker_config_from_env, mbind, result_bind. intros H.
  repeat case_match; simplify_eq. boolify. split; [constructor; simpl; lia|].
  simpl. apply N.div_le_lower_bound; lia.
Qed.

Lemma worker_config_from_env_ok_witness :
  config_ok IdListWorkerConfig_default /\ (1 <= lock_ttl_s IdListWorkerConfig_default / 3)%N.
Proof. apply (worker_config_from_env_ok (fun _ => NotPresent)). reflexivity. Defined.
