(* ===== verification/Parser.v ===== *)
(** * Parser: the ID-list file format

    Models [src/src/datastore/idlist_membership/worker/parser.rs]: the decoder of
    newline-terminated records, change lines, Content-Range and partitions. *)
From S2P Require Import Prelude Schema Effects WorkerCore.

Abbreviation bytes := (list ascii).

Definition NL : ascii := "010".
Definition CR : ascii := "013".

(** ** UTF-8, as [String::from_utf8] checks it *)

Definition in_range (lo hi : nat) (c : ascii) : bool :=
  bool_decide (lo <= nat_of_ascii c) && bool_decide (nat_of_ascii c <= hi).
Definition cont (c : ascii) : bool := in_range 128 191 c.

Fixpoint utf8_valid (l : bytes) : bool :=
  match l with
  | [] => true
  | a :: l1 =>
      if in_range 0 127 a then utf8_valid l1
      else if in_range 194 223 a then
        match l1 with b :: l2 => cont b && utf8_valid l2 | _ => false end
      else if in_range 224 239 a then
        match l1 with
        | b :: c :: l3 =>
            (if in_range 224 224 a then in_range 160 191 b
             else if in_range 237 237 a then in_range 128 159 b else cont b)
            && cont c && utf8_valid l3
        | _ => false
        end
      else if in_range 240 244 a then
        match l1 with
        | b :: c :: d :: l4 =>
            (if in_range 240 240 a then in_range 144 191 b
             else if in_range 244 244 a then in_range 128 143 b else cont b)
            && cont c && cont d && utf8_valid l4
        | _ => false
        end
      else false
  end.

Definition from_utf8 (l : bytes) : option string :=
  if utf8_valid l then Some (String.string_of_list_ascii l) else None.

(** ** Change lines *)

Record FileChange := { add : bool; member : string }.
#[export] Instance file_change_eq_dec : EqDecision FileChange.
Proof. solve_decision. Defined.

Definition hex_digit (n : nat) : ascii :=
  if bool_decide (n < 10) then ascii_of_nat (48 + n) else ascii_of_nat (87 + n).
(** [{prefix:02x}] *)
Definition hex_byte (c : ascii) : string :=
  let n := nat_of_ascii c in String (hex_digit (n / 16)) (String (hex_digit (n mod 16)) EmptyString).

Definition parse_change_line (line : bytes) : result WorkerError FileChange :=
  match line with
  | [] => Err (InvalidFile "empty line")
  | prefix :: m =>
      is_add ← (if decide (prefix = "+"%char) then Ok true
                else if decide (prefix = "-"%char) then Ok false
                else Err (InvalidFile ("line has invalid prefix 0x" +:+ hex_byte prefix)));
      if bool_decide (m = []) then Err (InvalidFile "line has an empty member")
      else
        name ← ok_or (InvalidFile "member is not UTF-8") (from_utf8 m);
        Ok {| add := is_add; member := name |}
  end.

(** ** The decoder *)

Record DecodedLine := { change : option FileChange; end_offset : N }.
Record CompleteLineDecoder := { pending : bytes; next_offset : N }.

Definition decoder_new (start : N) : CompleteLineDecoder := {| pending := []; next_offset := start |}.

(** [iter().position(|byte| *byte == b'\n')], with the slices on both sides. *)
Fixpoint split_newline (l : bytes) : option (bytes * bytes) :=
  match l with
  | [] => None
  | c :: l' =>
      if decide (c = NL) then Some ([], l')
      else '(a, b) ← split_newline l'; Some (c :: a, b)
  end.

Definition strip_cr (line : bytes) : bytes :=
  if decide (last line = Some CR) then take (length line - 1) line else line.

(** The record of one line without its newline. *)
Definition decode_line (line : bytes) : result WorkerError (option FileChange) :=
  let line := strip_cr line in
  if bool_decide (line = []) then Ok None else Some <$> parse_change_line line.

(** The [while let] of [push]: [rest] is the buffer from the cursor on and
    [offset] the position of the cursor in the file. Each round consumes a
    newline, so the length of the buffer bounds the rounds. *)
Fixpoint decode_loop (fuel : nat) (offset : N) (rest : bytes) (decoded : list DecodedLine)
    : result WorkerError (list DecodedLine * N * bytes) :=
  match fuel, split_newline rest with
  | S fuel', Some (line, rest') =>
      let stop := (offset + N.of_nat (length line) + 1)%N in
      change ← decode_line line;
      decode_loop fuel' stop rest' (decoded ++ [{| change := change; end_offset := stop |}])
  | _, _ => Ok (decoded, offset, rest)
  end.

Definition push (self : CompleteLineDecoder) (chunk : bytes)
    : result WorkerError (CompleteLineDecoder * list DecodedLine) :=
  let buffer := pending self ++ chunk in
  '(decoded, offset, rest) ← decode_loop (length buffer) (next_offset self) buffer [];
  Ok ({| pending := rest; next_offset := offset |}, decoded).

Definition has_partial_line (self : CompleteLineDecoder) : bool :=
  negb (bool_decide (pending self = [])).

(** ** Content-Range and partitions *)

Definition content_range_starts_at (value : string) (expected_start : N) : bool :=
  bool_decide
    ((range ← strip_prefix "bytes " value;
      '(start, _) ← split_once "-" range;
      parse_u64 start) = Some expected_start).

(** The first eight bytes of SHA-256, big endian. *)
Class PartitionHash := sha256_u64 : string -> N.

Definition partition_for `{PartitionHash} (member : string) (partitions : N) : N :=
  (sha256_u64 member mod N.max partitions 1)%N.

(** ** Reference reading of a file *)

(** The complete lines of a file and the bytes after the last newline. *)
Fixpoint lines_fuel (fuel : nat) (l : bytes) : list bytes * bytes :=
  match fuel, split_newline l with
  | S fuel', Some (line, rest) =>
      let '(ls, tail) := lines_fuel fuel' rest in (line :: ls, tail)
  | _, _ => ([], l)
  end.
Definition file_lines (l : bytes) : list bytes := (lines_fuel (length l) l).1.
Definition file_tail (l : bytes) : bytes := (lines_fuel (length l) l).2.

(** ** Lemmas *)

Lemma split_newline_length l a b : split_newline l = Some (a, b) -> length l = length a + 1 + length b.
Proof.
  revert a. induction l as [|c l IH]; intros a; simpl; [done|].
  case_decide; [intros [= <- <-]; simpl; lia|].
  intros ([x y] & Hs & Heq)%bind_Some. simplify_eq/=. rewrite (IH x) by done. lia.
Qed.

Lemma split_newline_eq l a b : split_newline l = Some (a, b) -> l = a ++ NL :: b.
Proof.
  revert a. induction l as [|c l IH]; intros a; simpl; [done|].
  case_decide; [intros [= <- <-]; by subst|].
  intros ([x y] & Hs & Heq)%bind_Some. simplify_eq/=. by rewrite (IH x).
Qed.

Lemma split_newline_app l a b m : split_newline l = Some (a, b) -> split_newline (l ++ m) = Some (a, b ++ m).
Proof.
  revert a. induction l as [|c l IH]; intros a; simpl; [done|].
  case_decide; [by intros [= <- <-]|].
  intros ([x y] & Hs & Heq)%bind_Some. simplify_eq/=. by rewrite (IH x).
Qed.

(** More fuel than newlines changes nothing. *)
Lemma decode_loop_fuel f f' o l acc :
  length l <= f -> length l <= f' -> decode_loop f o l acc = decode_loop f' o l acc.
Proof.
  revert f' o l acc. induction f as [|f IH]; intros [|f'] o l acc Hf Hf'; simpl;
    try (destruct l; simpl in *; [done|lia]).
  destruct (split_newline l) as [[a b]|] eqn:E; [|done].
  apply split_newline_length in E. destruct (decode_line a); simpl; [|done]. apply IH; lia.
Qed.

Lemma decode_loop_acc f o l acc :
  decode_loop f o l acc = '(d, o', r) ← decode_loop f o l []; Ok (acc ++ d, o', r).
Proof.
  revert o l acc. induction f as [|f IH]; intros o l acc; simpl; [by rewrite app_nil_r|].
  destruct (split_newline l) as [[a b]|]; [|simpl; by rewrite app_nil_r].
  destruct (decode_line a) as [c|]; simpl; [|done].
  rewrite IH. rewrite (IH _ _ [_]). destruct (decode_loop f _ b []) as [[[d o'] r]|]; simpl; [|done].
  by rewrite <- app_assoc.
Qed.

(** Decoding a buffer with more bytes appended resumes where it stopped. *)
Lemma decode_loop_app f o l m :
  length l <= f ->
  decode_loop (f + length m) o (l ++ m) [] =
  '(d1, o1, r1) ← decode_loop f o l [];
  '(d2, o2, r2) ← decode_loop (length (r1 ++ m)) o1 (r1 ++ m) [];
  Ok (d1 ++ d2, o2, r2).
Proof.
  revert o l. induction f as [|f IH]; intros o l Hl.
  - destruct l; simpl in *; [|lia]. by destruct (decode_loop (length m) o m []) as [[[? ?] ?]|].
  - destruct (split_newline l) as [[a b]|] eqn:E.
    + simpl. rewrite E, (split_newline_app _ _ _ _ E). apply split_newline_length in E.
      destruct (decode_line a) as [c|]; simpl; [|done].
      rewrite decode_loop_acc, IH by lia. rewrite (decode_loop_acc f _ b [_]).
      destruct (decode_loop f _ b []) as [[[d1 o1] r1]|]; simpl; [|done].
      by destruct (decode_loop _ o1 (r1 ++ m) []) as [[[d2 o2] r2]|].
    + rewrite (decode_loop_fuel _ (length (l ++ m))) by (rewrite length_app; lia).
      assert (decode_loop (S f) o l [] = Ok ([], o, l)) as -> by (simpl; by rewrite E). simpl.
      by destruct (decode_loop (length (l ++ m)) o (l ++ m) []) as [[[? ?] ?]|].
Qed.

(** Pushing two chunks is pushing their concatenation, errors included. *)
Lemma push_app d a b :
  push d (a ++ b) =
  '(d1, l1) ← push d a; '(d2, l2) ← push d1 b; Ok (d2, l1 ++ l2).
Proof.
  unfold push. rewrite app_assoc, length_app, decode_loop_app by done.
  destruct (decode_loop _ (next_offset d) (pending d ++ a) []) as [[[l1 o1] r1]|]; simpl; [|done].
  by destruct (decode_loop (length (r1 ++ b)) o1 (r1 ++ b) []) as [[[l2 o2] r2]|].
Qed.

(** The decoder's own account: what it decoded is the complete lines of the
    bytes it saw, offsets included, and the rest holds no newline. *)
Fixpoint decode_lines (offset : N) (ls : list bytes) : result WorkerError (list DecodedLine) :=
  match ls with
  | [] => Ok []
  | line :: ls' =>
      let stop := (offset + N.of_nat (length line) + 1)%N in
      change ← decode_line line;
      rest ← decode_lines stop ls';
      Ok ({| change := change; end_offset := stop |} :: rest)
  end.

Definition lines_bytes (ls : list bytes) : N := foldr (fun l n => (N.of_nat (length l) + 1 + n)%N) 0%N ls.

Lemma decode_loop_lines f o l : length l <= f ->
  decode_loop f o l [] =
  decoded ← decode_lines o (file_lines l); Ok (decoded, (o + lines_bytes (file_lines l))%N, file_tail l).
Proof.
  unfold file_lines, file_tail. intros Hf.
  rewrite (decode_loop_fuel f (length l)) by lia. clear Hf f.
  generalize (length l) as f. intros f. revert o l.
  induction f as [|f IH]; intros o l; simpl; [by rewrite N.add_0_r|].
  destruct (split_newline l) as [[a b]|] eqn:E; [|simpl; by rewrite N.add_0_r].
  specialize (IH (o + N.of_nat (length a) + 1)%N b).
  destruct (lines_fuel f b) as [ls tail]. simpl in *.
  destruct (decode_line a) as [c|]; simpl; [|done].
  rewrite decode_loop_acc, IH. destruct (decode_lines _ ls); simpl; [|done].
  do 3 f_equal. lia.
Qed.

Lemma push_lines d chunk :
  push d chunk =
  let buffer := pending d ++ chunk in
  decoded ← decode_lines (next_offset d) (file_lines buffer);
  Ok ({| pending := file_tail buffer;
         next_offset := next_offset d + lines_bytes (file_lines buffer) |}, decoded).
Proof.
  unfold push. rewrite decode_loop_lines by done. simpl.
  by destruct (decode_lines _ _) as [dl|].
Qed.

Lemma partition_for_lt `{PartitionHash} m p : (0 < p)%N -> (partition_for m p < p)%N.
Proof.
  intros Hp. unfold partition_for. rewrite N.max_l by lia. apply N.mod_lt. lia.
Qed.

(** Pushing a sequence of chunks, as the download loop does. *)
Fixpoint push_all (d : CompleteLineDecoder) (chunks : list bytes)
    : result WorkerError (CompleteLineDecoder * list DecodedLine) :=
  match chunks with
  | [] => Ok (d, [])
  | chunk :: chunks' =>
      '(d1, l1) ← push d chunk; '(d2, l2) ← push_all d1 chunks'; Ok (d2, l1 ++ l2)
  end.

Lemma lines_fuel_none l f : split_newline l = None -> lines_fuel f l = ([], l).
Proof. intros H. destruct f; simpl; by rewrite ?H. Qed.

Lemma file_tail_no_newline l : split_newline (file_tail l) = None.
Proof.
  unfold file_tail. remember (length l) as f eqn:Hf. assert (length l <= f) as Hl by lia. clear Hf.
  revert l Hl. induction f as [|f IH]; intros l Hl; simpl.
  - destruct l; simpl in *; [done|lia].
  - destruct (split_newline l) as [[a b]|] eqn:E; [|done].
    pose proof (split_newline_length _ _ _ E) as Hlen.
    destruct (lines_fuel f b) as [ls t] eqn:El. simpl. specialize (IH b ltac:(lia)).
    by rewrite El in IH.
Qed.

Lemma push_nil d : split_newline (pending d) = None -> push d [] = Ok (d, []).
Proof.
  intros Hp. rewrite push_lines. simpl. rewrite app_nil_r. unfold file_lines, file_tail.
  rewrite lines_fuel_none by done. simpl. rewrite N.add_0_r. by destruct d.
Qed.

Lemma push_all_concat d chunks :
  split_newline (pending d) = None -> push_all d chunks = push d (concat chunks).
Proof.
  revert d. induction chunks as [|c chunks IH]; intros d Hd; simpl; [by rewrite push_nil|].
  rewrite push_app. rewrite push_lines. simpl.
  destruct (decode_lines _ _) as [l1|]; simpl; [|done].
  rewrite IH by apply file_tail_no_newline. done.
Qed.

(** ** Properties *)

(** C40: how the network splits a file does not matter. Decoding any sequence of
    chunks gives the same records, offsets, buffered partial line and error as
    decoding their concatenation, and these are the complete lines of the
    concatenation read one by one: every record ends at the offset just after its
    newline, and the bytes after the last newline stay buffered. *)
Theorem decoder_chunking_invariant start chunks :
  push_all (decoder_new start) chunks =
  (decoded ← decode_lines start (file_lines (concat chunks));
   Ok ({| pending := file_tail (concat chunks);
          next_offset := start + lines_bytes (file_lines (concat chunks)) |}, decoded)).
Proof. rewrite push_all_concat by done. apply push_lines. Qed.

(** a change line is accepted exactly when it is [+] or [-] followed by a
    non-empty UTF-8 member, and it is decoded to that member. *)
Theorem parse_change_line_spec line c :
  parse_change_line line = Ok c <->
  exists m, line = (if add c then "+"%char else "-"%char) :: m /\ m <> [] /\
    utf8_valid m = true /\ member c = String.string_of_list_ascii m.
Proof.
  unfold parse_change_line, from_utf8. split.
  - destruct line as [|p m]; [done|]. intros H. exists m.
    repeat (case_decide || case_bool_decide || case_match); simplify_eq/=; try done;
      destruct (utf8_valid m); simplify_eq/=; done.
  - intros (m & -> & Hm & Hu & Hmem). destruct c as [[] mem]; simpl in *; subst.
    + by rewrite bool_decide_eq_false_2, Hu by done.
    + by rewrite bool_decide_eq_false_2, Hu by done.
Qed.
