(* ===== verification/Download.v ===== *)
(** * Download: ranged reads of an ID-list file

    Models [src/src/datastore/idlist_membership/worker/download.rs]. The URL type
    of the HTTP client is a parameter. A response body is the list of chunks the
    client yields, each bytes or a transport error. *)
From S2P Require Import Prelude Schema Effects WorkerCore Parser.

(** [reqwest::Url]: parsing, host, and the query as decoded pairs. *)
Class UrlLib := {
  Url : Type;
  url_parse : string -> option Url;
  host_str : Url -> option string;
  query_pairs : Url -> list (string * string);
  set_query_pairs : Url -> list (string * string) -> Url;
  url_str : Url -> string;
}.

Definition CDN_HOST : string := "api.statsigcdn.com".
Definition PARTIAL_CONTENT : N := 206.
Definition STATUS_OK : N := 200.
Definition is_success (status : N) : bool := bool_decide (200 <= status < 300)%N.

(** [headers().get(name).and_then(|value| value.to_str().ok())]: the first value
    with that name, if it is visible ASCII. Names are stored in lower case. *)
Definition visible_ascii (c : ascii) : bool :=
  bool_decide (32 <= nat_of_ascii c < 127) || bool_decide (nat_of_ascii c = 9).
Definition header_str (name : string) (headers : list (string * string)) : option string :=
  '(_, value) ← head (filter (fun h => h.1 = name) headers);
  if str_forall visible_ascii value then Some value else None.

Section Download.
Context `{UrlLib}.

Definition is_cdn (url : Url) : bool := bool_decide (host_str url = Some CDN_HOST).

Definition build_download_request (url range : string) (file_size : N)
    : result WorkerError http_request :=
  url ← ok_or (InvalidTask "invalid download URL") (url_parse url);
  let accept := ("accept-encoding", "identity") in
  if is_cdn url then
    let query := filter (fun nv => negb (eq_ignore_ascii_case nv.1 "range") = true) (query_pairs url) in
    let url := set_query_pairs url (query ++ [("range", range)]) in
    Ok {| req_url := url_str url; req_headers := [accept] |}
  else
    Ok {| req_url := url_str url;
          req_headers := [accept; ("range", "bytes=" +:+ range);
                          ("statsig-id-list-file-size", show_u64 file_size)] |}.

Definition DOWNLOAD_CHUNK_BYTES : N := 4 * 1024 * 1024.

Definition lift_result {A} (r : result WorkerError A) : prog WorkerError A :=
  match r with Ok a => Ret a | Err e => Throw e end.

(** [request.send().await?] *)
Definition send (q : http_request) : prog WorkerError http_response :=
  Http q (fun r => match r with Ok resp => Ret resp | Err e => Throw (WeHttp e) end).

Definition ensure (b : bool) (e : WorkerError) : prog WorkerError unit :=
  if b then Ret tt else Throw e.

Definition check_encoding (resp : http_response) : bool :=
  match header_str "content-encoding" (resp_headers resp) with
  | Some encoding => eq_ignore_ascii_case encoding "identity"
  | None => true
  end.
Definition encoded_bytes : WorkerError := InvalidFile "origin returned encoded bytes".
Definition unexpected_range : WorkerError := InvalidFile "unexpected Content-Range".

(** The validated Content-Range of a 206 answer to [start-end]: its length and
    the size of the whole file. *)
Definition parse_content_range (value : string) (start stop : N) : option (N * N) :=
  '(last, total) ←
    (value ← strip_prefix "bytes " value;
     '(range, total) ← split_once "/" value;
     '(_, last) ← split_once "-" range;
     last ← parse_u64 last;
     total ← parse_u64 total;
     Some (last, total));
  if content_range_starts_at value start && bool_decide (last < total)%N
     && bool_decide (start <= last)%N && bool_decide (last = N.min stop (total - 1))%N
  then Some ((last - start + 1)%N, total) else None.

(** The body loop: at most [limit] bytes are ever buffered. *)
Fixpoint collect_body (limit : N) (body : bytes) (stream : list (result http_error bytes))
    : result WorkerError bytes :=
  match stream with
  | [] => Ok body
  | Err e :: _ => Err (WeHttp e)
  | Ok chunk :: stream' =>
      if bool_decide (limit < N.of_nat (length body) + N.of_nat (length chunk))%N
      then Err RangeIgnored else collect_body limit (body ++ chunk) stream'
  end.

Definition download_chunk (url : string) (start stop file_size : N)
    : prog WorkerError (bytes * N) :=
  _ ← ensure (bool_decide (start <= stop)%N) (InvalidTask "invalid download range");
  q ← lift_result (build_download_request url (show_u64 start +:+ "-" +:+ show_u64 stop) file_size);
  resp ← send q;
  let status := resp_status resp in
  _ ← ensure (is_success status) (OriginStatus status);
  '(expected_len, total) ←
    (if bool_decide (status = PARTIAL_CONTENT) then
       let value := default "" (header_str "content-range" (resp_headers resp)) in
       match parse_content_range value start stop with
       | Some (len, total) => Ret (Some len, Some total)
       | None => Throw unexpected_range
       end
     else if bool_decide (status = STATUS_OK) && bool_decide (start = 0%N) then Ret (None, None)
     else Throw RangeIgnored);
  _ ← ensure (check_encoding resp) encoded_bytes;
  let limit := (stop - start + 1)%N in
  _ ← ensure (match resp_content_length resp with
              | Some len => bool_decide (len <= limit)%N | None => true end) RangeIgnored;
  body ← lift_result (collect_body limit [] (resp_body resp));
  let len := N.of_nat (length body) in
  _ ← ensure (match expected_len with Some l => bool_decide (l = len) | None => true end)
        (InvalidFile "truncated download chunk");
  Ret (body, default len total).

(** The stream [download_file] returns: the body of one response, or the
    state of the [try_unfold] of [chunked_stream]. *)
Inductive byte_stream :=
| Direct (body : list (result http_error bytes))
| Chunked (url : string) (offset file_size chunk_bytes : N) (snapshot_size : option N).

Definition download_file (url : string) (start file_size : N) : prog WorkerError byte_stream :=
  q ← lift_result (build_download_request url (show_u64 start +:+ "-") file_size);
  if bool_decide ((url_parse url ≫= host_str) = Some CDN_HOST) then
    Ret (Chunked url start file_size DOWNLOAD_CHUNK_BYTES None)
  else
    resp ← send q;
    let status := resp_status resp in
    _ ← ensure (is_success status) (OriginStatus status);
    _ ← ensure (bool_decide (start = 0%N) || bool_decide (status = PARTIAL_CONTENT)) RangeIgnored;
    _ ← ensure (bool_decide (start = 0%N) ||
                match header_str "content-range" (resp_headers resp) with
                | Some value => content_range_starts_at value start
                | None => false
                end) unexpected_range;
    _ ← ensure (check_encoding resp) encoded_bytes;
    Ret (Direct (resp_body resp)).

(** [stream.next().await] *)
Definition stream_next (s : byte_stream)
    : prog WorkerError (option (result WorkerError bytes * byte_stream)) :=
  match s with
  | Direct [] => Ret None
  | Direct (chunk :: body) => Ret (Some (map_err WeHttp chunk, Direct body))
  | Chunked url offset file_size chunk_bytes snapshot_size =>
      if match snapshot_size with Some total => bool_decide (total <= offset)%N | None => false end
      then Ret None
      else
        let stop := N.min (sat_add offset (chunk_bytes - 1))
                          (sat_sub (default u64_max snapshot_size) 1) in
        r ← attempt (download_chunk url offset stop file_size);
        match r with
        | Ok (chunk, total) =>
            let next := (offset + N.of_nat (length chunk))%N in
            Ret (Some (Ok chunk, Chunked url next file_size chunk_bytes
                                   (Some (default total snapshot_size))))
        | Err e => Ret (Some (Err e, Direct []))
        end
  end.
End Download.

(** ** An origin that serves one append-only file

    [F] is the file; while it grows, answers describe prefixes of it. *)

Fixpoint ok_prefix (stream : list (result http_error bytes)) : bytes :=
  match stream with
  | Ok chunk :: stream' => chunk ++ ok_prefix stream'
  | _ => []
  end.

(** The bytes of an accepted answer to a range starting at [start] are the bytes
    of the file from [start] on; an answer for another range says so in its
    Content-Range. *)
Definition answer_ok (F : bytes) (start : N) (resp : http_response) : Prop :=
  (start = 0%N \/
   (resp_status resp = PARTIAL_CONTENT /\
    exists value, header_str "content-range" (resp_headers resp) = Some value /\
      content_range_starts_at value start = true)) ->
  ok_prefix (resp_body resp) `prefix_of` drop (N.to_nat start) F.

Definition range_of (start : N) (stop : option N) : string :=
  show_u64 start +:+ "-" +:+ match stop with Some e => show_u64 e | None => "" end.

Definition origin_serves `{UrlLib} (url : string) (F : bytes) (q : http_request)
    (r : result http_error http_response) : Prop :=
  forall start stop file_size resp,
    build_download_request url (range_of start stop) file_size = Ok q ->
    r = Ok resp -> answer_ok F start resp.

(** ** Lemmas *)

Section DownloadLemmas.
Context `{UrlLib} `{ScanOrder} (env : environment) (url : string) (F : bytes).
Context (Horigin : forall q r, http_ok env q r -> origin_serves url F q r).

(** The position of a stream in the file, and the rounds it has left. *)
Definition stream_at (off : N) (s : byte_stream) : Prop :=
  match s with
  | Direct body => ok_prefix body `prefix_of` drop (N.to_nat off) F
  | Chunked url' offset _ chunk_bytes snapshot =>
      url' = url /\ offset = off /\ (0 < chunk_bytes)%N /\
      (forall total, snapshot = Some total -> total = 0%N \/ (0 < off)%N)
  end.

Definition rounds_left (off : N) (s : byte_stream) : nat :=
  match s with
  | Direct body => length body
  | Chunked _ _ _ _ snapshot =>
      (length F - N.to_nat off) + match snapshot with None => 1 | Some _ => 0 end
  end.

Lemma wp_ret_bind {E A B} (a : A) (f : A -> prog E B) Q ks :
  wp env (f a) Q ks -> wp env (Ret a ≫= f) Q ks.
Proof. done. Qed.

Lemma wp_lift_result {A} (r : result WorkerError A) Q ks :
  (forall a, r = Ok a -> Q (Returned a) ks) -> (forall e, r = Err e -> Q (Failed e) ks) ->
  wp env (lift_result r) Q ks.
Proof. destruct r; simpl; auto. Qed.

Lemma wp_ensure b e Q ks :
  (b = true -> Q (Returned tt) ks) -> (b = false -> Q (Failed e) ks) -> wp env (ensure b e) Q ks.
Proof. destruct b; simpl; auto. Qed.

Lemma collect_body_prefix limit body stream out :
  collect_body limit body stream = Ok out -> out = body ++ ok_prefix stream.
Proof.
  revert body. induction stream as [|[chunk|e] stream IH]; intros body; simpl.
  - intros [= <-]. by rewrite app_nil_r.
  - case_bool_decide; [done|]. intros ->%IH. by rewrite app_assoc.
  - done.
Qed.

Lemma parse_content_range_starts value start stop len total :
  parse_content_range value start stop = Some (len, total) ->
  content_range_starts_at value start = true /\ (0 < len)%N.
Proof.
  unfold parse_content_range. intros ([last t] & _ & Hif)%bind_Some.
  destruct (_ && _) eqn:E; [|done]. simplify_eq. boolify. split; [done|lia].
Qed.

(** A chunk holds the bytes of the file at its offset; one of a 206 is not empty. *)
Lemma wp_download_chunk start stop file_size ks :
  wp env (download_chunk url start stop file_size) (fun out ks' => ks' = ks /\
    match out with
    | Returned (b, total) =>
        b `prefix_of` drop (N.to_nat start) F /\ (b = [] -> total = 0%N /\ start = 0%N)
    | Failed _ => True
    | NoFuel => False
    end) ks.
Proof.
  unfold download_chunk.
  apply wp_bind, wp_ensure; intros _; [|done].
  apply wp_bind, wp_lift_result; [|done]. intros q Hq.
  apply wp_bind. intros r Hr. specialize (Horigin _ _ Hr).
  destruct r as [resp|]; [|done]. simpl.
  specialize (Horigin start (Some stop) file_size resp Hq eq_refl).
  apply wp_bind, wp_ensure; intros _; [|done].
  apply wp_bind. destruct (bool_decide (resp_status resp = PARTIAL_CONTENT)) eqn:Hs.
  - apply bool_decide_eq_true in Hs.
    destruct (parse_content_range _ start stop) as [[len total]|] eqn:Hp; [|done]. simpl.
    apply parse_content_range_starts in Hp as [Hstart Hlen].
    assert (ok_prefix (resp_body resp) `prefix_of` drop (N.to_nat start) F) as Hpre.
    { apply Horigin. right. split; [done|].
      destruct (header_str "content-range" (resp_headers resp)) as [v|]; [by exists v|].
      by vm_compute in Hstart. }
    apply wp_bind, wp_ensure; intros _; [|done]. apply wp_bind, wp_ensure; intros _; [|done].
    apply wp_bind, wp_lift_result; [|done]. intros body ->%collect_body_prefix. simpl.
    apply wp_bind, wp_ensure; intros Hl; [|done]. apply bool_decide_eq_true in Hl.
    split; [done|]. split; [done|]. intros Hb. rewrite Hb in Hl. simpl in Hl. lia.
  - destruct (bool_decide (resp_status resp = STATUS_OK)); simpl; [|done].
    destruct (decide (start = 0%N)) as [Hz|Hz];
      [rewrite bool_decide_eq_true_2 by done|by rewrite bool_decide_eq_false_2]. simpl.
    apply wp_bind, wp_ensure; intros _; [|done]. apply wp_bind, wp_ensure; intros _; [|done].
    apply wp_bind, wp_lift_result; [|done]. intros body ->%collect_body_prefix. simpl.
    split; [done|]. split; [apply Horigin; by left|]. intros Hb. by rewrite Hb.
Qed.

Lemma wp_download_file start file_size ks :
  wp env (download_file url start file_size) (fun out ks' => ks' = ks /\
    match out with
    | Returned s => stream_at start s
    | Failed _ => True
    | NoFuel => False
    end) ks.
Proof.
  unfold download_file. apply wp_bind, wp_lift_result; [|done]. intros q Hq.
  case_bool_decide; [done|].
  apply wp_bind. intros r Hr. specialize (Horigin _ _ Hr).
  destruct r as [resp|]; [|done]. simpl.
  specialize (Horigin start None file_size resp Hq eq_refl).
  apply wp_bind, wp_ensure; intros _; [|done].
  apply wp_bind, wp_ensure; intros Hb1; [|done].
  apply wp_bind, wp_ensure; intros Hb2; [|done].
  apply wp_bind, wp_ensure; intros _; [|done]. simpl. split; [done|]. apply Horigin.
  apply orb_true_iff in Hb1 as [Hb1|Hb1]; apply bool_decide_eq_true in Hb1; [by left|].
  apply orb_true_iff in Hb2 as [Hb2|Hb2]; [apply bool_decide_eq_true in Hb2; by left|].
  right. split; [done|]. destruct (header_str _ _) as [v|]; [by exists v|done].
Qed.

Lemma drop_prefix_shift (b : bytes) n :
  b `prefix_of` drop n F -> length b <= length F - n.
Proof. intros Hp%prefix_length. by rewrite length_drop in Hp. Qed.

(** The next chunk continues at the stream's position. *)
Lemma wp_stream_next off s ks :
  stream_at off s ->
  wp env (stream_next s) (fun out ks' => ks' = ks /\
    match out with
    | Returned (Some (Ok b, s')) =>
        b `prefix_of` drop (N.to_nat off) F /\
        stream_at (off + N.of_nat (length b)) s' /\
        rounds_left (off + N.of_nat (length b)) s' < rounds_left off s
    | Returned _ => True
    | _ => False
    end) ks.
Proof.
  intros Hat. destruct s as [[|chunk body]|url' offset file_size chunk_bytes snapshot]; simpl in *.
  - done.
  - destruct chunk as [b|e]; simpl in *; [|done]. split; [done|]. split_and!.
    + etrans; [|exact Hat]. by apply prefix_app_r.
    + rewrite N2Nat.inj_add, Nat2N.id, <- drop_drop. destruct Hat as [k Hk].
      rewrite <- app_assoc in Hk. rewrite Hk, drop_app_length. by exists k.
    + lia.
  - destruct Hat as (-> & -> & Hcb & Hsnap).
    destruct (match snapshot with Some total => bool_decide (total ≤ off)%N | None => false end) eqn:Hend;
      [done|].
    apply wp_bind, wp_attempt. eapply wp_mono; [apply wp_download_chunk|].
    intros [[b total]|e|] ks' [-> Hb]; [|done..]. simpl. destruct Hb as [Hpre Hempty].
    split; [done|]. pose proof (drop_prefix_shift _ _ Hpre) as Hlen. split; [done|].
    rewrite N2Nat.inj_add, Nat2N.id. destruct b as [|c b]; simpl in *.
    + destruct (Hempty eq_refl) as [-> ->]. split_and!; [done|lia|done| |].
      * intros total. destruct snapshot as [t|]; simpl; [|intros [= <-]; by left].
        intros [= <-]. by apply Hsnap.
      * destruct snapshot as [t|]; [|lia]. exfalso.
        apply bool_decide_eq_false in Hend. destruct (Hsnap t eq_refl); lia.
    + split_and!; [done|lia|done| |destruct snapshot; lia].
      intros t Ht. right. lia.
Qed.
End DownloadLemmas.

(** ** A concrete URL library and origin

    URLs are their text and no host is the CDN: the header path. *)
Definition string_urls : UrlLib := {|
  Url := string;
  url_parse := Some;
  host_str := fun _ => None;
  query_pairs := fun _ => [];
  set_query_pairs := fun url _ => url;
  url_str := fun url => url;
|}.

(** The origin of a file with the records [ls], asked for the range from [start]. *)
Definition records (ls : list string) : bytes :=
  concat ((fun l => String.list_ascii_of_string l ++ [NL]) <$> ls).
Definition range_answer (F : bytes) (start : N) : http_response := {|
  resp_status := PARTIAL_CONTENT;
  resp_headers := [("content-range", "bytes " +:+ show_u64 start +:+ "-"
    +:+ show_u64 (N.of_nat (length F) - 1) +:+ "/" +:+ show_u64 (N.of_nat (length F)))];
  resp_content_length := None;
  resp_body := [Ok (take 4 (drop (N.to_nat start) F)); Ok (drop 4 (drop (N.to_nat start) F))];
|}.
Definition range_origin (url : string) (F : bytes) (start file_size : N) (q : http_request)
    : result http_error http_response :=
  if decide (req_url q = url /\ req_headers q =
      [("accept-encoding", "identity"); ("range", "bytes=" +:+ show_u64 start +:+ "-");
       ("statsig-id-list-file-size", show_u64 file_size)])
  then Ok (range_answer F start) else Err HttpError.
