(* ===== verification/ListView.v ===== *)
(** * ListView: what Redis holds for one list

    The worker that has claimed a list owns four things: the list's state hash,
    the forward sets of its versions, its token inside the member sets, and its name
    in the dictionary. This
    file states the view of them ([shows]), how each command changes it, and the
    proof rules the worker's components share. Other clients may do anything that
    leaves this view alone: that is the worker's rely condition, and
    [view_isolated] shows that a worker on another list meets it. *)
From S2P Require Import Prelude Schema Effects Dict.

(** [v_rev id] says that the list's token is in the member set of [id]; [v_tok]
    is the token the company's dictionary has for the list. *)
Record lview := {
  v_state : gmap string string;
  v_fwd : string -> gset string;
  v_rev : string -> Prop;
  v_tok : option string;
}.

Definition set_state (f : gmap string string -> gmap string string) (v : lview) : lview :=
  {| v_state := f (v_state v); v_fwd := v_fwd v; v_rev := v_rev v; v_tok := v_tok v |}.
Definition set_fwd (ver : string) (f : gset string -> gset string) (v : lview) : lview :=
  {| v_state := v_state v;
     v_fwd := fun u => if decide (u = ver) then f (v_fwd v u) else v_fwd v u;
     v_rev := v_rev v; v_tok := v_tok v |}.
Definition set_rev (id : string) (b : bool) (v : lview) : lview :=
  {| v_state := v_state v; v_fwd := v_fwd v;
     v_rev := fun i => if decide (i = id) then b = true else v_rev v i;
     v_tok := v_tok v |}.
Definition set_tok (t : option string) (v : lview) : lview :=
  {| v_state := v_state v; v_fwd := v_fwd v; v_rev := v_rev v; v_tok := t |}.

(** Pointwise equality of views. *)
Definition view_eq (v w : lview) : Prop :=
  v_state v = v_state w /\ (forall ver, v_fwd v ver = v_fwd w ver) /\
  (forall id, v_rev v id <-> v_rev w id) /\ v_tok v = v_tok w.

#[export] Instance view_equiv : Equiv lview := view_eq.
#[export] Instance view_equivalence : Equivalence (≡@{lview}).
Proof.
  split.
  - by intros v.
  - intros v w (Hs & Hf & Hr & Ht). split_and!; [done|done| |done]. intros id. by rewrite Hr.
  - intros u v w (Hs & Hf & Hr & Ht) (Hs' & Hf' & Hr' & Ht').
    split_and!; [congruence|congruence| |congruence]. intros id. by rewrite Hr.
Qed.
#[export] Instance set_state_proper f : Proper ((≡) ==> (≡)) (set_state f).
Proof. intros v w (Hs & Hf & Hr & Ht). split_and!; simpl; [by rewrite Hs|done..]. Qed.
#[export] Instance set_fwd_proper ver f : Proper ((≡) ==> (≡)) (set_fwd ver f).
Proof.
  intros v w (Hs & Hf & Hr & Ht). split_and!; simpl; [done| |done..]. intros u. by rewrite !Hf.
Qed.
#[export] Instance set_rev_proper id b : Proper ((≡) ==> (≡)) (set_rev id b).
Proof.
  intros v w (Hs & Hf & Hr & Ht). split_and!; simpl; [done|done| |done]. intros u. by case_decide.
Qed.

(** [partial fs v w]: each update of [fs] in order, applied or lost. *)
Inductive partial : list (lview -> lview) -> lview -> lview -> Prop :=
| partial_nil v w : v ≡ w -> partial [] v w
| partial_done f fs v w : partial fs (f v) w -> partial (f :: fs) v w
| partial_lost f fs v w : partial fs v w -> partial (f :: fs) v w.

Definition apply_all (fs : list (lview -> lview)) (v : lview) : lview := foldl (fun v f => f v) v fs.

Lemma foldl_delete_lookup (fs : list string) (h : gmap string string) k :
  foldl (fun h f => delete f h) h fs !! k = if decide (k ∈ fs) then None else h !! k.
Proof.
  revert h. induction fs as [|f fs IH]; intros h; [done|]. simpl.
  rewrite IH. destruct (decide (k ∈ fs)) as [Hk|Hk]; [by rewrite decide_True by set_solver|].
  destruct (decide (f = k)) as [->|Hne].
  - by rewrite lookup_delete_eq, decide_True by set_solver.
  - by rewrite lookup_delete_ne, decide_False by set_solver.
Qed.

(** A key holds exactly the set [S]; the empty set is no key. *)
Definition val_at (ks : keyspace) (k : string) : option rval := val <$> ks !! k.
Definition set_is (ks : keyspace) (k : string) (S : gset string) : Prop :=
  val_at ks k = if decide (S = ∅) then None else Some (VSet S).

Lemma set_is_at ks k S : set_is ks k S -> as_set ks k = Some S.
Proof.
  unfold set_is, val_at, as_set. case_decide; destruct (ks !! k); simpl; intros; simplify_eq; try done.
  by destruct (val e) eqn:E; simplify_eq.
Qed.
Lemma set_is_ext ks ks' k S : ks !! k = ks' !! k -> set_is ks k S -> set_is ks' k S.
Proof. unfold set_is, val_at. by intros ->. Qed.
Lemma set_is_put ks k S : set_is (put_set k S ks) k S.
Proof.
  unfold set_is, val_at, put_set, put. case_decide; [by rewrite lookup_delete_eq|by rewrite lookup_insert_eq].
Qed.
Lemma set_is_exists ks k S : set_is ks k S -> bool_decide (is_Some (ks !! k)) = negb (bool_decide (S = ∅)).
Proof.
  unfold set_is, val_at. destruct (ks !! k); simpl; case_decide; intros; simplify_eq.
  - rewrite bool_decide_eq_false_2; done.
  - rewrite bool_decide_eq_true_2; done.
Qed.
Lemma val_at_persist k k' ks : val_at (persist k ks) k' = val_at ks k'.
Proof.
  unfold val_at, persist. destruct (ks !! k) as [e|] eqn:E; [|done].
  destruct (decide (k = k')) as [->|Hne]; [by rewrite lookup_insert_eq, E|by rewrite lookup_insert_ne].
Qed.
Lemma val_at_expire k k' t ks : (0 < t)%Z -> val_at (expire k t ks) k' = val_at ks k'.
Proof.
  intros Ht. unfold val_at, expire. destruct (ks !! k) as [e|] eqn:E; [|done].
  rewrite bool_decide_eq_true_2 by done.
  destruct (decide (k = k')) as [->|Hne]; [by rewrite lookup_insert_eq, E|by rewrite lookup_insert_ne].
Qed.
Lemma set_at_val ks ks' k : val_at ks' k = val_at ks k -> set_at ks' k = set_at ks k.
Proof.
  unfold val_at, set_at, as_set. destruct (ks !! k), (ks' !! k); simpl; intros; by simplify_eq/=; rewrite ?H.
Qed.
Lemma hash_at_val ks ks' k : val_at ks' k = val_at ks k -> hash_at ks' k = hash_at ks k.
Proof.
  unfold val_at, hash_at, as_hash. destruct (ks !! k), (ks' !! k); simpl; intros; by simplify_eq/=; rewrite ?H.
Qed.

Section View.
Context `{ScanOrder} (self : IdListKeySchema) (skh list : string) (tok : N).

Definition skey : string := state_key self skh list.
Definition fkey (ver : string) : string := fwd_key self skh list ver.
Definition mkey (id : string) : string := member_key self skh id.
Definition dkey : string := dict_key self skh.

Definition shows (ks : keyspace) (v : lview) : Prop :=
  hash_at ks skey = v_state v /\
  (forall ver, set_is ks (fkey ver) (v_fwd v ver)) /\
  (forall id, show_u64 tok ∈ set_at ks (mkey id) <-> v_rev v id) /\
  hash_at ks dkey !! name_field list = v_tok v.

#[export] Instance shows_proper ks : Proper ((≡) ==> iff) (shows ks).
Proof.
  intros v w (Hs & Hf & Hr & Ht). unfold shows. rewrite Hs, Ht. setoid_rewrite Hf. by setoid_rewrite Hr.
Qed.

Definition owned (k : string) : Prop :=
  k = skey \/ k = dkey \/ (exists ver, k = fkey ver) \/ (exists id, k = mkey id).

(** What other clients may do while the list is claimed. *)
Definition same_view (ks ks' : keyspace) : Prop := forall v, shows ks v -> shows ks' v.

Lemma shows_frame ks ks' v :
  (forall k, owned k -> ks' !! k = ks !! k) -> shows ks v -> shows ks' v.
Proof.
  intros Hk (Hs & Hf & Hr & Ht). split_and!.
  - rewrite <- Hs. apply hash_at_ext, Hk. by left.
  - intros ver. eapply set_is_ext; [symmetry; apply Hk; do 2 right; left; by exists ver|apply Hf].
  - intros id. rewrite <- Hr. erewrite set_at_ext; [done|]. apply Hk. do 3 right. by exists id.
  - rewrite <- Ht. erewrite hash_at_ext; [done|]. apply Hk. by right; left.
Qed.

Lemma contract_shows {R} (c : cmd R) ks r ks' v :
  contract c ks r ks' -> (forall k, k ∈ cmd_keys c -> ~ owned k) -> shows ks v -> shows ks' v.
Proof.
  intros Hc Ho. apply shows_frame. intros k Hk. eapply contract_frame; [done|].
  intros Hin. by apply (Ho k).
Qed.

Context (Hns : namespace_ok skh).

Lemma keys_differ k k' : key_namespace_ok k -> key_namespace_ok k' -> k <> k' ->
  render_key self k <> render_key self k'.
Proof. intros Hk Hk' Hne Heq. by apply render_key_inj_id in Heq. Qed.

Lemma not_owned k : key_namespace_ok k ->
  match k with
  | KState s l => s <> skh \/ l <> list
  | KFwd s l _ => s <> skh \/ l <> list
  | KMember s _ => s <> skh
  | KDict s => s <> skh
  | _ => True
  end -> ~ owned (render_key self k).
Proof.
  intros Hk Hne [Heq|[Heq|[[ver Heq]|[id Heq]]]].
  - apply (render_key_inj_id self k (KState skh list)) in Heq; [|done..]. subst. naive_solver.
  - apply (render_key_inj_id self k (KDict skh)) in Heq; [|done..]. by subst.
  - apply (render_key_inj_id self k (KFwd skh list ver)) in Heq; [|done..]. subst. naive_solver.
  - apply (render_key_inj_id self k (KMember skh id)) in Heq; [|done..]. subst. naive_solver.
Qed.

Lemma skey_fkey ver : skey <> fkey ver.
Proof. by apply (keys_differ (KState skh list) (KFwd skh list ver)). Qed.
Lemma skey_mkey id : skey <> mkey id.
Proof. by apply (keys_differ (KState skh list) (KMember skh id)). Qed.
Lemma fkey_mkey ver id : fkey ver <> mkey id.
Proof. by apply (keys_differ (KFwd skh list ver) (KMember skh id)). Qed.
Lemma dkey_skey : dkey <> skey.
Proof. by apply (keys_differ (KDict skh) (KState skh list)). Qed.
Lemma dkey_fkey ver : dkey <> fkey ver.
Proof. by apply (keys_differ (KDict skh) (KFwd skh list ver)). Qed.
Lemma dkey_mkey id : dkey <> mkey id.
Proof. by apply (keys_differ (KDict skh) (KMember skh id)). Qed.
Lemma fkey_inj v w : fkey v = fkey w -> v = w.
Proof. intros Heq. apply (render_key_inj_id self (KFwd skh list v) (KFwd skh list w)) in Heq; [congruence|done..]. Qed.
Lemma mkey_inj v w : mkey v = mkey w -> v = w.
Proof. intros Heq. apply (render_key_inj_id self (KMember skh v) (KMember skh w)) in Heq; [congruence|done..]. Qed.

(** ** Writes *)

(** [w] fails without effect or changes the view by [f]. *)
Definition acts (w : wcmd) (f : lview -> lview) : Prop :=
  forall ks v, shows ks v ->
    ((exists e, (exec_w w ks).1 = Err e) /\ (exec_w w ks).2 = ks) \/
    ((exists n, (exec_w w ks).1 = Ok n) /\ shows (exec_w w ks).2 (f v)).

(** Writes that replace the set at a forward key. *)
Lemma shows_put_fwd ks v ver S :
  shows ks v -> shows (put_set (fkey ver) S ks) (set_fwd ver (fun _ => S) v).
Proof.
  intros (Hs & Hf & Hr & Ht). split_and!; simpl.
  - rewrite <- Hs. apply hash_at_ext, put_set_ne. intros e. by apply (skey_fkey ver).
  - intros u. case_decide as Hu; subst; [apply set_is_put|].
    eapply set_is_ext; [symmetry; apply put_set_ne; by intros ->%fkey_inj|apply Hf].
  - intros id. rewrite <- Hr. erewrite set_at_ext; [done|]. apply put_set_ne, fkey_mkey.
  - rewrite <- Ht. erewrite hash_at_ext; [done|]. apply put_set_ne. intros e. by apply (dkey_fkey ver).
Qed.

(** Writes that change the set at a member key, the token apart or not. *)
Lemma shows_put_member ks v id S b :
  shows ks v -> (show_u64 tok ∈ S <-> b = true) ->
  shows (put_set (mkey id) S ks) (set_rev id b v).
Proof.
  intros (Hs & Hf & Hr & Ht) HS. split_and!; simpl.
  - rewrite <- Hs. apply hash_at_ext, put_set_ne. intros e. by apply (skey_mkey id).
  - intros u. eapply set_is_ext; [symmetry; apply put_set_ne; intros e; by apply (fkey_mkey u id)|apply Hf].
  - intros i. case_decide as Hi; subst; [by rewrite set_at_put|].
    rewrite <- Hr. erewrite set_at_ext; [done|]. apply put_set_ne. intros ->%mkey_inj. done.
  - rewrite <- Ht. erewrite hash_at_ext; [done|]. apply put_set_ne. intros e. by apply (dkey_mkey id).
Qed.

Lemma shows_put_state ks v h :
  shows ks v -> shows (put_hash skey h ks) (set_state (fun _ => h) v).
Proof.
  intros (Hs & Hf & Hr & Ht). split_and!; simpl.
  - apply hash_at_put.
  - intros u. eapply set_is_ext; [symmetry; apply put_hash_ne, skey_fkey|apply Hf].
  - intros i. rewrite <- Hr. erewrite set_at_ext; [done|]. apply put_hash_ne, skey_mkey.
  - rewrite <- Ht. erewrite hash_at_ext; [done|]. apply put_hash_ne. intros e. by apply dkey_skey.
Qed.

Lemma as_set_at ks k s : as_set ks k = Some s -> set_at ks k = s.
Proof. unfold set_at. by intros ->. Qed.
Lemma as_hash_at ks k s : as_hash ks k = Some s -> hash_at ks k = s.
Proof. unfold hash_at. by intros ->. Qed.

Lemma acts_sadd_fwd ver x : acts (SADD (fkey ver) x) (set_fwd ver ({[x]} ∪.)).
Proof.
  intros ks v Hv. simpl. destruct (as_set ks (fkey ver)) as [s|] eqn:E; [right|left; eauto].
  simpl. split; [by eexists|]. pose proof Hv as (_ & Hf & _).
  rewrite (shows_proper _ _ (set_fwd ver (fun _ => {[x]} ∪ s) v)); [by apply shows_put_fwd|].
  split_and!; simpl; [done| |done..]. intros u. case_decide; [subst|done].
  specialize (Hf ver). apply set_is_at in Hf. congruence.
Qed.

Lemma acts_srem_fwd ver x : acts (SREM (fkey ver) x) (set_fwd ver (.∖ {[x]})).
Proof.
  intros ks v Hv. simpl. destruct (as_set ks (fkey ver)) as [s|] eqn:E; [right|left; eauto].
  simpl. split; [by eexists|]. pose proof Hv as (_ & Hf & _).
  rewrite (shows_proper _ _ (set_fwd ver (fun _ => s ∖ {[x]}) v)); [by apply shows_put_fwd|].
  split_and!; simpl; [done| |done..]. intros u. case_decide; [subst|done].
  specialize (Hf ver). apply set_is_at in Hf. congruence.
Qed.

Lemma acts_sadd_member id : acts (SADD (mkey id) (show_u64 tok)) (set_rev id true).
Proof.
  intros ks v Hv. simpl. destruct (as_set ks (mkey id)) as [s|] eqn:E; [right|left; eauto].
  split; [by eexists|]. apply shows_put_member; [done|]. set_solver.
Qed.

Lemma acts_srem_member id : acts (SREM (mkey id) (show_u64 tok)) (set_rev id false).
Proof.
  intros ks v Hv. simpl. destruct (as_set ks (mkey id)) as [s|] eqn:E; [right|left; eauto].
  split; [by eexists|]. apply shows_put_member; [done|]. set_solver.
Qed.

Definition hset_fields (fvs : Datatypes.list (string * string)) (h : gmap string string) :=
  foldl (fun h fv => <[fv.1 := fv.2]> h) h fvs.
Definition hdel_fields (fs : Datatypes.list string) (h : gmap string string) :=
  foldl (fun h f => delete f h) h fs.

Lemma acts_hset fvs : acts (HSET skey fvs) (set_state (hset_fields fvs)).
Proof.
  intros ks v Hv. simpl. destruct (as_hash ks skey) as [h|] eqn:E; [right|left; eauto].
  simpl. split; [by eexists|]. pose proof Hv as (Hs & _ & _).
  rewrite (as_hash_at _ _ _ E) in Hs. subst. by apply (shows_put_state _ v).
Qed.

Lemma acts_hdel fs : acts (HDEL skey fs) (set_state (hdel_fields fs)).
Proof.
  intros ks v Hv. simpl. destruct (as_hash ks skey) as [h|] eqn:E; [right|left; eauto].
  simpl. split; [by eexists|]. pose proof Hv as (Hs & _ & _).
  rewrite (as_hash_at _ _ _ E) in Hs. subst. by apply (shows_put_state _ v).
Qed.

Lemma shows_del_fwd ks v ver : shows ks v -> shows (delete (fkey ver) ks) (set_fwd ver (fun _ => ∅) v).
Proof.
  intros Hv. replace (delete (fkey ver) ks) with (put_set (fkey ver) ∅ ks).
  - by apply shows_put_fwd.
  - unfold put_set. by rewrite decide_True.
Qed.

Lemma acts_del_fwd ver : acts (DEL (fkey ver)) (set_fwd ver (fun _ => ∅)).
Proof. intros ks v Hv. right. split; [by eexists|]. by apply shows_del_fwd. Qed.

Lemma acts_del_state : acts (DEL skey) (set_state (fun _ => ∅)).
Proof.
  intros ks v Hv. right. split; [by eexists|]. simpl.
  replace (delete skey ks) with (put_hash skey ∅ ks); [by apply shows_put_state|].
  unfold put_hash. by rewrite decide_True.
Qed.

Lemma shows_same_values ks ks' v : (forall k, val_at ks' k = val_at ks k) -> shows ks v -> shows ks' v.
Proof.
  intros Hval (Hs & Hf & Hr & Ht). split_and!.
  - by rewrite (hash_at_val ks ks').
  - intros ver. unfold set_is. rewrite Hval. apply Hf.
  - intros id. by rewrite (set_at_val ks ks').
  - by rewrite (hash_at_val ks ks').
Qed.

Lemma acts_persist k : acts (PERSIST k) id.
Proof.
  intros ks v Hv. right. split; [by eexists|]. simpl.
  eapply shows_same_values; [intros; apply val_at_persist|done].
Qed.

Lemma acts_expire k t : (0 < t)%Z -> acts (EXPIRE k t) id.
Proof.
  intros Ht ks v Hv. right. split; [by eexists|]. simpl.
  eapply shows_same_values; [intros; by apply val_at_expire|done].
Qed.

(** EXPIRE on a forward set either keeps it or, without a future deadline, deletes it. *)
Lemma acts_expire_fwd ver t :
  acts (EXPIRE (fkey ver) t) (if bool_decide (0 < t)%Z then id else set_fwd ver (fun _ => ∅)).
Proof.
  case_bool_decide; [by apply acts_expire|]. intros ks v Hv. right. split; [by eexists|]. simpl.
  unfold expire. destruct (ks !! fkey ver) as [e|] eqn:E.
  - rewrite bool_decide_eq_false_2 by done. by apply shows_del_fwd.
  - rewrite <- (delete_id ks (fkey ver)) by done. by apply shows_del_fwd.
Qed.

(** Writes to the dictionary: markers leave the name alone, removal deletes it. *)
Lemma shows_put_dict ks v h :
  shows ks v -> shows (put_hash dkey h ks) (set_tok (h !! name_field list) v).
Proof.
  intros (Hs & Hf & Hr & Ht). split_and!; simpl.
  - rewrite <- Hs. apply hash_at_ext, put_hash_ne, dkey_skey.
  - intros u. eapply set_is_ext; [symmetry; apply put_hash_ne, dkey_fkey|apply Hf].
  - intros i. rewrite <- Hr. erewrite set_at_ext; [done|]. apply put_hash_ne, dkey_mkey.
  - by rewrite hash_at_put.
Qed.

Lemma acts_hset_dict f x : f <> name_field list -> acts (HSET dkey [(f, x)]) id.
Proof.
  intros Hne ks v Hv. simpl. destruct (as_hash ks dkey) as [h|] eqn:E; [right|left; eauto].
  simpl. split; [by eexists|]. pose proof Hv as (_ & _ & _ & Ht).
  rewrite (as_hash_at _ _ _ E) in Ht. apply (shows_put_dict _ _ (<[f:=x]> h)) in Hv.
  rewrite lookup_insert_ne, Ht in Hv by done. by destruct v.
Qed.

Lemma acts_hdel_dict fs :
  acts (HDEL dkey fs) (if decide (name_field list ∈ fs) then set_tok None else id).
Proof.
  intros ks v Hv. simpl. destruct (as_hash ks dkey) as [h|] eqn:E; [right|left; eauto].
  simpl. split; [by eexists|]. pose proof Hv as (_ & _ & _ & Ht).
  rewrite (as_hash_at _ _ _ E) in Ht. apply (shows_put_dict _ _ (foldl (fun h f => delete f h) h fs)) in Hv.
  rewrite foldl_delete_lookup in Hv. case_decide; [done|]. rewrite Ht in Hv. by destruct v.
Qed.

(** Writes to keys outside the view. *)
Lemma acts_foreign w : ~ owned (wcmd_key w) -> acts w id.
Proof.
  intros Ho ks v Hv. destruct (exec_w w ks) as [[n|e] ks'] eqn:E; simpl.
  - right. split; [by eexists|]. eapply shows_frame; [|done]. intros k Hk.
    apply (f_equal snd) in E. simpl in E. rewrite <- E. apply exec_w_frame. congruence.
  - left. split; [by eexists|]. destruct w; simpl in E; repeat case_match; by simplify_eq.
Qed.

(** A keyspace with nothing of the list, from which views are built. *)
Definition empty_view : lview :=
  {| v_state := ∅; v_fwd := fun _ => ∅; v_rev := fun _ => False; v_tok := None |}.
Lemma shows_empty : shows ∅ empty_view.
Proof. split_and!; [done|done| |done]. intros id. unfold set_at, as_set. rewrite lookup_empty. simpl. set_solver. Qed.

(** ** Proof rules *)

Context (env : environment).
Context (Hrely : forall ks ks', rely env ks ks' -> same_view ks ks').

Lemma shows_stable v : stable env (fun ks => shows ks v).
Proof. intros ks ks' Hv HR. by apply (Hrely _ _ HR). Qed.

Lemma contract_write w f ks r ks' v :
  acts w f -> shows ks v -> contract (Write w) ks r ks' ->
  match r with
  | Ok _ => shows ks' (f v)
  | Err _ => shows ks' v \/ shows ks' (f v)
  end.
Proof.
  intros Ha Hv Hc. destruct (Ha ks v Hv) as [[[e He] Heq]|[[n Hn] Hf]].
  - unfold contract in Hc. simpl in Hc. destruct (exec_w w ks) as [r0 ks0]. simpl in *. subst.
    destruct Hc as [[-> ->]|[[e' ->] [-> | ->]]]; by left.
  - unfold contract in Hc. simpl in Hc. destruct (exec_w w ks) as [r0 ks0]. simpl in *. subst.
    destruct Hc as [[-> ->]|[[e' ->] [-> | ->]]]; [done|by left|by right].
Qed.

Context {E : Type} `{FromRedis E}.

Lemma wp_write w f v (Q : outcome E N -> keyspace -> Prop) ks :
  acts w f -> shows ks v ->
  (forall n ks', shows ks' (f v) -> Q (Returned n) ks') ->
  (forall e ks', shows ks' v \/ shows ks' (f v) -> Q (Failed e) ks') ->
  wp env (write w) Q ks.
Proof.
  intros Ha Hv Hok Herr. eapply wp_redis; [apply (shows_stable v)|done|].
  intros r ks1 ks2 Hv1 Hc. pose proof (contract_write _ _ _ _ _ _ Ha Hv1 Hc) as Hw.
  destruct r; eauto.
Qed.

(** A read replies what [read] says of the view, or fails. *)
Lemma wp_read {R} (c : cmd R) (ok : lview -> R -> Prop) v (Q : outcome E R -> keyspace -> Prop) ks :
  cmd_keys c = [] ->
  (forall ks a, shows ks v -> contract c ks (Ok a) ks -> ok v a) ->
  shows ks v ->
  (forall a ks', shows ks' v -> ok v a -> Q (Returned a) ks') ->
  (forall e ks', shows ks' v -> Q (Failed e) ks') ->
  wp env (redis c) Q ks.
Proof.
  intros Hk Hread Hv Hok Herr. eapply wp_redis; [apply (shows_stable v)|done|].
  intros r ks1 ks2 Hv1 Hc. pose proof (contract_read _ _ _ _ Hc Hk) as ->.
  destruct r as [a|e]; [apply Hok; [done|]; exact (Hread _ _ Hv1 Hc)|by apply Herr].
Qed.

Lemma contract_ok {R} (c : cmd R) ks a ks' r0 ks0 :
  exec c ks = Some (r0, ks0) -> contract c ks (Ok a) ks' -> r0 = Ok a /\ ks' = ks0.
Proof. unfold contract. intros ->. intros [[<- ->]|[[e He] _]]; [done|by simplify_eq]. Qed.

Lemma wp_conn v (Q : outcome E unit -> keyspace -> Prop) ks :
  shows ks v -> (forall ks', shows ks' v -> Q (Returned tt) ks') ->
  (forall e ks', shows ks' v -> Q (Failed e) ks') -> wp env get_conn Q ks.
Proof.
  intros Hv Hok Herr. eapply (wp_read CONN (fun _ _ => True)); [done|done|done| |done].
  intros [] ks' Hv' _. by apply Hok.
Qed.

Lemma wp_scard_fwd ver v (Q : outcome E N -> keyspace -> Prop) ks :
  shows ks v ->
  (forall ks', shows ks' v -> Q (Returned (N.of_nat (size (v_fwd v ver)))) ks') ->
  (forall e ks', shows ks' v -> Q (Failed e) ks') ->
  wp env (redis (SCARD (fkey ver))) Q ks.
Proof.
  intros Hv Hok Herr.
  eapply (wp_read _ (fun v n => n = N.of_nat (size (v_fwd v ver)))); [done| |done| |done].
  - intros ks1 a (Hs & Hf & Hr & Ht) Hc. eapply contract_ok in Hc as [Heq _]; [|done].
    destruct (as_set ks1 (fkey ver)) as [s|] eqn:Es; simpl in Heq; simplify_eq.
    specialize (Hf ver). apply set_is_at in Hf. congruence.
  - intros a ks' Hv' ->. by apply Hok.
Qed.

Lemma wp_hget_state f v (Q : outcome E (option string) -> keyspace -> Prop) ks :
  shows ks v ->
  (forall ks', shows ks' v -> Q (Returned (v_state v !! f)) ks') ->
  (forall e ks', shows ks' v -> Q (Failed e) ks') ->
  wp env (redis (HGET skey f)) Q ks.
Proof.
  intros Hv Hok Herr. eapply (wp_read _ (fun v a => a = v_state v !! f)); [done| |done| |done].
  - intros ks1 a (Hs & Hf & Hr & Ht) Hc. eapply contract_ok in Hc as [Heq _]; [|done].
    destruct (as_hash ks1 skey) as [s|] eqn:Es; simpl in Heq; simplify_eq.
    by rewrite <- Hs, (as_hash_at _ _ _ Es).
  - intros a ks' Hv' ->. by apply Hok.
Qed.

(** Reads whose reply the proofs do not use. *)
Lemma wp_any_read {R} (c : cmd R) v (Q : outcome E R -> keyspace -> Prop) ks :
  cmd_keys c = [] -> shows ks v ->
  (forall a ks', shows ks' v -> Q (Returned a) ks') ->
  (forall e ks', shows ks' v -> Q (Failed e) ks') ->
  wp env (redis c) Q ks.
Proof.
  intros Hk Hv Hok Herr. eapply (wp_read c (fun _ _ => True)); [done|done|done| |done]. eauto.
Qed.

Lemma wp_exists_fwd ver v (Q : outcome E bool -> keyspace -> Prop) ks :
  shows ks v ->
  (forall ks', shows ks' v -> Q (Returned (negb (bool_decide (v_fwd v ver = ∅)))) ks') ->
  (forall e ks', shows ks' v -> Q (Failed e) ks') ->
  wp env (redis (EXISTS (fkey ver))) Q ks.
Proof.
  intros Hv Hok Herr.
  eapply (wp_read _ (fun v b => b = negb (bool_decide (v_fwd v ver = ∅)))); [done| |done| |done].
  - intros ks1 a (Hs & Hf & Hr & Ht) Hc. eapply contract_ok in Hc as [Heq _]; [|done].
    injection Heq as <-. by apply set_is_exists.
  - intros a ks' Hv' ->. by apply Hok.
Qed.

(** Token allocation: the dictionary then has the token it returned. *)
Lemma contract_alloc ks r ks' v :
  shows ks v ->
  contract (ALLOC_TOKEN_SCRIPT dkey (name_field list) list DICT_COUNTER_FIELD) ks r ks' ->
  match r with
  | Ok s => shows ks' (set_tok (Some s) v) /\ (v_tok v = Some s \/ v_tok v = None)
  | Err _ => shows ks' v \/ (v_tok v = None /\ exists s, shows ks' (set_tok (Some s) v))
  end.
Proof.
  intros Hv Hc. pose proof Hv as (_ & _ & _ & Ht).
  assert (forall x, v_tok v = Some x -> set_tok (Some x) v = v) as Hsame
    by (intros x Hx; unfold set_tok; rewrite <- Hx; by destruct v).
  unfold contract in Hc. simpl in Hc.
  destruct (as_hash ks dkey) as [h|] eqn:Eh.
  2:{ destruct Hc as [[-> ->]|[[e ->] [-> | ->]]]; by left. }
  rewrite (as_hash_at _ _ _ Eh) in Ht. symmetry in Ht.
  destruct (h !! name_field list) as [x|] eqn:En.
  { destruct Hc as [[-> ->]|[[e ->] [-> | ->]]]; [rewrite (Hsame x) by done; auto|by left..]. }
  destruct (hincr h DICT_COUNTER_FIELD) as [t|].
  2:{ destruct Hc as [[-> ->]|[[e ->] [-> | ->]]]; by left. }
  pose proof (shows_put_dict _ _ (<["t:" +:+ show_u64 t:=list]> (<[name_field list:=show_u64 t]>
    (<[DICT_COUNTER_FIELD:=show_u64 t]> h))) Hv) as Hnew.
  rewrite lookup_insert_ne in Hnew by (intros e; symmetry in e; by apply name_not_token in e).
  rewrite lookup_insert_eq in Hnew.
  destruct Hc as [[-> ->]|[[e ->] [-> | ->]]]; [by split; [|right]|by left|right].
  split; [done|]. by exists (show_u64 t).
Qed.

Lemma wp_get_or_allocate_token v (Q : outcome E N -> keyspace -> Prop) ks :
  shows ks v ->
  (forall s t ks', parse_u64 s = Some t -> v_tok v = Some s \/ v_tok v = None ->
     shows ks' (set_tok (Some s) v) -> Q (Returned t) ks') ->
  (forall e ks', shows ks' v \/ (v_tok v = None /\ exists s, shows ks' (set_tok (Some s) v)) ->
     Q (Failed e) ks') ->
  wp env (get_or_allocate_token self skh list) Q ks.
Proof.
  intros Hv Hok Herr. unfold get_or_allocate_token. apply wp_bind.
  eapply wp_conn; [exact Hv| |intros; apply Herr; by left]. clear ks Hv. intros ks Hv.
  apply wp_bind. eapply wp_redis; [apply (shows_stable v)|exact Hv|].
  intros r ks1 ks2 Hv1 Hc. pose proof (contract_alloc _ _ _ _ Hv1 Hc) as Ha.
  destruct r as [s|e]; [|by apply Herr]. destruct Ha as [Hs Ht]. unfold parse_token.
  destruct (parse_u64 s) as [t|] eqn:Hp; simpl; [by eapply Hok|]. apply Herr.
  destruct Ht as [Ht|Ht]; [left|right; eauto]. unfold set_tok in Hs. rewrite <- Ht in Hs. by destruct v.
Qed.

(** A scan page of a forward set. *)
Lemma wp_sscan_fwd ver cursor count v (Q : outcome E (N * Datatypes.list string) -> keyspace -> Prop) ks :
  shows ks v ->
  (forall next page ks', shows ks' v ->
     page_ok (Some (fkey ver)) (fun x => x ∈ v_fwd v ver) cursor next page ->
     Q (Returned (next, page)) ks') ->
  (forall e ks', shows ks' v -> Q (Failed e) ks') ->
  wp env (redis (SSCAN (fkey ver) cursor count)) Q ks.
Proof.
  intros Hv Hok Herr.
  eapply (wp_read _ (fun v a =>
    page_ok (Some (fkey ver)) (fun x => x ∈ v_fwd v ver) cursor a.1 a.2)); [done| |done| |done].
  - intros ks1 a (Hs & Hf & Hr & Ht) [_ [[e He]|(a' & [= <-] & s & Hs' & Hp)]]; [done|].
    specialize (Hf ver). apply set_is_at in Hf. by simplify_eq.
  - intros [next page] ks' Hv' Hp. by apply Hok.
Qed.

(** A pipeline applies its writes; when it fails, each of them may be lost. *)
Lemma wp_pipe_from err acc ws fs v (Q : outcome E (Datatypes.list N) -> keyspace -> Prop) ks :
  Forall2 acts ws fs -> shows ks v ->
  (err = None -> forall ns ks', shows ks' (apply_all fs v) -> Q (Returned ns) ks') ->
  (forall e ks' w, partial fs v w -> shows ks' w -> Q (Failed e) ks') ->
  wp env (pipe_from err acc ws) Q ks.
Proof.
  intros Hall. revert err acc v ks. induction Hall as [|w f ws fs Ha Hall IH];
    intros err acc v ks Hv Hok Herr; simpl.
  - destruct err; [|by apply Hok]. eapply Herr; [|done]. by constructor.
  - intros ks1 r ks2 HR Hc. apply (Hrely _ _ HR) in Hv.
    pose proof (contract_write _ _ _ _ _ _ Ha Hv Hc) as Hw. destruct r as [n|e].
    + eapply IH; [exact Hw|exact Hok|]. intros e ks' w' Hp. apply Herr. by constructor.
    + destruct Hw as [Hw|Hw]; (eapply IH; [exact Hw|done|]); intros e' ks' w' Hp Hs;
        (eapply Herr; [|exact Hs]); [by apply partial_lost|by apply partial_done].
Qed.

Lemma wp_pipe ws fs v (Q : outcome E (Datatypes.list N) -> keyspace -> Prop) ks :
  Forall2 acts ws fs -> shows ks v ->
  (forall ns ks', shows ks' (apply_all fs v) -> Q (Returned ns) ks') ->
  (forall e ks' w, partial fs v w -> shows ks' w -> Q (Failed e) ks') ->
  wp env (pipe ws) Q ks.
Proof. intros Ha Hv Hok Herr. by eapply wp_pipe_from. Qed.

(** A transaction applies all of its writes, or none when it fails. *)
Lemma exec_multi_shows ws fs ks v : Forall2 acts ws fs -> shows ks v -> multi_error ws ks = None ->
  shows (exec_multi ws ks) (apply_all fs v).
Proof.
  intros Hall. revert ks v. induction Hall as [|w f ws fs Ha Hall IH]; intros ks v Hv Hm; simpl; [done|].
  simpl in Hm. destruct (Ha ks v Hv) as [[[e He] _]|[[n Hn] Hs]].
  - by rewrite He in Hm.
  - rewrite Hn in Hm. unfold exec_multi in *. simpl. by apply IH.
Qed.

Lemma exec_multi_partial ws fs ks v : Forall2 acts ws fs -> shows ks v ->
  exists w, partial fs v w /\ shows (exec_multi ws ks) w.
Proof.
  intros Hall. revert ks v. induction Hall as [|c f ws fs Ha Hall IH]; intros ks v Hv; simpl.
  - exists v. split; [by constructor|done].
  - unfold exec_multi in *. simpl. destruct (Ha ks v Hv) as [[_ Heq]|[_ Hs]].
    + rewrite Heq. destruct (IH ks v Hv) as (w & Hp & Hw). exists w. split; [by apply partial_lost|done].
    + destruct (IH _ _ Hs) as (w & Hp & Hw). exists w. split; [by apply partial_done|done].
Qed.

Lemma partial_none fs v : partial fs v v.
Proof. induction fs; [by constructor|by apply partial_lost]. Qed.

Lemma wp_pipe_atomic ws fs v (Q : outcome E unit -> keyspace -> Prop) ks :
  Forall2 acts ws fs -> shows ks v ->
  (forall ks', shows ks' (apply_all fs v) -> Q (Returned tt) ks') ->
  (forall e ks' w, partial fs v w -> shows ks' w -> Q (Failed e) ks') ->
  wp env (pipe_atomic ws) Q ks.
Proof.
  intros Ha Hv Hok Herr. destruct Ha as [|w f ws fs Ha Hall]; simpl; [by apply Hok|].
  eapply wp_redis; [apply (shows_stable v)|done|]. intros r ks1 ks2 Hv1 Hc.
  assert (Forall2 acts (w :: ws) (f :: fs)) as Hall' by (by constructor).
  destruct (exec_multi_partial _ _ _ _ Hall' Hv1) as (u & Hp & Hu).
  unfold contract in Hc. cbn [exec] in Hc.
  destruct Hc as [[-> ->]|[[e ->] [-> | ->]]].
  - destruct (multi_error (w :: ws) ks1) eqn:Em; [eauto|]. destruct tt.
    by apply Hok, exec_multi_shows.
  - eapply Herr; [apply partial_none|exact Hv1].
  - eauto.
Qed.
End View.
