(* ===== verification/WorkLock.v ===== *)
(** * WorkLock: the renewable Redis lock

    Models [src/src/datastore/idlist_membership/work_lock.rs] and the claim
    bookkeeping ([ClaimRenewal]) of
    [src/src/datastore/idlist_membership/worker/run.rs]. The background renewal
    task is a second client of the same lock; what the worker sees of it is the
    [lost] flag, read by the [Lost] effect. *)
From S2P Require Import Prelude Schema Effects WorkerCore ListView.

Record RedisWorkLock := { holder_id : string }.

Section Lock.
Context {E : Type} `{FromRedis E} (self : RedisWorkLock).

Definition try_acquire (key : string) (ttl_s : N) : prog E bool :=
  _ ← get_conn;
  redis (SET_NX_EX key (holder_id self) ttl_s).

Definition renew (key : string) (ttl_s : N) : prog E bool :=
  _ ← get_conn;
  renewed ← redis (RENEW_SCRIPT key (holder_id self) ttl_s);
  Ret (bool_decide (renewed = 1%N)).

Definition release (key : string) : prog E unit :=
  _ ← get_conn;
  _ ← redis (RELEASE_SCRIPT key (holder_id self));
  Ret tt.
End Lock.

(** ** The claim of a worker *)

Record ClaimRenewal := { cr_lock : RedisWorkLock; cr_key : string; cr_ttl_s : N }.

(** One round of the background task: [true] ends it with the flag set. *)
Definition renewal_interval_s (ttl_s : N) : N := N.max (ttl_s / 3) 1.
Definition renewal_round (self : ClaimRenewal) : prog redis_error bool :=
  r ← attempt (E := redis_error) (renew (cr_lock self) (cr_key self) (cr_ttl_s self));
  match r with
  | Ok true => Ret false
  | Ok false | Err _ => Ret true
  end.

Definition ensure_held : prog WorkerError unit :=
  Lost (fun lost => if lost then Throw LockLost else Ret tt).

Definition renew_now (self : ClaimRenewal) : prog WorkerError unit :=
  _ ← ensure_held;
  held ← renew (cr_lock self) (cr_key self) (cr_ttl_s self);
  if (held : bool) then Ret tt else Throw LockLost.

Definition stop_and_release (self : ClaimRenewal) : prog redis_error unit :=
  release (cr_lock self) (cr_key self).

(** ** The lock as a state machine

    [held ks key h]: Redis records [h] as the holder. *)

Definition held (ks : keyspace) (key h : string) : Prop :=
  exists t, ks !! key = Some {| val := VStr h; ttl := t |}.

(** The commands the three operations send, by whoever sends them. *)
Inductive lock_cmd (key : string) : forall R, cmd R -> Prop :=
| lc_conn : lock_cmd key unit CONN
| lc_set h t : lock_cmd key bool (SET_NX_EX key h t)
| lc_renew h t : lock_cmd key N (RENEW_SCRIPT key h t)
| lc_release h : lock_cmd key N (RELEASE_SCRIPT key h).

Lemma held_foreign `{ScanOrder} {R} (c : cmd R) ks r ks' key h :
  contract c ks r ks' -> key ∉ cmd_keys c -> held ks key h -> held ks' key h.
Proof.
  intros Hc Hk [t Ht]. exists t. by rewrite (contract_frame _ _ _ _ _ Hc Hk).
Qed.

Lemma as_str_held ks key h : held ks key h -> as_str ks key = Some (Some h).
Proof. intros [t Ht]. unfold as_str. by rewrite Ht. Qed.

Lemma set_nx_held `{ScanOrder} ks key h v t r ks' :
  contract (SET_NX_EX key v t) ks r ks' -> held ks key h -> ks' = ks /\ r <> Ok true.
Proof.
  intros Hc [t' Ht]. unfold contract in Hc. simpl in Hc. rewrite Ht in Hc.
  destruct Hc as [[-> ->]|[[e ->] [-> | ->]]]; done.
Qed.

Lemma renew_other `{ScanOrder} ks key h v t r ks' :
  contract (RENEW_SCRIPT key v t) ks r ks' -> held ks key h -> v <> h -> ks' = ks /\ r <> Ok 1%N.
Proof.
  intros Hc Hh Hv. unfold contract in Hc. simpl in Hc. rewrite (as_str_held _ _ _ Hh) in Hc.
  rewrite decide_False in Hc by congruence. destruct Hc as [[-> ->]|[[e ->] [-> | ->]]]; done.
Qed.

Lemma release_other `{ScanOrder} ks key h v r ks' :
  contract (RELEASE_SCRIPT key v) ks r ks' -> held ks key h -> v <> h -> ks' = ks.
Proof.
  intros Hc Hh Hv. unfold contract in Hc. simpl in Hc. rewrite (as_str_held _ _ _ Hh) in Hc.
  rewrite decide_False in Hc by congruence. destruct Hc as [[-> ->]|[[e ->] [-> | ->]]]; done.
Qed.

(** ** Rules for the worker *)

Section Rules.
Context `{ScanOrder} (self : IdListKeySchema) (skh list : string) (tok : N).
Context (Hns : namespace_ok skh) (env : environment).
Context (Hrely : forall ks ks', rely env ks ks' -> same_view self skh list tok ks ks').
Abbreviation shows := (shows self skh list tok).

(** A command that writes only the claim key leaves the view alone. *)
Lemma wp_claim_cmd {R} (c : cmd R) key v (Q : outcome WorkerError R -> keyspace -> Prop) ks :
  key = claim_key self skh list -> cmd_keys c = [key] -> shows ks v ->
  (forall a ks', shows ks' v -> Q (Returned a) ks') ->
  (forall e ks', shows ks' v -> Q (Failed e) ks') ->
  wp env (redis c) Q ks.
Proof.
  intros -> Hk Hv Hok Herr. eapply wp_redis; [by apply (shows_stable _ _ _ _ env Hrely v)|done|].
  intros r ks1 ks2 Hv1 Hc. assert (shows ks2 v) as Hv2.
  { eapply contract_shows; [done| |done]. rewrite Hk. intros k ->%list_elem_of_singleton.
    by apply (not_owned self skh list Hns (KClaim skh list)). }
  destruct r; eauto.
Qed.

Lemma wp_ensure_held v (Q : outcome WorkerError unit -> keyspace -> Prop) ks :
  shows ks v -> (forall ks', shows ks' v -> Q (Returned tt) ks') ->
  (forall e ks', shows ks' v -> Q (Failed e) ks') -> wp env ensure_held Q ks.
Proof. intros Hv Hok Herr []; simpl; eauto. Qed.

Lemma wp_renew_now renewal v (Q : outcome WorkerError unit -> keyspace -> Prop) ks :
  cr_key renewal = claim_key self skh list ->
  shows ks v -> (forall ks', shows ks' v -> Q (Returned tt) ks') ->
  (forall e ks', shows ks' v -> Q (Failed e) ks') -> wp env (renew_now renewal) Q ks.
Proof.
  intros Hkey Hv Hok Herr. unfold renew_now. apply wp_bind.
  eapply wp_ensure_held; [done| |done]. clear ks Hv. intros ks Hv.
  apply wp_bind. unfold renew. apply wp_bind.
  eapply (wp_conn self skh list tok env Hrely); [done| |done]. clear ks Hv. intros ks Hv.
  apply wp_bind. eapply wp_claim_cmd; [done| |done| |done]; [by rewrite Hkey|].
  clear ks Hv. intros n ks Hv. simpl. case_bool_decide; simpl; eauto.
Qed.
End Rules.

(** ** Specifications of the three operations *)

Section LockSpec.
Context `{ScanOrder} (env : environment) (key : string).
Context (HR : forall ks ks', rely env ks ks' -> ks' !! key = ks !! key).

Lemma held_stable h : stable env (fun ks => held ks key h).
Proof. intros ks ks' [t Ht] Hr. exists t. by rewrite (HR _ _ Hr). Qed.

Lemma wp_conn_stable (P : keyspace -> Prop) (Q : outcome redis_error unit -> keyspace -> Prop) ks :
  stable env P -> P ks -> (forall ks', P ks' -> Q (Returned tt) ks') ->
  (forall e ks', P ks' -> Q (Failed e) ks') -> wp env get_conn Q ks.
Proof.
  intros HP Hks Hok Herr. eapply wp_redis; [exact HP|done|].
  intros r ks1 ks2 H1 Hc. pose proof (contract_read _ _ _ _ Hc eq_refl) as ->.
  destruct r as [[]|]; auto.
Qed.

Lemma try_acquire_held lock h t ks : held ks key h ->
  wp env (try_acquire (E := redis_error) lock key t)
    (fun out ks' => held ks' key h /\ out <> Returned true) ks.
Proof.
  intros Hh. unfold try_acquire. apply wp_bind.
  eapply wp_conn_stable; [apply (held_stable h)|done| |done]. clear ks Hh. intros ks Hh.
  eapply wp_redis; [apply (held_stable h)|done|]. intros r k1 k2 Hk Hc.
  destruct (set_nx_held _ _ _ _ _ _ _ Hc Hk) as [-> Hr]. destruct r as [[]|]; done.
Qed.

Lemma renew_held lock h t ks : held ks key h -> holder_id lock <> h ->
  wp env (renew (E := redis_error) lock key t)
    (fun out ks' => held ks' key h /\ out <> Returned true) ks.
Proof.
  intros Hh Hne. unfold renew. apply wp_bind.
  eapply wp_conn_stable; [apply (held_stable h)|done| |done]. clear ks Hh. intros ks Hh.
  apply wp_bind. eapply wp_redis; [apply (held_stable h)|done|]. intros r k1 k2 Hk Hc.
  destruct (renew_other _ _ _ _ _ _ _ Hc Hk Hne) as [-> Hr]. destruct r as [n|]; [|done].
  simpl. split; [done|]. rewrite bool_decide_eq_false_2; congruence.
Qed.

Lemma release_held lock h ks : held ks key h -> holder_id lock <> h ->
  wp env (release (E := redis_error) lock key) (fun _ ks' => held ks' key h) ks.
Proof.
  intros Hh Hne. unfold release. apply wp_bind.
  eapply wp_conn_stable; [apply (held_stable h)|done| |done]. clear ks Hh. intros ks Hh.
  apply wp_bind. eapply wp_redis; [apply (held_stable h)|done|]. intros r k1 k2 Hk Hc.
  rewrite (release_other _ _ _ _ _ _ Hc Hk Hne). by destruct r.
Qed.

Lemma try_acquire_won lock t ks :
  wp env (try_acquire (E := redis_error) lock key t)
    (fun out ks' => out = Returned true -> ks !! key = None /\ held ks' key (holder_id lock)) ks.
Proof.
  set (P := fun k : keyspace => k !! key = ks !! key).
  assert (stable env P) as HP by (intros k k' Hk Hr; unfold P; by rewrite (HR _ _ Hr)).
  unfold try_acquire. apply wp_bind.
  eapply (wp_conn_stable P); [done|done| |done]. intros ks1 H1.
  eapply wp_redis; [exact HP|done|]. intros r k1 k2 Hk Hc. destruct r as [b|]; [|done].
  intros [= ->]. unfold contract in Hc. simpl in Hc. unfold P in Hk. rewrite Hk in Hc.
  destruct (ks !! key) as [e|] eqn:Ek; destruct Hc as [[Heq ->]|[[? ?] _]]; simplify_eq.
  split; [done|]. exists (Some t). by rewrite lookup_insert_eq.
Qed.
End LockSpec.

(** ** Properties *)

(** C35: the lock is exclusive. While Redis records a holder, no operation of
    another holder changes that: an acquisition and a renewal do not report success, and
    a release has no effect (it reports none: it returns the same as the release of a
    lock that is held), whatever faults occur; other clients are assumed not to touch
    the key. A successful acquisition finds no holder, and makes the acquirer the
    recorded one. *)
Theorem lock_exclusive `{ScanOrder} env key lock t :
  (forall ks ks', rely env ks ks' -> ks' !! key = ks !! key) ->
  (forall h ks ks' (out : outcome redis_error bool),
     held ks key h -> holder_id lock <> h ->
     runs env (try_acquire lock key t) ks out ks' \/ runs env (renew lock key t) ks out ks' ->
     held ks' key h /\ out <> Returned true) /\
  (forall h ks ks' (out : outcome redis_error unit),
     held ks key h -> holder_id lock <> h -> runs env (release lock key) ks out ks' ->
     held ks' key h) /\
  (forall ks ks', runs env (try_acquire (E := redis_error) lock key t) ks (Returned true) ks' ->
     ks !! key = None /\ held ks' key (holder_id lock)).
Proof.
  intros HR. split_and!.
  - intros h ks ks' out Hh Hne [Hrun|Hrun].
    + exact (wp_adequate _ _ _ _ _ _ (try_acquire_held env key HR lock h t ks Hh) Hrun).
    + exact (wp_adequate _ _ _ _ _ _ (renew_held env key HR lock h t ks Hh Hne) Hrun).
  - intros h ks ks' out Hh Hne Hrun.
    exact (wp_adequate _ _ _ _ _ _ (release_held env key HR lock h ks Hh Hne) Hrun).
  - intros ks ks' Hrun.
    exact (wp_adequate _ _ _ _ _ _ (try_acquire_won env key HR lock t ks) Hrun eq_refl).
Qed.

(** The claim of one worker survives the release of another. *)
Lemma lock_exclusive_witness :
  let env := {| rely := eq; http_ok := fun _ _ => True |} in
  let ks : keyspace := {["k" := {| val := VStr "a"; ttl := Some 9%N |}]} in
  held (eval (fun _ => Err HttpError) (release (E := redis_error) {| holder_id := "b" |} "k") ks).2 "k" "a".
Proof.
  intros env ks.
  apply (proj1 (proj2 (lock_exclusive env "k" {| holder_id := "b" |} 9 ltac:(by intros ks1 ks2 ->)))
    "a" ks _ (eval (fun _ => Err HttpError) (release {| holder_id := "b" |} "k") ks).1).
  - by exists (Some 9%N).
  - done.
  - by apply eval_runs.
Defined.
