(* ===== verification/FileContent.v ===== *)
(** * FileContent: what an ID-list file means

    The abstract specification of synchronization. An append-only file is a
    sequence of [+]/[-] records; the list it denotes after some prefix is the set
    whose members' last record is [+]. [tracks F n P] says that the member
    predicate [P] follows the file [F] up to the line boundary [n]: it may differ
    from the prefix only on members that later lines of the file mention. That is
    what a worker that can be interrupted at any command can promise, and it is
    exact once the file has been read to its end ([tracks_exact]). *)
From S2P Require Import Prelude Schema Effects WorkerCore Parser.

(** ** Sequences of changes *)

Definition last_change (x : string) (cs : list FileChange) : option bool :=
  foldl (fun o c => if decide (member c = x) then Some (add c) else o) None cs.

(** Membership after a sequence of changes: the last line wins. *)
Definition after (cs : list FileChange) (P : string -> Prop) (x : string) : Prop :=
  match last_change x cs with Some b => b = true | None => P x end.

Lemma last_change_snoc x cs c :
  last_change x (cs ++ [c]) = if decide (member c = x) then Some (add c) else last_change x cs.
Proof. unfold last_change. by rewrite foldl_app. Qed.

Lemma last_change_app x cs ds :
  last_change x (cs ++ ds) = match last_change x ds with Some b => Some b | None => last_change x cs end.
Proof.
  induction ds as [|d ds IH] using rev_ind; [by rewrite app_nil_r|].
  rewrite app_assoc, !last_change_snoc. case_decide; [done|apply IH].
Qed.

Lemma last_change_None x cs : last_change x cs = None <-> forall c, c ∈ cs -> member c <> x.
Proof.
  induction cs as [|c cs IH] using rev_ind; [split; [set_solver|done]|].
  rewrite last_change_snoc. case_decide as Hc.
  - split; [done|]. intros Hall. exfalso. apply (Hall c); [set_solver|done].
  - rewrite IH. split; [set_solver|]. intros Hall d Hd. apply Hall. set_solver.
Qed.

Lemma after_app cs ds P x : after (cs ++ ds) P x <-> after ds (after cs P) x.
Proof. unfold after. rewrite last_change_app. by destruct (last_change x ds). Qed.

Lemma after_ext cs P Q x : (P x <-> Q x) -> (after cs P x <-> after cs Q x).
Proof. unfold after. by destruct (last_change x cs). Qed.

(** ** Lines and bytes *)

Definition unlines (ls : list bytes) : bytes := concat ((fun l => l ++ [NL]) <$> ls).

Lemma unlines_app ls ms : unlines (ls ++ ms) = unlines ls ++ unlines ms.
Proof. unfold unlines. by rewrite fmap_app, concat_app. Qed.

Lemma unlines_cons l ls : unlines (l :: ls) = l ++ NL :: unlines ls.
Proof. unfold unlines. simpl. by rewrite <- app_assoc. Qed.

Lemma length_unlines ls : N.of_nat (length (unlines ls)) = lines_bytes ls.
Proof.
  induction ls as [|l ls IH]; [done|]. rewrite unlines_cons, length_app. simpl. lia.
Qed.

Definition no_nl (l : bytes) : Prop := split_newline l = None.

Lemma split_newline_no_nl a b : no_nl a -> split_newline (a ++ NL :: b) = Some (a, b).
Proof.
  unfold no_nl. induction a as [|c a IH]; intros Ha; simpl in *; [done|].
  destruct (decide (c = NL)); [done|]. rewrite IH; [done|].
  by destruct (split_newline a) as [[]|].
Qed.

Lemma split_newline_line_no_nl l a b : split_newline l = Some (a, b) -> no_nl a.
Proof.
  revert a. induction l as [|c l IH]; intros a; simpl; [done|].
  case_decide as Hc; [by intros [= <- <-]|]. intros ([x y] & Hs & Heq)%bind_Some. simplify_eq/=.
  unfold no_nl in *. simpl. rewrite decide_False by done. by rewrite (IH x).
Qed.

Lemma lines_fuel_more f f' l : length l <= f -> length l <= f' -> lines_fuel f l = lines_fuel f' l.
Proof.
  revert f' l. induction f as [|f IH]; intros [|f'] l Hf Hf'; simpl;
    try (destruct l; simpl in *; [done|lia]).
  destruct (split_newline l) as [[a b]|] eqn:E; [|done].
  apply split_newline_length in E. rewrite (IH f' b) by lia. done.
Qed.

Lemma file_lines_step l a b : split_newline l = Some (a, b) ->
  file_lines l = a :: file_lines b /\ file_tail l = file_tail b.
Proof.
  intros E. pose proof (split_newline_length _ _ _ E) as Hlen.
  unfold file_lines, file_tail. destruct (length l) as [|n] eqn:Hn; [lia|]. simpl. rewrite E.
  rewrite (lines_fuel_more n (length b)) by lia. by destruct (lines_fuel (length b) b).
Qed.

Lemma file_lines_none l : no_nl l -> file_lines l = [] /\ file_tail l = l.
Proof. intros Hn. unfold file_lines, file_tail. by rewrite lines_fuel_none. Qed.

(** A file is its lines, each with a newline, and its tail. *)
Lemma file_join l : l = unlines (file_lines l) ++ file_tail l.
Proof.
  remember (length l) as n eqn:Hn. revert l Hn. induction n as [n IH] using lt_wf_ind.
  intros l ->. destruct (split_newline l) as [[a b]|] eqn:E.
  - destruct (file_lines_step _ _ _ E) as [-> ->]. rewrite unlines_cons, <- app_assoc. simpl.
    rewrite <- (IH (length b)); [|apply split_newline_length in E; lia|done].
    by apply split_newline_eq.
  - destruct (file_lines_none _ E) as [-> ->]. done.
Qed.

Lemma file_lines_no_nl l : Forall no_nl (file_lines l).
Proof.
  remember (length l) as n eqn:Hn. revert l Hn. induction n as [n IH] using lt_wf_ind.
  intros l ->. destruct (split_newline l) as [[a b]|] eqn:E.
  - destruct (file_lines_step _ _ _ E) as [-> _].
    constructor; [by eapply split_newline_line_no_nl|].
    apply (IH (length b)); [apply split_newline_length in E; lia|done].
  - destruct (file_lines_none _ E) as [-> _]. constructor.
Qed.

Lemma file_lines_unlines ls b : Forall no_nl ls ->
  file_lines (unlines ls ++ b) = ls ++ file_lines b /\ file_tail (unlines ls ++ b) = file_tail b.
Proof.
  induction 1 as [|l ls Hl Hls [IH1 IH2]]; [done|].
  rewrite unlines_cons, <- app_assoc. simpl.
  destruct (file_lines_step (l ++ NL :: unlines ls ++ b) l (unlines ls ++ b)) as [-> ->].
  - by apply split_newline_no_nl.
  - by rewrite IH1, IH2.
Qed.

Lemma file_lines_app a b :
  file_lines (a ++ b) = file_lines a ++ file_lines (file_tail a ++ b) /\
  file_tail (a ++ b) = file_tail (file_tail a ++ b).
Proof.
  assert (a ++ b = unlines (file_lines a) ++ file_tail a ++ b) as Hab
    by (rewrite app_assoc; by rewrite <- file_join).
  rewrite Hab. apply file_lines_unlines, file_lines_no_nl.
Qed.

Lemma file_lines_prefix a c : a `prefix_of` c -> file_lines a `prefix_of` file_lines c.
Proof. intros [b ->]. rewrite (proj1 (file_lines_app a b)). by eexists. Qed.

(** ** Changes of lines *)

Fixpoint line_changes (ls : list bytes) : result WorkerError (list FileChange) :=
  match ls with
  | [] => Ok []
  | l :: ls' =>
      c ← decode_line l;
      cs ← line_changes ls';
      Ok (match c with Some c => c :: cs | None => cs end)
  end.

Lemma line_changes_app ls ms :
  line_changes (ls ++ ms) = cs ← line_changes ls; ds ← line_changes ms; Ok (cs ++ ds).
Proof.
  induction ls as [|l ls IH]; simpl; [by destruct (line_changes ms)|].
  destruct (decode_line l) as [c|]; simpl; [|done]. rewrite IH.
  destruct (line_changes ls); simpl; [|done]. destruct (line_changes ms); simpl; [|done].
  by destruct c.
Qed.

Lemma line_changes_snoc ls l cs c :
  line_changes ls = Ok cs -> decode_line l = Ok c ->
  line_changes (ls ++ [l]) = Ok (cs ++ match c with Some c => [c] | None => [] end).
Proof. intros Hls Hl. rewrite line_changes_app, Hls. simpl. rewrite Hl. by destruct c. Qed.

Definition mentions (ls : list bytes) (x : string) : Prop :=
  exists l c, l ∈ ls /\ decode_line l = Ok (Some c) /\ member c = x.

Lemma line_changes_mentions ls cs c : line_changes ls = Ok cs -> c ∈ cs -> mentions ls (member c).
Proof.
  revert cs. induction ls as [|l ls IH]; intros cs; simpl.
  - intros [= <-] []%elem_of_nil.
  - destruct (decode_line l) as [o|] eqn:El; simpl; [|done].
    destruct (line_changes ls) as [ds|]; simpl; [|done]. intros [= <-] Hin.
    assert ((o = Some c) \/ c ∈ ds) as [->|Hd] by (destruct o; set_solver).
    + exists l, c. split; [by left|done].
    + destruct (IH ds eq_refl Hd) as (l' & c' & Hl' & ?). exists l', c'. split; [by right|done].
Qed.

Lemma mentions_app ls ms x : mentions (ls ++ ms) x <-> mentions ls x \/ mentions ms x.
Proof.
  unfold mentions. setoid_rewrite elem_of_app. naive_solver.
Qed.

(** ** Following a file *)

(** [n] is just after a newline of [F], or 0. *)
Definition boundary (F : bytes) (n : N) : Prop :=
  (n <= N.of_nat (length F))%N /\ file_tail (take (N.to_nat n) F) = [].

(** The offset of the [k]-th line end after the boundary [n]. *)
Definition line_offset (F : bytes) (n : N) (k : nat) : N :=
  (n + lines_bytes (take k (file_lines (drop (N.to_nat n) F))))%N.

Definition tracks (F : bytes) (n : N) (P : string -> Prop) : Prop :=
  boundary F n /\
  exists cs, line_changes (file_lines (take (N.to_nat n) F)) = Ok cs /\
    forall x, ~ mentions (file_lines (drop (N.to_nat n) F)) x ->
      (P x <-> after cs (fun _ => False) x).

(** The list a file denotes when all of its complete lines have been read. *)
Definition denotes (F : bytes) (P : string -> Prop) : Prop :=
  exists cs, line_changes (file_lines F) = Ok cs /\ forall x, P x <-> after cs (fun _ => False) x.

(** Advancing a boundary by whole lines. *)
Lemma boundary_advance F n k :
  boundary F n ->
  let L := file_lines (drop (N.to_nat n) F) in
  let m := line_offset F n k in
  boundary F m /\
  file_lines (take (N.to_nat m) F) = file_lines (take (N.to_nat n) F) ++ take k L /\
  file_lines (drop (N.to_nat m) F) = drop k L /\
  (N.of_nat (length F) = m + lines_bytes (drop k L) + N.of_nat (length (file_tail F)))%N.
Proof.
  intros [Hn Ht] L m.
  pose proof (file_join (take (N.to_nat n) F)) as H0. rewrite Ht, app_nil_r in H0.
  pose proof (file_join (drop (N.to_nat n) F)) as H1. fold L in H1.
  set (L0 := file_lines (take (N.to_nat n) F)) in *. set (t := file_tail (drop (N.to_nat n) F)) in *.
  assert (F = unlines (L0 ++ take k L) ++ unlines (drop k L) ++ t) as HF.
  { rewrite unlines_app. rewrite <- (take_drop (N.to_nat n) F) at 1. rewrite H0, H1 at 1.
    rewrite <- (take_drop k L) at 1. rewrite unlines_app, <- !app_assoc. done. }
  assert (Forall no_nl (L0 ++ take k L)) as Hnl.
  { apply Forall_app. split; [apply file_lines_no_nl|]. apply Forall_take, file_lines_no_nl. }
  assert (Forall no_nl (drop k L)) as Hnl' by apply Forall_drop, file_lines_no_nl.
  assert (no_nl t) as Hnt by apply file_tail_no_newline.
  assert (N.to_nat m = length (unlines (L0 ++ take k L))) as Hm.
  { unfold m, line_offset. fold L. rewrite unlines_app, length_app, <- H0, length_take.
    pose proof (length_unlines (take k L)). lia. }
  assert (take (N.to_nat m) F = unlines (L0 ++ take k L)) as Htake.
  { rewrite Hm. rewrite HF at 1. apply take_app_length. }
  assert (drop (N.to_nat m) F = unlines (drop k L) ++ t) as Hdrop.
  { rewrite Hm. rewrite HF at 1. apply drop_app_length. }
  destruct (file_lines_unlines (L0 ++ take k L) [] Hnl) as [Hl1 Hl2]. rewrite app_nil_r in Hl1, Hl2.
  destruct (file_lines_unlines (drop k L) t Hnl') as [Hl3 Hl4].
  destruct (file_lines_none t Hnt) as [Ht1 Ht2].
  split_and!.
  - split; [|by rewrite Htake, Hl2].
    pose proof (f_equal length HF) as Hlen. rewrite length_app in Hlen. lia.
  - rewrite Htake, Hl1. by rewrite app_nil_r.
  - rewrite Hdrop, Hl3, Ht1. by rewrite app_nil_r.
  - assert (file_tail F = t) as ->.
    { rewrite HF, app_assoc, <- unlines_app.
      destruct (file_lines_unlines ((L0 ++ take k L) ++ drop k L) t) as [_ ->]; [by apply Forall_app|].
      done. }
    pose proof (f_equal length HF) as Hlen. rewrite !length_app in Hlen.
    rewrite <- (length_unlines (drop k L)). lia.
Qed.

(** Partially applied later lines keep a predicate following the file at [n];
    fully applied lines advance it. *)
Lemma tracks_advance F n P j i done batch P' :
  tracks F n P ->
  let L := file_lines (drop (N.to_nat n) F) in
  j <= i -> i <= length L ->
  line_changes (take j L) = Ok done -> line_changes (take i L) = Ok (done ++ batch) ->
  (forall x, last_change x batch = None -> (P' x <-> after done P x)) ->
  tracks F (line_offset F n j) P'.
Proof.
  intros [Hb (cs & Hcs & HP)] L Hji Hi Hdone Hbatch HP'.
  destruct (boundary_advance F n j Hb) as (Hb' & Htake & Hdrop & _).
  split; [done|]. exists (cs ++ done). rewrite Htake, line_changes_app, Hcs. simpl.
  fold L. rewrite Hdone. split; [done|]. intros x Hx. rewrite Hdrop in Hx. fold L in Hx.
  assert (last_change x batch = None) as Hnone.
  { apply last_change_None. intros c Hc <-. apply Hx.
    assert (line_changes (take (i - j) (drop j L)) = Ok batch) as Hsub.
    { replace (take i L) with (take j L ++ take (i - j) (drop j L)) in Hbatch.
      - rewrite line_changes_app, Hdone in Hbatch. simpl in Hbatch.
        by destruct (line_changes (take (i - j) (drop j L))) as [ds|]; simplify_eq/=.
      - rewrite <- (take_drop j (take i L)). rewrite take_take, Nat.min_l by lia.
        by rewrite skipn_firstn_comm. }
    destruct (line_changes_mentions _ _ _ Hsub Hc) as (l & c' & Hl & ?). exists l, c'.
    split; [|done]. by apply (subseteq_take (i - j)) in Hl. }
  rewrite (HP' x Hnone), after_app.
  unfold after at 1 2. destruct (last_change x done) eqn:Hl; [done|]. apply HP.
  intros Hm. fold L in Hm. apply Hx. rewrite <- (take_drop j L) in Hm. apply mentions_app in Hm as [Hm|Hm]; [|done].
  exfalso. destruct Hm as (l & c & Hin & Hd & <-).
  pose proof (proj1 (last_change_None _ _) Hl c) as Hnot. apply Hnot; [|done].
  clear -Hin Hd Hdone. revert done Hdone. induction (take j L) as [|l0 ls IH]; intros done Hdone; simpl in *.
  - by apply elem_of_nil in Hin.
  - destruct (decode_line l0) as [o|] eqn:E0; simpl in Hdone; [|done].
    destruct (line_changes ls) as [ds|]; simpl in Hdone; [|done]. simplify_eq.
    apply elem_of_cons in Hin as [->|Hin].
    + rewrite Hd in E0. simplify_eq. by left.
    + assert (c ∈ ds) by (by apply (IH Hin)). destruct o; [by right|done].
Qed.

(** A worker that has read all complete lines holds exactly the file's list. *)
Lemma tracks_denotes F n P :
  tracks F n P -> file_lines (drop (N.to_nat n) F) = [] -> denotes F P.
Proof.
  intros [[Hn Ht] (cs & Hcs & HP)] Hend. exists cs. split.
  - rewrite <- (take_drop (N.to_nat n) F), (proj1 (file_lines_app _ _)), Ht. simpl.
    by rewrite Hend, app_nil_r.
  - intros x. apply HP. rewrite Hend. intros (l & c & []%elem_of_nil & _).
Qed.

Lemma tracks_empty F : tracks F 0 (fun _ => False).
Proof.
  split; [split; [lia|done]|]. exists []. done.
Qed.

Lemma tracks_ext F n P P' : (forall x, P x <-> P' x) -> tracks F n P -> tracks F n P'.
Proof.
  intros Heq [Hb (cs & Hcs & Hx)]. split; [done|]. exists cs. split; [done|].
  intros x Hm. by rewrite <- Heq, Hx.
Qed.
Lemma tracks_none F (S : gset string) : S = ∅ -> tracks F 0 (.∈ S).
Proof. intros ->. eapply tracks_ext; [|apply tracks_empty]. set_solver. Qed.

(** A file has no more members than bytes. *)
Lemma length_file_lines l : length (file_lines l) <= length l.
Proof.
  pose proof (f_equal length (file_join l)) as Hl. rewrite length_app in Hl.
  assert (length (file_lines l) <= length (unlines (file_lines l))); [|lia].
  clear Hl. induction (file_lines l) as [|x xs IH]; [done|]. rewrite unlines_cons, length_app. cbn [length]. lia.
Qed.

Definition line_member (l : bytes) : option string :=
  match decode_line l with Ok (Some c) => Some (member c) | _ => None end.
Lemma mentions_members ls x : mentions ls x -> x ∈ omap line_member ls.
Proof.
  intros (l & c & Hl & Hd & <-). apply list_elem_of_omap. exists l. split; [done|].
  unfold line_member. by rewrite Hd.
Qed.
Lemma length_omap_le {A B} (f : A -> option B) l : length (omap f l) <= length l.
Proof. induction l as [|a l IH]; csimpl; [lia|]. destruct (f a); csimpl; lia. Qed.

Lemma size_list_to_set_le (l : list string) : size (list_to_set l : gset string) <= length l.
Proof.
  induction l as [|x l IH]; [done|]; simpl. rewrite size_union_alt, size_singleton.
  assert (size ((list_to_set l : gset string) ∖ {[x]}) <= size (list_to_set l : gset string)); [|lia].
  apply subseteq_size. set_solver.
Qed.

Lemma tracks_size F n (S : gset string) : tracks F n (.∈ S) -> size S <= length F.
Proof.
  intros [[Hn _] (cs & Hcs & HP)].
  set (A := file_lines (take (N.to_nat n) F)). set (B := file_lines (drop (N.to_nat n) F)).
  assert (S ⊆ list_to_set (omap line_member (A ++ B))) as Hsub.
  { intros x Hx. apply elem_of_list_to_set, mentions_members, mentions_app.
    destruct (decide (x ∈ omap line_member B)) as [Hb|Hb].
    - right. apply list_elem_of_omap in Hb as (l & Hl & Hlm). unfold line_member in Hlm.
      destruct (decode_line l) as [[c|]|] eqn:Hd; simplify_eq. by exists l, c.
    - left. assert (after cs (fun _ => False) x) as Ha.
      { apply HP; [|done]. intros Hm. by apply Hb, mentions_members. }
      unfold after in Ha. destruct (last_change x cs) as [b|] eqn:Hl; [|done].
      destruct (decide (x ∈ member <$> cs)) as [Hin|Hin].
      + apply list_elem_of_fmap in Hin as (c & -> & Hc). by eapply line_changes_mentions.
      + exfalso. assert (last_change x cs = None) as Hnone; [|congruence].
        apply last_change_None. intros c Hc <-. apply Hin. apply list_elem_of_fmap. eauto. }
  apply subseteq_size in Hsub. etrans; [exact Hsub|]. etrans; [apply size_list_to_set_le|].
  etrans; [apply length_omap_le|]. rewrite length_app. unfold A, B.
  pose proof (length_file_lines (take (N.to_nat n) F)). pose proof (length_file_lines (drop (N.to_nat n) F)).
  rewrite length_take, length_drop in *. lia.
Qed.
