(* ===== verification/Delta.v ===== *)
(** * Delta: applying an ID-list file

    Models [src/src/datastore/idlist_membership/worker/delta.rs], and
    [ensure_current_version_persisted] of
    [src/src/datastore/idlist_membership/worker/run.rs]. *)
From S2P Require Import Prelude Schema Effects Dict WorkerCore Parser Download ListView WorkLock.
From S2P Require Import FileContent.

(** The worker; its Redis pool and HTTP client are effects. [stream_rounds] bounds
    the rounds of a chunked download in the model. *)
Record IdListSyncWorker := {
  schema : IdListKeySchema;
  claim : RedisWorkLock;
  config : IdListWorkerConfig;
  stream_rounds : nat;
}.

Record StreamApplyResult := {
  sar_lines : N;
  sar_checkpoint : N;
  sar_partial_trailing_line : bool;
}.

Inductive FileApplyMode :=
| ModeDelta (token : N) (forward_key state_key : string)
| ModeLoad (forward_key state_key : string).

Definition show_bool (b : bool) : string := if b then "true" else "false".

(** The locals of the download loop. *)
Record apply_state := {
  ap_decoder : CompleteLineDecoder;
  ap_batch : list FileChange;
  ap_checkpoint : N;
  ap_lines : N;
  ap_first : bool;
}.

Section Delta.
Context `{UrlLib} (self : IdListSyncWorker).

Definition ensure_current_version_persisted (skh list : string) (state : ListSyncState)
    : prog WorkerError bool :=
  if str_empty (version state) then Ret false
  else
    let key := fwd_key (schema self) skh list (version state) in
    _ ← get_conn;
    ttl ← redis (TTL key);
    if bool_decide (ttl < 0)%Z then Ret false
    else
      persisted ← write (PERSIST key);
      Ret (bool_decide (persisted = 1%N)).

Definition change_cmd (change : FileChange) (key value : string) : wcmd :=
  if add change then SADD key value else SREM key value.

(** The two adjacent mutations of one delta line. *)
Definition delta_cmds (skh : string) (token : N) (forward_key : string) (change : FileChange)
    : list wcmd :=
  (if enable_reverse_index (config self)
   then [change_cmd change (member_key (schema self) skh (member change)) (show_u64 token)] else [])
  ++ [change_cmd change forward_key (member change)].

Definition load_cmds (forward_key : string) (changes : list FileChange) (first_load_batch : bool)
    : list wcmd :=
  ((fun change => change_cmd change forward_key (member change)) <$> changes)
  ++ (if first_load_batch && existsb add changes
      then [EXPIRE forward_key (Z.of_N PENDING_VERSION_TTL_S)] else []).

Definition apply_file_batch (skh : string) (mode : FileApplyMode) (changes : list FileChange)
    (checkpoint : N) (first_load_batch : bool) : prog WorkerError unit :=
  _ ← get_conn;
  _ ← match mode with
      | ModeDelta token forward_key _ =>
          _ ← pipe (concat (delta_cmds skh token forward_key <$> changes)); Ret tt
      | ModeLoad forward_key _ => pipe_atomic (load_cmds forward_key changes first_load_batch)
      end;
  let '(state_key, field) :=
    match mode with
    | ModeDelta _ _ state_key => (state_key, state_fields.SIZE)
    | ModeLoad _ state_key => (state_key, state_fields.LOADING_SIZE)
    end in
  let '(forward_key, cardinality_field) :=
    match mode with
    | ModeDelta _ forward_key _ => (forward_key, state_fields.CARDINALITY)
    | ModeLoad forward_key _ => (forward_key, state_fields.LOADING_CARDINALITY)
    end in
  cardinality ← redis (SCARD forward_key);
  _ ← write (HSET state_key [(field, show_u64 checkpoint);
                             (cardinality_field, show_u64 cardinality)]);
  Ret tt.

(** The [for decoded in ..] loop. *)
Fixpoint apply_decoded (skh : string) (mode : FileApplyMode) (lines : list DecodedLine)
    (st : apply_state) : prog WorkerError apply_state :=
  match lines with
  | [] => Ret st
  | decoded :: lines' =>
      let batch := ap_batch st ++ match change decoded with Some c => [c] | None => [] end in
      let n := (ap_lines st + match change decoded with Some _ => 1 | None => 0 end)%N in
      if bool_decide (pipeline_batch_size (config self) <= N.of_nat (length batch))%N then
        let load_created_key :=
          match mode with ModeLoad _ _ => existsb add batch | ModeDelta _ _ _ => false end in
        _ ← apply_file_batch skh mode batch (end_offset decoded) (ap_first st);
        apply_decoded skh mode lines'
          {| ap_decoder := ap_decoder st; ap_batch := []; ap_checkpoint := end_offset decoded;
             ap_lines := n; ap_first := if load_created_key then false else ap_first st |}
      else
        apply_decoded skh mode lines'
          {| ap_decoder := ap_decoder st; ap_batch := batch; ap_checkpoint := end_offset decoded;
             ap_lines := n; ap_first := ap_first st |}
  end.

(** The [while let Some(chunk) = stream.next().await] loop. *)
Fixpoint stream_loop (fuel : nat) (skh : string) (mode : FileApplyMode) (stream : byte_stream)
    (st : apply_state) : prog WorkerError apply_state :=
  match fuel with
  | O => OutOfFuel
  | S fuel' =>
      next ← stream_next stream;
      match next with
      | None => Ret st
      | Some (chunk, stream') =>
          _ ← ensure_held;
          chunk ← lift_result chunk;
          '(decoder, lines) ← lift_result (push (ap_decoder st) chunk);
          st' ← apply_decoded skh mode lines
                  {| ap_decoder := decoder; ap_batch := ap_batch st;
                     ap_checkpoint := ap_checkpoint st; ap_lines := ap_lines st;
                     ap_first := ap_first st |};
          stream_loop fuel' skh mode stream' st'
      end
  end.

(** A response body ends by itself; a chunked download is bounded by the model. *)
Definition stream_fuel (s : byte_stream) : nat :=
  match s with Direct body => S (length body) | Chunked _ _ _ _ _ => stream_rounds self end.

Definition apply_file_stream (skh url : string) (start file_size : N) (mode : FileApplyMode)
    : prog WorkerError StreamApplyResult :=
  stream ← download_file url start file_size;
  st ← stream_loop (stream_fuel stream) skh mode stream
         {| ap_decoder := decoder_new start; ap_batch := []; ap_checkpoint := start;
            ap_lines := 0; ap_first := true |};
  _ ← (if bool_decide (start < ap_checkpoint st)%N
       then apply_file_batch skh mode (ap_batch st) (ap_checkpoint st) (ap_first st)
       else Ret tt);
  Ret {| sar_lines := ap_lines st; sar_checkpoint := ap_checkpoint st;
         sar_partial_trailing_line := has_partial_line (ap_decoder st) |}.

Definition apply_delta (skh list : string) (state : ListSyncState) (meta : TaskMetadata)
    : prog WorkerError unit :=
  if negb (bool_decide (tm_file_id meta = file_id state))
  then Throw (InvalidTask "delta file_id does not match state")
  else
    _ ← ensure_current_version_persisted skh list state;
    token ← get_or_allocate_token (schema self) skh list;
    let state_key := state_key (schema self) skh list in
    let forward_key := fwd_key (schema self) skh list (version state) in
    applied ← apply_file_stream skh (tm_url meta) (size_ state) (tm_size meta)
                (ModeDelta token forward_key state_key);
    if bool_decide (sar_checkpoint applied < tm_size meta)%N then
      Throw (InvalidFile ("download ended at complete-line offset "
        +:+ show_u64 (sar_checkpoint applied) +:+ ", before task size " +:+ show_u64 (tm_size meta)
        +:+ " (partial trailing line: " +:+ show_bool (sar_partial_trailing_line applied) +:+ ")"))
    else Ret tt.
End Delta.

(** ** Lemmas: one batch *)

Definition change_set (c : FileChange) (S : gset string) : gset string :=
  if add c then {[member c]} ∪ S else S ∖ {[member c]}.

(** What the commands of a batch do to the view: the token in the member set
    when [rev] is maintained, and the forward set of [ver]. *)
Definition change_views (ver : string) (rev : bool) (c : FileChange) : list (lview -> lview) :=
  (if rev then [set_rev (member c) (add c)] else []) ++ [set_fwd ver (change_set c)].

(** [w] is [v] with the changes [cs] applied, up to the members of [lost]. *)
Record applied (ver : string) (rev : bool) (cs lost : list FileChange) (v w : lview) : Prop := {
  app_fwd x : last_change x lost = None ->
    (x ∈ v_fwd w ver <-> after cs (.∈ v_fwd v ver) x);
  app_rev x : last_change x lost = None -> rev = true -> (v_rev w x <-> after cs (v_rev v) x);
  app_norev x : rev = false -> (v_rev w x <-> v_rev v x);
  app_other u : u <> ver -> v_fwd w u = v_fwd v u;
}.

Lemma applied_refl ver rev v : applied ver rev [] [] v v.
Proof. by constructor. Qed.

Lemma after_change_set c S x : x ∈ change_set c S <-> after [c] (.∈ S) x.
Proof.
  unfold after, last_change, change_set. simpl. case_decide; destruct (add c); set_solver.
Qed.

(** One more change, fully applied. *)
Lemma applied_change ver rev cs v w c :
  applied ver rev cs [] v w -> applied ver rev (cs ++ [c]) [] v (apply_all (change_views ver rev c) w).
Proof.
  intros [Hf Hr Hn Ho]. constructor.
  - intros x _. rewrite after_app, <- (after_ext [c] (.∈ v_fwd w ver)); [|by apply Hf].
    rewrite <- after_change_set. unfold change_views, apply_all.
    destruct rev; simpl; by rewrite decide_True.
  - intros x _ ->. rewrite after_app, <- (after_ext [c] (v_rev w)); [|by apply Hr].
    unfold after, last_change. simpl. repeat case_decide; congruence || done.
  - intros x ->. simpl. by apply Hn.
  - intros u Hu. rewrite <- (Ho u) by done. unfold change_views, apply_all.
    destruct rev; simpl; by rewrite decide_False.
Qed.

Lemma applied_lost_mono ver rev cs lost lost' v w :
  applied ver rev cs lost v w -> (forall x, last_change x lost' = None -> last_change x lost = None) ->
  applied ver rev cs lost' v w.
Proof. intros [Hf Hr Hn Ho] Hl. constructor; auto. Qed.

(** Changes that were applied but not checkpointed count as lost. *)
Lemma applied_as_lost ver rev cs batch v w :
  applied ver rev (cs ++ batch) [] v w -> applied ver rev cs batch v w.
Proof.
  intros [Hf Hr Hn Ho]. constructor; [| |done|done].
  - intros x Hx. rewrite Hf by done. rewrite after_app. unfold after at 1. by rewrite Hx.
  - intros x Hx Hrev. rewrite Hr by done. rewrite after_app. unfold after at 1. by rewrite Hx.
Qed.

(** One command of the batch keeps everything the batch does not mention. *)
Lemma applied_touch ver rev cs lost v w c f :
  applied ver rev cs lost v w -> c ∈ lost -> f ∈ change_views ver rev c ->
  applied ver rev cs lost v (f w).
Proof.
  intros [Hf Hr Hn Ho] Hc Hin.
  assert (forall x, last_change x lost = None -> member c <> x) as Hmem.
  { intros x Hx. by apply (proj1 (last_change_None _ _) Hx). }
  unfold change_views in Hin. apply elem_of_app in Hin as [Hin| ->%list_elem_of_singleton].
  - destruct rev; [|by apply elem_of_nil in Hin]. apply list_elem_of_singleton in Hin as ->.
    constructor; simpl; [done| |done|done]. intros x Hx _. specialize (Hmem x Hx).
    rewrite decide_False by congruence. by apply Hr.
  - constructor; simpl; auto.
    + intros x Hx. rewrite decide_True by done. specialize (Hmem x Hx). rewrite <- Hf by done.
      unfold change_set. destruct (add c); set_solver.
    + intros u Hu. rewrite decide_False by done. by apply Ho.
Qed.

Lemma applied_equiv ver rev cs lost v w w' :
  w ≡ w' -> applied ver rev cs lost v w -> applied ver rev cs lost v w'.
Proof.
  intros (Hs & Hf & Hr & _) [Af Ar An Ao]. constructor.
  - intros x Hx. rewrite <- Hf. by apply Af.
  - intros x Hx Hrev. rewrite <- Hr. by apply Ar.
  - intros x Hrev. rewrite <- Hr. by apply An.
  - intros u Hu. rewrite <- Hf. by apply Ao.
Qed.

Lemma applied_partial ver rev cs batch fs v w w' :
  partial fs w w' -> (forall f, f ∈ fs -> f = id \/ exists c, c ∈ batch /\ f ∈ change_views ver rev c) ->
  applied ver rev cs batch v w -> applied ver rev cs batch v w'.
Proof.
  intros Hp. induction Hp as [w w' Heq|f fs w w' Hp IH|f fs w w' Hp IH]; intros Hfs Ha.
  - by eapply applied_equiv.
  - apply IH; [set_solver|]. destruct (Hfs f) as [->|(c & Hc & Hf)]; [by left|done|].
    by eapply applied_touch.
  - apply IH; [set_solver|done].
Qed.

Lemma applied_batch ver rev cs batch v w :
  applied ver rev cs [] v w ->
  applied ver rev (cs ++ batch) [] v (apply_all (concat (change_views ver rev <$> batch)) w).
Proof.
  revert cs w. induction batch as [|c batch IH]; intros cs w Ha; simpl; [by rewrite app_nil_r|].
  unfold apply_all. rewrite foldl_app. change (c :: batch) with ([c] ++ batch). rewrite app_assoc.
  apply IH. by apply applied_change.
Qed.

Lemma state_change_views ver rev batch v :
  v_state (apply_all (concat (change_views ver rev <$> batch)) v) = v_state v.
Proof.
  revert v. induction batch as [|c batch IH]; intros v; simpl; [done|].
  unfold apply_all in *. rewrite foldl_app, IH. by destruct rev.
Qed.

Lemma state_partial fs v w :
  partial fs v w -> (forall f u, f ∈ fs -> v_state (f u) = v_state u) -> v_state w = v_state v.
Proof.
  intros Hp. induction Hp as [v w (Hs & _)|f fs v w Hp IH|f fs v w Hp IH]; intros Hfs; [done| |].
  - rewrite IH by set_solver. apply Hfs. by left.
  - apply IH. set_solver.
Qed.

Lemma change_views_state ver rev c f u : f ∈ change_views ver rev c -> v_state (f u) = v_state u.
Proof. unfold change_views. destruct rev; set_solver. Qed.

(** ** Lemmas: the stream *)

Section Stream.
Context `{UrlLib} `{ScanOrder} (self : IdListSyncWorker) (skh list : string) (tok : N).
Context (Hns : namespace_ok skh) (env : environment).
Context (Hrely : forall ks ks', rely env ks ks' -> same_view (schema self) skh list tok ks ks').
Context (url : string) (F : bytes).
Context (Horigin : forall q r, http_ok env q r -> origin_serves url F q r).
Abbreviation shows := (shows (schema self) skh list tok).
Abbreviation fkey := (fkey (schema self) skh list).
Abbreviation skey := (skey (schema self) skh list).

(** The two uses of the stream on version [ver], and the fields they checkpoint. *)
Context (ver : string) (is_delta : bool).
Definition mode : FileApplyMode :=
  if is_delta then ModeDelta tok (fkey ver) skey else ModeLoad (fkey ver) skey.
Definition size_field : string :=
  if is_delta then state_fields.SIZE else state_fields.LOADING_SIZE.
Definition card_field : string :=
  if is_delta then state_fields.CARDINALITY else state_fields.LOADING_CARDINALITY.
Definition touches_rev : bool := is_delta && enable_reverse_index (config self).

Lemma acts_change_fwd c :
  acts (schema self) skh list tok (change_cmd c (fkey ver) (member c)) (set_fwd ver (change_set c)).
Proof.
  unfold change_cmd, change_set. destruct (add c); [by apply acts_sadd_fwd|by apply acts_srem_fwd].
Qed.

Lemma acts_change_rev c :
  acts (schema self) skh list tok
    (change_cmd c (member_key (schema self) skh (member c)) (show_u64 tok))
    (set_rev (member c) (add c)).
Proof.
  unfold change_cmd. destruct (add c); [by apply acts_sadd_member|by apply acts_srem_member].
Qed.

Lemma acts_delta_cmds batch : is_delta = true ->
  Forall2 (acts (schema self) skh list tok)
    (concat (delta_cmds self skh tok (fkey ver) <$> batch))
    (concat (change_views ver touches_rev <$> batch)).
Proof.
  intros Hd. induction batch as [|c batch IH]; simpl; [constructor|].
  apply Forall2_app; [|done]. unfold delta_cmds, change_views, touches_rev. rewrite Hd. simpl.
  destruct (enable_reverse_index (config self)); simpl.
  - constructor; [apply acts_change_rev|constructor; [apply acts_change_fwd|constructor]].
  - constructor; [apply acts_change_fwd|constructor].
Qed.

Definition expire_views (first : bool) (batch : Datatypes.list FileChange)
    : Datatypes.list (lview -> lview) :=
  if first && existsb add batch then [id] else [].

Lemma acts_load_cmds batch first : is_delta = false ->
  Forall2 (acts (schema self) skh list tok) (load_cmds (fkey ver) batch first)
    (concat (change_views ver touches_rev <$> batch) ++ expire_views first batch).
Proof.
  intros Hd. unfold load_cmds. apply Forall2_app.
  - unfold touches_rev. rewrite Hd. simpl. induction batch as [|c batch IH]; simpl; [constructor|].
    constructor; [apply acts_change_fwd|done].
  - unfold expire_views. destruct (first && existsb add batch); [|constructor].
    constructor; [|constructor]. by apply acts_expire.
Qed.

Context (start : N) (v0 : lview).
Abbreviation L := (file_lines (drop (N.to_nat start) F)).

(** The state hash after the first [j] lines are checkpointed. *)
Definition checkpointed (j : nat) (s : gmap string string) : Prop :=
  (j = 0 /\ s = v_state v0) \/
  exists c, s = <[card_field := c]> (<[size_field := show_u64 (line_offset F start j)]> (v_state v0)).

(** The first [j] lines are applied and checkpointed; of the lines up to [i],
    some commands may have been applied. *)
Definition progress (j i : nat) (w : lview) : Prop :=
  j <= i /\ i <= length L /\ checkpointed j (v_state w) /\
  exists done batch, line_changes (take j L) = Ok done /\
    line_changes (take i L) = Ok (done ++ batch) /\ applied ver touches_rev done batch v0 w.

Lemma checkpointed_hset j i w c :
  checkpointed j (v_state w) ->
  checkpointed i (hset_fields [(size_field, show_u64 (line_offset F start i)); (card_field, c)] (v_state w)).
Proof.
  assert (size_field <> card_field) as Hne by (unfold size_field, card_field; by destruct is_delta).
  intros [[_ ->]|[c' ->]]; right; exists c; simpl; [done|].
  rewrite (insert_insert_ne _ size_field card_field) by done.
  rewrite insert_insert_eq. rewrite (insert_insert_ne _ card_field size_field) by done.
  rewrite (insert_insert_ne _ size_field card_field) by done. by rewrite !insert_insert_eq.
Qed.

Definition failed_view (ks : keyspace) : Prop := exists j i w, progress j i w /\ shows ks w.

(** Applying the batch of lines [j] to [i] and checkpointing it. *)
Lemma wp_apply_file_batch j i w done batch first (Q : outcome WorkerError unit -> keyspace -> Prop) ks :
  progress j j w -> line_changes (take j L) = Ok done ->
  j <= i -> i <= length L -> line_changes (take i L) = Ok (done ++ batch) ->
  shows ks w ->
  (forall w' ks', progress i i w' -> shows ks' w' -> Q (Returned tt) ks') ->
  (forall e ks', failed_view ks' -> Q (Failed e) ks') ->
  wp env (apply_file_batch self skh mode batch (line_offset F start i) first) Q ks.
Proof.
  intros (Hjj & HjL & Hck & done' & lost & Hdone' & Hlost & Happ) Hdone Hji HiL Hbatch Hv Hok Herr.
  assert (done' = done) as -> by congruence.
  assert (lost = []) as ->.
  { rewrite Hdone in Hlost. injection Hlost as Hl.
    apply (f_equal length) in Hl. rewrite length_app in Hl. destruct lost; [done|simpl in Hl; lia]. }
  set (fs := concat (change_views ver touches_rev <$> batch)).
  assert (forall w', partial (fs ++ expire_views first batch) w w' \/ partial fs w w' ->
            progress j i w') as Hfail.
  { intros w' Hp.
    assert (forall f, f ∈ fs -> exists c, c ∈ batch /\ f ∈ change_views ver touches_rev c) as Hin.
    { intros f Hf. unfold fs in Hf. apply list_elem_of_In, in_concat in Hf as (l & Hl & Hf).
      apply list_elem_of_In, list_elem_of_fmap in Hl as (c & -> & Hc).
      apply list_elem_of_In in Hf. by exists c. }
    assert (v_state w' = v_state w /\ applied ver touches_rev done batch v0 w') as [Hs Ha].
    { assert (applied ver touches_rev done batch v0 w) as Ha
        by (by eapply applied_lost_mono).
      assert (forall f, f ∈ expire_views first batch -> f = id) as Hid
        by (unfold expire_views; destruct (first && existsb add batch); set_solver).
      destruct Hp as [Hp|Hp].
      - split; [eapply state_partial; [exact Hp|]|eapply applied_partial; [exact Hp| |done]].
        + intros f u [Hf|Hf]%elem_of_app; [|by rewrite (Hid f Hf)].
          destruct (Hin f Hf) as (c & _ & Hc). by eapply change_views_state.
        + intros f [Hf|Hf]%elem_of_app; [right; by apply Hin|left; by apply Hid].
      - split; [eapply state_partial; [exact Hp|]|eapply applied_partial; [exact Hp| |done]].
        + intros f u Hf. destruct (Hin f Hf) as (c & _ & Hc). by eapply change_views_state.
        + intros f Hf. right. by apply Hin. }
    split_and!; [done|done|by rewrite Hs|]. exists done, batch. done. }
  assert (forall w' ks', v_state w' = v_state w -> applied ver touches_rev (done ++ batch) [] v0 w' ->
    shows ks' w' ->
    wp env (
      cardinality ← redis (SCARD (fkey ver));
      _ ← write (HSET skey [(size_field, show_u64 (line_offset F start i));
                            (card_field, show_u64 cardinality)]);
      Ret tt) Q ks') as Htail.
  { intros w' ks' Hs Ha Hv'. apply wp_bind.
    eapply (wp_scard_fwd _ _ _ _ env Hrely ver); [exact Hv'| |].
    - clear ks' Hv'. intros ks' Hv'. apply wp_bind.
      set (card := N.of_nat (size (v_fwd w' ver))).
      assert (progress i i (set_state (hset_fields [(size_field, show_u64 (line_offset F start i));
        (card_field, show_u64 card)]) w')) as Hprog.
      { split_and!; [done|done| |].
        - simpl. apply (checkpointed_hset j). by rewrite Hs.
        - exists (done ++ batch), []. rewrite app_nil_r. split_and!; [done|done|].
          destruct Ha as [Af Ar An Ao]. by constructor. }
      eapply (wp_write _ _ _ _ env Hrely); [by apply acts_hset|exact Hv'| |].
      + intros n ks2 Hv2. eapply Hok; [exact Hprog|exact Hv2].
      + intros e ks2 [Hv2|Hv2]; apply Herr; [|eexists i, i, _; split; [exact Hprog|exact Hv2]].
        exists j, i, w'. split; [|done]. split_and!; [done|done|by rewrite Hs|].
        exists done, batch. split_and!; [done|done|]. by apply applied_as_lost.
    - intros e ks2 Hv2. apply Herr. exists j, i, w'. split; [|done].
      split_and!; [done|done|by rewrite Hs|].
      exists done, batch. split_and!; [done|done|]. by apply applied_as_lost. }
  unfold apply_file_batch. apply wp_bind.
  assert (failed_view ks) as Hfv0.
  { exists j, i, w. split; [|done]. apply Hfail. right. apply partial_none. }
  eapply (wp_conn _ _ _ _ env Hrely); [exact Hv| |].
  2:{ intros e ks' Hv'. apply Herr. exists j, i, w. split; [|done]. apply Hfail. right. apply partial_none. }
  clear ks Hv Hfv0. intros ks Hv. apply wp_bind. unfold mode, size_field, card_field in *.
  destruct is_delta eqn:Hd.
  - apply wp_bind. eapply (wp_pipe _ _ _ _ env Hrely); [by apply acts_delta_cmds|exact Hv| |].
    + intros ns ks' Hv'. simpl. eapply Htail; [|by apply applied_batch|exact Hv'].
      apply state_change_views.
    + intros e ks' w' Hp Hv'. apply Herr. exists j, i, w'. split; [|done]. apply Hfail. by right.
  - eapply (wp_pipe_atomic _ _ _ _ env Hrely); [by apply acts_load_cmds|exact Hv| |].
    + intros ks' Hv'. simpl. unfold apply_all in Hv'. rewrite foldl_app in Hv'.
      assert (forall u, foldl (fun v f => f v) u (expire_views first batch) = u) as Hid
        by (intros u; unfold expire_views; by destruct (first && existsb add batch)).
      rewrite Hid in Hv'. eapply Htail; [|by apply applied_batch|exact Hv'].
      apply state_change_views.
    + intros e ks' w' Hp Hv'. apply Herr. exists j, i, w'. split; [|done]. apply Hfail. by left.
Qed.

(** The locals of the loop after [i] complete lines. *)
Definition loop_inv (i : nat) (st : apply_state) (ks : keyspace) : Prop :=
  exists j w done, progress j j w /\ line_changes (take j L) = Ok done /\ j <= i /\ i <= length L /\
    line_changes (take i L) = Ok (done ++ ap_batch st) /\
    ap_checkpoint st = line_offset F start i /\ shows ks w.

Lemma loop_inv_failed i st ks : loop_inv i st ks -> failed_view ks.
Proof. intros (j & w & done & Hp & _ & _ & _ & _ & _ & Hv). by exists j, j, w. Qed.

Lemma loop_inv_shows i st ks : loop_inv i st ks ->
  exists w, shows ks w /\ forall ks', shows ks' w -> loop_inv i st ks'.
Proof.
  intros (j & w & done & Hp & Hd & Hji & Hi & Hb & Hck & Hv). exists w. split; [done|].
  intros ks' Hv'. by exists j, w, done.
Qed.

Lemma line_offset_S i l : L !! i = Some l ->
  line_offset F start (S i) = (line_offset F start i + N.of_nat (length l) + 1)%N.
Proof.
  intros Hl. unfold line_offset. rewrite (take_S_r _ _ _ Hl). rewrite <- !length_unlines, unlines_app.
  rewrite length_app, unlines_cons. rewrite length_app. simpl. lia.
Qed.

Lemma wp_apply_decoded ls dl i st (Q : outcome WorkerError apply_state -> keyspace -> Prop) ks :
  decode_lines (line_offset F start i) ls = Ok dl ->
  take (length ls) (drop i L) = ls ->
  loop_inv i st ks ->
  (forall st' ks', loop_inv (i + length ls) st' ks' -> ap_decoder st' = ap_decoder st ->
     Q (Returned st') ks') ->
  (forall e ks', failed_view ks' -> Q (Failed e) ks') ->
  wp env (apply_decoded self skh mode dl st) Q ks.
Proof.
  revert dl i st ks. induction ls as [|l ls IH]; intros dl i st ks Hdl Hls Hinv Hok Herr; simpl in Hdl.
  - injection Hdl as <-. simpl in *. apply Hok; [|done]. by rewrite Nat.add_0_r.
  - destruct (decode_line l) as [c|] eqn:Hc; simpl in Hdl; [|done].
    destruct (decode_lines _ ls) as [dl'|] eqn:Hdl'; simpl in Hdl; [|done]. injection Hdl as <-.
    assert (L !! i = Some l /\ take (length ls) (drop (S i) L) = ls) as [Hl Hls'].
    { simpl in Hls. destruct (drop i L) as [|l' ds] eqn:Hdrop; [done|]. simpl in Hls.
      injection Hls as -> Hls. split.
      - rewrite <- (Nat.add_0_r i), <- lookup_drop, Hdrop. done.
      - rewrite <- (Nat.add_1_r i), <- drop_drop, Hdrop. done. }
    rewrite <- (line_offset_S i l Hl) in Hdl'.
    destruct Hinv as (j & w & done & Hp & Hd & Hji & Hi & Hb & Hck & Hv).
    assert (line_changes (take (S i) L) = Ok (done ++ (ap_batch st ++
      match c with Some c => [c] | None => [] end))) as Hb'.
    { rewrite (take_S_r _ _ _ Hl), app_assoc. by apply line_changes_snoc. }
    apply lookup_lt_Some in Hl as HiL.
    cbn [apply_decoded change end_offset]. destruct (bool_decide _).
    + apply wp_bind. rewrite <- (line_offset_S i l Hl).
      eapply (wp_apply_file_batch j (S i)); [done|done|lia|lia|exact Hb'|done| |done].
      intros w' ks' Hp' Hv'. eapply (IH dl' (S i)); [done|done| | |done].
      * exists (S i), w', (done ++ (ap_batch st ++ match c with Some c => [c] | None => [] end)).
        cbn [ap_batch ap_checkpoint]. rewrite app_nil_r. split_and!; [done|done|lia|lia|done|done|done].
      * intros st' ks2 Hi' Hdec. apply Hok; [|done]. simpl. by rewrite Nat.add_succ_r.
    + rewrite <- (line_offset_S i l Hl). eapply (IH dl' (S i)); [done|done| | |done].
      * exists j, w, done. simpl. split_and!; [done|done|lia|lia|done|done|done].
      * intros st' ks2 Hi' Hdec. apply Hok; [|done]. simpl. by rewrite Nat.add_succ_r.
Qed.

(** The decoder after the bytes [B] of the file from [start] on. *)
Definition decoder_at (B : bytes) (d : CompleteLineDecoder) : Prop :=
  B `prefix_of` drop (N.to_nat start) F /\ pending d = file_tail B /\
  next_offset d = (start + lines_bytes (file_lines B))%N.

Lemma decoder_lines B d : decoder_at B d ->
  take (length (file_lines B)) L = file_lines B /\
  next_offset d = line_offset F start (length (file_lines B)).
Proof.
  intros (Hpre & _ & Hoff). destruct (file_lines_prefix _ _ Hpre) as [r Hr].
  assert (take (length (file_lines B)) L = file_lines B) as Ht by (rewrite Hr; apply take_app_length).
  split; [done|]. unfold line_offset. by rewrite Ht.
Qed.

Lemma decoder_push B d chunk d' dl :
  decoder_at B d -> chunk `prefix_of` drop (N.to_nat (start + N.of_nat (length B))) F ->
  push d chunk = Ok (d', dl) ->
  let ls := file_lines (file_tail B ++ chunk) in
  decoder_at (B ++ chunk) d' /\ file_lines (B ++ chunk) = file_lines B ++ ls /\
  decode_lines (line_offset F start (length (file_lines B))) ls = Ok dl /\
  take (length ls) (drop (length (file_lines B)) L) = ls.
Proof.
  intros Hat Hpre Hpush ls. destruct (decoder_lines _ _ Hat) as [Ht Hoff].
  destruct Hat as ([r Hr] & Hpend & Hnext).
  rewrite push_lines, Hpend in Hpush. simpl in Hpush.
  destruct (decode_lines _ _) as [dl'|] eqn:Hdl; simpl in Hpush; [|done]. injection Hpush as <- <-.
  destruct (file_lines_app B chunk) as [HL HT].
  assert (B ++ chunk `prefix_of` drop (N.to_nat start) F) as Hpre'.
  { rewrite N2Nat.inj_add, Nat2N.id, <- drop_drop in Hpre. rewrite Hr, drop_app_length in Hpre.
    rewrite Hr. by apply prefix_app. }
  split_and!; [|done|by rewrite <- Hoff|].
  - split_and!; [done|done|]. simpl. rewrite Hnext, HL.
    rewrite <- !length_unlines, unlines_app, length_app. lia.
  - destruct (file_lines_prefix _ _ Hpre') as [r' Hr']. rewrite Hr', HL, <- app_assoc.
    rewrite drop_app_length. apply take_app_length.
Qed.

Lemma wp_stream_loop fuel B s st (Q : outcome WorkerError apply_state -> keyspace -> Prop) ks :
  decoder_at B (ap_decoder st) -> stream_at url F (start + N.of_nat (length B)) s ->
  rounds_left F (start + N.of_nat (length B)) s < fuel ->
  loop_inv (length (file_lines B)) st ks ->
  (forall i st' ks', loop_inv i st' ks' -> Q (Returned st') ks') ->
  (forall e ks', failed_view ks' -> Q (Failed e) ks') ->
  wp env (stream_loop self fuel skh mode s st) Q ks.
Proof.
  revert B s st ks. induction fuel as [|fuel IH]; intros B s st ks Hdec Hat Hfuel Hinv Hok Herr; [lia|].
  cbn [stream_loop]. apply wp_bind. eapply wp_mono; [by apply (wp_stream_next env url F Horigin)|].
  intros out ks' [-> Hout]. destruct out as [[[[chunk|e] s']|]| |]; [| |by eapply Hok|done..].
  2:{ cbn beta iota. apply wp_bind. destruct (loop_inv_shows _ _ _ Hinv) as (w & Hw & Hback).
      eapply (wp_ensure_held (schema self) skh list tok env); [exact Hw| |].
      - intros ks' Hw'. simpl. eapply Herr, loop_inv_failed, Hback, Hw'.
      - intros e' ks' Hw'. eapply Herr, loop_inv_failed, Hback, Hw'. }
  destruct Hout as (Hpre & Hat' & Hrounds). cbn beta iota. apply wp_bind.
  destruct (loop_inv_shows _ _ _ Hinv) as (w & Hw & Hback).
  eapply (wp_ensure_held (schema self) skh list tok env); [exact Hw| |].
  2:{ intros e' ks' Hw'. eapply Herr, loop_inv_failed, Hback, Hw'. }
  intros ks' Hw'. apply Hback in Hw' as Hinv'. simpl. clear ks Hinv Hw Hback Hw'.
  apply wp_bind, wp_lift_result; [|intros e _; by eapply Herr, loop_inv_failed].
  intros [d' dl] Hpush.
  destruct (decoder_push _ _ _ _ _ Hdec Hpre Hpush) as (Hdec' & HL & Hdl & Hls).
  apply wp_bind. eapply wp_apply_decoded; [exact Hdl|exact Hls|exact Hinv'| |done].
  intros st' ks2 Hinv2 Hd'. simpl in Hd'.
  rewrite <- length_app, <- HL in Hinv2.
  eapply (IH (B ++ chunk)); [by rewrite Hd'| | |exact Hinv2|done|done];
    rewrite length_app, Nat2N.inj_add, N.add_assoc; [done|lia].
Qed.

Lemma wp_apply_file_stream file_size (Q : outcome WorkerError StreamApplyResult -> keyspace -> Prop) ks :
  length F + 2 <= stream_rounds self ->
  shows ks v0 ->
  (forall i r w ks', progress i i w -> sar_checkpoint r = line_offset F start i -> shows ks' w ->
     Q (Returned r) ks') ->
  (forall e ks', failed_view ks' -> Q (Failed e) ks') ->
  wp env (apply_file_stream self skh url start file_size mode) Q ks.
Proof.
  intros Hrounds Hv Hok Herr. unfold apply_file_stream.
  assert (progress 0 0 v0) as Hp0.
  { split_and!; [lia|lia|by left|]. exists [], []. split_and!; [done|done|]. apply applied_refl. }
  assert (failed_view ks) as Hf0 by (by exists 0, 0, v0).
  apply wp_bind. eapply wp_mono; [apply (wp_download_file env url F Horigin)|].
  intros out ks' [-> Hout]. destruct out as [s|e|]; [|by apply Herr|done].
  apply wp_bind. eapply (wp_stream_loop _ []); simpl.
  - split_and!; [apply prefix_nil|done|]. simpl. lia.
  - by rewrite N.add_0_r.
  - rewrite N.add_0_r. destruct s as [body|? ? ? ? snap]; simpl; [lia|]. destruct snap; lia.
  - exists 0, v0, []. split_and!; [done|done|lia|lia|done| |done]. simpl. unfold line_offset. simpl. lia.
  - intros i st ks' Hinv. apply wp_bind.
    destruct Hinv as (j & w & done & Hp & Hd & Hji & Hi & Hb & Hck & Hw). case_bool_decide as Hlt.
    + rewrite Hck. eapply (wp_apply_file_batch j i); [done|exact Hd|done|done|exact Hb|done| |done].
      intros w' ks2 Hp' Hw'. simpl. eapply Hok; [exact Hp'|done|done].
    + simpl. assert (i = 0) as ->.
      { rewrite Hck in Hlt. unfold line_offset in Hlt. destruct i as [|i]; [done|].
        destruct L as [|l ls]; simpl in *; lia. }
      assert (j = 0) as -> by lia. eapply (Hok 0); [exact Hp|done|done].
  - done.
Qed.

(** What a run of the stream leaves of the list's files and fields. *)
Lemma progress_tracks j i w :
  tracks F start (.∈ v_fwd v0 ver) -> progress j i w ->
  tracks F (line_offset F start j) (.∈ v_fwd w ver) /\
  (touches_rev = true -> tracks F start (v_rev v0) -> tracks F (line_offset F start j) (v_rev w)) /\
  (touches_rev = false -> forall x, v_rev w x <-> v_rev v0 x) /\
  (forall u, u <> ver -> v_fwd w u = v_fwd v0 u).
Proof.
  intros Ht (Hji & Hi & Hck & done & batch & Hd & Hb & [Af Ar An Ao]). split_and!; [| |eauto|done].
  - eapply tracks_advance; eauto.
  - intros Hr Htr. eapply tracks_advance; eauto.
Qed.

Lemma checkpointed_other j s f :
  checkpointed j s -> f <> size_field -> f <> card_field -> s !! f = v_state v0 !! f.
Proof. intros [[_ ->]|[c ->]] H1 H2; [done|]. by rewrite !lookup_insert_ne. Qed.

Lemma checkpointed_size j s :
  checkpointed j s -> default 0%N (v_state v0 !! size_field ≫= parse_u64) = start ->
  (line_offset F start j <= u64_max)%N ->
  default 0%N (s !! size_field ≫= parse_u64) = line_offset F start j.
Proof.
  assert (size_field <> card_field) as Hne by (unfold size_field, card_field; by destruct is_delta).
  intros [[-> ->]|[c ->]] Hstart Hb.
  - rewrite Hstart. unfold line_offset. simpl. lia.
  - rewrite lookup_insert_ne by done. rewrite lookup_insert_eq. simpl. by rewrite parse_u64_show.
Qed.
End Stream.

Lemma wp_ensure_persisted `{ScanOrder} self skh list tok env v state
    (Q : outcome WorkerError bool -> keyspace -> Prop) ks :
  namespace_ok skh ->
  (forall ks ks', rely env ks ks' -> same_view (schema self) skh list tok ks ks') ->
  shows (schema self) skh list tok ks v ->
  (forall b ks', shows (schema self) skh list tok ks' v -> Q (Returned b) ks') ->
  (forall e ks', shows (schema self) skh list tok ks' v -> Q (Failed e) ks') ->
  wp env (ensure_current_version_persisted self skh list state) Q ks.
Proof.
  intros Hns Hrely Hv Hok Herr. unfold ensure_current_version_persisted.
  destruct (str_empty (version state)); [by apply Hok|].
  apply wp_bind. eapply (wp_conn _ _ _ _ env Hrely); [exact Hv| |done]. clear ks Hv. intros ks Hv.
  apply wp_bind. eapply (wp_any_read _ _ _ _ env Hrely); [done|exact Hv| |done]. clear ks Hv. intros t ks Hv.
  destruct (bool_decide (t < 0)%Z); [by apply Hok|].
  apply wp_bind. eapply (wp_write _ _ _ _ env Hrely); [apply acts_persist|exact Hv| |].
  - intros n ks' Hv'. by apply Hok.
  - intros e ks' [Hv'|Hv']; by apply Herr.
Qed.

(** The checkpoint of a state read back from its hash. *)
Lemma line_offset_bound F n k : boundary F n -> (line_offset F n k <= N.of_nat (length F))%N.
Proof. intros Hb. destruct (boundary_advance F n k Hb) as ([Hle _] & _). done. Qed.

Section DeltaSpec.
Context `{UrlLib} `{ScanOrder} (self : IdListSyncWorker) (skh list : string) (tok : N).
Context (env : environment) (url : string) (F : bytes) (v0 : lview) (meta : TaskMetadata).
Abbreviation shows := (shows (schema self) skh list tok).
Abbreviation state := (from_hash_fields (v_state v0)).

(** What every run of a delta preserves, with the checkpoint [n] it leaves. *)
Record delta_post (n : N) (w : lview) : Prop := {
  dp_size : size_ (from_hash_fields (v_state w)) = n;
  dp_fields f : f <> state_fields.SIZE -> f <> state_fields.CARDINALITY ->
    v_state w !! f = v_state v0 !! f;
  dp_fwd : tracks F n (.∈ v_fwd w (version state));
  dp_rev : if enable_reverse_index (config self) then tracks F n (v_rev w)
           else forall x, v_rev w x <-> v_rev v0 x;
  dp_other u : u <> version state -> v_fwd w u = v_fwd v0 u;
}.

Context (Hns : namespace_ok skh).
Context (Hrely : forall ks ks', rely env ks ks' -> same_view (schema self) skh list tok ks ks').
Context (Horigin : forall q r, http_ok env q r -> origin_serves url F q r).
Context (Hrounds : length F + 2 <= stream_rounds self).
Context (Hlen : (N.of_nat (length F) <= u64_max)%N).
Context (Htok : v_tok v0 = Some (show_u64 tok)) (Htok64 : is_u64 tok).
Context (Hurl : tm_url meta = url).
Context (Hfwd : tracks F (size_ state) (.∈ v_fwd v0 (version state))).
Context (Hrev : enable_reverse_index (config self) = true -> tracks F (size_ state) (v_rev v0)).

Lemma delta_progress j i w :
  progress self F (version state) true (size_ state) v0 j i w ->
  delta_post (line_offset F (size_ state) j) w.
Proof.
  intros Hp. pose proof Hp as (_ & _ & Hck & _).
  destruct (progress_tracks self F (version state) true (size_ state) v0 j i w Hfwd Hp)
    as (Hf & Hr & Hn & Ho).
  pose proof (line_offset_bound F (size_ state) j ltac:(apply Hfwd)) as Hb.
  constructor; [| |done| |done].
  - eapply (checkpointed_size F true (size_ state) v0); [done|done|lia].
  - intros f H1 H2. by eapply (checkpointed_other F true (size_ state) v0).
  - unfold touches_rev in *. simpl in *. destruct (enable_reverse_index (config self)); auto.
Qed.

Lemma wp_apply_delta ks :
  shows ks v0 ->
  wp env (apply_delta self skh list state meta) (fun out ks' => exists n w,
    shows ks' w /\ delta_post n w /\ (size_ state <= n)%N /\ out <> NoFuel /\
    (out = Returned tt -> (tm_size meta <= n)%N)) ks.
Proof.
  intros Hv. unfold apply_delta.
  set (Q := fun out ks' => exists n w, shows ks' w /\ delta_post n w /\ (size_ state <= n)%N /\
    out <> NoFuel /\ (out = Returned tt -> (tm_size meta <= n)%N)).
  assert (forall j, size_ state <= line_offset F (size_ state) j)%N as Hmono
    by (intros j; unfold line_offset; lia).
  assert (delta_post (line_offset F (size_ state) 0) v0) as Hpost0.
  { apply (delta_progress 0 0). split_and!; [lia|lia|by left|]. exists [], [].
    split_and!; [done|done|apply applied_refl]. }
  assert (forall e ks', shows ks' v0 -> Q (Failed e) ks') as Herr0.
  { intros e ks' Hv'. exists (line_offset F (size_ state) 0), v0. split_and!; [done..|apply Hmono|done|done]. }
  destruct (negb _); [by apply Herr0|].
  apply wp_bind. eapply wp_ensure_persisted; [done|done|exact Hv| |done].
  clear ks Hv. intros b ks Hv. apply wp_bind.
  eapply (wp_get_or_allocate_token _ _ _ _ Hns env Hrely); [exact Hv| |].
  2:{ intros e ks' [Hv'|[Hn _]]; [by apply Herr0|congruence]. }
  clear ks Hv. intros s t ks Hp Hs Hv. assert (s = show_u64 tok) as -> by (destruct Hs; congruence).
  rewrite parse_u64_show in Hp by done. injection Hp as <-.
  assert (set_tok (Some (show_u64 tok)) v0 = v0) as Heq by (unfold set_tok; rewrite <- Htok; by destruct v0).
  rewrite Heq in Hv. clear Heq Hs. apply wp_bind. rewrite Hurl.
  eapply (wp_apply_file_stream self skh list tok Hns env Hrely url F Horigin (version state) true
            (size_ state) v0); [done|exact Hv| |].
  - intros i r w ks' Hprog Hck Hw. cbn beta iota. case_bool_decide as Hlt.
    + exists (line_offset F (size_ state) i), w. split_and!; [done|by eapply delta_progress|apply Hmono|done|done].
    + exists (line_offset F (size_ state) i), w.
      split_and!; [done|by eapply delta_progress|apply Hmono|done|]. intros _. rewrite <- Hck. lia.
  - intros e ks' (j & i & w & Hprog & Hw). exists (line_offset F (size_ state) j), w.
    split_and!; [done|by eapply delta_progress|apply Hmono|done|done].
Qed.
End DeltaSpec.

(** ** Properties *)

(** C2: a delta follows the origin file, whatever happens during it. For a worker
    that owns the list, with an origin serving the append-only file [F], with any
    Redis faults, transport errors, lock loss, chunking and interference of other
    clients: after every run of [apply_delta], successful or not, the forward set
    and (when it is maintained) the reverse index still follow [F] up to the
    checkpoint in the state hash, which never moves backwards; other versions and
    other state fields are untouched; the run does not loop; and a successful run
    leaves a checkpoint at or beyond the task's size. Re-running an interrupted
    delta therefore repairs what the interrupted run half applied. *)
Theorem apply_delta_follows_file `{UrlLib} `{ScanOrder}
    self skh list tok env url F v0 meta ks out ks' :
  namespace_ok skh ->
  (forall ks ks', rely env ks ks' -> same_view (schema self) skh list tok ks ks') ->
  (forall q r, http_ok env q r -> origin_serves url F q r) ->
  length F + 2 <= stream_rounds self -> (N.of_nat (length F) <= u64_max)%N ->
  v_tok v0 = Some (show_u64 tok) -> is_u64 tok -> tm_url meta = url ->
  let state := from_hash_fields (v_state v0) in
  tracks F (size_ state) (.∈ v_fwd v0 (version state)) ->
  (enable_reverse_index (config self) = true -> tracks F (size_ state) (v_rev v0)) ->
  shows (schema self) skh list tok ks v0 ->
  runs env (apply_delta self skh list state meta) ks out ks' ->
  exists n w, shows (schema self) skh list tok ks' w /\ delta_post self F v0 n w /\
    (size_ state <= n)%N /\ out <> NoFuel /\ (out = Returned tt -> (tm_size meta <= n)%N).
Proof.
  intros Hns Hrely Horigin Hr Hl Ht Ht64 Hu state Hf Hrev Hv Hrun.
  exact (wp_adequate _ _ _ _ _ _ (wp_apply_delta self skh list tok env url F v0 meta
    Hns Hrely Horigin Hr Hl Ht Ht64 Hu Hf Hrev ks Hv) Hrun).
Qed.

(** A worker, an origin and a list half way through its file. *)
Module DeltaExample.
Definition worker : IdListSyncWorker := {|
  schema := {| key_prefix := "p" |}; claim := {| holder_id := "h" |};
  config := IdListWorkerConfig_default; stream_rounds := 20;
|}.
Definition file : bytes := records ["+a"; "+b"; "-a"].
Definition hash : gmap string string :=
  list_to_map [("version", "f@1"); ("file_id", "f"); ("url", "u"); ("creation_time", "1");
               ("size", "3"); ("cardinality", "1")].
Definition v0 : lview :=
  set_state (fun _ => hash) (set_fwd "f@1" (fun _ => {["a"]}) (set_rev "a" true
    (set_tok (Some "7") empty_view))).
Definition ks : keyspace :=
  put_hash (state_key (schema worker) "aB3/" "l") hash
    (put_set (fwd_key (schema worker) "aB3/" "l" "f@1") {["a"]}
      (put_set (member_key (schema worker) "aB3/" "a") {["7"]}
        (put_hash (dict_key (schema worker) "aB3/") {[name_field "l" := "7"]} ∅))).
Definition meta : TaskMetadata := {|
  tm_op := OpLoad; tm_file_id := "f"; tm_creation_time := 1; tm_url := "u"; tm_size := 9 |}.
Definition env : environment := {|
  rely := same_view (schema worker) "aB3/" "l" 7;
  http_ok := @origin_serves string_urls "u" file;
|}.

Lemma namespace : namespace_ok "aB3/".
Proof. by split. Qed.

Lemma ks_shows : shows (schema worker) "aB3/" "l" 7 ks v0.
Proof.
  apply (shows_put_state _ _ _ _ namespace), (shows_put_fwd _ _ _ _ namespace),
    (shows_put_member _ _ _ _ namespace).
  - pose proof (shows_put_dict (schema worker) "aB3/" "l" 7 namespace ∅ empty_view
      {[name_field "l" := "7"]} (shows_empty _ _ _ _ namespace)) as Hd.
    by rewrite lookup_singleton_eq in Hd.
  - split; [done|]. intros _. by apply elem_of_singleton.
Qed.

Lemma origin q : http_ok env q (range_origin "u" file 3 9 q).
Proof.
  intros start stop file_size resp Hq Hr. unfold range_origin in Hr. case_decide as Hd; [|done].
  injection Hr as <-. intros Hstart.
  assert (start = 3%N) as ->; [|vm_compute; exists []; reflexivity].
  destruct Hstart as [->|[_ (value & Hv & Hs)]].
  - exfalso. destruct Hd as [_ Hh]. unfold build_download_request in Hq. simpl in Hq. injection Hq as <-.
    simpl in Hh. injection Hh as Hh _. by destruct stop.
  - vm_compute in Hv. injection Hv as <-. unfold content_range_starts_at in Hs.
    apply bool_decide_eq_true in Hs. vm_compute in Hs. congruence.
Qed.

Lemma start_tracks : tracks file 3 (fun x => x = "a").
Proof.
  split; [split; [by vm_compute|by vm_compute]|].
  exists [{| add := true; member := "a" |}]. split; [by vm_compute|]. intros x _.
  unfold after, last_change. simpl. case_decide; naive_solver.
Qed.
End DeltaExample.

Lemma apply_delta_follows_file_witness :
  let final := eval (range_origin "u" DeltaExample.file 3 9)
    (@apply_delta string_urls DeltaExample.worker "aB3/" "l"
      (from_hash_fields (v_state DeltaExample.v0)) DeltaExample.meta) DeltaExample.ks in
  exists n w, shows (schema DeltaExample.worker) "aB3/" "l" 7 final.2 w /\
    delta_post DeltaExample.worker DeltaExample.file DeltaExample.v0 n w /\
    (size_ (from_hash_fields (v_state DeltaExample.v0)) <= n)%N /\ final.1 <> NoFuel /\
    (final.1 = Returned tt -> (tm_size DeltaExample.meta <= n)%N).
Proof.
  intros final.
  apply (@apply_delta_follows_file string_urls _ DeltaExample.worker "aB3/" "l" 7 DeltaExample.env
    "u" DeltaExample.file DeltaExample.v0 DeltaExample.meta DeltaExample.ks).
  - apply DeltaExample.namespace.
  - by intros k1 k2.
  - by intros q r.
  - vm_compute. lia.
  - by vm_compute.
  - reflexivity.
  - by vm_compute.
  - reflexivity.
  - destruct DeltaExample.start_tracks as [Hb (cs & Hcs & Hx)]. split; [exact Hb|]. exists cs.
    split; [exact Hcs|]. intros x Hm. rewrite <- (Hx x Hm). simpl. apply elem_of_singleton.
  - intros _. destruct DeltaExample.start_tracks as [Hb (cs & Hcs & Hx)]. split; [exact Hb|]. exists cs.
    split; [exact Hcs|]. intros x Hm. rewrite <- (Hx x Hm). simpl. case_decide; naive_solver.
  - apply DeltaExample.ks_shows.
  - apply eval_runs; [by intros k v|apply DeltaExample.origin].
Defined.

(** The example run succeeds, with exactly the file's list in both indexes. *)
Example delta_example_result :
  let final := eval (range_origin "u" DeltaExample.file 3 9)
    (@apply_delta string_urls DeltaExample.worker "aB3/" "l"
      (from_hash_fields (v_state DeltaExample.v0)) DeltaExample.meta) DeltaExample.ks in
  final.1 = Returned tt /\
  set_at final.2 (fwd_key (schema DeltaExample.worker) "aB3/" "l" "f@1") = {["b"]} /\
  set_at final.2 (member_key (schema DeltaExample.worker) "aB3/" "a") = ∅ /\
  set_at final.2 (member_key (schema DeltaExample.worker) "aB3/" "b") = {["7"]} /\
  size_ (from_hash_fields (hash_at final.2 (state_key (schema DeltaExample.worker) "aB3/" "l"))) = 9%N.
Proof. by vm_compute. Qed.
