(* ===== verification/StreamedDiff.v ===== *)
(** * StreamedDiff: updating the reverse index from forward sets

    Models [src/src/datastore/idlist_membership/worker/streamed_diff.rs]: scans of
    forward sets, fan-out of the list's token to member sets, the partitioned
    diff of two versions, and the recovery scan that clears a token. A scan loop
    runs at most [rank] + 1 pages (the bound of the scan guarantee). *)
From S2P Require Import Prelude Schema Effects Dict WorkerCore Parser Download ListView WorkLock.
From S2P Require Import FileContent Delta.

Section StreamedDiff.
Context `{ScanOrder} `{PartitionHash} (self : IdListSyncWorker).

Definition key_exists (key : string) : prog WorkerError bool :=
  _ ← get_conn; redis (EXISTS key).

Definition scard (key : string) : prog WorkerError N :=
  _ ← get_conn; redis (SCARD key).

Definition sscan_page (key : string) (cursor : N) : prog WorkerError (N * list string) :=
  _ ← get_conn; redis (SSCAN key cursor (scan_count (config self))).

Definition verify_scan_key_before (key : string) (expected_card : N) : prog WorkerError unit :=
  if bool_decide (0 < expected_card)%N then
    found ← key_exists key;
    if (found : bool) then Ret tt
    else Throw (ScanVerification (key +:+ " disappeared before scan"))
  else Ret tt.

Definition verify_scan_complete (key : string) (expected_card scanned : N) : prog WorkerError unit :=
  let failed := ScanVerification (key +:+ ": scanned " +:+ show_u64 scanned
                                  +:+ ", expected at least " +:+ show_u64 expected_card) in
  if bool_decide (scanned < expected_card)%N then Throw failed
  else if bool_decide (0 < expected_card)%N then
    found ← key_exists key;
    if (found : bool) then Ret tt else Throw failed
  else Ret tt.

(** [pages.is_multiple_of(LOCK_RENEWAL_SCAN_PAGES)] *)
Definition renew_on_page (renewal : ClaimRenewal) (pages : nat) : prog WorkerError unit :=
  if bool_decide (pages mod LOCK_RENEWAL_SCAN_PAGES = 0) then renew_now renewal else Ret tt.

Definition fanout_cmd (skh : string) (token : N) (add : bool) (member : string) : wcmd :=
  if add then SADD (member_key (schema self) skh member) (show_u64 token)
  else SREM (member_key (schema self) skh member) (show_u64 token).

Fixpoint fanout_batches (skh : string) (token : N) (add : bool) (batches : list (list string))
    : prog WorkerError unit :=
  match batches with
  | [] => Ret tt
  | batch :: batches' =>
      _ ← get_conn;
      _ ← pipe (fanout_cmd skh token add <$> batch);
      fanout_batches skh token add batches'
  end.
Definition fanout_members (skh : string) (members : list string) (token : N) (add : bool)
    : prog WorkerError unit :=
  fanout_batches skh token add (chunks (N.to_nat (pipeline_batch_size (config self))) members).

Definition scan_fuel (coll : option string) : nat := S (rank coll 0).

(** The page loop of [fanout_scan]; the result is [scanned]. *)
Fixpoint fanout_loop (fuel : nat) (skh key : string) (token : N) (add : bool)
    (renewal : ClaimRenewal) (cursor scanned : N) (pages : nat) : prog WorkerError N :=
  match fuel with
  | O => OutOfFuel
  | S fuel' =>
      '(next, members) ← sscan_page key cursor;
      let scanned := (scanned + N.of_nat (length members))%N in
      _ ← fanout_members skh members token add;
      let pages := S pages in
      _ ← renew_on_page renewal pages;
      if decide (next = 0%N) then Ret scanned
      else fanout_loop fuel' skh key token add renewal next scanned pages
  end.

Definition fanout_scan (skh key : string) (token : N) (add : bool) (expected_card : N)
    (renewal : ClaimRenewal) : prog WorkerError unit :=
  _ ← verify_scan_key_before key expected_card;
  scanned ← fanout_loop (scan_fuel (Some key)) skh key token add renewal 0 0 0;
  verify_scan_complete key expected_card scanned.

(** The page loop of [scan_partition]. *)
Fixpoint partition_loop (fuel : nat) (key : string) (partition partitions : N)
    (renewal : ClaimRenewal) (members : gset string) (cursor scanned : N) (pages : nat)
    : prog WorkerError (gset string * N) :=
  match fuel with
  | O => OutOfFuel
  | S fuel' =>
      '(next, page) ← sscan_page key cursor;
      let scanned := (scanned + N.of_nat (length page))%N in
      let members := members ∪
        list_to_set (filter (fun m => partition_for m partitions = partition) page) in
      let pages := S pages in
      _ ← renew_on_page renewal pages;
      if decide (next = 0%N) then Ret (members, scanned)
      else partition_loop fuel' key partition partitions renewal members next scanned pages
  end.

Definition scan_partition (key : string) (expected_card partition partitions : N)
    (renewal : ClaimRenewal) : prog WorkerError (gset string) :=
  _ ← verify_scan_key_before key expected_card;
  '(members, scanned) ← partition_loop (scan_fuel (Some key)) key partition partitions renewal ∅ 0 0 0;
  _ ← verify_scan_complete key expected_card scanned;
  Ret members.

(** [for member in members] of the diff: intersections leave [existing], new
    members fan out by the page size. *)
Fixpoint diff_members (skh : string) (token partition partitions : N) (members : list string)
    (existing : gset string) (additions : list string)
    : prog WorkerError (gset string * list string) :=
  match members with
  | [] => Ret (existing, additions)
  | m :: members' =>
      if negb (bool_decide (partition_for m partitions = partition)) then
        diff_members skh token partition partitions members' existing additions
      else if bool_decide (m ∈ existing) then
        diff_members skh token partition partitions members' (existing ∖ {[m]}) additions
      else
        let additions := additions ++ [m] in
        if bool_decide (scan_count (config self) <= N.of_nat (length additions))%N then
          _ ← fanout_members skh additions token true;
          diff_members skh token partition partitions members' existing []
        else diff_members skh token partition partitions members' existing additions
  end.

Fixpoint diff_loop (fuel : nat) (skh new_key : string) (token partition partitions : N)
    (renewal : ClaimRenewal) (existing : gset string) (additions : list string)
    (cursor scanned : N) (pages : nat) : prog WorkerError (gset string * list string * N) :=
  match fuel with
  | O => OutOfFuel
  | S fuel' =>
      '(next, members) ← sscan_page new_key cursor;
      let scanned := (scanned + N.of_nat (length members))%N in
      '(existing, additions) ←
        diff_members skh token partition partitions members existing additions;
      let pages := S pages in
      _ ← renew_on_page renewal pages;
      if decide (next = 0%N) then Ret (existing, additions, scanned)
      else diff_loop fuel' skh new_key token partition partitions renewal existing additions
             next scanned pages
  end.

(** [for chunk in removals.chunks(scan_count)] *)
Fixpoint fanout_chunks (skh : string) (token : N) (add : bool) (cs : list (list string))
    : prog WorkerError unit :=
  match cs with
  | [] => Ret tt
  | c :: cs' => _ ← fanout_members skh c token add; fanout_chunks skh token add cs'
  end.

(** One partition; the result is the number of its old members. *)
Definition diff_partition_step (skh old_key new_key : string) (token : N) (state_key : string)
    (old_card new_card partition partitions : N) (renewal : ClaimRenewal) : prog WorkerError N :=
  existing ← scan_partition old_key old_card partition partitions renewal;
  let distinct := N.of_nat (size existing) in
  _ ← verify_scan_key_before new_key new_card;
  '(existing, additions, scanned) ←
    diff_loop (scan_fuel (Some new_key)) skh new_key token partition partitions renewal
      existing [] 0 0 0;
  _ ← verify_scan_complete new_key new_card scanned;
  _ ← (if bool_decide (additions = []) then Ret tt else fanout_members skh additions token true);
  _ ← fanout_chunks skh token false
        (chunks (N.to_nat (scan_count (config self))) (elements existing));
  _ ← get_conn;
  _ ← write (HSET state_key [(state_fields.DIFF_PARTITION, show_u64 (sat_add partition 1))]);
  _ ← renew_now renewal;
  Ret distinct.

Fixpoint verify_partitions (old_key : string) (old_card partitions : N) (renewal : ClaimRenewal)
    (ps : list N) (total : N) : prog WorkerError N :=
  match ps with
  | [] => Ret total
  | p :: ps' =>
      members ← scan_partition old_key old_card p partitions renewal;
      verify_partitions old_key old_card partitions renewal ps' (total + N.of_nat (size members))%N
  end.

Fixpoint diff_partitions (skh old_key new_key : string) (token : N) (state_key : string)
    (old_card new_card partitions : N) (renewal : ClaimRenewal) (ps : list N) (total : N)
    : prog WorkerError N :=
  match ps with
  | [] => Ret total
  | p :: ps' =>
      n ← diff_partition_step skh old_key new_key token state_key old_card new_card p partitions renewal;
      diff_partitions skh old_key new_key token state_key old_card new_card partitions renewal ps'
        (total + n)%N
  end.

(** [lo..hi] *)
Definition range_N (lo hi : N) : list N := N.of_nat <$> seq (N.to_nat lo) (N.to_nat hi - N.to_nat lo).

(** [u64::div_ceil] *)
Definition div_ceil (a b : N) : N := ((a + b - 1) / b)%N.

Definition partition_count (old_card new_card : N) : N :=
  div_ceil (N.max (N.max old_card new_card) 1) (diff_partition_max_members (config self)).

Definition apply_streamed_diff (skh : string) (old_key : option string) (new_key : string)
    (token : N) (state_key : string) (resume_partition old_card new_card : N)
    (renewal : ClaimRenewal) : prog WorkerError unit :=
  if bool_decide (old_card = 0%N) then fanout_scan skh new_key token true new_card renewal
  else
    match old_key with
    | None => Throw (ScanVerification "old cardinality is non-zero without a key")
    | Some old_key =>
        let partitions := partition_count old_card new_card in
        if bool_decide (partitions < resume_partition)%N then
          Throw (ScanVerification ("resume partition " +:+ show_u64 resume_partition
            +:+ " exceeds partition count " +:+ show_u64 partitions))
        else
          total ← verify_partitions old_key old_card partitions renewal
                    (range_N 0 resume_partition) 0;
          total ← diff_partitions skh old_key new_key token state_key old_card new_card partitions
                    renewal (range_N resume_partition partitions) total;
          if bool_decide (total = old_card) then Ret tt
          else Throw (ScanVerification ("old distinct total " +:+ show_u64 total
                 +:+ " != SCARD " +:+ show_u64 old_card))
    end.

(** The glob pattern of [clear_reverse_token]. *)
Fixpoint escape_glob (s : string) : string :=
  match s with
  | EmptyString => EmptyString
  | String ch s' =>
      if glob_special ch then String "\" (String ch (escape_glob s')) else String ch (escape_glob s')
  end.
Definition member_pattern (skh : string) : string :=
  escape_glob (member_key (schema self) skh "") +:+ "*".

Fixpoint srem_batches (token : N) (batches : list (list string)) : prog WorkerError unit :=
  match batches with
  | [] => Ret tt
  | batch :: batches' =>
      _ ← pipe ((fun key => SREM key (show_u64 token)) <$> batch);
      srem_batches token batches'
  end.

Fixpoint clear_loop (fuel : nat) (pattern : string) (token : N) (renewal : ClaimRenewal) (cursor : N)
    : prog WorkerError unit :=
  match fuel with
  | O => OutOfFuel
  | S fuel' =>
      _ ← renew_now renewal;
      _ ← get_conn;
      '(next, keys) ← redis (SCAN cursor pattern (scan_count (config self)));
      _ ← srem_batches token (chunks (N.to_nat (pipeline_batch_size (config self))) keys);
      if decide (next = 0%N) then Ret tt else clear_loop fuel' pattern token renewal next
  end.

Definition clear_reverse_token (skh : string) (token : N) (renewal : ClaimRenewal)
    : prog WorkerError unit :=
  clear_loop (scan_fuel None) (member_pattern skh) token renewal 0.
End StreamedDiff.

(** ** Lemmas: fan-out *)

Definition with_rev (R : string -> Prop) (v : lview) : lview :=
  {| v_state := v_state v; v_fwd := v_fwd v; v_rev := R; v_tok := v_tok v |}.

(** [b] for the members of [ms], [R] elsewhere. *)
Definition rev_all (ms : list string) (b : bool) (R : string -> Prop) (i : string) : Prop :=
  if decide (i ∈ ms) then b = true else R i.

(** Properties of a reverse index that survive setting the members of [S] to
    [b]: what holds at every interruption of a fan-out. *)
Record rev_inv (S : string -> Prop) (b : bool) (I : (string -> Prop) -> Prop) : Prop := {
  ri_proper R R' : (forall x, R x <-> R' x) -> I R -> I R';
  ri_flip R x : S x -> I R -> I (fun i => if decide (i = x) then b = true else R i);
}.

Lemma rev_inv_all S b I ms R :
  rev_inv S b I -> (forall x, x ∈ ms -> S x) -> I R -> I (rev_all ms b R).
Proof.
  intros HI Hms HR. induction ms as [|m ms IH].
  - eapply ri_proper; [exact HI| |exact HR]. intros x. unfold rev_all. by rewrite decide_False by set_solver.
  - eapply ri_proper; [exact HI| |apply (ri_flip _ _ _ HI (rev_all ms b R) m); [apply Hms; by left|]];
      [|apply IH; set_solver].
    intros x. unfold rev_all. simpl. destruct (decide (x = m)) as [->|Hne].
    + by rewrite decide_True by set_solver.
    + destruct (decide (x ∈ ms)); [by rewrite decide_True by set_solver|].
      by rewrite decide_False by set_solver.
Qed.

Lemma rev_all_app ms ns b R x : rev_all ns b (rev_all ms b R) x <-> rev_all (ms ++ ns) b R x.
Proof. unfold rev_all. repeat case_decide; set_solver. Qed.

Section DiffSpec.
Context `{ScanOrder} `{PartitionHash} (self : IdListSyncWorker) (skh list : string) (tok : N).
Context (Hns : namespace_ok skh) (env : environment).
Context (Hrely : forall ks ks', rely env ks ks' -> same_view (schema self) skh list tok ks ks').
Context (renewal : ClaimRenewal) (Hkey : cr_key renewal = claim_key (schema self) skh list).
Context (Hcfg : config_ok (config self)).
Abbreviation shows := (shows (schema self) skh list tok).
Abbreviation fkey := (fkey (schema self) skh list).
Abbreviation mkey := (mkey (schema self) skh).
Abbreviation skey := (skey (schema self) skh list).

Lemma shows_rev_ext ks R R' v :
  (forall x, R x <-> R' x) -> shows ks (with_rev R v) -> shows ks (with_rev R' v).
Proof. intros Heq. by rewrite (shows_proper _ _ _ _ _ (with_rev R v) (with_rev R' v)). Qed.

Lemma acts_fanout_cmd b m :
  acts (schema self) skh list tok (fanout_cmd self skh tok b m) (set_rev m b).
Proof. destruct b; simpl; [by apply acts_sadd_member|by apply acts_srem_member]. Qed.

Definition fanout_views (b : bool) (ms : Datatypes.list string) : Datatypes.list (lview -> lview) :=
  (fun m => set_rev m b) <$> ms.

Lemma acts_fanout b ms :
  Forall2 (acts (schema self) skh list tok) (fanout_cmd self skh tok b <$> ms) (fanout_views b ms).
Proof.
  unfold fanout_views. induction ms as [|m ms IH]; simpl; [constructor|].
  constructor; [apply acts_fanout_cmd|done].
Qed.

Lemma apply_all_fanout ms b v :
  apply_all (fanout_views b ms) v ≡ with_rev (rev_all ms b (v_rev v)) v.
Proof.
  unfold apply_all. revert v. induction ms as [|m ms IH]; intros v; simpl.
  - split_and!; [done|done| |done]. intros x. simpl. unfold rev_all. by rewrite decide_False by set_solver.
  - rewrite IH. split_and!; [done|done| |done]. intros x. simpl. unfold rev_all.
    destruct (decide (x ∈ ms)); [by rewrite decide_True by set_solver|].
    destruct (decide (x = m)); [by rewrite decide_True by set_solver|].
    by rewrite decide_False by set_solver.
Qed.

Lemma partial_fanout S b I ms v w :
  rev_inv S b I -> (forall x, x ∈ ms -> S x) -> I (v_rev v) -> partial (fanout_views b ms) v w ->
  w ≡ with_rev (v_rev w) v /\ I (v_rev w).
Proof.
  intros HI Hms HR Hp. remember (fanout_views b ms) as fs eqn:Hfs. revert ms Hms Hfs.
  induction Hp as [v w (Hs & Hf & Hr & Ht)|f fs v w Hp IH|f fs v w Hp IH]; intros ms Hms Hfs.
  - split; [split_and!; simpl; try done; intros; by rewrite Hf|].
    eapply ri_proper; [exact HI|exact Hr|exact HR].
  - destruct ms as [|m ms]; [done|]. injection Hfs as -> ->.
    destruct (IH ltac:(apply (ri_flip _ _ _ HI); [apply Hms; by left|done]) ms) as [Hw Hi];
      [set_solver|done|]. split; [|done]. rewrite Hw at 1. by split_and!.
  - destruct ms as [|m ms]; [done|]. injection Hfs as -> ->. apply (IH HR ms); [set_solver|done].
Qed.

Context (I : (string -> Prop) -> Prop).

Lemma wp_fanout_batches S b batches v (Q : outcome WorkerError unit -> keyspace -> Prop) ks :
  rev_inv S b I -> (forall x, x ∈ concat batches -> S x) -> I (v_rev v) -> shows ks v ->
  (forall ks', shows ks' (with_rev (rev_all (concat batches) b (v_rev v)) v) -> Q (Returned tt) ks') ->
  (forall e R ks', I R -> shows ks' (with_rev R v) -> Q (Failed e) ks') ->
  wp env (fanout_batches self skh tok b batches) Q ks.
Proof.
  intros HI. revert v ks. induction batches as [|ms batches IH]; intros v ks Hin HR Hv Hok Herr;
    cbn [fanout_batches].
  - apply Hok. eapply (shows_rev_ext _ (v_rev v)); [|by destruct v]. intros x.
    unfold rev_all. by rewrite decide_False by set_solver.
  - assert (shows ks (with_rev (v_rev v) v)) as Hv1 by (by destruct v).
    apply wp_bind. eapply (wp_conn _ _ _ _ env Hrely); [exact Hv| |].
    2:{ intros e ks' Hv'. eapply (Herr e (v_rev v)); [done|]. by destruct v. }
    clear ks Hv Hv1. intros ks Hv. apply wp_bind.
    simpl in Hin. eapply (wp_pipe _ _ _ _ env Hrely); [apply acts_fanout|exact Hv| |].
    + intros _ ks' Hv'. rewrite apply_all_fanout in Hv'.
      eapply IH; [set_solver| |exact Hv'| |].
      * simpl. eapply rev_inv_all; [done| |done]. set_solver.
      * intros ks2 Hv2. apply Hok. simpl. eapply shows_rev_ext; [|exact Hv2]. apply rev_all_app.
      * intros e R ks2 HR2 Hv2. by apply (Herr e R).
    + intros e ks' w Hp Hw. destruct (partial_fanout S b I ms v w HI) as [Heq Hi]; [set_solver|done|done|].
      apply (Herr e (v_rev w)); [done|]. by rewrite <- Heq.
Qed.

Lemma wp_fanout_members S b ms v (Q : outcome WorkerError unit -> keyspace -> Prop) ks :
  rev_inv S b I -> (forall x, x ∈ ms -> S x) -> I (v_rev v) -> shows ks v ->
  (forall ks', shows ks' (with_rev (rev_all ms b (v_rev v)) v) -> Q (Returned tt) ks') ->
  (forall e R ks', I R -> shows ks' (with_rev R v) -> Q (Failed e) ks') ->
  wp env (fanout_members self skh ms tok b) Q ks.
Proof.
  intros HI Hin HR Hv Hok Herr. unfold fanout_members.
  pose proof (cfg_batch _ Hcfg) as Hb.
  eapply wp_fanout_batches; [done| |done|exact Hv| |done]; rewrite chunks_concat by lia; done.
Qed.

(** The steps of the scans that do not change the view. *)
Lemma wp_key_exists key v (Q : outcome WorkerError bool -> keyspace -> Prop) ks :
  shows ks v -> (forall b ks', shows ks' v -> Q (Returned b) ks') ->
  (forall e ks', shows ks' v -> Q (Failed e) ks') -> wp env (key_exists key) Q ks.
Proof.
  intros Hv Hok Herr. apply wp_bind. eapply (wp_conn _ _ _ _ env Hrely); [exact Hv| |done].
  clear ks Hv. intros ks Hv. by eapply (wp_any_read _ _ _ _ env Hrely).
Qed.

Lemma wp_scard ver v (Q : outcome WorkerError N -> keyspace -> Prop) ks :
  shows ks v -> (forall ks', shows ks' v -> Q (Returned (N.of_nat (size (v_fwd v ver)))) ks') ->
  (forall e ks', shows ks' v -> Q (Failed e) ks') -> wp env (scard (fkey ver)) Q ks.
Proof.
  intros Hv Hok Herr. apply wp_bind. eapply (wp_conn _ _ _ _ env Hrely); [exact Hv| |done].
  clear ks Hv. intros ks Hv. by eapply (wp_scard_fwd _ _ _ _ env Hrely).
Qed.

Lemma wp_verify_before key n v (Q : outcome WorkerError unit -> keyspace -> Prop) ks :
  shows ks v -> (forall ks', shows ks' v -> Q (Returned tt) ks') ->
  (forall e ks', shows ks' v -> Q (Failed e) ks') -> wp env (verify_scan_key_before key n) Q ks.
Proof.
  intros Hv Hok Herr. unfold verify_scan_key_before. destruct (bool_decide _); [|by apply Hok].
  apply wp_bind. eapply wp_key_exists; [exact Hv| |done]. intros [] ks' Hv'; simpl; eauto.
Qed.

Lemma wp_verify_complete key n m v (Q : outcome WorkerError unit -> keyspace -> Prop) ks :
  shows ks v -> (forall ks', shows ks' v -> Q (Returned tt) ks') ->
  (forall e ks', shows ks' v -> Q (Failed e) ks') -> wp env (verify_scan_complete key n m) Q ks.
Proof.
  intros Hv Hok Herr. unfold verify_scan_complete.
  destruct (bool_decide _); [by apply Herr|]. destruct (bool_decide _); [|by apply Hok].
  apply wp_bind. eapply wp_key_exists; [exact Hv| |done]. intros [] ks' Hv'; simpl; eauto.
Qed.

Lemma wp_renew_on_page pages v (Q : outcome WorkerError unit -> keyspace -> Prop) ks :
  shows ks v -> (forall ks', shows ks' v -> Q (Returned tt) ks') ->
  (forall e ks', shows ks' v -> Q (Failed e) ks') -> wp env (renew_on_page renewal pages) Q ks.
Proof.
  intros Hv Hok Herr. unfold renew_on_page. destruct (bool_decide _); [|by apply Hok].
  by eapply (wp_renew_now _ _ _ _ Hns env Hrely).
Qed.

Lemma wp_sscan_page ver cursor v
    (Q : outcome WorkerError (N * Datatypes.list string) -> keyspace -> Prop) ks :
  shows ks v ->
  (forall next page ks', shows ks' v ->
     page_ok (Some (fkey ver)) (fun x => x ∈ v_fwd v ver) cursor next page ->
     Q (Returned (next, page)) ks') ->
  (forall e ks', shows ks' v -> Q (Failed e) ks') ->
  wp env (sscan_page self (fkey ver) cursor) Q ks.
Proof.
  intros Hv Hok Herr. apply wp_bind. eapply (wp_conn _ _ _ _ env Hrely); [exact Hv| |done].
  clear ks Hv. intros ks Hv. by eapply (wp_sscan_fwd _ _ _ _ env Hrely).
Qed.

(** What is left of a scan: everything not yet seen is still to come. *)
Definition scan_todo (ver : string) (S : gset string) (cursor : N) (seen : string -> Prop) : Prop :=
  forall x, x ∈ S -> later (Some (fkey ver)) cursor x \/ seen x.

Lemma scan_todo_page ver S cursor next page (seen : string -> Prop) :
  scan_todo ver S cursor seen ->
  page_ok (Some (fkey ver)) (fun x => x ∈ S) cursor next page ->
  (next <> 0%N -> scan_todo ver S next (fun x => x ∈ page \/ seen x)) /\
  (next = 0%N -> forall x, x ∈ S -> x ∈ page \/ seen x).
Proof.
  intros Ht (_ & Hcov & _). split.
  - intros Hn x Hx. destruct (Ht x Hx) as [Hl|Hs]; [|auto].
    destruct (Hcov x Hx Hl) as [Hp|[_ Hl']]; auto.
  - intros -> x Hx. destruct (Ht x Hx) as [Hl|Hs]; [|auto].
    destruct (Hcov x Hx Hl) as [Hp|[Hn _]]; auto. done.
Qed.

Lemma wp_fanout_loop ver b v fuel seen cursor scanned pages
    (Q : outcome WorkerError N -> keyspace -> Prop) ks :
  rev_inv (.∈ v_fwd v ver) b I -> I (v_rev v) ->
  (forall x, x ∈ seen -> x ∈ v_fwd v ver) ->
  scan_todo ver (v_fwd v ver) cursor (.∈ seen) -> rank (Some (fkey ver)) cursor < fuel ->
  shows ks (with_rev (rev_all seen b (v_rev v)) v) ->
  (forall n R ks', (forall x, R x <-> if decide (x ∈ v_fwd v ver) then b = true else v_rev v x) ->
     shows ks' (with_rev R v) -> Q (Returned n) ks') ->
  (forall e R ks', I R -> shows ks' (with_rev R v) -> Q (Failed e) ks') ->
  wp env (fanout_loop self fuel skh (fkey ver) tok b renewal cursor scanned pages) Q ks.
Proof.
  intros HI HR. revert seen cursor scanned pages ks.
  induction fuel as [|fuel IH]; intros seen cursor scanned pages ks Hseen Htodo Hfuel Hv Hok Herr; [lia|].
  assert (I (rev_all seen b (v_rev v))) as Hiseen by (by eapply rev_inv_all).
  cbn [fanout_loop]. apply wp_bind. eapply (wp_sscan_page ver); [exact Hv| |].
  2:{ intros e ks' Hv'. by eapply Herr. }
  clear ks Hv. intros next page ks Hv Hpage. cbn beta iota. apply wp_bind. simpl in Hpage.
  pose proof Hpage as (Hsub & _ & Hrank).
  eapply (wp_fanout_members _ b page (with_rev (rev_all seen b (v_rev v)) v)); [done|exact Hsub|done|exact Hv| |].
  2:{ intros e R ks' Hi Hv'. eapply Herr; [done|]. exact Hv'. }
  clear ks Hv. intros ks Hv. apply wp_bind.
  assert (I (rev_all (seen ++ page) b (v_rev v))) as Hiall.
  { eapply rev_inv_all; [done| |done]. set_solver. }
  assert (shows ks (with_rev (rev_all (seen ++ page) b (v_rev v)) v)) as Hv1.
  { eapply shows_rev_ext; [|exact Hv]. apply rev_all_app. }
  clear Hv. eapply wp_renew_on_page; [exact Hv1| |].
  2:{ intros e ks' Hv'. by eapply Herr. }
  clear ks Hv1. intros ks Hv. destruct (scan_todo_page _ _ _ _ _ _ Htodo Hpage) as [Hnext Hend].
  destruct (decide (next = 0%N)) as [Hz|Hz].
  - eapply Hok; [|exact Hv]. intros x. unfold rev_all.
    destruct (decide (x ∈ v_fwd v ver)) as [Hx|Hx].
    + rewrite decide_True; [done|]. destruct (Hend Hz x Hx); set_solver.
    + rewrite decide_False; [done|]. set_solver.
  - eapply IH; [| | |exact Hv|done|done].
    + set_solver.
    + intros x Hx. destruct (Hnext Hz x Hx) as [?|[?|?]]; [by left|right; set_solver..].
    + specialize (Hrank Hz). lia.
Qed.

Lemma scan_todo_start ver S seen : scan_todo ver S 0 seen.
Proof. intros x _. left. apply later_start. Qed.

Lemma wp_fanout_scan ver b n v (Q : outcome WorkerError unit -> keyspace -> Prop) ks :
  rev_inv (.∈ v_fwd v ver) b I -> I (v_rev v) -> shows ks v ->
  (forall R ks', (forall x, R x <-> if decide (x ∈ v_fwd v ver) then b = true else v_rev v x) ->
     shows ks' (with_rev R v) -> Q (Returned tt) ks') ->
  (forall e R ks', I R -> shows ks' (with_rev R v) -> Q (Failed e) ks') ->
  wp env (fanout_scan self skh (fkey ver) tok b n renewal) Q ks.
Proof.
  intros HI HR Hv Hok Herr. unfold fanout_scan. apply wp_bind.
  assert (forall R, I R -> forall e ks', shows ks' (with_rev R v) -> Q (Failed e) ks') as Herr'
    by (intros; by eapply Herr).
  assert (with_rev (v_rev v) v = v) as Hself by (by destruct v).
  eapply wp_verify_before; [exact Hv| |].
  2:{ intros e ks' Hv'. eapply (Herr' (v_rev v)); [done|]. by rewrite Hself. }
  clear ks Hv. intros ks Hv. apply wp_bind.
  eapply (wp_fanout_loop ver b v _ []); [done|done|set_solver|apply scan_todo_start|unfold scan_fuel; lia| | |done].
  - eapply shows_rev_ext; [|by rewrite Hself]. intros x. unfold rev_all. by rewrite decide_False by set_solver.
  - intros m R ks' HRx Hv'. cbn beta iota. eapply wp_verify_complete; [exact Hv'| |].
    + intros ks2 Hv2. by eapply Hok.
    + intros e ks2 Hv2. eapply Herr'; [|exact Hv2].
      eapply ri_proper; [exact HI| |eapply (rev_inv_all _ _ _ (elements (v_fwd v ver))); [exact HI| |exact HR]].
      * intros x. rewrite HRx. unfold rev_all. repeat case_decide; set_solver.
      * intros x. by rewrite elem_of_elements.
Qed.
End DiffSpec.

(** ** Lemmas: the partitioned diff *)

(** Between two versions: common members stay indexed, foreign ones are not. *)
Definition mixed (old new : gset string) (R : string -> Prop) : Prop :=
  (forall x, x ∈ old -> x ∈ new -> R x) /\ (forall x, x ∉ old -> x ∉ new -> ~ R x).

(** The diff has completed the first [d] of [partitions] partitions. *)
Definition diff_inv `{PartitionHash} (old new : gset string) (partitions d : N) (R : string -> Prop) : Prop :=
  mixed old new R /\ forall x, (partition_for x partitions < d)%N -> (R x <-> x ∈ new).

Lemma diff_inv_adds `{PartitionHash} old new partitions d :
  rev_inv (.∈ new) true (diff_inv old new partitions d).
Proof.
  constructor.
  - intros R R' Heq [[Hb Hn] Hd]. split; [split|].
    + intros x ??. rewrite <- Heq. auto.
    + intros x ??. rewrite <- Heq. auto.
    + intros x ?. rewrite <- Heq. auto.
  - intros R x Hx [[Hb Hn] Hd]. split; [split|].
    + intros y ??. case_decide; [done|auto].
    + intros y ??. case_decide; [by subst|auto].
    + intros y Hy. case_decide; [by subst|auto].
Qed.

Lemma diff_inv_removes `{PartitionHash} old new partitions d :
  rev_inv (fun x => x ∉ new) false (diff_inv old new partitions d).
Proof.
  constructor.
  - apply (ri_proper _ _ _ (diff_inv_adds old new partitions d)).
  - intros R x Hx [[Hb Hn] Hd]. split; [split|].
    + intros y ??. case_decide; [by subst|auto].
    + intros y ??. case_decide; [done|auto].
    + intros y Hy. case_decide; [by subst|auto].
Qed.

Section PartitionSpec.
Context `{ScanOrder} `{PartitionHash} (self : IdListSyncWorker) (skh list : string) (tok : N).
Context (Hns : namespace_ok skh) (env : environment).
Context (Hrely : forall ks ks', rely env ks ks' -> same_view (schema self) skh list tok ks ks').
Context (renewal : ClaimRenewal) (Hkey : cr_key renewal = claim_key (schema self) skh list).
Context (Hcfg : config_ok (config self)).
Abbreviation shows := (shows (schema self) skh list tok).
Abbreviation fkey := (fkey (schema self) skh list).
Abbreviation skey := (skey (schema self) skh list).

Lemma wp_partition_loop ver v p partitions fuel members cursor scanned pages
    (Q : outcome WorkerError (gset string * N) -> keyspace -> Prop) ks :
  (forall x, x ∈ members -> x ∈ v_fwd v ver /\ partition_for x partitions = p) ->
  scan_todo self skh list ver (v_fwd v ver) cursor
    (fun x => partition_for x partitions <> p \/ x ∈ members) ->
  rank (Some (fkey ver)) cursor < fuel -> shows ks v ->
  (forall M n ks', (forall x, x ∈ M <-> x ∈ v_fwd v ver /\ partition_for x partitions = p) ->
     shows ks' v -> Q (Returned (M, n)) ks') ->
  (forall e ks', shows ks' v -> Q (Failed e) ks') ->
  wp env (partition_loop self fuel (fkey ver) p partitions renewal members cursor scanned pages) Q ks.
Proof.
  revert members cursor scanned pages ks.
  induction fuel as [|fuel IH]; intros members cursor scanned pages ks Hsub Htodo Hfuel Hv Hok Herr; [lia|].
  cbn [partition_loop]. apply wp_bind.
  eapply (wp_sscan_page self skh list tok env Hrely ver); [exact Hv| |done].
  clear ks Hv. intros next page ks Hv Hpage. cbn beta iota. apply wp_bind.
  eapply (wp_renew_on_page self skh list tok Hns env Hrely renewal Hkey); [exact Hv| |done].
  clear ks Hv. intros ks Hv.
  destruct (scan_todo_page _ _ _ _ _ _ _ _ _ Htodo Hpage) as [Hnext Hend].
  pose proof Hpage as (Hpsub & _ & Hrank).
  set (M := members ∪ list_to_set (filter (fun m => partition_for m partitions = p) page)).
  assert (forall x, x ∈ M <-> x ∈ members \/ (x ∈ page /\ partition_for x partitions = p)) as HM.
  { intros x. unfold M. rewrite elem_of_union, elem_of_list_to_set, list_elem_of_filter. naive_solver. }
  assert (forall x, x ∈ M -> x ∈ v_fwd v ver /\ partition_for x partitions = p) as HMsub.
  { intros x [Hx|[Hx Hp]]%HM; [by apply Hsub|]. split; [by apply Hpsub|done]. }
  destruct (decide (next = 0%N)) as [Hz|Hz].
  - apply Hok; [|done]. intros x. split; [apply HMsub|]. intros [Hx Hp]. apply HM.
    destruct (Hend Hz x Hx) as [?|[?|?]]; [by right|done|by left].
  - eapply IH; [exact HMsub| | |exact Hv|done|done].
    + intros x Hx. destruct (Hnext Hz x Hx) as [?|[Hpg|[?|?]]]; [by left|right|by right; left|right; right].
      * destruct (decide (partition_for x partitions = p)); [right; apply HM; auto|by left].
      * apply HM. by left.
    + specialize (Hrank Hz). lia.
Qed.

Lemma wp_scan_partition ver v n p partitions (Q : outcome WorkerError (gset string) -> keyspace -> Prop) ks :
  shows ks v ->
  (forall M ks', (forall x, x ∈ M <-> x ∈ v_fwd v ver /\ partition_for x partitions = p) ->
     shows ks' v -> Q (Returned M) ks') ->
  (forall e ks', shows ks' v -> Q (Failed e) ks') ->
  wp env (scan_partition self (fkey ver) n p partitions renewal) Q ks.
Proof.
  intros Hv Hok Herr. unfold scan_partition. apply wp_bind.
  eapply (wp_verify_before self skh list tok env Hrely); [exact Hv| |done].
  clear ks Hv. intros ks Hv. apply wp_bind.
  eapply (wp_partition_loop ver v); [set_solver|apply scan_todo_start|unfold scan_fuel; lia|exact Hv| |done].
  clear ks Hv. intros M m ks HM Hv. cbn beta iota. apply wp_bind.
  eapply (wp_verify_complete self skh list tok env Hrely); [exact Hv| |done].
  intros ks' Hv'. by apply Hok.
Qed.

(** One partition of the diff from version [over] to [nver]. *)
Context (over nver : string) (v : lview).
Abbreviation old := (v_fwd v over).
Abbreviation new := (v_fwd v nver).
Context (partitions p : N).
Abbreviation here x := (partition_for x partitions = p).
Abbreviation I := (diff_inv old new partitions p).

(** The locals of the page loop: [E] is [existing], [A] is [additions]. *)
Record diff_locals (E : gset string) (A : Datatypes.list string) (R seen : string -> Prop) : Prop := {
  dl_inv : I R;
  dl_existing x : x ∈ E -> x ∈ old /\ here x /\ ~ seen x;
  dl_left x : x ∈ old -> here x -> x ∈ E \/ x ∈ new;
  dl_added x : x ∈ A -> x ∈ new /\ here x;
  dl_seen x : seen x -> here x -> R x \/ x ∈ A;
}.

Lemma diff_locals_ext E A R seen seen' :
  (forall x, seen x <-> seen' x) -> diff_locals E A R seen -> diff_locals E A R seen'.
Proof.
  intros Heq [Hi He Hl Ha Hs]. constructor; [done| |done|done|].
  - intros x Hx. rewrite <- Heq. by apply He.
  - intros x. rewrite <- Heq. apply Hs.
Qed.

Lemma diff_locals_flush E A R seen :
  diff_locals E A R seen -> diff_locals E [] (rev_all A true R) seen.
Proof.
  intros [Hi He Hl Ha Hs]. constructor; [|done|done|set_solver|].
  - eapply rev_inv_all; [apply diff_inv_adds| |done]. intros x Hx. by apply Ha.
  - intros x Hx Hh. left. unfold rev_all. case_decide; [done|]. by destruct (Hs x Hx Hh).
Qed.

Lemma wp_diff_members members E A R seen
    (Q : outcome WorkerError (gset string * Datatypes.list string) -> keyspace -> Prop) ks :
  (forall x, x ∈ members -> x ∈ new) -> diff_locals E A R seen -> shows ks (with_rev R v) ->
  (forall E' A' R' ks', diff_locals E' A' R' (fun x => x ∈ members \/ seen x) ->
     shows ks' (with_rev R' v) -> Q (Returned (E', A')) ks') ->
  (forall e R' ks', I R' -> shows ks' (with_rev R' v) -> Q (Failed e) ks') ->
  wp env (diff_members self skh tok p partitions members E A) Q ks.
Proof.
  revert E A R seen ks. induction members as [|m members IH];
    intros E A R seen ks Hnew Hdl Hv Hok Herr; cbn [diff_members].
  - eapply Hok; [|exact Hv]. eapply diff_locals_ext; [|exact Hdl]. set_solver.
  - assert (forall E' A' R' ks', diff_locals E' A' R' (fun x => x ∈ members \/ x = m \/ seen x) ->
       shows ks' (with_rev R' v) -> Q (Returned (E', A')) ks') as Hok'.
    { intros E' A' R' ks' Hd. apply Hok. eapply diff_locals_ext; [|exact Hd]. set_solver. }
    assert (m ∈ new) as Hm by (apply Hnew; by left).
    assert (forall x, x ∈ members -> x ∈ new) as Hnew' by set_solver.
    pose proof Hdl as [Hi He Hl Ha Hs].
    destruct (bool_decide (here m)) eqn:Hh; simpl.
    2:{ apply bool_decide_eq_false in Hh.
        eapply IH; [exact Hnew'| |exact Hv|exact Hok'|done]. constructor; [done| |done|done|].
        - intros x Hx. destruct (He x Hx) as (? & ? & ?). split_and!; [done|done|]. naive_solver.
        - intros x [->|Hx] Hhx; [done|by apply Hs]. }
    apply bool_decide_eq_true in Hh. destruct (bool_decide (m ∈ E)) eqn:HmE.
    + apply bool_decide_eq_true in HmE. destruct (He m HmE) as (Hmo & _ & _).
      eapply IH; [exact Hnew'| |exact Hv|exact Hok'|done]. constructor; [done| | |done|].
      * intros x [Hx Hxm]%elem_of_difference. destruct (He x Hx) as (? & ? & ?).
        split_and!; [done|done|]. set_solver.
      * intros x Hx Hhx. destruct (Hl x Hx Hhx); [|by right].
        destruct (decide (x = m)) as [->|]; [by right|]. left. set_solver.
      * intros x [->|Hx] Hhx; [left; by apply (proj1 (proj1 Hi) m)|by apply Hs].
    + apply bool_decide_eq_false in HmE.
      assert (diff_locals E (A ++ [m]) R (fun x => x = m \/ seen x)) as Hdl'.
      { constructor; [done| |done| |].
        - intros x Hx. destruct (He x Hx) as (? & ? & ?). split_and!; [done|done|]. naive_solver.
        - intros x [Hx|Hx]%elem_of_app; [by apply Ha|]. apply list_elem_of_singleton in Hx as ->. done.
        - intros x [->|Hx] Hhx; [right; set_solver|]. destruct (Hs x Hx Hhx); [by left|right; set_solver]. }
      cbn zeta. destruct (bool_decide _).
      * apply wp_bind.
        eapply (wp_fanout_members self skh list tok Hns env Hrely renewal Hkey Hcfg I _ true (A ++ [m]) (with_rev R v));
          [apply diff_inv_adds| |done|exact Hv| |].
        -- intros x Hx. by apply (dl_added _ _ _ _ Hdl').
        -- clear ks Hv. intros ks Hv. eapply IH; [exact Hnew'|by apply diff_locals_flush|exact Hv|exact Hok'|done].
        -- intros e R' ks' Hi' Hv'. by eapply Herr.
      * eapply IH; [exact Hnew'|exact Hdl'|exact Hv|exact Hok'|done].
Qed.

Lemma wp_diff_loop fuel E A R seen cursor scanned pages
    (Q : outcome WorkerError (gset string * Datatypes.list string * N) -> keyspace -> Prop) ks :
  diff_locals E A R seen -> scan_todo self skh list nver new cursor seen ->
  rank (Some (fkey nver)) cursor < fuel -> shows ks (with_rev R v) ->
  (forall E' A' R' n ks', diff_locals E' A' R' (.∈ new) -> shows ks' (with_rev R' v) ->
     Q (Returned (E', A', n)) ks') ->
  (forall e R' ks', I R' -> shows ks' (with_rev R' v) -> Q (Failed e) ks') ->
  (forall x, seen x -> x ∈ new) ->
  wp env (diff_loop self fuel skh (fkey nver) tok p partitions renewal E A cursor scanned pages) Q ks.
Proof.
  revert E A R seen cursor scanned pages ks.
  induction fuel as [|fuel IH]; intros E A R seen cursor scanned pages ks Hdl Htodo Hfuel Hv Hok Herr Hseen; [lia|].
  cbn [diff_loop]. apply wp_bind.
  eapply (wp_sscan_page self skh list tok env Hrely nver); [exact Hv| |].
  2:{ intros e ks' Hv'. eapply Herr; [apply Hdl|exact Hv']. }
  clear ks Hv. intros next page ks Hv Hpage. cbn beta iota zeta. apply wp_bind.
  pose proof Hpage as (Hpsub & _ & Hrank). simpl in Hpsub.
  eapply (wp_diff_members page E A R seen); [exact Hpsub|exact Hdl|exact Hv| |done].
  clear ks Hv. intros E' A' R' ks Hdl' Hv. cbn beta iota. apply wp_bind.
  eapply (wp_renew_on_page self skh list tok Hns env Hrely renewal Hkey); [exact Hv| |].
  2:{ intros e ks' Hv'. eapply Herr; [apply Hdl'|exact Hv']. }
  clear ks Hv. intros ks Hv.
  destruct (scan_todo_page _ _ _ _ _ _ _ _ _ Htodo Hpage) as [Hnext Hend].
  destruct (decide (next = 0%N)) as [Hz|Hz].
  - eapply Hok; [|exact Hv]. eapply diff_locals_ext; [|exact Hdl'].
    intros x. split; [intros [Hx|Hx]; [by apply Hpsub|by apply Hseen]|]. by apply Hend.
  - eapply IH; [exact Hdl'|by apply Hnext|specialize (Hrank Hz); lia|exact Hv|done|done|].
    intros x [Hx|Hx]; [by apply Hpsub|by apply Hseen].
Qed.

Lemma wp_fanout_chunks J S b cs u (Q : outcome WorkerError unit -> keyspace -> Prop) ks :
  rev_inv S b J -> (forall x, x ∈ concat cs -> S x) -> J (v_rev u) -> shows ks u ->
  (forall ks', shows ks' (with_rev (rev_all (concat cs) b (v_rev u)) u) -> Q (Returned tt) ks') ->
  (forall e R ks', J R -> shows ks' (with_rev R u) -> Q (Failed e) ks') ->
  wp env (fanout_chunks self skh tok b cs) Q ks.
Proof.
  intros HJ. revert u ks. induction cs as [|c cs IH]; intros u ks Hin HR Hv Hok Herr; cbn [fanout_chunks].
  - apply Hok. eapply (shows_rev_ext _ _ _ _ _ (v_rev u)); [|by destruct u]. intros x.
    unfold rev_all. by rewrite decide_False by set_solver.
  - apply wp_bind. simpl in Hin.
    eapply (wp_fanout_members self skh list tok Hns env Hrely renewal Hkey Hcfg J _ b c u);
      [exact HJ|set_solver|done|exact Hv| |done].
    clear ks Hv. intros ks Hv. eapply IH; [set_solver| |exact Hv| |].
    + simpl. eapply rev_inv_all; [exact HJ|set_solver|done].
    + intros ks' Hv'. apply Hok. simpl. eapply shows_rev_ext; [|exact Hv']. apply rev_all_app.
    + intros e R ks' HJR Hv'. by apply (Herr e R).
Qed.

(** What the locals say once the new version has been scanned. *)
Lemma diff_locals_done E A R :
  diff_locals E A R (.∈ new) ->
  diff_inv old new partitions (p + 1) (rev_all (elements E) false (rev_all A true R)).
Proof.
  intros Hdl. pose proof (diff_locals_flush _ _ _ _ Hdl) as Hfl.
  pose proof Hfl as [Hi He Hl _ Hs].
  assert (diff_inv old new partitions p (rev_all (elements E) false (rev_all A true R))) as [Hm Hd].
  { eapply rev_inv_all; [apply diff_inv_removes| |exact Hi]. intros x Hx%elem_of_elements.
    by destruct (He x Hx) as (? & ? & ?). }
  split; [exact Hm|]. intros x Hx. destruct (decide (here x)) as [Hh|Hh]; [|apply Hd; lia].
  unfold rev_all at 1. case_decide as Hx'.
  - apply elem_of_elements in Hx'. destruct (He x Hx') as (_ & _ & Hnot). split; [by intros [=]|by intros Hn].
  - rewrite elem_of_elements in Hx'. split.
    + intros HRx. destruct (decide (x ∈ new)); [done|]. exfalso.
      destruct (decide (x ∈ old)) as [Ho|Ho].
      * by destruct (Hl x Ho Hh).
      * by apply (proj2 (proj1 Hi) x).
    + intros Hn. destruct (Hs x Hn Hh); [done|set_solver].
Qed.

Definition at_partition (d : N) (u : lview) : lview :=
  set_state (hset_fields [(state_fields.DIFF_PARTITION, show_u64 d)]) u.

Lemma wp_diff_partition_step old_card new_card (Q : outcome WorkerError N -> keyspace -> Prop) ks :
  (p < u64_max)%N -> I (v_rev v) -> shows ks v ->
  (forall n R ks', diff_inv old new partitions (p + 1) R ->
     shows ks' (with_rev R (at_partition (p + 1) v)) -> Q (Returned n) ks') ->
  (forall e R ks', I R -> shows ks' (with_rev R v) -> Q (Failed e) ks') ->
  (forall e R ks', diff_inv old new partitions (p + 1) R ->
     shows ks' (with_rev R (at_partition (p + 1) v)) -> Q (Failed e) ks') ->
  wp env (diff_partition_step self skh (fkey over) (fkey nver) tok skey old_card new_card p partitions
            renewal) Q ks.
Proof.
  intros Hp HR Hv Hok Herr Herr'. unfold diff_partition_step.
  assert (with_rev (v_rev v) v = v) as Hself by (by destruct v).
  assert (forall e ks', shows ks' v -> Q (Failed e) ks') as Herr0.
  { intros e ks' Hv'. apply (Herr e (v_rev v)); [done|]. by rewrite Hself. }
  apply wp_bind. eapply (wp_scan_partition over v); [exact Hv| |done].
  clear ks Hv. intros E0 ks HE Hv. cbn beta iota zeta. apply wp_bind.
  eapply (wp_verify_before self skh list tok env Hrely); [exact Hv| |done].
  clear ks Hv. intros ks Hv. apply wp_bind.
  eapply (wp_diff_loop _ E0 [] (v_rev v) (fun _ => False));
    [|apply scan_todo_start|unfold scan_fuel; lia|by rewrite Hself| |done|done].
  { constructor; [done| | |set_solver|done].
    - intros x Hx. apply HE in Hx as [??]. naive_solver.
    - intros x Hx Hh. left. apply HE. done. }
  clear ks Hv. intros E A R n ks Hdl Hv. cbn beta iota. apply wp_bind.
  assert (forall e ks', shows ks' (with_rev R v) -> Q (Failed e) ks') as HerrR.
  { intros e ks' Hv'. eapply Herr; [apply Hdl|exact Hv']. }
  eapply (wp_verify_complete self skh list tok env Hrely); [exact Hv| |done].
  clear ks Hv. intros ks Hv. apply wp_bind.
  assert (forall ks, shows ks (with_rev (rev_all A true R) v) ->
    wp env (
      _ ← fanout_chunks self skh tok false
        (chunks (N.to_nat (scan_count (config self))) (elements E));
      _ ← get_conn;
      _ ← write (HSET skey [(state_fields.DIFF_PARTITION, show_u64 (sat_add p 1))]);
      _ ← renew_now renewal;
      Ret (N.of_nat (size E0))) Q ks) as Htail.
  { clear ks Hv. intros ks Hv. apply wp_bind. pose proof (cfg_scan _ Hcfg) as Hsc.
    pose proof (diff_locals_flush _ _ _ _ Hdl) as Hfl.
    eapply (wp_fanout_chunks I _ false _ (with_rev (rev_all A true R) v));
      [apply diff_inv_removes| |apply Hfl|exact Hv| |].
    - rewrite chunks_concat by lia. intros x Hx%elem_of_elements.
      by destruct (dl_existing _ _ _ _ Hfl x Hx) as (? & ? & ?).
    - rewrite chunks_concat by lia. clear ks Hv. intros ks Hv. simpl in Hv.
      pose proof (diff_locals_done _ _ _ Hdl) as Hdone.
      assert (I (rev_all (elements E) false (rev_all A true R))) as HI.
      { eapply rev_inv_all; [apply diff_inv_removes| |apply Hfl]. intros x Hx%elem_of_elements.
        by destruct (dl_existing _ _ _ _ Hfl x Hx) as (? & ? & ?). }
      apply wp_bind. eapply (wp_conn _ _ _ _ env Hrely); [exact Hv| |].
      2:{ intros e ks' Hv'. eapply Herr; [exact HI|exact Hv']. }
      clear ks Hv. intros ks Hv. apply wp_bind.
      assert (sat_add p 1 = p + 1)%N as Hsat by (unfold sat_add, u64_max in *; lia).
      rewrite Hsat. eapply (wp_write _ _ _ _ env Hrely); [by apply acts_hset|exact Hv| |].
      2:{ intros e ks' [Hv'|Hv']; [eapply Herr; [exact HI|exact Hv']|eapply Herr'; [exact Hdone|exact Hv']]. }
      clear ks Hv. intros _ ks Hv. apply wp_bind.
      eapply (wp_renew_now _ _ _ _ Hns env Hrely); [done|exact Hv| |].
      + intros ks' Hv'. eapply Hok; [exact Hdone|exact Hv'].
      + intros e ks' Hv'. eapply Herr'; [exact Hdone|exact Hv'].
    - intros e R' ks' HI Hv'. eapply Herr; [exact HI|exact Hv']. }
  destruct (bool_decide (A = [])) eqn:HA.
  - apply bool_decide_eq_true in HA as ->. apply Htail.
    eapply shows_rev_ext; [|exact Hv]. intros x. unfold rev_all. by rewrite decide_False by set_solver.
  - eapply (wp_fanout_members self skh list tok Hns env Hrely renewal Hkey Hcfg I _ true A (with_rev R v));
      [apply diff_inv_adds| |apply Hdl|exact Hv| |].
    + intros x Hx. by apply (dl_added _ _ _ _ Hdl).
    + intros ks' Hv'. by apply Htail.
    + intros e R' ks' HI Hv'. eapply Herr; [exact HI|exact Hv'].
Qed.
End PartitionSpec.

(** ** Lemmas: the whole diff *)

Section DiffWhole.
Context `{ScanOrder} `{PartitionHash} (self : IdListSyncWorker) (skh list : string) (tok : N).
Context (Hns : namespace_ok skh) (env : environment).
Context (Hrely : forall ks ks', rely env ks ks' -> same_view (schema self) skh list tok ks ks').
Context (renewal : ClaimRenewal) (Hkey : cr_key renewal = claim_key (schema self) skh list).
Context (Hcfg : config_ok (config self)).
Abbreviation shows := (shows (schema self) skh list tok).
Abbreviation fkey := (fkey (schema self) skh list).
Abbreviation skey := (skey (schema self) skh list).
Context (nver : string) (v : lview).
Abbreviation new := (v_fwd v nver).

(** The state hash while the diff runs: untouched, or at partition [d]. *)
Definition diff_state (partitions d0 d : N) (s : gmap string string) : Prop :=
  (d = d0 /\ s = v_state v) \/
  (d <= partitions)%N /\ s = <[state_fields.DIFF_PARTITION := show_u64 d]> (v_state v).

Definition diff_view (s : gmap string string) (R : string -> Prop) : lview :=
  {| v_state := s; v_fwd := v_fwd v; v_rev := R; v_tok := v_tok v |}.

Lemma wp_diff_partitions over old_card new_card partitions d0 ps total d s R
    (Q : outcome WorkerError N -> keyspace -> Prop) ks :
  (partitions <= u64_max)%N -> ps = range_N d partitions -> (d <= partitions)%N ->
  diff_inv (v_fwd v over) new partitions d R -> diff_state partitions d0 d s -> shows ks (diff_view s R) ->
  (forall n s' R' ks', diff_inv (v_fwd v over) new partitions partitions R' ->
     diff_state partitions d0 partitions s' -> shows ks' (diff_view s' R') -> Q (Returned n) ks') ->
  (forall e d' s' R' ks', (d' <= partitions)%N -> diff_inv (v_fwd v over) new partitions d' R' ->
     diff_state partitions d0 d' s' -> shows ks' (diff_view s' R') -> Q (Failed e) ks') ->
  wp env (diff_partitions self skh (fkey over) (fkey nver) tok skey old_card new_card partitions
            renewal ps total) Q ks.
Proof.
  intros Hmax. revert total d s R ks. induction ps as [|p ps IH];
    intros total d s R ks Hps Hd Hinv Hs Hv Hok Herr; cbn [diff_partitions].
  - assert (d = partitions) as ->.
    { unfold range_N in Hps. destruct (N.to_nat partitions - N.to_nat d) eqn:E; [lia|done]. }
    by eapply Hok.
  - assert (p = d /\ (d < partitions)%N /\ ps = range_N (d + 1) partitions) as (-> & Hlt & Hps').
    { unfold range_N in *. destruct (N.to_nat partitions - N.to_nat d) as [|k] eqn:E; [done|].
      simpl in Hps. injection Hps as -> ->. split_and!; [lia|lia|].
      replace (N.to_nat (d + 1)) with (S (N.to_nat d)) by lia. do 2 f_equal. lia. }
    apply wp_bind.
    eapply (wp_diff_partition_step self skh list tok Hns env Hrely renewal Hkey Hcfg over nver
              (diff_view s R) partitions d); [lia|exact Hinv|exact Hv| | |].
    + clear ks Hv. intros n R' ks Hinv' Hv.
      eapply (IH _ (d + 1)%N); [exact Hps'|lia|exact Hinv'| |exact Hv|done|done].
      right. split; [lia|]. simpl. destruct Hs as [[_ ->]|[_ ->]]; [done|]. by rewrite insert_insert_eq.
    + intros e R' ks' Hinv' Hv'. eapply (Herr e d); [lia|exact Hinv'|exact Hs|exact Hv'].
    + intros e R' ks' Hinv' Hv'. eapply (Herr e (d + 1)%N); [lia|exact Hinv'| |exact Hv'].
      right. split; [lia|]. simpl. destruct Hs as [[_ ->]|[_ ->]]; [done|]. by rewrite insert_insert_eq.
Qed.

Lemma wp_verify_partitions over old_card partitions ps total (Q : outcome WorkerError N -> keyspace -> Prop) ks :
  shows ks v -> (forall n ks', shows ks' v -> Q (Returned n) ks') ->
  (forall e ks', shows ks' v -> Q (Failed e) ks') ->
  wp env (verify_partitions self (fkey over) old_card partitions renewal ps total) Q ks.
Proof.
  intros Hv Hok Herr. revert total ks Hv. induction ps as [|p ps IH]; intros total ks Hv;
    cbn [verify_partitions]; [by apply Hok|].
  apply wp_bind.
  eapply (wp_scan_partition self skh list tok Hns env Hrely renewal Hkey Hcfg over); [exact Hv| |done].
  intros M ks' _ Hv'. by apply IH.
Qed.

Lemma partition_count_pos old_card new_card :
  (0 < partition_count self old_card new_card)%N.
Proof.
  unfold partition_count, div_ceil. pose proof (cfg_diff _ Hcfg). apply N.div_str_pos. lia.
Qed.

(** The old version to diff against, if there is one. *)
Definition old_set (over : option string) : gset string :=
  match over with Some over => v_fwd v over | None => ∅ end.

Definition partitions_of (over : option string) : N :=
  partition_count self (N.of_nat (size (old_set over))) (N.of_nat (size new)).

Lemma wp_apply_streamed_diff over d0 (Q : outcome WorkerError unit -> keyspace -> Prop) ks :
  (partitions_of over <= u64_max)%N ->
  diff_inv (old_set over) new (partitions_of over) d0 (v_rev v) -> shows ks v ->
  (forall s R ks', (forall x, R x <-> x ∈ new) -> (exists d, diff_state (partitions_of over) d0 d s) ->
     shows ks' (diff_view s R) -> Q (Returned tt) ks') ->
  (forall e d s R ks', diff_inv (old_set over) new (partitions_of over) d R ->
     diff_state (partitions_of over) d0 d s -> shows ks' (diff_view s R) -> Q (Failed e) ks') ->
  wp env (apply_streamed_diff self skh (fkey <$> over) (fkey nver) tok skey d0
            (N.of_nat (size (old_set over))) (N.of_nat (size new)) renewal) Q ks.
Proof.
  intros Hmax Hinv Hv Hok Herr. unfold apply_streamed_diff. fold (partitions_of over).
  assert (diff_view (v_state v) (v_rev v) = v) as Hself by (unfold diff_view; by destruct v).
  assert (forall e ks', shows ks' v -> Q (Failed e) ks') as Herr0.
  { intros e ks' Hv'. apply (Herr e d0 (v_state v) (v_rev v)); [done|by left|by rewrite Hself]. }
  destruct (bool_decide (N.of_nat (size (old_set over)) = 0%N)) eqn:Hz.
  - apply bool_decide_eq_true in Hz.
    assert (old_set over = ∅) as Hempty by (apply leibniz_equiv, size_empty_inv; lia).
    eapply (wp_fanout_scan self skh list tok Hns env Hrely renewal Hkey Hcfg
              (diff_inv (old_set over) new (partitions_of over) d0) nver true);
      [apply diff_inv_adds|exact Hinv|exact Hv| |].
    + intros R ks' HR Hv'. eapply (Hok (v_state v) R); [|exists d0; by left|exact Hv'].
      intros x. rewrite HR. case_decide as Hx; [done|]. split; [|done]. intros HRx. exfalso.
      apply (proj2 (proj1 Hinv) x); [set_solver|done|done].
    + intros e R ks' HI Hv'. eapply (Herr e d0 (v_state v) R); [exact HI|by left|exact Hv'].
  - destruct over as [over|]; [|by apply Herr0].
    change (fkey <$> Some over) with (Some (fkey over)). cbn beta iota zeta.
    destruct (bool_decide (partitions_of (Some over) < d0)%N) eqn:Hd; [by apply Herr0|]. apply bool_decide_eq_false in Hd.
    apply wp_bind. eapply (wp_verify_partitions over); [exact Hv| |done].
    clear ks Hv. intros n ks Hv. cbn beta iota. apply wp_bind.
    eapply (wp_diff_partitions over _ _ _ d0 _ _ d0 (v_state v) (v_rev v));
      [exact Hmax|done|lia|exact Hinv|by left|by rewrite Hself| |].
    + intros m s R ks' HI Hs Hv'. cbn beta iota.
      destruct (bool_decide (m = N.of_nat (size (old_set (Some over))))).
      * eapply Hok; [|by eexists|exact Hv']. intros x. apply HI.
        apply partition_for_lt, partition_count_pos.
      * by eapply Herr.
    + intros e d s R ks' _ HI Hs Hv'. by eapply Herr.
Qed.
End DiffWhole.

(** ** Lemmas: clearing a token *)

Lemma escape_glob_literal s : literal_pattern (escape_glob s) s.
Proof.
  induction s as [|c s IH]; simpl; [constructor|].
  destruct (glob_special c) eqn:E; [by apply lit_escaped|by apply lit_plain].
Qed.

Lemma prefixed_app self a b : prefixed self (a +:+ b) = prefixed self a +:+ b.
Proof.
  unfold prefixed, apply_key_prefix. repeat case_match; rewrite ?str_app_assoc; done.
Qed.

Section ClearSpec.
Context `{ScanOrder} (self : IdListSyncWorker) (skh list : string) (tok : N).
Context (Hns : namespace_ok skh) (env : environment).
Context (Hrely : forall ks ks', rely env ks ks' -> same_view (schema self) skh list tok ks ks').
Context (renewal : ClaimRenewal) (Hkey : cr_key renewal = claim_key (schema self) skh list).
Context (Hcfg : config_ok (config self)).
Abbreviation shows := (shows (schema self) skh list tok).
Abbreviation mkey := (mkey (schema self) skh).

Lemma mkey_app id : mkey id = mkey "" +:+ escape_component id.
Proof.
  unfold ListView.mkey, member_key. rewrite <- prefixed_app. f_equal. simpl.
  rewrite !str_app_assoc. done.
Qed.

(** The member a key of the scan belongs to, if it is a member key at all. *)
Definition member_of (key : string) : option string :=
  rest ← strip_prefix (mkey "") key;
  id ← unescape_component rest;
  if decide (escape_component id = rest) then Some id else None.

Lemma member_of_mkey id : member_of (mkey id) = Some id.
Proof.
  unfold member_of. rewrite (mkey_app id), strip_prefix_app. simpl.
  rewrite unescape_escape_id. simpl. by rewrite decide_True.
Qed.

Lemma member_of_Some key id : member_of key = Some id -> key = mkey id.
Proof.
  unfold member_of. intros (rest & Hr & Hid)%bind_Some. apply bind_Some in Hid as (i & Hi & Hd).
  case_decide as He; [|done]. simplify_eq. apply strip_prefix_Some in Hr. by rewrite (mkey_app id).
Qed.

(** A key that starts like a member key is not a state, forward or dictionary key. *)
Lemma member_prefix_not k rest t :
  k = prefixed (schema self) ("idlist::" +:+ t) -> k <> mkey "" +:+ rest.
Proof.
  intros -> Heq. unfold ListView.mkey, member_key in Heq. rewrite <- prefixed_app in Heq.
  apply prefixed_inj in Heq. simpl in Heq. rewrite !str_cons_app, !str_nil_app in Heq. done.
Qed.

Lemma acts_srem_key key : starts_with (mkey "") key = true ->
  acts (schema self) skh list tok (SREM key (show_u64 tok))
    (match member_of key with Some id => set_rev id false | None => id end).
Proof.
  intros Hs. destruct (member_of key) as [id|] eqn:Hm.
  - apply member_of_Some in Hm as ->. by apply acts_srem_member.
  - apply acts_foreign. simpl. unfold starts_with in Hs. apply bool_decide_eq_true in Hs as [rest Hr].
    apply strip_prefix_Some in Hr.
    intros [He|[He|[[ver He]|[id He]]]].
    + eapply (member_prefix_not key rest (skh +:+ "::" +:+ escape_component list +:+ "::state"));
        [|done]. rewrite He. done.
    + eapply (member_prefix_not key rest ("dict::" +:+ skh)); [|done]. by rewrite He.
    + eapply (member_prefix_not key rest ("fwd::" +:+ fwd_hash_tag skh list +:+ "::" +:+ escape_component ver));
        [|done]. by rewrite He.
    + rewrite He, member_of_mkey in Hm. done.
Qed.

(** The ids whose member key is on a page. *)
Definition page_ids (keys : Datatypes.list string) : Datatypes.list string := omap member_of keys.

Context (I : (string -> Prop) -> Prop) (HI : rev_inv (fun _ => True) false I).

Lemma srem_views keys v :
  apply_all ((fun key => match member_of key with Some id => set_rev id false | None => id end) <$> keys) v
  ≡ with_rev (rev_all (page_ids keys) false (v_rev v)) v.
Proof.
  unfold apply_all. revert v. induction keys as [|key keys IH]; intros v; simpl.
  - split_and!; [done|done| |done]. intros x. simpl. unfold rev_all. by rewrite decide_False by set_solver.
  - unfold page_ids in *. rewrite IH. simpl. destruct (member_of key) as [id|]; [|done].
    split_and!; [done|done| |done]. intros x. simpl. unfold rev_all.
    destruct (decide (x ∈ omap member_of keys)); [by rewrite decide_True by set_solver|].
    destruct (decide (x = id)); [by rewrite decide_True by set_solver|].
    by rewrite decide_False by set_solver.
Qed.

Lemma srem_partial keys v w :
  partial ((fun key => match member_of key with Some id => set_rev id false | None => id end) <$> keys) v w ->
  I (v_rev v) -> w ≡ with_rev (v_rev w) v /\ I (v_rev w).
Proof.
  intros Hp. remember (_ <$> keys) as fs eqn:Hfs. revert keys Hfs.
  induction Hp as [v w (Hs & Hf & Hr & Ht)|f fs v w Hp IH|f fs v w Hp IH]; intros keys Hfs HR.
  - split; [split_and!; simpl; try done; intros; by rewrite Hf|].
    eapply ri_proper; [exact HI|exact Hr|exact HR].
  - destruct keys as [|key keys]; [done|]. injection Hfs as -> ->.
    destruct (IH keys eq_refl) as [Hw Hi].
    + destruct (member_of key) as [id|]; [|done]. by apply (ri_flip _ _ _ HI).
    + split; [|done]. rewrite Hw at 1. destruct (member_of key); by split_and!.
  - destruct keys as [|key keys]; [done|]. injection Hfs as -> ->. by apply (IH keys).
Qed.

Lemma wp_srem_batches batches v (Q : outcome WorkerError unit -> keyspace -> Prop) ks :
  (forall key, key ∈ concat batches -> starts_with (mkey "") key = true) ->
  I (v_rev v) -> shows ks v ->
  (forall ks', shows ks' (with_rev (rev_all (page_ids (concat batches)) false (v_rev v)) v) ->
     Q (Returned tt) ks') ->
  (forall e R ks', I R -> shows ks' (with_rev R v) -> Q (Failed e) ks') ->
  wp env (srem_batches tok batches) Q ks.
Proof.
  revert v ks. induction batches as [|keys batches IH]; intros v ks Hin HR Hv Hok Herr;
    cbn [srem_batches].
  - apply Hok. eapply (shows_rev_ext _ _ _ _ _ (v_rev v)); [|by destruct v]. intros x.
    done.
  - simpl in Hin. apply wp_bind.
    eapply (wp_pipe _ _ _ _ env Hrely _
      ((fun key => match member_of key with Some id => set_rev id false | None => id end) <$> keys));
      [|exact Hv| |].
    + clear -Hin Hns. induction keys as [|key keys IH]; simpl; [constructor|].
      constructor; [apply acts_srem_key, Hin; set_solver|]. apply IH. set_solver.
    + intros _ ks' Hv'. rewrite srem_views in Hv'. eapply IH; [set_solver| |exact Hv'| |].
      * simpl. by eapply rev_inv_all.
      * intros ks2 Hv2. apply Hok. simpl. eapply shows_rev_ext; [|exact Hv2]. intros x. simpl.
        rewrite rev_all_app. unfold page_ids. by rewrite omap_app.
      * intros e R ks2 HR2 Hv2. by apply (Herr e R).
    + intros e ks' w Hp Hw. destruct (srem_partial _ _ _ Hp HR) as [Heq Hi].
      apply (Herr e (v_rev w)); [done|]. by rewrite <- Heq.
Qed.

(** A page of the keyspace, as the view sees it. *)
Lemma wp_scan_members cursor v
    (Q : outcome WorkerError (N * Datatypes.list string) -> keyspace -> Prop) ks :
  shows ks v ->
  (forall next keys ks', shows ks' v ->
     (forall key, key ∈ keys -> starts_with (mkey "") key = true) ->
     (forall id, v_rev v id -> later None cursor (mkey id) ->
        mkey id ∈ keys \/ (next <> 0%N /\ later None next (mkey id))) ->
     (next <> 0%N -> rank None next < rank None cursor) ->
     Q (Returned (next, keys)) ks') ->
  (forall e ks', shows ks' v -> Q (Failed e) ks') ->
  wp env (redis (SCAN cursor (member_pattern self skh) (scan_count (config self)))) Q ks.
Proof.
  intros Hv Hok Herr.
  assert (forall key, glob_match (member_pattern self skh) key = starts_with (mkey "") key) as Hglob.
  { intros key. apply glob_match_prefix, escape_glob_literal. }
  eapply (wp_read _ _ _ _ env Hrely _ (fun v a =>
    (forall key, key ∈ a.2 -> starts_with (mkey "") key = true) /\
    (forall id, v_rev v id -> later None cursor (mkey id) ->
        mkey id ∈ a.2 \/ (a.1 <> 0%N /\ later None a.1 (mkey id))) /\
    (a.1 <> 0%N -> rank None a.1 < rank None cursor))); [done| |exact Hv| |done].
  - intros ks1 a (Hs & Hf & Hr & Ht) [_ [[e He]|(a' & [= <-] & Hp)]]; [done|].
    destruct Hp as (Hsub & Hcov & Hrank). split_and!; [| |done].
    + intros key Hkey'. rewrite <- Hglob. by apply Hsub.
    + intros id Hid Hl. apply Hcov; [|done]. split.
      * apply Hr in Hid. unfold set_at, as_set in Hid.
        destruct (ks1 !! ListView.mkey (schema self) skh id); [done|]. set_solver.
      * rewrite Hglob. unfold starts_with. apply bool_decide_eq_true. rewrite (mkey_app id), strip_prefix_app.
        by eexists.
  - intros [next keys] ks' Hv' (H1 & H2 & H3). by apply Hok.
Qed.

Lemma wp_clear_loop fuel cursor v R (Q : outcome WorkerError unit -> keyspace -> Prop) ks :
  I R -> (forall id, R id -> later None cursor (mkey id)) -> rank None cursor < fuel ->
  shows ks (with_rev R v) ->
  (forall R' ks', (forall id, ~ R' id) -> shows ks' (with_rev R' v) -> Q (Returned tt) ks') ->
  (forall e R' ks', I R' -> shows ks' (with_rev R' v) -> Q (Failed e) ks') ->
  wp env (clear_loop self fuel (member_pattern self skh) tok renewal cursor) Q ks.
Proof.
  revert cursor R ks. induction fuel as [|fuel IH]; intros cursor R ks HR Htodo Hfuel Hv Hok Herr; [lia|].
  assert (forall e ks', shows ks' (with_rev R v) -> Q (Failed e) ks') as Herr0 by (intros; by eapply Herr).
  cbn [clear_loop]. apply wp_bind. eapply (wp_renew_now _ _ _ _ Hns env Hrely); [done|exact Hv| |done].
  clear ks Hv. intros ks Hv. apply wp_bind. eapply (wp_conn _ _ _ _ env Hrely); [exact Hv| |done].
  clear ks Hv. intros ks Hv. apply wp_bind. eapply wp_scan_members; [exact Hv| |done].
  clear ks Hv. intros next keys ks Hv Hpre Hcov Hrank. cbn beta iota. apply wp_bind.
  pose proof (cfg_batch _ Hcfg) as Hb. simpl in Hcov.
  eapply (wp_srem_batches _ (with_rev R v)); [|exact HR|exact Hv| |].
  - rewrite chunks_concat by lia. exact Hpre.
  - rewrite chunks_concat by lia. clear ks Hv. intros ks Hv. simpl in Hv.
    assert (forall id, rev_all (page_ids keys) false R id -> R id /\ mkey id ∉ keys) as Hleft.
    { intros id. unfold rev_all. case_decide as Hin; [done|]. intros Hid. split; [done|].
      intros Hk. apply Hin. unfold page_ids. apply list_elem_of_omap. exists (mkey id).
      split; [done|apply member_of_mkey]. }
    destruct (decide (next = 0%N)) as [Hz|Hz].
    + eapply Hok; [|exact Hv]. intros id Hid. destruct (Hleft id Hid) as [Hr Hk].
      destruct (Hcov id Hr (Htodo id Hr)) as [?|[? _]]; done.
    + eapply IH; [|intros id Hid|specialize (Hrank Hz); lia|exact Hv|done|done].
      * by eapply rev_inv_all.
      * destruct (Hleft id Hid) as [Hr Hk]. by destruct (Hcov id Hr (Htodo id Hr)) as [?|[_ ?]].
  - intros e R' ks' HI' Hv'. by eapply Herr.
Qed.

Lemma wp_clear_reverse_token v (Q : outcome WorkerError unit -> keyspace -> Prop) ks :
  I (v_rev v) -> shows ks v ->
  (forall R ks', (forall id, ~ R id) -> shows ks' (with_rev R v) -> Q (Returned tt) ks') ->
  (forall e R ks', I R -> shows ks' (with_rev R v) -> Q (Failed e) ks') ->
  wp env (clear_reverse_token self skh tok renewal) Q ks.
Proof.
  intros HR Hv Hok Herr. unfold clear_reverse_token.
  eapply (wp_clear_loop _ 0%N v (v_rev v)); [done|intros; apply later_start|unfold scan_fuel; lia| |done|done].
  by destruct v.
Qed.
End ClearSpec.
