(* ===== verification/Reload.v ===== *)
(** * Reload: full loads and reverse-index repair

    Models [src/src/datastore/idlist_membership/worker/reload.rs]. The long
    [apply_full_reload] is split at its phases: flags and registration, start or
    resume, download, index, commit. *)
From S2P Require Import Prelude Schema Effects Dict WorkerCore Parser Download ListView WorkLock.
From S2P Require Import FileContent Delta StreamedDiff.

(** [FromRedisValue] for [Option<u64>]. *)
Definition parse_opt_u64 (value : option string) : prog WorkerError (option N) :=
  match value with
  | None => Ret None
  | Some s =>
      match parse_u64 s with
      | Some n => Ret (Some n)
      | None => Throw (WeRedis (TypeError "not an integer"))
      end
  end.

(** [state.cardinality.unwrap_or(state.size)] *)
Definition expected_cardinality (state : ListSyncState) : N := default (size_ state) (cardinality state).

Section Reload.
Context `{UrlLib} `{ScanOrder} `{PartitionHash} (self : IdListSyncWorker).

Definition initialize_load (state_key version : string) : prog WorkerError N :=
  _ ← get_conn;
  _ ← pipe [HSET state_key [(state_fields.LOADING_VERSION, version); (state_fields.LOADING_SIZE, show_u64 0)];
            HDEL state_key [state_fields.DIFF_PARTITION; state_fields.LOADING_CARDINALITY;
                            state_fields.REMOVAL_FANOUT_COMPLETE]];
  Ret 0%N.

Definition commit_fields (version : string) (meta : TaskMetadata) (cardinality : N)
    : list (string * string) :=
  [(state_fields.VERSION, version);
   (state_fields.FILE_ID, tm_file_id meta);
   (state_fields.URL, tm_url meta);
   (state_fields.CREATION_TIME, show_u64 (tm_creation_time meta));
   (state_fields.SIZE, show_u64 (tm_size meta));
   (state_fields.CARDINALITY, show_u64 cardinality)].
Definition load_fields : list string :=
  [state_fields.LOADING_VERSION; state_fields.LOADING_SIZE; state_fields.RECONCILE_REQUIRED;
   state_fields.DIFF_PARTITION; state_fields.LOADING_CARDINALITY;
   state_fields.REMOVAL_FANOUT_COMPLETE].

Definition commit_reload (skh list state_key new_key : string) (old_key : option string)
    (meta : TaskMetadata) : prog WorkerError unit :=
  let version := tm_version_tag meta in
  cardinality ← scard new_key;
  _ ← get_conn;
  _ ← pipe [HSET state_key (commit_fields version meta cardinality);
            HDEL state_key load_fields;
            SADD (all_lists_key (schema self) skh) list];
  _ ← (if enable_reverse_index (config self)
       then _ ← write (HDEL state_key [REVERSE_INDEX_DISABLED]); Ret tt else Ret tt);
  _ ← write (PERSIST new_key);
  match old_key with
  | Some old_key =>
      if decide (old_key = new_key) then Ret tt
      else _ ← write (EXPIRE old_key (as_i64 (old_version_ttl_s (config self)))); Ret tt
  | None => Ret tt
  end.

Definition reconcile_committed_forward (skh list : string) (state : ListSyncState)
    (meta : TaskMetadata) (renewal : ClaimRenewal) : prog WorkerError bool :=
  if negb (enable_reverse_index (config self)) || negb (reverse_index_disabled state)
     || str_empty (version state) || negb (bool_decide (file_id state = tm_file_id meta))
     || negb (bool_decide (size_ state = tm_size meta))
     || bool_decide (is_Some (loading_version state))
  then Ret false
  else
    let forward_key := fwd_key (schema self) skh list (version state) in
    card ← scard forward_key;
    if negb (bool_decide (cardinality state = Some card)) then Ret false
    else
      _ ← ensure_current_version_persisted self skh list state;
      let state_key := state_key (schema self) skh list in
      _ ← get_conn;
      _ ← pipe [HSET state_key [(state_fields.RECONCILE_REQUIRED, "1")];
                DEL (ready_key (schema self) skh)];
      token ← get_or_allocate_token (schema self) skh list;
      _ ← clear_reverse_token self skh token renewal;
      _ ← fanout_scan self skh forward_key token true card renewal;
      _ ← renew_now renewal;
      _ ← get_conn;
      _ ← write (HDEL state_key [REVERSE_INDEX_DISABLED; state_fields.RECONCILE_REQUIRED]);
      Ret true.

(** [old_missing], [pending_missing] and [reconcile]; the checks short-circuit. *)
Definition reload_flags (skh list : string) (state : ListSyncState) (new_version new_key : string)
    : prog WorkerError (bool * bool) :=
  let matching_load := bool_decide (loading_version state = Some new_version) in
  old_missing ←
    (if negb (str_empty (version state)) && bool_decide (0 < expected_cardinality state)%N
     then found ← key_exists (fwd_key (schema self) skh list (version state)); Ret (negb found)
     else Ret false);
  pending_missing ←
    (if matching_load
        && bool_decide (0 < default (default 0%N (loading_size state)) (loading_cardinality state))%N
     then found ← key_exists new_key; Ret (negb found)
     else Ret false);
  let reconcile :=
    reconcile_required state
    || (enable_reverse_index (config self) && reverse_index_disabled state)
    || old_missing || pending_missing
    || (bool_decide (is_Some (loading_version state)) && negb matching_load) in
  Ret (pending_missing, reconcile).

Definition reload_register (skh list state_key : string) (reconcile : bool) : prog WorkerError unit :=
  _ ← get_conn;
  _ ← write (SADD (all_lists_key (schema self) skh) list);
  if reconcile then
    _ ← write (DEL (ready_key (schema self) skh));
    _ ← write (HSET state_key [(state_fields.RECONCILE_REQUIRED, "1")]);
    Ret tt
  else Ret tt.

(** Resume the load that is registered, or start a new one; the result is
    [loading_size]. *)
Definition reload_start (state : ListSyncState) (state_key new_version new_key : string) (resume : bool)
    : prog WorkerError N :=
  if resume then Ret (default 0%N (loading_size state))
  else
    _ ← get_conn;
    _ ← write (DEL new_key);
    _ ← initialize_load state_key new_version;
    Ret 0%N.

(** The download, when no diff has started; the result is [loading_size] and
    [diff_partition]. *)
Definition reload_download (skh state_key new_key : string) (meta : TaskMetadata) (loading_size : N)
    (diff_partition : option N) : prog WorkerError (N * N) :=
  match diff_partition with
  | Some d => Ret (loading_size, d)
  | None =>
      loading_size ←
        (if bool_decide (loading_size < tm_size meta)%N then
           applied ← apply_file_stream self skh (tm_url meta) loading_size (tm_size meta)
                       (ModeLoad new_key state_key);
           if bool_decide (sar_checkpoint applied < tm_size meta)%N then
             Throw (InvalidFile ("full download ended at complete-line offset "
               +:+ show_u64 (sar_checkpoint applied) +:+ ", before task size "
               +:+ show_u64 (tm_size meta) +:+ " (partial trailing line: "
               +:+ show_bool (sar_partial_trailing_line applied) +:+ ")"))
           else Ret (sar_checkpoint applied)
         else Ret loading_size);
      _ ← get_conn;
      _ ← write (HSET state_key [(state_fields.DIFF_PARTITION, show_u64 0)]);
      Ret (loading_size, 0%N)
  end.

(** Checking the downloaded set and updating the reverse index. *)
Definition reload_index (skh list : string) (state : ListSyncState) (state_key new_key : string)
    (old_key : option string) (token diff_partition : N) (reconcile : bool) (renewal : ClaimRenewal)
    : prog WorkerError unit :=
  old_card ← match old_key with Some key => scard key | None => Ret 0%N end;
  new_card ← scard new_key;
  _ ← get_conn;
  value ← redis (HGET state_key state_fields.LOADING_CARDINALITY);
  expected ← parse_opt_u64 value;
  _ ← ensure (match expected with Some count => bool_decide (count = new_card) | None => true end)
        (ScanVerification "pending forward set changed after download");
  reconcile ←
    (if bool_decide (is_Some old_key) && bool_decide (0 < expected_cardinality state)%N
        && bool_decide (old_card = 0%N)
     then
       _ ← write (HSET state_key [(state_fields.RECONCILE_REQUIRED, "1")]);
       _ ← write (DEL (ready_key (schema self) skh));
       Ret true
     else Ret reconcile);
  if enable_reverse_index (config self) && reconcile then
    _ ← clear_reverse_token self skh token renewal;
    fanout_scan self skh new_key token true new_card renewal
  else if enable_reverse_index (config self) then
    apply_streamed_diff self skh old_key new_key token state_key diff_partition old_card new_card renewal
  else Ret tt.

Definition apply_full_reload (skh list : string) (state : ListSyncState) (meta : TaskMetadata)
    (renewal : ClaimRenewal) : prog WorkerError unit :=
  reconciled ← reconcile_committed_forward skh list state meta renewal;
  if (reconciled : bool) then Ret tt
  else
    let state_key := state_key (schema self) skh list in
    let new_version := tm_version_tag meta in
    let new_key := fwd_key (schema self) skh list new_version in
    let old_version := version state in
    let matching_load := bool_decide (loading_version state = Some new_version) in
    '(pending_missing, reconcile) ← reload_flags skh list state new_version new_key;
    _ ← reload_register skh list state_key reconcile;
    let resume := matching_load && negb pending_missing in
    loading_size ← reload_start state state_key new_version new_key resume;
    let diff_partition := if resume then diff_partition state else None in
    token ← get_or_allocate_token (schema self) skh list;
    '(loading_size, diff_partition) ←
      reload_download skh state_key new_key meta loading_size diff_partition;
    let old_key :=
      if negb (str_empty old_version) && negb (bool_decide (old_version = new_version))
      then Some (fwd_key (schema self) skh list old_version) else None in
    _ ← reload_index skh list state state_key new_key old_key token diff_partition reconcile renewal;
    let committed_meta := {| tm_op := tm_op meta; tm_file_id := tm_file_id meta;
                             tm_creation_time := tm_creation_time meta; tm_url := tm_url meta;
                             tm_size := loading_size |} in
    _ ← renew_now renewal;
    commit_reload skh list state_key new_key old_key committed_meta.
End Reload.
