(* ===== verification/WorkerRun.v ===== *)
(** * WorkerRun: one task of the sync worker

    Models [apply_remove] of
    [src/src/datastore/idlist_membership/worker/removal.rs] and the task loop body
    of [src/src/datastore/idlist_membership/worker/run.rs]. *)
From S2P Require Import Prelude Schema Effects Dict WorkerCore Parser Download ListView WorkLock.
From S2P Require Import FileContent Delta StreamedDiff Reload Planning.

Section WorkerRun.
Context `{UrlLib} `{ScanOrder} `{PartitionHash} (self : IdListSyncWorker).

(** [FromRedisValue] for [Option<u8>]: only its presence is used. *)
Definition parse_opt_u8 (value : option string) : prog WorkerError bool :=
  match value with
  | None => Ret false
  | Some s =>
      match parse_bounded 255 s with
      | Some _ => Ret true
      | None => Throw (WeRedis (TypeError "not an integer"))
      end
  end.

Definition removal_cmds (skh list : string) (state : ListSyncState) (token : option N)
    : Datatypes.list wcmd :=
  match loading_version state with
  | Some version => [DEL (fwd_key (schema self) skh list version)]
  | None => []
  end
  ++ [DEL (fwd_key (schema self) skh list (version state));
      DEL (task_meta_key (schema self) skh list);
      HDEL (dict_key (schema self) skh)
        (name_field list :: match token with Some t => [token_field t] | None => [] end);
      SREM (all_lists_key (schema self) skh) list;
      DEL (state_key (schema self) skh list)].

(** Taking the token out of the member sets, before the forward set goes. *)
Definition removal_fanout (skh list : string) (state : ListSyncState) (token : N)
    (renewal : ClaimRenewal) : prog WorkerError unit :=
  let forward_key := fwd_key (schema self) skh list (version state) in
  missing ← (if bool_decide (0 < expected_cardinality state)%N
             then found ← key_exists forward_key; Ret (negb found) else Ret false);
  if missing || reverse_index_disabled state || str_empty (version state)
     || bool_decide (is_Some (loading_version state)) || reconcile_required state
  then clear_reverse_token self skh token renewal
  else
    card ← scard forward_key;
    fanout_scan self skh forward_key token false card renewal.

Definition apply_remove (skh list : string) (state : ListSyncState) (renewal : ClaimRenewal)
    : prog WorkerError unit :=
  let state_key := state_key (schema self) skh list in
  _ ← get_conn;
  value ← redis (HGET state_key state_fields.REMOVAL_FANOUT_COMPLETE);
  fanout_complete ← parse_opt_u8 value;
  token ← get_token (schema self) skh list;
  if enable_reverse_index (config self) && negb fanout_complete && bool_decide (token = None)
     && negb (str_empty (version state))
  then Throw MissingDictionaryToken
  else
    _ ← match token with
        | Some token =>
            if enable_reverse_index (config self) && negb fanout_complete
            then removal_fanout skh list state token renewal else Ret tt
        | None => Ret tt
        end;
    _ ← (if (fanout_complete : bool) then Ret tt
         else
           _ ← get_conn;
           _ ← write (HSET state_key [(state_fields.REMOVAL_FANOUT_COMPLETE, "1")]);
           Ret tt);
    _ ← get_conn;
    _ ← pipe (removal_cmds skh list state token);
    Ret tt.

Definition plan_work (skh list : string) (state_exists : bool) (state : ListSyncState)
    (meta : TaskMetadata) : prog WorkerError (option (WorkerAction * TaskMetadata)) :=
  forward_exists ←
    (if state_exists && negb (str_empty (version state))
     then _ ← get_conn; redis (EXISTS (fwd_key (schema self) skh list (version state)))
     else Ret false);
  let plan := plan_sync_with_reverse_index (if (state_exists : bool) then Some state else None)
                (as_idlist_metadata meta) forward_exists (enable_reverse_index (config self)) in
  _ ← match plan with
      | None => _ ← ensure_current_version_persisted self skh list state; Ret tt
      | Some _ => Ret tt
      end;
  match plan with
  | None => Ret None
  | Some (action, target) =>
      action ← match action with
               | FullLoad => Ret WaFullReload
               | Planning.Delta _ => Ret WaDelta
               | Remove => Throw (InvalidTask "load task resolved to remove")
               end;
      Ret (Some (action,
        {| tm_op := OpLoad; tm_file_id := meta_file_id target;
           tm_creation_time := meta_creation_time target; tm_url := meta_url target;
           tm_size := meta_size target |}))
  end.

Definition remove_metadata : TaskMetadata := {|
  tm_op := OpRemove; tm_file_id := ""; tm_creation_time := 0; tm_url := ""; tm_size := 0 |}.

(** Record that reverse updates will be skipped, before any forward data changes. *)
Definition mark_reverse_disabled (skh list : string) : prog WorkerError unit :=
  if enable_reverse_index (config self) then Ret tt
  else
    _ ← get_conn;
    _ ← write (HSET (dict_key (schema self) skh) [(REVERSE_INDEX_DISABLED, "1")]);
    _ ← write (HSET (state_key (schema self) skh list) [(REVERSE_INDEX_DISABLED, "1")]);
    Ret tt.

Definition run_claimed (skh list : string) (renewal : ClaimRenewal) : prog WorkerError WorkerRunOutcome :=
  _ ← get_conn;
  replies ← pipe_reads [HGETALL (task_meta_key (schema self) skh list);
                        HGETALL (state_key (schema self) skh list)];
  let meta_fields := default ∅ (replies !! 0) in
  let state_hash := default ∅ (replies !! 1) in
  let state_exists := negb (bool_decide (state_hash = ∅)) in
  let state := from_hash_fields state_hash in
  let recovering_removal_cleanup :=
    bool_decide (meta_fields = ∅)
    && bool_decide (is_Some (state_hash !! state_fields.REMOVAL_FANOUT_COMPLETE)) in
  if negb recovering_removal_cleanup && bool_decide (meta_fields = ∅) then Ret Dropped
  else
    meta ← (if recovering_removal_cleanup then Ret remove_metadata
            else lift_result (from_hash meta_fields));
    planned ← match tm_op meta with
              | OpRemove => Ret (Some (WaRemove, meta))
              | OpLoad => plan_work skh list state_exists state meta
              end;
    match planned with
    | None => Ret Dropped
    | Some (action, meta) =>
        _ ← mark_reverse_disabled skh list;
        _ ← match action with
            | WaDelta => apply_delta self skh list state meta
            | WaFullReload => apply_full_reload self skh list state meta renewal
            | WaRemove => apply_remove skh list state renewal
            end;
        Ret (Completed action)
    end.

Definition run_once : prog WorkerError WorkerRunOutcome :=
  _ ← get_conn;
  popped ← redis (ZPOPMIN (queue_key (schema self)));
  match popped with
  | None => Ret Idle
  | Some (task, _) =>
      match decode_task task with
      | None => Ret Dropped
      | Some (skh, list) =>
          let key := claim_key (schema self) skh list in
          acquired ← try_acquire (claim self) key (lock_ttl_s (config self));
          if negb acquired then Ret ClaimConflict
          else
            let renewal := {| cr_lock := claim self; cr_key := key;
                              cr_ttl_s := lock_ttl_s (config self) |} in
            r ← attempt (run_claimed skh list renewal);
            _ ← attempt (F := WorkerError) (stop_and_release renewal);
            lift_result r
      end
  end.
End WorkerRun.
