(* ===== verification/Footprint.v ===== *)
(** * Footprint: the commands of the worker after it has a token

    A load, a fan-out and a commit write sets, the list's state hash, its forward
    sets, the readiness marker and the claim; in particular they leave the
    dictionary of the company alone, whatever token and replies they run with. *)
From S2P Require Import Prelude Schema Effects Dict WorkerCore Parser Download ListView WorkLock.
From S2P Require Import FileContent Delta StreamedDiff Reload.

(** A write that cannot change a hash at [k]. *)
Definition wcmd_off (k : string) (w : wcmd) : Prop :=
  match w with SADD _ _ | SREM _ _ => True | w => wcmd_key w <> k end.
Definition cmd_off (k : string) (R : Type) (c : cmd R) : Prop :=
  match c with
  | Write w => wcmd_off k w
  | MULTI ws => Forall (wcmd_off k) ws
  | c => k ∉ cmd_keys c
  end.

Lemma exec_off k w ks f s :
  wcmd_off k w -> hash_at ks k !! f = Some s -> hash_at (exec_w w ks).2 k !! f = Some s.
Proof.
  intros Hw Hs. destruct (decide (wcmd_key w = k)) as [<-|Hne].
  - assert (as_set ks (wcmd_key w) = None) as Hset.
    { unfold hash_at, as_hash in Hs. unfold as_set. destruct (ks !! wcmd_key w) as [e|]; [|done].
      by destruct (val e). }
    destruct w; simpl in *; try done; by rewrite Hset.
  - erewrite hash_at_ext; [exact Hs|]. by apply exec_w_frame.
Qed.

Lemma exec_multi_off k ws ks f s :
  Forall (wcmd_off k) ws -> hash_at ks k !! f = Some s -> hash_at (exec_multi ws ks) k !! f = Some s.
Proof.
  intros Hws. revert ks. induction Hws as [|w ws Hw Hws IH]; intros ks Hs; [done|].
  apply IH. by apply exec_off.
Qed.

Lemma contract_off `{ScanOrder} k f s R (c : cmd R) ks r ks' :
  cmd_off k R c -> hash_at ks k !! f = Some s -> contract c ks r ks' -> hash_at ks' k !! f = Some s.
Proof.
  intros Hc Hs Hk. destruct c as [|w|ws| | | | | | | | | | | | | | | | | | |];
    try (erewrite hash_at_ext; [exact Hs|]; by eapply contract_frame).
  - pose proof (exec_off _ _ _ _ _ Hc Hs) as Hx. unfold contract in Hk. simpl in Hk.
    destruct (exec_w w ks) as [r0 ks0]. destruct Hk as [[_ ->]|[_ [->| ->]]]; done.
  - pose proof (exec_multi_off _ _ _ _ _ Hc Hs) as Hx. unfold contract in Hk. simpl in Hk.
    destruct Hk as [[_ ->]|[_ [->| ->]]]; done.
Qed.

(** ** Footprints of the programs *)

Section Footprint.
Context `{UrlLib} `{ScanOrder} `{PartitionHash} (self : IdListSyncWorker) (skh list : string) (k : string).
Abbreviation off p := (commands_ok (cmd_off k) p).

(** Binds, connections, reads and case distinctions of a program. *)
Ltac off_step :=
  match goal with
  | |- commands_ok _ (mbind _ _) => apply commands_ok_bind; [|intros ?]
  | |- commands_ok _ (Ret _) => exact I
  | |- commands_ok _ (Throw _) => exact I
  | |- commands_ok _ OutOfFuel => exact I
  | |- commands_ok _ get_conn => split; [apply not_elem_of_nil|by intros [?|?]]
  | |- commands_ok _ (redis _) => split; [try apply not_elem_of_nil|by intros [?|?]]
  | |- commands_ok _ (write _) => split; [|by intros [?|?]]
  | |- commands_ok _ (lift_result ?r) => destruct r; exact I
  | |- commands_ok _ (ensure ?b _) => destruct b; exact I
  | |- commands_ok _ (if ?b then _ else _) => destruct b
  | |- commands_ok _ (match ?x with _ => _ end) => destruct x
  | |- commands_ok _ ((let '(_, _) := ?x in _)) => destruct x
  end.
Ltac off := repeat off_step; auto 2.

Lemma off_pipe {E} `{FromRedis E} ws : Forall (wcmd_off k) ws -> off (pipe (E := E) ws).
Proof.
  unfold pipe. generalize (@None redis_error) (@nil N). intros err acc Hws. revert err acc.
  induction Hws as [|w ws Hw Hws IH]; intros err acc; simpl; [by destruct err|].
  split; [done|]. intros [n|e]; apply IH.
Qed.

Lemma off_attempt {E F A} (p : prog E A) : off p -> off (attempt (F := F) p).
Proof. induction p; simpl; naive_solver. Qed.

Lemma off_sets (f : string -> wcmd) ms : (forall m, wcmd_off k (f m)) -> Forall (wcmd_off k) (f <$> ms).
Proof. intros Hf. induction ms; simpl; by constructor. Qed.

Lemma off_key_exists key : off (key_exists key).
Proof. unfold key_exists. off. Qed.
Lemma off_scard key : off (scard key).
Proof. unfold scard. off. Qed.
Lemma off_sscan key cursor : off (sscan_page self key cursor).
Proof. unfold sscan_page. off. Qed.
Lemma off_verify_before key n : off (verify_scan_key_before key n).
Proof. unfold verify_scan_key_before. off. apply off_key_exists. Qed.
Lemma off_verify_complete key n m : off (verify_scan_complete key n m).
Proof. unfold verify_scan_complete. off. apply off_key_exists. Qed.
Lemma off_ensure_held : off ensure_held.
Proof. by intros []. Qed.

Context (renewal : ClaimRenewal) (Hclaim : cr_key renewal <> k).

Lemma off_renew_now : off (renew_now renewal).
Proof. unfold renew_now, renew. off; [apply off_ensure_held|]. simpl. set_solver. Qed.
Lemma off_renew_on_page pages : off (renew_on_page renewal pages).
Proof. unfold renew_on_page. off. apply off_renew_now. Qed.

Lemma off_fanout_members ms t b : off (fanout_members self skh ms t b).
Proof.
  unfold fanout_members. induction (chunks _ ms) as [|c cs IH]; cbn [fanout_batches]; off.
  apply off_pipe, off_sets. intros m. by destruct b.
Qed.

Lemma off_fanout_loop fuel key t b c s p : off (fanout_loop self fuel skh key t b renewal c s p).
Proof.
  revert c s p. induction fuel as [|fuel IH]; intros c s p; cbn [fanout_loop]; off;
    [apply off_sscan|apply off_fanout_members|apply off_renew_on_page].
Qed.
Lemma off_fanout_scan key t b n : off (fanout_scan self skh key t b n renewal).
Proof.
  unfold fanout_scan. off; [apply off_verify_before|apply off_fanout_loop|apply off_verify_complete].
Qed.

Lemma off_partition_loop fuel key p ps ms c s pg :
  off (partition_loop self fuel key p ps renewal ms c s pg).
Proof.
  revert ms c s pg. induction fuel as [|fuel IH]; intros ms c s pg; cbn [partition_loop]; off;
    [apply off_sscan|apply off_renew_on_page].
Qed.
Lemma off_scan_partition key n p ps : off (scan_partition self key n p ps renewal).
Proof.
  unfold scan_partition. off; [apply off_verify_before|apply off_partition_loop|apply off_verify_complete].
Qed.

Lemma off_diff_members t p ps ms E A : off (diff_members self skh t p ps ms E A).
Proof.
  revert E A. induction ms as [|m ms IH]; intros E A; cbn [diff_members]; [done|]. cbn zeta. off.
  apply off_fanout_members.
Qed.

Lemma off_diff_loop fuel key t p ps E A c s pg :
  off (diff_loop self fuel skh key t p ps renewal E A c s pg).
Proof.
  revert E A c s pg. induction fuel as [|fuel IH]; intros E A c s pg; cbn [diff_loop]; off;
    [apply off_sscan|apply off_diff_members|apply off_renew_on_page].
Qed.

Lemma off_fanout_chunks t b cs : off (fanout_chunks self skh t b cs).
Proof. induction cs as [|c cs IH]; cbn [fanout_chunks]; off. apply off_fanout_members. Qed.

Lemma off_verify_partitions key n ps rs total : off (verify_partitions self key n ps renewal rs total).
Proof.
  revert total. induction rs as [|r rs IH]; intros total; cbn [verify_partitions]; off.
  apply off_scan_partition.
Qed.

Context (Hstate : state_key (schema self) skh list <> k).
Abbreviation skey := (state_key (schema self) skh list).

Lemma off_streamed_diff old_key new_key t d oc nc :
  off (apply_streamed_diff self skh old_key new_key t skey d oc nc renewal).
Proof.
  unfold apply_streamed_diff. off; [apply off_fanout_scan|apply off_verify_partitions|].
  induction (range_N d _) as [|p ps IH] in a |- *; cbn [diff_partitions]; off.
  unfold diff_partition_step. cbn zeta. off;
    first [apply off_scan_partition|apply off_verify_before|apply off_diff_loop
          |apply off_verify_complete|apply off_fanout_members|apply off_fanout_chunks
          |apply off_renew_now|done].
Qed.

Lemma off_clear_token t : off (clear_reverse_token self skh t renewal).
Proof.
  unfold clear_reverse_token. generalize 0%N. generalize (scan_fuel None). intros fuel.
  induction fuel as [|fuel IH]; intros c; cbn [clear_loop]; off; [apply off_renew_now|].
  match goal with |- context [chunks ?n ?l] => induction (chunks n l) as [|b bs IHb] end;
    cbn [srem_batches]; off. by apply off_pipe, off_sets.
Qed.

(** ** The download *)

Lemma off_download_file url start size : off (download_file url start size).
Proof. unfold download_file, send. off. simpl. by intros [?|?]. Qed.

Lemma off_stream_next s : off (stream_next s).
Proof.
  unfold stream_next. off. apply off_attempt. unfold download_chunk, send. off. simpl. by intros [?|?].
Qed.

Context (Hfwd : forall ver, fwd_key (schema self) skh list ver <> k).
Abbreviation load_mode ver := (ModeLoad (fwd_key (schema self) skh list ver) skey).

Lemma off_file_batch ver cs n b : off (apply_file_batch self skh (load_mode ver) cs n b).
Proof.
  unfold apply_file_batch. cbn beta iota zeta. off.
  assert (Forall (wcmd_off k) (load_cmds (fwd_key (schema self) skh list ver) cs b)) as Hws.
  { unfold load_cmds. apply Forall_app. split.
    - clear. induction cs as [|c cs IH]; simpl; constructor; [|done]. unfold change_cmd. by destruct (add c).
    - destruct (b && _); [|done]. constructor; [|done]. apply Hfwd. }
  unfold pipe_atomic. destruct (load_cmds _ _ _); [done|]. off.
Qed.

Lemma off_apply_decoded ver ls st : off (apply_decoded self skh (load_mode ver) ls st).
Proof.
  revert st. induction ls as [|l ls IH]; intros st; cbn [apply_decoded]; cbn zeta; off.
  apply off_file_batch.
Qed.

Lemma off_stream_loop fuel ver s st : off (stream_loop self fuel skh (load_mode ver) s st).
Proof.
  revert s st. induction fuel as [|fuel IH]; intros s st; cbn [stream_loop]; off;
    [apply off_stream_next|apply off_ensure_held|apply off_apply_decoded].
Qed.

Lemma off_file_stream ver url start size : off (apply_file_stream self skh url start size (load_mode ver)).
Proof.
  unfold apply_file_stream. off; [apply off_download_file|apply off_stream_loop|apply off_file_batch].
Qed.

(** ** The end of a reload *)

Context (Hready : ready_key (schema self) skh <> k).

Lemma off_reload_download ver meta ls d :
  off (reload_download self skh skey (fwd_key (schema self) skh list ver) meta ls d).
Proof. unfold reload_download. off; apply off_file_stream. Qed.

Lemma off_reload_index state new_key old_key t d r :
  off (reload_index self skh list state skey new_key old_key t d r renewal).
Proof.
  unfold reload_index, parse_opt_u64. off;
    first [apply off_scard|apply off_clear_token|apply off_fanout_scan|apply off_streamed_diff|done].
Qed.

Lemma off_commit_reload ver over meta :
  off (commit_reload self skh list skey (fwd_key (schema self) skh list ver)
         (fwd_key (schema self) skh list <$> over) meta).
Proof.
  unfold commit_reload. destruct over as [over|]; cbn zeta; cbn [fmap option_fmap option_map];
    off; try done; try apply Hfwd; try apply off_scard; apply off_pipe; by repeat constructor.
Qed.
End Footprint.

Lemma wp_commands `{ScanOrder} env (G : forall R, cmd R -> Prop) {E A} (p : prog E A) (P : keyspace -> Prop) ks :
  commands_ok G p -> stable env P ->
  (forall R (c : cmd R) ks1 r ks2, G R c -> P ks1 -> contract c ks1 r ks2 -> P ks2) ->
  P ks -> wp env p (fun _ ks' => P ks') ks.
Proof.
  intros Hp HS HG. revert ks. induction p as [a|e| |R c p IH|q p IH|p IH]; intros ks HP; simpl in *; try done.
  - destruct Hp as [Hc Hk]. eauto.
  - eauto.
  - eauto.
Qed.
