(* ===== verification/ReloadSpec.v ===== *)
(** * ReloadSpec: a full reload publishes the file and repairs the index

    The invariant of a list between two runs of the worker ([list_inv]), what a
    finished reload leaves ([reload_done]), and the proof that every run of
    [apply_full_reload], whatever fails in it, keeps the one and that a successful
    run ends in the other. *)
From S2P Require Import Prelude Schema Effects Dict WorkerCore Parser Download ListView WorkLock.
From S2P Require Import FileContent Delta StreamedDiff Reload Footprint.

(** The synchronization state in a view. *)
Definition st (v : lview) : ListSyncState := from_hash_fields (v_state v).

(** The reverse index is known to need a rebuild. *)
Definition flagged (s : ListSyncState) : bool := reconcile_required s || reverse_index_disabled s.

(** The published forward set is gone although it should have members. *)
Definition committed_lost (v : lview) : bool :=
  negb (str_empty (version (st v))) && bool_decide (0 < expected_cardinality (st v))%N
  && bool_decide (v_fwd v (version (st v)) = ∅).

(** The forward set of a load in progress is gone although it should have members. *)
Definition pending_lost (v : lview) (u : string) : bool :=
  bool_decide (0 < default (default 0%N (loading_size (st v))) (loading_cardinality (st v)))%N
  && bool_decide (v_fwd v u = ∅).

Definition committed_set (v : lview) : gset string :=
  if str_empty (version (st v)) then ∅ else v_fwd v (version (st v)).

(** The version a load of [u] is compared with. *)
Definition base_version (s : ListSyncState) (u : string) : option string :=
  if negb (str_empty (version s)) && negb (bool_decide (version s = u))
  then Some (version s) else None.

Section Inv.
Context `{PartitionHash} (self : IdListSyncWorker) (F : bytes) (nver : string).

(** The reverse index of a load of [u]: the published list until the diff starts,
    then as far as the recorded partition. *)
Definition load_index (v : lview) (u : string) : Prop :=
  match diff_partition (st v) with
  | None => version (st v) <> u /\ forall x, v_rev v x <-> x ∈ committed_set v
  | Some d =>
      diff_inv (old_set v (base_version (st v) u)) (v_fwd v u)
        (partitions_of self u v (base_version (st v) u)) d (v_rev v)
  end.

Definition index_clean (v : lview) : Prop :=
  match loading_version (st v) with
  | None => forall x, v_rev v x <-> x ∈ committed_set v
  | Some u => pending_lost v u = true \/ load_index v u
  end.

Record list_inv (v : lview) : Prop := {
  li_wf : loading_version (st v) = None -> diff_partition (st v) = None;
  li_index : flagged (st v) = true \/ committed_lost v = true \/ index_clean v;
  li_content : loading_version (st v) = Some nver ->
    pending_lost v nver = true \/
    tracks F (default 0%N (loading_size (st v))) (.∈ v_fwd v nver);
}.

(** A commit whose HSET was lost while its HDEL was not: the old version is still
    published, the load is forgotten, and the index shows the new version. *)
Definition torn_commit (v0 w : lview) : Prop :=
  version (st w) = version (st v0) /\ loading_version (st w) = None /\
  forall x, v_rev w x <-> x ∈ v_fwd w nver.

(** Fields a load may change before it commits. *)
Definition load_field (f : string) : Prop :=
  f ∈ [state_fields.LOADING_VERSION; state_fields.LOADING_SIZE; state_fields.LOADING_CARDINALITY;
       state_fields.DIFF_PARTITION; state_fields.RECONCILE_REQUIRED;
       state_fields.REMOVAL_FANOUT_COMPLETE].

(** What was published before a load is untouched: every field of the state but those of the
    load and of the index, and every forward set but the one being loaded. *)
Definition keeps (v0 w : lview) : Prop :=
  (forall f, ~ load_field f -> f <> REVERSE_INDEX_DISABLED -> v_state w !! f = v_state v0 !! f) /\
  (forall u, u <> nver -> v_fwd w u = v_fwd v0 u).
(** The file of the task is published, as far as the published size. *)
Record serves_new (meta : TaskMetadata) (w : lview) : Prop := {
  sn_version : version (st w) = nver;
  sn_file : file_id (st w) = tm_file_id meta /\ url (st w) = tm_url meta /\ creation_time (st w) = tm_creation_time meta;
  sn_content : tracks F (size_ (st w)) (.∈ v_fwd w nver);
  sn_cardinality : cardinality (st w) = Some (N.of_nat (size (v_fwd w nver)));
}.
(** What may be served after a run, whatever failed in it. *)
Definition serves (v0 : lview) (meta : TaskMetadata) (w : lview) : Prop := keeps v0 w \/ serves_new meta w.
Definition safe (v0 w : lview) : Prop := list_inv w /\ keeps v0 w.

(** The new version is published, with the index of exactly its members. *)
Record published (v0 : lview) (meta : TaskMetadata) (w : lview) : Prop := {
  pub_version : version (st w) = nver;
  pub_file : file_id (st w) = tm_file_id meta /\ url (st w) = tm_url meta
             /\ creation_time (st w) = tm_creation_time meta;
  pub_idle : loading_version (st w) = None /\ diff_partition (st w) = None;
  pub_unflagged : flagged (st w) = false;
  pub_rev x : v_rev w x <-> x ∈ v_fwd w nver;
  pub_content : tracks F (size_ (st w)) (.∈ v_fwd w nver);
  pub_cardinality : cardinality (st w) = Some (N.of_nat (size (v_fwd w nver)));
  pub_size : diff_partition (st v0) = None -> (tm_size meta <= size_ (st w))%N;
}.

(** The published version, which is the file of the task as far as its size, is kept and its
    index rebuilt. *)
Record reindexed (v0 : lview) (meta : TaskMetadata) (w : lview) : Prop := {
  rx_disabled : reverse_index_disabled (st v0) = true;
  rx_version : version (st w) = version (st v0) /\ str_empty (version (st w)) = false;
  rx_file : file_id (st w) = tm_file_id meta /\ size_ (st w) = tm_size meta;
  rx_cardinality : cardinality (st w) = Some (N.of_nat (size (v_fwd w (version (st w)))));
  rx_kept : keeps v0 w /\ forall u, v_fwd w u = v_fwd v0 u;
  rx_idle : loading_version (st w) = None;
  rx_unflagged : flagged (st w) = false;
  rx_rev x : v_rev w x <-> x ∈ v_fwd w (version (st w));
}.

Definition reload_done (v0 : lview) (meta : TaskMetadata) (w : lview) : Prop :=
  published v0 meta w \/ reindexed v0 meta w.

(** ** Lemmas: the views of a load in progress *)

(** [v] is a view of a load of [nver] that began at [v0]; [r] says that the load
    rebuilds the index. *)
Record phase (r : bool) (v0 v : lview) : Prop := {
  ph_fields f : ~ load_field f -> v_state v !! f = v_state v0 !! f;
  ph_fwd u : u <> nver -> v_fwd v u = v_fwd v0 u;
  ph_loading : loading_version (st v) = Some nver;
  ph_tracks : tracks F (default 0%N (loading_size (st v))) (.∈ v_fwd v nver);
  ph_flag : r = true -> reconcile_required (st v) = true;
  ph_clean : r = false -> committed_lost v = false /\ load_index v nver;
}.

Lemma phase_inv r v0 v : phase r v0 v -> list_inv v.
Proof.
  intros [Hf Hu Hl Ht Hr Hc]. constructor.
  - by rewrite Hl.
  - destruct r.
    + left. unfold flagged. by rewrite Hr.
    + right. right. unfold index_clean. rewrite Hl. right. by apply Hc.
  - by right.
Qed.

Lemma phase_keeps r v0 v : phase r v0 v -> keeps v0 v.
Proof. intros Hph. split; [intros; by apply Hph|apply Hph]. Qed.
Lemma phase_safe r v0 v : phase r v0 v -> safe v0 v.
Proof. intros Hph. split; [by eapply phase_inv|by eapply phase_keeps]. Qed.
Lemma keeps_refl v : keeps v v.
Proof. done. Qed.
(** Fields of the load and of the index may be written. *)
Definition free_field (f : string) : Prop := load_field f \/ f = REVERSE_INDEX_DISABLED.
#[local] Instance free_field_dec f : Decision (free_field f).
Proof. unfold free_field, load_field. apply _. Defined.
Lemma keeps_hset v0 v fvs : forallb (fun fv => bool_decide (free_field fv.1)) fvs = true ->
  keeps v0 v -> keeps v0 (set_state (hset_fields fvs) v).
Proof.
  intros Hfree [Hf Hu]. split; [|done]. intros f Hl Hr. rewrite <- Hf by done. cbn [v_state set_state].
  revert Hfree. generalize (v_state v). unfold hset_fields. induction fvs as [|[g x] fvs IH]; intros h; [done|].
  cbn [foldl forallb fst]. rewrite andb_true_iff, bool_decide_eq_true. intros [Hg Hfree].
  rewrite IH by done. apply lookup_insert_ne. intros <-. by destruct Hg.
Qed.
Lemma keeps_hdel v0 v fs : forallb (fun f => bool_decide (free_field f)) fs = true ->
  keeps v0 v -> keeps v0 (set_state (hdel_fields fs) v).
Proof.
  intros Hfree [Hf Hu]. split; [|done]. intros f Hl Hr. rewrite <- Hf by done. cbn [v_state set_state].
  revert Hfree. generalize (v_state v). unfold hdel_fields. induction fs as [|g fs IH]; intros h; [done|].
  cbn [foldl forallb]. rewrite andb_true_iff, bool_decide_eq_true. intros [Hg Hfree].
  rewrite IH by done. apply lookup_delete_ne. intros <-. by destruct Hg.
Qed.
#[export] Instance keeps_proper v0 : Proper ((≡) ==> iff) (keeps v0).
Proof.
  enough (forall v w, v ≡ w -> keeps v0 v -> keeps v0 w) as Hone
    by (intros v w Heq; split; apply Hone; [done|by symmetry]).
  intros v w (Hs & Hf & _ & _) [Hk Hu]. split; intros; [rewrite <- Hs|rewrite <- Hf]; auto.
Qed.

Lemma phase_version r v0 v : phase r v0 v ->
  version (st v) = version (st v0) /\ expected_cardinality (st v) = expected_cardinality (st v0) /\
  reverse_index_disabled (st v) = reverse_index_disabled (st v0).
Proof.
  intros [Hf _ _ _ _ _]. unfold st, expected_cardinality, from_hash_fields. simpl.
  rewrite !Hf; [done|..]; unfold load_field; set_solver.
Qed.

(** The index and the token are free while the index is being rebuilt. *)
Lemma phase_rev v0 v R : phase true v0 v -> phase true v0 (with_rev R v).
Proof. intros [Hf Hu Hl Ht Hr Hc]. by constructor. Qed.
Lemma phase_tok r v0 v t : phase r v0 v -> phase r v0 (set_tok t v).
Proof. intros [Hf Hu Hl Ht Hr Hc]. by constructor. Qed.
Lemma list_inv_tok v t : list_inv v -> list_inv (set_tok t v).
Proof. intros [Hw Hi Hc]. by constructor. Qed.

#[export] Instance list_inv_proper : Proper ((≡) ==> iff) list_inv.
Proof.
  enough (forall v w, v ≡ w -> list_inv v -> list_inv w) as Hone
    by (intros v w Heq; split; apply Hone; [done|by symmetry]).
  intros v w (Hs & Hf & Hr & _) [Hw Hi Hc].
  assert (st w = st v) as Est by (unfold st; by rewrite Hs).
  assert (forall u, pending_lost w u = pending_lost v u) as Ep
    by (intros u; unfold pending_lost; by rewrite Est, Hf).
  constructor; rewrite Est; [done| |].
  - destruct Hi as [Hi|[Hi|Hi]]; [by left|right; left|right; right].
    + rewrite <- Hi. unfold committed_lost. by rewrite Est, Hf.
    + unfold index_clean, load_index, committed_set, partitions_of, old_set in *. rewrite Est.
      destruct (loading_version (st v)) as [u|].
      * rewrite Ep. destruct Hi as [Hi|Hi]; [by left|right].
        destruct (diff_partition (st v)) as [d|].
        -- eapply ri_proper; [apply diff_inv_adds|exact Hr|].
           destruct (base_version (st v) u); by rewrite <- !Hf.
        -- destruct Hi as [Hn Hi]. split; [done|]. intros x. rewrite <- Hr, Hi.
           destruct (str_empty _); [done|]. by rewrite Hf.
      * intros x. rewrite <- Hr, Hi. destruct (str_empty _); [done|]. by rewrite Hf.
  - intros Hl. rewrite Ep. destruct (Hc Hl) as [?|Ht]; [by left|right].
    eapply tracks_ext; [|exact Ht]. intros x. simpl. by rewrite Hf.
Qed.
End Inv.

(** ** Lemmas: writes to the state hash *)

(** A state with other load bookkeeping. *)
Definition with_load (s : ListSyncState) (lv : option string) (ls lc dp : option N) (rr : bool)
    : ListSyncState := {|
  reverse_index_disabled := reverse_index_disabled s; version := version s; file_id := file_id s;
  url := url s; creation_time := creation_time s; size_ := size_ s; cardinality := cardinality s;
  loading_cardinality := lc; reconcile_required := rr; loading_version := lv; loading_size := ls;
  diff_partition := dp |}.

(** Projections of such a state, leaving the hash it came from alone. *)
Ltac project :=
  cbn [with_load reverse_index_disabled version file_id url creation_time size_ cardinality
       loading_cardinality reconcile_required loading_version loading_size diff_partition
       default from_option id orb andb negb].
Ltac field_lookups :=
  repeat first [rewrite lookup_insert_eq | rewrite lookup_insert_ne by done
               | rewrite lookup_delete_eq | rewrite lookup_delete_ne by done].
Ltac solve_st := unfold st, from_hash_fields, with_load; simpl; field_lookups; done.

Section StateWrites.
Context (v : lview).
Abbreviation s := (st v).

Lemma st_reconcile :
  st (set_state (hset_fields [(state_fields.RECONCILE_REQUIRED, "1")]) v)
  = with_load s (loading_version s) (loading_size s) (loading_cardinality s) (diff_partition s) true.
Proof. solve_st. Qed.
Lemma st_init n :
  st (set_state (hset_fields [(state_fields.LOADING_VERSION, n); (state_fields.LOADING_SIZE, show_u64 0)]) v)
  = with_load s (Some n) (Some 0%N) (loading_cardinality s) (diff_partition s) (reconcile_required s).
Proof. solve_st. Qed.
Lemma st_clear :
  st (set_state (hdel_fields [state_fields.DIFF_PARTITION; state_fields.LOADING_CARDINALITY;
                              state_fields.REMOVAL_FANOUT_COMPLETE]) v)
  = with_load s (loading_version s) (loading_size s) None None (reconcile_required s).
Proof. solve_st. Qed.
Lemma st_partition d : (d <= u32_max)%N ->
  st (set_state (hset_fields [(state_fields.DIFF_PARTITION, show_u64 d)]) v)
  = with_load s (loading_version s) (loading_size s) (loading_cardinality s) (Some d) (reconcile_required s).
Proof.
  intros Hd. unfold st, from_hash_fields, with_load. simpl. field_lookups. simpl.
  unfold parse_u32. by rewrite parse_bounded_show.
Qed.
Lemma st_drop :
  st (set_state (hdel_fields load_fields) v) = with_load s None None None None false.
Proof. solve_st. Qed.
Lemma st_enable :
  st (set_state (hdel_fields [REVERSE_INDEX_DISABLED]) v) = {|
    reverse_index_disabled := false; version := version s; file_id := file_id s; url := url s;
    creation_time := creation_time s; size_ := size_ s; cardinality := cardinality s;
    loading_cardinality := loading_cardinality s; reconcile_required := reconcile_required s;
    loading_version := loading_version s; loading_size := loading_size s;
    diff_partition := diff_partition s |}.
Proof. solve_st. Qed.
End StateWrites.

(** ** Lemmas: the steps of a reload *)

Section Steps.
Context `{UrlLib} `{ScanOrder} `{PartitionHash} (self : IdListSyncWorker) (skh list : string) (tok : N).
Context (Hns : namespace_ok skh) (env : environment).
Context (Hrely : forall ks ks', rely env ks ks' -> same_view (schema self) skh list tok ks ks').
Context (Henable : enable_reverse_index (config self) = true).
Context (F : bytes) (nver : string).
Abbreviation shows := (shows (schema self) skh list tok).
Abbreviation fkey := (fkey (schema self) skh list).
Abbreviation skey := (skey (schema self) skh list).
Abbreviation acts := (acts (schema self) skh list tok).

Lemma wp_key_exists_fwd ver v (Q : outcome WorkerError bool -> keyspace -> Prop) ks :
  shows ks v ->
  (forall ks', shows ks' v -> Q (Returned (negb (bool_decide (v_fwd v ver = ∅)))) ks') ->
  (forall e ks', shows ks' v -> Q (Failed e) ks') ->
  wp env (key_exists (fkey ver)) Q ks.
Proof.
  intros Hv Hok Herr. apply wp_bind. eapply (wp_conn _ _ _ _ env Hrely); [exact Hv| |done].
  clear ks Hv. intros ks Hv. by eapply (wp_exists_fwd _ _ _ _ env Hrely).
Qed.

Definition pending_missing_of (v : lview) : bool :=
  bool_decide (loading_version (st v) = Some nver) && pending_lost v nver.
Definition reconcile_of (v : lview) : bool :=
  reconcile_required (st v) || reverse_index_disabled (st v) || committed_lost v
  || pending_missing_of v
  || (bool_decide (is_Some (loading_version (st v)))
      && negb (bool_decide (loading_version (st v) = Some nver))).

Lemma wp_reload_flags v (Q : outcome WorkerError (bool * bool) -> keyspace -> Prop) ks :
  shows ks v ->
  (forall ks', shows ks' v -> Q (Returned (pending_missing_of v, reconcile_of v)) ks') ->
  (forall e ks', shows ks' v -> Q (Failed e) ks') ->
  wp env (reload_flags self skh list (st v) nver (fkey nver)) Q ks.
Proof.
  intros Hv Hok Herr. unfold reload_flags. rewrite Henable. cbn zeta. apply wp_bind.
  set (Q1 := fun (out : outcome WorkerError bool) ks' => _).
  assert (forall ks', shows ks' v -> Q1 (Returned (committed_lost v)) ks') as Hnext.
  { clear ks Hv. intros ks Hv. unfold Q1. cbn beta iota. apply wp_bind.
    unfold pending_missing_of in Hok. unfold reconcile_of, pending_missing_of, pending_lost in Hok.
    destruct (bool_decide (loading_version (st v) = Some nver)) eqn:Hm; simpl andb in Hok |- *.
    2:{ by apply Hok. }
    destruct (bool_decide (0 < _)%N) eqn:Hc; simpl andb in Hok |- *; [|by apply Hok].
    apply wp_bind. eapply (wp_key_exists_fwd nver); [exact Hv| |done].
    clear ks Hv. intros ks Hv. cbn beta iota. rewrite negb_involutive. by apply Hok. }
  unfold committed_lost in Hnext. destruct (negb (str_empty (version (st v))) && _) eqn:Hc.
  - apply wp_bind. eapply (wp_key_exists_fwd (version (st v))); [exact Hv| |done].
    intros ks' Hv'. cbn beta iota. simpl in Hnext. simpl. rewrite negb_involutive. by apply Hnext.
  - by apply Hnext.
Qed.

(** Marking the list, when the load rebuilds its index. *)
Definition marked (r : bool) (v : lview) : lview :=
  if r then set_state (hset_fields [(state_fields.RECONCILE_REQUIRED, "1")]) v else v.

Lemma acts_ready : acts (DEL (ready_key (schema self) skh)) id.
Proof. apply acts_foreign. apply (not_owned _ _ _ Hns (KReady skh)); [exact Hns|done]. Qed.
Lemma acts_all_lists : acts (SADD (all_lists_key (schema self) skh) list) id.
Proof. apply acts_foreign. apply (not_owned _ _ _ Hns (KAll skh)); [exact Hns|done]. Qed.

Lemma wp_reload_register r v (Q : outcome WorkerError unit -> keyspace -> Prop) ks :
  shows ks v -> (forall ks', shows ks' (marked r v) -> Q (Returned tt) ks') ->
  (forall e ks', shows ks' v \/ shows ks' (marked r v) -> Q (Failed e) ks') ->
  wp env (reload_register self skh list skey r) Q ks.
Proof.
  intros Hv Hok Herr. unfold reload_register. apply wp_bind.
  eapply (wp_conn _ _ _ _ env Hrely); [exact Hv| |intros; apply Herr; by left].
  clear ks Hv. intros ks Hv. apply wp_bind.
  eapply (wp_write _ _ _ _ env Hrely); [apply acts_all_lists|exact Hv| |intros e ks' [?|?]; apply Herr; by left].
  clear ks Hv. intros _ ks Hv. destruct r; [|by apply Hok]. apply wp_bind.
  eapply (wp_write _ _ _ _ env Hrely); [apply acts_ready|exact Hv| |intros e ks' [?|?]; apply Herr; by left].
  clear ks Hv. intros _ ks Hv. apply wp_bind.
  eapply (wp_write _ _ _ _ env Hrely); [by apply acts_hset|exact Hv| |exact Herr].
  intros _ ks' Hv'. by apply Hok.
Qed.

Abbreviation list_inv := (list_inv self F nver).
Abbreviation phase := (phase self F nver).
Abbreviation safe := (safe self F nver).

Lemma marked_inv r v : list_inv v -> list_inv (marked r v).
Proof.
  destruct r; [|done]. intros [Hw Hi Hc]. unfold marked. constructor; rewrite st_reconcile; project; [done|by left|].
  intros Hl. unfold pending_lost in *. rewrite st_reconcile. project. by apply Hc.
Qed.

(** A load may start from [v]: its index is to be rebuilt, or is that of the
    published version, which the load does not overwrite. *)
Record startable (r : bool) (v : lview) : Prop := {
  sb_wf : loading_version (st v) = None -> diff_partition (st v) = None;
  sb_flag : r = true -> reconcile_required (st v) = true;
  sb_clean : r = false -> loading_version (st v) = None /\ version (st v) <> nver /\
    committed_lost v = false /\ forall x, v_rev v x <-> x ∈ committed_set v;
  sb_pending : loading_version (st v) = Some nver -> pending_lost v nver = true;
}.

Definition emptied (v : lview) : lview := set_fwd nver (fun _ => ∅) v.
Definition init_fields : lview -> lview :=
  set_state (hset_fields [(state_fields.LOADING_VERSION, nver); (state_fields.LOADING_SIZE, show_u64 0)]).
Definition clear_fields : lview -> lview :=
  set_state (hdel_fields [state_fields.DIFF_PARTITION; state_fields.LOADING_CARDINALITY;
                          state_fields.REMOVAL_FANOUT_COMPLETE]).

Lemma emptied_other v u : u <> nver -> v_fwd (emptied v) u = v_fwd v u.
Proof. intros Hu. simpl. by rewrite decide_False. Qed.
Lemma emptied_self v : v_fwd (emptied v) nver = ∅.
Proof. simpl. by rewrite decide_True. Qed.

Lemma startable_emptied r v : startable r v -> startable r (emptied v).
Proof.
  intros [Hw Hf Hc Hp]. constructor; [done|done| |].
  - intros ->. destruct (Hc eq_refl) as (Hl & Hn & Hcl & Hx). split_and!; [done|done| |].
    + revert Hcl. unfold committed_lost. change (st (emptied v)) with (st v).
      by rewrite emptied_other.
    + intros x. change (v_rev (emptied v) x) with (v_rev v x). rewrite Hx.
      unfold committed_set. change (st (emptied v)) with (st v).
      by rewrite emptied_other.
  - intros Hl. specialize (Hp Hl). unfold pending_lost in *. change (st (emptied v)) with (st v).
    rewrite emptied_self. destruct (bool_decide (0 < _)%N); [by rewrite bool_decide_eq_true_2|done].
Qed.

Lemma startable_inv r v : startable r v -> list_inv v.
Proof.
  intros [Hw Hf Hc Hp]. constructor; [done| |by left; auto]. destruct r.
  - left. unfold flagged. by rewrite Hf.
  - right. right. destruct (Hc eq_refl) as (Hl & Hn & Hcl & Hx). unfold index_clean. by rewrite Hl.
Qed.

(** The bookkeeping of a new load over an emptied forward set, field by field. *)
Lemma start_init r v : startable r v -> v_fwd v nver = ∅ -> list_inv (init_fields v).
Proof.
  intros [Hw Hf Hc Hp] He. constructor; unfold init_fields.
  - by rewrite st_init.
  - destruct r; [left; unfold flagged; rewrite st_init; project; by rewrite Hf|right; right].
    destruct (Hc eq_refl) as (Hl & Hn & _ & Hx). unfold index_clean, load_index, committed_set.
    rewrite st_init. project. right. rewrite (Hw Hl). done.
  - intros _. right. rewrite st_init. project. by apply tracks_none.
Qed.

Lemma start_clear r v : startable r v -> v_fwd v nver = ∅ -> list_inv (clear_fields v).
Proof.
  intros [Hw Hf Hc Hp] He. constructor; unfold clear_fields.
  - by rewrite st_clear.
  - destruct r; [left; unfold flagged; rewrite st_clear; project; by rewrite Hf|right; right].
    destruct (Hc eq_refl) as (Hl & Hn & _ & Hx). unfold index_clean, committed_set.
    rewrite st_clear. project. by rewrite Hl.
  - rewrite st_clear. project. intros Hl. unfold pending_lost. rewrite st_clear. project.
    destruct (default 0%N (loading_size (st v))) eqn:E; [right; by apply tracks_none|left].
    by rewrite !bool_decide_eq_true_2.
Qed.

Lemma start_phase r v0 v :
  startable r v -> v_fwd v nver = ∅ ->
  (forall f, ~ load_field f -> v_state v !! f = v_state v0 !! f) ->
  (forall u, u <> nver -> v_fwd v u = v_fwd v0 u) ->
  phase r v0 (clear_fields (init_fields v)) /\
  diff_partition (st (clear_fields (init_fields v))) = None /\
  default 0%N (loading_size (st (clear_fields (init_fields v)))) = 0%N.
Proof.
  intros [Hw Hf Hc Hp] He Hfields Hfwd.
  assert (st (clear_fields (init_fields v))
          = with_load (st v) (Some nver) (Some 0%N) None None (reconcile_required (st v))) as Est.
  { unfold clear_fields, init_fields. by rewrite st_clear, st_init. }
  rewrite Est. split; [|done]. constructor; [|done| | | |].
  - intros f Hn. rewrite <- Hfields by done. unfold load_field in Hn. simpl.
    rewrite !lookup_delete_ne, !lookup_insert_ne by set_solver. done.
  - by rewrite Est.
  - rewrite Est. by apply tracks_none.
  - intros ->. rewrite Est. by apply Hf.
  - intros ->. destruct (Hc eq_refl) as (_ & Hn & Hcl & Hx). split.
    + unfold committed_lost, expected_cardinality in *. by rewrite Est.
    + unfold load_index, committed_set. by rewrite Est.
Qed.

Lemma partial_two f g v w : partial [f; g] v w ->
  w ≡ v \/ w ≡ f v \/ w ≡ g v \/ w ≡ g (f v).
Proof.
  intros Hp. inversion Hp as [|? ? ? ? Hp1|? ? ? ? Hp1]; subst;
    inversion Hp1 as [|? ? ? ? Hp2|? ? ? ? Hp2]; subst; inversion Hp2 as [? ? Heq| |]; subst;
    symmetry in Heq; auto.
Qed.

Lemma wp_reload_start r v0 v resume (Q : outcome WorkerError N -> keyspace -> Prop) ks :
  (resume = true -> phase r v0 v) ->
  (resume = false -> startable r v /\
     (forall f, ~ load_field f -> v_state v !! f = v_state v0 !! f) /\
     (forall u, u <> nver -> v_fwd v u = v_fwd v0 u)) ->
  shows ks v ->
  (forall w ks', phase r v0 w -> shows ks' w ->
     diff_partition (st w) = (if resume then diff_partition (st v) else None) ->
     Q (Returned (default 0%N (loading_size (st w)))) ks') ->
  (forall e w ks', safe v0 w -> shows ks' w -> Q (Failed e) ks') ->
  wp env (reload_start (st v) skey nver (fkey nver) resume) Q ks.
Proof.
  intros Hres Hnew Hv Hok Herr. unfold reload_start. destruct resume; [by apply Hok; auto|].
  destruct (Hnew eq_refl) as (Hsb & Hfields & Hfwd). pose proof (startable_emptied _ _ Hsb) as Hsb'.
  assert (keeps nver v0 v) as Hk0 by (split; auto).
  assert (keeps nver v0 (emptied v)) as Hk1 by (split; [auto|intros u Hu; rewrite emptied_other; auto]).
  assert (safe v0 v) as Hi0 by (split; [by eapply startable_inv|done]).
  assert (safe v0 (emptied v)) as Hi1 by (split; [by eapply startable_inv|done]).
  apply wp_bind. eapply (wp_conn _ _ _ _ env Hrely); [exact Hv| |intros e' ks' Hv'; eapply Herr; [exact Hi0|exact Hv']].
  clear ks Hv. intros ks Hv. apply wp_bind.
  eapply (wp_write _ _ _ _ env Hrely); [by apply acts_del_fwd|exact Hv| |intros e ks' [Hv'|Hv']; (eapply Herr; [|exact Hv']); [exact Hi0|exact Hi1]].
  clear ks Hv. intros _ ks Hv. apply wp_bind. unfold initialize_load. apply wp_bind.
  eapply (wp_conn _ _ _ _ env Hrely); [exact Hv| |intros e' ks' Hv'; eapply Herr; [exact Hi1|exact Hv']].
  clear ks Hv. intros ks Hv. apply wp_bind.
  eapply (wp_pipe _ _ _ _ env Hrely _ [init_fields; clear_fields]); [|exact Hv| |].
  - constructor; [by apply acts_hset|constructor; [by apply acts_hdel|constructor]].
  - intros _ ks' Hv'.
    destruct (start_phase r v0 (emptied v)) as (Hph & Hd & Hz);
      [done|apply emptied_self|done|intros u Hu; rewrite <- Hfwd by done; by apply emptied_other|].
    change (Q (Returned 0%N) ks'). pose proof (Hok _ _ Hph Hv' Hd) as Hq. by rewrite Hz in Hq.
  - intros e ks' w Hp Hw. eapply Herr; [|exact Hw]. pose proof (emptied_self v) as He.
    unfold safe. destruct (partial_two _ _ _ _ Hp) as [Heq|[Heq|[Heq|Heq]]]; rewrite Heq.
    + done.
    + split; [by eapply start_init|]. by apply keeps_hset.
    + split; [by eapply start_clear|]. by apply keeps_hdel.
    + split; [eapply phase_inv; by eapply (start_phase r (emptied v))|]. apply keeps_hdel; [done|]. by apply keeps_hset.
Qed.

Context (Hlen : (N.of_nat (length F) <= u64_max)%N).

(** Fields read back after one write that leaves the rest alone. *)
Lemma st_frame v w : (forall f, f <> state_fields.LOADING_SIZE -> f <> state_fields.LOADING_CARDINALITY ->
    v_state w !! f = v_state v !! f) ->
  st w = with_load (st v) (loading_version (st v)) (loading_size (st w)) (loading_cardinality (st w))
           (diff_partition (st v)) (reconcile_required (st v)).
Proof.
  intros Hf. unfold st, with_load, from_hash_fields. simpl.
  by rewrite (Hf REVERSE_INDEX_DISABLED), (Hf state_fields.VERSION), (Hf state_fields.FILE_ID),
    (Hf state_fields.URL), (Hf state_fields.CREATION_TIME), (Hf state_fields.SIZE),
    (Hf state_fields.CARDINALITY), (Hf state_fields.RECONCILE_REQUIRED),
    (Hf state_fields.LOADING_VERSION), (Hf state_fields.DIFF_PARTITION).
Qed.

Lemma progress_phase r v0 v j i w :
  let start := default 0%N (loading_size (st v)) in
  phase r v0 v -> diff_partition (st v) = None ->
  progress self F nver false start v j i w ->
  phase r v0 w /\ diff_partition (st w) = None /\
  default 0%N (loading_size (st w)) = line_offset F start j.
Proof.
  intros start [Hf Hu Hl Ht Hr Hc] Hd Hp. pose proof Hp as (_ & _ & Hck & _).
  destruct (progress_tracks self F nver false start v j i w Ht Hp) as (Htw & _ & Hrev & Hother).
  assert (default 0%N (loading_size (st w)) = line_offset F start j) as Hsize.
  { apply (checkpointed_size F false start v); [done|done|].
    etrans; [apply line_offset_bound; apply Ht|exact Hlen]. }
  assert (forall f, f <> state_fields.LOADING_SIZE -> f <> state_fields.LOADING_CARDINALITY ->
    v_state w !! f = v_state v !! f) as Hfields.
  { intros f H2 H3. by apply (checkpointed_other F false start v j). }
  pose proof (st_frame v w Hfields) as Est.
  assert (diff_partition (st w) = None) as Hdw by (rewrite Est; exact Hd).
  split_and!; [|done|done]. constructor.
  - intros f Hn. rewrite Hfields; [by apply Hf|..]; intros ->; apply Hn; unfold load_field; set_solver.
  - intros u Hne. rewrite Hother by done. by apply Hu.
  - by rewrite Est.
  - rewrite Hsize. exact Htw.
  - intros Htrue. rewrite Est. by apply Hr.
  - intros Hfalse. destruct (Hc Hfalse) as [Hcl Hli]. unfold load_index in *. rewrite Hd in Hli. rewrite Hdw.
    destruct Hli as [Hn Hx].
    assert (version (st w) = version (st v)) as Ev by (by rewrite Est).
    split; [|split].
    + revert Hcl. unfold committed_lost, expected_cardinality. rewrite Ev, Hother by done. by rewrite Est.
    + by rewrite Ev.
    + intros x. rewrite Hrev by done. rewrite Hx. unfold committed_set. rewrite Ev.
      destruct (str_empty _); [done|]. by rewrite Hother.
Qed.

(** Starting the diff. *)
Definition diff_started : lview -> lview :=
  set_state (hset_fields [(state_fields.DIFF_PARTITION, show_u64 0)]).

Lemma phase_diff_started r v0 v :
  phase r v0 v -> diff_partition (st v) = None ->
  phase r v0 (diff_started v) /\ diff_partition (st (diff_started v)) = Some 0%N /\
  loading_size (st (diff_started v)) = loading_size (st v).
Proof.
  intros [Hf Hu Hl Ht Hr Hc] Hd. unfold diff_started.
  pose proof (st_partition v 0 ltac:(done)) as Est.
  split_and!; [|by rewrite Est|by rewrite Est]. constructor.
  - intros f Hn. rewrite <- Hf by done. simpl. apply lookup_insert_ne. intros <-. apply Hn.
    unfold load_field. set_solver.
  - done.
  - by rewrite Est.
  - by rewrite Est.
  - intros Htrue. rewrite Est. by apply Hr.
  - intros Hfalse. destruct (Hc Hfalse) as [Hcl Hli]. unfold load_index in *. rewrite Hd in Hli.
    destruct Hli as [Hn Hx]. split.
    + revert Hcl. unfold committed_lost, expected_cardinality. by rewrite Est.
    + rewrite Est. project. unfold committed_set, base_version in *. project. cbn [v_rev v_fwd set_state].
      rewrite bool_decide_eq_false_2 by done. unfold old_set, partitions_of.
      split; [split|intros x; lia]; destruct (str_empty (version (st v))); cbn in *; set_solver.
Qed.

Context (meta : TaskMetadata).
Context (Horigin : forall q r, http_ok env q r -> origin_serves (tm_url meta) F q r).
Context (Hrounds : length F + 2 <= stream_rounds self).

Lemma wp_reload_download r v0 v (Q : outcome WorkerError (N * N) -> keyspace -> Prop) ks :
  phase r v0 v -> shows ks v ->
  (forall w d ks', phase r v0 w -> shows ks' w -> diff_partition (st w) = Some d ->
     (diff_partition (st v) = None -> (tm_size meta <= default 0%N (loading_size (st w)))%N) ->
     Q (Returned (default 0%N (loading_size (st w)), d)) ks') ->
  (forall e w ks', safe v0 w -> shows ks' w -> Q (Failed e) ks') ->
  wp env (reload_download self skh skey (fkey nver) meta (default 0%N (loading_size (st v)))
            (diff_partition (st v))) Q ks.
Proof.
  intros Hph Hv Hok Herr. unfold reload_download.
  destruct (diff_partition (st v)) as [d|] eqn:Hd; [by eapply Hok|].
  assert (forall w ks', phase r v0 w -> shows ks' w -> diff_partition (st w) = None ->
    (tm_size meta <= default 0%N (loading_size (st w)))%N ->
    wp env (_ ← get_conn; _ ← write (HSET skey [(state_fields.DIFF_PARTITION, show_u64 0)]);
            Ret (default 0%N (loading_size (st w)), 0%N)) Q ks') as Htail.
  { clear ks Hv. intros w ks Hphw Hv Hdw Hsize. apply wp_bind.
    eapply (wp_conn _ _ _ _ env Hrely); [exact Hv| |].
    2:{ intros e ks' Hv'. eapply Herr; [by eapply phase_safe|exact Hv']. }
    clear ks Hv. intros ks Hv. apply wp_bind.
    destruct (phase_diff_started r v0 w Hphw Hdw) as (Hph' & Hd' & Hl').
    eapply (wp_write _ _ _ _ env Hrely); [by apply acts_hset|exact Hv| |].
    - intros _ ks' Hv'. cbn beta iota. rewrite <- Hl'. eapply Hok; [exact Hph'|exact Hv'|done|].
      intros _. by rewrite Hl'.
    - intros e ks' [Hv'|Hv']; (eapply Herr; [|exact Hv']); by eapply phase_safe. }
  apply wp_bind. destruct (bool_decide _) eqn:Hlt.
  2:{ apply bool_decide_eq_false in Hlt. apply Htail; [done|done|done|lia]. }
  apply wp_bind.
  eapply (wp_apply_file_stream self skh list tok Hns env Hrely (tm_url meta) F Horigin nver false _ v);
    [done|exact Hv| |].
  - intros i res w ks' Hprog Hck Hw.
    destruct (progress_phase r v0 v i i w Hph Hd Hprog) as (Hphw & Hdw & Hsize).
    clear Hlt. cbn beta iota. case_bool_decide as Hshort.
    + eapply Herr; [by eapply phase_safe|exact Hw].
    + rewrite Hck, <- Hsize. apply Htail; [done|done|done|]. rewrite Hsize, <- Hck. lia.
  - intros e ks' (j & i & w & Hprog & Hw).
    destruct (progress_phase r v0 v j i w Hph Hd Hprog) as (Hphw & _ & _).
    eapply Herr; [by eapply phase_safe|exact Hw].
Qed.

Context (renewal : ClaimRenewal) (Hkey : cr_key renewal = claim_key (schema self) skh list).
Context (Hcfg : config_ok (config self)).

Lemma partition_count_mono a b a' b' : (a <= a')%N -> (b <= b')%N ->
  (partition_count self a b <= partition_count self a' b')%N.
Proof.
  intros Ha Hb. unfold partition_count, div_ceil. pose proof (cfg_diff _ Hcfg).
  apply N.Div0.div_le_mono. lia.
Qed.

Context (v0 : lview).
Context (Hparts : (partition_count self (N.of_nat (size (v_fwd v0 (version (st v0)))))
                     (N.of_nat (length F)) <= u32_max)%N).
Abbreviation base := (base_version (st v0) nver).

Lemma phase_base r v : phase r v0 v -> base_version (st v) nver = base.
Proof. intros Hph. destruct (phase_version _ _ _ _ _ _ Hph) as (Hv & _). unfold base_version. by rewrite Hv. Qed.

Lemma base_other u : base = Some u -> u = version (st v0) /\ u <> nver /\ str_empty u = false.
Proof.
  unfold base_version. destruct (str_empty (version (st v0))) eqn:He; [done|]. simpl.
  case_bool_decide; [done|]. by intros [= <-].
Qed.

Lemma phase_partitions r v : phase r v0 v -> (partitions_of self nver v base <= u32_max)%N.
Proof.
  intros Hph. etrans; [|exact Hparts]. unfold partitions_of. apply partition_count_mono.
  - destruct base as [u|] eqn:Hb; cbn [old_set]; [|rewrite size_empty; lia]. destruct (base_other u Hb) as (-> & Hne & _).
    by rewrite (ph_fwd _ _ _ _ _ _ Hph).
  - pose proof (tracks_size _ _ _ (ph_tracks _ _ _ _ _ _ Hph)). lia.
Qed.

Lemma phase_marked v : phase true v0 v -> phase true v0 (marked true v).
Proof.
  intros [Hf Hu Hl Ht Hr Hc]. unfold marked. constructor; rewrite ?st_reconcile; try done.
  intros f Hn. rewrite <- Hf by done. simpl. apply lookup_insert_ne. intros <-. apply Hn.
  unfold load_field. set_solver.
Qed.

(** The views of the diff. *)
Lemma phase_diff v d0 d s R :
  phase false v0 v -> diff_partition (st v) = Some d0 ->
  diff_inv (old_set v base) (v_fwd v nver) (partitions_of self nver v base) d R ->
  diff_state v (partitions_of self nver v base) d0 d s ->
  phase false v0 (diff_view v s R) /\ diff_partition (st (diff_view v s R)) = Some d /\
  loading_size (st (diff_view v s R)) = loading_size (st v).
Proof.
  intros Hph Hd0 Hinv Hs. pose proof (phase_partitions _ _ Hph) as Hp. pose proof (phase_base _ _ Hph) as Hb.
  assert (st (diff_view v s R) = with_load (st v) (loading_version (st v)) (loading_size (st v))
    (loading_cardinality (st v)) (Some d) (reconcile_required (st v))) as Est.
  { destruct Hs as [[-> ->]|[Hd ->]].
    - unfold st, with_load in *. simpl in *. rewrite <- Hd0. done.
    - rewrite <- (st_partition v d) by lia. done. }
  destruct Hph as [Hf Hu Hl Ht Hr Hc]. split_and!; [|by rewrite Est|by rewrite Est].
  destruct (Hc eq_refl) as [Hcl _]. constructor; [|done|by rewrite Est|by rewrite Est|done|].
  - intros f Hn. rewrite <- Hf by done. destruct Hs as [[_ ->]|[_ ->]]; [done|]. simpl.
    apply lookup_insert_ne. intros <-. apply Hn. unfold load_field. set_solver.
  - intros _. split.
    + revert Hcl. unfold committed_lost, expected_cardinality. by rewrite Est.
    + unfold load_index. rewrite Est. project. unfold base_version in Hb |- *. project. rewrite Hb. exact Hinv.
Qed.

(** ** Lemmas: updating the index *)

Lemma rev_inv_free S b : rev_inv S b (fun _ => True).
Proof. by constructor. Qed.

Lemma wp_old_card v (Q : outcome WorkerError N -> keyspace -> Prop) ks :
  shows ks v ->
  (forall ks', shows ks' v -> Q (Returned (N.of_nat (size (old_set v base)))) ks') ->
  (forall e ks', shows ks' v -> Q (Failed e) ks') ->
  wp env (match fkey <$> base with Some key => scard key | None => Ret 0%N end) Q ks.
Proof.
  intros Hv Hok Herr. destruct base as [u|]; cbn [fmap option_fmap option_map old_set] in *.
  - by eapply (wp_scard self skh list tok env Hrely u).
  - cbn. specialize (Hok ks Hv). by rewrite size_empty in Hok.
Qed.

(** A reload that rebuilds the index clears the token and adds it again. *)
Lemma wp_index_rebuild v n d (Q : outcome WorkerError unit -> keyspace -> Prop) ks :
  phase true v0 v -> diff_partition (st v) = Some d -> shows ks v ->
  (forall w ks', phase true v0 w -> diff_partition (st w) = Some d ->
     (forall x, v_rev w x <-> x ∈ v_fwd w nver) -> loading_size (st w) = loading_size (st v) ->
     shows ks' w -> Q (Returned tt) ks') ->
  (forall e w ks', safe v0 w -> shows ks' w -> Q (Failed e) ks') ->
  wp env (_ ← clear_reverse_token self skh tok renewal;
          fanout_scan self skh (fkey nver) tok true n renewal) Q ks.
Proof.
  intros Hph Hd Hv Hok Herr. apply wp_bind.
  assert (forall R, safe v0 (with_rev R v)) as Hinv
    by (intros R; eapply phase_safe; by apply phase_rev).
  eapply (wp_clear_reverse_token self skh list tok Hns env Hrely renewal Hkey Hcfg (fun _ => True));
    [apply rev_inv_free|done|exact Hv| |].
  2:{ intros e R ks' _ Hv'. eapply Herr; [apply Hinv|exact Hv']. }
  clear ks Hv. intros R ks HR Hv.
  eapply (wp_fanout_scan self skh list tok Hns env Hrely renewal Hkey Hcfg (fun _ => True) nver true n
            (with_rev R v)); [apply rev_inv_free|done|exact Hv| |].
  - intros R' ks' HR' Hv'. eapply (Hok (with_rev R' v)); [by apply phase_rev|done| |done|exact Hv'].
    intros x. cbn [v_rev v_fwd with_rev] in *. rewrite HR'. case_decide; [done|].
    split; [intros Hx; by destruct (HR x)|done].
  - intros e R' ks' _ Hv'. eapply Herr; [apply Hinv|exact Hv'].
Qed.

Lemma wp_index_diff v d (Q : outcome WorkerError unit -> keyspace -> Prop) ks :
  phase false v0 v -> diff_partition (st v) = Some d -> shows ks v ->
  (forall w d' ks', phase false v0 w -> diff_partition (st w) = Some d' ->
     (forall x, v_rev w x <-> x ∈ v_fwd w nver) -> loading_size (st w) = loading_size (st v) ->
     shows ks' w -> Q (Returned tt) ks') ->
  (forall e w ks', safe v0 w -> shows ks' w -> Q (Failed e) ks') ->
  wp env (apply_streamed_diff self skh (fkey <$> base) (fkey nver) tok skey d
            (N.of_nat (size (old_set v base))) (N.of_nat (size (v_fwd v nver))) renewal) Q ks.
Proof.
  intros Hph Hd Hv Hok Herr. pose proof (phase_partitions _ _ Hph) as Hmax.
  destruct (ph_clean _ _ _ _ _ _ Hph eq_refl) as [_ Hli]. unfold load_index in Hli. rewrite Hd in Hli.
  rewrite (phase_base _ _ Hph) in Hli.
  eapply (wp_apply_streamed_diff self skh list tok Hns env Hrely renewal Hkey Hcfg nver v base d);
    [etrans; [exact Hmax|done]|exact Hli|exact Hv| |].
  - intros s R ks' HR (d' & Hs) Hv'.
    destruct (phase_diff v d d' s R Hph Hd) as (Hph' & Hd' & Hl'); [|done|].
    + split; [split|]; intros x; rewrite ?HR; done.
    + eapply Hok; [exact Hph'|exact Hd'|exact HR|exact Hl'|exact Hv'].
  - intros e d' s R ks' Hinv Hs Hv'. destruct (phase_diff v d d' s R Hph Hd Hinv Hs) as (Hph' & _).
    eapply Herr; [by eapply phase_safe|exact Hv'].
Qed.

(** The second look at the old set finds it gone only when the rebuild is already on. *)
Definition old_gone (v : lview) : bool :=
  bool_decide (is_Some (fkey <$> base)) && bool_decide (0 < expected_cardinality (st v0))%N
  && bool_decide (N.of_nat (size (old_set v base)) = 0%N).

Lemma old_gone_clean v : phase false v0 v -> old_gone v = false.
Proof.
  intros Hph. destruct (ph_clean _ _ _ _ _ _ Hph eq_refl) as [Hcl _].
  destruct (phase_version _ _ _ _ _ _ Hph) as (Ev & Ee & _).
  unfold old_gone. destruct base as [u|] eqn:Hb; [|done]. destruct (base_other u Hb) as (-> & Hne & He).
  unfold committed_lost in Hcl. rewrite Ev, Ee in Hcl. rewrite He in Hcl. cbn [old_set fmap option_fmap option_map].
  destruct (bool_decide (0 < _)%N); [|by rewrite andb_false_r]. cbn [andb negb] in Hcl.
  apply bool_decide_eq_false in Hcl. rewrite (bool_decide_eq_false_2 (N.of_nat _ = _)); [by rewrite andb_false_r|].
  intros Hz. apply Hcl. apply leibniz_equiv, size_empty_inv. lia.
Qed.

Lemma wp_reload_index r v d (Q : outcome WorkerError unit -> keyspace -> Prop) ks :
  phase r v0 v -> diff_partition (st v) = Some d -> shows ks v ->
  (forall w d' ks', phase r v0 w -> diff_partition (st w) = Some d' ->
     (forall x, v_rev w x <-> x ∈ v_fwd w nver) -> loading_size (st w) = loading_size (st v) ->
     shows ks' w -> Q (Returned tt) ks') ->
  (forall e w ks', safe v0 w -> shows ks' w -> Q (Failed e) ks') ->
  wp env (reload_index self skh list (st v0) skey (fkey nver) (fkey <$> base) tok d r renewal) Q ks.
Proof.
  intros Hph Hd Hv Hok Herr. unfold reload_index. rewrite Henable.
  assert (forall e ks', shows ks' v -> Q (Failed e) ks') as Herr0.
  { intros e ks' Hv'. eapply Herr; [by eapply phase_safe|exact Hv']. }
  apply wp_bind. eapply wp_old_card; [exact Hv| |done]. clear ks Hv. intros ks Hv. cbn beta iota.
  apply wp_bind. eapply (wp_scard self skh list tok env Hrely nver); [exact Hv| |done].
  clear ks Hv. intros ks Hv. cbn beta iota. apply wp_bind.
  eapply (wp_conn _ _ _ _ env Hrely); [exact Hv| |done]. clear ks Hv. intros ks Hv. apply wp_bind.
  eapply (wp_hget_state _ _ _ _ env Hrely); [exact Hv| |done]. clear ks Hv. intros ks Hv. cbn beta iota.
  apply wp_bind. unfold parse_opt_u64.
  set (Q1 := fun (out : outcome WorkerError (option N)) ks' => _).
  assert (forall o ks', shows ks' v -> Q1 (Returned o) ks') as Hnext.
  2:{ destruct (v_state v !! _) as [x|]; [|by apply Hnext].
      destruct (parse_u64 x); [by apply Hnext|by apply Herr0]. }
  clear ks Hv. intros o ks Hv. unfold Q1. cbn beta iota. apply wp_bind. unfold ensure.
  set (b := match o with Some count => _ | None => true end). destruct b; [|by apply Herr0].
  change (wp env (Ret tt) ?P ks) with (P (Returned tt) ks). cbn beta iota.
  fold (old_gone v). apply wp_bind. destruct r.
  - assert (forall w ks', phase true v0 w -> diff_partition (st w) = Some d ->
       loading_size (st w) = loading_size (st v) -> shows ks' w ->
       wp env (_ ← clear_reverse_token self skh tok renewal;
          fanout_scan self skh (fkey nver) tok true (N.of_nat (size (v_fwd v nver))) renewal) Q ks') as Hrb.
    { intros w ks' Hw Hdw Hlw Hvw. eapply wp_index_rebuild; [exact Hw|exact Hdw|exact Hvw| |done].
      intros w' ks2 Hph' Hd' Hx Hl Hv'. eapply Hok; [done|done|done|congruence|done]. }
    destruct (old_gone v); [|by apply (Hrb v)].
    apply wp_bind. pose proof (phase_marked v Hph) as Hm.
    eapply (wp_write _ _ _ _ env Hrely); [by apply acts_hset|exact Hv| |].
    2:{ intros e ks' [Hv'|Hv']; [by apply Herr0|]. eapply Herr; [by eapply phase_safe|exact Hv']. }
    clear ks Hv. intros _ ks Hv. apply wp_bind.
    eapply (wp_write _ _ _ _ env Hrely); [apply acts_ready|exact Hv| |].
    2:{ intros e ks' [Hv'|Hv']; (eapply Herr; [by eapply phase_safe|exact Hv']). }
    intros _ ks' Hv'. cbn beta iota. apply (Hrb (marked true v)); [done|..|exact Hv'];
      unfold marked; by rewrite st_reconcile.
  - rewrite old_gone_clean by done. by eapply wp_index_diff.
Qed.

(** ** Lemmas: the commit *)

Definition commit_hset (cmeta : TaskMetadata) (c : N) : lview -> lview :=
  set_state (hset_fields (commit_fields nver cmeta c)).
Definition commit_hdel : lview -> lview := set_state (hdel_fields load_fields).
Definition commit_enable : lview -> lview := set_state (hdel_fields [REVERSE_INDEX_DISABLED]).

Lemma st_commit v cmeta c :
  is_u64 (tm_creation_time cmeta) -> is_u64 (tm_size cmeta) -> is_u64 c ->
  st (commit_hset cmeta c v) = {|
    reverse_index_disabled := reverse_index_disabled (st v); version := nver;
    file_id := tm_file_id cmeta; url := tm_url cmeta; creation_time := tm_creation_time cmeta;
    size_ := tm_size cmeta; cardinality := Some c; loading_cardinality := loading_cardinality (st v);
    reconcile_required := reconcile_required (st v); loading_version := loading_version (st v);
    loading_size := loading_size (st v); diff_partition := diff_partition (st v) |}.
Proof.
  intros Ht Hs Hc. unfold st, from_hash_fields, commit_hset, commit_fields. simpl. field_lookups. simpl.
  by rewrite !parse_u64_show.
Qed.

(** A list with nothing in progress whose index is that of its published version. *)
Record settled (w : lview) : Prop := {
  se_version : version (st w) = nver;
  se_idle : loading_version (st w) = None /\ diff_partition (st w) = None;
  se_rev x : v_rev w x <-> x ∈ v_fwd w nver;
}.
Lemma settled_inv w : str_empty nver = false -> settled w -> list_inv w.
Proof.
  intros He [Hv [Hl Hd] Hr]. constructor; [done| |by rewrite Hl].
  right. right. unfold index_clean, committed_set. by rewrite Hl, Hv, He.
Qed.
Lemma settled_expire w u f : u <> nver -> settled w -> settled (set_fwd u f w).
Proof. intros Hu [Hv Hi Hr]. constructor; [done|done|]. intros x. simpl. rewrite decide_False by done. apply Hr. Qed.
Lemma published_expire w cmeta u f :
  u <> nver -> published F nver v0 cmeta w -> published F nver v0 cmeta (set_fwd u f w).
Proof.
  intros Hu [H2 H3 H4 H5 H6 H7 H8 H9]. constructor; try done; simpl; rewrite decide_False by done; done.
Qed.

Section Commit.
Context (v : lview) (r : bool) (d : N) (cmeta : TaskMetadata).
Context (Hph : phase r v0 v) (Hd : diff_partition (st v) = Some d).
Context (Hrev : forall x, v_rev v x <-> x ∈ v_fwd v nver).
Context (Htag : tm_version_tag cmeta = nver) (Hne : str_empty nver = false).
Context (Hsize : tm_size cmeta = default 0%N (loading_size (st v))) (Htime : is_u64 (tm_creation_time cmeta)).
Context (Hgoal : diff_partition (st v0) = None -> (tm_size meta <= tm_size cmeta)%N).
Abbreviation c := (N.of_nat (size (v_fwd v nver))).
Abbreviation both := (commit_hdel (commit_hset cmeta c v)).

Lemma commit_st : st (commit_hset cmeta c v) = {|
    reverse_index_disabled := reverse_index_disabled (st v); version := nver;
    file_id := tm_file_id cmeta; url := tm_url cmeta; creation_time := tm_creation_time cmeta;
    size_ := tm_size cmeta; cardinality := Some c; loading_cardinality := loading_cardinality (st v);
    reconcile_required := reconcile_required (st v); loading_version := loading_version (st v);
    loading_size := loading_size (st v); diff_partition := diff_partition (st v) |}.
Proof.
  apply st_commit; [done|..]; unfold is_u64.
  - rewrite Hsize. destruct (ph_tracks _ _ _ _ _ _ Hph) as [[Hn _] _]. lia.
  - pose proof (tracks_size _ _ _ (ph_tracks _ _ _ _ _ _ Hph)). lia.
Qed.

Lemma commit_half_inv : list_inv (commit_hset cmeta c v).
Proof.
  destruct Hph as [Hf Hu Hl Ht Hr Hc]. constructor.
  - by rewrite commit_st, Hl.
  - right. right. unfold index_clean. rewrite commit_st, Hl. right. unfold load_index.
    rewrite commit_st, Hd. unfold base_version. project. rewrite Hne, bool_decide_eq_true_2 by done.
    cbn [negb andb old_set]. split; [split|]; intros x; cbn [v_rev v_fwd commit_hset set_state]; rewrite Hrev; set_solver.
  - intros _. right. rewrite commit_st. exact Ht.
Qed.

Lemma commit_torn_keeps : keeps nver v0 (commit_hdel v).
Proof. apply keeps_hdel; [done|]. by eapply phase_keeps. Qed.
Lemma commit_torn : torn_commit nver v0 (commit_hdel v).
Proof.
  destruct (phase_version _ _ _ _ _ _ Hph) as (Hv & _). unfold torn_commit, commit_hdel.
  rewrite st_drop. project. done.
Qed.

Lemma commit_settled : settled both.
Proof. constructor; unfold commit_hdel; [by rewrite st_drop, commit_st|by rewrite st_drop|exact Hrev]. Qed.
Lemma enable_settled : settled (commit_enable both).
Proof.
  destruct commit_settled as [Hv Hi Hr]. constructor; [..|exact Hr]; unfold commit_enable; by rewrite st_enable.
Qed.

Lemma commit_published : tm_file_id cmeta = tm_file_id meta -> tm_url cmeta = tm_url meta ->
  tm_creation_time cmeta = tm_creation_time meta -> published F nver v0 meta (commit_enable both).
Proof.
  intros E1 E2 E3.
  pose proof commit_st as Es.
  assert (st both = with_load (st (commit_hset cmeta c v)) None None None None false) as Eb
    by (unfold commit_hdel; by rewrite st_drop).
  pose proof (st_enable both) as Ee. change (set_state _ both) with (commit_enable both) in Ee.
  constructor; try (rewrite Ee, Eb, Es; project; done).
  - exact Hrev.
  - rewrite Ee, Eb, Es. project. rewrite Hsize. apply Hph.
Qed.

(** Once the new version is in place, it stays. *)
Lemma commit_serves : tm_file_id cmeta = tm_file_id meta -> tm_url cmeta = tm_url meta ->
  tm_creation_time cmeta = tm_creation_time meta ->
  forall w, st w = st (commit_hset cmeta c v) \/ st w = with_load (st (commit_hset cmeta c v)) None None None None false \/
            st w = st (commit_enable both) -> v_fwd w nver = v_fwd v nver -> serves_new F nver meta w.
Proof.
  intros E1 E2 E3 w Hw Hfw. pose proof commit_st as Es. pose proof (ph_tracks _ _ _ _ _ _ Hph) as Ht.
  assert (version (st w) = nver /\ file_id (st w) = tm_file_id cmeta /\ url (st w) = tm_url cmeta /\
    creation_time (st w) = tm_creation_time cmeta /\ size_ (st w) = tm_size cmeta /\ cardinality (st w) = Some c) as (HV & HFi & HU & HC & HS & HK).
  { pose proof (st_enable both) as Ee. change (set_state _ both) with (commit_enable both) in Ee.
    assert (st both = with_load (st (commit_hset cmeta c v)) None None None None false) as Eb by (unfold commit_hdel; by rewrite st_drop).
    destruct Hw as [Hw|[Hw|Hw]]; rewrite Hw, ?Ee, ?Eb, ?Es; project; done. }
  constructor; [done|split_and!; congruence| |by rewrite HK, Hfw]. rewrite HS, Hsize, Hfw. exact Ht.
Qed.

Lemma wp_commit_reload (Q : outcome WorkerError unit -> keyspace -> Prop) ks :
  tm_file_id cmeta = tm_file_id meta -> tm_url cmeta = tm_url meta ->
  tm_creation_time cmeta = tm_creation_time meta -> shows ks v ->
  (forall w ks', published F nver v0 meta w -> settled w -> shows ks' w -> Q (Returned tt) ks') ->
  (forall e w ks', list_inv w \/ torn_commit nver v0 w -> serves F nver v0 meta w -> shows ks' w -> Q (Failed e) ks') ->
  wp env (commit_reload self skh list skey (fkey nver) (fkey <$> base) cmeta) Q ks.
Proof.
  intros E1 E2 E3 Hv Hok Herr. unfold commit_reload. rewrite Htag, Henable.
  pose proof (phase_inv _ _ _ _ _ _ Hph) as Hi0.
  assert (forall w, settled w -> list_inv w) as Hset by (intros; by apply settled_inv).
  pose proof (commit_published E1 E2 E3) as Hpub. pose proof enable_settled as Hes.
  assert (serves F nver v0 meta v) as Hs0 by (left; by eapply phase_keeps).
  assert (forall w, settled w -> st w = st (commit_enable both) -> v_fwd w nver = v_fwd v nver ->
    (list_inv w \/ torn_commit nver v0 w) /\ serves F nver v0 meta w) as Hend
    by (intros w Hw Hstw Hfw; split; [left; by apply Hset|right; apply commit_serves; auto]).
  apply wp_bind. eapply (wp_scard self skh list tok env Hrely nver); [exact Hv| |].
  2:{ intros e ks' Hv'. eapply Herr; [by left|exact Hs0|exact Hv']. }
  clear ks Hv. intros ks Hv. cbn beta iota. apply wp_bind.
  eapply (wp_conn _ _ _ _ env Hrely); [exact Hv| |].
  2:{ intros e ks' Hv'. eapply Herr; [by left|exact Hs0|exact Hv']. }
  clear ks Hv. intros ks Hv. apply wp_bind.
  eapply (wp_pipe _ _ _ _ env Hrely _ [commit_hset cmeta c; commit_hdel; id]); [|exact Hv| |].
  { constructor; [by apply acts_hset|]. constructor; [by apply acts_hdel|].
    constructor; [apply acts_all_lists|constructor]. }
  2:{ intros e ks' w Hp Hw.
      assert (w ≡ v \/ w ≡ commit_hset cmeta c v \/ w ≡ commit_hdel v \/ w ≡ both) as Hcases.
      { inversion Hp as [|? ? ? ? Hp1|? ? ? ? Hp1]; subst;
        inversion Hp1 as [|? ? ? ? Hp2|? ? ? ? Hp2]; subst;
        inversion Hp2 as [|? ? ? ? Hp3|? ? ? ? Hp3]; subst;
        inversion Hp3 as [? ? Heq| |]; subst; symmetry in Heq; auto. }
      destruct Hcases as [Heq|[Heq|[Heq|Heq]]]; rewrite Heq in Hw; (eapply Herr; [| |exact Hw]).
      - by left.
      - exact Hs0.
      - left. apply commit_half_inv.
      - right. apply commit_serves; auto.
      - right. apply commit_torn.
      - left. apply commit_torn_keeps.
      - left. apply Hset, commit_settled.
      - right. apply commit_serves; auto. right. left. unfold commit_hdel. by rewrite st_drop. }
  clear ks Hv. intros _ ks Hv. cbn beta iota. apply wp_bind. apply wp_bind.
  eapply (wp_write _ _ _ _ env Hrely); [by apply acts_hdel|exact Hv| |].
  2:{ intros e ks' [Hv'|Hv'].
      - eapply Herr; [left; apply Hset, commit_settled| |exact Hv']. right. apply commit_serves; auto. right. left.
        unfold commit_hdel. by rewrite st_drop.
      - destruct (Hend (commit_enable both)); [done..|]. by eapply Herr. }
  clear ks Hv. intros _ ks Hv. change (wp env (Ret tt) ?P ks) with (P (Returned tt) ks). cbn beta iota.
  apply wp_bind. eapply (wp_write _ _ _ _ env Hrely); [apply acts_persist|exact Hv| |].
  2:{ destruct (Hend (commit_enable both)); [done..|]. intros e ks' [Hv'|Hv']; by eapply Herr. }
  clear ks Hv. intros _ ks Hv. destruct base as [u|] eqn:Hb; cbn [fmap option_fmap option_map].
  2:{ eapply Hok; [exact Hpub|exact Hes|exact Hv]. }
  destruct (base_other u Hb) as (_ & Hu & _).
  destruct (decide _); [eapply Hok; [exact Hpub|exact Hes|exact Hv]|].
  apply wp_bind. eapply (wp_write _ _ _ _ env Hrely); [by apply acts_expire_fwd|exact Hv| |].
  - intros _ ks' Hv'. cbn beta iota. destruct (bool_decide (0 < _)%Z).
    + eapply Hok; [exact Hpub|exact Hes|exact Hv'].
    + eapply Hok; [by apply published_expire|by apply settled_expire|exact Hv'].
  - destruct (Hend (commit_enable both)); [done..|]. intros e ks' [Hv'|Hv']; [by eapply Herr|].
    destruct (bool_decide (0 < _)%Z); [by eapply Herr|].
    edestruct Hend as [? ?]; [by eapply settled_expire| | |eapply Herr; [..|exact Hv']; done].
    + done.
    + simpl. by rewrite decide_False.
Qed.
End Commit.

(** ** Lemmas: the token, and the repair without a download *)

(** The dictionary has another token for the list. *)
Definition other_token (ks : keyspace) : Prop :=
  exists s, hash_at ks (dict_key (schema self) skh) !! name_field list = Some s /\ s <> show_u64 tok.

Context (Htok64 : is_u64 tok).

Lemma wp_token v (Q : outcome WorkerError N -> keyspace -> Prop) ks :
  shows ks v ->
  (forall ks', shows ks' (set_tok (Some (show_u64 tok)) v) -> Q (Returned tok) ks') ->
  (forall t ks', other_token ks' -> Q (Returned t) ks') ->
  (forall e t ks', shows ks' (set_tok t v) -> Q (Failed e) ks') ->
  wp env (get_or_allocate_token (schema self) skh list) Q ks.
Proof.
  intros Hv Hok Hother Herr.
  assert (set_tok (v_tok v) v = v) as Hself by (by destruct v).
  eapply (wp_get_or_allocate_token _ _ _ _ Hns env Hrely); [exact Hv| |].
  - intros s t ks' Hp _ Hv'. destruct (decide (s = show_u64 tok)) as [->|Hne].
    + rewrite parse_u64_show in Hp by done. injection Hp as <-. by apply Hok.
    + apply Hother. exists s. split; [apply Hv'|done].
  - intros e ks' [Hv'|[_ [s Hv']]]; [eapply (Herr e (v_tok v)); by rewrite Hself|by eapply Herr].
Qed.

Lemma list_inv_rebuild v R : reconcile_required (st v) = true -> list_inv v -> list_inv (with_rev R v).
Proof.
  intros Hr [Hw Hi Hc]. constructor; [done| |done]. left. unfold flagged.
  change (st (with_rev R v)) with (st v). by rewrite Hr.
Qed.

Definition unmarked : lview -> lview :=
  set_state (hdel_fields [REVERSE_INDEX_DISABLED; state_fields.RECONCILE_REQUIRED]).
Lemma st_unmarked v : st (unmarked v) = {|
    reverse_index_disabled := false; version := version (st v); file_id := file_id (st v);
    url := url (st v); creation_time := creation_time (st v); size_ := size_ (st v);
    cardinality := cardinality (st v); loading_cardinality := loading_cardinality (st v);
    reconcile_required := false; loading_version := loading_version (st v);
    loading_size := loading_size (st v); diff_partition := diff_partition (st v) |}.
Proof. unfold unmarked. solve_st. Qed.

Lemma wp_reconcile (Q : outcome WorkerError bool -> keyspace -> Prop) ks :
  list_inv v0 -> shows ks v0 ->
  (forall ks', shows ks' v0 -> Q (Returned false) ks') ->
  (forall w ks', reindexed nver v0 meta w -> list_inv w -> shows ks' w -> Q (Returned true) ks') ->
  (forall ks' t, other_token ks' ->
     wp env (_ ← clear_reverse_token self skh t renewal;
             _ ← fanout_scan self skh (fkey (version (st v0))) t true
                   (N.of_nat (size (v_fwd v0 (version (st v0))))) renewal;
             _ ← renew_now renewal; _ ← get_conn;
             _ ← write (HDEL skey [REVERSE_INDEX_DISABLED; state_fields.RECONCILE_REQUIRED]);
             Ret true) Q ks') ->
  (forall e w ks', safe v0 w -> shows ks' w -> Q (Failed e) ks') ->
  wp env (reconcile_committed_forward self skh list (st v0) meta renewal) Q ks.
Proof.
  intros Hi Hv Hno Hyes Hother Herr. unfold reconcile_committed_forward.
  destruct (_ || _) eqn:Hg; [by apply Hno|].
  apply orb_false_iff in Hg as [Hg Hload]. apply orb_false_iff in Hg as [Hg Hsz].
  apply orb_false_iff in Hg as [Hg Hfid]. apply orb_false_iff in Hg as [Hg Hempty].
  apply orb_false_iff in Hg as [_ Hdis]. apply negb_false_iff in Hsz, Hfid, Hdis. apply bool_decide_eq_true in Hsz, Hfid.
  assert (loading_version (st v0) = None) as Hl0.
  { apply bool_decide_eq_false in Hload. destruct (loading_version (st v0)); [|done]. exfalso. by apply Hload. }
  assert (forall e ks', shows ks' v0 -> Q (Failed e) ks') as Herr0 by (intros; by eapply Herr; [split; [done|apply keeps_refl]|]).
  cbn zeta. apply wp_bind.
  eapply (wp_scard self skh list tok env Hrely (version (st v0))); [exact Hv| |done].
  clear ks Hv. intros ks Hv. cbn beta iota.
  destruct (bool_decide (cardinality (st v0) = _)) eqn:Hcard; cbn [negb]; [apply bool_decide_eq_true in Hcard|by apply Hno].
  apply wp_bind. eapply wp_ensure_persisted; [done|exact Hrely|exact Hv| |done].
  clear ks Hv. intros _ ks Hv. apply wp_bind. eapply (wp_conn _ _ _ _ env Hrely); [exact Hv| |done].
  clear ks Hv. intros ks Hv. apply wp_bind. assert (safe v0 (marked true v0)) as Him
    by (split; [by apply marked_inv|by apply keeps_hset, keeps_refl]).
  eapply (wp_pipe _ _ _ _ env Hrely _ [set_state (hset_fields [(state_fields.RECONCILE_REQUIRED, "1")]); id]);
    [constructor; [by apply acts_hset|constructor; [apply acts_ready|constructor]]|exact Hv| |].
  2:{ intros e ks' w Hp Hw. destruct (partial_two _ _ _ _ Hp) as [Heq|[Heq|[Heq|Heq]]];
        rewrite Heq in Hw; (eapply Herr; [|exact Hw]); first [exact Him|split; [done|apply keeps_refl]]. }
  clear ks Hv. intros _ ks Hv. cbn beta iota.
  change (shows ks (marked true v0)) in Hv. apply wp_bind.
  eapply wp_token; [exact Hv| | |].
  2:{ intros t ks' Ho. cbn beta iota. by apply Hother. }
  2:{ intros e t ks' Hv'. eapply Herr; [|exact Hv']. split; [apply list_inv_tok; apply Him|apply Him]. }
  clear ks Hv. intros ks Hv. cbn beta iota. set (v1 := set_tok _ (marked true v0)) in *.
  assert (list_inv v1) as Hi1 by (apply list_inv_tok; apply Him).
  assert (st v1 = with_load (st v0) (loading_version (st v0)) (loading_size (st v0))
    (loading_cardinality (st v0)) (diff_partition (st v0)) true) as Es1.
  { unfold v1, marked. change (st (set_tok ?t ?u)) with (st u). by rewrite st_reconcile. }
  assert (forall R, safe v0 (with_rev R v1)) as HiR
    by (intros R; split; [apply list_inv_rebuild; [by rewrite Es1|done]|apply Him]).
  apply wp_bind.
  eapply (wp_clear_reverse_token self skh list tok Hns env Hrely renewal Hkey Hcfg (fun _ => True));
    [apply rev_inv_free|done|exact Hv| |].
  2:{ intros e R ks' _ Hv'. eapply Herr; [apply HiR|exact Hv']. }
  clear ks Hv. intros R ks HR Hv. apply wp_bind.
  eapply (wp_fanout_scan self skh list tok Hns env Hrely renewal Hkey Hcfg (fun _ => True)
    (version (st v0)) true _ (with_rev R v1)); [apply rev_inv_free|done|exact Hv| |].
  2:{ intros e R' ks' _ Hv'. eapply Herr; [apply HiR|exact Hv']. }
  clear ks Hv. intros R' ks HR' Hv.
  assert (forall x, R' x <-> x ∈ v_fwd v0 (version (st v0))) as Hx.
  { intros x. rewrite HR'. cbn [v_fwd v_rev with_rev].
    change (v_fwd v1) with (v_fwd v0). case_decide; [done|]. split; [intros Hr; by destruct (HR x)|done]. }
  change (with_rev R' (with_rev R v1)) with (with_rev R' v1) in Hv.
  apply wp_bind. eapply (wp_renew_now _ _ _ _ Hns env Hrely); [exact Hkey|exact Hv| |].
  2:{ intros e ks' Hv'. eapply Herr; [apply HiR|exact Hv']. }
  clear ks Hv. intros ks Hv. apply wp_bind. eapply (wp_conn _ _ _ _ env Hrely); [exact Hv| |].
  2:{ intros e ks' Hv'. eapply Herr; [apply HiR|exact Hv']. }
  clear ks Hv. intros ks Hv. apply wp_bind.
  assert (st (unmarked (with_rev R' v1)) = with_load
    {| reverse_index_disabled := false; version := version (st v0); file_id := file_id (st v0);
       url := url (st v0); creation_time := creation_time (st v0); size_ := size_ (st v0);
       cardinality := cardinality (st v0); loading_cardinality := None; reconcile_required := false;
       loading_version := None; loading_size := None; diff_partition := None |}
    (loading_version (st v0)) (loading_size (st v0)) (loading_cardinality (st v0))
    (diff_partition (st v0)) false) as Eu.
  { rewrite st_unmarked. change (st (with_rev R' v1)) with (st v1). by rewrite Es1. }
  assert (reindexed nver v0 meta (unmarked (with_rev R' v1))) as Hre.
  { constructor; [done|by rewrite Eu|by rewrite Eu|by rewrite Eu|split; [apply keeps_hdel; [done|apply (HiR R')]|done]|by rewrite Eu|by rewrite Eu|].
    intros x. rewrite Eu. exact (Hx x). }
  assert (list_inv (unmarked (with_rev R' v1))) as Hiu.
  { constructor; rewrite Eu; project; [apply Hi| |by rewrite Hl0].
    right. right. unfold index_clean, committed_set. rewrite Eu. project. rewrite Hl0.
    by rewrite Hempty. }
  eapply (wp_write _ _ _ _ env Hrely); [by apply acts_hdel|exact Hv| |].
  - intros _ ks' Hv'. cbn beta iota. eapply Hyes; [exact Hre|exact Hiu|exact Hv'].
  - intros e ks' [Hv'|Hv']; (eapply Herr; [|exact Hv']); [apply HiR|].
    split; [exact Hiu|]. apply keeps_hdel; [done|apply (HiR R')].
Qed.

(** ** Lemmas: the whole reload *)

Context (Hname : forall ks ks', rely env ks ks' ->
  hash_at ks' (dict_key (schema self) skh) !! name_field list
  = hash_at ks (dict_key (schema self) skh) !! name_field list).

Lemma wp_other {A} (p : prog WorkerError A) (Q : outcome WorkerError A -> keyspace -> Prop) ks :
  commands_ok (cmd_off (dict_key (schema self) skh)) p -> other_token ks ->
  (forall out ks', other_token ks' -> Q out ks') -> wp env p Q ks.
Proof.
  intros Hp Ho HQ. eapply wp_mono; [eapply (wp_commands env _ p other_token); [exact Hp| | |exact Ho]|exact HQ].
  - intros ks1 ks2 (s & Hs & Hne) HR. exists s. by rewrite (Hname _ _ HR).
  - intros R c ks1 rr ks2 Hc (s & Hs & Hne) Hk. exists s. split; [by eapply contract_off|done].
Qed.

Lemma wp_other_bind {A B} (p : prog WorkerError A) (f : A -> prog WorkerError B)
    (Q : outcome WorkerError B -> keyspace -> Prop) ks :
  commands_ok (cmd_off (dict_key (schema self) skh)) p -> other_token ks ->
  (forall a ks', other_token ks' -> wp env (f a) Q ks') ->
  (forall e ks', other_token ks' -> Q (Failed e) ks') -> (forall ks', other_token ks' -> Q NoFuel ks') ->
  wp env (p ≫= f) Q ks.
Proof.
  intros Hp Ho Hf He Hn. apply wp_bind. eapply wp_other; [exact Hp|exact Ho|].
  intros [a|e|] ks' Ho'; auto.
Qed.

Lemma dict_not_claim : cr_key renewal <> dict_key (schema self) skh.
Proof. rewrite Hkey. by apply (keys_differ _ (KClaim skh list) (KDict skh)). Qed.
Lemma dict_not_state : state_key (schema self) skh list <> dict_key (schema self) skh.
Proof. by apply (keys_differ _ (KState skh list) (KDict skh)). Qed.
Lemma dict_not_fwd ver : fwd_key (schema self) skh list ver <> dict_key (schema self) skh.
Proof. by apply (keys_differ _ (KFwd skh list ver) (KDict skh)). Qed.
Lemma dict_not_ready : ready_key (schema self) skh <> dict_key (schema self) skh.
Proof. by apply (keys_differ _ (KReady skh) (KDict skh)). Qed.

Lemma marked_fields r f : ~ load_field f -> v_state (marked r v0) !! f = v_state v0 !! f.
Proof.
  intros Hn. destruct r; [|done]. simpl. apply lookup_insert_ne. intros <-. apply Hn.
  unfold load_field. set_solver.
Qed.

Context (Hinv : list_inv v0).
Context (Hrepub : version (st v0) = nver -> loading_version (st v0) = None ->
                  flagged (st v0) = true \/ committed_lost v0 = true).
Abbreviation r := (reconcile_of v0).
Abbreviation resume := (bool_decide (loading_version (st v0) = Some nver) && negb (pending_missing_of v0)).

Lemma reconcile_false : r = false ->
  flagged (st v0) = false /\ committed_lost v0 = false /\ pending_missing_of v0 = false /\
  (loading_version (st v0) = None \/ loading_version (st v0) = Some nver) /\ index_clean self v0.
Proof.
  unfold reconcile_of. intros Hr. apply orb_false_iff in Hr as [Hr Hl].
  apply orb_false_iff in Hr as [Hr Hp]. apply orb_false_iff in Hr as [Hr Hc].
  split_and!; [done|done|done| |].
  - destruct (loading_version (st v0)) as [u|]; [right|by left]. simpl in Hl.
    destruct (bool_decide (Some u = Some nver)) eqn:E; [by apply bool_decide_eq_true in E|done].
  - destruct (li_index _ _ _ _ Hinv) as [Hi|[Hi|Hi]]; [unfold flagged in Hi; congruence|congruence|done].
Qed.

Lemma resume_phase : resume = true -> phase r v0 (marked r v0).
Proof.
  intros Hres. apply andb_true_iff in Hres as [Hm Hp]. apply bool_decide_eq_true in Hm.
  apply negb_true_iff in Hp. unfold pending_missing_of in Hp. rewrite bool_decide_eq_true_2 in Hp by done.
  simpl in Hp. assert (loading_version (st (marked r v0)) = Some nver /\
    loading_size (st (marked r v0)) = loading_size (st v0)) as [El Es].
  { unfold marked. destruct r; [rewrite st_reconcile; done|done]. }
  constructor; [apply marked_fields|by destruct r|done| | |].
  - rewrite Es. destruct (li_content _ _ _ _ Hinv Hm) as [?|Ht]; [congruence|]. by destruct r.
  - intros Hr. rewrite Hr. unfold marked. by rewrite st_reconcile.
  - intros Hr. rewrite Hr. unfold marked. destruct (reconcile_false Hr) as (_ & Hc & _ & _ & Hi).
    split; [done|]. unfold index_clean in Hi. rewrite Hm in Hi. destruct Hi as [Hi|Hi]; [congruence|done].
Qed.

Lemma start_startable : resume = false -> startable r (marked r v0).
Proof.
  intros Hres. assert (loading_version (st (marked r v0)) = loading_version (st v0) /\
    diff_partition (st (marked r v0)) = diff_partition (st v0)) as [El Es].
  { unfold marked. destruct r; [rewrite st_reconcile; done|done]. }
  constructor.
  - rewrite El, Es. apply Hinv.
  - intros Hr. rewrite Hr. unfold marked. by rewrite st_reconcile.
  - intros Hr. rewrite Hr. unfold marked. destruct (reconcile_false Hr) as (Hf & Hc & Hp & Hl & Hi).
    rewrite Hp in Hres. destruct Hl as [Hl|Hl].
    2:{ rewrite bool_decide_eq_true_2 in Hres by done. done. }
    split_and!; [done| |done|]; [|by unfold index_clean in Hi; rewrite Hl in Hi].
    intros Hv. destruct (Hrepub Hv Hl); congruence.
  - rewrite El. intros Hl. rewrite bool_decide_eq_true_2 in Hres by done. simpl in Hres.
    apply negb_false_iff in Hres. unfold pending_missing_of in Hres.
    apply andb_true_iff in Hres as [_ Hres]. unfold pending_lost in *.
    unfold marked. destruct r; [rewrite st_reconcile; exact Hres|exact Hres].
Qed.

Context (Hnver : tm_version_tag meta = nver) (Htime : is_u64 (tm_creation_time meta)).

Lemma version_tag_nonempty : str_empty nver = false.
Proof.
  rewrite <- Hnver. unfold tm_version_tag, version_tag, str_empty. apply bool_decide_eq_false.
  case_bool_decide as He; intros Heq.
  - pose proof (show_u64_parse_uint (meta_creation_time (as_idlist_metadata meta))) as Hp.
    by rewrite Heq in Hp.
  - destruct (meta_file_id (as_idlist_metadata meta)); [done|]. by rewrite str_cons_app in Heq.
Qed.

(** What every run of the reload leaves. *)
Definition reload_post (out : outcome WorkerError unit) (ks : keyspace) : Prop :=
  other_token ks \/
  (out <> NoFuel /\ exists w, shows ks w /\ (list_inv w \/ torn_commit nver v0 w) /\ serves F nver v0 meta w /\
     (out = Returned tt -> list_inv w /\ reload_done F nver v0 meta w)).

Lemma post_failed e w ks :
  list_inv w \/ torn_commit nver v0 w -> serves F nver v0 meta w -> shows ks w -> reload_post (Failed e) ks.
Proof. intros Hw Hse Hs. right. split; [done|]. by exists w. Qed.
Lemma done_serves w : reload_done F nver v0 meta w -> serves F nver v0 meta w.
Proof.
  intros [[Hv Hf _ _ _ Hc Hk _]|Hre]; [right; by constructor|left]. apply Hre.
Qed.
Lemma post_done w ks : list_inv w -> reload_done F nver v0 meta w -> shows ks w -> reload_post (Returned tt) ks.
Proof. intros Hi Hd Hs. right. split; [done|]. exists w. split_and!; auto using done_serves. Qed.

Lemma wp_apply_full_reload ks :
  shows ks v0 -> wp env (apply_full_reload self skh list (st v0) meta renewal) reload_post ks.
Proof.
  intros Hv. unfold apply_full_reload. apply wp_bind.
  assert (forall e w ks', safe v0 w -> shows ks' w -> reload_post (Failed e) ks') as Herr
    by (intros e w ks' [Hi Hk] Hw; eapply post_failed; [by left|by left|exact Hw]).
  assert (safe v0 v0) as Hs0 by (split; [done|apply keeps_refl]).
  eapply wp_reconcile; [exact Hinv|exact Hv| | | |exact Herr].
  2:{ intros w ks' Hre Hiw Hw. cbn beta iota. eapply post_done; [exact Hiw|by right|exact Hw]. }
  2:{ intros ks' t Ho. pose proof dict_not_claim. pose proof dict_not_state.
      repeat (eapply wp_other_bind;
        [|eassumption|clear ks' Ho; intros ? ks' Ho|by left|by left]);
        [by apply off_clear_token|by apply off_fanout_scan|by apply off_renew_now| | |by left].
      - split; [apply not_elem_of_nil|by intros [?|?]].
      - split; [done|by intros [?|?]]. }
  clear ks Hv. intros ks Hv. cbn beta iota zeta. rewrite Hnver.
  apply wp_bind. eapply wp_reload_flags; [exact Hv| |intros e ks' Hv'; by eapply Herr].
  clear ks Hv. intros ks Hv. cbn beta iota. apply wp_bind.
  eapply wp_reload_register; [exact Hv| |].
  2:{ intros e ks' [Hv'|Hv']; (eapply Herr; [|exact Hv']); [done|].
      split; [by apply marked_inv|]. unfold marked. destruct r; [by apply keeps_hset, keeps_refl|apply keeps_refl]. }
  clear ks Hv. intros ks Hv. cbn beta iota. apply wp_bind.
  change (state_key (schema self) skh list) with skey.
  change (fwd_key (schema self) skh list nver) with (fkey nver).
  assert (reload_start (st v0) skey nver (fkey nver) resume
          = reload_start (st (marked r v0)) skey nver (fkey nver) resume) as ->.
  { unfold reload_start, marked. destruct r; [by rewrite st_reconcile|done]. }
  eapply (wp_reload_start r v0 (marked r v0) resume); [apply resume_phase| |exact Hv| |exact Herr].
  { intros Hres. split; [by apply start_startable|]. split; [apply marked_fields|by destruct r]. }
  assert (diff_partition (st (marked r v0)) = diff_partition (st v0)) as ->.
  { unfold marked. destruct r; [by rewrite st_reconcile|done]. }
  clear ks Hv. intros v1 ks Hph Hv Hd1. cbn beta iota. rewrite <- Hd1. apply wp_bind.
  assert ((if negb (str_empty (version (st v0))) && negb (bool_decide (version (st v0) = nver))
           then Some (fwd_key (schema self) skh list (version (st v0))) else None) = fkey <$> base) as ->.
  { unfold base_version. by destruct (negb (str_empty _) && _). }
  eapply wp_token; [exact Hv| | |].
  3:{ intros e t ks' Hv'. eapply Herr; [|exact Hv'].
      split; [eapply list_inv_tok, phase_inv; exact Hph|exact (phase_keeps _ _ _ _ _ _ Hph)]. }
  2:{ intros t ks' Ho. cbn beta iota. pose proof dict_not_claim. pose proof dict_not_state.
      pose proof dict_not_fwd. pose proof dict_not_ready.
      eapply wp_other_bind; [by apply off_reload_download|exact Ho| |by left|by left].
      clear ks' Ho. intros [ls d] ks' Ho. cbn beta iota.
      eapply wp_other_bind; [by apply off_reload_index|exact Ho| |by left|by left].
      clear ks' Ho. intros _ ks' Ho.
      eapply wp_other_bind; [by apply off_renew_now|exact Ho| |by left|by left].
      clear ks' Ho. intros _ ks' Ho.
      eapply wp_other; [by apply off_commit_reload|exact Ho|by left]. }
  clear ks Hv. intros ks Hv. cbn beta iota. apply wp_bind.
  apply (phase_tok _ _ _ _ _ _ (Some (show_u64 tok))) in Hph.
  set (v2 := set_tok _ v1) in *. change (st v1) with (st v2) in Hd1 |- *.
  eapply (wp_reload_download r v0 v2); [exact Hph|exact Hv| |exact Herr].
  clear ks Hv. intros v3 d ks Hph3 Hv Hd3 Hsize. cbn beta iota. apply wp_bind.
  eapply (wp_reload_index r v3 d); [exact Hph3|exact Hd3|exact Hv| |exact Herr].
  clear ks Hv. intros v4 d' ks Hph4 Hd4 Hrev4 Hl4 Hv. cbn beta iota. rewrite <- Hl4. apply wp_bind.
  eapply (wp_renew_now _ _ _ _ Hns env Hrely); [exact Hkey|exact Hv| |].
  2:{ intros e ks' Hv'. eapply Herr; [by eapply phase_safe|exact Hv']. }
  clear ks Hv. intros ks Hv. cbn beta iota.
  eapply (wp_commit_reload v4 r d'); try done.
  - apply version_tag_nonempty.
  - cbn [tm_size]. rewrite Hl4. intros Hnone. apply Hsize. rewrite Hd1, Hnone. by destruct resume.
  - intros w ks' Hpub Hset Hw. eapply post_done; [|by left|exact Hw].
    apply settled_inv; [apply version_tag_nonempty|done].
  - intros e w ks' Hw Hse Hs. by eapply post_failed.
Qed.
End Steps.

(** ** Properties *)

Lemma keeps_size nver v0 w : keeps nver v0 w -> size_ (st w) = size_ (st v0).
Proof.
  intros [Hf _]. unfold st, from_hash_fields. cbn [size_]. rewrite Hf; [done| |done]. unfold load_field. set_solver.
Qed.
(** A published set that followed the file goes on following it. *)
Lemma reload_done_content F nver v0 meta w :
  reload_done F nver v0 meta w -> tracks F (size_ (st v0)) (.∈ v_fwd v0 (version (st v0))) ->
  tracks F (size_ (st w)) (.∈ v_fwd w (version (st w))).
Proof.
  intros [Hpub|Hre] Ht; [rewrite (pub_version _ _ _ _ _ Hpub); apply Hpub|].
  destruct (rx_kept _ _ _ _ Hre) as [Hk Hfw]. destruct (rx_version _ _ _ _ Hre) as [-> _].
  rewrite (keeps_size _ _ _ Hk). eapply tracks_ext; [|exact Ht]. intros x. simpl. by rewrite Hfw.
Qed.


(** The first load of a list, into an empty keyspace but for the claim. *)
Module ReloadExample.
Definition worker : IdListSyncWorker := {|
  schema := {| key_prefix := "p" |}; claim := {| holder_id := "h" |};
  config := IdListWorkerConfig_default; stream_rounds := 20;
|}.
Definition file : bytes := records ["+a"; "+b"; "-a"].
Definition renewal : ClaimRenewal :=
  {| cr_lock := claim worker; cr_key := claim_key (schema worker) "aB3/" "l"; cr_ttl_s := 60 |}.
Definition ks : keyspace :=
  {[ claim_key (schema worker) "aB3/" "l" := {| val := VStr "h"; ttl := Some 60%N |} ]}.
Definition meta : TaskMetadata := {|
  tm_op := OpLoad; tm_file_id := "f"; tm_creation_time := 1; tm_url := "u"; tm_size := 9 |}.
Definition env : environment := {|
  rely := fun ks ks' => same_view (schema worker) "aB3/" "l" 1 ks ks' /\
    hash_at ks' (dict_key (schema worker) "aB3/") !! name_field "l"
    = hash_at ks (dict_key (schema worker) "aB3/") !! name_field "l";
  http_ok := @origin_serves string_urls "u" file;
|}.
Definition constant_hash : PartitionHash := fun _ => 0%N.

Lemma reload_namespace : namespace_ok "aB3/".
Proof. by split. Qed.

Lemma reload_ks_shows : shows (schema worker) "aB3/" "l" 1 ks empty_view.
Proof.
  eapply shows_frame; [|apply (shows_empty _ _ _ _ reload_namespace)]. intros k Hk. unfold ks.
  rewrite lookup_singleton_ne; [done|]. intros <-. revert Hk.
  apply (not_owned _ _ _ reload_namespace (KClaim "aB3/" "l")); [apply reload_namespace|done].
Qed.

Lemma reload_origin q : http_ok env q (range_origin "u" file 0 9 q).
Proof.
  intros start stop file_size resp Hq Hr. unfold range_origin in Hr. case_decide as Hd; [|done].
  injection Hr as <-. intros Hstart.
  assert (start = 0%N) as ->; [|vm_compute; exists []; reflexivity].
  destruct Hstart as [->|[_ (value & Hv & Hs)]]; [done|].
  vm_compute in Hv. injection Hv as <-. unfold content_range_starts_at in Hs.
  apply bool_decide_eq_true in Hs. vm_compute in Hs. congruence.
Qed.

Lemma reload_start_inv F nver : @list_inv constant_hash worker F nver empty_view.
Proof.
  constructor; [done| |done]. right. right. unfold index_clean, committed_set.
  change (loading_version (st empty_view)) with (@None string).
  change (str_empty (version (st empty_view))) with true. simpl. set_solver.
Qed.
End ReloadExample.


(** The example run succeeds, with exactly the file's list in both indexes. *)
Example reload_example_result :
  let final := eval (range_origin "u" ReloadExample.file 0 9)
    (@apply_full_reload string_urls _ ReloadExample.constant_hash ReloadExample.worker "aB3/" "l"
      (st empty_view) ReloadExample.meta ReloadExample.renewal) ReloadExample.ks in
  final.1 = Returned tt /\
  set_at final.2 (fwd_key (schema ReloadExample.worker) "aB3/" "l" "f@1") = {["b"]} /\
  set_at final.2 (member_key (schema ReloadExample.worker) "aB3/" "b") = {["1"]} /\
  version (from_hash_fields (hash_at final.2 (state_key (schema ReloadExample.worker) "aB3/" "l"))) = "f@1".
Proof. by vm_compute. Qed.
