(* ===== verification/RemovalSpec.v ===== *)
(** * RemovalSpec: removing a list takes its token out of every member set

    The specification of [apply_remove] of
    [src/src/datastore/idlist_membership/worker/removal.rs]: what every run of it
    keeps, so that an interrupted removal can be retried, and what a successful run
    leaves. *)
From S2P Require Import Prelude Schema Effects Dict WorkerCore Parser Download ListView WorkLock.
From S2P Require Import FileContent Delta StreamedDiff Reload Footprint ReloadSpec WorkerRun.

(** The fan-out of a removal reaches every member set that has the token: the
    whole index is scanned, or the forward set covers it. *)
Definition covered (v : lview) : Prop :=
  flagged (st v) = true \/ committed_lost v = true \/ is_Some (loading_version (st v)) \/
  version (st v) = "" \/ forall x, v_rev v x -> x ∈ v_fwd v (version (st v)).

(** The marker of a finished fan-out, as the next run reads it. *)
Definition marker_read (v : lview) : Prop :=
  exists x, v_state v !! state_fields.REMOVAL_FANOUT_COMPLETE = Some x /\ is_Some (parse_bounded 255 x).

(** From here a removal can run, and run again: the marker is only set when no member set
    has the token; the dictionary has the token until none has it; and once the dictionary
    has lost it, the marker is there, or there is no version whose token would be asked for. *)
Record removal_inv (tok : N) (v : lview) : Prop := {
  rm_marker : is_Some (v_state v !! state_fields.REMOVAL_FANOUT_COMPLETE) -> forall x, ~ v_rev v x;
  rm_covered : covered v;
  rm_token : v_tok v = Some (show_u64 tok) \/ (v_tok v = None /\ forall x, ~ v_rev v x);
  rm_retry : v_tok v = None -> marker_read v \/ version (st v) = "";
}.

Record removed (v0 w : lview) : Prop := {
  rd_state : v_state w = ∅;
  rd_fwd : v_fwd w (version (st v0)) = ∅;
  rd_loading u : loading_version (st v0) = Some u -> v_fwd w u = ∅;
  rd_other u : u <> version (st v0) -> loading_version (st v0) <> Some u -> v_fwd w u = v_fwd v0 u;
  rd_tok : v_tok w = None;
  rd_rev x : ~ v_rev w x;
}.

Lemma removal_inv_empty tok v :
  (forall x, ~ v_rev v x) -> v_tok v = Some (show_u64 tok) \/ v_tok v = None ->
  (v_tok v = None -> marker_read v \/ version (st v) = "") -> removal_inv tok v.
Proof.
  intros Hr Ht Hm. constructor; [done| |by destruct Ht; auto|done]. do 4 right. intros x Hx. by destruct (Hr x).
Qed.

Lemma partial_state_tok fs v w :
  partial fs v w -> (forall f u, f ∈ fs -> (v_state (f u) = v_state u \/ v_state (f u) = ∅) /\ (v_tok (f u) = v_tok u \/ v_tok (f u) = None)) ->
  (v_state w = v_state v \/ v_state w = ∅) /\ (v_tok w = v_tok v \/ v_tok w = None).
Proof.
  intros Hp. induction Hp as [v w (Hs & _ & _ & Ht)|f fs v w Hp IH|f fs v w Hp IH]; intros Hfs.
  - rewrite Hs, Ht. auto.
  - destruct (Hfs f v (list_elem_of_here _ _)) as [Hs Ht]. destruct IH as [Hs' Ht']; [intros; apply Hfs; by right|].
    split; [destruct Hs' as [-> | ->]|destruct Ht' as [-> | ->]]; auto.
  - apply IH. intros. apply Hfs. by right.
Qed.

Lemma partial_rev fs v w :
  partial fs v w -> (forall f u, f ∈ fs -> v_rev (f u) = v_rev u) -> forall x, v_rev w x <-> v_rev v x.
Proof.
  intros Hp. induction Hp as [v w (_ & _ & Hr & _)|f fs v w Hp IH|f fs v w Hp IH]; intros Hfs x.
  - by rewrite Hr.
  - rewrite IH by set_solver. rewrite Hfs by (by left). done.
  - apply IH. set_solver.
Qed.

Section Removal.
Context `{UrlLib} `{ScanOrder} `{PartitionHash} (self : IdListSyncWorker) (skh list : string) (tok : N).
Context (Hns : namespace_ok skh) (env : environment).
Context (Hrely : forall ks ks', rely env ks ks' -> same_view (schema self) skh list tok ks ks').
Context (Henable : enable_reverse_index (config self) = true).
Context (renewal : ClaimRenewal) (Hkey : cr_key renewal = claim_key (schema self) skh list).
Context (Hcfg : config_ok (config self)) (Htok64 : is_u64 tok).
Abbreviation shows := (shows (schema self) skh list tok).
Abbreviation fkey := (fkey (schema self) skh list).
Abbreviation skey := (skey (schema self) skh list).

Lemma wp_get_token v (Q : outcome WorkerError (option N) -> keyspace -> Prop) ks :
  v_tok v = None \/ v_tok v = Some (show_u64 tok) -> shows ks v ->
  (forall ks', shows ks' v -> Q (Returned (match v_tok v with Some _ => Some tok | None => None end)) ks') ->
  (forall e ks', shows ks' v -> Q (Failed e) ks') ->
  wp env (get_token (schema self) skh list) Q ks.
Proof.
  intros Htok Hv Hok Herr. unfold get_token. apply wp_bind.
  eapply (wp_conn _ _ _ _ env Hrely); [exact Hv| |done]. clear ks Hv. intros ks Hv. apply wp_bind.
  eapply (wp_read _ _ _ _ env Hrely _ (fun v a => a = v_tok v)); [done| |exact Hv| |done].
  - intros ks1 a (_ & _ & _ & Ht) Hc. eapply contract_ok in Hc as [Heq _]; [|done].
    unfold hash_at, ListView.dkey in Ht. destruct (as_hash ks1 _) as [s|]; simpl in *; by simplify_eq.
  - intros a ks' Hv' ->. cbn beta iota. destruct Htok as [Ht|Ht]; rewrite Ht in Hok |- *; [by apply Hok|].
    apply wp_bind. unfold parse_token. rewrite parse_u64_show by done. by apply Hok.
Qed.

Context (v0 : lview).
Context (Hinv : removal_inv tok v0).

(** While the token is being taken out of the member sets. *)
Record draining (w : lview) : Prop := {
  dr_view : exists R, w = with_rev R v0;
  dr_sub x : v_rev w x -> v_rev v0 x;
  dr_covered : covered w;
}.

Lemma draining_inv w : draining w -> removal_inv tok w.
Proof.
  intros [[R ->] Hs Hc]. constructor; [|done| |apply Hinv].
  - intros Hm x Hx. apply (rm_marker _ _ Hinv Hm x). by apply Hs.
  - destruct (rm_token _ _ Hinv) as [?|[? Hr]]; [by left|right]. split; [done|]. intros x Hx. by apply (Hr x), Hs.
Qed.

Lemma drained_covered R : (forall x, R x -> v_rev v0 x) -> covered (with_rev R v0).
Proof.
  intros HR. destruct (rm_covered _ _ Hinv) as [?|[?|[?|[?|Hc]]]].
  - by left.
  - by right; left.
  - by do 2 right; left.
  - by do 3 right; left.
  - do 4 right. intros x Hx. by apply Hc, HR.
Qed.
Lemma draining_rev R : (forall x, R x -> v_rev v0 x) -> draining (with_rev R v0).
Proof. intros HR. constructor; [by exists R|done|by apply drained_covered]. Qed.

Lemma rev_inv_shrink S : rev_inv S false (fun R => forall x, R x -> v_rev v0 x).
Proof.
  constructor.
  - intros R R' Heq HR x Hx. apply HR. by apply Heq.
  - intros R x _ HR y. case_decide; [done|apply HR].
Qed.

Lemma wp_removal_fanout (Q : outcome WorkerError unit -> keyspace -> Prop) ks :
  shows ks v0 ->
  (forall R ks', (forall x, ~ R x) -> shows ks' (with_rev R v0) -> Q (Returned tt) ks') ->
  (forall e w ks', draining w -> shows ks' w -> Q (Failed e) ks') ->
  wp env (removal_fanout self skh list (st v0) tok renewal) Q ks.
Proof.
  intros Hv Hok Herr. unfold removal_fanout. cbn zeta. apply wp_bind.
  assert (draining v0) as Hd0 by (constructor; [by exists (v_rev v0); destruct v0|done|apply Hinv]).
  assert (forall e ks', shows ks' v0 -> Q (Failed e) ks') as Herr0 by (intros; by eapply Herr).
  set (missing := bool_decide (0 < expected_cardinality (st v0))%N
                  && bool_decide (v_fwd v0 (version (st v0)) = ∅)).
  set (Q1 := fun (out : outcome WorkerError bool) ks' => _).
  assert (forall ks', shows ks' v0 -> Q1 (Returned missing) ks') as Hnext.
  2:{ unfold missing in Hnext. destruct (bool_decide (0 < _)%N); [|by apply Hnext].
      apply wp_bind. eapply (wp_key_exists_fwd self skh list tok env Hrely); [exact Hv| |done].
      intros ks' Hv'. cbn beta iota. change (wp env (Ret ?b) ?P ks') with (P (Returned b) ks').
      rewrite negb_involutive. by apply Hnext. }
  clear ks Hv. intros ks Hv. unfold Q1. cbn beta iota.
  destruct (missing || _ || _ || _ || _) eqn:Hg.
  - eapply (wp_clear_reverse_token self skh list tok Hns env Hrely renewal Hkey Hcfg
              (fun R => forall x, R x -> v_rev v0 x)); [apply rev_inv_shrink|done|exact Hv|done|].
    intros e R ks' HR Hv'. eapply Herr; [by apply draining_rev|exact Hv'].
  - apply orb_false_iff in Hg as [Hg Hrec]. apply orb_false_iff in Hg as [Hg Hload].
    apply orb_false_iff in Hg as [Hg Hempty]. apply orb_false_iff in Hg as [Hmiss Hdis].
    assert (forall x, v_rev v0 x -> x ∈ v_fwd v0 (version (st v0))) as Hcov.
    { destruct (rm_covered _ _ Hinv) as [Hf|[Hl|[Hl|[He|Hc]]]]; [| | | |done].
      - unfold flagged in Hf. by rewrite Hrec, Hdis in Hf.
      - unfold committed_lost in Hl. rewrite Hempty in Hl. cbn [negb andb] in Hl. unfold missing in Hmiss. congruence.
      - by rewrite bool_decide_eq_true_2 in Hload.
      - unfold str_empty in Hempty. by rewrite bool_decide_eq_true_2 in Hempty. }
    apply wp_bind. eapply (wp_scard self skh list tok env Hrely); [exact Hv| |done].
    clear ks Hv. intros ks Hv. cbn beta iota.
    eapply (wp_fanout_scan self skh list tok Hns env Hrely renewal Hkey Hcfg
              (fun R => forall x, R x -> v_rev v0 x)); [apply rev_inv_shrink|done|exact Hv| |].
    + intros R ks' HR Hv'. eapply Hok; [|exact Hv']. intros x Hx. apply HR in Hx.
      case_decide as Hin; [done|]. by apply Hin, Hcov.
    + intros e R ks' HR Hv'. eapply Herr; [by apply draining_rev|exact Hv'].
Qed.

(** The final pipeline. *)
Definition removal_views (t : option N) : Datatypes.list (lview -> lview) :=
  match loading_version (st v0) with Some u => [set_fwd u (fun _ => ∅)] | None => [] end
  ++ [set_fwd (version (st v0)) (fun _ => ∅); id; set_tok None; id; set_state (fun _ => ∅)].

Lemma acts_removal t : (forall n, t = Some n -> token_field n <> name_field list) ->
  Forall2 (acts (schema self) skh list tok) (removal_cmds self skh list (st v0) t) (removal_views t).
Proof.
  intros Ht. unfold removal_cmds, removal_views. apply Forall2_app.
  - destruct (loading_version (st v0)); [|constructor]. constructor; [by apply acts_del_fwd|constructor].
  - constructor; [by apply acts_del_fwd|]. constructor.
    { apply acts_foreign. apply (not_owned _ _ _ Hns (KTaskMeta skh list)); [exact Hns|done]. }
    constructor.
    { pose proof (acts_hdel_dict (schema self) skh list tok Hns
        (name_field list :: match t with Some t => [token_field t] | None => [] end)) as Ha.
      rewrite decide_True in Ha by (by left). exact Ha. }
    constructor; [|constructor; [by apply acts_del_state|constructor]].
    apply acts_foreign. apply (not_owned _ _ _ Hns (KAll skh)); [exact Hns|done].
Qed.

Lemma removal_views_rev t f u : f ∈ removal_views t -> v_rev (f u) = v_rev u.
Proof. unfold removal_views. destruct (loading_version (st v0)); set_solver. Qed.

Lemma removal_views_state_tok t f u : f ∈ removal_views t ->
  (v_state (f u) = v_state u \/ v_state (f u) = ∅) /\ (v_tok (f u) = v_tok u \/ v_tok (f u) = None).
Proof.
  unfold removal_views. intros Hf. assert (f ∈ [id; set_tok None; set_state (fun _ => ∅)] \/ exists ver, f = set_fwd ver (fun _ => ∅)) as Hcase.
  { destruct (loading_version (st v0)); set_solver. }
  destruct Hcase as [Hcase|[ver ->]]; [|auto]. rewrite !elem_of_cons, elem_of_nil in Hcase.
  destruct Hcase as [-> |[-> |[-> |[]]]]; cbn; auto.
Qed.

Lemma removal_views_done t w : (forall x, ~ v_rev w x) -> v_fwd w = v_fwd v0 -> removed v0 (apply_all (removal_views t) w).
Proof.
  intros Hr Hfw. assert (forall u, loading_version (st v0) = Some u <-> loading_version (from_hash_fields (v_state v0)) = Some u) as Hst by done.
  unfold removal_views, apply_all. destruct (loading_version (st v0)) as [u|] eqn:Hl; simpl;
    constructor; simpl; try done; try (by rewrite decide_True).
  - intros u' Hu. apply Hst in Hu as [= <-]. repeat case_decide; done.
  - intros u' Hv Hu. rewrite decide_False by done. rewrite decide_False by (intros ->; by apply Hu, Hst). by rewrite Hfw.
  - intros u' Hu. by apply Hst in Hu.
  - intros u' Hv _. rewrite decide_False by done. by rewrite Hfw.
Qed.

(** What every run leaves. *)
Definition removal_post (out : outcome WorkerError unit) (ks : keyspace) : Prop :=
  out <> NoFuel /\ exists w, shows ks w /\ removal_inv tok w /\ (out = Returned tt -> removed v0 w).

Lemma removal_failed e w ks : removal_inv tok w -> shows ks w -> removal_post (Failed e) ks.
Proof. intros Hw Hs. split; [done|]. by exists w. Qed.

(** The marker and the final pipeline, once no member set has the token. *)
Lemma wp_removal_tail (marked : bool) t w ks :
  (forall x, ~ v_rev w x) -> (marked = true -> marker_read w) ->
  (exists R, w = with_rev R v0) -> (forall n, t = Some n -> token_field n <> name_field list) -> shows ks w ->
  wp env (_ ← (if marked then Ret tt
               else _ ← get_conn;
                    _ ← write (HSET skey [(state_fields.REMOVAL_FANOUT_COMPLETE, "1")]); Ret tt);
          _ ← get_conn; _ ← pipe (removal_cmds self skh list (st v0) t); Ret tt) removal_post ks.
Proof.
  intros Hr Hmark [R ->] Ht Hv.
  assert (v_tok v0 = Some (show_u64 tok) \/ v_tok v0 = None) as Htok by (destruct (rm_token _ _ Hinv) as [?|[? _]]; auto).
  assert (removal_inv tok (with_rev R v0)) as Hi0 by (apply removal_inv_empty; [done|done|apply Hinv]).
  assert (forall w' e ks', removal_inv tok w' -> shows ks' w' -> removal_post (Failed e) ks') as Herr
    by (intros; by eapply removal_failed).
  assert (forall w' ks', (forall x, ~ v_rev w' x) -> marker_read w' -> v_tok w' = v_tok v0 -> v_fwd w' = v_fwd v0 -> shows ks' w' ->
    wp env (_ ← get_conn; _ ← pipe (removal_cmds self skh list (st v0) t); Ret tt) removal_post ks') as Htail.
  { clear ks Hv. intros w' ks Hrw Hmw Htw Hfw Hv. apply wp_bind.
    assert (removal_inv tok w') as Hiw by (apply removal_inv_empty; [done|by rewrite Htw|auto]).
    eapply (wp_conn _ _ _ _ env Hrely); [exact Hv| |intros; by eapply Herr].
    clear ks Hv. intros ks Hv. apply wp_bind.
    eapply (wp_pipe _ _ _ _ env Hrely); [by apply acts_removal|exact Hv| |].
    - intros _ ks' Hv'. cbn beta iota.
      assert (removed v0 (apply_all (removal_views t) w')) as Hd by (by apply removal_views_done).
      split; [done|]. eexists. split; [exact Hv'|]. split; [|done].
      apply removal_inv_empty; [apply Hd|right; apply Hd|]. intros _. right. unfold st. by rewrite (rd_state _ _ Hd).
    - intros e ks' u Hp Hu. eapply Herr; [|exact Hu].
      destruct (partial_state_tok _ _ _ Hp) as [Hs Htu]; [intros; by eapply removal_views_state_tok|].
      apply removal_inv_empty.
      + intros x. rewrite (partial_rev _ _ _ Hp); [apply Hrw|]. intros f u'. apply removal_views_rev.
      + destruct Htu as [-> | ->]; [by rewrite Htw|by right].
      + intros _. destruct Hs as [Hs|Hs]; [left; unfold marker_read; by rewrite Hs|right; unfold st; by rewrite Hs]. }
  apply wp_bind. destruct marked; [by eapply Htail; [done|apply Hmark|..]|].
  apply wp_bind. eapply (wp_conn _ _ _ _ env Hrely); [exact Hv| |intros; by eapply Herr].
  clear ks Hv. intros ks Hv. apply wp_bind.
  assert (marker_read (set_state (hset_fields [(state_fields.REMOVAL_FANOUT_COMPLETE, "1")]) (with_rev R v0))) as Hm1.
  { exists "1". cbn. by rewrite lookup_insert_eq. }
  eapply (wp_write _ _ _ _ env Hrely); [by apply acts_hset|exact Hv| |].
  - intros _ ks' Hv'. cbn beta iota. change (wp env (Ret tt) ?P ks') with (P (Returned tt) ks').
    by eapply Htail; [..|exact Hv'].
  - intros e ks' [Hv'|Hv']; (eapply Herr; [|exact Hv']); [done|]. by apply removal_inv_empty; [| |auto].
Qed.

Lemma wp_apply_remove ks :
  shows ks v0 -> wp env (apply_remove self skh list (st v0) renewal) removal_post ks.
Proof.
  intros Hv. unfold apply_remove. cbn zeta. rewrite Henable.
  assert (forall e ks', shows ks' v0 -> removal_post (Failed e) ks') as Herr0.
  { intros e ks' Hv'. by eapply removal_failed. }
  apply wp_bind. eapply (wp_conn _ _ _ _ env Hrely); [exact Hv| |done]. clear ks Hv. intros ks Hv.
  apply wp_bind. eapply (wp_hget_state _ _ _ _ env Hrely); [exact Hv| |done]. clear ks Hv. intros ks Hv.
  cbn beta iota. apply wp_bind. unfold parse_opt_u8.
  set (Q1 := fun (out : outcome WorkerError bool) ks' => _).
  assert (forall (b : bool) ks', (if b then marker_read v0 else v_state v0 !! state_fields.REMOVAL_FANOUT_COMPLETE = None) ->
    shows ks' v0 -> Q1 (Returned b) ks') as Hnext.
  2:{ destruct (v_state v0 !! state_fields.REMOVAL_FANOUT_COMPLETE) as [x|] eqn:Em; [|by apply Hnext].
      destruct (parse_bounded 255 x) eqn:Ep; [|by apply Herr0]. apply Hnext; [|done]. exists x. by rewrite Ep. }
  clear ks Hv. intros marked ks Hm Hv. unfold Q1. cbn beta iota. apply wp_bind.
  eapply (wp_get_token v0); [destruct (rm_token _ _ Hinv) as [?|[? _]]; auto|exact Hv| |done].
  clear ks Hv. intros ks Hv. cbn beta iota.
  assert (forall t, (forall n, t = Some n -> token_field n <> name_field list)) as Hfields.
  { intros t n _ Heq. symmetry in Heq. by apply name_not_token in Heq. }
  assert (marked = true -> marker_read v0) as Hmark by (by intros ->).
  assert (forall R : string -> Prop, (forall x, ~ R x) -> forall ks' t, shows ks' (with_rev R v0) -> wp env
    (_ ← (if marked then Ret tt
          else _ ← get_conn; _ ← write (HSET skey [(state_fields.REMOVAL_FANOUT_COMPLETE, "1")]); Ret tt);
     _ ← get_conn; _ ← pipe (removal_cmds self skh list (st v0) t); Ret tt) removal_post ks') as Htail
    by (intros R HR ks' t Hs; apply (wp_removal_tail marked t (with_rev R v0)); [exact HR|exact Hmark|by exists R|apply Hfields|exact Hs]).
  destruct (rm_token _ _ Hinv) as [Ht|[Ht Hempty]]; rewrite Ht; cbn [andb].
  - rewrite (bool_decide_eq_false_2 (Some tok = None)), andb_false_r by done. cbn [andb].
    apply wp_bind. destruct marked; cbn [negb andb].
    + change (wp env (Ret tt) ?P ks) with (P (Returned tt) ks). cbn beta iota. eapply (Htail (v_rev v0)); [|by destruct v0].
      apply Hinv. destruct Hm as (x & -> & _). eauto.
    + eapply wp_removal_fanout; [exact Hv| |].
      * intros R ks' HR Hv'. cbn beta iota. by eapply (Htail R).
      * intros e w ks' Hw Hv'. eapply removal_failed; [by eapply draining_inv|exact Hv'].
  - (* the guard of the missing token does not hold *)
    destruct (negb marked && _ && _) eqn:Hguard.
    { exfalso. destruct marked; [done|]. destruct (rm_retry _ _ Hinv Ht) as [(x & Hx & _)|He]; [congruence|].
      rewrite He in Hguard. by rewrite andb_false_r in Hguard. }
    apply wp_bind.
    change (wp env (Ret tt) ?P ks) with (P (Returned tt) ks). cbn beta iota. eapply (Htail (v_rev v0)); [done|by destruct v0].
Qed.
End Removal.

(** ** Properties *)


(** Removing the list of the delta example. *)
Module RemovalExample.
Definition renewal : ClaimRenewal :=
  {| cr_lock := claim DeltaExample.worker; cr_key := claim_key (schema DeltaExample.worker) "aB3/" "l";
     cr_ttl_s := 60 |}.
Definition ks : keyspace :=
  <[claim_key (schema DeltaExample.worker) "aB3/" "l" := {| val := VStr "h"; ttl := Some 60%N |}]>
    DeltaExample.ks.
Lemma removal_ks_shows : shows (schema DeltaExample.worker) "aB3/" "l" 7 ks DeltaExample.v0.
Proof.
  eapply shows_frame; [|apply DeltaExample.ks_shows]. intros k Hk. unfold ks.
  rewrite lookup_insert_ne; [done|]. intros <-. revert Hk.
  apply (not_owned _ _ _ DeltaExample.namespace (KClaim "aB3/" "l")); [apply DeltaExample.namespace|done].
Qed.
Lemma removal_start_inv : removal_inv 7 DeltaExample.v0.
Proof.
  constructor.
  - intros [y Hy]. by vm_compute in Hy.
  - do 4 right. intros x. change (version (st DeltaExample.v0)) with "f@1". simpl.
    case_decide as Hx; [|done]. intros _. subst. by apply elem_of_singleton.
  - by left.
  - done.
Qed.
End RemovalExample.


(** The example removal empties the keyspace of the list. *)
Example remove_example_result :
  let final := eval (fun _ => Err HttpError)
    (@apply_remove _ DeltaExample.worker "aB3/" "l" (st DeltaExample.v0) RemovalExample.renewal)
    RemovalExample.ks in
  final.1 = Returned tt /\
  set_at final.2 (member_key (schema DeltaExample.worker) "aB3/" "a") = ∅ /\
  final.2 !! state_key (schema DeltaExample.worker) "aB3/" "l" = None.
Proof. by vm_compute. Qed.

(** A removal that stopped between its fan-out and its final pipeline, after which
    the list came back to the manifest with the same file: the marker is in the
    state, no member set has the token, the forward set is intact. A load task for
    the list is dropped as already satisfied, so the index stays empty. *)
Definition interrupted_removal : keyspace :=
  put_hash (task_meta_key (schema DeltaExample.worker) "aB3/" "l")
    (list_to_map [("op", "load"); ("url", "u"); ("file_id", "f"); ("creation_time", "1"); ("size", "3")])
    (put_hash (state_key (schema DeltaExample.worker) "aB3/" "l")
      (<[state_fields.REMOVAL_FANOUT_COMPLETE := "1"]> DeltaExample.hash)
      (put_set (fwd_key (schema DeltaExample.worker) "aB3/" "l" "f@1") {["a"]}
        (put_hash (dict_key (schema DeltaExample.worker) "aB3/") {[name_field "l" := "7"]} ∅))).

Lemma interrupted_removal_not_repaired :
  let final := eval (fun _ => Err HttpError)
    (@run_claimed string_urls _ (fun _ => 0%N) DeltaExample.worker "aB3/" "l" RemovalExample.renewal)
    interrupted_removal in
  final.1 = Returned Dropped /\
  set_at final.2 (fwd_key (schema DeltaExample.worker) "aB3/" "l" "f@1") = {["a"]} /\
  set_at final.2 (member_key (schema DeltaExample.worker) "aB3/" "a") = ∅.
Proof. by vm_compute. Qed.
