(* ===== verification/Encoding.v ===== *)
(** * Encoding: content encodings a client accepts and a response uses

    Models [src/src/utils/compress_encoder.rs], its
    [parsed_accept_encoding.rs], the choice made in
    [src/src/utils/response_compression.rs] and [canonicalize_encodings] of
    [src/src/servers/authorized_request_context.rs]. *)
From S2P Require Import Prelude.

(** ** Compression encoders *)

Inductive CompressionEncoder :=
| PlainText | Gzip | Brotli | StatsigBrotli | Deflate | Compress | Identity | Zstd.
#[export] Instance CompressionEncoder_eq : EqDecision CompressionEncoder.
Proof. solve_decision. Defined.

Definition encoder_str (e : CompressionEncoder) : string :=
  match e with
  | PlainText => "plain_text" | Gzip => "gzip" | Brotli => "br" | StatsigBrotli => "statsig-br"
  | Deflate => "deflate" | Compress => "compress" | Identity => "identity" | Zstd => "zstd"
  end.

(** [to_lowercase] maps no character outside ASCII to the letters of these names. *)
Definition encoder_from_str (s : string) : option CompressionEncoder :=
  let s := to_lower s in
  if decide (s = "gzip" \/ s = "x-gzip") then Some Gzip
  else if decide (s = "br") then Some Brotli
  else if decide (s = "statsig_br" \/ s = "statsig-br") then Some StatsigBrotli
  else if decide (s = "deflate") then Some Deflate
  else if decide (s = "compress") then Some Compress
  else if decide (s = "identity") then Some Identity
  else if decide (s = "zstd") then Some Zstd
  else if decide (s = "plain_text") then Some PlainText
  else None.

Definition format_compression_encodings (encodings : list CompressionEncoder) : string :=
  join "," (encoder_str <$> encodings).

Definition encoding_priority (e : CompressionEncoder) : nat :=
  match e with
  | StatsigBrotli => 0 | Gzip => 1 | Brotli => 2 | Zstd => 3 | Deflate => 4 | Compress => 5
  | Identity => 6 | PlainText => 7
  end.
Definition priority_le (a b : CompressionEncoder) : bool :=
  bool_decide (encoding_priority a <= encoding_priority b).

(** *** [f32::from_str], as far as the comparison with zero needs it *)

Definition is_digit (c : ascii) : bool := bool_decide (48 <= nat_of_ascii c <= 57).
Fixpoint span_digits (s : string) : string * string :=
  match s with
  | String c s' => if is_digit c then let '(a, b) := span_digits s' in (String c a, b) else (EmptyString, s)
  | EmptyString => (EmptyString, EmptyString)
  end.
Fixpoint digits_value (acc : N) (s : string) : N :=
  match s with
  | String c s' => digits_value (10 * acc + (N.of_nat (nat_of_ascii c) - 48))%N s'
  | EmptyString => acc
  end.
Definition strip_sign (s : string) : bool * string :=
  match s with
  | String "+" s' => (false, s')
  | String "-" s' => (true, s')
  | _ => (false, s)
  end.

(** The exponent after the mantissa; [None] when the rest is not one. *)
Definition parse_exponent (s : string) : option Z :=
  match s with
  | EmptyString => Some 0%Z
  | String c s' =>
      if decide (c = "e"%char \/ c = "E"%char) then
        let '(neg, ds) := strip_sign s' in
        let '(digits, rest) := span_digits ds in
        if str_empty digits || negb (str_empty rest) then None
        else Some (if neg then - Z.of_N (digits_value 0 digits) else Z.of_N (digits_value 0 digits))%Z
      else None
  end.

(** The value is [mantissa * 10 ^ exponent]. *)
Definition parse_decimal (s : string) : option (N * Z) :=
  let '(int, rest) := span_digits s in
  let '(frac, rest) :=
    match rest with
    | String "." rest' => span_digits rest'
    | _ => (EmptyString, rest)
    end in
  if str_empty int && str_empty frac then None
  else
    e ← parse_exponent rest;
    Some (digits_value 0 (int +:+ frac), (e - Z.of_nat (String.length frac))%Z).

(** Non-negative decimals up to half of the least subnormal [2^-149] round to 0. *)
Definition rounds_to_zero (m : N) (e : Z) : bool :=
  bool_decide (m = 0%N) ||
  (bool_decide (e < 0)%Z && bool_decide (Z.of_N m * 2 ^ 150 <= 10 ^ (- e))%Z).

(** [q <= 0.0] for the number [s] denotes; [None] when it does not parse. *)
Definition f32_le_zero (s : string) : option bool :=
  let '(neg, body) := strip_sign s in
  let lower := to_lower body in
  if decide (lower = "nan") then Some false
  else if decide (lower = "inf" \/ lower = "infinity") then Some neg
  else '(m, e) ← parse_decimal body; Some (neg || rounds_to_zero m e).

(** *** Accept-Encoding *)

(** The [for param in parts] loop: the first weight that is not positive refuses. *)
Fixpoint params_acceptable (params : list string) : bool :=
  match params with
  | [] => true
  | param :: params' =>
      let '(key, value) :=
        match split_once "=" param with Some (k, v) => (k, v) | None => (param, EmptyString) end in
      if negb (eq_ignore_ascii_case (trim key) "q") then params_acceptable params'
      else
        match f32_le_zero (trim value) with
        | Some true => false
        | _ => params_acceptable params'
        end
  end.

Definition parse_accept_encoding_token (raw : string) : option (CompressionEncoder * bool) :=
  match split_char ";" raw with
  | [] => None
  | token :: params =>
      encoding ← encoder_from_str (to_lower (trim token));
      Some (encoding, params_acceptable params)
  end.

Record ParsedAcceptEncoding := {
  pae_acceptable : list CompressionEncoder;
  pae_saw_non_empty_token : bool;
  pae_saw_unrecognized_token : bool;
}.

Definition accept_token (parsed : ParsedAcceptEncoding) (raw : string) : ParsedAcceptEncoding :=
  let raw := trim raw in
  if str_empty raw then parsed
  else
    match parse_accept_encoding_token raw with
    | Some (encoding, acceptable) =>
        {| pae_acceptable := pae_acceptable parsed ++ (if (acceptable : bool) then [encoding] else []);
           pae_saw_non_empty_token := true;
           pae_saw_unrecognized_token := pae_saw_unrecognized_token parsed |}
    | None =>
        {| pae_acceptable := pae_acceptable parsed; pae_saw_non_empty_token := true;
           pae_saw_unrecognized_token := true |}
    end.

Definition from_raw_value (value : string) : ParsedAcceptEncoding :=
  let parsed := foldl accept_token
    {| pae_acceptable := []; pae_saw_non_empty_token := false; pae_saw_unrecognized_token := false |}
    (split_char "," value) in
  {| pae_acceptable := dedup (sort_by priority_le (pae_acceptable parsed));
     pae_saw_non_empty_token := pae_saw_non_empty_token parsed;
     pae_saw_unrecognized_token := pae_saw_unrecognized_token parsed |}.

Definition from_header_values (header : list string) : ParsedAcceptEncoding :=
  from_raw_value (join "," header).

Definition logger_tag (self : ParsedAcceptEncoding) : option string :=
  if negb (pae_saw_non_empty_token self) then Some "none"
  else if bool_decide (pae_acceptable self = []) then Some "unknown"
  else Some (join "+" (encoder_str <$> pae_acceptable self)
             +:+ (if pae_saw_unrecognized_token self then "+unknown" else "")).

Definition acceptable_encodings (self : ParsedAcceptEncoding) : list CompressionEncoder :=
  filter (fun e => e <> PlainText /\ e <> Identity) (pae_acceptable self).

(** *** Response compression: which encoding and which header *)

Definition preferred_response_compression (encodings : list CompressionEncoder) : CompressionEncoder :=
  if decide (StatsigBrotli ∈ encodings) then StatsigBrotli
  else if decide (Brotli ∈ encodings) then Brotli
  else if decide (Gzip ∈ encodings) then Gzip
  else PlainText.

Definition content_encoding_header_value (e : CompressionEncoder) : option string :=
  match e with
  | StatsigBrotli => Some "statsig-br" | Brotli => Some "br" | Gzip => Some "gzip"
  | Deflate => Some "deflate" | Compress => Some "compress" | Zstd => Some "zstd"
  | PlainText | Identity => None
  end.

Definition canonicalize_encodings (encodings : list CompressionEncoder) : list CompressionEncoder :=
  let encodings := dedup (sort_by priority_le encodings) in
  let encodings := filter (fun e => e = StatsigBrotli \/ e = Gzip) encodings in
  match encodings with [] => [PlainText] | _ => encodings end.

(** ** Sorting by a key and removing duplicates *)

Definition priority_lt (a b : CompressionEncoder) : Prop := encoding_priority a < encoding_priority b.

#[export] Instance encoding_priority_inj : Inj (=) (=) encoding_priority.
Proof. intros [] []; done. Qed.
#[export] Instance priority_lt_trans : Transitive priority_lt.
Proof. intros a b c; unfold priority_lt; lia. Qed.

Lemma sorted_dedup l :
  StronglySorted priority_le l -> StronglySorted priority_lt (dedup l).
Proof.
  induction 1 as [|x l Hs IH Hall]; [constructor|].
  destruct l as [|y l]; [by repeat constructor|]. rewrite dedup_cons_cons.
  destruct (decide (x = y)) as [->|Hne]; [done|]. constructor; [done|].
  apply Forall_forall. intros z Hz. rewrite elem_of_dedup in Hz.
  assert (encoding_priority x < encoding_priority y).
  { inversion Hall as [|?? Hxy]; subst. apply Is_true_true, bool_decide_eq_true_1 in Hxy.
    assert (encoding_priority x <> encoding_priority y) by (intros E; by apply (inj _) in E). lia. }
  apply elem_of_cons in Hz as [->|Hz]; [done|].
  inversion Hs as [|?? _ Hy]; subst. rewrite Forall_forall in Hy.
  specialize (Hy z Hz). apply Is_true_true, bool_decide_eq_true_1 in Hy. unfold priority_lt. lia.
Qed.

(** What [sort_by_key] and [dedup] leave: the same encodings, strictly ordered. *)
Lemma sort_dedup_spec l :
  StronglySorted priority_lt (dedup (sort_by priority_le l)) /\
  (forall e, e ∈ dedup (sort_by priority_le l) <-> e ∈ l).
Proof.
  split.
  - apply sorted_dedup, sort_by_sorted.
    + intros x y. unfold priority_le. rewrite !bool_decide_eq_true. lia.
    + intros x y z. unfold priority_le. rewrite !bool_decide_eq_true. lia.
  - intros e. by rewrite elem_of_dedup, sort_by_perm.
Qed.

(** Strictly ordered lists with the same elements are equal. *)
Lemma priority_sorted_unique l l' :
  StronglySorted priority_lt l -> StronglySorted priority_lt l' ->
  (forall e, e ∈ l <-> e ∈ l') -> l = l'.
Proof.
  intros Hs. revert l'. induction Hs as [|x l Hs IH Hx]; intros l' Hs' Heq.
  - destruct l' as [|y l']; [done|]. exfalso. eapply not_elem_of_nil, Heq. left.
  - destruct Hs' as [|y l' Hs' Hy].
    { exfalso. eapply not_elem_of_nil, Heq. left. }
    rewrite Forall_forall in Hx, Hy. unfold priority_lt in Hx, Hy.
    assert (x = y) as <-.
    { assert (x ∈ y :: l') as [|Hxl]%elem_of_cons by (apply Heq; left); [done|].
      assert (y ∈ x :: l) as [|Hyl]%elem_of_cons by (apply Heq; left); [done|].
      specialize (Hx _ Hyl). specialize (Hy _ Hxl). lia. }
    f_equal. apply IH; [done|]. intros e. specialize (Heq e). rewrite !elem_of_cons in Heq.
    split; intros He.
    + destruct (proj1 Heq (or_intror He)) as [->|]; [|done]. specialize (Hx _ He). lia.
    + destruct (proj2 Heq (or_intror He)) as [->|]; [|done]. specialize (Hy _ He). lia.
Qed.

Lemma priority_sorted_filter (P : CompressionEncoder -> Prop) `{forall e, Decision (P e)} l :
  StronglySorted priority_lt l -> StronglySorted priority_lt (filter P l).
Proof.
  induction 1 as [|x l Hs IH Hx]; [constructor|]. rewrite filter_cons. case_decide; [|done].
  constructor; [done|]. apply Forall_forall. intros y [_ Hy]%list_elem_of_filter.
  rewrite Forall_forall in Hx. by apply (Hx y).
Qed.

(** ** The parsed header *)

Definition token_accepts (e : CompressionEncoder) (raw : string) : Prop :=
  trim raw <> EmptyString /\ parse_accept_encoding_token (trim raw) = Some (e, true).

Lemma foldl_accept_acceptable toks p0 e :
  e ∈ pae_acceptable (foldl accept_token p0 toks) <->
  e ∈ pae_acceptable p0 \/ exists t, t ∈ toks /\ token_accepts e t.
Proof.
  revert p0. induction toks as [|t toks IH]; intros p0; cbn [foldl].
  { split; [by left|]. intros [|(? & ?%elem_of_nil & _)]; done. }
  rewrite IH. setoid_rewrite elem_of_cons.
  assert (e ∈ pae_acceptable (accept_token p0 t) <-> e ∈ pae_acceptable p0 \/ token_accepts e t) as ->.
  { unfold accept_token, token_accepts, str_empty. case_bool_decide as Ht; [naive_solver|].
    destruct (parse_accept_encoding_token (trim t)) as [[e' []]|]; simpl;
      rewrite ?app_nil_r, ?elem_of_app, ?list_elem_of_singleton; naive_solver. }
  naive_solver.
Qed.

(** The encodings taken from an Accept-Encoding value are exactly the known
    names that occur as tokens with no weight refusing them, each once, in
    the order of the proxy's preference. *)
Theorem from_raw_value_acceptable value :
  StronglySorted priority_lt (pae_acceptable (from_raw_value value)) /\
  forall e, e ∈ pae_acceptable (from_raw_value value) <->
            exists t, t ∈ split_char "," value /\ token_accepts e t.
Proof.
  unfold from_raw_value. cbn [pae_acceptable].
  destruct (sort_dedup_spec (pae_acceptable (foldl accept_token
    {| pae_acceptable := []; pae_saw_non_empty_token := false; pae_saw_unrecognized_token := false |}
    (split_char "," value)))) as [Hs Hm].
  split; [done|]. intros e. rewrite Hm, foldl_accept_acceptable. cbn [pae_acceptable].
  split; [|by right]. intros [?%elem_of_nil|]; done.
Qed.

(** ** Printing a list of encodings and parsing it *)

Lemma encoder_token e :
  no_char "," (encoder_str e) = true /\ forall e', token_accepts e' (encoder_str e) <-> e' = e.
Proof.
  split; [by destruct e|]. intros e'.
  assert (trim (encoder_str e) = encoder_str e) as Et by (destruct e; vm_compute; reflexivity).
  assert (parse_accept_encoding_token (encoder_str e) = Some (e, true)) as Ep
    by (destruct e; vm_compute; reflexivity).
  assert (encoder_str e <> EmptyString) by (by destruct e).
  unfold token_accepts. rewrite Et, Ep. naive_solver.
Qed.

(** The list of encodings the proxy prints for its upstream request is read
    back by its own Accept-Encoding parser as the same encodings, in canonical order. *)
Theorem accept_encoding_roundtrip l :
  l <> [] ->
  pae_acceptable (from_raw_value (format_compression_encodings l)) = dedup (sort_by priority_le l).
Proof.
  intros Hne. destruct (sort_dedup_spec l) as [Hs Hm].
  destruct (sort_dedup_spec (pae_acceptable (foldl accept_token
    {| pae_acceptable := []; pae_saw_non_empty_token := false; pae_saw_unrecognized_token := false |}
    (split_char "," (format_compression_encodings l))))) as [Hs' Hm'].
  apply priority_sorted_unique; [done..|]. intros e. unfold from_raw_value. cbn [pae_acceptable].
  rewrite Hm, Hm', foldl_accept_acceptable. unfold format_compression_encodings.
  rewrite split_char_join.
  - cbn [pae_acceptable]. setoid_rewrite list_elem_of_fmap. split.
    + intros [?%elem_of_nil|(t & (e0 & -> & He) & Hacc)]; [done|].
      by apply encoder_token in Hacc as ->.
    + intros He. right. exists (encoder_str e). split; [by exists e|]. by apply encoder_token.
  - by destruct l.
  - apply Forall_fmap, Forall_true. intros. apply encoder_token.
Qed.

Lemma accept_encoding_roundtrip_witness :
  pae_acceptable (from_raw_value (format_compression_encodings [Brotli; Gzip; Brotli; Zstd]))
  = [Gzip; Brotli; Zstd].
Proof. apply (accept_encoding_roundtrip [Brotli; Gzip; Brotli; Zstd]). done. Defined.

(** ** Canonical encodings *)

(** The encodings a request is identified by are a function of which of the
    two supported encodings it accepts: any order, repetition or other encodings in
    the request give the same canonical list, and the response encoding chosen from
    it is one the client accepts, or plain text. *)
Theorem canonicalize_encodings_spec l :
  canonicalize_encodings l =
    match decide (StatsigBrotli ∈ l), decide (Gzip ∈ l) with
    | left _, left _ => [StatsigBrotli; Gzip]
    | left _, right _ => [StatsigBrotli]
    | right _, left _ => [Gzip]
    | right _, right _ => [PlainText]
    end /\
  canonicalize_encodings (canonicalize_encodings l) = canonicalize_encodings l /\
  (preferred_response_compression (canonicalize_encodings l) ∈ l \/
   preferred_response_compression (canonicalize_encodings l) = PlainText).
Proof.
  assert (canonicalize_encodings l =
    match decide (StatsigBrotli ∈ l), decide (Gzip ∈ l) with
    | left _, left _ => [StatsigBrotli; Gzip]
    | left _, right _ => [StatsigBrotli]
    | right _, left _ => [Gzip]
    | right _, right _ => [PlainText]
    end) as ->; [|].
  { unfold canonicalize_encodings. destruct (sort_dedup_spec l) as [Hs Hm].
    set (kept := filter _ _).
    assert (kept = (if decide (StatsigBrotli ∈ l) then [StatsigBrotli] else []) ++
                   (if decide (Gzip ∈ l) then [Gzip] else [])) as ->.
    { apply priority_sorted_unique.
      - by apply priority_sorted_filter.
      - repeat case_decide; simpl; repeat constructor; unfold priority_lt; simpl; lia.
      - intros e. unfold kept. rewrite list_elem_of_filter, Hm.
        repeat case_decide; simpl; rewrite ?elem_of_cons, ?elem_of_nil; naive_solver. }
    by repeat case_decide. }
  repeat case_decide; (split; [done|]; split; [done|]); vm_compute preferred_response_compression; auto.
Qed.
