(* ===== verification/Request.v ===== *)
(** * Request: paths, SDK keys and the authorized request context

    Models [src/src/servers/normalized_path.rs], [src/src/utils/request_helper.rs],
    [src/src/servers/sdk_key_normalizer.rs] and
    [src/src/servers/authorized_request_context.rs]. A request of the web framework
    is what the code asks of it: method, path, query, header values by name. *)
From S2P Require Import Prelude Encoding.

(** ** Paths *)

Inductive NormalizedPath :=
| V1DownloadConfigSpecs | V1GetIdLists | V1DownloadIdListFile | V1LogEvent | V1UserEnrichment
| V2DownloadConfigSpecs | V2DownloadConfigSpecsDeltas | RawPath (path : string).
#[export] Instance NormalizedPath_eq : EqDecision NormalizedPath.
Proof. solve_decision. Defined.

Definition path_str (p : NormalizedPath) : string :=
  match p with
  | V1DownloadConfigSpecs => "/v1/download_config_specs/"
  | V1GetIdLists => "/v1/get_id_lists/"
  | V1DownloadIdListFile => "/v1/download_id_list_file/"
  | V1LogEvent => "/v1/log_event/"
  | V1UserEnrichment => "/v1/user_enrichment/"
  | V2DownloadConfigSpecs => "/v2/download_config_specs/"
  | V2DownloadConfigSpecsDeltas => "/v2/download_config_specs_deltas/"
  | RawPath path => path
  end.

Definition normalize_path (value : string) : NormalizedPath :=
  if starts_with "/v1/download_config_specs" value then V1DownloadConfigSpecs
  else if starts_with "/v1/get_id_lists" value then V1GetIdLists
  else if starts_with "/v1/download_id_list_file" value then V1DownloadIdListFile
  else if starts_with "/v1/log_event" value then V1LogEvent
  else if starts_with "/v1/user_enrichment" value then V1UserEnrichment
  else if starts_with "/v2/download_config_specs_deltas" value then V2DownloadConfigSpecsDeltas
  else if starts_with "/v2/download_config_specs" value then V2DownloadConfigSpecs
  else RawPath value.

(** ** The framework's requests *)

Inductive Method := Get | Put | Post | Delete | Options | Head | Trace | Connect | Patch.
#[export] Instance Method_eq : EqDecision Method.
Proof. solve_decision. Defined.

Record request := {
  req_method : Method;
  uri_path : string;
  uri_query : option string;
  headers : list (string * string);
}.

(** What the code takes from the web framework and from the URL library: a typed
    query parameter (absent, malformed or a value), and the decoded pairs of a query string. *)
Class HttpLib := {
  query_value_bool : option string -> string -> option (result unit bool);
  query_pairs : string -> option (list (string * string));
}.

(** [HeaderMap]: names without regard to case, values in order. *)
Definition header_values (name : string) (hs : list (string * string)) : list string :=
  (filter (fun h => eq_ignore_ascii_case h.1 name = true) hs).*2.
Definition get_one (name : string) (hs : list (string * string)) : option string :=
  head (header_values name hs).
Definition add_header (name value : string) (req : request) : request :=
  {| req_method := req_method req; uri_path := uri_path req; uri_query := uri_query req;
     headers := headers req ++ [(name, value)] |}.

Inductive Outcome (A E : Type) := Success (a : A) | Error (status : N) (e : E) | Forward (status : N).
Arguments Success {A E} a.
Arguments Error {A E} status e.
Arguments Forward {A E} status.

Definition BAD_REQUEST : N := 400.
Definition INTERNAL_SERVER_ERROR : N := 500.

(** ** Request capabilities *)

Definition does_request_supports_proto `{HttpLib} (req : request) : bool :=
  match query_value_bool (uri_query req) "supports_proto" with
  | Some (Ok b) => b
  | _ => bool_decide (get_one "statsig-supports-proto" (headers req) = Some "true")
  end.

Definition query_param_is_true (query key : string) : bool :=
  existsb (fun pair =>
    match split_once "=" pair with
    | Some (k, v) => bool_decide (k = key) && (eq_ignore_ascii_case v "true" || bool_decide (v = "1"))
    | None => bool_decide (pair = key)
    end) (split_char "&" query).

Definition does_request_accept_deltas (req : request) : bool :=
  match uri_query req with
  | Some q => query_param_is_true q "accept_deltas"
  | None => false
  end.

(** ** SDK keys *)

Definition SDK_KEY_PREFIX_LENGTH : nat := 20.
Definition TRUNCATION_SUFFIX : string := "***".

(** The bytes of a UTF-8 string that continue a character. *)
Definition is_continuation (c : ascii) : bool := bool_decide (128 <= nat_of_ascii c < 192).

(** Splits before the character with index [n] ([char_indices().nth(n)]), if there is one. *)
Fixpoint split_at_char (n : nat) (s : string) : option (string * string) :=
  match s with
  | EmptyString => None
  | String c s' =>
      if is_continuation c then prod_map (String c) id <$> split_at_char n s'
      else
        match n with
        | O => Some (EmptyString, s)
        | S n' => prod_map (String c) id <$> split_at_char n' s'
        end
  end.

Definition extract_download_id_list_file_sdk_key `{HttpLib} (query : string) : option string :=
  pairs ← query_pairs query;
  snd <$> head (filter (fun p => p.1 = "k") pairs).

Definition sdk_key_prefix (sdk_key : string) : string :=
  match split_at_char SDK_KEY_PREFIX_LENGTH sdk_key with
  | None => sdk_key
  | Some (prefix, _) => prefix +:+ TRUNCATION_SUFFIX
  end.

Definition is_alnum (c : ascii) : bool :=
  is_digit c || bool_decide (65 <= nat_of_ascii c <= 90) || bool_decide (97 <= nat_of_ascii c <= 122).
Fixpoint span (P : ascii -> bool) (s : string) : string * string :=
  match s with
  | String c s' => if P c then let '(a, b) := span P s' in (String c a, b) else (EmptyString, s)
  | EmptyString => (EmptyString, EmptyString)
  end.

(** [SDK_KEY_PATTERN] at the head of [s]: the key and what follows it. *)
Definition match_kind (s kind : string) : option (string * string) :=
  rest ← strip_prefix kind s;
  let '(body, rest) := span is_alnum rest in
  if str_empty body then None else Some (kind +:+ body, rest).
Definition match_sdk_key (s : string) : option (string * string) :=
  head (omap (match_kind s) ["client-"; "server-"; "secret-"]).

(** [Regex::replace_all]: leftmost matches that do not overlap. Every round
    consumes at least one byte, so the length of the text is enough fuel. *)
Fixpoint redact_from (fuel : nat) (s : string) : string :=
  match fuel, s with
  | S fuel', String c s' =>
      match match_sdk_key s with
      | Some (key, rest) => sdk_key_prefix key +:+ redact_from fuel' rest
      | None => String c (redact_from fuel' s')
      end
  | _, _ => s
  end.
Definition redact_sdk_keys (text : string) : string := redact_from (String.length text) text.

(** The fairing that gives a GET request without the key header one, from its
    query or its path, with the cache of keys by path. *)
Definition sdk_key_normalization `{HttpLib} (req : request) (cache : gmap string string)
    : request * gmap string string :=
  if bool_decide (header_values "statsig-api-key" (headers req) <> []) then (req, cache)
  else if negb (bool_decide (req_method req = Get)) then (req, cache)
  else
    let path := uri_path req in
    if bool_decide (normalize_path path = V1DownloadIdListFile) then
      match uri_query req ≫= extract_download_id_list_file_sdk_key with
      | Some sdk_key => (add_header "statsig-api-key" sdk_key req, cache)
      | None => (req, cache)
      end
    else
      match cache !! path with
      | Some sdk_key => (add_header "statsig-api-key" sdk_key req, cache)
      | None =>
          let stem :=
            match strip_suffix ".json" path with
            | Some stem => stem
            | None => default path (strip_suffix ".js" path)
            end in
          let new_key := match rsplit_once "/" stem with Some (_, key) => key | None => path end in
          (add_header "statsig-api-key" new_key req, <[path := new_key]> cache)
      end.

(** ** The authorized request context *)

Inductive DownloadIdListFileRequestError :=
| MissingSdkKey | ConflictingSdkKey | MissingFileId | InvalidRange | InvalidIdListFileSize.
#[export] Instance DownloadIdListFileRequestError_eq : EqDecision DownloadIdListFileRequestError.
Proof. solve_decision. Defined.

Definition error_body (e : DownloadIdListFileRequestError) : string :=
  match e with
  | MissingSdkKey => "Missing statsig-api-key"
  | ConflictingSdkKey => "Signed query sdk key does not match statsig-api-key header"
  | MissingFileId => "Missing id list file id"
  | InvalidRange => "Range must be absent or formatted as bytes=<start>-"
  | InvalidIdListFileSize => "statsig-id-list-file-size must be a valid unsigned integer"
  end.

Record AuthorizedRequestContext := {
  sdk_key : string;
  path : NormalizedPath;
  use_lcut : bool;
  supports_proto : bool;
  accept_deltas : bool;
  encodings : list CompressionEncoder;
  raw_path : option string;
  raw_query : option string;
  file_id : option string;
  range_start : option N;
  id_list_size : option N;
}.

Definition context_new (sdk_key : string) (path : NormalizedPath) (encodings : list CompressionEncoder)
    : AuthorizedRequestContext := {|
  sdk_key := sdk_key; path := path;
  use_lcut := bool_decide (path = V1DownloadConfigSpecs) || bool_decide (path = V2DownloadConfigSpecs)
              || bool_decide (path = V2DownloadConfigSpecsDeltas);
  supports_proto := false; accept_deltas := false; encodings := canonicalize_encodings encodings;
  raw_path := None; raw_query := None; file_id := None; range_start := None; id_list_size := None |}.

Definition with_request_capabilities (supports_proto accept_deltas : bool) (self : AuthorizedRequestContext)
    : AuthorizedRequestContext := {|
  sdk_key := sdk_key self; path := path self; use_lcut := use_lcut self;
  supports_proto := supports_proto; accept_deltas := accept_deltas; encodings := encodings self;
  raw_path := raw_path self; raw_query := raw_query self; file_id := file_id self;
  range_start := range_start self; id_list_size := id_list_size self |}.

Definition with_raw_request (raw_path raw_query : option string) (self : AuthorizedRequestContext)
    : AuthorizedRequestContext := {|
  sdk_key := sdk_key self; path := path self; use_lcut := use_lcut self;
  supports_proto := supports_proto self; accept_deltas := accept_deltas self; encodings := encodings self;
  raw_path := raw_path; raw_query := raw_query; file_id := file_id self;
  range_start := range_start self; id_list_size := id_list_size self |}.

Definition with_id_list_request (file_id : option string) (range_start id_list_size : option N)
    (self : AuthorizedRequestContext) : AuthorizedRequestContext := {|
  sdk_key := sdk_key self; path := path self; use_lcut := use_lcut self;
  supports_proto := supports_proto self; accept_deltas := accept_deltas self; encodings := encodings self;
  raw_path := raw_path self; raw_query := raw_query self; file_id := file_id;
  range_start := range_start; id_list_size := id_list_size |}.

(** [PartialEq]: the signed path and query and the range are not part of the identity. *)
Definition context_eqb (self other : AuthorizedRequestContext) : bool :=
  bool_decide (sdk_key self = sdk_key other) && bool_decide (path self = path other)
  && bool_decide (encodings self = encodings other)
  && bool_decide (supports_proto self = supports_proto other)
  && bool_decide (accept_deltas self = accept_deltas other)
  && bool_decide (file_id self = file_id other)
  && bool_decide (id_list_size self = id_list_size other).

(** [Hash]: what is fed to the hasher, in order. *)
Definition hash_input (self : AuthorizedRequestContext) :=
  (sdk_key self, path self, encodings self, supports_proto self, accept_deltas self,
   file_id self, id_list_size self).

(** *** The cache of contexts *)

Definition CacheKey : Type :=
  string * NormalizedPath * list CompressionEncoder * bool * bool * option string.

#[export] Instance NormalizedPath_countable : Countable NormalizedPath.
Proof.
  refine (inj_countable'
    (fun p => match p with
      | V1DownloadConfigSpecs => inl 0 | V1GetIdLists => inl 1 | V1DownloadIdListFile => inl 2
      | V1LogEvent => inl 3 | V1UserEnrichment => inl 4 | V2DownloadConfigSpecs => inl 5
      | V2DownloadConfigSpecsDeltas => inl 6 | RawPath s => inr s end)
    (fun x : nat + string => match x with
      | inl 0 => V1DownloadConfigSpecs | inl 1 => V1GetIdLists | inl 2 => V1DownloadIdListFile
      | inl 3 => V1LogEvent | inl 4 => V1UserEnrichment | inl 5 => V2DownloadConfigSpecs
      | inl _ => V2DownloadConfigSpecsDeltas | inr s => RawPath s end) _).
  by intros [].
Defined.
#[export] Instance CompressionEncoder_countable : Countable CompressionEncoder.
Proof.
  refine (inj_countable' encoding_priority
    (fun n => match n with
      | 0 => StatsigBrotli | 1 => Gzip | 2 => Brotli | 3 => Zstd | 4 => Deflate | 5 => Compress
      | 6 => Identity | _ => PlainText end) _).
  by intros [].
Defined.

Abbreviation context_cache := (gmap CacheKey AuthorizedRequestContext).

(** [read] is the cache when the read lock is held, [write] when the write lock
    is: other requests may insert between the two. *)
Definition get_or_insert (sdk_key : string) (path : NormalizedPath) (encodings : list CompressionEncoder)
    (supports_proto accept_deltas : bool) (file_id : option string) (read write : context_cache)
    : AuthorizedRequestContext * context_cache :=
  let encodings := canonicalize_encodings encodings in
  let key := (sdk_key, path, encodings, supports_proto, accept_deltas, file_id) in
  match read !! key with
  | Some context => (context, write)
  | None =>
      match write !! key with
      | Some context => (context, write)
      | None =>
          let context :=
            with_id_list_request file_id None None
              (with_request_capabilities supports_proto accept_deltas
                (context_new sdk_key path encodings)) in
          (context, <[key := context]> write)
      end
  end.

(** *** Request guards *)

Definition parse_id_list_file_id (path : string) : option string :=
  rest ← strip_prefix "/v1/download_id_list_file/" path;
  id ← head (split_char "/" rest);
  if str_empty id then None else Some id.

Definition parse_required_id_list_file_id (path : string)
    : result DownloadIdListFileRequestError string :=
  ok_or MissingFileId (parse_id_list_file_id path).

Definition parse_strict_id_list_file_size (hs : list (string * string))
    : result DownloadIdListFileRequestError (option N) :=
  match get_one "statsig-id-list-file-size" hs with
  | Some value => Some <$> ok_or InvalidIdListFileSize (parse_u64 (trim value))
  | None => Ok None
  end.

Definition parse_strict_id_list_file_range_start (hs : list (string * string))
    : result DownloadIdListFileRequestError (option N) :=
  match get_one "Range" hs with
  | None => Ok None
  | Some value =>
      range ← ok_or InvalidRange (strip_prefix "bytes=" (trim value));
      if str_empty range || bool_decide (is_Some (split_once "," range)) then Err InvalidRange
      else
        '(start, stop) ← ok_or InvalidRange (split_once "-" range);
        if str_empty start || negb (str_empty stop) then Err InvalidRange
        else Some <$> ok_or InvalidRange (parse_u64 start)
  end.

Inductive DownloadIdListFileRequestGuard :=
| Authorized (context : AuthorizedRequestContext)
| Invalid (error : DownloadIdListFileRequestError).

(** The key of the request: header and signed query agree, or one is there. *)
Definition request_sdk_key `{HttpLib} (req : request) : result DownloadIdListFileRequestError string :=
  let signed_sdk_key := uri_query req ≫= extract_download_id_list_file_sdk_key in
  match get_one "statsig-api-key" (headers req), signed_sdk_key with
  | Some header_sdk_key, Some signed_sdk_key =>
      if decide (header_sdk_key <> signed_sdk_key) then Err ConflictingSdkKey else Ok signed_sdk_key
  | Some header_sdk_key, None => Ok header_sdk_key
  | None, Some signed_sdk_key => Ok signed_sdk_key
  | None, None => Err MissingSdkKey
  end.

Definition request_encodings (req : request) : list CompressionEncoder :=
  acceptable_encodings (from_header_values (header_values "Accept-Encoding" (headers req))).

Definition download_id_list_file_guard `{HttpLib} (req : request)
    : Outcome DownloadIdListFileRequestGuard DownloadIdListFileRequestError :=
  let normalized_path := normalize_path (uri_path req) in
  if decide (normalized_path <> V1DownloadIdListFile) then Error INTERNAL_SERVER_ERROR MissingFileId
  else
    let context :=
      sdk_key ← request_sdk_key req;
      file_id ← parse_required_id_list_file_id (uri_path req);
      range_start ← parse_strict_id_list_file_range_start (headers req);
      id_list_size ← parse_strict_id_list_file_size (headers req);
      Ok (with_id_list_request (Some file_id) range_start id_list_size
           (with_raw_request (Some (uri_path req)) (uri_query req)
             (with_request_capabilities (does_request_supports_proto req) (does_request_accept_deltas req)
               (context_new sdk_key normalized_path (request_encodings req))))) in
    Success (match context with Ok context => Authorized context | Err error => Invalid error end).

(** The guard of the other routes; the error carries no data. *)
Definition authorized_request_context_wrapper `{HttpLib} (req : request) (read write : context_cache)
    : Outcome AuthorizedRequestContext unit * context_cache :=
  let normalized_path := normalize_path (uri_path req) in
  let file_id :=
    if decide (normalized_path = V1DownloadIdListFile) then parse_id_list_file_id (uri_path req) else None in
  let accept_deltas :=
    does_request_accept_deltas req || bool_decide (normalized_path = V2DownloadConfigSpecsDeltas) in
  match get_one "statsig-api-key" (headers req) with
  | Some sdk_key =>
      let '(context, cache) :=
        get_or_insert sdk_key normalized_path (request_encodings req) (does_request_supports_proto req)
          accept_deltas file_id read write in
      (Success context, cache)
  | None => (Error BAD_REQUEST (), write)
  end.

(** ** The redacting logger *)

Inductive Level := LevelError | LevelWarn | LevelInfo | LevelDebug | LevelTrace.
#[export] Instance Level_eq : EqDecision Level.
Proof. solve_decision. Defined.

Record log_record := {
  rec_level : Level;
  rec_target : string;
  rec_module_path : option string;
  rec_file : option string;
  rec_line : option N;
  rec_args : string;
}.

(** The line given to the sink, if any; [verbose] tells whether the maximum level
    is at least the filter of Rocket's debug level. *)
Definition log (verbose : bool) (record : log_record) : option string :=
  let from prefix :=
    match rec_module_path record with Some m => starts_with prefix m | None => false end in
  if negb verbose && (from "hyper" || from "rustls" || from "r2d2") then None
  else
    let message := redact_sdk_keys (rec_args record) in
    Some (if ends_with "_" (rec_target record) then "   >> " +:+ message
          else
            match rec_level record with
            | LevelError => "Error: " +:+ message
            | LevelWarn => "Warning: " +:+ message
            | LevelDebug =>
                match rec_file record, rec_line record with
                | Some file, Some line =>
                    "--> " +:+ file +:+ ":" +:+ show_u64 line +:+ byte_str [10; 9] +:+ message
                | _, _ => message
                end
            | _ => message
            end).

(** ** The range header *)

Lemma uint_of_string_digits s d :
  DecimalString.NilEmpty.uint_of_string s = Some d -> str_forall is_digit s = true.
Proof.
  revert d. induction s as [|c s IH]; intros d; [done|]. cbn [str_forall].
  cbn [DecimalString.NilEmpty.uint_of_string]. unfold DecimalString.uint_of_char.
  destruct (DecimalString.NilEmpty.uint_of_string s) as [d'|] eqn:E;
    [|by destruct c as [[] [] [] [] [] [] [] []]].
  rewrite (IH d') by done.
  destruct c as [[] [] [] [] [] [] [] []]; try done; intros _; vm_compute; reflexivity.
Qed.

(** What [u64::from_str] accepts has no character but digits and a leading plus. *)
Lemma parse_u64_chars s n :
  parse_u64 s = Some n ->
  s <> EmptyString /\ str_forall (fun c => is_digit c || bool_decide (c = "+"%char)) s = true.
Proof.
  unfold parse_u64, parse_bounded. intros (d & Hd & _)%bind_Some.
  split; [by destruct s|].
  assert (forall t, DecimalString.NilZero.uint_of_string t = Some d -> str_forall is_digit t = true) as Hz.
  { intros [|c t] Ht; [done|]. by eapply uint_of_string_digits. }
  assert (forall t, str_forall is_digit t = true ->
            str_forall (fun c => is_digit c || bool_decide (c = "+"%char)) t = true) as Hw.
  { induction t as [|c t IH]; [done|]. cbn [str_forall]. intros Hb. boolify.
    rewrite IH by done. by replace (is_digit c) with true. }
  destruct s as [|c s]; [done|]. destruct (decide (c = "+"%char)) as [->|Hne].
  - cbn [str_forall]. rewrite orb_comm. by apply Hw, Hz.
  - apply Hw, Hz. by destruct c as [[] [] [] [] [] [] [] []].
Qed.

Lemma parse_u64_no_char s n c :
  parse_u64 s = Some n -> is_digit c = false -> c <> "+"%char -> no_char c s = true.
Proof.
  intros [_ Hall]%parse_u64_chars Hd Hp. eapply str_forall_impl; [|done]. intros d Hok.
  apply negb_true_iff, bool_decide_eq_false_2. intros ->.
  rewrite Hd in Hok. by apply bool_decide_eq_true_1 in Hok.
Qed.

(** A range header is accepted exactly in the form [bytes=<start>-], with a
    start that fits [u64]; everything else, an end or several ranges included, is refused. *)
Theorem range_start_spec hs value n :
  get_one "Range" hs = Some value ->
  parse_strict_id_list_file_range_start hs = Ok (Some n) <->
  exists start, trim value = "bytes=" +:+ start +:+ "-" /\ parse_u64 start = Some n.
Proof.
  intros Hv. unfold parse_strict_id_list_file_range_start. rewrite Hv. split.
  - destruct (strip_prefix "bytes=" (trim value)) as [range|] eqn:Er; [|done].
    apply strip_prefix_Some in Er. cbn. case_match; [done|].
    destruct (split_once "-" range) as [[start stop]|] eqn:Es; [|done]. cbn.
    destruct (str_empty start || negb (str_empty stop)) eqn:Ee; [done|].
    destruct (parse_u64 start) as [m|] eqn:Ep; [|done]. cbn. intros [= ->]. boolify.
    apply split_once_Some in Es. exists start. split; [|done].
    unfold str_empty in *. boolify. subst. by rewrite Er.
  - intros (start & Ht & Hp). rewrite Ht, strip_prefix_app. cbn.
    assert (no_char "-" start = true) as Hd by by eapply parse_u64_no_char.
    assert (no_char "," (start +:+ "-") = true) as Hc.
    { rewrite no_char_app. by erewrite parse_u64_no_char. }
    rewrite (split_once_char_None "," (start +:+ "-")) by done.
    rewrite split_once_app_char by done. cbn.
    destruct start as [|c start]; [by vm_compute in Hp|]. cbn. by rewrite Hp.
Qed.

Lemma range_start_spec_witness :
  parse_strict_id_list_file_range_start [("range", " bytes=42- ")] = Ok (Some 42%N).
Proof.
  apply (range_start_spec [("range", " bytes=42- ")] " bytes=42- " 42%N); [reflexivity|].
  exists "42". split; reflexivity.
Defined.

(** ** Request guards *)

(** Who a request for an ID list file is authorized as: header and signed query
    do not disagree, and one of them is there. *)
Definition credentials `{HttpLib} (req : request) (key : string) : Prop :=
  let header := get_one "statsig-api-key" (headers req) in
  let signed := uri_query req ≫= extract_download_id_list_file_sdk_key in
  (header = Some key /\ (signed = None \/ signed = Some key)) \/ (header = None /\ signed = Some key).

Lemma request_sdk_key_credentials `{HttpLib} req key :
  request_sdk_key req = Ok key <-> credentials req key.
Proof.
  unfold request_sdk_key, credentials. simpl.
  destruct (get_one "statsig-api-key" (headers req)) as [h|],
    (uri_query req ≫= extract_download_id_list_file_sdk_key) as [s|]; simpl; try case_decide; naive_solver.
Qed.

(** A request for an ID list file is authorized exactly when its credentials
    are there and agree, it names a file and its range and size headers are well
    formed; the context then carries that key, file, range and size, the exact signed
    path and query, and canonical encodings. *)
Theorem download_guard_authorized `{HttpLib} req ctx :
  download_id_list_file_guard req = Success (Authorized ctx) <->
  normalize_path (uri_path req) = V1DownloadIdListFile /\
  exists key fid range size,
    credentials req key /\
    parse_id_list_file_id (uri_path req) = Some fid /\
    parse_strict_id_list_file_range_start (headers req) = Ok range /\
    parse_strict_id_list_file_size (headers req) = Ok size /\
    ctx = {| sdk_key := key; path := V1DownloadIdListFile; use_lcut := false;
             supports_proto := does_request_supports_proto req;
             accept_deltas := does_request_accept_deltas req;
             encodings := canonicalize_encodings (request_encodings req);
             raw_path := Some (uri_path req); raw_query := uri_query req;
             file_id := Some fid; range_start := range; id_list_size := size |}.
Proof.
  unfold download_id_list_file_guard. setoid_rewrite <- request_sdk_key_credentials.
  destruct (decide _) as [Hne|Heq]; [naive_solver|]. apply dec_stable in Heq. rewrite Heq.
  unfold parse_required_id_list_file_id.
  destruct (request_sdk_key req) as [k|] eqn:Ek; simpl; [|naive_solver].
  destruct (parse_id_list_file_id (uri_path req)) as [f|]; simpl; [|naive_solver].
  destruct (parse_strict_id_list_file_range_start (headers req)) as [r|]; simpl; [|naive_solver].
  destruct (parse_strict_id_list_file_size (headers req)) as [z|]; simpl; [|naive_solver].
  unfold with_id_list_request, with_raw_request, with_request_capabilities, context_new; simpl.
  naive_solver.
Qed.

(** The fairing does not change who a download is authorized as. *)
Lemma header_values_add name value req n :
  header_values n (headers (add_header name value req)) =
  header_values n (headers req) ++ (if eq_ignore_ascii_case name n then [value] else []).
Proof.
  unfold header_values, add_header. simpl. rewrite filter_app, fmap_app. f_equal.
  rewrite filter_cons, filter_nil. simpl. destruct (eq_ignore_ascii_case name n); done.
Qed.

(** For a download of an ID list file, the header the fairing adds before the
    guard runs never changes the key the guard settles on, or its refusal. *)
Theorem normalization_keeps_credentials `{HttpLib} req cache :
  normalize_path (uri_path req) = V1DownloadIdListFile ->
  request_sdk_key (sdk_key_normalization req cache).1 = request_sdk_key req.
Proof.
  intros Hp. unfold sdk_key_normalization. case_bool_decide as Hh; [done|]. simpl.
  destruct (negb (bool_decide (req_method req = Get))); [done|].
  rewrite bool_decide_true by done.
  destruct (uri_query req ≫= extract_download_id_list_file_sdk_key) as [k|] eqn:Ek; [|done].
  assert (header_values "statsig-api-key" (headers req) = []) as Hn by (destruct (header_values _ _); naive_solver).
  unfold request_sdk_key, get_one. simpl fst. rewrite header_values_add, Hn.
  cbn [uri_query add_header]. rewrite Ek. simpl. by case_decide.
Qed.

(** One HTTP library for examples: pairs split at [&] and [=], no percent-decoding. *)
Definition plain_http : HttpLib := {|
  query_value_bool q name := None;
  query_pairs q := Some (omap (split_once "=") (split_char "&" q)) |}.

Definition signed_request : request := {|
  req_method := Get; uri_path := "/v1/download_id_list_file/abc"; uri_query := Some "k=secret-1&s=2";
  headers := [("Range", "bytes=7-")] |}.

Lemma normalization_keeps_credentials_witness :
  request_sdk_key (H := plain_http) (sdk_key_normalization (H := plain_http) signed_request ∅).1 = Ok "secret-1".
Proof. rewrite normalization_keeps_credentials by (vm_compute; reflexivity). reflexivity. Defined.

(** ** The cache of contexts *)

Definition context_of (key : CacheKey) : AuthorizedRequestContext :=
  let '(sdk_key, path, encodings, supports_proto, accept_deltas, file_id) := key in
  with_id_list_request file_id None None
    (with_request_capabilities supports_proto accept_deltas (context_new sdk_key path encodings)).

Definition cache_ok (cache : context_cache) : Prop :=
  forall key ctx, cache !! key = Some ctx -> ctx = context_of key.

(** Whatever other requests insert between the read and the write of the
    cache, a lookup returns the context of its own normalized request, with the
    requested key, path, capabilities and file, and keeps the cache well-formed; two
    lookups that differ only in how encodings were spelled return the same context. *)
Theorem get_or_insert_correct sdk_key path encodings proto deltas file_id read write :
  cache_ok read -> cache_ok write ->
  let r := get_or_insert sdk_key path encodings proto deltas file_id read write in
  r.1 = context_of (sdk_key, path, encodings, proto, deltas, file_id) /\ cache_ok r.2 /\
  (forall key ctx, write !! key = Some ctx -> r.2 !! key = Some ctx).
Proof.
  intros Hr Hw. unfold get_or_insert.
  set (key := (sdk_key, path, canonicalize_encodings encodings, proto, deltas, file_id)).
  assert (context_of key = context_of (sdk_key, path, encodings, proto, deltas, file_id)) as Hk.
  { unfold context_of, key, context_new. destruct (canonicalize_encodings_spec encodings) as (_ & -> & _). done. }
  destruct (read !! key) as [ctx|] eqn:Er; simpl.
  { rewrite (Hr _ _ Er). done. }
  destruct (write !! key) as [ctx|] eqn:Ew; simpl.
  { rewrite (Hw _ _ Ew). done. }
  split; [exact Hk|]. split.
  - intros key' ctx [[<- <-]|[_ Hl]]%lookup_insert_Some; [done|by apply Hw].
  - intros key' ctx Hl. apply lookup_insert_Some. right. split; [|done]. intros <-. discriminate (eq_trans (eq_sym Ew) Hl).
Qed.

Lemma cache_ok_empty : cache_ok ∅.
Proof. intros ?? Hl. by rewrite lookup_empty in Hl. Qed.

Lemma get_or_insert_correct_witness :
  (get_or_insert "k" V1GetIdLists [Gzip; Brotli; Gzip] false false None ∅ ∅).1
  = context_of ("k", V1GetIdLists, [Gzip], false, false, None).
Proof.
  destruct (get_or_insert_correct "k" V1GetIdLists [Gzip; Brotli; Gzip] false false None ∅ ∅
    cache_ok_empty cache_ok_empty) as [-> _]. reflexivity.
Defined.

(** Two contexts compare equal exactly when they feed the same input to the
    hasher, so they are usable as hash-map keys: equality is an equivalence and equal
    contexts hash alike, whatever their signed URL and range. *)
Theorem context_eq_hash a b : context_eqb a b = true <-> hash_input a = hash_input b.
Proof.
  unfold context_eqb, hash_input. rewrite !andb_true_iff, !bool_decide_eq_true.
  split; [by intros ((((((-> & ->) & ->) & ->) & ->) & ->) & ->)|].
  by intros [= -> -> -> -> -> -> ->].
Qed.

(** ** Paths and keys in paths *)

(** Classifying a path again after printing its class gives the same class, so
    the canonical spelling stands for every path of its endpoint; the deltas endpoint
    is not mistaken for the endpoint its name extends. *)
Theorem normalize_path_stable value suffix :
  normalize_path (path_str (normalize_path value)) = normalize_path value /\
  normalize_path ("/v2/download_config_specs_deltas" +:+ suffix) = V2DownloadConfigSpecsDeltas.
Proof.
  split.
  - unfold normalize_path at 2 3.
    repeat match goal with |- context [if starts_with ?p value then _ else _] =>
      let E := fresh "E" in destruct (starts_with p value) eqn:E; [vm_compute; reflexivity|] end.
    cbn [path_str]. unfold normalize_path.
    repeat match goal with E : starts_with _ value = false |- _ => rewrite E; clear E end. done.
  - reflexivity.
Qed.

(** The key a path carries, as [sdk_key_normalization] computes it without its cache. *)
Definition path_sdk_key (path : string) : string :=
  let stem :=
    match strip_suffix ".json" path with Some stem => stem | None => default path (strip_suffix ".js" path) end in
  match rsplit_once "/" stem with Some (_, key) => key | None => path end.
Definition key_cache_ok (cache : gmap string string) : Prop :=
  forall path key, cache !! path = Some key -> key = path_sdk_key path.

(** A GET request without a key header gets the key of its own path, the last
    segment without its [.js] or [.json] extension, whatever the cache has seen
    before, and the cache stays right. *)
Theorem normalization_path_key `{HttpLib} req cache pre key ext :
  key_cache_ok cache ->
  header_values "statsig-api-key" (headers req) = [] -> req_method req = Get ->
  normalize_path (uri_path req) <> V1DownloadIdListFile ->
  uri_path req = pre +:+ "/" +:+ key +:+ ext -> ext = ".json" \/ ext = ".js" ->
  no_char "/" key = true ->
  let r := sdk_key_normalization req cache in
  get_one "statsig-api-key" (headers r.1) = Some key /\ key_cache_ok r.2.
Proof.
  intros Hc Hh Hm Hp Hpath Hext Hk.
  assert (path_sdk_key (uri_path req) = key) as Hkey.
  { rewrite Hpath, <- !str_app_assoc. unfold path_sdk_key. set (stem := (pre +:+ "/") +:+ key).
    assert (rsplit_once "/" stem = Some (pre, key)) as Hs.
    { unfold stem. rewrite str_app_assoc. by apply rsplit_once_app. }
    destruct Hext as [-> | ->]; [by rewrite strip_suffix_app, Hs|].
    rewrite (strip_suffix_other _ ".json" "n" "osj." "s" ("j." +:+ String.rev stem))
      by (rewrite ?str_rev_app; done).
    rewrite strip_suffix_app. simpl. by rewrite Hs. }
  unfold sdk_key_normalization. rewrite bool_decide_false by naive_solver.
  rewrite bool_decide_true by done. simpl. rewrite bool_decide_false by done.
  destruct (cache !! uri_path req) as [k|] eqn:El; cbn [fst snd]; unfold get_one;
    rewrite header_values_add, Hh; cbn -[strip_suffix rsplit_once].
  - by rewrite (Hc _ _ El), Hkey.
  - unfold path_sdk_key in Hkey. split; [by rewrite Hkey|].
    intros p k. rewrite lookup_insert_Some. intros [[<- <-]|[_ ?]]; [done|by apply Hc].
Qed.

Lemma normalization_path_key_witness :
  get_one "statsig-api-key" (headers (sdk_key_normalization (H := plain_http)
    {| req_method := Get; uri_path := "/v1/download_config_specs/secret-ab.json"; uri_query := None; headers := [] |} ∅).1)
  = Some "secret-ab".
Proof.
  apply (normalization_path_key (H := plain_http)
    {| req_method := Get; uri_path := "/v1/download_config_specs/secret-ab.json"; uri_query := None; headers := [] |}
    ∅ "/v1/download_config_specs" "secret-ab" ".json"); try (vm_compute; reflexivity); [|done|by left].
  intros ?? Hl. by rewrite lookup_empty in Hl.
Defined.

(** ** Redaction *)

Lemma split_at_char_length n s a b :
  str_forall (fun c => negb (is_continuation c)) s = true ->
  split_at_char n s = Some (a, b) -> String.length a = n /\ s = a +:+ b.
Proof.
  revert n a. induction s as [|c s IH]; intros n a; cbn [split_at_char str_forall]; [done|].
  intros Hb. boolify. rewrite H. destruct n as [|n]; [by intros [= <- <-]|].
  destruct (split_at_char n s) as [[a' b']|] eqn:E; [|done]. simpl. intros [= <- <-].
  destruct (IH _ _ H0 E) as [Hl ->]. simpl. rewrite Hl. done.
Qed.

Lemma span_spec P s a b : span P s = (a, b) -> s = a +:+ b /\ str_forall P a = true.
Proof.
  revert a. induction s as [|c s IH]; intros a; cbn [span].
  { by intros [= <- <-]. }
  destruct (P c) eqn:Hc; [|by intros [= <- <-]].
  destruct (span P s) as [a' b'] eqn:E. intros [= <- <-].
  destruct (IH a' eq_refl) as [-> Ha]. rewrite str_cons_app. cbn [str_forall]. by rewrite Hc, Ha.
Qed.

Definition sdk_kinds : list string := ["client-"; "server-"; "secret-"].

Lemma match_sdk_key_spec s key rest :
  match_sdk_key s = Some (key, rest) ->
  exists kind body, kind ∈ sdk_kinds /\ key = kind +:+ body /\ body <> EmptyString /\
    str_forall is_alnum body = true /\ s = key +:+ rest.
Proof.
  unfold match_sdk_key. intros Hm.
  assert ((key, rest) ∈ omap (match_kind s) sdk_kinds) as (kind & Hkind & Hmk)%list_elem_of_omap.
  { apply head_Some_elem_of. exact Hm. }
  unfold match_kind in Hmk. apply bind_Some in Hmk as (r & Hr & Hmk).
  destruct (span is_alnum r) as [body rest'] eqn:Es. unfold str_empty in Hmk.
  case_bool_decide as Hb; [done|]. injection Hmk as <- <-.
  apply span_spec in Es as [-> Hall]. apply strip_prefix_Some in Hr as ->.
  exists kind, body. by rewrite str_app_assoc.
Qed.

Lemma sdk_key_nonempty s key rest :
  match_sdk_key s = Some (key, rest) -> s = key +:+ rest /\ 0 < String.length key.
Proof.
  intros (kind & body & Hk & -> & Hb & _ & ->)%match_sdk_key_spec. split; [done|].
  rewrite str_app_length. destruct body; [done|]. simpl. lia.
Qed.

(** More fuel than bytes does not change the result. *)
Lemma redact_from_fuel fuel s :
  String.length s <= fuel -> redact_from fuel s = redact_sdk_keys s.
Proof.
  unfold redact_sdk_keys. remember (String.length s) as n eqn:Hn. revert fuel s Hn.
  induction (lt_wf n) as [n _ IH]; intros fuel [|c s] Hn Hf; simpl in Hn; subst n; [by destruct fuel|].
  destruct fuel as [|fuel]; [lia|]. cbn [redact_from].
  destruct (match_sdk_key (String c s)) as [[key rest]|] eqn:Em.
  - f_equal. apply sdk_key_nonempty in Em as [Es Hk].
    assert (String.length rest < S (String.length s)).
    { change (S (String.length s)) with (String.length (String c s)). rewrite Es, str_app_length. lia. }
    rewrite (IH (String.length rest) ltac:(lia) fuel rest) by lia.
    rewrite (IH (String.length rest) ltac:(lia) (String.length s) rest) by lia. done.
  - f_equal. apply (IH (String.length s)); lia.
Qed.

Lemma redact_cons c s :
  match_sdk_key (String c s) = None -> redact_sdk_keys (String c s) = String c (redact_sdk_keys s).
Proof. intros Hm. unfold redact_sdk_keys at 1. cbn [String.length redact_from]. by rewrite Hm. Qed.

Lemma redact_match s key rest :
  match_sdk_key s = Some (key, rest) -> redact_sdk_keys s = sdk_key_prefix key +:+ redact_sdk_keys rest.
Proof.
  intros Hm. pose proof (sdk_key_nonempty _ _ _ Hm) as [-> Hk]. destruct key as [|c key]; [simpl in Hk; lia|].
  rewrite str_cons_app in *. unfold redact_sdk_keys at 1. cbn [String.length redact_from]. rewrite Hm.
  rewrite redact_from_fuel; [done|]. rewrite str_app_length. lia.
Qed.

Lemma split_at_char_None n s :
  str_forall (fun c => negb (is_continuation c)) s = true ->
  split_at_char n s = None <-> String.length s <= n.
Proof.
  revert n. induction s as [|c s IH]; intros n; cbn [split_at_char str_forall String.length]; [split; [lia|done]|].
  intros Hb. boolify. rewrite H. destruct n as [|n]; [split; [done|lia]|].
  rewrite fmap_None, IH by done. lia.
Qed.

Lemma sdk_key_prefix_bound s key rest :
  match_sdk_key s = Some (key, rest) ->
  String.length (sdk_key_prefix key) <= SDK_KEY_PREFIX_LENGTH + String.length TRUNCATION_SUFFIX /\
  (String.length key <= SDK_KEY_PREFIX_LENGTH -> sdk_key_prefix key = key).
Proof.
  intros (kind & body & Hk & -> & _ & Hall & _)%match_sdk_key_spec. unfold sdk_key_prefix.
  assert (str_forall (fun c => negb (is_continuation c)) body = true) as Hb.
  { eapply str_forall_impl; [|exact Hall]. intros c. unfold is_alnum, is_digit, is_continuation.
    rewrite !orb_true_iff, !bool_decide_eq_true, negb_true_iff, bool_decide_eq_false. lia. }
  assert (str_forall (fun c => negb (is_continuation c)) (kind +:+ body) = true) as Hkey.
  { unfold sdk_kinds in Hk. rewrite !elem_of_cons, elem_of_nil in Hk.
    destruct Hk as [-> | [-> | [-> | []]]]; rewrite !str_cons_app, str_nil_app; exact Hb. }
  destruct (split_at_char _ _) as [[a b]|] eqn:E.
  - split.
    + apply split_at_char_length in E as [Hl _]; [rewrite str_app_length; lia|done].
    + intros Hle. apply (split_at_char_None SDK_KEY_PREFIX_LENGTH) in Hle; [congruence|done].
  - apply split_at_char_None in E; [|done]. split; [lia|done].
Qed.

(** No key starts inside [pre] when [rest] follows it. *)
Fixpoint no_key_starts (pre rest : string) : bool :=
  match pre with
  | EmptyString => true
  | String _ pre' =>
      match match_sdk_key (pre +:+ rest) with Some _ => false | None => no_key_starts pre' rest end
  end.

Lemma redact_skip pre rest :
  no_key_starts pre rest = true -> redact_sdk_keys (pre +:+ rest) = pre +:+ redact_sdk_keys rest.
Proof.
  induction pre as [|c pre IH]; cbn [no_key_starts]; [done|].
  destruct (match_sdk_key _) eqn:Em; [done|]. intros Hno. rewrite !str_cons_app in *.
  rewrite redact_cons by done. by rewrite IH.
Qed.

(** The first SDK key of a text is replaced by a form that is either at most
    twenty of its characters and the marker, or the key itself when it is that short;
    the text before it is unchanged and redaction goes on after it. A text in which
    no key starts is unchanged. *)
Theorem redact_first_key pre key post :
  no_key_starts pre (key +:+ post) = true ->
  match_sdk_key (key +:+ post) = Some (key, post) ->
  redact_sdk_keys (pre +:+ key +:+ post) = pre +:+ sdk_key_prefix key +:+ redact_sdk_keys post /\
  (String.length (sdk_key_prefix key) <= SDK_KEY_PREFIX_LENGTH + String.length TRUNCATION_SUFFIX) /\
  (String.length key <= SDK_KEY_PREFIX_LENGTH -> sdk_key_prefix key = key) /\
  forall text, no_key_starts text EmptyString = true -> redact_sdk_keys text = text.
Proof.
  intros Hno Hm. split; [by rewrite redact_skip, (redact_match _ _ _ Hm)|].
  destruct (sdk_key_prefix_bound _ _ _ Hm) as [Hlong Hshort]. split; [done|]. split; [done|].
  intros text Ht. rewrite <- (str_app_nil_r text) at 1. rewrite redact_skip by done.
  change (redact_sdk_keys "") with EmptyString. apply str_app_nil_r.
Qed.

Lemma redact_first_key_witness :
  redact_sdk_keys "GET /v1/secret-0123456789abcdefXYZ 404" = "GET /v1/secret-0123456789abc*** 404".
Proof.
  refine (proj1 (redact_first_key "GET /v1/" "secret-0123456789abcdefXYZ" " 404" _ _));
    vm_compute; reflexivity.
Defined.

(** A key right after a shorter match of the pattern escapes: the first match ends
    at the dash, and the scan goes on after it. *)
Lemma redact_misses_overlapping_key :
  redact_sdk_keys "server-secret-0123456789abcdefXYZ" = "server-secret-0123456789abcdefXYZ".
Proof. vm_compute. reflexivity. Qed.
