(* ===== verification/Namespaces.v ===== *)
(** * Namespaces: company identities and the merged manifest of a company

    Models [src/src/datastore/idlist_membership/namespaces.rs], the store of
    [company_ids.rs], the observer of [redis_syncer.rs] and
    [src/src/datastore/id_list_manifest.rs]. Decompression and JSON decoding are
    third-party code; the order in which a hash map is iterated is not specified. *)
From S2P Require Import Prelude Encoding Request Schema Planning.

(** ** Third-party code *)

Class PayloadLib := {
  gunzip : string -> option string;
  brotli_decompress : string -> option string;
  (** [serde_json::from_slice] at the two types the code asks for. *)
  json_manifest : string -> option (gmap string IdListManifestEntry);
  json_identity : string -> option (bool * option string);
}.

Class HashOrder := {
  hash_iter {A} : gmap string A -> list (string * A);
  hash_iter_perm {A} (m : gmap string A) : hash_iter m ≡ₚ map_to_list m;
}.

(** A [BTreeMap] with string keys is iterated in the order of its keys. *)
Definition key_le {A} (x y : string * A) : bool :=
  match String.compare x.1 y.1 with Gt => false | _ => true end.
Definition btree_iter {A} (m : gmap string A) : list (string * A) := sort_by key_le (map_to_list m).
Definition btree_set_iter (s : gset string) : list string :=
  sort_by (fun x y => key_le (x, tt) (y, tt)) (elements s).

(** ** Responses of the data provider *)

Inductive DataProviderRequestResult :=
| DataAvailable | NoDataAvailable | Unauthorized | ClientError | RequestError.
#[export] Instance DataProviderRequestResult_eq : EqDecision DataProviderRequestResult.
Proof. solve_decision. Defined.

Record ResponsePayload := { encoding : CompressionEncoder; use_proto : bool; data : string }.
Record ResponseContext := {
  result_type : DataProviderRequestResult;
  lcut : N;
  request_since_time : N;
  body : ResponsePayload;
}.

(** ** Manifests *)

Abbreviation IdListManifest := (gmap string IdListManifestEntry).

Section Payloads.
Context `{PayloadLib} `{HashOrder}.

Definition decode_response_payload (payload : ResponsePayload) : result string string :=
  match encoding payload with
  | PlainText => Ok (data payload)
  | Gzip => ok_or "get_id_lists gzip payload could not be decoded" (gunzip (data payload))
  | Brotli | StatsigBrotli =>
      ok_or "get_id_lists brotli payload could not be decoded" (brotli_decompress (data payload))
  | encoding => Err ("get_id_lists payload uses unsupported encoding: " +:+ encoder_str encoding)
  end.

(** The manifest is keyed by the name inside each entry. *)
Definition parse_id_list_manifest (payload : ResponsePayload) : result string IdListManifest :=
  decoded ← decode_response_payload payload;
  entries ← ok_or "get_id_lists JSON could not be parsed" (json_manifest decoded);
  Ok (foldl (fun m entry => <[entry_name entry := entry]> m) ∅ (hash_iter entries).*2).

Definition parse_company_id (payload : ResponsePayload) : option string :=
  if use_proto payload then None
  else
    decoded ←
      match encoding payload with
      | PlainText | Identity => Some (data payload)
      | Gzip => gunzip (data payload)
      | Brotli | StatsigBrotli => brotli_decompress (data payload)
      | _ => None
      end;
    '(has_updates, company_id) ← json_identity decoded;
    id ← company_id;
    if (has_updates : bool) && negb (str_empty (trim id)) then Some id else None.
End Payloads.

(** ** Company identities *)

Record CompanyIdStore := {
  cid_server_keys : gset string;
  company_ids : gmap string string;
}.

Definition company_id_store_new (server_keys : list string) : CompanyIdStore :=
  {| cid_server_keys := list_to_set server_keys; company_ids := ∅ |}.
Definition get_company_id (self : CompanyIdStore) (server_key : string) : option string :=
  company_ids self !! server_key.

Definition company_update `{PayloadLib} (self : CompanyIdStore) (context : AuthorizedRequestContext)
    (response : ResponseContext) : CompanyIdStore :=
  if negb (bool_decide (sdk_key context ∈ cid_server_keys self))
     || negb (bool_decide (path context = V1DownloadConfigSpecs)
              || bool_decide (path context = V2DownloadConfigSpecs))
  then self
  else
    match result_type response with
    | Unauthorized =>
        {| cid_server_keys := cid_server_keys self;
           company_ids := delete (sdk_key context) (company_ids self) |}
    | DataAvailable =>
        match parse_company_id (body response) with
        | Some company_id =>
            {| cid_server_keys := cid_server_keys self;
               company_ids := <[sdk_key context := company_id]> (company_ids self) |}
        | None => self
        end
    | _ => self
    end.

(** ** The manifest observer *)

Record IdListManifestObserver := {
  obs_server_keys : gset string;
  manifests : gmap string IdListManifest;
}.

Definition manifest_update `{PayloadLib} `{HashOrder} (self : IdListManifestObserver)
    (context : AuthorizedRequestContext) (response : ResponseContext) : IdListManifestObserver :=
  if negb (bool_decide (path context = V1GetIdLists))
     || negb (bool_decide (sdk_key context ∈ obs_server_keys self))
  then self
  else if bool_decide (result_type response = Unauthorized) then
    {| obs_server_keys := obs_server_keys self;
       manifests := delete (sdk_key context) (manifests self) |}
  else if negb (bool_decide (result_type response = DataAvailable)) then self
  else
    match parse_id_list_manifest (body response) with
    | Ok parsed =>
        {| obs_server_keys := obs_server_keys self;
           manifests := <[sdk_key context := parsed]> (manifests self) |}
    | Err _ => self
    end.

(** ** Namespaces *)

Record IdListNamespaces := {
  ns_company_ids : CompanyIdStore;
  ns_server_keys : list string;
  ns_manifests : gmap string IdListManifest;
}.

Record CompanyManifest := { lists : IdListManifest; incomplete : bool }.
Record NamespaceCollision := { coll_namespace : string; coll_company_ids : list string }.

Definition str_le (a b : string) : bool := match String.compare a b with Gt => false | _ => true end.

Definition namespaces_new (server_keys : list string) : IdListNamespaces :=
  let server_keys := dedup (sort_by str_le server_keys) in
  {| ns_company_ids := company_id_store_new server_keys; ns_server_keys := server_keys; ns_manifests := ∅ |}.

(** [(a, b) > (c, d)] on tuples. *)
Definition gt_N_N (a b c d : N) : bool :=
  bool_decide (c < a)%N || (bool_decide (a = c) && bool_decide (d < b)%N).
Definition gt_N_str (a : N) (b : string) (c : N) (d : string) : bool :=
  bool_decide (c < a)%N ||
  (bool_decide (a = c) && match String.compare b d with Gt => true | _ => false end).

(** Does [entry] replace [previous] in the merged manifest? *)
Definition replaces (entry previous : IdListManifestEntry) : bool :=
  if decide (entry_file_id previous = entry_file_id entry) then
    gt_N_N (entry_size entry) (entry_creation_time entry) (entry_size previous) (entry_creation_time previous)
  else
    gt_N_str (entry_creation_time entry) (entry_file_id entry)
             (entry_creation_time previous) (entry_file_id previous).

Definition merge_entry (merged : IdListManifest) (ne : string * IdListManifestEntry) : IdListManifest :=
  let '(name, entry) := ne in
  if match merged !! name with None => true | Some previous => replaces entry previous end
  then <[name := entry]> merged else merged.

Section Namespaces.
Context `{Digest} `{HashOrder}.

Definition namespace_for_key (self : IdListNamespaces) (key : string) : option string :=
  hash_company_id <$> get_company_id (ns_company_ids self) key.

Definition visible_lists (self : IdListNamespaces) (key : string) : option (gset string) :=
  dom <$> ns_manifests self !! key.

(** Which company identifiers share a namespace. *)
Definition owners_of (identities : list (string * option string)) : gmap string (gset string) :=
  foldl (fun owners '(_, company_id) =>
    match company_id with
    | Some company_id =>
        <[hash_company_id company_id :=
            {[company_id]} ∪ default ∅ (owners !! hash_company_id company_id)]> owners
    | None => owners
    end) ∅ identities.

Definition collisions_of (owners : gmap string (gset string)) : list NamespaceCollision :=
  (fun '(ns, ids) => {| coll_namespace := ns; coll_company_ids := btree_set_iter ids |}) <$>
    filter (fun p => 1 < size p.2) (btree_iter owners).

(** The loop over the keys: its variables are [companies], [unavailable] and [unknown_company]. *)
Record merge_state := {
  companies : gmap string CompanyManifest;
  unavailable : N;
  unknown_company : bool;
}.

Definition merge_key (snapshots : gmap string IdListManifest) (st : merge_state)
    (identity : string * option string) : merge_state :=
  let '(key, company_id) := identity in
  match company_id with
  | None => {| companies := companies st; unavailable := (unavailable st + 1)%N; unknown_company := true |}
  | Some company_id =>
      let namespace := hash_company_id company_id in
      let company := default {| lists := ∅; incomplete := false |} (companies st !! namespace) in
      match snapshots !! key with
      | None =>
          {| companies := <[namespace := {| lists := lists company; incomplete := true |}]> (companies st);
             unavailable := (unavailable st + 1)%N; unknown_company := unknown_company st |}
      | Some manifest =>
          {| companies :=
               <[namespace := {| lists := foldl merge_entry (lists company) (hash_iter manifest);
                                 incomplete := incomplete company |}]> (companies st);
             unavailable := unavailable st; unknown_company := unknown_company st |}
      end
  end.

(** The planning of one tick, for the identities it has read. *)
Definition company_manifests_of (identities : list (string * option string))
    (snapshots : gmap string IdListManifest)
    : result (list NamespaceCollision) (gmap string CompanyManifest * N) :=
  let collisions := collisions_of (owners_of identities) in
  if negb (bool_decide (collisions = [])) then Err collisions
  else
    let st := foldl (merge_key snapshots)
                {| companies := ∅; unavailable := 0; unknown_company := false |} identities in
    let companies :=
      if unknown_company st
      then (fun company => {| lists := lists company; incomplete := true |}) <$> companies st
      else companies st in
    Ok (companies, unavailable st).

Definition company_manifests (self : IdListNamespaces)
    : result (list NamespaceCollision) (gmap string CompanyManifest * N) :=
  company_manifests_of
    ((fun key => (key, get_company_id (ns_company_ids self) key)) <$> ns_server_keys self)
    (ns_manifests self).
End Namespaces.

(** ** Merging *)

Lemma foldl_merge_entry l merged name :
  NoDup l.*1 ->
  foldl merge_entry merged l !! name =
    match (list_to_map l : IdListManifest) !! name, merged !! name with
    | Some entry, Some previous => Some (if replaces entry previous then entry else previous)
    | Some entry, None => Some entry
    | None, previous => previous
    end.
Proof.
  revert merged. induction l as [|[n e] l IH]; intros merged Hnd; cbn [foldl].
  { by rewrite list_to_map_nil, lookup_empty. }
  apply NoDup_cons in Hnd as [Hn Hnd]. rewrite IH by done. rewrite list_to_map_cons. cbn [merge_entry].
  destruct (decide (n = name)) as [->|Hne].
  - rewrite (not_elem_of_list_to_map_1 l name) by done. simpl. rewrite lookup_insert_eq.
    destruct (merged !! name) as [p|] eqn:Ep; [|by rewrite lookup_insert_eq].
    destruct (replaces e p); [by rewrite lookup_insert_eq|done].
  - rewrite lookup_insert_ne by done.
    assert ((if match merged !! n with Some previous => replaces e previous | None => true end
             then <[n:=e]> merged else merged) !! name = merged !! name) as ->; [|done].
    destruct (match merged !! n with Some previous => replaces e previous | None => true end);
      [by rewrite lookup_insert_ne|done].
Qed.

Lemma merge_manifest_lookup `{HashOrder} (manifest merged : IdListManifest) name :
  foldl merge_entry merged (hash_iter manifest) !! name =
    match manifest !! name, merged !! name with
    | Some entry, Some previous => Some (if replaces entry previous then entry else previous)
    | Some entry, None => Some entry
    | None, previous => previous
    end.
Proof.
  assert (NoDup (hash_iter manifest).*1) as Hnd.
  { rewrite hash_iter_perm. apply NoDup_fst_map_to_list. }
  rewrite foldl_merge_entry by done.
  rewrite (list_to_map_proper _ (map_to_list manifest)); [by rewrite list_to_map_to_list|done|apply hash_iter_perm].
Qed.

(** The newest-file order, when a file has one creation time. *)
Definition entry_cmp (x y : IdListManifestEntry) : comparison :=
  then_with (N.compare (entry_creation_time x) (entry_creation_time y))
  (then_with (String.compare (entry_file_id x) (entry_file_id y))
             (N.compare (entry_size x) (entry_size y))).
Definition one_creation_time (x y : IdListManifestEntry) : Prop :=
  entry_file_id x = entry_file_id y -> entry_creation_time x = entry_creation_time y.

Lemma cmp_ok_refl {A} (c : A -> A -> comparison) x : cmp_ok c -> c x x = Eq.
Proof. intros [Ho _]. specialize (Ho x x). by destruct (c x x). Qed.

Lemma entry_cmp_ok : cmp_ok entry_cmp.
Proof.
  unfold entry_cmp. repeat apply cmp_ok_then.
  - exact (cmp_ok_on _ entry_creation_time N_cmp_ok).
  - exact (cmp_ok_on _ entry_file_id string_cmp_ok).
  - exact (cmp_ok_on _ entry_size N_cmp_ok).
Qed.

Lemma replaces_cmp x y : one_creation_time x y -> replaces x y = true <-> entry_cmp x y = Gt.
Proof.
  intros Hc. unfold replaces, entry_cmp, gt_N_N, gt_N_str, then_with. destruct (decide _) as [E|E].
  - rewrite (Hc (eq_sym E)), E, N.compare_refl.
    assert (String.compare (entry_file_id x) (entry_file_id x) = Eq) as -> by apply cmp_ok_refl, string_cmp_ok.
    rewrite orb_true_iff, andb_true_iff, !bool_decide_eq_true, N.compare_gt_iff. lia.
  - assert (String.compare (entry_file_id x) (entry_file_id y) <> Eq).
    { intros ?%String.compare_eq_iff. congruence. }
    rewrite orb_true_iff, andb_true_iff, !bool_decide_eq_true.
    destruct (N.compare_spec (entry_creation_time x) (entry_creation_time y)).
    + destruct (String.compare _ _); naive_solver lia.
    + split; [lia|done].
    + split; [done|lia].
Qed.

(** ** What the merge of all keys holds *)

Section Merged.
Context `{Digest} `{HashOrder} (snapshots : gmap string IdListManifest).

(** [key] belongs to namespace [ns] and publishes [entry] as [name]. *)
Definition publishes (identities : list (string * option string)) (ns name : string)
    (entry : IdListManifestEntry) : Prop :=
  exists key id manifest, (key, Some id) ∈ identities /\ hash_company_id id = ns /\
    snapshots !! key = Some manifest /\ manifest !! name = Some entry.

Definition is_unavailable (identity : string * option string) : bool :=
  match identity with
  | (_, None) => true
  | (key, Some _) => bool_decide (snapshots !! key = None)
  end.

Record merge_inv (identities : list (string * option string)) (st : merge_state) : Prop := {
  mi_owner ns company : companies st !! ns = Some company ->
    exists key id, (key, Some id) ∈ identities /\ hash_company_id id = ns;
  mi_known key id : (key, Some id) ∈ identities -> is_Some (companies st !! hash_company_id id);
  mi_incomplete ns company : companies st !! ns = Some company ->
    incomplete company = true <->
    exists key id, (key, Some id) ∈ identities /\ hash_company_id id = ns /\ snapshots !! key = None;
  mi_covers ns name entry : publishes identities ns name entry ->
    exists company, companies st !! ns = Some company /\ is_Some (lists company !! name);
  mi_sound ns company name entry : companies st !! ns = Some company ->
    lists company !! name = Some entry -> publishes identities ns name entry;
  mi_newest ns company name entry entry' :
    (forall x y, publishes identities ns name x -> publishes identities ns name y -> one_creation_time x y) ->
    companies st !! ns = Some company -> lists company !! name = Some entry ->
    publishes identities ns name entry' -> entry_cmp entry' entry <> Gt;
  mi_unavailable : unavailable st = N.of_nat (length (filter (fun i => is_unavailable i = true) identities));
  mi_unknown : unknown_company st = true <-> exists key, (key, None) ∈ identities;
}.

Lemma merge_inv_nil :
  merge_inv [] {| companies := ∅; unavailable := 0; unknown_company := false |}.
Proof.
  split; simpl; try done; try (intros *; by rewrite lookup_empty).
  - intros key id Hi. by apply elem_of_nil in Hi.
  - intros ns name entry (key & id & man & Hi & _). by apply elem_of_nil in Hi.
  - split; [done|]. intros [? Hi]. by apply elem_of_nil in Hi.
Qed.

Lemma publishes_snoc identities key cid ns name entry :
  publishes (identities ++ [(key, cid)]) ns name entry <->
  publishes identities ns name entry \/
  exists id manifest, cid = Some id /\ hash_company_id id = ns /\ snapshots !! key = Some manifest /\
    manifest !! name = Some entry.
Proof.
  unfold publishes. setoid_rewrite elem_of_app. setoid_rewrite list_elem_of_singleton. naive_solver.
Qed.

Lemma filter_unavailable_snoc identities i :
  N.of_nat (length (filter (fun i => is_unavailable i = true) (identities ++ [i]))) =
  (N.of_nat (length (filter (fun i => is_unavailable i = true) identities))
   + if is_unavailable i then 1 else 0)%N.
Proof.
  rewrite filter_app, length_app. rewrite (filter_cons _ i), filter_nil.
  destruct (is_unavailable i) eqn:E; case_decide; simplify_eq; simpl; try lia; done.
Qed.

Lemma identity_snoc (identities : list (string * option string)) key cid key' cid' :
  (key', cid') ∈ identities ++ [(key, cid)] <-> (key', cid') ∈ identities \/ (key' = key /\ cid' = cid).
Proof. rewrite elem_of_app, list_elem_of_singleton. naive_solver. Qed.

Lemma merge_inv_unknown identities st key :
  merge_inv identities st -> merge_inv (identities ++ [(key, None)]) (merge_key snapshots st (key, None)).
Proof.
  intros [Ho Hk Hi Hc Hs Hn Hu Hx].
  assert (forall ns name e, publishes (identities ++ [(key, None)]) ns name e <-> publishes identities ns name e) as Hp.
  { intros. rewrite publishes_snoc. naive_solver. }
  split; cbn [merge_key companies unavailable unknown_company].
  - intros ns c Hl. destruct (Ho _ _ Hl) as (k & i & ? & ?). exists k, i. rewrite identity_snoc. auto.
  - intros k i [?|[_ ?]]%identity_snoc; [by eapply Hk|done].
  - intros ns c Hl. rewrite (Hi _ _ Hl). setoid_rewrite identity_snoc. naive_solver.
  - intros ns name e. rewrite Hp. apply Hc.
  - intros ns c name e ??. rewrite Hp. by eapply Hs.
  - intros ns c name e e' H1 H2 H3. rewrite Hp. setoid_rewrite Hp in H1. by apply (Hn _ _ _ _ _ H1 H2).
  - by rewrite filter_unavailable_snoc, <- Hu.
  - split; [intros _; exists key; rewrite identity_snoc; auto|done].
Qed.

Lemma merge_inv_missing identities st key id :
  merge_inv identities st -> snapshots !! key = None ->
  merge_inv (identities ++ [(key, Some id)]) (merge_key snapshots st (key, Some id)).
Proof.
  intros [Ho Hk Hi Hc Hs Hn Hu Hx] Hsnap. set (ns0 := hash_company_id id).
  assert (forall ns name e, publishes (identities ++ [(key, Some id)]) ns name e <-> publishes identities ns name e) as Hp.
  { intros. rewrite publishes_snoc. naive_solver. }
  set (c0 := default {| lists := ∅; incomplete := false |} (companies st !! ns0)).
  assert (forall name e, lists c0 !! name = Some e ->
    exists c, companies st !! ns0 = Some c /\ lists c !! name = Some e) as Hc0.
  { intros name e. unfold c0. destruct (companies st !! ns0); simpl; [eauto|by rewrite lookup_empty]. }
  cbn [merge_key]. rewrite Hsnap. fold ns0 c0.
  split; cbn [companies unavailable unknown_company].
  - intros ns c [[<- <-]|[_ Hl]]%lookup_insert_Some.
    + exists key, id. rewrite identity_snoc. auto.
    + destruct (Ho _ _ Hl) as (k & i & ? & ?). exists k, i. rewrite identity_snoc. auto.
  - intros k i [Hin|[-> [= ->]]]%identity_snoc; apply lookup_insert_is_Some'; [right; by eapply Hk|by left].
  - intros ns c [[<- <-]|[Hne Hl]]%lookup_insert_Some; simpl.
    + split; [intros _; exists key, id; rewrite identity_snoc; auto|done].
    + rewrite (Hi _ _ Hl). setoid_rewrite identity_snoc. naive_solver.
  - intros ns name e (c & Hl & Hsome)%Hp%Hc. destruct (decide (ns0 = ns)) as [<-|Hne].
    + exists {| lists := lists c0; incomplete := true |}. rewrite lookup_insert_eq. split; [done|].
      simpl. unfold c0. by rewrite Hl.
    + exists c. by rewrite lookup_insert_ne.
  - intros ns c name e [[<- <-]|[_ Hl]]%lookup_insert_Some; simpl.
    + intros (c & ? & ?)%Hc0. rewrite Hp. by eapply Hs.
    + intros. rewrite Hp. by eapply Hs.
  - intros ns c name e e' H1. setoid_rewrite Hp in H1. rewrite Hp.
    intros [[<- <-]|[_ Hl]]%lookup_insert_Some; simpl; [intros (c & ? & ?)%Hc0|]; by eapply Hn.
  - rewrite filter_unavailable_snoc, <- Hu. simpl. by rewrite bool_decide_true.
  - rewrite Hx. setoid_rewrite identity_snoc. naive_solver.
Qed.

(** The merged entry of one name, after the entries of one more key. *)
Lemma merged_step (old : option IdListManifestEntry) entry :
  let new := match old with Some p => if replaces entry p then entry else p | None => entry end in
  (new = entry \/ old = Some new) /\
  (forall p, old = Some p -> one_creation_time entry p -> entry_cmp entry new <> Gt /\ entry_cmp p new <> Gt) /\
  (old = None -> entry_cmp entry new <> Gt).
Proof.
  assert (forall x, entry_cmp x x <> Gt) as Hrefl by (intros x; by rewrite cmp_ok_refl by apply entry_cmp_ok).
  destruct old as [p|]; simpl; [|split_and!; [by left|done|intros _; apply Hrefl]].
  destruct (replaces entry p) eqn:E; (split_and!; [by auto| |done]); intros q [= <-] Hone.
  - split; [apply Hrefl|]. apply (replaces_cmp _ _ Hone) in E.
    destruct entry_cmp_ok as [Hop _]. by rewrite Hop, E.
  - split; [|apply Hrefl]. intros Hgt%(replaces_cmp _ _ Hone). congruence.
Qed.

Lemma merge_newest identities st key id manifest name e e' :
  merge_inv identities st -> snapshots !! key = Some manifest ->
  let ns := hash_company_id id in
  let c0 := default {| lists := ∅; incomplete := false |} (companies st !! ns) in
  (forall x y, publishes (identities ++ [(key, Some id)]) ns name x ->
     publishes (identities ++ [(key, Some id)]) ns name y -> one_creation_time x y) ->
  foldl merge_entry (lists c0) (hash_iter manifest) !! name = Some e ->
  publishes (identities ++ [(key, Some id)]) ns name e' -> entry_cmp e' e <> Gt.
Proof.
  intros Hinv Hsnap ns c0 Hone. rewrite merge_manifest_lookup.
  assert (forall p, publishes identities ns name p -> publishes (identities ++ [(key, Some id)]) ns name p) as Hmono
    by (intros; rewrite publishes_snoc; auto).
  assert (forall old, lists c0 !! name = Some old -> publishes identities ns name old /\
    forall p, publishes identities ns name p -> entry_cmp p old <> Gt) as Hold.
  { intros old. unfold c0. destruct (companies st !! ns) as [c|] eqn:Ec; simpl; [|by rewrite lookup_empty].
    intros Hl. split; [by eapply (mi_sound _ _ Hinv)|]. intros p Hp.
    eapply (mi_newest _ _ Hinv); [|exact Ec|exact Hl|exact Hp]. auto. }
  assert (lists c0 !! name = None -> forall p, ~ publishes identities ns name p) as Hnone.
  { intros Hl p (c & Hc & Hsome)%(mi_covers _ _ Hinv). unfold c0 in Hl. rewrite Hc in Hl. simpl in Hl.
    rewrite Hl in Hsome. by destruct Hsome. }
  rewrite (publishes_snoc _ _ _ ns). intros Hnew [Hpub|(id' & man' & [= <-] & _ & Hman & He')];
    [|rewrite Hsnap in Hman; injection Hman as <-].
  - destruct (lists c0 !! name) as [p|] eqn:Ep; [|by destruct (Hnone eq_refl e')].
    destruct (Hold p eq_refl) as [Hpp Hmax]. specialize (Hmax e' Hpub).
    destruct (manifest !! name) as [x|] eqn:Ex; [|by injection Hnew as <-].
    destruct (merged_step (Some p) x) as (_ & Hstep & _). injection Hnew as <-.
    destruct (Hstep p eq_refl) as [_ Hpe].
    { apply Hone; [|by apply Hmono]. rewrite publishes_snoc. right. eauto 10. }
    apply (proj2 entry_cmp_ok e' p); done.
  - rewrite He' in Hnew. destruct (merged_step (lists c0 !! name) e') as (_ & Hstep & Hfresh).
    destruct (lists c0 !! name) as [p|] eqn:Ep; injection Hnew as <-; [|by apply Hfresh].
    destruct (Hold p eq_refl) as [Hpp _]. apply (Hstep p eq_refl).
    apply Hone; [|by apply Hmono]. rewrite publishes_snoc. right. eauto 10.
Qed.

Lemma merge_inv_present identities st key id manifest :
  merge_inv identities st -> snapshots !! key = Some manifest ->
  merge_inv (identities ++ [(key, Some id)]) (merge_key snapshots st (key, Some id)).
Proof.
  intros Hinv Hsnap. pose proof Hinv as [Ho Hk Hi Hc Hs Hn Hu Hx]. set (ns0 := hash_company_id id).
  assert (forall ns name e, ns <> ns0 ->
    publishes (identities ++ [(key, Some id)]) ns name e <-> publishes identities ns name e) as Hp.
  { intros. rewrite publishes_snoc. naive_solver. }
  cbn [merge_key]. rewrite Hsnap. fold ns0.
  set (c0 := default {| lists := ∅; incomplete := false |} (companies st !! ns0)).
  split; cbn [companies unavailable unknown_company].
  - intros ns c [[<- <-]|[_ Hl]]%lookup_insert_Some.
    + exists key, id. rewrite identity_snoc. auto.
    + destruct (Ho _ _ Hl) as (k & i & ? & ?). exists k, i. rewrite identity_snoc. auto.
  - intros k i [Hin|[-> [= ->]]]%identity_snoc; apply lookup_insert_is_Some'; [right; by eapply Hk|by left].
  - intros ns c [[<- <-]|[Hne Hl]]%lookup_insert_Some; simpl; setoid_rewrite identity_snoc.
    + assert (incomplete c0 = true <-> exists key id, (key, Some id) ∈ identities /\
        hash_company_id id = ns0 /\ snapshots !! key = None) as ->; [|naive_solver].
      unfold c0. destruct (companies st !! ns0) as [c|] eqn:Ec; simpl; [by apply Hi|].
      split; [done|]. intros (k & i & Hin & Hns & _). apply Hk in Hin. rewrite Hns, Ec in Hin. by destruct Hin.
    + rewrite (Hi _ _ Hl). naive_solver.
  - intros ns name e Hpub. destruct (decide (ns0 = ns)) as [<-|Hne].
    + eexists. rewrite lookup_insert_eq. split; [done|]. simpl. rewrite merge_manifest_lookup.
      destruct (manifest !! name) as [x|] eqn:Ex; [by destruct (lists c0 !! name); eauto|].
      apply publishes_snoc in Hpub as [(c & Hl & Hsome)%Hc|(i & m & _ & _ & Hm & Hl)]; [|congruence].
      unfold c0. by rewrite Hl.
    + destruct (Hc ns name e) as (c & Hl & ?); [by apply Hp|]. exists c. by rewrite lookup_insert_ne.
  - intros ns c name e [[<- <-]|[Hne Hl]]%lookup_insert_Some; simpl; [|rewrite Hp by done; by eapply Hs].
    rewrite merge_manifest_lookup, publishes_snoc. intros He.
    assert (manifest !! name = Some e \/ lists c0 !! name = Some e) as [Hm|Hl].
    { destruct (manifest !! name) as [x|], (lists c0 !! name) as [p|]; try destruct (replaces x p); naive_solver. }
    + right. by exists id, manifest.
    + left. unfold c0 in Hl. destruct (companies st !! ns0) as [c|] eqn:Ec; simpl in Hl; [by eapply Hs|].
      by rewrite lookup_empty in Hl.
  - intros ns c name e e' H1 [[<- <-]|[Hne Hl]]%lookup_insert_Some; simpl.
    + intros He Hpub. by eapply merge_newest.
    + rewrite Hp by done. intros. eapply Hn; [|done..]. intros ????. apply H1; by apply Hp.
  - rewrite filter_unavailable_snoc, <- Hu. simpl. rewrite bool_decide_false by congruence. lia.
  - rewrite Hx. setoid_rewrite identity_snoc. naive_solver.
Qed.

Lemma merge_inv_all identities :
  merge_inv identities
    (foldl (merge_key snapshots) {| companies := ∅; unavailable := 0; unknown_company := false |} identities).
Proof.
  induction identities as [|[key [id|]] identities IH] using rev_ind; [apply merge_inv_nil| |];
    rewrite foldl_snoc; [|by apply merge_inv_unknown].
  destruct (snapshots !! key) as [manifest|] eqn:E; [by eapply merge_inv_present|by apply merge_inv_missing].
Qed.
End Merged.

(** ** Collisions *)

Section Collisions.
Context `{Digest}.

Lemma owners_of_lookup identities ns id :
  id ∈ default ∅ (owners_of identities !! ns) <->
  hash_company_id id = ns /\ exists key, (key, Some id) ∈ identities.
Proof.
  unfold owners_of. induction identities as [|[key [id'|]] identities IH] using rev_ind.
  - cbn [foldl]. rewrite lookup_empty. simpl. setoid_rewrite elem_of_nil. set_solver.
  - rewrite foldl_snoc. setoid_rewrite identity_snoc.
    destruct (decide (hash_company_id id' = ns)) as [<-|Hne].
    + rewrite lookup_insert_eq. simpl. rewrite elem_of_union, elem_of_singleton, IH. naive_solver.
    + rewrite lookup_insert_ne by done. rewrite IH. naive_solver.
  - rewrite foldl_snoc. setoid_rewrite identity_snoc. rewrite IH. naive_solver.
Qed.

Lemma collisions_nil owners :
  collisions_of owners = [] <-> forall ns ids, owners !! ns = Some ids -> size ids <= 1.
Proof.
  unfold collisions_of, btree_iter. split.
  - intros Hnil%fmap_nil_inv ns ids Hl. destruct (decide (1 < size ids)) as [Hlt|]; [|lia].
    assert ((ns, ids) ∈ filter (fun p => 1 < size p.2) (sort_by key_le (map_to_list owners))) as Hin.
    { rewrite list_elem_of_filter, sort_by_perm, elem_of_map_to_list. done. }
    rewrite Hnil in Hin. by apply elem_of_nil in Hin.
  - intros Hall. destruct (filter _ _) as [|[ns ids] l] eqn:E; [done|].
    assert ((ns, ids) ∈ filter (fun p => 1 < size p.2) (sort_by key_le (map_to_list owners))) as Hin
      by (rewrite E; left).
    rewrite list_elem_of_filter, sort_by_perm, elem_of_map_to_list in Hin. destruct Hin as [Hlt Hl].
    specialize (Hall _ _ Hl). simpl in Hlt. lia.
Qed.

Definition distinct_namespaces (identities : list (string * option string)) : Prop :=
  forall key key' id id', (key, Some id) ∈ identities -> (key', Some id') ∈ identities ->
    hash_company_id id = hash_company_id id' -> id = id'.

Lemma no_collisions identities :
  collisions_of (owners_of identities) = [] <-> distinct_namespaces identities.
Proof.
  rewrite collisions_nil. split.
  - intros Hall key key' id id' Hid Hid' Hh.
    destruct (decide (id = id')) as [|Hne]; [done|]. exfalso.
    assert ({[id; id']} ⊆ default ∅ (owners_of identities !! hash_company_id id)) as Hsub.
    { intros x [Hx|Hx]%elem_of_union; apply elem_of_singleton in Hx as ->; apply owners_of_lookup; eauto. }
    apply subseteq_size in Hsub. rewrite size_union in Hsub by set_solver. rewrite !size_singleton in Hsub.
    destruct (owners_of identities !! hash_company_id id) as [ids|] eqn:E.
    + specialize (Hall _ _ E). change (default ∅ (Some ids)) with ids in Hsub. lia.
    + change (default ∅ None) with (∅ : gset string) in Hsub. rewrite size_empty in Hsub. lia.
  - intros Hd ns ids Hl. destruct (decide (size ids <= 1)) as [|Hgt]; [done|].
    destruct (size_pos_elem_of ids) as [x Hx]; [lia|].
    assert (ids ⊆ {[x]}) as Hsub.
    { intros y Hy. apply elem_of_singleton.
      pose proof (owners_of_lookup identities ns x) as Ox. pose proof (owners_of_lookup identities ns y) as Oy.
      rewrite Hl in Ox, Oy. simpl in Ox, Oy.
      destruct (proj1 Ox Hx) as [Hnx [kx Ix]]. destruct (proj1 Oy Hy) as [Hny [ky Iy]].
      symmetry. apply (Hd kx ky); [done..|congruence]. }
    apply subseteq_size in Hsub. rewrite size_singleton in Hsub. lia.
Qed.
End Collisions.

(** ** Theorems *)

(** Planning is refused exactly when two different companies of the configured
    keys share a namespace; otherwise each namespace stands for one company. *)
Theorem company_manifests_collision `{Digest} `{HashOrder} identities snapshots :
  (exists collisions, company_manifests_of identities snapshots = Err collisions) <->
  ~ distinct_namespaces identities.
Proof.
  unfold company_manifests_of. rewrite <- no_collisions.
  destruct (collisions_of (owners_of identities)) as [|c cs] eqn:E; simpl.
  - split; [by intros [? ?]|done].
  - split; [done|eauto].
Qed.

Lemma company_manifests_of_inv `{Digest} `{HashOrder} identities snapshots cos un :
  company_manifests_of identities snapshots = Ok (cos, un) ->
  exists st, merge_inv snapshots identities st /\ un = unavailable st /\
    forall ns c, cos !! ns = Some c ->
      exists c', companies st !! ns = Some c' /\ lists c = lists c' /\
                 incomplete c = unknown_company st || incomplete c'.
Proof.
  unfold company_manifests_of. case_bool_decide; [|done]. simpl. intros [= <- <-].
  eexists. split; [apply merge_inv_all|]. split; [done|]. intros ns c.
  destruct (unknown_company _); [|by eauto].
  rewrite lookup_fmap_Some. intros (c' & <- & Hl). by exists c'.
Qed.

Lemma company_manifests_lists `{Digest} `{HashOrder} identities snapshots cos un ns c :
  company_manifests_of identities snapshots = Ok (cos, un) -> cos !! ns = Some c ->
  (forall name, is_Some (lists c !! name) <-> exists entry, publishes snapshots identities ns name entry) /\
  (forall name entry, lists c !! name = Some entry -> publishes snapshots identities ns name entry) /\
  (incomplete c = false <->
   forall key company_id, (key, company_id) ∈ identities ->
     exists id, company_id = Some id /\ (hash_company_id id = ns -> is_Some (snapshots !! key))).
Proof.
  intros (st & Hinv & -> & Hcos)%company_manifests_of_inv (c' & Hl & Hlists & Hinc)%Hcos.
  rewrite Hlists, Hinc, orb_false_iff. split; [|split].
  - intros name. split.
    + intros [e He]. exists e. by eapply (mi_sound _ _ _ Hinv).
    + intros [e (c2 & Hl2 & Hs)%(mi_covers _ _ _ Hinv)]. by simplify_eq.
  - intros name e He. by eapply (mi_sound _ _ _ Hinv).
  - pose proof (mi_unknown _ _ _ Hinv) as Hu. pose proof (mi_incomplete _ _ _ Hinv _ _ Hl) as Hi.
    split.
    + intros [Hnu%not_true_iff_false Hni%not_true_iff_false] key [id|] Hin.
      * exists id. split; [done|]. intros Hns. destruct (snapshots !! key) eqn:E; [done|].
        destruct Hni. apply Hi. by exists key, id.
      * destruct Hnu. apply Hu. by exists key.
    + intros Hall. rewrite <- !not_true_iff_false. rewrite Hu, Hi. split.
      * intros [key Hin]. by destruct (Hall _ _ Hin) as (? & ? & _).
      * intros (key & id & Hin & Hns & Hno). destruct (Hall _ _ Hin) as (? & [= <-] & Hsome).
        rewrite Hno in Hsome. by destruct (Hsome Hns).
Qed.

(** C34: The merged manifest of a company has exactly the lists that some key of the
    company publishes. It counts as complete, and so may drive removals, exactly when
    every configured key has a known company and every key of this company has
    delivered a manifest: no list visible to one key is removed because of another. *)
Theorem company_manifests_complete `{Digest} `{HashOrder} identities snapshots cos un ns c :
  company_manifests_of identities snapshots = Ok (cos, un) -> cos !! ns = Some c ->
  (forall name, is_Some (lists c !! name) <-> exists entry, publishes snapshots identities ns name entry) /\
  (incomplete c = false <->
   forall key company_id, (key, company_id) ∈ identities ->
     exists id, company_id = Some id /\ (hash_company_id id = ns -> is_Some (snapshots !! key))) /\
  un = N.of_nat (length (filter (fun i => is_unavailable snapshots i = true) identities)).
Proof.
  intros Hof Hc. destruct (company_manifests_lists _ _ _ _ _ _ Hof Hc) as (Hl & _ & Hi).
  split; [done|]. split; [done|]. by destruct (company_manifests_of_inv _ _ _ _ Hof) as (st & [] & -> & _).
Qed.

(** When a file has one creation time wherever it is published, the merged
    manifest holds, for each list, the newest file any key of the company publishes. *)
Theorem company_manifests_newest `{Digest} `{HashOrder} identities snapshots cos un ns c name entry :
  company_manifests_of identities snapshots = Ok (cos, un) -> cos !! ns = Some c ->
  (forall x y, publishes snapshots identities ns name x -> publishes snapshots identities ns name y ->
     one_creation_time x y) ->
  lists c !! name = Some entry ->
  publishes snapshots identities ns name entry /\
  forall other, publishes snapshots identities ns name other -> entry_cmp other entry <> Gt.
Proof.
  intros (st & Hinv & -> & Hcos)%company_manifests_of_inv (c' & Hl & -> & _)%Hcos Hone He.
  split; [by eapply (mi_sound _ _ _ Hinv)|]. intros other. by eapply (mi_newest _ _ _ Hinv).
Qed.

(** ** Examples *)

#[local] Instance list_order : HashOrder := {| hash_iter A m := map_to_list m; hash_iter_perm A m := reflexivity _ |}.

(** A digest for examples: one company has a namespace of its own. *)
#[local] Instance toy_digest : Digest.
Proof.
  refine {| sha256_base64 s :=
    if decide (s = "acme") then "aaaabbbbaaaabbbbaaaabbbbaaaabbbbaaaabbbbaaaa"
    else "zzzzbbbbaaaabbbbaaaabbbbaaaabbbbaaaabbbbaaaa" |};
    intros s; by case_decide.
Defined.

Definition entry_of (name file_id : string) (size creation_time : N) : IdListManifestEntry :=
  {| entry_name := name; entry_size := size; entry_url := "u"; entry_creation_time := creation_time;
     entry_file_id := file_id |}.
Definition two_keys : list (string * option string) := [("k1", Some "acme"); ("k2", Some "acme")].
Definition two_snapshots : gmap string IdListManifest :=
  {["k1" := {["l" := entry_of "l" "f1" 10 1]}; "k2" := {["l" := entry_of "l" "f2" 5 2]}]}.
Definition merged_company : CompanyManifest :=
  {| lists := {["l" := entry_of "l" "f2" 5 2]}; incomplete := false |}.

Lemma company_manifests_complete_witness :
  is_Some (lists merged_company !! "l") /\ incomplete merged_company = false.
Proof.
  destruct (company_manifests_complete two_keys two_snapshots {["aaaa" := merged_company]} 0 "aaaa" merged_company)
    as (Hl & Hi & _); [vm_compute; reflexivity..|].
  split.
  - apply Hl. exists (entry_of "l" "f2" 5 2), "k2", "acme", {["l" := entry_of "l" "f2" 5 2]}.
    split_and!; [right; left|vm_compute; reflexivity..].
  - apply Hi. intros key cid [[= -> ->]|[[= -> ->]|[]%elem_of_nil]%elem_of_cons]%elem_of_cons;
      exists "acme"; split; try done; intros _; vm_compute; eauto.
Defined.

Lemma company_manifests_newest_witness :
  publishes two_snapshots two_keys "aaaa" "l" (entry_of "l" "f2" 5 2) /\
  forall other, publishes two_snapshots two_keys "aaaa" "l" other ->
    entry_cmp other (entry_of "l" "f2" 5 2) <> Gt.
Proof.
  apply (company_manifests_newest two_keys two_snapshots {["aaaa" := merged_company]} 0 "aaaa" merged_company "l");
    [vm_compute; reflexivity..| |vm_compute; reflexivity].
  assert (forall x, publishes two_snapshots two_keys "aaaa" "l" x ->
    x = entry_of "l" "f1" 10 1 \/ x = entry_of "l" "f2" 5 2) as Hall.
  { intros x (key & id & man & Hin & _ & Hs & Hm).
    apply elem_of_cons in Hin as [[= -> ->]|[[= -> ->]|[]%elem_of_nil]%elem_of_cons];
      vm_compute in Hs; injection Hs as <-; vm_compute in Hm; injection Hm as <-; [by left|by right]. }
  intros x y [-> | ->]%Hall [-> | ->]%Hall; unfold one_creation_time; simpl; congruence.
Defined.

(** Without that premise the choice depends on the order of the keys: three entries
    replace one another in a circle. *)
Lemma merged_entry_order_dependent :
  let a := entry_of "l" "f1" 10 1 in let b := entry_of "l" "f1" 5 3 in let c := entry_of "l" "f2" 1 2 in
  let merged x y z :=
    foldl merge_entry ∅ [("l", x); ("l", y); ("l", z)] !! "l" in
  merged a b c = Some c /\ merged b c a = Some a /\ merged c a b = Some b.
Proof. vm_compute. auto. Qed.

(** ** What the observers keep *)

Section Observers.
Context `{PayloadLib} `{HashOrder}.

(** The two observers of the data provider, fed with the same responses. *)
Record observed := { obs_ids : CompanyIdStore; obs_manifests : IdListManifestObserver }.
Definition observe (o : observed) (ev : AuthorizedRequestContext * ResponseContext) : observed :=
  {| obs_ids := company_update (obs_ids o) ev.1 ev.2;
     obs_manifests := manifest_update (obs_manifests o) ev.1 ev.2 |}.
Definition observe_new (server_keys : list string) : observed :=
  {| obs_ids := company_id_store_new server_keys;
     obs_manifests := {| obs_server_keys := list_to_set server_keys; manifests := ∅ |} |}.

Record observed_ok (server_keys : list string) (o : observed) : Prop := {
  oo_ids_keys : cid_server_keys (obs_ids o) = list_to_set server_keys;
  oo_man_keys : obs_server_keys (obs_manifests o) = list_to_set server_keys;
  oo_ids key id : company_ids (obs_ids o) !! key = Some id ->
    key ∈ server_keys /\ trim id <> EmptyString;
  oo_manifests key m : manifests (obs_manifests o) !! key = Some m ->
    key ∈ server_keys /\ forall name e, m !! name = Some e -> entry_name e = name;
}.

Lemma parse_company_id_nonblank payload id : parse_company_id payload = Some id -> trim id <> EmptyString.
Proof.
  unfold parse_company_id. destruct (use_proto payload); [done|].
  intros (decoded & _ & Hq)%bind_Some. apply bind_Some in Hq as ([upd cid] & _ & Hq).
  apply bind_Some in Hq as (id' & _ & Hq). unfold str_empty in Hq.
  destruct upd; simpl in Hq; [|done]. case_bool_decide; simpl in Hq; by simplify_eq.
Qed.

Lemma parse_manifest_names payload m :
  parse_id_list_manifest payload = Ok m -> forall name e, m !! name = Some e -> entry_name e = name.
Proof.
  unfold parse_id_list_manifest. destruct (decode_response_payload payload) as [d|]; [|done]. simpl.
  destruct (json_manifest d) as [es|]; [|done]. simpl. intros [= <-].
  induction (hash_iter es).*2 as [|e l IH] using rev_ind; intros name e'.
  - cbn [foldl]. by rewrite lookup_empty.
  - rewrite foldl_snoc. intros [[<- <-]|[_ Hl]]%lookup_insert_Some; [done|by apply IH].
Qed.

Lemma company_update_ids self ctx resp key id :
  company_ids (company_update self ctx resp) !! key = Some id ->
  company_ids self !! key = Some id \/ (key ∈ cid_server_keys self /\ trim id <> EmptyString).
Proof.
  unfold company_update.
  destruct (bool_decide (sdk_key ctx ∈ cid_server_keys self)) eqn:Ek; simpl; [|by left].
  apply bool_decide_eq_true_1 in Ek.
  destruct (bool_decide (path ctx = V1DownloadConfigSpecs) || bool_decide (path ctx = V2DownloadConfigSpecs));
    simpl; [|by left].
  destruct (result_type resp); try by left.
  - destruct (parse_company_id (body resp)) as [cid|] eqn:Ep; [|by left]. simpl.
    intros [[<- <-]|[_ ?]]%lookup_insert_Some; [right|by left].
    split; [done|by eapply parse_company_id_nonblank].
  - simpl. intros [_ ?]%lookup_delete_Some. by left.
Qed.

Lemma manifest_update_manifests self ctx resp key m :
  manifests (manifest_update self ctx resp) !! key = Some m ->
  manifests self !! key = Some m \/
  (key ∈ obs_server_keys self /\ forall name e, m !! name = Some e -> entry_name e = name).
Proof.
  unfold manifest_update.
  destruct (bool_decide (sdk_key ctx ∈ obs_server_keys self)) eqn:Ek; simpl; [|rewrite orb_true_r; by left].
  apply bool_decide_eq_true_1 in Ek. repeat case_match; try by left.
  - simpl. intros [_ ?]%lookup_delete_Some. by left.
  - simpl. intros [[<- <-]|[_ ?]]%lookup_insert_Some; [right|by left].
    split; [done|by eapply parse_manifest_names].
Qed.

Lemma update_server_keys self obs ctx resp :
  cid_server_keys (company_update self ctx resp) = cid_server_keys self /\
  obs_server_keys (manifest_update obs ctx resp) = obs_server_keys obs.
Proof. unfold company_update, manifest_update. split; repeat case_match; done. Qed.

Lemma observe_ok keys o ev : observed_ok keys o -> observed_ok keys (observe o ev).
Proof.
  intros [H1 H2 H3 H4]. destruct ev as [ctx resp].
  destruct (update_server_keys (obs_ids o) (obs_manifests o) ctx resp) as [K1 K2].
  split; simpl.
  - by rewrite K1.
  - by rewrite K2.
  - intros key id [Hl|[Hk Ht]]%company_update_ids; [by apply H3|]. split; [|done].
    rewrite H1 in Hk. by apply elem_of_list_to_set in Hk.
  - intros key m [Hl|[Hk Ht]]%manifest_update_manifests; [by apply H4|]. split; [|done].
    rewrite H2 in Hk. by apply elem_of_list_to_set in Hk.
Qed.
End Observers.

(** After any sequence of responses the observers know identities and manifests
    of configured keys only, no blank company identity, and every manifest entry
    under its own name; a response that is neither data nor a refusal changes nothing,
    and one for a key never touches another key's identity or manifest. *)
Theorem observers_ok `{PayloadLib} `{HashOrder} server_keys events ctx resp :
  let o := foldl observe (observe_new server_keys) events in
  observed_ok server_keys o /\
  (result_type resp <> DataAvailable -> result_type resp <> Unauthorized -> observe o (ctx, resp) = o) /\
  (forall key, key <> sdk_key ctx ->
     company_ids (obs_ids (observe o (ctx, resp))) !! key = company_ids (obs_ids o) !! key /\
     manifests (obs_manifests (observe o (ctx, resp))) !! key = manifests (obs_manifests o) !! key).
Proof.
  intros o. split; [|split].
  - unfold o. induction events as [|ev events IH] using rev_ind.
    + split; simpl; try done; intros *; by rewrite lookup_empty.
    + rewrite foldl_snoc. by apply observe_ok.
  - intros Hd Hu. destruct o as [ids obs]. unfold observe, company_update, manifest_update; simpl.
    rewrite (bool_decide_false (result_type resp = Unauthorized)) by done.
    rewrite (bool_decide_false (result_type resp = DataAvailable)) by done.
    destruct (result_type resp); try done; by repeat case_match.
  - intros key Hne. unfold observe, company_update, manifest_update; simpl.
    split; repeat case_match; simpl; rewrite ?lookup_insert_ne, ?lookup_delete_ne by done; done.
Qed.
