(* ===== verification/Producer.v ===== *)
(** * Producer: deriving and enqueueing synchronization tasks

    Models [IdListSyncProducer] of
    [src/src/datastore/idlist_membership/redis_syncer.rs]: one tick takes the producer
    lock, merges the manifests of each company ([Namespaces.v]), plans every list against
    its stored state ([Planning.v]) and enqueues the tasks. Metrics are left out. *)
From S2P Require Import Prelude Encoding Request Namespaces Schema Effects Dict WorkerCore Planning.
From S2P Require Import ListView WorkLock.

Record IdListSyncProducer := {
  p_enable_reverse_index : bool;
  p_schema : IdListKeySchema;
  p_lock : RedisWorkLock;
  p_interval_s : N;
}.

Definition with_namespaces (schema : IdListKeySchema) (lock : RedisWorkLock) (interval_s : N)
    : IdListSyncProducer :=
  {| p_enable_reverse_index := true; p_schema := schema; p_lock := lock; p_interval_s := N.max interval_s 1 |}.
Definition with_reverse_index_enabled (enabled : bool) (self : IdListSyncProducer) : IdListSyncProducer :=
  {| p_enable_reverse_index := enabled; p_schema := p_schema self; p_lock := p_lock self;
     p_interval_s := p_interval_s self |}.

Record ProducerTickStats := {
  tasks_enqueued : N;
  removals_scheduled : N;
  queue_depth : N;
  manifest_unavailable : N;
  tasks_derived : N;
}.
Inductive ProducerTickOutcome := Skipped | TickSuccess (stats : ProducerTickStats).

Definition namespace_collision : redis_error :=
  TypeError "ID-list namespace collision; task generation aborted".

Section Producer.
Context `{Digest} `{HashOrder} (self : IdListSyncProducer).

(** One list of the manifest: the task it needs, if any, and whether its state
    says that the reverse index was disabled. *)
Definition plan_list (skh list_name : string) (entry : IdListManifestEntry)
    : prog redis_error (option DerivedTask * bool) :=
  let meta := metadata_of_entry entry in
  fields ← redis (HGETALL (state_key (p_schema self) skh list_name));
  let state := if decide (fields = ∅) then None else Some (from_hash_fields fields) in
  fwd_exists ←
    match state with
    | Some s =>
        if str_empty (version s) then Ret false
        else redis (EXISTS (fwd_key (p_schema self) skh list_name (version s)))
    | None => Ret false
    end;
  let disabled := match state with Some s => reverse_index_disabled s | None => false end in
  Ret ((fun '(action, target) =>
          {| task_skh := skh; task_list := list_name; task_action := action; task_meta := Some target |})
         <$> plan_sync_with_reverse_index state meta fwd_exists (p_enable_reverse_index self),
       disabled).

Fixpoint plan_lists (skh : string) (entries : list (string * IdListManifestEntry))
    : prog redis_error (list DerivedTask * bool) :=
  match entries with
  | [] => Ret ([], false)
  | (list_name, entry) :: entries' =>
      '(task, disabled) ← plan_list skh list_name entry;
      '(tasks, pending) ← plan_lists skh entries';
      Ret (option_list task ++ tasks, disabled || pending)
  end.

(** The lists in [__all] that left a complete manifest. *)
Definition removals (skh : string) (company : CompanyManifest) (known : list string) : list DerivedTask :=
  (fun list_name =>
     {| task_skh := skh; task_list := list_name; task_action := Remove; task_meta := None |})
  <$> filter (fun list_name => incomplete company = false /\ lists company !! list_name = None) known.

Definition mark_ready (skh : string) (manifest : IdListManifest) (reverse_rebuild_pending : bool)
    : prog redis_error unit :=
  if p_enable_reverse_index self && reverse_rebuild_pending then
    _ ← write (DEL (ready_key (p_schema self) skh)); Ret tt
  else
    _ ← (if p_enable_reverse_index self
         then _ ← write (HDEL (dict_key (p_schema self) skh) [REVERSE_INDEX_DISABLED]); Ret tt else Ret tt);
    _ ← write (SET (ready_key (p_schema self) skh) (show_u64 (N.of_nat (size manifest))));
    Ret tt.

(** The loop body for one company: its load tasks and its removals. *)
Definition produce_company (skh : string) (company : CompanyManifest)
    : prog redis_error (list DerivedTask * list DerivedTask) :=
  _ ← get_conn;
  '(loads, reverse_rebuild_pending) ← plan_lists skh (hash_iter (lists company));
  known ← redis (SMEMBERS (all_lists_key (p_schema self) skh));
  let removals := removals skh company known in
  _ ← (if negb (incomplete company) && bool_decide (loads ++ removals = [])
       then mark_ready skh (lists company) reverse_rebuild_pending else Ret tt);
  Ret (loads, removals).

Fixpoint produce_companies (companies : list (string * CompanyManifest))
    : prog redis_error (list DerivedTask * N) :=
  match companies with
  | [] => Ret ([], 0%N)
  | (skh, company) :: companies' =>
      '(loads, removals) ← produce_company skh company;
      '(derived, n) ← produce_companies companies';
      Ret (loads ++ removals ++ derived, (N.of_nat (length removals) + n)%N)
  end.

(** The commands of one task: its metadata, refreshed in any case, and its place
    in the queue, unless it has one. *)
Definition task_meta_cmds (meta_ttl : N) (task : DerivedTask) : list wcmd :=
  let meta_key := task_meta_key (p_schema self) (task_skh task) (task_list task) in
  ((fun fv => HSET meta_key [fv]) <$>
   match task_action task, task_meta task with
   | Remove, _ => [(task_meta_fields.OP, TASK_OP_REMOVE)]
   | _, Some meta =>
       [(task_meta_fields.OP, TASK_OP_LOAD);
        (task_meta_fields.URL, meta_url meta);
        (task_meta_fields.FILE_ID, meta_file_id meta);
        (task_meta_fields.CREATION_TIME, show_u64 (meta_creation_time meta));
        (task_meta_fields.SIZE, show_u64 (meta_size meta))]
   | _, None => [(task_meta_fields.OP, TASK_OP_LOAD)]
   end)
  ++ [EXPIRE meta_key (as_i64 meta_ttl)].
Definition task_queue_cmd (scored : N * DerivedTask) : wcmd :=
  ZADD_NX (queue_key (p_schema self)) scored.1 (encode_task (task_skh scored.2) (task_list scored.2)).
Definition task_cmds (meta_ttl : N) (scored : N * DerivedTask) : list wcmd :=
  task_meta_cmds meta_ttl scored.2 ++ [task_queue_cmd scored].

Definition is_zadd (w : wcmd) : bool := match w with ZADD_NX _ _ _ => true | _ => false end.

(** The replies of the commands that are not ignored. *)
Definition kept_replies (ws : list wcmd) (replies : list N) : list N :=
  (filter (fun wr => is_zadd wr.1 = true) (zip ws replies)).*2.

Definition CHUNK : nat := 64.
Fixpoint enqueue_chunks (meta_ttl : N) (chunks : list (list (N * DerivedTask))) : prog redis_error N :=
  match chunks with
  | [] => Ret 0%N
  | chunk :: chunks' =>
      let ws := concat (task_cmds meta_ttl <$> chunk) in
      replies ← pipe ws;
      added ← enqueue_chunks meta_ttl chunks';
      Ret (N.of_nat (length (filter (fun n => (0 < n)%N) (kept_replies ws replies))) + added)%N
  end.

Definition enqueue_tasks (tasks : list (N * DerivedTask)) : prog redis_error N :=
  match tasks with
  | [] => Ret 0%N
  | _ =>
      let meta_ttl := N.max (sat_mul (p_interval_s self) 10) 60 in
      _ ← get_conn;
      enqueue_chunks meta_ttl (chunks CHUNK tasks)
  end.

Definition produce_locked (namespaces : IdListNamespaces) : prog redis_error ProducerTickStats :=
  match company_manifests namespaces with
  | Err _ => Throw namespace_collision
  | Ok (companies, manifest_unavailable) =>
      '(derived, removals_scheduled) ← produce_companies (btree_iter companies);
      let ordered := order_and_dedupe_tasks derived in
      tasks_enqueued ← enqueue_tasks ordered;
      _ ← get_conn;
      queue_depth ← redis (ZCARD (queue_key (p_schema self)));
      Ret {| tasks_enqueued := tasks_enqueued; removals_scheduled := removals_scheduled;
             queue_depth := queue_depth; manifest_unavailable := manifest_unavailable;
             tasks_derived := N.of_nat (length ordered) |}
  end.

Definition producer_run_once (namespaces : IdListNamespaces) : prog redis_error ProducerTickOutcome :=
  acquired ← try_acquire (p_lock self) (producer_lock_key (p_schema self)) (p_interval_s self);
  if negb acquired then Ret Skipped
  else stats ← produce_locked namespaces; Ret (TickSuccess stats).
End Producer.

(** ** Which tasks are derived *)

Definition load_task_ok (self : IdListSyncProducer) (skh : string) (company : CompanyManifest)
    (task : DerivedTask) : Prop :=
  task_skh task = skh /\
  exists entry state fwd_exists target,
    lists company !! task_list task = Some entry /\ task_meta task = Some target /\
    plan_sync_with_reverse_index state (metadata_of_entry entry) fwd_exists (p_enable_reverse_index self)
      = Some (task_action task, target).
Definition removal_task_ok (skh : string) (company : CompanyManifest) (task : DerivedTask) : Prop :=
  task_skh task = skh /\ task_action task = Remove /\ task_meta task = None /\
  incomplete company = false /\ lists company !! task_list task = None.

Lemma plan_not_remove state meta fwd rev action target :
  plan_sync_with_reverse_index state meta fwd rev = Some (action, target) -> action <> Remove.
Proof.
  assert (forall m a, needs_work_with_reverse_index state m fwd rev = Some a -> a <> Remove) as Hn.
  { intros m a. unfold needs_work_with_reverse_index. repeat case_match; naive_solver. }
  unfold plan_sync_with_reverse_index. intros Hp.
  apply fmap_Some in Hp as (a & Ha & Heq). injection Heq as -> _. by eapply Hn.
Qed.

Section Derived.
Context `{Digest} `{HashOrder} `{ScanOrder} (self : IdListSyncProducer) (env : environment).

Lemma plan_lists_delivers skh company entries :
  (forall name entry, (name, entry) ∈ entries -> lists company !! name = Some entry) ->
  delivers env (plan_lists self skh entries) (fun r => Forall (load_task_ok self skh company) r.1).
Proof.
  induction entries as [|[name entry] entries IH]; intros Hin; cbn [plan_lists].
  { apply delivers_ret. constructor. }
  eapply (delivers_bind env _ _ (fun r => Forall (load_task_ok self skh company) (option_list r.1))).
  - unfold plan_list. apply delivers_skip. intros fields. apply delivers_skip. intros fwd.
    apply delivers_ret. simpl. destruct (plan_sync_with_reverse_index _ _ _ _) as [[action target]|] eqn:E;
      simpl; [|constructor]. constructor; [|constructor]. split; [done|]. simpl.
    eexists _, _, _, _. split_and!; [apply Hin; left|done|exact E].
  - intros [task disabled] Htask. eapply delivers_bind; [apply IH; intros; apply Hin; by right|].
    intros [tasks pending] Htasks. apply delivers_ret. simpl. by apply Forall_app.
Qed.

Lemma removals_ok skh company known : Forall (removal_task_ok skh company) (removals skh company known).
Proof.
  unfold removals. apply Forall_fmap, Forall_forall. intros name [[Hi Hl] _]%list_elem_of_filter. done.
Qed.

Lemma produce_company_delivers skh company :
  delivers env (produce_company self skh company)
    (fun r => Forall (load_task_ok self skh company) r.1 /\ Forall (removal_task_ok skh company) r.2).
Proof.
  unfold produce_company. apply delivers_skip. intros _.
  eapply delivers_bind; [apply (plan_lists_delivers skh company)|].
  { intros name entry. rewrite hash_iter_perm. apply elem_of_map_to_list. }
  intros [loads pending] Hloads. apply delivers_skip. intros known. apply delivers_skip. intros _.
  apply delivers_ret. split; [done|apply removals_ok].
Qed.

Lemma produce_companies_delivers cos :
  delivers env (produce_companies self cos)
    (fun r => Forall (fun task => exists company, (task_skh task, company) ∈ cos /\
       (load_task_ok self (task_skh task) company task \/ removal_task_ok (task_skh task) company task)) r.1).
Proof.
  induction cos as [|[skh company] cos IH]; cbn [produce_companies].
  { apply delivers_ret. constructor. }
  eapply delivers_bind; [apply produce_company_delivers|]. intros [loads rems] [Hl Hr].
  eapply delivers_bind; [apply IH|]. intros [derived n] Hd. apply delivers_ret. simpl in *.
  rewrite !Forall_app. split_and!.
  - eapply Forall_impl; [done|]. intros t Ht. exists company. pose proof Ht as [-> _]. split; [left|by left].
  - eapply Forall_impl; [done|]. intros t Ht. exists company. pose proof Ht as [-> _]. split; [left|by right].
  - eapply Forall_impl; [done|]. intros t (c & Hc & Ht). exists c. split; [by right|done].
Qed.
End Derived.

(** C4: A removal is derived only for a list that no configured key publishes, and
    only while every key has a known company and every key of that company has
    delivered its manifest; every other task loads a list its company publishes, as
    the plan says. This holds under any interference and any Redis failures. *)
Theorem derived_tasks_sound `{Digest} `{HashOrder} `{ScanOrder} self env identities snapshots cos un ks derived n ks' :
  company_manifests_of identities snapshots = Ok (cos, un) ->
  runs env (produce_companies self (btree_iter cos)) ks (Returned (derived, n)) ks' ->
  forall task, task ∈ derived ->
    (task_action task = Remove ->
       (forall entry, ~ publishes snapshots identities (task_skh task) (task_list task) entry) /\
       forall key company_id, (key, company_id) ∈ identities ->
         exists id, company_id = Some id /\
                    (hash_company_id id = task_skh task -> is_Some (snapshots !! key))) /\
    (task_action task <> Remove ->
       exists entry, publishes snapshots identities (task_skh task) (task_list task) entry /\
         exists state fwd_exists target, task_meta task = Some target /\
           plan_sync_with_reverse_index state (metadata_of_entry entry) fwd_exists
             (p_enable_reverse_index self) = Some (task_action task, target)).
Proof.
  intros Hcos Hrun task Htask.
  pose proof (wp_adequate _ _ _ _ _ _ (produce_companies_delivers self env (btree_iter cos) ks) Hrun _ eq_refl) as Hall.
  rewrite Forall_forall in Hall. destruct (Hall _ Htask) as (company & Hin & Hok).
  unfold btree_iter in Hin. rewrite sort_by_perm, elem_of_map_to_list in Hin.
  destruct (company_manifests_lists identities snapshots cos un (task_skh task) company Hcos Hin) as (Hl & Hs & Hi).
  split.
  - intros Hrem. destruct Hok as [(_ & e & st & f & t & _ & _ & Hp)|(_ & _ & _ & Hinc & Hnone)].
    { by apply plan_not_remove in Hp. }
    split; [|by apply Hi]. intros entry Hpub. assert (is_Some (lists company !! task_list task)) as [x Hx]; [|congruence].
    apply Hl. eauto.
  - intros Hne. destruct Hok as [(_ & e & st & f & t & Hle & Hm & Hp)|(_ & Hr & _)]; [|done].
    exists e. split; [by apply Hs|]. eauto.
Qed.

(** ** An example tick *)

#[local] Existing Instance list_order.
#[local] Existing Instance toy_digest.

Module ProducerExample.
Definition producer : IdListSyncProducer :=
  with_namespaces {| key_prefix := "sfp" |} {| holder_id := "pod" |} 60.
Definition ks : keyspace :=
  {[all_lists_key (p_schema producer) "aaaa" := {| val := VSet {["l"; "gone"]}; ttl := None |}]}.
Definition quiet : environment :=
  {| rely ks ks' := ks' = ks; http_ok _ r := r = Err HttpError |}.
Definition load_l : DerivedTask :=
  {| task_skh := "aaaa"; task_list := "l"; task_action := FullLoad;
     task_meta := Some {| meta_file_id := "f2"; meta_creation_time := 2; meta_url := "u"; meta_size := 5 |} |}.
Definition remove_gone : DerivedTask :=
  {| task_skh := "aaaa"; task_list := "gone"; task_action := Remove; task_meta := None |}.
Definition tick : outcome redis_error (list DerivedTask * N) * keyspace :=
  eval (fun _ => Err HttpError) (produce_companies producer (btree_iter {["aaaa" := merged_company]})) ks.
End ProducerExample.

Lemma derived_tasks_sound_witness :
  is_Some (lists merged_company !! "l") /\
  forall entry, ~ publishes two_snapshots two_keys "aaaa" "gone" entry.
Proof.
  split; [by vm_compute; eexists|].
  refine (proj1 (proj1 (derived_tasks_sound ProducerExample.producer ProducerExample.quiet two_keys two_snapshots
    {["aaaa" := merged_company]} 0 ProducerExample.ks [ProducerExample.load_l; ProducerExample.remove_gone] 1
    ProducerExample.tick.2 _ _ ProducerExample.remove_gone _) _)).
  - vm_compute. reflexivity.
  - replace (Returned ([ProducerExample.load_l; ProducerExample.remove_gone], 1%N)) with ProducerExample.tick.1
      by (vm_compute; reflexivity).
    apply eval_runs; done.
  - right. left.
  - reflexivity.
Defined.

(** ** What deriving tasks may write *)

Section Writes.
Context `{Digest} `{HashOrder} `{ScanOrder} (self : IdListSyncProducer).

(** The commands of the companies [cos]: writes only to readiness and dictionary
    marker of complete ones. *)
Definition derive_cmd (cos : list (string * CompanyManifest)) (R : Type) (c : cmd R) : Prop :=
  forall k, k ∈ cmd_keys c -> exists skh company, (skh, company) ∈ cos /\ incomplete company = false /\
    (k = ready_key (p_schema self) skh \/ k = dict_key (p_schema self) skh).

Lemma derive_cmd_read cos R (c : cmd R) : cmd_keys c = [] -> derive_cmd cos R c.
Proof. intros Hk k. rewrite Hk. by intros ?%elem_of_nil. Qed.

Lemma redis_ok (G : forall R, cmd R -> Prop) {R} (c : cmd R) :
  G R c -> commands_ok G (redis (E := redis_error) c).
Proof. intros Hc. split; [done|]. by intros []. Qed.

Lemma plan_lists_writes cos skh entries : commands_ok (derive_cmd cos) (plan_lists self skh entries).
Proof.
  induction entries as [|[name entry] entries IH]; cbn [plan_lists]; [done|].
  apply commands_ok_bind.
  - unfold plan_list. apply commands_ok_bind; [by apply redis_ok, derive_cmd_read|]. intros fields.
    apply commands_ok_bind; [|done].
    destruct (if decide (fields = ∅) then None else Some (from_hash_fields fields)) as [s|]; [|done].
    destruct (str_empty (version s)); [done|]. by apply redis_ok, derive_cmd_read.
  - intros [task disabled]. apply commands_ok_bind; [apply IH|]. by intros [].
Qed.

Lemma mark_ready_writes cos skh company pending :
  (skh, company) ∈ cos -> incomplete company = false ->
  commands_ok (derive_cmd cos) (mark_ready self skh (lists company) pending).
Proof.
  intros Hin Hc. unfold mark_ready.
  assert (forall w, wcmd_key w = ready_key (p_schema self) skh \/ wcmd_key w = dict_key (p_schema self) skh ->
    commands_ok (derive_cmd cos) (write (E := redis_error) w)) as Hw.
  { intros w Hk. apply redis_ok. intros k ->%list_elem_of_singleton. eauto 10. }
  case_match; repeat (apply commands_ok_bind; [|intros ?]); try done; try (by apply Hw; auto).
  case_match; [apply commands_ok_bind; [by apply Hw; auto|done]|done].
Qed.

Lemma produce_companies_writes cos : commands_ok (derive_cmd cos) (produce_companies self cos).
Proof.
  assert (forall rest, rest ⊆ cos -> commands_ok (derive_cmd cos) (produce_companies self rest)) as Hall; [|by apply Hall].
  induction rest as [|[skh company] rest IH]; intros Hsub; cbn [produce_companies]; [done|].
  apply commands_ok_bind; [|intros []; apply commands_ok_bind; [apply IH; set_solver|by intros []]].
  unfold produce_company. apply commands_ok_bind; [by apply redis_ok, derive_cmd_read|intros _].
  apply commands_ok_bind; [apply plan_lists_writes|]. intros [loads pending].
  apply commands_ok_bind; [by apply redis_ok, derive_cmd_read|]. intros known.
  apply commands_ok_bind; [|done].
  destruct (incomplete company) eqn:Ei; simpl; [done|].
  case_match; [apply mark_ready_writes; [set_solver|done]|done].
Qed.
End Writes.

(** Deriving the tasks of a tick leaves every key alone but the readiness marker
    and the dictionary of companies whose manifest is complete: an incomplete company
    never becomes ready, and no list state, index or queue is touched. *)
Theorem derive_frame `{Digest} `{HashOrder} `{ScanOrder} self env cos ks out ks' k :
  (forall skh company, (skh, company) ∈ cos -> incomplete company = false ->
     k <> ready_key (p_schema self) skh /\ k <> dict_key (p_schema self) skh) ->
  (forall ks ks', rely env ks ks' -> ks' !! k = ks !! k) ->
  runs env (produce_companies self cos) ks out ks' -> ks' !! k = ks !! k.
Proof.
  intros Hk Hrely Hrun.
  refine (commands_ok_runs env (derive_cmd self cos) _ (fun s => s !! k = ks !! k) ks out ks'
    (produce_companies_writes self cos) _ _ eq_refl Hrun).
  - intros s s1 Hs Hr. by rewrite (Hrely _ _ Hr).
  - intros R c s1 r s2 Hc Hs Hcon. rewrite (contract_frame _ _ _ _ _ Hcon); [done|].
    intros (skh & company & Hin & Hi & Hor)%Hc. destruct (Hk _ _ Hin Hi). by destruct Hor.
Qed.

Lemma derive_frame_witness :
  ProducerExample.tick.2 !! ready_key (p_schema ProducerExample.producer) "zzzz" = None.
Proof.
  transitivity (ProducerExample.ks !! ready_key (p_schema ProducerExample.producer) "zzzz"); [|vm_compute; reflexivity].
  refine (derive_frame ProducerExample.producer ProducerExample.quiet (btree_iter {["aaaa" := merged_company]})
    ProducerExample.ks ProducerExample.tick.1 ProducerExample.tick.2 _ _ _ _).
  - intros skh company. unfold btree_iter. rewrite sort_by_perm, elem_of_map_to_list.
    intros [<- _]%lookup_singleton_Some _. split; vm_compute; discriminate.
  - by intros ks1 ks2 ->.
  - apply eval_runs; done.
Defined.

(** ** Pipelines, one key at a time *)

Definition on_key (k : string) (ws : list wcmd) : list wcmd := filter (fun w => wcmd_key w = k) ws.

(** The replies of commands run one after the other; [None] when one fails. *)
Fixpoint exec_replies (ws : list wcmd) (ks : keyspace) : option (list N) :=
  match ws with
  | [] => Some []
  | w :: ws' =>
      match (exec_w w ks).1 with
      | Ok n => (n ::.) <$> exec_replies ws' (exec_w w ks).2
      | Err _ => None
      end
  end.

(** A write depends on its own key only. *)
Lemma exec_w_local w ks ks' :
  ks !! wcmd_key w = ks' !! wcmd_key w ->
  (exec_w w ks).1 = (exec_w w ks').1 /\ (exec_w w ks).2 !! wcmd_key w = (exec_w w ks').2 !! wcmd_key w.
Proof.
  intros Heq. destruct w; simpl in *;
    unfold as_set, as_hash, as_zset, expire, persist, put_set, put_hash, put_zset, put in *; rewrite ?Heq;
    repeat case_match; simpl; rewrite ?Heq, ?lookup_delete_eq, ?lookup_insert_eq; done.
Qed.

Lemma on_key_local k ws ks ks' :
  ks !! k = ks' !! k ->
  exec_replies (on_key k ws) ks = exec_replies (on_key k ws) ks' /\
  exec_multi (on_key k ws) ks !! k = exec_multi (on_key k ws) ks' !! k.
Proof.
  unfold on_key, exec_multi. revert ks ks'. induction ws as [|w ws IH]; intros ks ks' Heq; [done|].
  rewrite filter_cons. case_decide as Hk; [|by apply IH]. cbn [foldl exec_replies]. subst k.
  destruct (exec_w_local w ks ks' Heq) as [E1 E2]. rewrite E1.
  destruct (IH _ _ E2) as [-> ->]. done.
Qed.

(** [ks'] is what the commands on [k] make of [ks], with their replies among [rs]. *)
Definition key_effect (k : string) (ws : list wcmd) (rs : list N) (ks ks' : keyspace) : Prop :=
  length rs = length ws /\
  ks' !! k = exec_multi (on_key k ws) ks !! k /\
  exec_replies (on_key k ws) ks = Some (filter (fun wr => wcmd_key wr.1 = k) (zip ws rs)).*2.

Lemma key_effect_cons k w ws n rs ks ks1 ks' :
  ks1 !! k = ks !! k -> (exec_w w ks1).1 = Ok n ->
  key_effect k ws rs (exec_w w ks1).2 ks' -> key_effect k (w :: ws) (n :: rs) ks ks'.
Proof.
  intros Hk Hn (Hl & He & Hr). unfold key_effect, on_key in *. simpl. rewrite !filter_cons. simpl.
  split; [by rewrite Hl|]. case_decide as Hw.
  - subst k. destruct (exec_w_local w ks1 ks Hk) as [E1 E2]. cbn [exec_multi foldl exec_replies].
    destruct (on_key_local _ ws _ _ E2) as [L1 L2]. rewrite <- E1, Hn.
    unfold on_key in *. rewrite <- L1, Hr. split; [|done]. rewrite He. exact L2.
  - assert ((exec_w w ks1).2 !! k = ks !! k) as E2 by (rewrite exec_w_frame by done; done).
    destruct (on_key_local _ ws _ _ E2) as [L1 L2]. unfold on_key in *. rewrite <- L1, <- L2. done.
Qed.

Lemma key_effect_app k ws1 ws2 rs1 rs2 ks ks1 ks2 :
  key_effect k ws1 rs1 ks ks1 -> key_effect k ws2 rs2 ks1 ks2 ->
  key_effect k (ws1 ++ ws2) (rs1 ++ rs2) ks ks2.
Proof.
  intros (L1 & E1 & R1) (L2 & E2 & R2). unfold key_effect.
  assert (on_key k (ws1 ++ ws2) = on_key k ws1 ++ on_key k ws2) as -> by apply filter_app.
  destruct (on_key_local k ws2 _ _ E1) as [HR HE].
  split; [rewrite !length_app; lia|]. split.
  - rewrite E2, HE. unfold exec_multi. by rewrite foldl_app.
  - rewrite zip_with_app by done. rewrite filter_app, fmap_app.
    assert (forall ws rs s, exec_replies ws s = Some rs ->
      exec_replies (ws ++ on_key k ws2) s = (rs ++.) <$> exec_replies (on_key k ws2) (exec_multi ws s)) as Happ.
    { induction ws as [|w ws IH]; intros rs s; simpl.
      - intros [= <-]. by destruct (exec_replies (on_key k ws2) s).
      - destruct (exec_w w s).1 as [n|]; [|done]. intros (rs' & Hrs & ->)%fmap_Some.
        rewrite (IH _ _ Hrs). change (exec_multi (w :: ws) s) with (exec_multi ws (exec_w w s).2).
        by destruct (exec_replies (on_key k ws2) (exec_multi ws (exec_w w s).2)). }
    rewrite (Happ _ _ _ R1). rewrite <- HR, R2. done.
Qed.

Section Pipes.
Context `{ScanOrder} (env : environment) (k : string).
Context (Hrely : forall ks ks', rely env ks ks' -> ks' !! k = ks !! k).

Lemma wp_pipe_failed e acc ws ks :
  wp env (pipe_from (E := redis_error) (Some e) acc ws) (fun out _ => forall rs, out <> Returned rs) ks.
Proof.
  revert e acc ks. induction ws as [|w ws IH]; intros e acc ks; cbn [pipe_from wp]; [done|].
  intros ks1 r ks2 _ _. destruct r; apply IH.
Qed.

Lemma wp_pipe_key_from acc ws ks :
  wp env (pipe_from (E := redis_error) None acc ws)
    (fun out ks' => forall rs, out = Returned rs ->
       exists rs', rs = reverse acc ++ rs' /\ key_effect k ws rs' ks ks') ks.
Proof.
  revert acc ks. induction ws as [|w ws IH]; intros acc ks; cbn [pipe_from wp].
  { intros rs [= <-]. exists []. by rewrite app_nil_r. }
  intros ks1 [n|e] ks2 Hr Hc.
  - assert ((exec_w w ks1).1 = Ok n /\ ks2 = (exec_w w ks1).2) as [Hn ->].
    { unfold contract in Hc. simpl in Hc. destruct (exec_w w ks1) as [r s]. simpl.
      by destruct Hc as [[<- ->]|[[e He] _]]. }
    eapply wp_mono; [apply IH|]. intros out ks' Hq rs ->. destruct (Hq rs eq_refl) as (rs' & -> & He).
    exists (n :: rs'). split; [by rewrite reverse_cons, <- app_assoc|].
    eapply key_effect_cons; [by apply Hrely|done|done].
  - eapply wp_mono; [apply wp_pipe_failed|]. intros out ks' Hq rs ->. by destruct (Hq rs).
Qed.

Lemma wp_pipe_key ws ks :
  wp env (pipe (E := redis_error) ws) (fun out ks' => forall rs, out = Returned rs -> key_effect k ws rs ks ks') ks.
Proof.
  eapply wp_mono; [apply wp_pipe_key_from|]. intros out ks' Hq rs ->.
  destruct (Hq rs eq_refl) as (rs' & -> & He). done.
Qed.
End Pipes.

(** ** Enqueueing *)

Lemma kept_replies_app ws1 ws2 rs1 rs2 :
  length rs1 = length ws1 -> kept_replies (ws1 ++ ws2) (rs1 ++ rs2) = kept_replies ws1 rs1 ++ kept_replies ws2 rs2.
Proof. intros Hl. unfold kept_replies. by rewrite zip_with_app, filter_app, fmap_app. Qed.

Definition count_added (rs : list N) : N := N.of_nat (length (filter (fun n => (0 < n)%N) rs)).

Lemma count_added_app rs1 rs2 : count_added (rs1 ++ rs2) = (count_added rs1 + count_added rs2)%N.
Proof. unfold count_added. rewrite filter_app, length_app. lia. Qed.

Definition meta_ttl_of (self : IdListSyncProducer) : N := N.max (sat_mul (p_interval_s self) 10) 60.
Definition all_cmds (self : IdListSyncProducer) (tasks : list (N * DerivedTask)) : list wcmd :=
  concat (task_cmds self (meta_ttl_of self) <$> tasks).

Section Enqueue.
Context `{ScanOrder} (self : IdListSyncProducer) (env : environment) (k : string).
Context (Hrely : forall ks ks', rely env ks ks' -> ks' !! k = ks !! k).

Lemma wp_enqueue_chunks chunks ks :
  wp env (enqueue_chunks self (meta_ttl_of self) chunks) (fun out ks' => forall n, out = Returned n ->
    exists rs, key_effect k (all_cmds self (concat chunks)) rs ks ks' /\
      n = count_added (kept_replies (all_cmds self (concat chunks)) rs)) ks.
Proof.
  revert ks. induction chunks as [|chunk chunks IH]; intros ks; cbn [enqueue_chunks].
  { intros n [= <-]. by exists []. }
  apply wp_bind. eapply wp_mono; [apply (wp_pipe_key env k Hrely)|]. intros [rs1| |] ks1 H1; [|done..].
  specialize (H1 rs1 eq_refl). apply wp_bind. eapply wp_mono; [apply IH|]. intros [m| |] ks2 H2; [|done..].
  destruct (H2 m eq_refl) as (rs2 & He & ->). intros n [= <-].
  exists (rs1 ++ rs2). unfold all_cmds in *. cbn [concat]. rewrite fmap_app, concat_app.
  split; [by eapply key_effect_app|].
  rewrite kept_replies_app by apply H1. by rewrite count_added_app.
Qed.

Lemma wp_enqueue_tasks tasks ks :
  wp env (enqueue_tasks self tasks) (fun out ks' => forall n, out = Returned n ->
    exists rs, key_effect k (all_cmds self tasks) rs ks ks' /\ n = count_added (kept_replies (all_cmds self tasks) rs)) ks.
Proof.
  destruct tasks as [|t tasks]; unfold enqueue_tasks; [intros n [= <-]; by exists []|].
  apply wp_bind. apply (wp_redis env CONN (fun s => s !! k = ks !! k)); [|done|].
  { intros s s1 Hs Hr. by rewrite (Hrely _ _ Hr). }
  intros [u|e] ks1 ks2 Hk Hc; [|done].
  assert (ks2 = ks1) as -> by (eapply contract_read; done).
  eapply wp_mono; [apply wp_enqueue_chunks|]. intros out ks' Hq n Hn.
  destruct (Hq n Hn) as (rs & (Hl & He & Hrs) & Hc'). exists rs.
  rewrite chunks_concat in Hl, He, Hrs, Hc' by (unfold CHUNK; lia). split; [|done].
  destruct (on_key_local k (all_cmds self (t :: tasks)) ks1 ks Hk) as [L1 L2].
  split; [done|]. by rewrite He, <- L2, <- L1.
Qed.
End Enqueue.

(** The commands of the tasks that concern one key. *)
Section OnKey.
Context (self : IdListSyncProducer).

Lemma on_key_all k ws : Forall (fun w => wcmd_key w = k) ws -> on_key k ws = ws.
Proof. unfold on_key. induction 1; [done|]. rewrite filter_cons. case_decide; [by f_equal|done]. Qed.
Lemma on_key_none k ws : Forall (fun w => wcmd_key w <> k) ws -> on_key k ws = [].
Proof. unfold on_key. induction 1; [done|]. rewrite filter_cons. by case_decide. Qed.
Lemma on_key_app k ws ws' : on_key k (ws ++ ws') = on_key k ws ++ on_key k ws'.
Proof. apply filter_app. Qed.

Definition meta_key_of (task : DerivedTask) : string :=
  task_meta_key (p_schema self) (task_skh task) (task_list task).

Lemma task_meta_cmds_key ttl task : Forall (fun w => wcmd_key w = meta_key_of task) (task_meta_cmds self ttl task).
Proof. unfold task_meta_cmds. apply Forall_app. split; [by apply Forall_fmap, Forall_true|by repeat constructor]. Qed.

Lemma meta_key_not_queue task : namespace_ok (task_skh task) -> meta_key_of task <> queue_key (p_schema self).
Proof. intros Hn. by apply (keys_differ (p_schema self) (KTaskMeta _ _) KQueue). Qed.

Lemma meta_key_inj task task' :
  namespace_ok (task_skh task) -> namespace_ok (task_skh task') ->
  meta_key_of task = meta_key_of task' -> task_key task = task_key task'.
Proof.
  intros H1 H2 He. apply (render_key_inj_id (p_schema self) (KTaskMeta _ _) (KTaskMeta _ _)) in He; [|done..].
  unfold task_key. congruence.
Qed.

Lemma on_key_queue tasks :
  Forall (fun t => namespace_ok (task_skh t.2)) tasks ->
  on_key (queue_key (p_schema self)) (all_cmds self tasks) = task_queue_cmd self <$> tasks.
Proof.
  unfold all_cmds. induction 1 as [|t tasks Ht Hall IH]; [done|]. rewrite !fmap_cons. cbn [concat].
  unfold task_cmds at 1. rewrite !on_key_app, IH. rewrite on_key_none.
  - rewrite on_key_all; [done|by repeat constructor].
  - eapply Forall_impl; [apply task_meta_cmds_key|]. intros w ->. by apply meta_key_not_queue.
Qed.

Lemma on_key_meta tasks score task :
  Forall (fun t => namespace_ok (task_skh t.2)) tasks -> NoDup (task_key ∘ snd <$> tasks) -> (score, task) ∈ tasks ->
  on_key (meta_key_of task) (all_cmds self tasks) = task_meta_cmds self (meta_ttl_of self) task.
Proof.
  intros Hns. unfold all_cmds. induction Hns as [|[s t] tasks Ht Hall IH]; intros Hnd Hin.
  { by apply elem_of_nil in Hin. }
  rewrite fmap_cons in Hnd. rewrite fmap_cons. apply NoDup_cons in Hnd as [Hn Hnd]. cbn [concat].
  unfold task_cmds at 1. rewrite !on_key_app.
  rewrite Forall_forall in Hall.
  assert (namespace_ok (task_skh task)) as Hnt.
  { apply elem_of_cons in Hin as [[= _ ->]|Hin]; [done|]. by apply (Hall _ Hin). }
  rewrite (on_key_none _ [_]), app_nil_r.
  2: { constructor; [|done]. intros E. symmetry in E. by apply meta_key_not_queue in E. }
  apply elem_of_cons in Hin as [[= -> ->]|Hin].
  - rewrite on_key_all by apply task_meta_cmds_key. rewrite on_key_none; [by rewrite app_nil_r|].
    apply Forall_concat, Forall_fmap, Forall_forall. intros [s' t'] Hin'. simpl.
    assert (meta_key_of t' <> meta_key_of t) as Hne.
    { intros E. apply Hn, list_elem_of_fmap. exists (s', t'). split; [|done]. simpl.
      symmetry. apply meta_key_inj; [by apply (Hall _ Hin')|done|done]. }
    unfold task_cmds. apply Forall_app. split.
    + eapply Forall_impl; [apply task_meta_cmds_key|]. by intros w ->.
    + constructor; [|done]. intros E. symmetry in E. by apply meta_key_not_queue in E.
  - rewrite (IH Hnd Hin). rewrite on_key_none; [done|].
    eapply Forall_impl; [apply task_meta_cmds_key|]. intros w -> E.
    apply meta_key_inj in E; [|done..]. apply Hn, list_elem_of_fmap. exists (score, task). split; [exact E|done].
Qed.
End OnKey.

(** ** What the hash and the queue hold afterwards *)

Definition hset_all (fvs : list (string * string)) (h : gmap string string) : gmap string string :=
  foldl (fun h fv => <[fv.1 := fv.2]> h) h fvs.

Lemma insert_not_empty (f v : string) (h : gmap string string) : <[f := v]> h <> ∅.
Proof. apply insert_non_empty. Qed.

Lemma as_hash_hset1 k f v ks h :
  as_hash ks k = Some h -> as_hash (exec_w (HSET k [(f, v)]) ks).2 k = Some (<[f := v]> h).
Proof.
  intros Hh. simpl. rewrite Hh. simpl. unfold put_hash, put. rewrite decide_False by apply insert_not_empty.
  unfold as_hash. by rewrite lookup_insert_eq.
Qed.

Lemma as_hash_hsets k fvs ks h :
  as_hash ks k = Some h ->
  as_hash (exec_multi ((fun fv => HSET k [fv]) <$> fvs) ks) k = Some (hset_all fvs h).
Proof.
  unfold exec_multi, hset_all. revert ks h. induction fvs as [|[f v] fvs IH]; intros ks h Hh; [done|].
  rewrite fmap_cons. cbn [foldl fst snd]. apply IH. by apply as_hash_hset1.
Qed.

Lemma as_hash_expire k t ks : (0 < t)%Z -> as_hash (expire k t ks) k = as_hash ks k.
Proof.
  intros Ht. unfold expire, as_hash. destruct (ks !! k) as [e|] eqn:E; [|by rewrite E].
  rewrite bool_decide_true by done. by rewrite lookup_insert_eq.
Qed.

(** The metadata of a task can be written and read back. *)
Definition task_encodable (task : DerivedTask) : Prop :=
  namespace_ok (task_skh task) /\
  (task_action task <> Remove ->
     exists meta, task_meta task = Some meta /\ is_u64 (meta_creation_time meta) /\ is_u64 (meta_size meta) /\
       meta_url meta <> EmptyString).

(** The worker reads back what the producer meant. *)
Definition decodes_to (h : gmap string string) (task : DerivedTask) : Prop :=
  exists tm, from_hash h = Ok tm /\
    (tm_op tm = OpRemove <-> task_action task = Remove) /\
    (task_action task <> Remove -> Some (as_idlist_metadata tm) = task_meta task).

Lemma meta_cmds_decode self ttl task ks h :
  (0 < as_i64 ttl)%Z -> task_encodable task -> as_hash ks (meta_key_of self task) = Some h ->
  exists h', as_hash (exec_multi (task_meta_cmds self ttl task) ks) (meta_key_of self task) = Some h' /\
    decodes_to h' task.
Proof.
  intros Ht [_ Henc] Hh. unfold task_meta_cmds. set (fvs := match task_action task with FullLoad | _ => _ end).
  eexists. split.
  { unfold exec_multi. rewrite foldl_app. cbn [foldl]. change (exec_w (EXPIRE ?k ?t) ?s).2 with (expire k t s).
    rewrite as_hash_expire by done. apply (as_hash_hsets _ fvs). exact Hh. }
  unfold decodes_to. destruct (task_action task) eqn:Ea.
  3: { unfold fvs, hset_all, from_hash. cbn [foldl fst snd]. rewrite lookup_insert_eq. eexists.
       split; [reflexivity|]. split; [done|]. by intros []. }
  all: destruct Henc as (m & Hm & Hc & Hs & Hu); [congruence|];
    unfold fvs, hset_all, from_hash, parse_number; rewrite Hm; cbn [foldl fst snd].
  all: repeat (rewrite lookup_insert_eq || rewrite lookup_insert_ne by done).
  all: cbn; rewrite !parse_u64_show by done; cbn; unfold str_empty; rewrite bool_decide_false by done; cbn.
  all: eexists; split; [reflexivity|]; split; [done|]; intros _; by destruct m.
Qed.

Lemma as_hash_ext ks ks' k : ks !! k = ks' !! k -> as_hash ks k = as_hash ks' k.
Proof. unfold as_hash. by intros ->. Qed.

Lemma meta_cmds_first self ttl task ks rs :
  exec_replies (task_meta_cmds self ttl task) ks = Some rs -> is_Some (as_hash ks (meta_key_of self task)).
Proof.
  unfold task_meta_cmds.
  assert (exists fv fvs, match task_action task, task_meta task with
    | Remove, _ => [(task_meta_fields.OP, TASK_OP_REMOVE)]
    | _, Some meta =>
        [(task_meta_fields.OP, TASK_OP_LOAD); (task_meta_fields.URL, meta_url meta);
         (task_meta_fields.FILE_ID, meta_file_id meta);
         (task_meta_fields.CREATION_TIME, show_u64 (meta_creation_time meta));
         (task_meta_fields.SIZE, show_u64 (meta_size meta))]
    | _, None => [(task_meta_fields.OP, TASK_OP_LOAD)]
    end = fv :: fvs) as (fv & fvs & ->) by (destruct (task_action task), (task_meta task); eauto).
  rewrite fmap_cons. cbn [app exec_replies exec_w].
  fold (meta_key_of self task). destruct (as_hash ks (meta_key_of self task)); [done|]. by intros [=].
Qed.

Lemma meta_ttl_pos self : (p_interval_s self * 10 <= i64_max)%N -> (0 < as_i64 (meta_ttl_of self))%Z.
Proof.
  intros Hi. unfold meta_ttl_of, sat_mul, as_i64. rewrite N.min_l by (unfold i64_max, u64_max in *; lia).
  rewrite bool_decide_true by (unfold i64_max in *; lia). lia.
Qed.

(** When a tick reports its tasks enqueued, the metadata hash of every task is
    what the worker decodes as that task: a removal, or a load of exactly the planned
    file, whatever an earlier tick had left in the hash. Other clients may do anything
    to other keys meanwhile, and commands may have failed for the whole call to fail. *)
Theorem enqueue_metadata `{ScanOrder} self env tasks score task ks n ks' :
  (p_interval_s self * 10 <= i64_max)%N ->
  Forall (fun t => task_encodable t.2) tasks -> NoDup (task_key ∘ snd <$> tasks) -> (score, task) ∈ tasks ->
  (forall ks ks', rely env ks ks' -> ks' !! meta_key_of self task = ks !! meta_key_of self task) ->
  runs env (enqueue_tasks self tasks) ks (Returned n) ks' ->
  exists h, as_hash ks' (meta_key_of self task) = Some h /\ decodes_to h task.
Proof.
  intros Hi Henc Hnd Hin Hrely Hrun.
  destruct (wp_adequate _ _ _ _ _ _ (wp_enqueue_tasks self env _ Hrely tasks ks) Hrun n eq_refl)
    as (rs & (_ & He & Hr) & _).
  assert (Forall (fun t => namespace_ok (task_skh t.2)) tasks) as Hns
    by (eapply Forall_impl; [exact Henc|]; by intros t [? _]).
  rewrite (on_key_meta self tasks score task Hns Hnd Hin) in He, Hr.
  rewrite Forall_forall in Henc. specialize (Henc _ Hin).
  apply meta_cmds_first in Hr as [h Hh].
  destruct (meta_cmds_decode self (meta_ttl_of self) task ks h (meta_ttl_pos _ Hi) Henc Hh) as (h' & Hh' & Hd).
  exists h'. split; [|done]. by rewrite (as_hash_ext _ _ _ He).
Qed.

(** *** The queue *)

Lemma as_zset_zadd q score m ks z :
  as_zset ks q = Some z ->
  (exec_w (ZADD_NX q score m) ks).1 = Ok (bool_N (bool_decide (z !! m = None))) /\
  as_zset (exec_w (ZADD_NX q score m) ks).2 q =
    Some (match z !! m with Some _ => z | None => <[m := score]> z end).
Proof.
  intros Hz. simpl. rewrite Hz. destruct (z !! m) eqn:E; simpl; [by rewrite Hz|]. split; [done|].
  unfold put_zset, put. rewrite decide_False by apply insert_non_empty.
  unfold as_zset. by rewrite lookup_insert_eq.
Qed.

Definition member_of_task (t : N * DerivedTask) : string := encode_task (task_skh t.2) (task_list t.2).

Lemma filter_ext_in {A} (P Q : A -> Prop) `{forall x, Decision (P x)} `{forall x, Decision (Q x)} (l : list A) :
  (forall x, x ∈ l -> P x <-> Q x) -> filter P l = filter Q l.
Proof.
  induction l as [|x l IH]; intros Hiff; [done|]. rewrite !filter_cons.
  rewrite IH by (intros; apply Hiff; by right). specialize (Hiff x ltac:(left)).
  repeat case_decide; naive_solver.
Qed.

Lemma zadds_effect self tasks ks z rs :
  NoDup (member_of_task <$> tasks) -> as_zset ks (queue_key (p_schema self)) = Some z ->
  exec_replies (task_queue_cmd self <$> tasks) ks = Some rs ->
  as_zset (exec_multi (task_queue_cmd self <$> tasks) ks) (queue_key (p_schema self)) =
    Some (z ∪ list_to_map ((fun t => (member_of_task t, t.1)) <$> tasks)) /\
  count_added rs = N.of_nat (length (filter (fun t => z !! member_of_task t = None) tasks)).
Proof.
  revert ks z rs. induction tasks as [|t tasks IH]; intros ks z rs Hnd Hz.
  { intros [= <-]. cbn [fmap list_fmap list_to_map foldr]. by rewrite (right_id_L ∅ (∪)). }
  rewrite fmap_cons in Hnd. apply NoDup_cons in Hnd as [Hn Hnd].
  rewrite !fmap_cons. cbn [exec_replies].
  destruct (as_zset_zadd (queue_key (p_schema self)) t.1 (member_of_task t) ks z Hz) as [Hr Hz'].
  change (ZADD_NX (queue_key (p_schema self)) t.1 (member_of_task t)) with (task_queue_cmd self t) in Hr, Hz'.
  rewrite Hr. intros (rs' & Hrs' & ->)%fmap_Some.
  destruct (IH _ _ _ Hnd Hz' Hrs') as [Hm Hc].
  change (exec_multi (task_queue_cmd self t :: (task_queue_cmd self <$> tasks)) ks)
    with (exec_multi (task_queue_cmd self <$> tasks) (exec_w (task_queue_cmd self t) ks).2).
  rewrite Hm. rewrite list_to_map_cons, filter_cons. clear Hm Hr Hz' Hrs' IH.
  assert ((list_to_map ((fun t => (member_of_task t, t.1)) <$> tasks) : gmap string N)
            !! member_of_task t = None) as Hfresh.
  { apply not_elem_of_list_to_map_1. rewrite <- list_fmap_compose. exact Hn. }
  split.
  - f_equal. destruct (z !! member_of_task t) as [s|] eqn:E.
    + apply map_eq. intros i. rewrite !lookup_union. destruct (decide (member_of_task t = i)) as [<-|Hne].
      * rewrite E, Hfresh, lookup_insert_eq. done.
      * by rewrite lookup_insert_ne.
    + rewrite <- insert_union_l. by rewrite <- insert_union_r.
  - change (bool_N ?b :: rs') with ([bool_N b] ++ rs'). rewrite count_added_app, Hc.
    assert (filter (fun t0 => match z !! member_of_task t with Some _ => z | None => <[member_of_task t:=t.1]> z end
              !! member_of_task t0 = None) tasks = filter (fun t0 => z !! member_of_task t0 = None) tasks) as ->.
    { apply filter_ext_in. intros t' Hin. destruct (z !! member_of_task t); [done|].
      rewrite lookup_insert_ne; [done|]. intros E. apply Hn. rewrite E. by apply list_elem_of_fmap_2. }
    destruct (z !! member_of_task t); simpl; unfold count_added; simpl; lia.
Qed.

Lemma member_of_task_inj tasks :
  Forall (fun t => namespace_ok (task_skh t.2)) tasks -> NoDup (task_key ∘ snd <$> tasks) ->
  NoDup (member_of_task <$> tasks).
Proof.
  intros Hns Hnd. induction Hns as [|t tasks Ht Hall IH]; [constructor|].
  rewrite fmap_cons in *. apply NoDup_cons in Hnd as [Hn Hnd]. apply NoDup_cons. split; [|by apply IH].
  intros (t' & Heq & Hin)%list_elem_of_fmap. apply Hn, list_elem_of_fmap. exists t'. split; [|done].
  rewrite Forall_forall in Hall. specialize (Hall _ Hin). unfold member_of_task in Heq.
  apply (f_equal decode_task) in Heq. rewrite !decode_encode_id in Heq by done.
  unfold compose, task_key. congruence.
Qed.

Lemma kept_replies_queue self tasks rs :
  Forall (fun t => namespace_ok (task_skh t.2)) tasks ->
  kept_replies (all_cmds self tasks) rs =
  (filter (fun wr => wcmd_key wr.1 = queue_key (p_schema self)) (zip (all_cmds self tasks) rs)).*2.
Proof.
  intros Hns. unfold kept_replies. f_equal. apply filter_ext_in. intros [w r] Hin. simpl.
  assert (w ∈ all_cmds self tasks) as Hw by (by eapply elem_of_zip_l).
  unfold all_cmds in Hw. apply list_elem_of_In, in_concat in Hw as (ws & Hws & Hw).
  apply list_elem_of_In in Hws, Hw. apply list_elem_of_fmap in Hws as (t & -> & Ht).
  rewrite Forall_forall in Hns. specialize (Hns _ Ht). unfold task_cmds in Hw.
  apply elem_of_app in Hw as [Hw|Hw%list_elem_of_singleton]; [|by subst].
  pose proof (task_meta_cmds_key self (meta_ttl_of self) t.2) as Hk. rewrite Forall_forall in Hk.
  rewrite (Hk _ Hw). split; [|by intros ?%meta_key_not_queue].
  unfold task_meta_cmds in Hw. apply elem_of_app in Hw as [Hw|Hw].
  - by apply list_elem_of_fmap in Hw as (fv & -> & _).
  - by apply list_elem_of_singleton in Hw as ->.
Qed.

(** Enqueueing adds exactly the tasks that were not waiting yet, each with its own
    score; tasks already waiting keep the place they had, nothing is dropped, and the
    number reported is the number added. *)
Theorem enqueue_queue `{ScanOrder} self env tasks ks n ks' z :
  Forall (fun t => namespace_ok (task_skh t.2)) tasks -> NoDup (task_key ∘ snd <$> tasks) ->
  (forall ks ks', rely env ks ks' -> ks' !! queue_key (p_schema self) = ks !! queue_key (p_schema self)) ->
  as_zset ks (queue_key (p_schema self)) = Some z ->
  runs env (enqueue_tasks self tasks) ks (Returned n) ks' ->
  as_zset ks' (queue_key (p_schema self)) =
    Some (z ∪ list_to_map ((fun t => (member_of_task t, t.1)) <$> tasks)) /\
  n = N.of_nat (length (filter (fun t => z !! member_of_task t = None) tasks)).
Proof.
  intros Hns Hnd Hrely Hz Hrun.
  destruct (wp_adequate _ _ _ _ _ _ (wp_enqueue_tasks self env _ Hrely tasks ks) Hrun n eq_refl)
    as (rs & (_ & He & Hr) & ->).
  rewrite (on_key_queue self tasks Hns) in He, Hr. rewrite (kept_replies_queue self tasks rs Hns).
  destruct (zadds_effect self tasks ks z _ (member_of_task_inj _ Hns Hnd) Hz Hr) as [Hm Hc].
  split; [|done]. rewrite <- Hm. unfold as_zset. by rewrite He.
Qed.

Module EnqueueExample.
Import ProducerExample.
Definition tasks : list (N * DerivedTask) := order_and_dedupe_tasks [remove_gone; load_l; load_l].
Definition stale : gmap string string := {[task_meta_fields.OP := TASK_OP_REMOVE; task_meta_fields.SIZE := "9"]}.
Definition waiting : gmap string N := {[encode_task "aaaa" "gone" := 7%N]}.
Definition before : keyspace :=
  {[meta_key_of producer load_l := {| val := VHash stale; ttl := None |};
    queue_key (p_schema producer) := {| val := VZset waiting; ttl := None |}]}.
Definition after : keyspace := (eval (E := redis_error) (fun _ => Err HttpError) (enqueue_tasks producer tasks) before).2.

Lemma enqueue_run : runs quiet (enqueue_tasks producer tasks) before (Returned 1%N) after.
Proof.
  replace (Returned 1%N) with (eval (E := redis_error) (fun _ => Err HttpError) (enqueue_tasks producer tasks) before).1
    by (vm_compute; reflexivity).
  apply eval_runs; done.
Qed.

Lemma tasks_distinct : NoDup (task_key ∘ snd <$> tasks).
Proof. refine (bool_decide_unpack _ _). vm_compute. exact I. Qed.
Lemma namespace_aaaa : namespace_ok "aaaa".
Proof. by split. Qed.
Lemma tasks_eq : tasks = [(0%N, load_l); ((2 * CLASS_SCORE_BASE)%N, remove_gone)].
Proof. vm_compute. reflexivity. Qed.
End EnqueueExample.

Lemma enqueue_metadata_witness :
  exists h, as_hash EnqueueExample.after (meta_key_of ProducerExample.producer ProducerExample.load_l) = Some h /\
    decodes_to h ProducerExample.load_l.
Proof.
  apply (enqueue_metadata ProducerExample.producer ProducerExample.quiet EnqueueExample.tasks 0%N
           ProducerExample.load_l EnqueueExample.before 1%N EnqueueExample.after).
  - vm_compute. discriminate.
  - rewrite EnqueueExample.tasks_eq. repeat constructor; try apply EnqueueExample.namespace_aaaa.
    + intros _. eexists. split; [reflexivity|]. split_and!; vm_compute; discriminate.
    + by intros [].
  - apply EnqueueExample.tasks_distinct.
  - rewrite EnqueueExample.tasks_eq. left.
  - by intros ks1 ks2 ->.
  - apply EnqueueExample.enqueue_run.
Defined.

Lemma enqueue_queue_witness :
  as_zset EnqueueExample.after (queue_key (p_schema ProducerExample.producer)) =
    Some (EnqueueExample.waiting ∪ list_to_map ((fun t => (member_of_task t, t.1)) <$> EnqueueExample.tasks)).
Proof.
  apply (enqueue_queue ProducerExample.producer ProducerExample.quiet EnqueueExample.tasks
           EnqueueExample.before 1%N EnqueueExample.after).
  - rewrite EnqueueExample.tasks_eq. repeat constructor; apply EnqueueExample.namespace_aaaa.
  - apply EnqueueExample.tasks_distinct.
  - by intros ks1 ks2 ->.
  - vm_compute. reflexivity.
  - apply EnqueueExample.enqueue_run.
Defined.

(** ** The producer lock *)

(** While another pod holds the producer lock, a tick derives and enqueues nothing:
    it is skipped or fails, and every key the environment leaves alone is unchanged. *)
Theorem producer_skips `{Digest} `{HashOrder} `{ScanOrder} self env namespaces h ks out ks' :
  (forall ks ks', rely env ks ks' -> forall k, ks' !! k = ks !! k) ->
  held ks (producer_lock_key (p_schema self)) h ->
  runs env (producer_run_once self namespaces) ks out ks' ->
  (out = Returned Skipped \/ exists e, out = Failed e) /\ ks' = ks.
Proof.
  intros Hrely Hheld Hrun.
  refine (wp_adequate env _ (fun out ks' =>
    (out = Returned Skipped \/ exists e, out = Failed e) /\ ks' = ks) ks out ks' _ Hrun).
  clear Hrun out ks'. unfold producer_run_once, try_acquire.
  assert (forall R (c : cmd R) (Q : outcome redis_error R -> keyspace -> Prop),
    (forall r ks2, contract c ks r ks2 ->
       match r with Ok a => Q (Returned a) ks2 | Err e => Q (Failed (from_redis e)) ks2 end) ->
    wp env (redis c) Q ks) as Hstep.
  { intros R c Q HQ. apply (wp_redis env c (fun s => s = ks)); [|done|].
    - intros s s1 -> Hr. apply map_eq. intros k. by apply Hrely.
    - intros r s1 s2 -> Hc. by apply HQ. }
  apply wp_bind, wp_bind. apply Hstep. intros [u|e] ks2 Hc.
  - assert (ks2 = ks) as -> by (eapply contract_read; done). apply Hstep. intros [b|e] ks3 Hc3.
    + destruct (set_nx_held _ _ _ _ _ _ _ Hc3 Hheld) as [-> Hb]. destruct b; [done|]. simpl. auto.
    + destruct (set_nx_held _ _ _ _ _ _ _ Hc3 Hheld) as [-> _]. eauto.
  - assert (ks2 = ks) as -> by (eapply contract_read; done). eauto.
Qed.

Lemma producer_skips_witness :
  let ks : keyspace :=
    {[producer_lock_key (p_schema ProducerExample.producer) := {| val := VStr "other"; ttl := Some 60%N |}]} in
  let run := eval (fun _ => Err HttpError) (producer_run_once ProducerExample.producer (namespaces_new ["k1"])) ks in
  run.1 = Returned Skipped /\ run.2 = ks.
Proof.
  intros ks run. split; [vm_compute; reflexivity|].
  apply (producer_skips ProducerExample.producer ProducerExample.quiet (namespaces_new ["k1"]) "other" ks run.1 run.2).
  - by intros ks1 ks2 -> k.
  - eexists. unfold ks. apply lookup_singleton_eq.
  - apply eval_runs; done.
Defined.
