(* ===== verification/Membership.v ===== *)
(** * Membership: which lists an identifier belongs to

    Models [src/src/datastore/idlist_membership/redis_membership.rs] and its
    [forward.rs]: the two ways a lookup is answered, through the reverse index and the
    cached token dictionary or through the forward sets of the lists the key can see,
    and the refreshes of that dictionary. Metrics and the spawned timers are left out;
    a timeout may strike any read, which [with_timeout] leaves to the environment. *)
From S2P Require Import Prelude Schema Effects Dict WorkerCore ListView.

Definition DEFAULT_IDLIST_REDIS_POOL_SIZE : N := 32.
Definition DEFAULT_IDLIST_FETCH_TIMEOUT_MS : N := 50.
Definition DEFAULT_IDLIST_DICT_REFRESH_S : N := 60.
Definition UNKNOWN_TOKEN_RETRY_S : N := 30.
Definition UNKNOWN_TOKEN_CACHE_SIZE : nat := 256.

(** ** Configuration; durations in milliseconds and seconds *)

Record IdListMembershipConfig := {
  mc_enable_reverse_index : bool;
  pool_size : N;
  read_uri : option string;
  fetch_timeout_ms : N;
  dict_refresh_interval_s : N;
}.
Definition IdListMembershipConfig_default : IdListMembershipConfig := {|
  mc_enable_reverse_index := true; pool_size := DEFAULT_IDLIST_REDIS_POOL_SIZE; read_uri := None;
  fetch_timeout_ms := DEFAULT_IDLIST_FETCH_TIMEOUT_MS;
  dict_refresh_interval_s := DEFAULT_IDLIST_DICT_REFRESH_S |}.

Definition membership_config_from_env (env : string -> env_var) : result string IdListMembershipConfig :=
  let defaults := IdListMembershipConfig_default in
  read_uri ←
    match env "IDLIST_REDIS_READ_URI" with
    | EnvOk value => Ok (if str_empty (trim value) then None else Some value)
    | NotPresent => Ok None
    | NotUnicode error => Err ("failed reading IDLIST_REDIS_READ_URI: " +:+ error)
    end;
  reverse ← reverse_index_enabled_from_env env;
  pool ← env_u32 env "IDLIST_REDIS_POOL_SIZE" (pool_size defaults);
  timeout ← env_u64 env "IDLIST_FETCH_TIMEOUT_MS" (fetch_timeout_ms defaults);
  refresh ← env_u64 env "IDLIST_DICT_REFRESH_IN_S" (dict_refresh_interval_s defaults);
  if bool_decide (pool = 0%N) || bool_decide (timeout = 0%N) || bool_decide (refresh = 0%N)
  then Err ("IDLIST_REDIS_POOL_SIZE, IDLIST_FETCH_TIMEOUT_MS, and IDLIST_DICT_REFRESH_IN_S "
            +:+ "must be greater than zero")
  else Ok {| mc_enable_reverse_index := reverse; pool_size := pool; read_uri := read_uri;
             fetch_timeout_ms := timeout; dict_refresh_interval_s := refresh |}.

(** ** Results and errors *)

Abbreviation ResolvedMemberships := (gmap string (gset string)).

Inductive IdListMembershipError := MeRedis (error : redis_error) | MeTimeout (ms : N).
#[export] Instance from_redis_membership : FromRedis IdListMembershipError := MeRedis.

(** ** The fetcher: fixed parts and the shared, changing ones *)

Record RedisIdListMembershipFetcher := {
  f_enable_reverse_index : bool;
  f_schema : IdListKeySchema;
  f_skh : string;
  f_fetch_timeout_ms : N;
}.
Record fetcher_state := {
  dict_cache : DictSnapshot;
  unknown_tokens : gmap N N;
}.

(** [tokio::time::timeout]: the reads are dropped at some point, or complete. *)
Definition with_timeout {A} (ms : N) (read : prog IdListMembershipError A) : prog IdListMembershipError A :=
  Lost (fun expired => if expired then Throw (MeTimeout ms) else read).

(** The first occurrence of each identifier, in order. *)
Fixpoint dedupe_from (seen : gset string) (ids : list string) : list string :=
  match ids with
  | [] => []
  | id :: ids' => if decide (id ∈ seen) then dedupe_from seen ids' else id :: dedupe_from ({[id]} ∪ seen) ids'
  end.
Definition dedupe_lookup_ids (ids : list string) : list string := dedupe_from ∅ ids.

Definition empty_memberships (ids : list string) : ResolvedMemberships := list_to_map ((., ∅) <$> ids).

(** [Vec<u64>] from a reply. *)
Fixpoint parse_tokens (tokens : list string) : option (list N) :=
  match tokens with
  | [] => Some []
  | s :: tokens' => t ← parse_u64 s; ts ← parse_tokens tokens'; Some (t :: ts)
  end.
Fixpoint parse_token_sets (replies : list (list string)) : option (list (list N)) :=
  match replies with
  | [] => Some []
  | r :: replies' => t ← parse_tokens r; ts ← parse_token_sets replies'; Some (t :: ts)
  end.

(** The names of the known tokens, and the unknown ones in the order they are met. *)
Definition names_of (dictionary : DictSnapshot) (tokens : list N) : gset string :=
  list_to_set (omap (fun token => token_to_name dictionary !! token) tokens).
Definition unknown_of (dictionary : DictSnapshot) (tokens : list N) : list N :=
  filter (fun token => token_to_name dictionary !! token = None) tokens.

Section Fetch.
Context (self : RedisIdListMembershipFetcher).

(** Also returns the tokens [schedule_targeted_refresh] is called for. The dictionary
    is the one cached when the reads are done. *)
Definition fetch (dictionary : DictSnapshot) (lookup_ids : list string)
    : prog IdListMembershipError (ResolvedMemberships * list N) :=
  let lookup_ids := dedupe_lookup_ids lookup_ids in
  if bool_decide (lookup_ids = []) then Ret (empty_memberships lookup_ids, [])
  else if negb (f_enable_reverse_index self) then Ret (empty_memberships lookup_ids, [])
  else
    token_sets ← with_timeout (f_fetch_timeout_ms self)
      (_ ← get_conn;
       replies ← pipe_reads ((fun id => SMEMBERS (member_key (f_schema self) (f_skh self) id)) <$> lookup_ids);
       match parse_token_sets replies with
       | Some sets => Ret sets
       | None => Throw (MeRedis (TypeError "not an integer"))
       end);
    Ret (list_to_map (zip lookup_ids (names_of dictionary <$> token_sets)),
         concat (unknown_of dictionary <$> token_sets)).

(** The generation a forward lookup reads: the committed one, else the loading one. *)
Definition non_empty (v : option string) : option string :=
  v ← v; if str_empty v then None else Some v.
Definition serving_version (versions : list (option string)) : option string :=
  match versions with
  | [version; loading] =>
      match non_empty version with Some v => Some v | None => non_empty loading end
  | _ => None
  end.

(** The pairs of list and generation that are queried. *)
Definition queried (lists : list string) (versions : list (list (option string))) : list (string * string) :=
  omap (fun '(list, vs) => (list,.) <$> serving_version vs) (zip lists versions).

Definition add_membership (list : string) (result : ResolvedMemberships) (hit : string * bool)
    : ResolvedMemberships :=
  let '(id, member) := hit in
  if (member : bool) then alter (fun names => {[list]} ∪ names) id result else result.
Definition add_memberships (lookup_ids : Datatypes.list string) (result : ResolvedMemberships)
    (reply : string * Datatypes.list bool) : ResolvedMemberships :=
  let '(list, memberships) := reply in
  foldl (add_membership list) result (zip lookup_ids memberships).

Definition fetch_forward (lookup_ids visible : Datatypes.list string)
    : prog IdListMembershipError ResolvedMemberships :=
  if bool_decide (lookup_ids = []) || bool_decide (visible = []) then Ret (empty_memberships lookup_ids)
  else
    with_timeout (f_fetch_timeout_ms self)
      (_ ← get_conn;
       versions ← pipe_reads ((fun list => HMGET (state_key (f_schema self) (f_skh self) list)
                                 [state_fields.VERSION; state_fields.LOADING_VERSION]) <$> visible);
       let queried := queried visible versions in
       let result := empty_memberships lookup_ids in
       if bool_decide (queried = []) then Ret result
       else
         replies ← pipe_reads ((fun '(list, version) =>
           SMISMEMBER (fwd_key (f_schema self) (f_skh self) list version) lookup_ids) <$> queried);
         Ret (foldl (add_memberships lookup_ids) result (zip queried.*1 replies))).

(** [visible] lists the names in the order the hash set is iterated. *)
Definition fetch_visible (dictionary : DictSnapshot) (lookup_ids visible : Datatypes.list string)
    : prog IdListMembershipError ResolvedMemberships :=
  if f_enable_reverse_index self then
    '(memberships, _) ← fetch dictionary lookup_ids; Ret memberships
  else fetch_forward (dedupe_lookup_ids lookup_ids) visible.

(** *** Dictionary refreshes *)

Definition load_dictionary : prog IdListMembershipError DictSnapshot :=
  with_timeout (f_fetch_timeout_ms self) (snapshot (f_schema self) (f_skh self)).

(** The result of the load, applied to the state at the time it is stored. *)
Definition refresh_dictionary_now : prog IdListMembershipError (fetcher_state -> fetcher_state) :=
  snapshot ← load_dictionary;
  Ret (fun st => {| dict_cache := snapshot; unknown_tokens := unknown_tokens st |}).

(** Instants are seconds; [true] when a targeted refresh is spawned. *)
Definition recently (now last_attempt : N) : bool := bool_decide (now - last_attempt < UNKNOWN_TOKEN_RETRY_S)%N.
Definition schedule_targeted_refresh (now token : N) (st : fetcher_state) : fetcher_state * bool :=
  if match unknown_tokens st !! token with Some last_attempt => recently now last_attempt | None => false end
  then (st, false)
  else
    let unknown := <[token := now]> (unknown_tokens st) in
    let unknown :=
      if bool_decide (UNKNOWN_TOKEN_CACHE_SIZE < size unknown)
      then filter (fun tl => recently now tl.2 = true) unknown else unknown in
    ({| dict_cache := dict_cache st; unknown_tokens := unknown |}, true).

(** The spawned refresh of one token. *)
Definition targeted_refresh (token : N) : prog IdListMembershipError (fetcher_state -> fetcher_state) :=
  result ← attempt (E := IdListMembershipError) (with_timeout (f_fetch_timeout_ms self)
    (_ ← get_conn; redis (HGET (dict_key (f_schema self) (f_skh self)) (token_field token))));
  Ret (fun st =>
    match result with
    | Ok (Some name) =>
        {| dict_cache := {| name_to_token := <[name := token]> (name_to_token (dict_cache st));
                            token_to_name := <[token := name]> (token_to_name (dict_cache st)) |};
           unknown_tokens := delete token (unknown_tokens st) |}
    | Ok None => st
    | Err _ => {| dict_cache := dict_cache st; unknown_tokens := delete token (unknown_tokens st) |}
    end).
End Fetch.

(** ** Lemmas: identifiers and results *)

Lemma elem_of_dedupe_from seen ids x : x ∈ dedupe_from seen ids <-> x ∈ ids /\ x ∉ seen.
Proof.
  revert seen. induction ids as [|id ids IH]; intros seen; cbn [dedupe_from].
  { rewrite elem_of_nil. naive_solver. }
  case_decide; rewrite ?elem_of_cons, IH; destruct (decide (x = id)); set_solver.
Qed.

Lemma dedupe_from_NoDup seen ids : NoDup (dedupe_from seen ids).
Proof.
  revert seen. induction ids as [|id ids IH]; intros seen; cbn [dedupe_from]; [constructor|].
  case_decide; [done|]. constructor; [|done]. rewrite elem_of_dedupe_from. set_solver.
Qed.

Lemma elem_of_dedupe ids x : x ∈ dedupe_lookup_ids ids <-> x ∈ ids.
Proof. unfold dedupe_lookup_ids. rewrite elem_of_dedupe_from. set_solver. Qed.

Lemma empty_memberships_lookup ids id :
  empty_memberships ids !! id = if decide (id ∈ ids) then Some ∅ else None.
Proof.
  unfold empty_memberships. induction ids as [|x ids IH].
  { rewrite decide_False by apply not_elem_of_nil. done. }
  rewrite fmap_cons, list_to_map_cons. destruct (decide (x = id)) as [->|Hne].
  - rewrite lookup_insert_eq, decide_True by (by left). done.
  - rewrite lookup_insert_ne, IH by done. repeat case_decide; set_solver.
Qed.

(** [name] is among the lists of [id]. *)
Definition listed (r : ResolvedMemberships) (id name : string) : Prop :=
  exists names, r !! id = Some names /\ name ∈ names.

Lemma add_membership_listed l r hit id name :
  (is_Some (add_membership l r hit !! id) <-> is_Some (r !! id)) /\
  (is_Some (r !! id) ->
   listed (add_membership l r hit) id name <-> listed r id name \/ (name = l /\ hit = (id, true))).
Proof.
  destruct hit as [x []]; unfold listed; simpl; [|naive_solver].
  destruct (decide (x = id)) as [->|Hne].
  - rewrite lookup_alter_eq. destruct (r !! id) as [ns|]; simpl; [|naive_solver].
    split; [naive_solver|]. intros _. split.
    + intros (ns' & [= <-] & Hin). apply elem_of_union in Hin. set_solver.
    + intros [(ns' & [= <-] & Hin)|[-> _]]; eexists; split; set_solver.
  - rewrite lookup_alter_ne by done. naive_solver.
Qed.

Lemma foldl_add_membership l hits r id name :
  (is_Some (foldl (add_membership l) r hits !! id) <-> is_Some (r !! id)) /\
  (is_Some (r !! id) ->
   listed (foldl (add_membership l) r hits) id name <-> listed r id name \/ (name = l /\ (id, true) ∈ hits)).
Proof.
  revert r. induction hits as [|hit hits IH]; intros r; cbn [foldl].
  { rewrite elem_of_nil. naive_solver. }
  destruct (IH (add_membership l r hit)) as [H1 H2]. destruct (add_membership_listed l r hit id name) as [H3 H4].
  split; [by rewrite H1|]. intros Hs. rewrite H2 by (by apply H3). rewrite H4 by done.
  rewrite elem_of_cons. naive_solver.
Qed.

Lemma foldl_add_memberships ids replies r id name :
  (is_Some (foldl (add_memberships ids) r replies !! id) <-> is_Some (r !! id)) /\
  (is_Some (r !! id) ->
   listed (foldl (add_memberships ids) r replies) id name <->
   listed r id name \/ exists bits, (name, bits) ∈ replies /\ (id, true) ∈ zip ids bits).
Proof.
  revert r. induction replies as [|[l bits] replies IH]; intros r; cbn [foldl add_memberships].
  { setoid_rewrite elem_of_nil. naive_solver. }
  destruct (IH (foldl (add_membership l) r (zip ids bits))) as [H1 H2].
  destruct (foldl_add_membership l (zip ids bits) r id name) as [H3 H4].
  split; [by rewrite H1|]. intros Hs. rewrite H2 by (by apply H3). rewrite H4 by done.
  setoid_rewrite elem_of_cons. naive_solver.
Qed.

(** ** Lemmas: pipelines of reads *)

Section Reads.
Context `{ScanOrder} (env : environment) (P : keyspace -> Prop) (HP : stable env P).

Lemma wp_reads_failed {R} e acc (cs : list (cmd R)) ks :
  wp env (pipe_reads_from (E := IdListMembershipError) (Some e) acc cs) (fun out _ => forall rs, out <> Returned rs) ks.
Proof.
  revert e acc ks. induction cs as [|c cs IH]; intros e acc ks; cbn [pipe_reads_from wp]; [done|].
  intros ks1 r ks2 _ _. destruct r; apply IH.
Qed.

(** Each reply is what its command reads in some state that satisfies [P]. *)
Lemma wp_pipe_reads {X R} (f : X -> cmd R) (V : X -> R -> Prop) (xs : list X) ks :
  Forall (fun x => cmd_keys (f x) = [] /\ forall ks1 r ks2, P ks1 -> contract (f x) ks1 (Ok r) ks2 -> V x r) xs ->
  P ks ->
  wp env (pipe_reads (E := IdListMembershipError) (f <$> xs))
    (fun out ks' => forall rs, out = Returned rs -> P ks' /\ Forall2 V xs rs) ks.
Proof.
  intros Hxs HPks. unfold pipe_reads.
  assert (forall acc ks, P ks -> wp env (pipe_reads_from (E := IdListMembershipError) None acc (f <$> xs))
    (fun out ks' => forall rs, out = Returned rs ->
       P ks' /\ exists rs', rs = reverse acc ++ rs' /\ Forall2 V xs rs') ks) as Hgen.
  { clear ks HPks. induction Hxs as [|x xs [Hk Hc] Hall IH]; intros acc ks Hks.
    { intros rs [= <-]. split; [done|]. exists []. split; [by rewrite app_nil_r|constructor]. }
    rewrite fmap_cons. cbn [pipe_reads_from wp]. intros ks1 [a|e] ks2 Hr Hcon.
    - assert (ks2 = ks1) as -> by (by eapply contract_read).
      assert (P ks1) as HP1 by (by eapply HP).
      eapply wp_mono; [by apply IH|]. intros out ks' Hq rs ->. destruct (Hq rs eq_refl) as (HP' & rs' & -> & HF).
      split; [done|]. exists (a :: rs'). rewrite reverse_cons, <- app_assoc. split; [done|].
      constructor; [exact (Hc _ _ _ HP1 Hcon)|done].
    - eapply wp_mono; [apply wp_reads_failed|]. intros out ks' Hq rs ->. by destruct (Hq rs). }
  eapply wp_mono; [by apply Hgen|]. intros out ks' Hq rs ->.
  destruct (Hq rs eq_refl) as (? & rs' & -> & ?). done.
Qed.

Lemma wp_conn_reads {B} (f : unit -> prog IdListMembershipError B) Q ks :
  (forall e ks', Q (Failed e) ks') -> P ks -> (forall ks', P ks' -> wp env (f ()) Q ks') ->
  wp env (get_conn ≫= f) Q ks.
Proof.
  intros HQ Hks Hf. apply wp_bind. apply (wp_redis env CONN P); [done..|]. intros [[]|e] ks1 ks2 Hp Hc; [|done].
  assert (ks2 = ks1) as -> by (by eapply contract_read). by apply Hf.
Qed.
End Reads.

(** A reply that is not an error is what the server reads. *)
Lemma contract_ok_reply `{ScanOrder} {R} (c : cmd R) ks r ks' r0 ks0 :
  exec c ks = Some (r0, ks0) -> contract c ks (Ok r) ks' -> Ok r = r0.
Proof. unfold contract. intros ->. by intros [[? _]|[[e ?] _]]. Qed.

Lemma contract_hmget `{ScanOrder} k fs ks r ks' :
  contract (HMGET k fs) ks (Ok r) ks' -> r = (fun f => hash_at ks k !! f) <$> fs.
Proof.
  intros Hc. pose proof (contract_ok_reply (HMGET k fs) ks r ks' _ _ eq_refl Hc) as Hr. unfold hash_at, reply_of in *.
  destruct (as_hash ks k); simpl in *; by simplify_eq.
Qed.

Lemma contract_smismember `{ScanOrder} k xs ks r ks' :
  contract (SMISMEMBER k xs) ks (Ok r) ks' -> r = (fun x => bool_decide (x ∈ set_at ks k)) <$> xs.
Proof.
  intros Hc. pose proof (contract_ok_reply (SMISMEMBER k xs) ks r ks' _ _ eq_refl Hc) as Hr. unfold set_at, reply_of in *.
  destruct (as_set ks k); simpl in *; by simplify_eq.
Qed.

Lemma contract_smembers `{ScanOrder} k ks r ks' :
  contract (SMEMBERS k) ks (Ok r) ks' -> r = elements (set_at ks k).
Proof.
  intros Hc. pose proof (contract_ok_reply (SMEMBERS k) ks r ks' _ _ eq_refl Hc) as Hr. unfold set_at, reply_of in *.
  destruct (as_set ks k); simpl in *; by simplify_eq.
Qed.

(** ** Forward lookups *)

Section Forward.
Context `{ScanOrder} (self : RedisIdListMembershipFetcher) (env : environment) (visible : list string) (ks0 : keyspace).

(** The generation of a list that lookups read. *)
Definition serving (name : string) : option string :=
  serving_version ((fun f => hash_at ks0 (state_key (f_schema self) (f_skh self) name) !! f) <$>
                   [state_fields.VERSION; state_fields.LOADING_VERSION]).
Definition serves (name id : string) : Prop :=
  exists ver, serving name = Some ver /\ id ∈ set_at ks0 (fwd_key (f_schema self) (f_skh self) name ver).

Definition visible_same (ks : keyspace) : Prop :=
  forall name, name ∈ visible ->
    ks !! state_key (f_schema self) (f_skh self) name = ks0 !! state_key (f_schema self) (f_skh self) name /\
    forall ver, ks !! fwd_key (f_schema self) (f_skh self) name ver
                = ks0 !! fwd_key (f_schema self) (f_skh self) name ver.

Lemma zip_fmap_true (ids : list string) (S : gset string) id :
  (id, true) ∈ zip ids ((fun x => bool_decide (x ∈ S)) <$> ids) <-> id ∈ ids /\ id ∈ S.
Proof.
  induction ids as [|x ids IH]; simpl; [rewrite elem_of_nil; split; [done|by intros [?%elem_of_nil _]]|].
  rewrite !elem_of_cons, IH. case_bool_decide; naive_solver.
Qed.

Lemma queried_elem versions name ver :
  Forall2 (fun name vs => vs = (fun f => hash_at ks0 (state_key (f_schema self) (f_skh self) name) !! f) <$>
                               [state_fields.VERSION; state_fields.LOADING_VERSION]) visible versions ->
  (name, ver) ∈ queried visible versions <-> name ∈ visible /\ serving name = Some ver.
Proof.
  unfold queried. induction 1 as [|n vs visible' versions Hvs Hall IH]; simpl.
  { rewrite !elem_of_nil. naive_solver. }
  rewrite Hvs. fold (serving n). destruct (serving n) as [v|] eqn:E; simpl; rewrite ?elem_of_cons, IH; naive_solver.
Qed.

Context (Hrely : stable env visible_same).

Lemma wp_fetch_forward ids :
  NoDup ids ->
  wp env (fetch_forward self ids visible) (fun out _ => forall r, out = Returned r ->
    (forall id, is_Some (r !! id) <-> id ∈ ids) /\
    forall id name, id ∈ ids -> listed r id name <-> name ∈ visible /\ serves name id) ks0.
Proof.
  intros Hnd. assert (visible_same ks0) as H0 by done. unfold fetch_forward.
  assert (forall id, is_Some (empty_memberships ids !! id) <-> id ∈ ids) as Hdom.
  { intros id. rewrite empty_memberships_lookup. case_decide; split; done. }
  assert (forall id name, ~ listed (empty_memberships ids) id name) as Hnone.
  { intros id name (ns & Hl & Hin). rewrite empty_memberships_lookup in Hl. case_decide; set_solver. }
  destruct (bool_decide (ids = []) || bool_decide (visible = [])) eqn:Eb.
  { intros r [= <-]. split; [done|]. intros id name Hid. split; [by intros ?%Hnone|].
    intros [Hv _]. apply orb_true_iff in Eb as [->%bool_decide_eq_true_1|Eb%bool_decide_eq_true_1].
    - by apply elem_of_nil in Hid.
    - rewrite Eb in Hv. by apply elem_of_nil in Hv. }
  intros [|]; [done|]. eapply (wp_conn_reads env visible_same); [done|done|done|]. intros ks1 H1.
  apply wp_bind. eapply wp_mono.
  { apply (wp_pipe_reads env visible_same Hrely _ (fun name vs =>
      vs = (fun f => hash_at ks0 (state_key (f_schema self) (f_skh self) name) !! f) <$>
           [state_fields.VERSION; state_fields.LOADING_VERSION])); [|exact H1].
    apply Forall_forall. intros name Hname. split; [done|]. intros k1 r k2 Hk1 ->%contract_hmget.
    by rewrite (hash_at_ext k1 ks0) by (by apply Hk1). }
  intros [versions| |] ks2 H2; [|done..]. destruct (H2 versions eq_refl) as [Hs2 Hvs]. clear H2.
  pose proof (fun name ver => queried_elem versions name ver Hvs) as Hq. cbn zeta. clear Eb.
  case_bool_decide as Enil.
  { intros r [= <-]. split; [done|]. intros id name Hid. split; [by intros ?%Hnone|].
    intros (Hv & ver & Hsv & _). assert ((name, ver) ∈ queried visible versions) as Hin by by apply Hq.
    rewrite Enil in Hin. by apply elem_of_nil in Hin. }
  apply wp_bind. eapply wp_mono.
  { apply (wp_pipe_reads env visible_same Hrely _ (fun nv bits =>
      bits = (fun x => bool_decide (x ∈ set_at ks0 (fwd_key (f_schema self) (f_skh self) nv.1 nv.2))) <$> ids)); [|exact Hs2].
    apply Forall_forall. intros [name ver] Hin. split; [done|]. intros k1 r k2 Hk1 ->%contract_smismember.
    apply Hq in Hin as [Hname _]. by rewrite (set_at_ext k1 ks0) by (by apply Hk1). }
  intros [replies| |] ks3 H3; [|done..]. destruct (H3 replies eq_refl) as [_ Hbits]. intros r [= <-].
  split.
  - intros id. by rewrite (proj1 (foldl_add_memberships ids _ _ id EmptyString)).
  - intros id name Hid. rewrite (proj2 (foldl_add_memberships ids _ _ id name)) by (by apply Hdom).
    assert ((exists bits, (name, bits) ∈ zip (queried visible versions).*1 replies /\ (id, true) ∈ zip ids bits) <->
      exists ver, (name, ver) ∈ queried visible versions /\
        id ∈ set_at ks0 (fwd_key (f_schema self) (f_skh self) name ver)) as Hex.
    { clear -Hbits Hid. induction Hbits as [|[n v] bits q replies -> Hall IH]; simpl.
      - setoid_rewrite elem_of_nil. naive_solver.
      - setoid_rewrite elem_of_cons. split.
        + intros (b & [[= -> ->]|Hin] & Hz); [apply zip_fmap_true in Hz as [_ Hz]; eauto|].
          destruct (proj1 IH) as (ver & ? & ?); eauto.
        + intros (ver & [[= -> ->]|Hin] & Hz).
          * eexists. split; [by left|]. by apply zip_fmap_true.
          * destruct (proj2 IH) as (b & ? & ?); eauto. }
    rewrite Hex. setoid_rewrite Hq. unfold serves. pose proof (Hnone id name). naive_solver.
Qed.
End Forward.

(** ** Reverse lookups *)

Section Reverse.
Context `{ScanOrder} (self : RedisIdListMembershipFetcher) (env : environment) (dictionary : DictSnapshot).
Context (lookup_ids : list string) (ks0 : keyspace).

Abbreviation mkey id := (member_key (f_schema self) (f_skh self) id).

Definition members_same (ks : keyspace) : Prop := forall id, id ∈ lookup_ids -> ks !! mkey id = ks0 !! mkey id.

(** The token [t] is in the member set of [id]. *)
Definition has_token (id : string) (t : N) : Prop := exists s, s ∈ set_at ks0 (mkey id) /\ parse_u64 s = Some t.

Lemma parse_tokens_elem ss ts t : parse_tokens ss = Some ts -> t ∈ ts <-> exists s, s ∈ ss /\ parse_u64 s = Some t.
Proof.
  revert ts. induction ss as [|s ss IH]; intros ts; cbn [parse_tokens].
  - intros [= <-]. setoid_rewrite elem_of_nil. naive_solver.
  - intros (u & Hu & H1)%bind_Some. apply bind_Some in H1 as (us & Hus & [= <-]).
    setoid_rewrite elem_of_cons. rewrite (IH _ Hus). naive_solver.
Qed.

Lemma parse_token_sets_zip ids replies sets :
  Forall2 (fun id r => r = elements (set_at ks0 (mkey id))) ids replies ->
  parse_token_sets replies = Some sets ->
  Forall2 (fun id ts => forall t, t ∈ ts <-> has_token id t) ids sets.
Proof.
  intros Hall. revert sets. induction Hall as [|id r ids replies -> Hall IH]; intros sets; cbn [parse_token_sets].
  - intros [= <-]. constructor.
  - intros (ts & Hts & H1)%bind_Some. apply bind_Some in H1 as (tss & Htss & [= <-]).
    constructor; [|by apply IH]. intros t. rewrite (parse_tokens_elem _ _ t Hts). unfold has_token.
    by setoid_rewrite elem_of_elements.
Qed.

Definition named (id name : string) : Prop :=
  exists t, has_token id t /\ token_to_name dictionary !! t = Some name.

Lemma zip_names_lookup ids sets id :
  NoDup ids -> Forall2 (fun id ts => forall t, t ∈ ts <-> has_token id t) ids sets ->
  let r : ResolvedMemberships := list_to_map (zip ids (names_of dictionary <$> sets)) in
  (is_Some (r !! id) <-> id ∈ ids) /\ (id ∈ ids -> forall name, listed r id name <-> named id name).
Proof.
  intros Hnd Hall. induction Hall as [|x ts ids sets Hts Hall IH]; cbn zeta in *.
  { split; [|by intros ?%elem_of_nil]. simpl. rewrite elem_of_nil. split; [by intros []|done]. }
  apply NoDup_cons in Hnd as [Hx Hnd]. specialize (IH Hnd). rewrite fmap_cons.
  change (zip (x :: ids) (names_of dictionary ts :: (names_of dictionary <$> sets)))
    with ((x, names_of dictionary ts) :: zip ids (names_of dictionary <$> sets)).
  rewrite list_to_map_cons, elem_of_cons. unfold listed in *.
  destruct (decide (x = id)) as [->|Hne].
  - rewrite lookup_insert_eq. split; [naive_solver|]. intros _ name. unfold named, names_of.
    split.
    + intros (ns & [= <-] & Hin). apply elem_of_list_to_set, list_elem_of_omap in Hin as (t & Ht & Hn).
      apply Hts in Ht. eauto.
    + intros (t & Ht & Hn). eexists. split; [done|]. apply elem_of_list_to_set, list_elem_of_omap.
      exists t. by rewrite Hts.
  - rewrite lookup_insert_ne by done. destruct IH as [IH1 IH2]. split; [rewrite IH1; naive_solver|].
    intros [->|Hin]; [done|]. by apply IH2.
Qed.

Context (Hrely : stable env members_same).

Lemma wp_fetch :
  f_enable_reverse_index self = true ->
  wp env (fetch self dictionary lookup_ids) (fun out _ => forall r, out = Returned r ->
    (forall id, is_Some (r.1 !! id) <-> id ∈ lookup_ids) /\
    (forall id name, id ∈ lookup_ids -> listed r.1 id name <-> named id name) /\
    (forall t, t ∈ r.2 <-> token_to_name dictionary !! t = None /\ exists id, id ∈ lookup_ids /\ has_token id t)) ks0.
Proof.
  intros Hen. unfold fetch. cbn zeta. rewrite Hen. cbn [negb].
  pose proof (elem_of_dedupe lookup_ids) as Hd. pose proof (dedupe_from_NoDup ∅ lookup_ids) as Hnd.
  fold (dedupe_lookup_ids lookup_ids) in Hnd. set (ids := dedupe_lookup_ids lookup_ids) in *.
  destruct (bool_decide (ids = [])) eqn:Eb.
  { apply bool_decide_eq_true_1 in Eb. intros r [= <-]. simpl. rewrite Eb in *. setoid_rewrite <- Hd.
    setoid_rewrite elem_of_nil. split_and!; [|naive_solver..]. intros id. rewrite empty_memberships_lookup.
    rewrite decide_False by apply not_elem_of_nil. split; [by intros []|done]. }
  clear Eb. apply wp_bind. intros [|]; [done|].
  assert (members_same ks0) as H0 by done.
  eapply (wp_conn_reads env members_same); [done|done|done|]. intros ks1 H1.
  apply wp_bind. eapply wp_mono.
  { apply (wp_pipe_reads env members_same Hrely _ (fun id r => r = elements (set_at ks0 (mkey id)))); [|exact H1].
    apply Forall_forall. intros id Hid%Hd. split; [done|]. intros k1 r k2 Hk1 ->%contract_smembers.
    by rewrite (set_at_ext k1 ks0) by (by apply Hk1). }
  intros [replies| |] ks2 H2; [|done..]. destruct (H2 replies eq_refl) as [_ Hr].
  destruct (parse_token_sets replies) as [sets|] eqn:Ep; [|done].
  pose proof (parse_token_sets_zip _ _ _ Hr Ep) as Hsets. intros r [= <-]. simpl.
  split_and!.
  - intros id. rewrite (proj1 (zip_names_lookup ids sets id Hnd Hsets)). apply Hd.
  - intros id name Hid. apply (proj2 (zip_names_lookup ids sets id Hnd Hsets)). by apply Hd.
  - intros t. setoid_rewrite <- Hd. clear -Hsets.
    induction Hsets as [|id ts ids' sets Hts Hall IH]; simpl.
    + setoid_rewrite elem_of_nil. naive_solver.
    + unfold unknown_of at 1. rewrite elem_of_app, list_elem_of_filter, Hts, IH. setoid_rewrite elem_of_cons.
      naive_solver.
Qed.
End Reverse.

(** ** Properties of lookups *)

(** A forward lookup that succeeds answers every requested identifier, once, with
    exactly those visible lists whose serving generation (the committed one, or on a
    first load the one being loaded) has the identifier as a member, when the keys of
    the visible lists are left alone meanwhile. *)
Theorem fetch_forward_exact `{ScanOrder} self env dictionary lookup_ids visible ks r ks' :
  f_enable_reverse_index self = false ->
  stable env (visible_same self visible ks) ->
  runs env (fetch_visible self dictionary lookup_ids visible) ks (Returned r) ks' ->
  (forall id, is_Some (r !! id) <-> id ∈ lookup_ids) /\
  forall id name, id ∈ lookup_ids -> listed r id name <-> name ∈ visible /\ serves self ks name id.
Proof.
  unfold fetch_visible. intros -> Hst Hrun.
  destruct (wp_adequate _ _ _ _ _ _ (wp_fetch_forward self env visible ks Hst (dedupe_lookup_ids lookup_ids)
    (dedupe_from_NoDup _ _)) Hrun r eq_refl) as [Hdom Hl].
  split.
  - intros id. by rewrite Hdom, elem_of_dedupe.
  - intros id name Hid. apply Hl. by apply elem_of_dedupe.
Qed.

Lemma fetch_forward_delivers `{ScanOrder} self env ids visible :
  delivers env (fetch_forward self ids visible) (fun r =>
    forall id name, listed r id name -> id ∈ ids /\ name ∈ visible).
Proof.
  unfold fetch_forward.
  assert (forall id name, ~ listed (empty_memberships ids) id name) as Hnone.
  { intros id name (ns & Hl & Hin). rewrite empty_memberships_lookup in Hl. case_decide; set_solver. }
  destruct (bool_decide (ids = []) || bool_decide (visible = []));
    [apply delivers_ret; by intros id name ?%Hnone|].
  intros ks [|]; [done|]. revert ks. apply delivers_skip. intros _. apply delivers_skip. intros versions.
  case_bool_decide; [apply delivers_ret; by intros id name ?%Hnone|].
  apply delivers_skip. intros replies. apply delivers_ret. intros id name Hl.
  assert (is_Some (empty_memberships ids !! id)) as Hs.
  { eapply (proj1 (foldl_add_memberships ids _ _ id name)). destruct Hl as (ns & Hl & _). eauto. }
  apply (proj2 (foldl_add_memberships ids _ _ id name) Hs) in Hl as [?%Hnone|(bits & Hin & _)]; [done|].
  split.
  - rewrite empty_memberships_lookup in Hs. case_decide; [done|by destruct Hs].
  - apply elem_of_zip_l, list_elem_of_fmap in Hin as ([n v] & -> & Hq). simpl.
    unfold queried in Hq. apply list_elem_of_omap in Hq as ([l vs] & Hin & Heq).
    apply elem_of_zip_l in Hin. apply fmap_Some in Heq as (v' & _ & [= -> _]). done.
Qed.

(** Whatever other clients do and whatever fails, a forward lookup never reports a
    list the requesting key cannot see, nor an identifier that was not asked for; a
    fetch without a visibility scope reports nothing in this mode. *)
Theorem fetch_forward_visible_only `{ScanOrder} self env dictionary lookup_ids visible ks ks' :
  f_enable_reverse_index self = false ->
  (forall r, runs env (fetch_visible self dictionary lookup_ids visible) ks (Returned r) ks' ->
     forall id name, listed r id name -> id ∈ lookup_ids /\ name ∈ visible) /\
  (forall r, runs env (fetch self dictionary lookup_ids) ks (Returned r) ks' ->
     forall id name, ~ listed r.1 id name).
Proof.
  intros Hen. unfold fetch_visible, fetch. rewrite Hen. split.
  - intros r Hrun id name Hl.
    destruct (wp_adequate _ _ _ _ _ _ (fetch_forward_delivers self env _ visible ks) Hrun r eq_refl id name Hl).
    by rewrite <- elem_of_dedupe.
  - intros r Hrun id name (ns & Hl & Hin).
    assert (r = (empty_memberships (dedupe_lookup_ids lookup_ids), [])) as ->.
    { simpl in Hrun. case_bool_decide; by destruct Hrun as [[= ->] _]. }
    simpl in Hl. rewrite empty_memberships_lookup in Hl. case_decide; set_solver.
Qed.

(** A reverse lookup that succeeds answers every requested identifier with exactly
    the names the cached dictionary has for the tokens of its member set, and asks for a
    refresh of exactly the tokens it does not know. *)
Theorem fetch_reverse_exact `{ScanOrder} self env dictionary lookup_ids ks r ks' :
  f_enable_reverse_index self = true ->
  stable env (members_same self lookup_ids ks) ->
  runs env (fetch self dictionary lookup_ids) ks (Returned r) ks' ->
  (forall id, is_Some (r.1 !! id) <-> id ∈ lookup_ids) /\
  (forall id name, id ∈ lookup_ids -> listed r.1 id name <-> named self dictionary ks id name) /\
  (forall t, t ∈ r.2 <-> token_to_name dictionary !! t = None /\
                         exists id, id ∈ lookup_ids /\ has_token self ks id t).
Proof.
  intros Hen Hst Hrun.
  exact (wp_adequate _ _ _ _ _ _ (wp_fetch self env dictionary lookup_ids ks Hst Hen) Hrun r eq_refl).
Qed.

(** *** The two modes agree *)

Definition reverse_fetcher (schema : IdListKeySchema) (skh : string) (timeout : N) : RedisIdListMembershipFetcher :=
  {| f_enable_reverse_index := true; f_schema := schema; f_skh := skh; f_fetch_timeout_ms := timeout |}.
Definition forward_fetcher (schema : IdListKeySchema) (skh : string) (timeout : N) : RedisIdListMembershipFetcher :=
  {| f_enable_reverse_index := false; f_schema := schema; f_skh := skh; f_fetch_timeout_ms := timeout |}.

(** C5: For a list whose index is in step with its committed set (what a full reload or
    delta that succeeds establishes), that is visible and whose token the cached dictionary
    knows and gives to no other name, a reverse lookup and a forward lookup report the list
    for the same identifiers: the members of the committed set. *)
Theorem lookup_modes_agree `{ScanOrder} env schema skh timeout dictionary lookup_ids visible ks
    list tok v r1 r2 ks1 ks2 id :
  is_u64 tok -> shows schema skh list tok ks v ->
  version (from_hash_fields (v_state v)) <> EmptyString ->
  (forall x, v_rev v x <-> x ∈ v_fwd v (version (from_hash_fields (v_state v)))) ->
  (forall t, token_to_name dictionary !! t = Some list <-> t = tok) ->
  (forall id s t, s ∈ set_at ks (member_key schema skh id) -> parse_u64 s = Some t -> s = show_u64 t) ->
  list ∈ visible -> id ∈ lookup_ids ->
  stable env (members_same (reverse_fetcher schema skh timeout) lookup_ids ks) ->
  stable env (visible_same (forward_fetcher schema skh timeout) visible ks) ->
  runs env (fetch (reverse_fetcher schema skh timeout) dictionary lookup_ids) ks (Returned r1) ks1 ->
  runs env (fetch_visible (forward_fetcher schema skh timeout) dictionary lookup_ids visible) ks (Returned r2) ks2 ->
  (listed r1.1 id list <-> id ∈ v_fwd v (version (from_hash_fields (v_state v)))) /\
  (listed r2 id list <-> id ∈ v_fwd v (version (from_hash_fields (v_state v)))).
Proof.
  intros Ht Hv Hver Hrev Hdict Hcanon Hvis Hid Hst1 Hst2 Hrun1 Hrun2.
  destruct Hv as (Hstate & Hfwd & Hmem & _).
  set (self1 := reverse_fetcher schema skh timeout) in *. set (self2 := forward_fetcher schema skh timeout) in *.
  destruct (wp_adequate _ _ _ _ _ _ (wp_fetch self1 env dictionary lookup_ids ks Hst1 eq_refl) Hrun1 r1 eq_refl)
    as (_ & Hl1 & _).
  destruct (wp_adequate _ _ _ _ _ _ (wp_fetch_forward self2 env visible ks Hst2 (dedupe_lookup_ids lookup_ids)
    (dedupe_from_NoDup _ _)) Hrun2 r2 eq_refl) as [_ Hl2].
  split.
  - rewrite Hl1, <- Hrev, <- Hmem by done. unfold named, has_token. split.
    + intros (t & (s & Hs & Hp) & ->%Hdict). by rewrite (Hcanon _ _ _ Hs Hp) in Hs.
    + intros Hin. exists tok. split; [|by apply Hdict]. exists (show_u64 tok). split; [exact Hin|by apply parse_u64_show].
  - rewrite Hl2 by (by apply elem_of_dedupe). unfold serves, serving.
    change (hash_at ks (state_key (f_schema self2) (f_skh self2) list)) with (hash_at ks (skey schema skh list)).
    rewrite Hstate. set (ver := version (from_hash_fields (v_state v))) in *.
    assert (serving_version ((fun f => v_state v !! f) <$> [state_fields.VERSION; state_fields.LOADING_VERSION]) = Some ver) as ->.
    { unfold ver, from_hash_fields in *. simpl in *. destruct (v_state v !! state_fields.VERSION) as [s|]; simpl in *; [|done].
      unfold str_empty. by rewrite bool_decide_false. }
    assert (set_at ks (fkey schema skh list ver) = v_fwd v ver) as Hset
      by (unfold set_at; by rewrite (set_is_at _ _ _ (Hfwd ver))).
    split.
    + intros (_ & w & [= <-] & Hin). by rewrite <- Hset.
    + intros Hin. split; [done|]. exists ver. split; [done|].
      change (id ∈ set_at ks (fkey schema skh list ver)). by rewrite Hset.
Qed.

(** ** Refreshing the dictionary *)

(** The cached names are the ones Redis has. *)
Definition cache_sound (h : gmap string string) (dictionary : DictSnapshot) : Prop :=
  forall t name, is_u64 t -> token_to_name dictionary !! t = Some name -> h !! token_field t = Some name.

Lemma contract_hget `{ScanOrder} k f ks r ks' : contract (HGET k f) ks (Ok r) ks' -> r = hash_at ks k !! f.
Proof.
  intros Hc. pose proof (contract_ok_reply (HGET k f) ks r ks' _ _ eq_refl Hc) as Hr. unfold hash_at, reply_of in *.
  destruct (as_hash ks k); simpl in *; by simplify_eq.
Qed.

Lemma contract_hgetall `{ScanOrder} k ks r ks' : contract (HGETALL k) ks (Ok r) ks' -> r = hash_at ks k.
Proof.
  intros Hc. pose proof (contract_ok_reply (HGETALL k) ks r ks' _ _ eq_refl Hc) as Hr. unfold hash_at, reply_of in *.
  destruct (as_hash ks k); simpl in *; by simplify_eq.
Qed.

Lemma snapshot_sound h c : dict_ok h c -> cache_sound h (snapshot_of_fields h).
Proof.
  intros Hok t name Ht. change (snapshot_of_fields h) with (snapshot_fold (map_to_list h)).
  rewrite snapshot_tokens; [by rewrite elem_of_map_to_list|apply NoDup_fst_map_to_list| |done].
  intros str v Hin%elem_of_map_to_list. destruct (dok_token _ _ Hok _ _ Hin) as (u & -> & Hu & _).
  exists u. split; [done|]. eapply dict_ok_bound_u64; [done|lia].
Qed.

Section Refresh.
Context `{ScanOrder} (self : RedisIdListMembershipFetcher) (env : environment) (ks0 : keyspace).
Abbreviation dkey := (dict_key (f_schema self) (f_skh self)).
Definition dict_same (ks : keyspace) : Prop := ks !! dkey = ks0 !! dkey.
Context (Hrely : stable env dict_same).

Lemma wp_refresh c :
  dict_ok (hash_at ks0 dkey) c ->
  wp env (refresh_dictionary_now self) (fun out _ => forall f, out = Returned f ->
    forall st, dict_cache (f st) = snapshot_of_fields (hash_at ks0 dkey) /\
               unknown_tokens (f st) = unknown_tokens st) ks0.
Proof.
  intros Hok. unfold refresh_dictionary_now, load_dictionary, with_timeout, snapshot. apply wp_bind.
  intros [|]; [done|]. assert (dict_same ks0) as H0 by done.
  eapply (wp_conn_reads env dict_same); [done|done|done|]. intros ks1 H1. apply wp_bind.
  eapply (wp_redis env _ dict_same); [done|done|]. intros [h|e] k1 k2 Hk Hc; [|done].
  apply contract_hgetall in Hc as ->. intros f [= <-] st. simpl.
  by rewrite (hash_at_ext k1 ks0) by done.
Qed.

Lemma wp_targeted token :
  wp env (targeted_refresh self token) (fun out _ => forall f, out = Returned f ->
    forall st,
      (exists name, hash_at ks0 dkey !! token_field token = Some name /\
         token_to_name (dict_cache (f st)) = <[token := name]> (token_to_name (dict_cache st)) /\
         unknown_tokens (f st) !! token = None) \/
      (dict_cache (f st) = dict_cache st /\
       (f st = st /\ hash_at ks0 dkey !! token_field token = None \/ unknown_tokens (f st) !! token = None))) ks0.
Proof.
  unfold targeted_refresh, with_timeout. apply wp_bind, wp_attempt. assert (dict_same ks0) as H0 by done.
  intros [|].
  { intros f [= <-] st. right. split; [done|]. right. apply lookup_delete_eq. }
  eapply (wp_conn_reads env dict_same); [done|..|done|].
  { intros e ks' f [= <-] st. right. split; [done|]. right. apply lookup_delete_eq. }
  intros ks1 H1. eapply (wp_redis env _ dict_same); [done|done|]. intros [r|e] k1 k2 Hk Hc.
  - apply contract_hget in Hc as ->. rewrite (hash_at_ext k1 ks0) by done. intros f [= <-] st.
    destruct (hash_at ks0 dkey !! token_field token) as [name|].
    + left. exists name. split_and!; [done..|]. apply lookup_delete_eq.
    + right. split; [done|]. by left.
  - intros f [= <-] st. right. split; [done|]. right. apply lookup_delete_eq.
Qed.
End Refresh.

(** The cached dictionary never invents a name: from a sound cache, a full refresh
    and a targeted refresh that end, with any failures, leave a sound cache; a full
    refresh leaves exactly the dictionary of Redis, and a targeted refresh of a token
    Redis knows leaves that token known. *)
Theorem refresh_sound `{ScanOrder} self env ks c token st :
  stable env (dict_same self ks) ->
  let h := hash_at ks (dict_key (f_schema self) (f_skh self)) in
  dict_ok h c -> cache_sound h (dict_cache st) -> is_u64 token ->
  (forall f ks', runs env (refresh_dictionary_now self) ks (Returned f) ks' ->
     dict_cache (f st) = snapshot_of_fields h /\ cache_sound h (dict_cache (f st))) /\
  (forall f ks', runs env (targeted_refresh self token) ks (Returned f) ks' ->
     cache_sound h (dict_cache (f st)) /\
     (forall t, t <> token -> token_to_name (dict_cache (f st)) !! t = token_to_name (dict_cache st) !! t)).
Proof.
  intros Hst h Hok Hsound Hu. split; intros f ks' Hrun.
  - destruct (wp_adequate _ _ _ _ _ _ (wp_refresh self env ks Hst c Hok) Hrun f eq_refl st) as [-> _].
    split; [done|by eapply snapshot_sound].
  - destruct (wp_adequate _ _ _ _ _ _ (wp_targeted self env ks Hst token) Hrun f eq_refl st)
      as [(name & Hn & Ht & _)|[-> _]]; [|done]. split.
    + intros t n Htu. rewrite Ht. intros [[<- <-]|[_ ?]]%lookup_insert_Some; [done|by apply Hsound].
    + intros t Hne. by rewrite Ht, lookup_insert_ne.
Qed.

(** Targeted refreshes are rate limited: one is spawned exactly when the token was
    not attempted in the last thirty seconds, the attempt then blocks another one for
    thirty seconds, and pruning the attempts never forgets a recent one. *)
Theorem targeted_refresh_rate_limited now token st :
  let '(st', spawned) := schedule_targeted_refresh now token st in
  (spawned = true <-> forall last, unknown_tokens st !! token = Some last -> (last + UNKNOWN_TOKEN_RETRY_S <= now)%N) /\
  (spawned = true -> forall now', (now <= now' < now + UNKNOWN_TOKEN_RETRY_S)%N ->
     (schedule_targeted_refresh now' token st').2 = false) /\
  (forall t last, t <> token -> unknown_tokens st !! t = Some last -> (now < last + UNKNOWN_TOKEN_RETRY_S)%N ->
     unknown_tokens st' !! t = Some last) /\
  dict_cache st' = dict_cache st.
Proof.
  unfold schedule_targeted_refresh at 1.
  destruct (match unknown_tokens st !! token with Some l => recently now l | None => false end) eqn:E.
  - destruct (unknown_tokens st !! token) as [l|] eqn:El; [|done]. apply bool_decide_eq_true_1 in E.
    unfold UNKNOWN_TOKEN_RETRY_S in *. split_and!; [|done..|done]. split; [done|]. intros Hl.
    specialize (Hl l eq_refl). lia.
  - assert (forall l, unknown_tokens st !! token = Some l -> (l + UNKNOWN_TOKEN_RETRY_S <= now)%N) as Hold.
    { intros l Hl. rewrite Hl in E. apply bool_decide_eq_false_1 in E. unfold UNKNOWN_TOKEN_RETRY_S in *. lia. }
    set (unknown := <[token := now]> (unknown_tokens st)).
    set (kept := if bool_decide _ then _ else _).
    assert (forall t l, unknown !! t = Some l -> (now < l + UNKNOWN_TOKEN_RETRY_S)%N -> kept !! t = Some l) as Hkept.
    { intros t l Hl Hlt. unfold kept. case_bool_decide; [|done]. apply map_lookup_filter_Some. split; [done|].
      apply bool_decide_eq_true_2. simpl. unfold UNKNOWN_TOKEN_RETRY_S in *. lia. }
    assert (kept !! token = Some now) as Hnow.
    { apply Hkept; [apply lookup_insert_eq|]. unfold UNKNOWN_TOKEN_RETRY_S. lia. }
    split_and!; [done| |..|done].
    + intros _ now' Hn. unfold schedule_targeted_refresh. simpl. rewrite Hnow. unfold recently.
      rewrite bool_decide_true; [done|]. unfold UNKNOWN_TOKEN_RETRY_S in *. lia.
    + intros t l Hne Hl Hlt. simpl. apply Hkept; [|done]. unfold unknown. by rewrite lookup_insert_ne.
Qed.

(** A membership configuration read from the environment has a positive pool, timeout
    and refresh interval, its pool size fits [u32] and its read address is not blank. *)
Theorem membership_config_from_env_ok env config :
  membership_config_from_env env = Ok config ->
  (0 < pool_size config <= u32_max)%N /\ (0 < fetch_timeout_ms config)%N /\ (0 < dict_refresh_interval_s config)%N /\
  (forall uri, read_uri config = Some uri -> trim uri <> EmptyString).
Proof.
  unfold membership_config_from_env. intros Hc.
  destruct (match env "IDLIST_REDIS_READ_URI" with EnvOk _ => _ | _ => _ end) as [uri|] eqn:Eu; [|done].
  cbn in Hc. destruct (reverse_index_enabled_from_env env) as [rev|]; [|done]. cbn in Hc.
  destruct (env_u32 _ _ _) as [pool|] eqn:Ep; [|done]. cbn in Hc.
  destruct (env_u64 env "IDLIST_FETCH_TIMEOUT_MS" _) as [t|]; [|done]. cbn in Hc.
  destruct (env_u64 env "IDLIST_DICT_REFRESH_IN_S" _) as [d|]; [|done]. cbn in Hc.
  destruct (bool_decide (pool = 0%N) || bool_decide (t = 0%N) || bool_decide (d = 0%N)) eqn:Ez; [done|].
  injection Hc as <-. boolify. cbn [pool_size fetch_timeout_ms dict_refresh_interval_s read_uri].
  split_and!; try lia.
  - unfold env_u32 in Ep. destruct (env_u64 _ _ _) as [v|]; [|done]. cbn in Ep. case_decide; [by simplify_eq|done].
  - intros u ->. destruct (env "IDLIST_REDIS_READ_URI") as [v| |]; [|done..].
    unfold str_empty in Eu. case_bool_decide; by simplify_eq.
Qed.

Lemma membership_config_from_env_ok_witness :
  (0 < pool_size IdListMembershipConfig_default <= u32_max)%N.
Proof. apply (membership_config_from_env_ok (fun _ => NotPresent)). reflexivity. Defined.

(** ** An example index *)

Module LookupExample.
Definition sch : IdListKeySchema := {| key_prefix := "p" |}.
Definition skh : string := "aB3/".
Definition state : gmap string string := {[state_fields.VERSION := "v1"]}.
Definition dict : gmap string string :=
  {[DICT_COUNTER_FIELD := "1"; name_field "l" := "1"; token_field 1 := "l"]}.
Definition ks : keyspace :=
  {[state_key sch skh "l" := {| val := VHash state; ttl := None |};
    fwd_key sch skh "l" "v1" := {| val := VSet {["x"]}; ttl := None |};
    member_key sch skh "x" := {| val := VSet {["1"]}; ttl := None |};
    dict_key sch skh := {| val := VHash dict; ttl := None |}]}.
Definition snap : DictSnapshot := {| name_to_token := {["l" := 1%N]}; token_to_name := {[1%N := "l"]} |}.
Definition quiet : environment := {| rely ks ks' := ks' = ks; http_ok _ r := r = Err HttpError |}.
Definition ask : Datatypes.list string := ["x"; "y"; "x"].
Definition no_http : http_request -> result http_error http_response := fun _ => Err HttpError.
Definition forward := eval no_http (fetch_visible (forward_fetcher sch skh 50) snap ask ["l"]) ks.
Definition reverse_ := eval no_http (fetch (reverse_fetcher sch skh 50) snap ask) ks.
Definition answer : ResolvedMemberships := {["x" := {["l"]}; "y" := ∅]}.

Lemma quiet_stable P : stable quiet P.
Proof. by intros ks1 ks2 Hp ->. Qed.
Lemma forward_run : runs quiet (fetch_visible (forward_fetcher sch skh 50) snap ask ["l"]) ks (Returned answer) forward.2.
Proof.
  replace (Returned answer) with forward.1 by (vm_compute; reflexivity). by apply eval_runs.
Qed.
Lemma reverse_run : runs quiet (fetch (reverse_fetcher sch skh 50) snap ask) ks (Returned (answer, [])) reverse_.2.
Proof.
  replace (Returned (answer, [])) with reverse_.1 by (vm_compute; reflexivity). by apply eval_runs.
Qed.
Lemma x_asked : "x" ∈ ask.
Proof. left. Qed.
End LookupExample.

Lemma fetch_forward_exact_witness :
  listed LookupExample.answer "x" "l" <->
  "l" ∈ ["l"] /\ serves (forward_fetcher LookupExample.sch LookupExample.skh 50) LookupExample.ks "l" "x".
Proof.
  exact (proj2 (fetch_forward_exact (forward_fetcher LookupExample.sch LookupExample.skh 50) LookupExample.quiet LookupExample.snap LookupExample.ask ["l"]
    LookupExample.ks LookupExample.answer _ eq_refl (LookupExample.quiet_stable _) LookupExample.forward_run)
    "x" "l" LookupExample.x_asked).
Defined.

Lemma fetch_forward_visible_only_witness : ~ listed LookupExample.answer "x" "hidden".
Proof.
  intros Hl.
  destruct (proj1 (fetch_forward_visible_only (forward_fetcher LookupExample.sch LookupExample.skh 50) LookupExample.quiet LookupExample.snap LookupExample.ask ["l"]
    LookupExample.ks LookupExample.forward.2 eq_refl) _ LookupExample.forward_run "x" "hidden" Hl) as [_ Hv].
  apply list_elem_of_singleton in Hv. discriminate.
Defined.

Lemma fetch_reverse_exact_witness :
  listed LookupExample.answer "x" "l" <->
  named (reverse_fetcher LookupExample.sch LookupExample.skh 50) LookupExample.snap LookupExample.ks "x" "l".
Proof.
  exact (proj1 (proj2 (fetch_reverse_exact (reverse_fetcher LookupExample.sch LookupExample.skh 50) LookupExample.quiet LookupExample.snap LookupExample.ask
    LookupExample.ks (LookupExample.answer, []) _ eq_refl (LookupExample.quiet_stable _) LookupExample.reverse_run))
    "x" "l" LookupExample.x_asked).
Defined.

Lemma refresh_sound_witness :
  cache_sound (hash_at LookupExample.ks (dict_key LookupExample.sch LookupExample.skh))
    (snapshot_of_fields LookupExample.dict).
Proof.
  assert (cache_sound LookupExample.dict DictSnapshot_default) as Hempty
    by (intros t n _ Hl; discriminate Hl).
  assert (dict_ok LookupExample.dict 1) as Hok.
  { split; [reflexivity|vm_compute; discriminate|..].
    - intros name v Hl. unfold LookupExample.dict in Hl.
      apply lookup_insert_Some in Hl as [[E _]|[_ [[E <-]|[_ [E _]%lookup_singleton_Some]]%lookup_insert_Some]]; try done.
      apply name_field_inj in E as <-. exists 1%N. split_and!; [reflexivity|lia..|vm_compute; reflexivity].
    - intros str name Hl. unfold LookupExample.dict in Hl.
      apply lookup_insert_Some in Hl as [[E _]|[_ [[E _]|[_ [E <-]%lookup_singleton_Some]]%lookup_insert_Some]]; try done.
      apply str_app_inj_l in E as <-. exists 1%N. split_and!; [reflexivity|lia..|vm_compute; reflexivity]. }
  set (st := {| dict_cache := DictSnapshot_default; unknown_tokens := ∅ |}).
  set (f := fun s => {| dict_cache := snapshot_of_fields LookupExample.dict; unknown_tokens := unknown_tokens s |}).
  refine (proj2 (proj1 (refresh_sound (reverse_fetcher LookupExample.sch LookupExample.skh 50) LookupExample.quiet
    LookupExample.ks 1 1 st (LookupExample.quiet_stable _) Hok Hempty _) f LookupExample.ks _)).
  - vm_compute. discriminate.
  - exists false. exists LookupExample.ks, (Ok tt), LookupExample.ks. split_and!; [done|by left|].
    exists LookupExample.ks, (Ok LookupExample.dict), LookupExample.ks. split_and!; [done|left|done].
    split; vm_compute; reflexivity.
Defined.

Module AgreeExample.
Import LookupExample.
Definition view : lview :=
  set_state (fun _ => state) (set_fwd "v1" (fun _ => {["x"]}) (set_rev "x" true (set_tok (Some "1") empty_view))).

Lemma agree_namespace : namespace_ok skh.
Proof. by split. Qed.

Lemma agree_shows : shows sch skh "l" 1 ks view.
Proof.
  assert (ks = put_hash (state_key sch skh "l") state (put_set (fwd_key sch skh "l" "v1") {["x"]}
    (put_set (member_key sch skh "x") {["1"]} (put_hash (dict_key sch skh) dict ∅)))) as -> by (vm_compute; reflexivity).
  apply (shows_put_state _ _ _ _ agree_namespace), (shows_put_fwd _ _ _ _ agree_namespace),
    (shows_put_member _ _ _ _ agree_namespace).
  - exact (shows_put_dict sch skh "l" 1 agree_namespace ∅ empty_view dict (shows_empty _ _ _ _ agree_namespace)).
  - split; [done|]. intros _. by apply elem_of_singleton.
Qed.

Lemma agree_canonical id s t : s ∈ set_at ks (member_key sch skh id) -> parse_u64 s = Some t -> s = show_u64 t.
Proof.
  generalize (member_key sch skh id). intros k. unfold set_at, as_set, ks.
  destruct (_ !! k) as [e|] eqn:El; [|by intros ?%elem_of_empty].
  repeat (apply lookup_insert_Some in El as [[_ <-]|[_ El]]; [simpl|]).
  - by intros ?%elem_of_empty.
  - intros ->%elem_of_singleton. by vm_compute.
  - intros ->%elem_of_singleton. vm_compute. by intros [= <-].
  - apply lookup_singleton_Some in El as [_ <-]. by intros ?%elem_of_empty.
Qed.
End AgreeExample.

Lemma lookup_modes_agree_witness :
  listed LookupExample.answer "x" "l" <-> "x" ∈ v_fwd AgreeExample.view "v1".
Proof.
  refine (proj2 (lookup_modes_agree LookupExample.quiet LookupExample.sch LookupExample.skh 50 LookupExample.snap
    LookupExample.ask ["l"] LookupExample.ks "l" 1 AgreeExample.view (LookupExample.answer, []) LookupExample.answer
    _ _ "x" _ AgreeExample.agree_shows _ _ _ AgreeExample.agree_canonical _ LookupExample.x_asked
    (LookupExample.quiet_stable _) (LookupExample.quiet_stable _) LookupExample.reverse_run LookupExample.forward_run)).
  - vm_compute. discriminate.
  - vm_compute. discriminate.
  - change (version (from_hash_fields (v_state AgreeExample.view))) with "v1".
    intros x. cbn [AgreeExample.view set_state set_fwd set_rev set_tok v_rev v_fwd]. case_decide; set_solver.
  - intros t. unfold LookupExample.snap. cbn [token_to_name]. rewrite lookup_singleton_Some. split; [by intros [-> _]|by intros ->].
  - left.
Defined.
