(* ===== verification/Backoff.v ===== *)
(** * Backoff: retry delays, poll cadence and request intervals of the data provider

    Models [src/src/datastore/data_providers/request_backoff.rs],
    [background_poll_dispatch.rs] and [background_request_interval_tracker.rs].
    Durations and instants are numbers of nanoseconds. A duration overflows where
    Rust's does; an instant does not, since the clock of the process is far from its
    limit and the delays added to it are at most five minutes. *)
From S2P Require Import Prelude Encoding Request Namespaces.

(** ** Durations *)

Definition ns_per_s : N := 1000000000.
Definition ns_per_ms : N := 1000000.
Definition duration_max : N := (u64_max * ns_per_s + 999999999)%N.
Definition from_secs (s : N) : N := (s * ns_per_s)%N.
Definition from_millis (ms : N) : N := (ms * ns_per_ms)%N.
Definition as_secs (d : N) : N := (d / ns_per_s)%N.
Definition as_millis (d : N) : N := (d / ns_per_ms)%N.
Definition duration_checked_mul (d factor : N) : option N :=
  if bool_decide (d * factor <= duration_max)%N then Some (d * factor)%N else None.

(** ** The key of a request: what identifies its context, and a discriminator *)

Abbreviation context_id :=
  (string * NormalizedPath * list CompressionEncoder * bool * bool * option string * option N)%type.
Abbreviation RequestBackoffKey := (context_id * option string)%type.

(** ** The policy *)

Record RequestBackoffPolicy := { initial_delay : N; max_delay : N }.

Definition from_polling_interval (polling_interval_in_s : N) : RequestBackoffPolicy :=
  let base_delay := from_secs (N.max polling_interval_in_s 1) in
  {| initial_delay := base_delay;
     max_delay := from_secs (N.min (sat_mul (as_secs base_delay) 32) 300) |}.

Definition delay_for_failure (self : RequestBackoffPolicy) (failure_count : N) : N :=
  let exponent := N.min (failure_count - 1) 31 in
  let factor := N.min (2 ^ exponent) u32_max in
  let scaled_delay := default (max_delay self) (duration_checked_mul (initial_delay self) factor) in
  N.min scaled_delay (max_delay self).

(** ** The controller *)

Record RequestBackoffState := { consecutive_failures : N; retry_after : N; last_seen : N }.
Abbreviation backoff_map := (gmap RequestBackoffKey RequestBackoffState).

Definition can_attempt_at (key : RequestBackoffKey) (now : N) (m : backoff_map) : bool * backoff_map :=
  match m !! key with
  | None => (true, m)
  | Some state =>
      (bool_decide (retry_after state <= now)%N,
       <[key := {| consecutive_failures := consecutive_failures state;
                   retry_after := retry_after state; last_seen := now |}]> m)
  end.

Definition record_success (key : RequestBackoffKey) (m : backoff_map) : backoff_map := delete key m.

Definition record_failure_at (policy : RequestBackoffPolicy) (key : RequestBackoffKey) (now : N)
    (m : backoff_map) : backoff_map :=
  let failures :=
    match m !! key with
    | Some state => N.min (consecutive_failures state + 1) u32_max
    | None => 1%N
    end in
  <[key := {| consecutive_failures := failures;
              retry_after := now + delay_for_failure policy failures;
              last_seen := now |}]> m.

Definition record_result (policy : RequestBackoffPolicy) (key : RequestBackoffKey)
    (result : DataProviderRequestResult) (now : N) (m : backoff_map) : backoff_map :=
  match result with
  | Unauthorized => record_success key m
  | RequestError => record_failure_at policy key now m
  | _ => record_success key m
  end.

Definition stale_after (policy : RequestBackoffPolicy) : N :=
  default (max_delay policy) (duration_checked_mul (max_delay policy) 2).

(** The scan collects the stale keys of [seen]; they are removed from [m], the
    map at the time of the removals. *)
Definition prune_stale_at (policy : RequestBackoffPolicy) (now : N) (seen m : backoff_map) : backoff_map :=
  let to_remove :=
    filter (fun e => stale_after policy < now - last_seen e.2)%N (map_to_list seen) in
  foldl (fun m e => delete e.1 m) m to_remove.

(** ** Poll dispatch *)

Definition POLL_INTERVAL_JITTER_DIVISOR : N := 10.

Record BackgroundPollDispatchConfig := {
  max_in_flight : N;
  item_spacing_ms : N;
  jitter_seed : N;
}.

(** [u] and [v] are the two random identifiers (128 bits) the seed is drawn from. *)
Definition dispatch_config_new (max_in_flight item_spacing_ms u v : N) : BackgroundPollDispatchConfig :=
  {| max_in_flight := N.max max_in_flight 1; item_spacing_ms := item_spacing_ms;
     jitter_seed := N.lxor (N.land u u64_max) (N.land (N.shiftr v 64) u64_max) |}.

Definition background_dispatch_shaping_enabled (self : BackgroundPollDispatchConfig)
    (prepared_request_count : N) : bool :=
  bool_decide (0 < item_spacing_ms self)%N || bool_decide (max_in_flight self < prepared_request_count)%N.

Definition launch_spacing (self : BackgroundPollDispatchConfig) : N := from_millis (item_spacing_ms self).

Definition rotate_left64 (x r : N) : N :=
  N.lor (N.land (N.shiftl x r) u64_max) (N.shiftr x (64 - r)).

Definition cycle_jitter_mix (poll_cycle jitter_seed : N) : N :=
  let cycle_mix := N.land (poll_cycle * 0x9E3779B97F4A7C15) u64_max in
  N.lxor (rotate_left64 jitter_seed (N.land poll_cycle 63)) cycle_mix.

Definition poll_interval_for_cycle (self : BackgroundPollDispatchConfig) (base_interval poll_cycle : N) : N :=
  let base_interval_ms := N.min (N.max (as_millis base_interval) 1) u64_max in
  let jitter_window_ms := N.max (base_interval_ms / POLL_INTERVAL_JITTER_DIVISOR) 1 in
  let jitter_bucket_count := sat_add (sat_mul jitter_window_ms 2) 1 in
  let jitter_bucket := (cycle_jitter_mix poll_cycle (jitter_seed self) mod jitter_bucket_count)%N in
  let jitter_offset_ms := (Z.of_N jitter_bucket - Z.of_N jitter_window_ms)%Z in
  let jittered_interval_ms :=
    if bool_decide (jitter_offset_ms < 0)%Z
    then N.max (sat_sub base_interval_ms (Z.abs_N jitter_offset_ms)) 1
    else sat_add base_interval_ms (Z.to_N jitter_offset_ms) in
  from_millis jittered_interval_ms.

(** [DefaultHasher] is code of the standard library whose algorithm it leaves open. *)
Class KeyHasher := { key_hash : RequestBackoffKey -> N }.
Definition dispatch_rank `{KeyHasher} (request_key : RequestBackoffKey) (poll_cycle jitter_seed : N) : N :=
  N.lxor (key_hash request_key) (cycle_jitter_mix poll_cycle jitter_seed).

(** ** Intervals between completed requests *)

Definition record_completed_request_at (context : context_id) (completed_at : N) (m : gmap context_id N)
    : option N * gmap context_id N :=
  ((fun previous => N.min (as_millis (completed_at - previous)) i64_max) <$> m !! context,
   <[context := completed_at]> m).

(** ** The delays *)

Lemma policy_bounds s (p := from_polling_interval s) :
  (max_delay p <= from_secs 300 /\ ns_per_s <= max_delay p /\ ns_per_s <= initial_delay p)%N.
Proof.
  subst p. unfold from_polling_interval, from_secs, as_secs, sat_mul, u64_max; cbn.
  rewrite N.div_mul by done. unfold ns_per_s. lia.
Qed.

Lemma delay_le_max p n : (delay_for_failure p n <= max_delay p)%N.
Proof. unfold delay_for_failure. lia. Qed.

Lemma scaled_delay_capped i m k :
  (k <= u32_max)%N -> (m <= duration_max)%N ->
  N.min (default m (duration_checked_mul i k)) m = N.min (i * k) m.
Proof. intros Hk Hm. unfold duration_checked_mul. case_bool_decide; cbn; lia. Qed.

(** the delay after the [n]-th failure in a row doubles from the polling interval
    (at least a second) up to the smaller of 32 intervals and five minutes: neither the
    clamped exponent nor the saturating and checked products show, for any interval
    and any number of failures. *)
Theorem delay_for_failure_exact s n :
  (1 <= n)%N ->
  delay_for_failure (from_polling_interval s) n =
    from_secs (N.min (N.max s 1 * 2 ^ (n - 1)) (N.min (32 * N.max s 1) 300)).
Proof.
  intros Hn. unfold delay_for_failure.
  assert (2 ^ N.min (n - 1) 31 <= u32_max)%N as Hf.
  { transitivity (2 ^ 31)%N; [apply N.pow_le_mono_r; lia|done]. }
  pose proof (policy_bounds s) as (Hm & _). cbn [from_polling_interval initial_delay max_delay] in *.
  rewrite (N.min_l _ _ Hf), scaled_delay_capped;
    [|done|etransitivity; [exact Hm|done]].
  unfold from_secs, as_secs, sat_mul, u64_max. rewrite N.div_mul by done. set (b := N.max s 1).
  replace (N.min (N.min (b * 32) 18446744073709551615) 300) with (N.min (32 * b) 300) by lia.
  rewrite <- N.mul_min_distr_r. replace (b * ns_per_s * 2 ^ N.min (n - 1) 31)%N
    with (b * 2 ^ N.min (n - 1) 31 * ns_per_s)%N by lia.
  rewrite <- !N.mul_min_distr_r. destruct (decide (n - 1 <= 31)%N) as [Hle|Hgt].
  { by rewrite (N.min_l (n - 1)) by done. }
  rewrite (N.min_r (n - 1)) by lia.
  assert (2 ^ 31 <= 2 ^ (n - 1))%N by (apply N.pow_le_mono_r; lia).
  assert (b * 2 ^ 31 <= b * 2 ^ (n - 1))%N by (apply N.mul_le_mono_l; done).
  assert (2 ^ 31 = 2147483648)%N as E31 by done. rewrite E31 in *.
  assert (1 <= b)%N by (unfold b; lia). unfold ns_per_s. lia.
Qed.
Lemma delay_for_failure_exact_witness :
  delay_for_failure (from_polling_interval 10) 4 = from_secs 80.
Proof. rewrite (delay_for_failure_exact 10 4); [reflexivity|lia]. Defined.

(** ** Histories of a key *)

Inductive backoff_op :=
| OpAttempt (key : RequestBackoffKey) (now : N)
| OpResult (key : RequestBackoffKey) (result : DataProviderRequestResult) (now : N)
| OpTimeout (key : RequestBackoffKey) (now : N)
| OpPrune (now : N).

Definition backoff_step (policy : RequestBackoffPolicy) (m : backoff_map) (op : backoff_op) : backoff_map :=
  match op with
  | OpAttempt key now => (can_attempt_at key now m).2
  | OpResult key result now => record_result policy key result now m
  | OpTimeout key now => record_failure_at policy key now m
  | OpPrune now => prune_stale_at policy now m m
  end.
Definition op_time (op : backoff_op) : N :=
  match op with OpAttempt _ t | OpResult _ _ t | OpTimeout _ t | OpPrune t => t end.

(** The abstract state of one key: the failures in a row, when the last one was and
    when the key was last looked at; [None] when there is nothing to wait for. *)
Record waiting := { w_failures : N; w_failed_at : N; w_seen : N }.

Definition fail_spec (w : option waiting) (now : N) : option waiting :=
  Some {| w_failures := match w with Some w => N.min (w_failures w + 1) u32_max | None => 1 end;
          w_failed_at := now; w_seen := now |}.
Definition waiting_step (policy : RequestBackoffPolicy) (key : RequestBackoffKey)
    (w : option waiting) (op : backoff_op) : option waiting :=
  match op with
  | OpAttempt k now =>
      if decide (k = key)
      then (fun w => {| w_failures := w_failures w; w_failed_at := w_failed_at w; w_seen := now |}) <$> w
      else w
  | OpResult k RequestError now | OpTimeout k now => if decide (k = key) then fail_spec w now else w
  | OpResult k _ _ => if decide (k = key) then None else w
  | OpPrune now => w ← w; if decide (stale_after policy < now - w_seen w)%N then None else Some w
  end.
Definition waiting_of (policy : RequestBackoffPolicy) (key : RequestBackoffKey) (ops : list backoff_op)
    : option waiting := foldl (waiting_step policy key) None ops.

(** What the controller keeps of an abstract state. *)
Definition entry_of_waiting (policy : RequestBackoffPolicy) (w : waiting) : RequestBackoffState :=
  {| consecutive_failures := w_failures w;
     retry_after := w_failed_at w + delay_for_failure policy (w_failures w);
     last_seen := w_seen w |}.

Lemma prune_fold_lookup (l : list (RequestBackoffKey * RequestBackoffState)) (m : backoff_map) key :
  foldl (fun m e => delete e.1 m) m l !! key = if decide (key ∈ l.*1) then None else m !! key.
Proof.
  revert m. induction l as [|[k s] l IH]; intros m; cbn [foldl fmap list_fmap fst].
  { rewrite decide_False; [done|apply not_elem_of_nil]. }
  rewrite IH. destruct (decide (key ∈ l.*1)) as [Hin|Hin].
  { rewrite decide_True; [done|by right]. }
  destruct (decide (key = k)) as [->|Hne].
  - rewrite lookup_delete_eq, decide_True; [done|by left].
  - rewrite lookup_delete_ne by done. rewrite decide_False; [done|]. rewrite elem_of_cons. naive_solver.
Qed.

Lemma prune_lookup policy now seen m key :
  prune_stale_at policy now seen m !! key =
    match seen !! key with
    | Some s => if decide (stale_after policy < now - last_seen s)%N then None else m !! key
    | None => m !! key
    end.
Proof.
  unfold prune_stale_at. rewrite prune_fold_lookup.
  assert (key ∈ (filter (fun e => stale_after policy < now - last_seen e.2)%N (map_to_list seen)).*1 <->
          exists s, seen !! key = Some s /\ (stale_after policy < now - last_seen s)%N) as Hiff.
  { rewrite list_elem_of_fmap. split.
    - intros ([k s] & -> & [Hs Hin]%list_elem_of_filter). apply elem_of_map_to_list in Hin. by exists s.
    - intros (s & Hin & Hs). exists (key, s). split; [done|].
      apply list_elem_of_filter. split; [done|by apply elem_of_map_to_list]. }
  destruct (seen !! key) as [s|] eqn:Es.
  - destruct (decide (stale_after policy < _)%N) as [Hst|Hst].
    + rewrite decide_True; [done|]. apply Hiff. eauto.
    + rewrite decide_False; [done|]. rewrite Hiff. intros (s' & [= <-] & ?). done.
  - rewrite decide_False; [done|]. rewrite Hiff. intros (s' & ? & _). done.
Qed.

Lemma backoff_step_refines policy key m w op :
  m !! key = entry_of_waiting policy <$> w ->
  backoff_step policy m op !! key = entry_of_waiting policy <$> waiting_step policy key w op.
Proof.
  intros Hm. destruct op as [k now|k r now|k now|now]; cbn [backoff_step waiting_step].
  - unfold can_attempt_at. destruct (decide (k = key)) as [->|Hne].
    + rewrite Hm. destruct w; cbn; [by rewrite lookup_insert_eq|done].
    + destruct (m !! k); cbn; [by rewrite lookup_insert_ne|done].
  - destruct (decide (k = key)) as [->|Hne].
    + destruct r; cbn [record_result]; try apply lookup_delete_eq.
      unfold record_failure_at. rewrite lookup_insert_eq, Hm. by destruct w.
    + destruct r; cbn [record_result]; rewrite <- Hm;
        [| | | |unfold record_failure_at; by rewrite lookup_insert_ne]; by apply lookup_delete_ne.
  - unfold record_failure_at. destruct (decide (k = key)) as [->|Hne].
    + rewrite lookup_insert_eq, Hm. by destruct w.
    + by rewrite lookup_insert_ne, Hm.
  - rewrite prune_lookup, Hm. destruct w as [w|]; cbn; [|done]. by destruct (decide _).
Qed.

Lemma backoff_history policy key ops (m := foldl (backoff_step policy) ∅ ops) :
  m !! key = entry_of_waiting policy <$> waiting_of policy key ops.
Proof.
  subst m. unfold waiting_of. assert ((∅ : backoff_map) !! key = entry_of_waiting policy <$> None) as H0 by done.
  revert H0. generalize (∅ : backoff_map) (None : option waiting).
  induction ops as [|op ops IH]; intros m w Hw; [done|]. apply IH. by apply backoff_step_refines.
Qed.

(** C37: whatever the controller was asked about other keys, what it keeps for a key
    is what the history of that key says: the failures since its last success,
    client error, authorization error or pruning, and the time of the last one; an
    attempt is allowed exactly when the delay for that many failures has passed. *)
Theorem backoff_refines_history policy key ops now (m := foldl (backoff_step policy) ∅ ops) :
  m !! key = entry_of_waiting policy <$> waiting_of policy key ops /\
  (can_attempt_at key now m).1 =
    match waiting_of policy key ops with
    | None => true
    | Some w => bool_decide (w_failed_at w + delay_for_failure policy (w_failures w) <= now)%N
    end.
Proof.
  pose proof (backoff_history policy key ops) as Hm. fold m in Hm.
  split; [done|]. unfold can_attempt_at. rewrite Hm. by destruct (waiting_of policy key ops).
Qed.

(** ** Pruning *)

Lemma stale_after_ge policy : (max_delay policy <= stale_after policy)%N.
Proof. unfold stale_after, duration_checked_mul. case_bool_decide; cbn; lia. Qed.

Lemma waiting_step_times policy key w op now :
  (op_time op <= now)%N ->
  (forall x, w = Some x -> w_failed_at x <= w_seen x /\ w_seen x <= op_time op)%N ->
  forall x, waiting_step policy key w op = Some x -> (w_failed_at x <= w_seen x /\ w_seen x <= now)%N.
Proof.
  intros Hnow Hw x. destruct op as [k t|k r t|k t|t]; cbn [op_time] in *.
  - cbn [waiting_step]. destruct (decide (k = key)).
    + destruct w as [w|]; cbn; [|done]. intros [= <-]. cbn. destruct (Hw _ eq_refl). lia.
    + intros ->. destruct (Hw _ eq_refl). lia.
  - destruct r; cbn [waiting_step]; destruct (decide (k = key)); try done;
      try (intros ->; destruct (Hw _ eq_refl); lia).
    unfold fail_spec. intros [= <-]. cbn. lia.
  - cbn [waiting_step]. destruct (decide (k = key)).
    + unfold fail_spec. intros [= <-]. cbn. lia.
    + intros ->. destruct (Hw _ eq_refl). lia.
  - cbn [waiting_step]. destruct w as [w|]; cbn; [|done]. destruct (decide _); [done|].
    intros [= <-]. destruct (Hw _ eq_refl). lia.
Qed.

(** The operations happen in the order of the clock. *)
Definition in_order (ops : list backoff_op) (now : N) : Prop :=
  Sorted N.le ((op_time <$> ops) ++ [now]).

Lemma in_order_snoc ops op now :
  in_order (ops ++ [op]) now -> in_order ops (op_time op) /\ (op_time op <= now)%N.
Proof.
  unfold in_order. rewrite fmap_app. intros Hs. apply Sorted_StronglySorted in Hs; [|intros ???; lia].
  split.
  - apply StronglySorted_Sorted. by apply StronglySorted_app_1_l in Hs.
  - eapply (StronglySorted_app_1_elem_of N.le); [exact Hs| |by left].
    apply elem_of_app. right. by left.
Qed.

Lemma waiting_of_times policy key ops now x :
  in_order ops now -> waiting_of policy key ops = Some x ->
  (w_failed_at x <= w_seen x /\ w_seen x <= now)%N.
Proof.
  revert now x. induction ops as [|op ops IH] using rev_ind; intros now x Ho; [done|].
  unfold waiting_of. rewrite foldl_snoc. apply in_order_snoc in Ho as [Ho Hle].
  apply waiting_step_times; [done|]. intros y Hy. by apply IH.
Qed.

(** pruning never lets a request through early. After any history in the order of
    the clock, an attempt at any later time is allowed after a pruning exactly when
    it would have been allowed without it. *)
Theorem prune_never_unblocks policy key ops now t (m := foldl (backoff_step policy) ∅ ops) :
  in_order ops now -> (now <= t)%N ->
  (can_attempt_at key t (prune_stale_at policy now m m)).1 = (can_attempt_at key t m).1.
Proof.
  intros Ho Ht. pose proof (backoff_history policy key ops) as Hm. fold m in Hm.
  unfold can_attempt_at. rewrite prune_lookup, Hm.
  destruct (waiting_of policy key ops) as [w|] eqn:Hw; cbn; [|done].
  destruct (decide _) as [Hstale|Hlive]; [|done].
  destruct (waiting_of_times _ _ _ _ _ Ho Hw).
  pose proof (stale_after_ge policy). pose proof (delay_le_max policy (w_failures w)).
  cbn in Hstale. symmetry. apply bool_decide_eq_true. lia.
Qed.

Module BackoffExample.
Definition key : RequestBackoffKey :=
  (hash_input (context_new "secret-key" V1DownloadConfigSpecs [Gzip]), None).
Definition ops : list backoff_op :=
  [OpResult key RequestError 0; OpAttempt key (from_secs 10); OpTimeout key (from_secs 10)].
End BackoffExample.

Lemma prune_never_unblocks_witness :
  let m := foldl (backoff_step (from_polling_interval 10)) ∅ BackoffExample.ops in
  (can_attempt_at BackoffExample.key (from_secs 1000)
    (prune_stale_at (from_polling_interval 10) (from_secs 900) m m)).1 = true.
Proof.
  cbv zeta. rewrite (prune_never_unblocks (from_polling_interval 10) BackoffExample.key BackoffExample.ops
    (from_secs 900) (from_secs 1000)).
  - vm_compute. reflexivity.
  - unfold in_order. cbn. repeat constructor; done.
  - done.
Defined.

(** ** The poll cadence *)

(** The interval for a window and a bucket drawn from it. *)
Definition jittered (base window bucket : N) : N :=
  let offset := (Z.of_N bucket - Z.of_N window)%Z in
  if bool_decide (offset < 0)%Z then N.max (sat_sub base (Z.abs_N offset)) 1
  else sat_add base (Z.to_N offset).

Lemma jittered_bounds base window bucket :
  (1 <= base <= u64_max -> window <= base -> 2 * window + 1 <= u64_max \/ base < 10 ->
   bucket < sat_add (sat_mul window 2) 1 ->
   1 <= jittered base window bucket <= u64_max /\
   base - window <= jittered base window bucket <= base + window)%N.
Proof. unfold jittered, sat_add, sat_mul, sat_sub, u64_max. case_bool_decide; lia. Qed.

Lemma jitter_window_bounds base :
  (1 <= base <= u64_max ->
   N.max (base / 10) 1 <= base /\ (2 * N.max (base / 10) 1 + 1 <= u64_max \/ base < 10))%N.
Proof. pose proof (N.Div0.mul_div_le base 10). unfold u64_max. lia. Qed.

(** the interval before a poll cycle is the configured one, in whole milliseconds
    and at least one, moved by at most a tenth of it (and by one millisecond where a tenth
    is less), for every seed and cycle; the arithmetic never wraps, and the interval is never zero. *)
Theorem poll_interval_bounds self base_interval poll_cycle :
  let base := N.min (N.max (as_millis base_interval) 1) u64_max in
  let window := N.max (base / POLL_INTERVAL_JITTER_DIVISOR) 1 in
  exists ms, poll_interval_for_cycle self base_interval poll_cycle = from_millis ms /\
    (1 <= ms <= u64_max /\ base - window <= ms <= base + window)%N.
Proof.
  intros base window. exists (jittered base window
    (cycle_jitter_mix poll_cycle (jitter_seed self) mod sat_add (sat_mul window 2) 1)).
  split; [reflexivity|].
  assert (1 <= base <= u64_max)%N as Hb by (unfold base, u64_max; lia). clearbody base.
  destruct (jitter_window_bounds base Hb) as [Hw Hs].
  apply jittered_bounds; [done|done|done|]. apply N.mod_lt. unfold sat_add, u64_max. lia.
Qed.

Lemma u64_shiftr x : is_u64 x <-> N.shiftr x 64 = 0%N.
Proof.
  unfold is_u64. rewrite N.shiftr_div_pow2. change (2 ^ 64)%N with (u64_max + 1)%N.
  rewrite N.div_small_iff by done. lia.
Qed.

Lemma lxor_u64 a b : is_u64 a -> is_u64 b -> is_u64 (N.lxor a b).
Proof. rewrite !u64_shiftr. intros Ha Hb. by rewrite N.shiftr_lxor, Ha, Hb. Qed.

(** The mix of cycle and seed that orders and spaces the requests stays in 64 bits, so
    ranks compare as the machine compares them, and within a cycle two requests
    have the same rank only when their hashes agree. *)
Lemma dispatch_rank_ok `{KeyHasher} k1 k2 cycle seed :
  is_u64 seed -> is_u64 (key_hash k1) ->
  is_u64 (dispatch_rank k1 cycle seed) /\
  (dispatch_rank k1 cycle seed = dispatch_rank k2 cycle seed <-> key_hash k1 = key_hash k2).
Proof.
  intros Hs Hk. unfold dispatch_rank. split.
  - apply lxor_u64; [done|]. unfold cycle_jitter_mix, rotate_left64. apply lxor_u64; apply u64_shiftr.
    + apply u64_shiftr in Hs. rewrite N.shiftr_lor, N.shiftr_land.
      rewrite N.shiftr_shiftr, N.add_comm, <- N.shiftr_shiftr, Hs, N.shiftr_0_l.
      change (N.shiftr u64_max 64) with 0%N. by rewrite N.land_0_r.
    + rewrite N.shiftr_land. change (N.shiftr u64_max 64) with 0%N. by rewrite N.land_0_r.
  - split; [|by intros ->]. intros Heq. set (c := cycle_jitter_mix cycle seed) in *.
    rewrite <- (N.lxor_0_r (key_hash k1)), <- (N.lxor_0_r (key_hash k2)), <- (N.lxor_nilpotent c).
    by rewrite <- !N.lxor_assoc, Heq.
Qed.
