(* ===== verification/Stores.v ===== *)
(** * Stores: what the proxy keeps of the origin's answers

    Models [src/src/datastore/sdk_key_store.rs], [config_spec_store.rs],
    [id_list_store.rs] and [id_list_file_store.rs]. A map with request contexts as
    keys is a map over what identifies a context ([context_id], what [Eq] and [Hash]
    compare). Where an operation takes a lock more than once it takes one map per
    time: others may have written in between. *)
From S2P Require Import Prelude Encoding Request Namespaces Backoff.

(** ** SDK keys *)

(** The context of an entry is the one it was first inserted with: a [HashMap] keeps
    the key it has. *)
Record SdkKeyStoreItem := { item_context : AuthorizedRequestContext; item_lcut : N }.
Abbreviation keystore := (gmap context_id SdkKeyStoreItem).

Definition keystore_insert (context : AuthorizedRequestContext) (lcut : N) (m : keystore) : keystore :=
  let kept := match m !! hash_input context with Some item => item_context item | None => context end in
  <[hash_input context := {| item_context := kept; item_lcut := lcut |}]> m.

Definition sdk_key_update (context : AuthorizedRequestContext) (response : ResponseContext)
    (read write : keystore) : keystore :=
  match result_type response with
  | DataAvailable =>
      if negb (use_lcut context)
         || match read !! hash_input context with
            | Some v => bool_decide (item_lcut v < lcut response)%N
            | None => true
            end
      then keystore_insert context (lcut response) write
      else write
  | Unauthorized => delete (hash_input context) write
  | _ => write
  end.

Definition has_key (context : AuthorizedRequestContext) (m : keystore) : bool :=
  bool_decide (is_Some (m !! hash_input context)).

Definition upsert (context : AuthorizedRequestContext) (lcut : N) (m : keystore) : keystore :=
  match m !! hash_input context with
  | Some current =>
      if bool_decide (item_lcut current < lcut)%N
      then <[hash_input context := {| item_context := item_context current; item_lcut := lcut |}]> m
      else m
  | None => keystore_insert context lcut m
  end.

Definition remove_key (context : AuthorizedRequestContext) (m : keystore) : keystore :=
  delete (hash_input context) m.

Definition get_lcut (context : AuthorizedRequestContext) (m : keystore) : option N :=
  item_lcut <$> m !! hash_input context.

(** In the order the map happens to have. *)
Definition get_registered_store (m : keystore) : list SdkKeyStoreItem := (map_to_list m).*2.

(** ** Config specs *)

Record ConfigSpecForCompany := { cs_lcut : N; cs_config : ResponsePayload }.
Abbreviation specs := (gmap context_id ConfigSpecForCompany).

(** [seen] answers [contains_key], [read] the read of the stored time, [write] is the
    map the entry is written to. *)
Definition config_spec_update (context : AuthorizedRequestContext) (response : ResponseContext)
    (seen read write : specs) : specs :=
  let id := hash_input context in
  let new_data := {| cs_lcut := lcut response; cs_config := body response |} in
  if bool_decide (result_type response = RequestError) || bool_decide (result_type response = DataAvailable) then
    match seen !! id with
    | None => <[id := new_data]> write
    | Some _ =>
        let stored_lcut := from_option cs_lcut 0%N (read !! id) in
        if bool_decide (stored_lcut < lcut response)%N then <[id := new_data]> write else write
    end
  else if bool_decide (result_type response = Unauthorized) then delete id write
  else write.

Definition no_update_config : ResponsePayload := {|
  use_proto := false; encoding := PlainText;
  data := "{" +:+ String "034" "has_updates" +:+ String "034" ":false}" |}.

(** The answer of [get_config_spec] once a missing key was fetched. *)
Definition config_spec_answer (record : option ConfigSpecForCompany) (since_time : N)
    : option ConfigSpecForCompany :=
  (fun record =>
    if bool_decide (since_time < cs_lcut record)%N then record
    else {| cs_lcut := cs_lcut record; cs_config := no_update_config |}) <$> record.

(** The gauge of [current_lcut_events]: the least time per key and path, over the
    entries in the order the map yields them. *)
Abbreviation lcut_gauges := (gmap (string * NormalizedPath) (context_id * N)).
Definition context_id_key (id : context_id) : string * NormalizedPath := id.1.1.1.1.1.

Definition current_lcuts (entries : list (context_id * ConfigSpecForCompany)) : lcut_gauges :=
  foldl (fun current e =>
    let key := context_id_key e.1 in
    match current !! key with
    | Some (context, current_lcut) => <[key := (context, N.min current_lcut (cs_lcut e.2))]> current
    | None => <[key := (e.1, cs_lcut e.2)]> current
    end) ∅ entries.
Definition gauge_value (lcut : N) : N := N.min lcut i64_max.
Definition current_lcut_events (entries : list (context_id * ConfigSpecForCompany))
    : list (context_id * N) :=
  (fun e => (e.2.1, gauge_value e.2.2)) <$> map_to_list (current_lcuts entries).

(** ** ID list manifests *)

Abbreviation id_lists_map := (gmap context_id ResponsePayload).
Definition id_list_update (context : AuthorizedRequestContext) (response : ResponseContext)
    (m : id_lists_map) : id_lists_map :=
  if bool_decide (result_type response = RequestError) || bool_decide (result_type response = DataAvailable)
  then <[hash_input context := body response]> m
  else if bool_decide (result_type response = Unauthorized) then delete (hash_input context) m
  else m.

(** ** ID list files *)

(** The cache of whole files by file id. It evicts on its own: any entry may be
    gone at any time. *)
Abbreviation file_cache := (gmap string string).
Definition DEFAULT_ID_LIST_FILE_CACHE_CAPACITY : N := 512.
Definition byte_len (s : string) : N := N.of_nat (String.length s).

Definition at_least (size : option N) (len : N) : bool :=
  match size with None => true | Some size => bool_decide (size <= len)%N end.

Definition cached_body_satisfies_request (bytes : string) (context : AuthorizedRequestContext) : bool :=
  let cached_len := byte_len bytes in
  match range_start context with
  | Some start =>
      match id_list_size context with
      | None => bool_decide (start < cached_len)%N
      | Some _ =>
          (bool_decide (start < cached_len)%N
           || (bool_decide (cached_len = start) && bool_decide (id_list_size context = Some cached_len)))
          && at_least (id_list_size context) cached_len
      end
  | None => at_least (id_list_size context) cached_len
  end.

Definition get_stored_body (context : AuthorizedRequestContext) (store : file_cache) : option string :=
  cache_key ← file_id context; store !! cache_key.

Definition get_cached_hit (context : AuthorizedRequestContext) (store : file_cache) : option string :=
  hit ← get_stored_body context store;
  if cached_body_satisfies_request hit context then Some hit else None.

Definition is_fresh_enough (context : AuthorizedRequestContext) (store : file_cache) : bool :=
  bool_decide (is_Some (get_cached_hit context store)).

Definition file_update (context : AuthorizedRequestContext) (response : ResponseContext)
    (store : file_cache) : file_cache :=
  match file_id context with
  | None => store
  | Some cache_key =>
      match result_type response with
      | DataAvailable | RequestError => <[cache_key := data (body response)]> store
      | Unauthorized => delete cache_key store
      | _ => store
      end
  end.

(** *** Serving a file *)

Inductive RequestPayloads :=
| Gzipped (data : string) (lcut : N) (delta_used : bool)
| BrotliPayload (data : string) (lcut : N) (delta_used : bool)
| Proto (data : string) (lcut : N) (encoding : CompressionEncoder) (delta_used : bool)
| Plain (data : string) (lcut : N) (delta_used : bool)
| Text (data : string) (status : N) (content_range : option string)
| RangeNotSatisfiable (complete_length : N)
| PayloadError (status : N) (body : string)
| UnauthorizedPayload.

(** [range_start] fits a [usize]: the target has 64 bits. *)
Definition build_download_id_list_file_payload (context : AuthorizedRequestContext) (data : string)
    : RequestPayloads :=
  let complete_length := byte_len data in
  match range_start context with
  | None => Text data 200 None
  | Some start =>
      if bool_decide (complete_length <= start)%N then RangeNotSatisfiable complete_length
      else
        Text (String.substring (N.to_nat start) (String.length data - N.to_nat start) data) 206
          (Some ("bytes " +:+ show_u64 start +:+ "-" +:+ show_u64 (complete_length - 1) +:+ "/"
                 +:+ show_u64 complete_length))
  end.

Definition to_request_payload_with_delta_used (payload : ResponsePayload) (lcut : N) (delta_used : bool)
    : RequestPayloads :=
  if use_proto payload then Proto (data payload) lcut (encoding payload) delta_used
  else if bool_decide (encoding payload = Gzip) then Gzipped (data payload) lcut delta_used
  else if bool_decide (encoding payload = Brotli) then BrotliPayload (data payload) lcut delta_used
  else Plain (data payload) lcut delta_used.
Definition to_request_payload (payload : ResponsePayload) (lcut : N) : RequestPayloads :=
  to_request_payload_with_delta_used payload lcut false.

(** ** The newest config spec is kept *)

Abbreviation origin_event := (AuthorizedRequestContext * ResponseContext)%type.
Definition specs_step (m : specs) (ev : origin_event) : specs := config_spec_update ev.1 ev.2 m m m.

(** What the origin (or the backup cache) said about a context since its key was last
    refused. *)
Definition spec_responses_step (id : context_id) (rs : list ResponseContext) (ev : origin_event)
    : list ResponseContext :=
  if decide (hash_input ev.1 = id) then
    match result_type ev.2 with
    | DataAvailable | RequestError => rs ++ [ev.2]
    | Unauthorized => []
    | _ => rs
    end
  else rs.
Definition spec_responses (id : context_id) (evs : list origin_event) : list ResponseContext :=
  foldl (spec_responses_step id) [] evs.

(** The stored entry is one of the responses, and none of them is newer. *)
Definition newest_of (rs : list ResponseContext) (stored : option ConfigSpecForCompany) : Prop :=
  match stored with
  | None => rs = []
  | Some c => (exists r, r ∈ rs /\ c = {| cs_lcut := lcut r; cs_config := body r |}) /\
              forall r, r ∈ rs -> (lcut r <= cs_lcut c)%N
  end.

Lemma newest_of_snoc rs stored r :
  newest_of rs stored ->
  newest_of (rs ++ [r])
    match stored with
    | Some c => if bool_decide (cs_lcut c < lcut r)%N
                then Some {| cs_lcut := lcut r; cs_config := body r |} else stored
    | None => Some {| cs_lcut := lcut r; cs_config := body r |}
    end.
Proof.
  intros Hn. destruct stored as [c|]; cbn in *.
  - destruct Hn as [(r0 & Hr0 & Hc) Hmax]. case_bool_decide as Hlt; cbn.
    + split.
      * exists r. split; [apply elem_of_app; right; by left|done].
      * intros r' [Hr'|Hr'%list_elem_of_singleton]%elem_of_app; [|by subst]. specialize (Hmax _ Hr'). lia.
    + split.
      * exists r0. split; [apply elem_of_app; by left|done].
      * intros r' [Hr'|Hr'%list_elem_of_singleton]%elem_of_app; [by apply Hmax|subst; lia].
  - subst rs. cbn. split.
    + exists r. split; [by left|done].
    + intros r' ->%list_elem_of_singleton. done.
Qed.

Lemma config_spec_update_cases ctx r seen read write :
  config_spec_update ctx r seen read write =
    match result_type r with
    | DataAvailable | RequestError =>
        match seen !! hash_input ctx with
        | None => <[hash_input ctx := {| cs_lcut := lcut r; cs_config := body r |}]> write
        | Some _ =>
            if bool_decide (from_option cs_lcut 0%N (read !! hash_input ctx) < lcut r)%N
            then <[hash_input ctx := {| cs_lcut := lcut r; cs_config := body r |}]> write else write
        end
    | Unauthorized => delete (hash_input ctx) write
    | _ => write
    end.
Proof. unfold config_spec_update. by destruct (result_type r). Qed.

Lemma config_spec_update_ne ctx r seen read write id :
  hash_input ctx <> id -> config_spec_update ctx r seen read write !! id = write !! id.
Proof.
  intros Hne. rewrite config_spec_update_cases.
  repeat case_match; rewrite ?lookup_insert_ne, ?lookup_delete_ne by done; done.
Qed.

Lemma specs_step_newest id m rs ev :
  newest_of rs (m !! id) -> newest_of (spec_responses_step id rs ev) (specs_step m ev !! id).
Proof.
  destruct ev as [ctx r]. unfold specs_step, spec_responses_step; cbn [fst snd].
  intros Hn. destruct (decide (hash_input ctx = id)) as [<-|Hne]; [|by rewrite config_spec_update_ne].
  pose proof (newest_of_snoc rs (m !! hash_input ctx) r Hn) as Hs. rewrite config_spec_update_cases.
  assert (newest_of (rs ++ [r]) (match m !! hash_input ctx with
    | None => <[hash_input ctx := {| cs_lcut := lcut r; cs_config := body r |}]> m
    | Some _ => if bool_decide (from_option cs_lcut 0%N (m !! hash_input ctx) < lcut r)%N
        then <[hash_input ctx := {| cs_lcut := lcut r; cs_config := body r |}]> m else m
    end !! hash_input ctx)) as Hstore.
  { destruct (m !! hash_input ctx) as [c|] eqn:Em; [|by rewrite lookup_insert_eq].
    cbn [from_option]. case_bool_decide; [by rewrite lookup_insert_eq|by rewrite Em]. }
  destruct (result_type r); [exact Hstore|done| |done|exact Hstore]. by rewrite lookup_delete_eq.
Qed.

(** after any sequence of updates the config stored for a context is the newest of
    the answers given for it since its key was last refused, and there is none exactly when there
    was no such answer: a late or repeated older answer never replaces a newer one,
    and answers for other contexts change nothing. *)
Theorem config_specs_newest id evs :
  newest_of (spec_responses id evs) (foldl specs_step ∅ evs !! id).
Proof.
  unfold spec_responses. assert (newest_of [] ((∅ : specs) !! id)) as H0 by done. revert H0.
  generalize (∅ : specs) (@nil ResponseContext). induction evs as [|ev evs IH]; intros m rs Hn; [done|].
  apply IH. by apply specs_step_newest.
Qed.

(** The read of the stored time and the write of the entry are two steps: an update
    that read the map before a newer one was written puts its older answer in place of it. *)
Lemma config_spec_update_race ctx r c read :
  result_type r = DataAvailable -> read !! hash_input ctx = Some c -> (cs_lcut c < lcut r)%N ->
  forall write, config_spec_update ctx r read read write !! hash_input ctx =
    Some {| cs_lcut := lcut r; cs_config := body r |}.
Proof.
  intros Hr Hc Hlt write. rewrite config_spec_update_cases, Hr, Hc. cbn [from_option].
  rewrite bool_decide_true by done. apply lookup_insert_eq.
Qed.

(** ** The gauges *)

Definition least_of (key : string * NormalizedPath) (entries : list (context_id * ConfigSpecForCompany))
    (g : option (context_id * N)) : Prop :=
  match g with
  | None => forall e, e ∈ entries -> context_id_key e.1 <> key
  | Some (id, l) =>
      context_id_key id = key /\
      (exists e, e ∈ entries /\ context_id_key e.1 = key /\ cs_lcut e.2 = l) /\
      forall e, e ∈ entries -> context_id_key e.1 = key -> (l <= cs_lcut e.2)%N
  end.

(** The gauge of a key and path is the least time of its entries, in whatever order they are visited. *)
Lemma current_lcuts_least key entries : least_of key entries (current_lcuts entries !! key).
Proof.
  induction entries as [|[id c] entries IH] using rev_ind.
  { cbn. rewrite lookup_empty. intros e He. by apply elem_of_nil in He. }
  unfold current_lcuts in *. rewrite foldl_snoc. cbn [fst snd].
  set (m := foldl _ ∅ entries) in *.
  assert (forall e, e ∈ entries ++ [(id, c)] <-> e ∈ entries \/ e = (id, c)) as Hin.
  { intros e. by rewrite elem_of_app, list_elem_of_singleton. }
  destruct (decide (context_id_key id = key)) as [<-|Hne].
  - destruct (m !! context_id_key id) as [[id0 l]|] eqn:Em; rewrite lookup_insert_eq; cbn.
    + cbn in IH. destruct IH as (Hk & (e0 & He0 & Hk0 & Hl0) & Hmin). split; [done|]. split.
      * destruct (N.min_spec l (cs_lcut c)) as [[_ ->]|[_ ->]].
        -- exists e0. rewrite Hin. naive_solver.
        -- exists (id, c). rewrite Hin. naive_solver.
      * intros e [He| ->]%Hin Hke; [specialize (Hmin e He Hke); lia|cbn; lia].
    + cbn in IH. split; [done|]. split.
      * exists (id, c). rewrite Hin. naive_solver.
      * intros e [He| ->]%Hin Hke; [by apply IH in He|cbn; lia].
  - assert (forall v, <[context_id_key id := v]> m !! key = m !! key) as Hins.
    { intros v. by rewrite lookup_insert_ne. }
    assert (least_of key (entries ++ [(id, c)]) (m !! key)) as Hl.
    { destruct (m !! key) as [[id0 l]|]; cbn in *.
      - destruct IH as (Hk & (e0 & He0 & Hk0 & Hl0) & Hmin). split; [done|]. split.
        + exists e0. rewrite Hin. naive_solver.
        + intros e [He| ->]%Hin Hke; [by apply Hmin|done].
      - intros e [He| ->]%Hin; [by apply IH|done]. }
    destruct (m !! context_id_key id) as [[? ?]|]; by rewrite Hins.
Qed.

(** ** Files served from the cache *)

Lemma substring_suffix n s :
  n <= String.length s ->
  exists p, s = p +:+ String.substring n (String.length s - n) s /\ String.length p = n.
Proof.
  revert n. induction s as [|c s IH]; intros [|n] Hn; cbn in Hn.
  - by exists "".
  - lia.
  - exists "". split; [|done]. rewrite str_nil_app. cbn. f_equal.
    clear. induction s; cbn; [done|]. by f_equal.
  - destruct (IH n) as (p & Hp & Hl); [lia|]. exists (String c p). rewrite str_cons_app. cbn.
    split; [by rewrite Hp at 1|]. by f_equal.
Qed.

(** a file request answered from the cache gets what its range asks of a file at
    least as long as the manifest promised: the whole file without a range, the rest of the
    file from the asked offset with status 206, and status 416 only when the client is at the very
    end of the file the manifest names. *)
Theorem cached_file_reply context store hit :
  get_cached_hit context store = Some hit ->
  (forall size, id_list_size context = Some size -> (size <= byte_len hit)%N) /\
  match build_download_id_list_file_payload context hit with
  | Text body status _ =>
      (range_start context = None /\ status = 200%N /\ body = hit) \/
      (exists start prefix, range_start context = Some start /\ status = 206%N /\
         hit = prefix +:+ body /\ byte_len prefix = start /\ body <> "")
  | RangeNotSatisfiable len =>
      len = byte_len hit /\ range_start context = Some len /\ id_list_size context = Some len
  | _ => False
  end.
Proof.
  unfold get_cached_hit. intros Hhit. destruct (get_stored_body context store) as [b|]; [|done].
  cbn in Hhit. destruct (cached_body_satisfies_request b context) eqn:Hok; [|done].
  injection Hhit as ->. unfold cached_body_satisfies_request, at_least in Hok.
  unfold build_download_id_list_file_payload.
  destruct (range_start context) as [start|] eqn:Er.
  2: { split; [|by left]. intros size Hs. rewrite Hs in Hok. by apply bool_decide_eq_true in Hok. }
  assert ((start < byte_len hit)%N \/
          (start = byte_len hit /\ id_list_size context = Some (byte_len hit))) as Hstart.
  { destruct (id_list_size context) as [size|].
    - apply andb_true_iff in Hok as [[Hlt%bool_decide_eq_true|[He Hsz]%andb_true_iff]%orb_true_iff _]; [by left|].
      apply bool_decide_eq_true in He, Hsz. by right.
    - apply bool_decide_eq_true in Hok. by left. }
  split.
  { intros size Hs. rewrite Hs in Hok. apply andb_true_iff in Hok as [_ Hsz]. by apply bool_decide_eq_true in Hsz. }
  clear Hok. case_bool_decide as Hle.
  { destruct Hstart as [?|[-> Hsz]]; [lia|]. by rewrite Hsz. }
  right. destruct (substring_suffix (N.to_nat start) hit) as (p & Hp & Hl); [unfold byte_len in Hle; lia|].
  exists start, p. split; [done|]. split; [done|]. split; [done|].
  split; [unfold byte_len; lia|]. intros Hnil. rewrite Hnil, str_app_nil_r in Hp. subst p.
  unfold byte_len in Hle. lia.
Qed.

Module FileExample.
Definition context : AuthorizedRequestContext :=
  with_id_list_request (Some "f") (Some 2%N) (Some 6%N) (context_new "secret-key" V1DownloadIdListFile [PlainText]).
Definition store : file_cache := {["f" := "abcdef"]}.
End FileExample.

Lemma cached_file_reply_witness :
  exists prefix, "abcdef" = prefix +:+ "cdef" /\ byte_len prefix = 2%N.
Proof.
  assert (get_cached_hit FileExample.context FileExample.store = Some "abcdef") as Hhit by (vm_compute; reflexivity).
  destruct (cached_file_reply _ _ _ Hhit) as [_ Hr].
  assert (build_download_id_list_file_payload FileExample.context "abcdef" = Text "cdef" 206 (Some "bytes 2-5/6"))
    as Hb by (vm_compute; reflexivity).
  rewrite Hb in Hr. destruct Hr as [(He & _)|(start & prefix & [= <-] & _ & Hp & Hl & _)]; [discriminate He|].
  exists prefix. by split.
Defined.
