(* ===== verification/SpecDeltas.v ===== *)
(** * SpecDeltas: cached config-spec deltas and the payloads combined from them

    Models [src/src/datastore/deltas_store.rs], [compress_response_payload] of
    [src/src/utils/response_compression.rs] and the delta endpoint of
    [src/src/servers/http_server.rs]. The protobuf messages and their codec are
    generated code and the [prost] library. *)
From S2P Require Import Prelude Encoding Request Namespaces Backoff Stores.

(** ** Generated and third-party code *)

(** The messages with the fields the code reads, the kinds it names, and the codec.
    A decoder reads a prefix of its buffer and leaves the rest. *)
Class SpecsProto := {
  SpecsEnvelope : Type;
  kind : SpecsEnvelope -> Z;
  env_data : SpecsEnvelope -> option string;
  SpecsTopLevel : Type;
  time : SpecsTopLevel -> N;
  KindDone : Z; KindCopyPrev : Z; KindTopLevel : Z; KindChecksums : Z;
  encode_length_delimited : SpecsEnvelope -> option string;
  decode_length_delimited : string -> option (SpecsEnvelope * string);
  decode_envelope : string -> option SpecsEnvelope;
  decode_top_level : string -> option SpecsTopLevel;
}.

(** What [prost] documents of its length-delimited encoding. *)
Class SpecsProtoLaws `{SpecsProto} := {
  decode_shrinks cursor e rest :
    decode_length_delimited cursor = Some (e, rest) -> String.length rest <= String.length cursor;
  encode_nonempty e s : encode_length_delimited e = Some s -> s <> "";
  decode_encode e s rest :
    encode_length_delimited e = Some s -> decode_length_delimited (s +:+ rest) = Some (e, rest);
}.

Class CompressLib := {
  gzip_compress : string -> option string;
  brotli_compress : string -> option string;
}.

Definition compress_response_payload `{CompressLib} (payload : string) (encoding : CompressionEncoder)
    : option string :=
  match encoding with
  | PlainText => Some payload
  | Gzip => gzip_compress payload
  | Brotli | StatsigBrotli => brotli_compress payload
  | _ => None
  end.

Section DeltasStore.
Context `{SpecsProto} `{PayloadLib}.

(** ** The store *)

Record DeltaCacheEntry := {
  since_time_requested : N;
  d_lcut : N;
  d_top_level : SpecsTopLevel;
  d_envelopes : list SpecsEnvelope;
}.

Inductive DeltaProtoBuildResult :=
| SdkKeyNotRegistered
| NoCachedDeltas
| SinceTimeTooOld (earliest_since_time : N)
| NoUpdates (lcut : N)
| Combined (lcut : N) (payload : string)
| SerializationFailed.

(** [d_keys] is a key store of its own: the delta poller does not share the one of the config specs. *)
Record DeltasStore := {
  d_store : gmap string (list DeltaCacheEntry);
  d_keys : keystore;
  max_responses_to_persist : nat;
}.
Definition deltas_new (max_responses : nat) : DeltasStore :=
  {| d_store := ∅; d_keys := ∅; max_responses_to_persist := max max_responses 1 |}.
Definition with_store (f : gmap string (list DeltaCacheEntry) -> gmap string (list DeltaCacheEntry))
    (self : DeltasStore) : DeltasStore :=
  {| d_store := f (d_store self); d_keys := d_keys self; max_responses_to_persist := max_responses_to_persist self |}.
Definition with_keys (f : keystore -> keystore) (self : DeltasStore) : DeltasStore :=
  {| d_store := d_store self; d_keys := f (d_keys self); max_responses_to_persist := max_responses_to_persist self |}.

Definition to_delta_request_context (context : AuthorizedRequestContext) : AuthorizedRequestContext :=
  with_request_capabilities (supports_proto context) (accept_deltas context)
    (context_new (sdk_key context) V2DownloadConfigSpecsDeltas (encodings context)).

Definition has_registered_key (context : AuthorizedRequestContext) (self : DeltasStore) : bool :=
  has_key (to_delta_request_context context) (d_keys self).
Definition register_sdk_key (context : AuthorizedRequestContext) (since_time : N) (self : DeltasStore)
    : DeltasStore := with_keys (upsert (to_delta_request_context context) since_time) self.
Definition get_cached_deltas (context : AuthorizedRequestContext) (self : DeltasStore) : list DeltaCacheEntry :=
  default [] (d_store self !! sdk_key context).

(** [fetch] is the foreground fetch of the data provider. *)
Definition get_deltas (fetch : AuthorizedRequestContext -> N -> DeltasStore -> DeltasStore)
    (context : AuthorizedRequestContext) (self : DeltasStore) : list DeltaCacheEntry * DeltasStore :=
  let self :=
    if has_key context (d_keys self) then self
    else fetch context 0%N (with_keys (upsert (to_delta_request_context context) 0) self) in
  (get_cached_deltas context self, self).

Definition remove_sdk_key (context : AuthorizedRequestContext) (self : DeltasStore) : DeltasStore :=
  with_store (delete (sdk_key context)) (with_keys (remove_key context) self).

(** ** Combining deltas *)

Definition is_meta_envelope (k : Z) : bool :=
  bool_decide (k = KindDone) || bool_decide (k = KindCopyPrev)
  || bool_decide (k = KindTopLevel) || bool_decide (k = KindChecksums).

Fixpoint write_envelopes (es : list SpecsEnvelope) (payload : string) : option string :=
  match es with
  | [] => Some payload
  | e :: es => s ← encode_length_delimited e; write_envelopes es (payload +:+ s)
  end.

Definition assemble_envelopes_in_delta_order (selected_deltas : list DeltaCacheEntry) : option string :=
  match last selected_deltas with
  | None => Some ""
  | Some last_delta =>
      payload ← write_envelopes
        (filter (fun e => is_meta_envelope (kind e) && negb (bool_decide (kind e = KindChecksums))
                          && negb (bool_decide (kind e = KindDone)) = true) (d_envelopes last_delta)) "";
      payload ← write_envelopes
        (selected_deltas ≫= (fun d => filter (fun e => is_meta_envelope (kind e) = false) (d_envelopes d))) payload;
      write_envelopes
        (filter (fun e => kind e = KindChecksums \/ kind e = KindDone) (d_envelopes last_delta)) payload
  end.

Fixpoint min_list (l : list N) : option N :=
  match l with
  | [] => None
  | x :: l => Some (match min_list l with Some y => N.min x y | None => x end)
  end.

Definition build_combined_delta_proto_payload (context : AuthorizedRequestContext) (since_time : N)
    (self : DeltasStore) : DeltaProtoBuildResult :=
  let mapped := to_delta_request_context context in
  if negb (has_key mapped (d_keys self)) then SdkKeyNotRegistered
  else
    let deltas := get_cached_deltas mapped self in
    match deltas with
    | [] => NoCachedDeltas
    | _ =>
        let earliest_requested_time := default 0%N (min_list (since_time_requested <$> deltas)) in
        let latest_lcut := from_option d_lcut 0%N (last deltas) in
        if bool_decide (since_time < earliest_requested_time)%N then SinceTimeTooOld earliest_requested_time
        else
          let selected_deltas := filter (fun d => since_time <= d_lcut d)%N deltas in
          if bool_decide (selected_deltas = []) || bool_decide (since_time = latest_lcut)
          then NoUpdates latest_lcut
          else
            match assemble_envelopes_in_delta_order selected_deltas with
            | Some payload => Combined latest_lcut payload
            | None => SerializationFailed
            end
    end.

(** ** Keeping a delta *)

Definition decompress (payload : ResponsePayload) : option string :=
  match encoding payload with
  | Brotli | StatsigBrotli => brotli_decompress (data payload)
  | Gzip => gunzip (data payload)
  | PlainText => Some (data payload)
  | _ => None
  end.

(** Every round but the last shortens the cursor, so its length and one is enough fuel. *)
Fixpoint decode_envelopes_loop (fuel : nat) (payload cursor : string) (envelopes : list SpecsEnvelope)
    : result unit (list SpecsEnvelope) :=
  match fuel with
  | O => Err tt
  | S fuel =>
      if str_empty cursor then Ok envelopes
      else
        match decode_length_delimited cursor with
        | Some (envelope, rest) =>
            if bool_decide (String.length rest = String.length cursor) then Ok (envelopes ++ [envelope])
            else decode_envelopes_loop fuel payload rest (envelopes ++ [envelope])
        | None =>
            match envelopes with
            | [] => (fun e => [e]) <$> ok_or tt (decode_envelope payload)
            | _ => Err tt
            end
        end
  end.
Definition decode_envelopes (payload : string) : result unit (list SpecsEnvelope) :=
  decode_envelopes_loop (S (String.length payload)) payload payload [].

Definition parse_payload_to_protos (payload : ResponsePayload) : option (list SpecsEnvelope * SpecsTopLevel) :=
  if negb (use_proto payload) then None
  else
    decompressed ← decompress payload;
    envelopes ← result_ok (decode_envelopes decompressed);
    let from_envelope :=
      envelope ← head (filter (fun e => kind e = KindTopLevel) envelopes);
      d ← env_data envelope;
      decode_top_level d in
    let maybe_top_level :=
      match from_envelope with Some t => Some t | None => decode_top_level decompressed end in
    (fun top_level => (envelopes, top_level)) <$> maybe_top_level.

(** Before the first entry that is newer. *)
Fixpoint insert_entry (entry : DeltaCacheEntry) (records : list DeltaCacheEntry) : list DeltaCacheEntry :=
  match records with
  | [] => [entry]
  | r :: records' =>
      if bool_decide (d_lcut entry < d_lcut r)%N then entry :: records else r :: insert_entry entry records'
  end.
Fixpoint pop_front_while (max_len : nat) (records : list DeltaCacheEntry) : list DeltaCacheEntry :=
  match records with
  | [] => []
  | _ :: records' => if bool_decide (max_len < length records) then pop_front_while max_len records' else records
  end.
Definition keep_entry (max_len : nat) (entry : DeltaCacheEntry) (records : list DeltaCacheEntry)
    : list DeltaCacheEntry := pop_front_while max_len (insert_entry entry records).

Definition persist_delta (context : AuthorizedRequestContext) (payload : ResponsePayload)
    (since_time_requested : N) (self : DeltasStore) : DeltasStore :=
  match parse_payload_to_protos payload with
  | None => self
  | Some (envelopes, top_level) =>
      let new_entry := {| since_time_requested := since_time_requested; d_lcut := time top_level;
                          d_top_level := top_level; d_envelopes := envelopes |} in
      with_store (fun store =>
        <[sdk_key context := keep_entry (max_responses_to_persist self) new_entry
                               (default [] (store !! sdk_key context))]> store) self
  end.

(** ** Observing the data provider *)

Definition deltas_update (context : AuthorizedRequestContext) (response : ResponseContext)
    (self : DeltasStore) : DeltasStore :=
  match path context with
  | V2DownloadConfigSpecs =>
      if negb (supports_proto context) || negb (accept_deltas context) then self
      else
        match result_type response with
        | DataAvailable =>
            let delta_context := to_delta_request_context context in
            if has_key delta_context (d_keys self) then self
            else with_keys (upsert delta_context (lcut response)) self
        | Unauthorized | ClientError => remove_sdk_key (to_delta_request_context context) self
        | RequestError | NoDataAvailable => self
        end
  | V2DownloadConfigSpecsDeltas =>
      match result_type response with
      | DataAvailable =>
          with_keys (upsert context (lcut response))
            (persist_delta context (body response) (request_since_time response) self)
      | Unauthorized | ClientError => remove_sdk_key context self
      | RequestError | NoDataAvailable => self
      end
  | _ => self
  end.

(** ** The delta endpoint *)

Inductive DeltaPayloadError :=
| DeltasDisabled | UnsupportedPath | SupportsProtoRequired | MissingSinceTime | ZeroSinceTime
| ErrSdkKeyNotRegistered | ErrNoCachedDeltas | ErrSinceTimeTooOld (since_time earliest_since_time : N)
| ErrSerializationFailed.

Definition http_status (e : DeltaPayloadError) : N :=
  match e with
  | DeltasDisabled => 503
  | UnsupportedPath => 500
  | SupportsProtoRequired | MissingSinceTime | ZeroSinceTime => 400
  | ErrSdkKeyNotRegistered | ErrNoCachedDeltas | ErrSinceTimeTooOld _ _ => 409
  | ErrSerializationFailed => 500
  end.

Definition delta_error_body (e : DeltaPayloadError) : string :=
  match e with
  | DeltasDisabled => "Delta serving disabled"
  | UnsupportedPath => "Delta payload requested for unsupported path"
  | SupportsProtoRequired => "supports_proto=true is required"
  | MissingSinceTime => "Missing sinceTime parameter"
  | ZeroSinceTime => "sinceTime must be greater than 0 for download_config_specs_deltas"
  | ErrSdkKeyNotRegistered => "SDK key not registered for delta tracking"
  | ErrNoCachedDeltas => "No cached deltas available yet"
  | ErrSinceTimeTooOld _ _ => "sinceTime is older than the retained delta history"
  | ErrSerializationFailed => "Failed to serialize delta payload"
  end.

Definition validate_direct_delta_request (context : AuthorizedRequestContext) (since_time : option N)
    : result DeltaPayloadError N :=
  if negb (supports_proto context) then Err SupportsProtoRequired
  else
    match since_time with
    | Some 0%N => Err ZeroSinceTime
    | Some since_time => Ok since_time
    | None => Err MissingSinceTime
    end.

Definition try_build_delta_payload `{CompressLib} (deltas_background_loop_enabled : bool)
    (self : DeltasStore) (context : AuthorizedRequestContext) (since_time : N) (no_update_payload : ResponsePayload)
    : result DeltaPayloadError RequestPayloads :=
  if negb deltas_background_loop_enabled then Err DeltasDisabled
  else if negb (bool_decide (path context = V2DownloadConfigSpecs)
                || bool_decide (path context = V2DownloadConfigSpecsDeltas)) then Err UnsupportedPath
  else if negb (supports_proto context) then Err SupportsProtoRequired
  else
    match build_combined_delta_proto_payload context since_time self with
    | SdkKeyNotRegistered => Err ErrSdkKeyNotRegistered
    | NoCachedDeltas => Err ErrNoCachedDeltas
    | SinceTimeTooOld earliest => Err (ErrSinceTimeTooOld since_time earliest)
    | NoUpdates lcut => Ok (to_request_payload_with_delta_used no_update_payload lcut true)
    | SerializationFailed => Err ErrSerializationFailed
    | Combined lcut payload =>
        let compression := preferred_response_compression (encodings context) in
        match compress_response_payload payload compression with
        | None => Ok (to_request_payload_with_delta_used no_update_payload lcut true)
        | Some compressed => Ok (Proto compressed lcut compression true)
        end
    end.

(** The handler of [download_config_specs_deltas], less the shadow fetch it spawns for the config
    spec of the same key. [None] is a server without a deltas store. *)
Definition get_download_config_specs_deltas `{CompressLib} (deltas_background_loop_enabled : bool)
    (context : AuthorizedRequestContext) (since_time : option N) (self : option DeltasStore)
    : RequestPayloads * option DeltasStore :=
  match validate_direct_delta_request context since_time with
  | Err error => (PayloadError (http_status error) (delta_error_body error), self)
  | Ok since_time =>
      match self with
      | None => (PayloadError 503 "Deltas store unavailable", self)
      | Some store =>
          let store := register_sdk_key context since_time store in
          (match try_build_delta_payload deltas_background_loop_enabled store context since_time no_update_config with
           | Ok payload => payload
           | Err error => PayloadError (http_status error) (delta_error_body error)
           end, Some store)
      end
  end.
End DeltasStore.

(** ** Retained deltas *)

Lemma match_nonempty {A B} (l : list A) (x y : B) : l <> [] -> match l with [] => x | _ :: _ => y end = y.
Proof. by destruct l. Qed.

Section DeltaProofs.
Context `{SpecsProto} `{PayloadLib}.

Definition older (a b : DeltaCacheEntry) : Prop := (d_lcut a <= d_lcut b)%N.

Lemma insert_entry_perm e l : insert_entry e l ≡ₚ e :: l.
Proof.
  induction l as [|r l IH]; cbn; [done|]. case_bool_decide; [done|]. rewrite IH. by constructor.
Qed.

Lemma insert_entry_sorted e l : StronglySorted older l -> StronglySorted older (insert_entry e l).
Proof.
  induction 1 as [|r l Hl IH Hr]; cbn; [by repeat constructor|]. case_bool_decide as Hlt.
  - constructor; [by constructor|]. constructor; [unfold older; lia|].
    eapply Forall_impl; [exact Hr|]. unfold older. lia.
  - constructor; [done|]. rewrite insert_entry_perm. constructor; [unfold older; lia|done].
Qed.

Lemma pop_front_while_drop n l : pop_front_while n l = drop (length l - n) l.
Proof.
  induction l as [|r l IH]; [by destruct n|]. cbn [pop_front_while]. case_bool_decide as Hlt; cbn in Hlt.
  - rewrite IH. cbn [length]. by replace (S (length l) - n) with (S (length l - n)) by lia.
  - by replace (length (r :: l) - n) with 0 by (cbn; lia).
Qed.

Lemma keep_entry_sorted n e l : StronglySorted older l -> StronglySorted older (keep_entry n e l).
Proof.
  intros Hl. unfold keep_entry. rewrite pop_front_while_drop.
  apply (insert_entry_sorted e) in Hl. rewrite <- (take_drop (length (insert_entry e l) - n) _) in Hl.
  by apply StronglySorted_app_1_r in Hl.
Qed.

Lemma keep_entry_length n e l : length (keep_entry n e l) = min n (S (length l)).
Proof.
  unfold keep_entry. rewrite pop_front_while_drop, length_drop.
  rewrite (Permutation_length (insert_entry_perm e l)). cbn. lia.
Qed.

(** The newest entry of a sorted list is its last. *)
Lemma sorted_last l e : StronglySorted older l -> e ∈ l -> (d_lcut e <= from_option d_lcut 0 (last l))%N.
Proof.
  intros Hl He. destruct l as [|x l _] using rev_ind; [by apply elem_of_nil in He|].
  rewrite last_snoc. cbn. apply elem_of_app in He as [He|He%list_elem_of_singleton]; [|by subst].
  eapply (StronglySorted_app_1_elem_of older); [exact Hl|done|by left].
Qed.

Lemma min_list_spec l m :
  min_list l = Some m -> m ∈ l /\ forall x, x ∈ l -> (m <= x)%N.
Proof.
  revert m. induction l as [|x l IH]; intros m; cbn; [done|]. destruct (min_list l) as [y|] eqn:El; intros [= <-].
  - destruct (IH _ eq_refl) as [Hy Hmin]. split.
    + destruct (N.min_spec x y) as [[_ ->]|[_ ->]]; [by left|by right].
    + intros z [->|Hz]%elem_of_cons; [lia|]. specialize (Hmin z Hz). lia.
  - destruct l as [|z l]; [|discriminate El]. split; [by left|]. intros z ->%list_elem_of_singleton. done.
Qed.

Definition earliest (l : list DeltaCacheEntry) : N := default 0%N (min_list (since_time_requested <$> l)).
Definition latest (l : list DeltaCacheEntry) : N := from_option d_lcut 0%N (last l).

Lemma earliest_spec l :
  l <> [] ->
  (exists e, e ∈ l /\ since_time_requested e = earliest l) /\
  forall e, e ∈ l -> (earliest l <= since_time_requested e)%N.
Proof.
  intros Hne. unfold earliest. destruct (min_list (since_time_requested <$> l)) as [m|] eqn:Em.
  - apply min_list_spec in Em as [Hin Hmin]. apply list_elem_of_fmap in Hin as (e & -> & He). split; [by exists e|].
    intros e' He'. apply Hmin, list_elem_of_fmap. by exists e'.
  - destruct l; [done|discriminate Em].
Qed.

(** No update between the oldest and the newest time of the history is missing from it. *)
Definition covers (l : list DeltaCacheEntry) : Prop :=
  forall t, (earliest l < t <= latest l)%N ->
    exists e, e ∈ l /\ (since_time_requested e < t <= d_lcut e)%N.

Lemma latest_max l e : StronglySorted older l -> e ∈ l -> (d_lcut e <= latest l)%N.
Proof. apply sorted_last. Qed.
Lemma latest_in l : l <> [] -> exists e, e ∈ l /\ d_lcut e = latest l.
Proof.
  intros Hne. unfold latest. destruct l as [|x l _] using rev_ind; [done|]. rewrite last_snoc.
  exists x. split; [apply elem_of_app; right; by left|done].
Qed.

Lemma insert_covers e l :
  StronglySorted older l -> covers l ->
  l = [] \/ (since_time_requested e <= latest l /\ earliest l <= d_lcut e)%N ->
  covers (insert_entry e l).
Proof.
  intros Hs Hc Hj t [Hlo Hhi]. pose proof (insert_entry_perm e l) as Hp.
  assert (forall x, x ∈ insert_entry e l <-> x = e \/ x ∈ l) as Hin.
  { intros x. rewrite Hp. apply elem_of_cons. }
  assert (insert_entry e l <> []) as Hne.
  { intros E. rewrite E in Hp. by apply Permutation_nil_cons in Hp. }
  destruct (earliest_spec _ Hne) as [(a & Ha & Hae) Hmin].
  destruct (latest_in _ Hne) as (b & Hb & Hbe). rewrite <- Hae in Hlo. rewrite <- Hbe in Hhi.
  apply Hin in Ha, Hb. destruct (decide (since_time_requested e < t <= d_lcut e)%N) as [He|He].
  { exists e. split; [apply Hin; by left|done]. }
  destruct Hj as [->|[Hj1 Hj2]].
  { destruct Ha as [->|Ha%elem_of_nil]; [|done]. destruct Hb as [->|Hb%elem_of_nil]; [|done]. by destruct He. }
  assert (l <> []) as Hl. { intros ->. cbn in *. destruct Ha as [->|Ha%elem_of_nil]; [|done].
    destruct Hb as [->|Hb%elem_of_nil]; [|done]. by destruct He. }
  destruct (earliest_spec _ Hl) as [_ Hminl].
  assert (earliest l < t <= latest l)%N as Ht.
  { destruct Ha as [->|Ha]; destruct Hb as [->|Hb]; try specialize (Hminl _ Ha);
      try pose proof (latest_max _ _ Hs Hb); lia. }
  destruct (Hc t Ht) as (x & Hx & Hxt). exists x. split; [apply Hin; by right|done].
Qed.

Lemma suffix_covers l1 l2 : StronglySorted older (l1 ++ l2) -> covers (l1 ++ l2) -> covers l2.
Proof.
  intros Hs Hc t [Hlo Hhi]. destruct (decide (l2 = [])) as [->|Hne]; [cbn in *; lia|].
  destruct (earliest_spec _ Hne) as [(k & Hk & Hke) _].
  assert (l1 ++ l2 <> []) as Hne'. { intros E. by apply app_eq_nil in E as [_ ?]. }
  destruct (earliest_spec _ Hne') as [_ Hmin].
  assert (earliest (l1 ++ l2) < t <= latest (l1 ++ l2))%N as Ht.
  { split.
    - specialize (Hmin k ltac:(apply elem_of_app; by right)). lia.
    - destruct (latest_in _ Hne) as (b & Hb & Hbe). rewrite <- Hbe in Hhi. etransitivity; [exact Hhi|].
      apply latest_max; [done|]. apply elem_of_app. by right. }
  destruct (Hc t Ht) as (x & [Hx|Hx]%elem_of_app & Hxt); [|by exists x].
  exists k. split; [done|]. split; [lia|].
  etransitivity; [apply Hxt|]. eapply (StronglySorted_app_1_elem_of older); eauto.
Qed.

(** Keeping a delta that starts inside the history and does not end before it leaves
    no hole, whatever is dropped from the front. *)
Lemma keep_covers n e l :
  StronglySorted older l -> covers l ->
  l = [] \/ (since_time_requested e <= latest l /\ earliest l <= d_lcut e)%N ->
  covers (keep_entry n e l).
Proof.
  intros Hs Hc Hj. unfold keep_entry. rewrite pop_front_while_drop.
  set (m := length (insert_entry e l) - n). apply (suffix_covers (take m (insert_entry e l))); rewrite take_drop.
  - by apply insert_entry_sorted.
  - by apply insert_covers.
Qed.

(** ** What a combined payload holds *)

Fixpoint encode_all (es : list SpecsEnvelope) : option string :=
  match es with
  | [] => Some ""
  | e :: es => s ← encode_length_delimited e; rest ← encode_all es; Some (s +:+ rest)
  end.

Lemma write_envelopes_all es p : write_envelopes es p = (fun s => p +:+ s) <$> encode_all es.
Proof.
  revert p. induction es as [|e es IH]; intros p; cbn; [by rewrite str_app_nil_r|].
  destruct (encode_length_delimited e) as [s|]; cbn; [|done]. rewrite IH.
  destruct (encode_all es); cbn; [by rewrite str_app_assoc|done].
Qed.

Lemma encode_all_app es1 es2 s1 s2 :
  encode_all es1 = Some s1 -> encode_all es2 = Some s2 -> encode_all (es1 ++ es2) = Some (s1 +:+ s2).
Proof.
  revert s1. induction es1 as [|e es1 IH]; intros s1 H1 H2; cbn in *.
  - injection H1 as <-. by rewrite str_nil_app.
  - destruct (encode_length_delimited e) as [s|]; cbn in *; [|done].
    destruct (encode_all es1) as [r|]; cbn in *; [|done]. injection H1 as <-.
    rewrite (IH r) by done. cbn. by rewrite str_app_assoc.
Qed.

Lemma decode_encode_all `{!SpecsProtoLaws} es s fuel payload acc :
  encode_all es = Some s -> String.length s < fuel ->
  decode_envelopes_loop fuel payload s acc = Ok (acc ++ es).
Proof.
  revert s fuel acc. induction es as [|e es IH]; intros s fuel acc Hs Hf; cbn in Hs.
  - injection Hs as <-. destruct fuel; [lia|]. cbn. by rewrite app_nil_r.
  - destruct (encode_length_delimited e) as [s1|] eqn:E1; cbn in Hs; [|done].
    destruct (encode_all es) as [r|] eqn:Er; cbn in Hs; [|done]. injection Hs as <-.
    destruct fuel as [|fuel]; [lia|]. cbn [decode_envelopes_loop].
    pose proof (encode_nonempty _ _ E1) as Hn. rewrite str_app_length in Hf.
    assert (1 <= String.length s1) as Hl. { destruct s1; [done|cbn; lia]. }
    unfold str_empty. rewrite bool_decide_false.
    2: { intros He. apply (f_equal String.length) in He. rewrite str_app_length in He. cbn in He. lia. }
    rewrite (decode_encode _ _ _ E1), bool_decide_false by (rewrite str_app_length; lia).
    rewrite (IH r) by (done || lia). by rewrite <- app_assoc.
Qed.

Lemma decode_envelopes_encoded `{!SpecsProtoLaws} es s : encode_all es = Some s -> decode_envelopes s = Ok es.
Proof. intros Hs. exact (decode_encode_all es s (S (String.length s)) s [] Hs (Nat.lt_succ_diag_r _)). Qed.

(** The envelopes of a combined payload: the control envelopes of the newest delta,
    the data of every selected delta from the oldest on, and what closes the newest. *)
Definition control_envelopes (d : DeltaCacheEntry) : list SpecsEnvelope :=
  filter (fun e => is_meta_envelope (kind e) && negb (bool_decide (kind e = KindChecksums))
                   && negb (bool_decide (kind e = KindDone)) = true) (d_envelopes d).
Definition data_envelopes (d : DeltaCacheEntry) : list SpecsEnvelope :=
  filter (fun e => is_meta_envelope (kind e) = false) (d_envelopes d).
Definition closing_envelopes (d : DeltaCacheEntry) : list SpecsEnvelope :=
  filter (fun e => kind e = KindChecksums \/ kind e = KindDone) (d_envelopes d).

Lemma assemble_decodes `{!SpecsProtoLaws} selected newest p :
  last selected = Some newest ->
  assemble_envelopes_in_delta_order selected = Some p ->
  decode_envelopes p =
    Ok (control_envelopes newest ++ (selected ≫= data_envelopes) ++ closing_envelopes newest).
Proof.
  intros Hl. unfold assemble_envelopes_in_delta_order. rewrite Hl.
  fold (control_envelopes newest) (closing_envelopes newest). fold data_envelopes.
  rewrite write_envelopes_all. destruct (encode_all (control_envelopes newest)) as [s1|] eqn:E1; cbn; [|done].
  rewrite write_envelopes_all. destruct (encode_all (selected ≫= data_envelopes)) as [s2|] eqn:E2; cbn; [|done].
  rewrite write_envelopes_all. destruct (encode_all (closing_envelopes newest)) as [s3|] eqn:E3; cbn; [|done].
  intros [= <-]. rewrite str_nil_app. apply decode_envelopes_encoded. rewrite app_assoc. by apply encode_all_app; [apply encode_all_app|].
Qed.

Lemma last_filter_sorted (l : list DeltaCacheEntry) since :
  StronglySorted older l -> l <> [] -> filter (fun d => since <= d_lcut d)%N l <> [] ->
  last (filter (fun d => since <= d_lcut d)%N l) = last l.
Proof.
  intros Hs Hne Hf. destruct l as [|x l _] using rev_ind; [done|]. rewrite last_snoc, filter_app.
  destruct (decide (since <= d_lcut x)%N) as [Hx|Hx].
  - rewrite (filter_cons_True _ x []) by done. rewrite filter_nil. by rewrite last_snoc.
  - destruct Hf. apply elem_of_nil_inv. intros y [Hy Hin]%list_elem_of_filter.
    pose proof (latest_max _ _ Hs Hin) as Hle. unfold latest in Hle. rewrite last_snoc in Hle. cbn in Hle. lia.
Qed.

End DeltaProofs.

(** ** The history has no holes *)

Section DeltaHistory.
Context `{SpecsProto} `{PayloadLib}.

(** The deltas of a context: sorted, as many as configured, without holes, and the
    next poll asks from a time inside them. *)
Definition deltas_ok (context : AuthorizedRequestContext) (self : DeltasStore) : Prop :=
  let l := get_cached_deltas context self in
  1 <= max_responses_to_persist self /\
  StronglySorted older l /\ length l <= max_responses_to_persist self /\ covers l /\
  match get_lcut context (d_keys self) with
  | None => l = []
  | Some asked => (forall e, e ∈ l -> (since_time_requested e <= asked)%N) /\ (l <> [] -> (asked <= latest l)%N)
  end.

(** What happens to the deltas of [context], the only context of its SDK key: its polls,
    which ask from the registered time and are answered with a delta that reaches at least
    the time asked from and the time its response reports; answers that cannot be parsed and
    report no newer time; failed polls; the config spec polls and requests of the same
    client; and anything about other keys. A client may register a time only if that does
    not move the next poll beyond the history. *)
Inductive delta_step (context : AuthorizedRequestContext) (self : DeltasStore) : DeltasStore -> Prop :=
| step_poll response asked envelopes top_level :
    result_type response = DataAvailable ->
    get_lcut context (d_keys self) = Some asked -> request_since_time response = asked ->
    parse_payload_to_protos (body response) = Some (envelopes, top_level) ->
    (asked <= time top_level)%N -> (lcut response <= time top_level)%N ->
    delta_step context self (deltas_update context response self)
| step_poll_unparsable response asked :
    get_lcut context (d_keys self) = Some asked ->
    parse_payload_to_protos (body response) = None -> (lcut response <= asked)%N ->
    delta_step context self (deltas_update context response self)
| step_poll_failed response :
    result_type response <> DataAvailable -> delta_step context self (deltas_update context response self)
| step_specs other response :
    path other = V2DownloadConfigSpecs ->
    hash_input (to_delta_request_context other) = hash_input context ->
    delta_step context self (deltas_update other response self)
| step_register other since_time :
    hash_input (to_delta_request_context other) = hash_input context ->
    (forall asked, get_lcut context (d_keys self) = Some asked -> (since_time <= asked)%N) ->
    delta_step context self (register_sdk_key other since_time self)
| step_other_key other response :
    sdk_key other <> sdk_key context -> delta_step context self (deltas_update other response self)
| step_other_register other since_time :
    sdk_key other <> sdk_key context -> delta_step context self (register_sdk_key other since_time self).

Lemma hash_sdk_key a b : hash_input a = hash_input b -> sdk_key a = sdk_key b.
Proof. unfold hash_input. by intros [= ? _]. Qed.

Lemma get_lcut_upsert context c t m :
  get_lcut context (upsert c t m) =
    if decide (hash_input c = hash_input context)
    then Some (match get_lcut context m with Some old => N.max old t | None => t end)
    else get_lcut context m.
Proof.
  unfold get_lcut, upsert, keystore_insert. destruct (decide (hash_input c = hash_input context)) as [<-|Hne].
  - destruct (m !! hash_input c) as [i|] eqn:Em; cbn.
    + case_bool_decide; [rewrite lookup_insert_eq; cbn; f_equal; lia|rewrite Em; cbn; f_equal; lia].
    + by rewrite lookup_insert_eq.
  - destruct (m !! hash_input c); [case_bool_decide; [by rewrite lookup_insert_ne|done]|by rewrite lookup_insert_ne].
Qed.

Lemma remove_ok context c self :
  hash_input c = hash_input context -> 1 <= max_responses_to_persist self -> deltas_ok context (remove_sdk_key c self).
Proof.
  intros Hh Hm. unfold deltas_ok, get_cached_deltas, get_lcut, remove_sdk_key, remove_key; cbn.
  rewrite Hh, (hash_sdk_key _ _ Hh), !lookup_delete_eq. cbn.
  split; [done|]. split; [constructor|]. split; [lia|]. split; [intros t; cbn; lia|done].
Qed.

Lemma upsert_keys_ok context c t self :
  hash_input c = hash_input context ->
  deltas_ok context self ->
  match get_lcut context (d_keys self) with Some asked => (t <= asked)%N | None => True end ->
  deltas_ok context (with_keys (upsert c t) self).
Proof.
  unfold deltas_ok. cbn. intros Hh (Hm & Hs & Hlen & Hc & Hk) Ht.
  rewrite get_lcut_upsert, decide_True by done. unfold get_cached_deltas in *; cbn.
  split; [done|]. split; [done|]. split; [done|]. split; [done|].
  destruct (get_lcut context (d_keys self)) as [asked|].
  - by rewrite N.max_l.
  - rewrite Hk. split; [|done]. intros e He. by apply elem_of_nil in He.
Qed.

Lemma keep_entry_latest n e l :
  1 <= n -> StronglySorted older l -> (N.max (latest l) (d_lcut e) <= latest (keep_entry n e l))%N.
Proof.
  intros Hn Hs. unfold latest, keep_entry. rewrite pop_front_while_drop.
  pose proof (Permutation_length (insert_entry_perm e l)) as Hlen. cbn in Hlen.
  assert (last (drop (length (insert_entry e l) - n) (insert_entry e l)) = last (insert_entry e l)) as ->.
  { rewrite <- (take_drop (length (insert_entry e l) - n) (insert_entry e l)) at 3.
    rewrite last_app. destruct (last (drop _ _)) eqn:El; [done|]. apply last_None in El.
    apply (f_equal length) in El. rewrite length_drop, Hlen in El. cbn in El. lia. }
  fold (latest (insert_entry e l)). pose proof (insert_entry_sorted e l Hs) as Hs'.
  apply N.max_lub.
  - destruct (decide (l = [])) as [->|Hne]; [cbn; lia|]. destruct (latest_in _ Hne) as (b & Hb & Hbe).
    unfold latest in Hbe. rewrite <- Hbe. apply latest_max; [done|]. rewrite insert_entry_perm. by right.
  - apply latest_max; [done|]. rewrite insert_entry_perm. by left.
Qed.

Lemma keep_entry_subset n e l x : x ∈ keep_entry n e l -> x = e \/ x ∈ l.
Proof.
  unfold keep_entry. rewrite pop_front_while_drop. intros Hx.
  assert (x ∈ insert_entry e l) as Hin.
  { rewrite <- (take_drop (length (insert_entry e l) - n) (insert_entry e l)). apply elem_of_app. by right. }
  by rewrite insert_entry_perm, elem_of_cons in Hin.
Qed.

Lemma poll_ok context response self asked envelopes top_level :
  path context = V2DownloadConfigSpecsDeltas -> deltas_ok context self ->
  result_type response = DataAvailable ->
  get_lcut context (d_keys self) = Some asked -> request_since_time response = asked ->
  parse_payload_to_protos (body response) = Some (envelopes, top_level) ->
  (asked <= time top_level)%N -> (lcut response <= time top_level)%N ->
  deltas_ok context (deltas_update context response self).
Proof.
  intros Hp (Hm & Hs & Hlen & Hc & Hk) Hr Hasked Hreq Hparse Ht1 Ht2.
  unfold deltas_update. rewrite Hp, Hr. unfold persist_delta. rewrite Hparse.
  set (e := {| since_time_requested := _ |}). rewrite Hasked in Hk. destruct Hk as [Hsince Hlat].
  unfold deltas_ok, get_cached_deltas; cbn [with_keys with_store d_store d_keys max_responses_to_persist].
  rewrite get_lcut_upsert, decide_True, Hasked, lookup_insert_eq by done. cbn [default from_option id].
  fold (get_cached_deltas context self). set (l := get_cached_deltas context self) in *.
  split; [done|]. split; [by apply keep_entry_sorted|].
  split; [rewrite keep_entry_length; lia|]. split.
  - apply keep_covers; [done|done|]. destruct (decide (l = [])) as [->|Hne]; [by left|right].
    cbn [since_time_requested d_lcut e]. split; [rewrite Hreq; by apply Hlat|].
    destruct (earliest_spec _ Hne) as [(a & Ha & <-) _]. specialize (Hsince a Ha). lia.
  - split.
    + intros x [->|Hx]%keep_entry_subset; [cbn; lia|]. specialize (Hsince x Hx). lia.
    + intros _. pose proof (keep_entry_latest (max_responses_to_persist self) e l Hm Hs) as Hl. cbn in Hl. lia.
Qed.

Lemma other_update_ok context other response self :
  sdk_key other <> sdk_key context -> deltas_ok context self -> deltas_ok context (deltas_update other response self).
Proof.
  intros Hne Hok.
  assert (hash_input other <> hash_input context) as Hh. { intros E. by apply hash_sdk_key in E. }
  assert (hash_input (to_delta_request_context other) <> hash_input context) as Hd.
  { intros E. apply hash_sdk_key in E. by cbn in E. }
  assert (forall (s s' : DeltasStore), max_responses_to_persist s' = max_responses_to_persist s ->
    d_store s' !! sdk_key context = d_store s !! sdk_key context ->
    get_lcut context (d_keys s') = get_lcut context (d_keys s) -> deltas_ok context s -> deltas_ok context s') as Hsame.
  { intros s s' Em Es Ek. unfold deltas_ok, get_cached_deltas. by rewrite Em, Es, Ek. }
  assert (forall c, hash_input c <> hash_input context -> sdk_key c = sdk_key other ->
    deltas_ok context (remove_sdk_key c self)) as Hrm.
  { intros c Hc Hs. apply (Hsame self); [done| | |done]; unfold remove_sdk_key, get_lcut, remove_key; cbn.
    - rewrite lookup_delete_ne by congruence. done.
    - by rewrite lookup_delete_ne. }
  unfold deltas_update, persist_delta.
  destruct (path other); try done.
  - destruct (negb _ || negb _); [done|]. destruct (result_type response); try done; try by apply Hrm.
    destruct (has_key _ _); [done|]. apply (Hsame self); [done|done| |done]. cbn.
    by rewrite get_lcut_upsert, decide_False.
  - destruct (result_type response); try done; try by apply Hrm.
    destruct (parse_payload_to_protos _) as [[envelopes top_level]|].
    + apply (Hsame self); [done| | |done]; cbn; [by rewrite lookup_insert_ne|].
      by rewrite get_lcut_upsert, decide_False.
    + apply (Hsame self); [done|done| |done]. cbn. by rewrite get_lcut_upsert, decide_False.
Qed.

Lemma delta_step_ok context self self' :
  path context = V2DownloadConfigSpecsDeltas ->
  deltas_ok context self -> delta_step context self self' -> deltas_ok context self'.
Proof.
  intros Hp Hok Hstep. pose proof (proj1 Hok) as Hm. destruct Hstep.
  - by eapply poll_ok.
  - unfold deltas_update, persist_delta. rewrite Hp. destruct (result_type response); try done; try by apply remove_ok.
    match goal with E : parse_payload_to_protos _ = None |- _ => rewrite E end.
    apply upsert_keys_ok; [done|done|].
    by match goal with E : get_lcut _ _ = Some _ |- _ => rewrite E end.
  - unfold deltas_update. rewrite Hp. destruct (result_type response); try done; by apply remove_ok.
  - unfold deltas_update. rewrite H1. destruct (negb _ || negb _); [done|].
    destruct (result_type response); try done; try by apply remove_ok.
    destruct (has_key _ _) eqn:Ek; [done|]. apply upsert_keys_ok; [done|done|].
    unfold has_key in Ek. apply bool_decide_eq_false in Ek. unfold get_lcut. rewrite <- H2.
    destruct (d_keys self !! _); [|done]. destruct Ek. eauto.
  - apply upsert_keys_ok; [done|done|]. destruct (get_lcut context (d_keys self)); [by apply H2|done].
  - by apply other_update_ok.
  - destruct Hok as (H2 & H3 & H4 & H5 & H6). unfold deltas_ok, register_sdk_key, get_cached_deltas; cbn.
    rewrite get_lcut_upsert, decide_False; [done|]. intros E. apply hash_sdk_key in E. by cbn in E.
Qed.

Lemma deltas_new_ok context n : deltas_ok context (deltas_new n).
Proof.
  unfold deltas_ok, get_cached_deltas, get_lcut; cbn. rewrite !lookup_empty. cbn.
  split; [lia|]. split; [constructor|]. split; [lia|]. split; [intros t; cbn; lia|done].
Qed.

Lemma delta_steps_ok context self self' :
  path context = V2DownloadConfigSpecsDeltas ->
  deltas_ok context self -> rtc (delta_step context) self self' -> deltas_ok context self'.
Proof. intros Hp Hok Hrun. induction Hrun; [done|]. by eauto using delta_step_ok. Qed.

(** C7: from an empty store, the deltas kept for a context stay sorted, bounded and without
    holes, and its next poll asks from a time inside them, however its polls, failed ones
    included, the config spec polls and requests of the client, and the traffic of other
    SDK keys are interleaved. The conditions are those of [delta_step]: the context is
    the only one of its SDK key; its polls ask from the registered time; a delta that parses
    reaches at least the time asked from and the time its response reports; one that does not
    parse reports no newer time than asked; and no request registers a newer time than the
    poller has reached ([registering_ahead_leaves_hole] and [unparsable_delta_skipped]
    show what the last two exclude). *)
Theorem delta_history_complete context n self :
  path context = V2DownloadConfigSpecsDeltas ->
  rtc (delta_step context) (deltas_new n) self ->
  deltas_ok context self.
Proof. eauto using delta_steps_ok, deltas_new_ok. Qed.

(** A delta that cannot be parsed is dropped, and the next poll asks from behind it all the same. *)
Lemma unparsable_delta_skipped context response self :
  path context = V2DownloadConfigSpecsDeltas -> result_type response = DataAvailable ->
  parse_payload_to_protos (body response) = None ->
  let self' := deltas_update context response self in
  get_cached_deltas context self' = get_cached_deltas context self /\
  exists asked, get_lcut context (d_keys self') = Some asked /\ (lcut response <= asked)%N.
Proof.
  intros Hp Hr Hparse. cbv zeta. unfold deltas_update. rewrite Hp, Hr. unfold persist_delta. rewrite Hparse.
  split; [done|]. cbn [with_keys d_keys]. rewrite get_lcut_upsert, decide_True by done.
  eexists. split; [done|]. destruct (get_lcut context (d_keys self)); lia.
Qed.

(** ** A client ahead of the poller *)

Lemma insert_entry_newest e l : (forall x, x ∈ l -> (d_lcut x <= d_lcut e)%N) -> insert_entry e l = l ++ [e].
Proof.
  induction l as [|r l IH]; intros Hl; [done|]. cbn. rewrite bool_decide_false.
  - rewrite IH; [done|]. intros x Hx. apply Hl. by right.
  - specialize (Hl r ltac:(by left)). lia.
Qed.

(** registering a time beyond the history makes a hole in it. When a request carries a
    newer time than the poller has reached, the next poll asks from that time, and the answer is
    kept behind the older deltas: no delta then has the updates in between, and a
    client whose time lies in the older deltas is still answered with a combined payload up to the newest time. *)
Theorem registering_ahead_leaves_hole context since_time response self envelopes top_level
    (l := get_cached_deltas context self)
    (self' := deltas_update context response (register_sdk_key context since_time self))
    (l' := get_cached_deltas context self') :
  path context = V2DownloadConfigSpecsDeltas ->
  hash_input (to_delta_request_context context) = hash_input context ->
  deltas_ok context self -> l <> [] -> length l < max_responses_to_persist self ->
  (latest l < since_time)%N ->
  result_type response = DataAvailable -> request_since_time response = since_time ->
  parse_payload_to_protos (body response) = Some (envelopes, top_level) ->
  (since_time < time top_level)%N ->
  get_lcut context (d_keys (register_sdk_key context since_time self)) = Some since_time /\
  (forall t, (latest l < t <= since_time)%N -> forall e, e ∈ l' -> ~ (since_time_requested e < t <= d_lcut e)%N) /\
  (forall client, (earliest l <= client <= latest l)%N ->
     match build_combined_delta_proto_payload context client self' with
     | Combined lcut _ => lcut = time top_level
     | SerializationFailed => True
     | _ => False
     end).
Proof.
  intros Hp Hh (Hm & Hs & Hlen & Hc & Hk) Hne Hroom Hahead Hr Hreq Hparse Ht.
  set (e := {| since_time_requested := since_time; d_lcut := time top_level;
               d_top_level := top_level; d_envelopes := envelopes |}).
  assert (get_lcut context (d_keys (register_sdk_key context since_time self)) = Some since_time) as Hreg.
  { unfold register_sdk_key; cbn. rewrite get_lcut_upsert, decide_True by done. fold l in Hk.
    destruct (get_lcut context (d_keys self)) as [asked|]; [|done]. destruct Hk as [_ Hk]. f_equal. specialize (Hk Hne). lia. }
  assert (l' = l ++ [e]) as Hl'.
  { subst l' self'. unfold deltas_update. rewrite Hp, Hr. unfold persist_delta. rewrite Hparse, Hreq. fold e.
    unfold get_cached_deltas; cbn [with_keys with_store d_store max_responses_to_persist register_sdk_key].
    rewrite lookup_insert_eq. cbn [default from_option id]. fold (get_cached_deltas context self). fold l.
    unfold keep_entry. rewrite insert_entry_newest, pop_front_while_drop.
    - rewrite length_app. cbn. by replace (length l + 1 - max_responses_to_persist self) with 0 by lia.
    - intros x Hx. pose proof (latest_max _ _ Hs Hx). cbn. unfold l in *. lia. }
  split; [done|]. split.
  - intros t Htt x Hx. rewrite Hl' in Hx. apply elem_of_app in Hx as [Hx|Hx%list_elem_of_singleton].
    + pose proof (latest_max _ _ Hs Hx). unfold l in *. lia.
    + subst x. cbn. lia.
  - intros client Hcl. unfold build_combined_delta_proto_payload.
    assert (get_cached_deltas (to_delta_request_context context) self' = l') as ->.
    { unfold l', get_cached_deltas. by rewrite (hash_sdk_key _ _ Hh). }
    assert (has_key (to_delta_request_context context) (d_keys self') = true) as ->.
    { unfold has_key. rewrite Hh. apply bool_decide_eq_true. subst self'. unfold deltas_update. rewrite Hp, Hr.
      cbn [with_keys d_keys]. apply fmap_is_Some with (f := item_lcut).
      match goal with |- is_Some (item_lcut <$> upsert ?c ?t ?m !! _) =>
        change (is_Some (get_lcut context (upsert c t m))) end.
      rewrite get_lcut_upsert, decide_True by done. eauto. }
    cbn [negb]. rewrite Hl', match_nonempty by (by destruct l).
    rewrite last_snoc. cbn [from_option d_lcut e].
    fold (earliest (l ++ [e])).
    assert (earliest (l ++ [e]) <= client)%N as He.
    { destruct (earliest_spec _ Hne) as [(a & Ha & Hae) _].
      destruct (earliest_spec (l ++ [e]) ltac:(by destruct l)) as [_ Hmin].
      specialize (Hmin a ltac:(apply elem_of_app; by left)). lia. }
    rewrite (bool_decide_false (client < _)%N) by lia.
    assert (e ∈ filter (fun d => client <= d_lcut d)%N (l ++ [e])) as Hin.
    { apply list_elem_of_filter. split; [cbn; lia|]. apply elem_of_app. right. by left. }
    rewrite (bool_decide_false (filter _ _ = [])) by (intros E0; rewrite E0 in Hin; by apply elem_of_nil in Hin).
    rewrite (bool_decide_false (client = time top_level)) by lia. cbn [orb].
    by destruct (assemble_envelopes_in_delta_order _).
Qed.
End DeltaHistory.

(** ** A codec of one byte per envelope *)

Module SpecDeltaExample.
(** Three bits for the kind, five for the time a top-level envelope carries. *)
#[export] Instance proto : SpecsProto := {|
  SpecsEnvelope := ascii;
  kind c := Z.of_nat (nat_of_ascii c mod 8);
  env_data c := Some (String c "");
  SpecsTopLevel := N;
  time t := t;
  KindDone := 0; KindCopyPrev := 1; KindTopLevel := 2; KindChecksums := 3;
  encode_length_delimited c := Some (String c "");
  decode_length_delimited s := match s with String c s => Some (c, s) | EmptyString => None end;
  decode_envelope s := match s with String c EmptyString => Some c | _ => None end;
  decode_top_level s := match s with String c _ => Some (N.of_nat (nat_of_ascii c / 8)) | EmptyString => None end;
|}.
#[export] Instance proto_laws : SpecsProtoLaws.
Proof.
  split; cbn.
  - intros [|c s] e rest; [done|]. intros [= _ <-]. cbn. lia.
  - intros e s [= <-]. done.
  - intros e s rest [= <-]. by rewrite str_cons_app, str_nil_app.
Qed.
#[export] Instance payloads : PayloadLib := {|
  gunzip := fun s => Some s; brotli_decompress := fun s => Some s;
  json_manifest := fun _ => None; json_identity := fun _ => None |}.

Definition envelope (k t : nat) : ascii := ascii_of_nat (8 * t + k).
Definition delta_body (t : nat) : ResponsePayload :=
  {| encoding := PlainText; use_proto := true;
     data := String (envelope 2 t) (String (envelope 4 t) (String (envelope 0 t) "")) |}.
Definition context : AuthorizedRequestContext :=
  to_delta_request_context (with_request_capabilities true true (context_new "secret-key" V2DownloadConfigSpecs [Gzip])).
Definition answer (since t : nat) : ResponseContext :=
  {| result_type := DataAvailable; lcut := N.of_nat t; request_since_time := N.of_nat since; body := delta_body t |}.
Definition start : DeltasStore := register_sdk_key context 1 (deltas_new 4).
Definition polled : DeltasStore := deltas_update context (answer 1 3) start.
Definition polled_twice : DeltasStore := deltas_update context (answer 3 5) polled.
End SpecDeltaExample.
#[local] Existing Instances SpecDeltaExample.proto SpecDeltaExample.proto_laws SpecDeltaExample.payloads.

Lemma example_run : rtc (delta_step SpecDeltaExample.context) (deltas_new 4) SpecDeltaExample.polled_twice.
Proof.
  eapply rtc_l; [apply (step_register _ _ SpecDeltaExample.context 1%N); [reflexivity|]|].
  { intros asked Ha. vm_compute in Ha. discriminate. }
  eapply rtc_l; [eapply (step_poll _ _ (SpecDeltaExample.answer 1 3)); try (vm_compute; reflexivity);
    vm_compute; discriminate|].
  eapply rtc_l; [eapply (step_poll _ _ (SpecDeltaExample.answer 3 5)); try (vm_compute; reflexivity);
    vm_compute; discriminate|].
  apply rtc_refl.
Defined.

Lemma example_ok : deltas_ok SpecDeltaExample.context SpecDeltaExample.polled_twice.
Proof. exact (delta_steps_ok SpecDeltaExample.context _ _ eq_refl (deltas_new_ok _ 4) example_run). Qed.

Lemma delta_history_complete_witness : deltas_ok SpecDeltaExample.context SpecDeltaExample.polled_twice.
Proof. exact (delta_history_complete SpecDeltaExample.context 4 _ eq_refl example_run). Defined.


Lemma registering_ahead_leaves_hole_witness :
  let behind := deltas_update SpecDeltaExample.context (SpecDeltaExample.answer 9 11)
    (register_sdk_key SpecDeltaExample.context 9 SpecDeltaExample.polled_twice) in
  build_combined_delta_proto_payload SpecDeltaExample.context 5 behind =
    Combined 11 (String (SpecDeltaExample.envelope 2 11) (String (SpecDeltaExample.envelope 4 5)
      (String (SpecDeltaExample.envelope 4 11) (String (SpecDeltaExample.envelope 0 11) "")))) /\
  ~ exists d, d ∈ get_cached_deltas SpecDeltaExample.context behind /\ (since_time_requested d < 7 <= d_lcut d)%N.
Proof.
  cbv zeta. split; [vm_compute; reflexivity|].
  destruct (registering_ahead_leaves_hole SpecDeltaExample.context 9 (SpecDeltaExample.answer 9 11)
    SpecDeltaExample.polled_twice [SpecDeltaExample.envelope 2 11; SpecDeltaExample.envelope 4 11; SpecDeltaExample.envelope 0 11]
    11%N) as (_ & Hhole & _);
    [reflexivity|vm_compute; reflexivity|exact example_ok|vm_compute; discriminate
    |vm_compute; lia|vm_compute; reflexivity|reflexivity|reflexivity|vm_compute; reflexivity|vm_compute; reflexivity|].
  intros (d & Hd & Ht). apply (Hhole 7%N) in Hd; [by apply Hd|]. split; vm_compute; [reflexivity|discriminate].
Defined.
