(* ===== verification/Outbound.v ===== *)
(** * Outbound: the requests sent to the origin and what their answers mean

    Models [src/src/datastore/data_providers/request_builder.rs] and
    [http_data_provider.rs]. A computation that sends requests threads the list of the
    requests sent so far; the origin may answer each by all that came before. *)
From S2P Require Import Prelude Encoding Request Namespaces Backoff Stores.

(** ** Requests and answers *)

Record http_request := {
  rq_method : Method;
  rq_url : string;
  rq_query : gmap string string;
  rq_headers : list (string * string);
  rq_body : option string;
}.
(** [rs_body] is [None] when the body cannot be read to its end. *)
Record http_response := { rs_status : N; rs_headers : list (string * string); rs_body : option string }.
Inductive reqwest_error := ConnectError | OtherRequestError.
#[export] Instance reqwest_error_eq : EqDecision reqwest_error.
Proof. solve_decision. Defined.

Inductive RequestBuilderOutcome := Response (r : http_response) | BuilderNoData (status_code : N).

Class Transport := { respond : list http_request -> http_request -> result reqwest_error http_response }.

(** *** Computations that send requests *)

Definition http (A : Type) : Type := list http_request -> A * list http_request.
Definition http_ret {A} (a : A) : http A := fun sent => (a, sent).
Definition http_bind {A B} (m : http A) (k : A -> http B) : http B :=
  fun sent => let '(a, sent) := m sent in k a sent.
Definition send `{Transport} (req : http_request) : http (result reqwest_error http_response) :=
  fun sent => (respond sent req, sent ++ [req]).

Declare Scope http_scope.
Delimit Scope http_scope with http.
Notation "'do' x <- m ; k" := (http_bind m (fun x => k))
  (at level 10, x name, m at level 100, k at level 200) : http_scope.

(** [HeaderValue::to_str] refuses anything but visible ASCII, space and tab. *)
Definition header_str (v : string) : option string :=
  if str_forall (fun c => bool_decide (nat_of_ascii c = 9 \/ 32 <= nat_of_ascii c < 127)) v then Some v else None.
Definition header_u64 (name : string) (hs : list (string * string)) : option N :=
  v ← get_one name hs; s ← header_str v; parse_u64 s.

(** ** Request builders *)

(** The version of the package, from its build file. *)
Definition SFP_VERSION : string := "4.8.0".

Definition maybe_outbound_accept_encoding (encodings : list CompressionEncoder) : option string :=
  if negb (existsb (fun e => negb (bool_decide (e = PlainText))) encodings) then None
  else
    let value := format_compression_encodings encodings in
    if str_empty value then None else Some value.

Definition accept_encoding_header (encodings : list CompressionEncoder) : list (string * string) :=
  match maybe_outbound_accept_encoding encodings with Some v => [("accept-encoding", v)] | None => [] end.

Definition build_idlist_url (base_url : string) : string :=
  trim_end_matches "/" base_url +:+ "/v1/get_id_lists".

(** *** Config specs *)

Inductive DcsBlobVersion := BlobV1 | BlobV2.
(** The signed URL of a blob: a storage library computes it, and it may fail. *)
Record DcsBlobConfig := {
  build_download_url : DcsBlobVersion -> string -> string -> option string;
  company_id : string;
}.
Record DcsRequestBuilder := { dcs_base_url : string; dcs_blob_config : option DcsBlobConfig }.

Definition build_cdn_request (self : DcsRequestBuilder) (context : AuthorizedRequestContext) (lcut : N)
    : http_request := {|
  rq_method := Get;
  rq_url := dcs_base_url self +:+ path_str (path context) +:+ sdk_key context +:+ ".json";
  rq_query :=
    (if bool_decide (0 < lcut)%N then {["sinceTime" := show_u64 lcut]} else ∅)
    ∪ (if supports_proto context then {["supports_proto" := "true"]} else ∅);
  rq_headers :=
    (if supports_proto context then [("statsig-supports-proto", "true")] else [])
    ++ [("x-sfp-version", SFP_VERSION)] ++ accept_encoding_header (encodings context);
  rq_body := None |}.

Definition blob_version (context : AuthorizedRequestContext) : option DcsBlobVersion :=
  match path context with
  | V1DownloadConfigSpecs => Some BlobV1
  | V2DownloadConfigSpecs => Some BlobV2
  | _ => None
  end.
Definition blob_url (self : DcsRequestBuilder) (context : AuthorizedRequestContext) : option string :=
  version ← blob_version context;
  config ← dcs_blob_config self;
  build_download_url config version (company_id config) (sdk_key context).

Definition build_blob_body_request (self : DcsRequestBuilder) (context : AuthorizedRequestContext)
    : option http_request :=
  (fun url => {| rq_method := Get; rq_url := url; rq_query := ∅;
                 rq_headers := ("x-sfp-version", SFP_VERSION) :: accept_encoding_header (encodings context);
                 rq_body := None |}) <$> blob_url self context.

Definition build_request (self : DcsRequestBuilder) (context : AuthorizedRequestContext) (lcut : N) : http_request :=
  match build_blob_body_request self context with
  | Some blob_request => blob_request
  | None => build_cdn_request self context lcut
  end.

Definition build_blob_metadata_request (self : DcsRequestBuilder) (context : AuthorizedRequestContext)
    : option http_request :=
  (fun url => {| rq_method := Head; rq_url := url; rq_query := ∅;
                 rq_headers := [("x-sfp-version", SFP_VERSION)]; rq_body := None |}) <$> blob_url self context.

Definition parse_blob_metadata_lcut (hs : list (string * string)) : option N := header_u64 "x-ms-meta-lcut" hs.
Definition should_skip_blob_download (current_lcut blob_lcut : N) : bool :=
  bool_decide (0 < current_lcut)%N && bool_decide (blob_lcut <= current_lcut)%N.
Definition should_fallback_to_cdn (status : N) : bool := bool_decide (status = 404%N).
Definition is_success (status : N) : bool := bool_decide (200 <= status < 300)%N.

Section Builders.
Context `{Transport}.
Local Open Scope http_scope.

Definition should_skip_download_using_metadata (self : DcsRequestBuilder) (context : AuthorizedRequestContext)
    (lcut : N) : http bool :=
  if negb (use_lcut context) || bool_decide (lcut = 0%N) then http_ret false
  else
    match build_blob_metadata_request self context with
    | None => http_ret false
    | Some metadata_request =>
        do response <- send metadata_request;
        http_ret
          match response with
          | Err _ => false
          | Ok response =>
              if negb (is_success (rs_status response)) then false
              else
                match parse_blob_metadata_lcut (rs_headers response) with
                | None => false
                | Some blob_lcut => should_skip_blob_download lcut blob_lcut
                end
          end
    end.

Definition dcs_make_request (self : DcsRequestBuilder) (context : AuthorizedRequestContext) (lcut : N)
    : http (result reqwest_error RequestBuilderOutcome) :=
  do skip <- (if use_lcut context && bool_decide (0 < lcut)%N
              then should_skip_download_using_metadata self context lcut else http_ret false);
  if skip then http_ret (Ok (BuilderNoData 204))
  else
    match build_blob_body_request self context with
    | Some blob_request =>
        do blob <- send blob_request;
        match blob with
        | Err e => http_ret (Err e)
        | Ok blob_response =>
            if should_fallback_to_cdn (rs_status blob_response) then
              do cdn <- send (build_cdn_request self context lcut);
              http_ret (Response <$> cdn)
            else http_ret (Ok (Response blob_response))
        end
    | None =>
        do cdn <- send (build_request self context lcut);
        http_ret (Response <$> cdn)
    end.

Definition dcs_is_an_update (hs : list (string * string)) : bool :=
  match get_one "x-cache-hit" hs ≫= header_str with
  | None => true
  | Some value => bool_decide (value = "false")
  end.

(** *** ID list manifests *)

(** [Sha256] in hexadecimal is a library's. *)
Class BodyHash := { sha256_hex : string -> string }.

Record IdlistRequestBuilder := {
  idl_base_url : string;
  last_request_by_key : gmap context_id N;
  last_response_hash : gmap context_id string;
}.

Definition idlist_build_request (self : IdlistRequestBuilder) (context : AuthorizedRequestContext)
    : http_request := {|
  rq_method := Post; rq_url := build_idlist_url (idl_base_url self); rq_query := ∅;
  rq_headers :=
    [("x-sfp-version", SFP_VERSION); ("statsig-api-key", sdk_key context)]
    ++ (if bool_decide (Gzip ∈ encodings context) then [("accept-encoding", encoder_str Gzip)] else []);
  rq_body := Some "{}" |}.

Definition idlist_make_request (self : IdlistRequestBuilder) (context : AuthorizedRequestContext)
    : http (result reqwest_error RequestBuilderOutcome * IdlistRequestBuilder) :=
  do response <- send (idlist_build_request self context);
  http_ret
    match response with
    | Ok response =>
        (Ok (Response response),
         if bool_decide (rs_status response = 401%N) || bool_decide (rs_status response = 403%N)
         then {| idl_base_url := idl_base_url self; last_request_by_key := last_request_by_key self;
                 last_response_hash := delete (hash_input context) (last_response_hash self) |}
         else self)
    | Err e => (Err e, self)
    end.

Definition idlist_is_an_update `{BodyHash} (self : IdlistRequestBuilder) (body : string)
    (context : AuthorizedRequestContext) : bool * IdlistRequestBuilder :=
  let hash := sha256_hex body in
  let is_an_update :=
    match last_response_hash self !! hash_input context with
    | Some old_hash => negb (bool_decide (hash = old_hash))
    | None => true
    end in
  (is_an_update,
   if is_an_update
   then {| idl_base_url := idl_base_url self; last_request_by_key := last_request_by_key self;
           last_response_hash := <[hash_input context := hash]> (last_response_hash self) |}
   else self).

(** [checked] and [now] are the two times the clock is read. *)
Definition idlist_should_make_request (self : IdlistRequestBuilder) (context : AuthorizedRequestContext)
    (checked now : N) : bool * IdlistRequestBuilder :=
  let noted := {| idl_base_url := idl_base_url self;
                  last_request_by_key := <[hash_input context := now]> (last_request_by_key self);
                  last_response_hash := last_response_hash self |} in
  match last_request_by_key self !! hash_input context with
  | Some last_request =>
      if bool_decide (from_secs 60 < checked - last_request)%N then (true, noted) else (false, self)
  | None => (true, noted)
  end.

(** *** ID list files *)

Record IdListFileRequestBuilder := { file_base_url : string }.

Definition file_build_request (self : IdListFileRequestBuilder) (context : AuthorizedRequestContext)
    : http_request :=
  let raw_path := default (path_str (path context)) (raw_path context) in
  let url := file_base_url self +:+ raw_path in
  {| rq_method := Get;
     rq_url := match raw_query context with Some q => url +:+ "?" +:+ q | None => url end;
     rq_query := ∅;
     rq_headers :=
       [("x-sfp-version", SFP_VERSION)]
       ++ (if bool_decide (range_start context = Some 0%N) then [("range", "bytes=0-")] else [])
       ++ match id_list_size context with
          | Some size => [("statsig-id-list-file-size", show_u64 size)]
          | None => []
          end;
     rq_body := None |}.

(** *** The builder of a path *)

(** A path without one gets the builder that never makes a request. *)
Inductive request_builder :=
| BDcs (b : DcsRequestBuilder)
| BIdlist (b : IdlistRequestBuilder)
| BFile (b : IdListFileRequestBuilder)
| BNoop.

(** The last builder is never asked; the code would panic. *)
Definition make_request (b : request_builder) (context : AuthorizedRequestContext) (lcut : N)
    : http (option (result reqwest_error RequestBuilderOutcome) * request_builder) :=
  match b with
  | BDcs d => do r <- dcs_make_request d context lcut; http_ret (Some r, b)
  | BIdlist i => do p <- idlist_make_request i context; http_ret (Some p.1, BIdlist p.2)
  | BFile f => do r <- send (file_build_request f context); http_ret (Some (Response <$> r), b)
  | BNoop => http_ret (None, b)
  end.
Definition is_an_update `{BodyHash} (b : request_builder) (body : string) (hs : list (string * string))
    (context : AuthorizedRequestContext) : bool * request_builder :=
  match b with
  | BDcs _ => (dcs_is_an_update hs, b)
  | BIdlist i => let '(u, i) := idlist_is_an_update i body context in (u, BIdlist i)
  | BFile _ => (true, b)
  | BNoop => (false, b)
  end.
Definition should_make_request (b : request_builder) (context : AuthorizedRequestContext) (checked now : N)
    : bool * request_builder :=
  match b with
  | BDcs _ | BFile _ => (true, b)
  | BIdlist i => let '(u, i) := idlist_should_make_request i context checked now in (u, BIdlist i)
  | BNoop => (false, b)
  end.

(** ** The data provider *)

Record DataProviderResult := { dp_result : DataProviderRequestResult; dp_body : option ResponsePayload; dp_lcut : N }.

Definition handle_error (status_code : option N) : DataProviderResult :=
  {| dp_result :=
       match status_code with
       | Some s =>
           if bool_decide (s = 401%N \/ s = 403%N) then Unauthorized
           else if bool_decide (400 <= s <= 499)%N then ClientError
           else RequestError
       | None => RequestError
       end;
     dp_body := None; dp_lcut := 0 |}.
Definition handle_no_data : DataProviderResult :=
  {| dp_result := NoDataAvailable; dp_body := None; dp_lcut := 0 |}.

Definition parse_since_time (hs : list (string * string)) (lcut : N) (context : AuthorizedRequestContext) : N :=
  if negb (use_lcut context) then lcut
  else
    match header_u64 "x-since-time" hs with
    | Some parsed => parsed
    | None => default 0%N (header_u64 "x-ms-meta-lcut" hs)
    end.

Fixpoint contains (p s : string) : bool :=
  starts_with p s || match s with String _ s => contains p s | EmptyString => false end.
Definition parse_use_proto (hs : list (string * string)) : bool :=
  match get_one "Content-Type" hs with
  | Some v => contains "application/octet-stream" (default "" (header_str v))
  | None => false
  end.

Definition handle_success (use_proto : bool) (encoding_str : option string) (data : string) (since_time : N)
    : DataProviderResult :=
  {| dp_result := DataAvailable;
     dp_body := Some {| use_proto := use_proto;
                        encoding := default PlainText (encoding_str ≫= encoder_from_str);
                        data := data |};
     dp_lcut := since_time |}.

(** What the provider makes of an answer. *)
Definition on_response `{BodyHash} (context : AuthorizedRequestContext) (lcut : N) (response : http_response)
    (b : request_builder) : DataProviderResult * request_builder :=
  if bool_decide (rs_status response = 204%N) then (handle_no_data, b)
  else
    match rs_body response with
    | None => (handle_error (Some (rs_status response)), b)
    | Some bytes =>
        if negb (is_success (rs_status response)) then (handle_error (Some (rs_status response)), b)
        else
          let '(update, b) := is_an_update b bytes (rs_headers response) context in
          if negb update then (handle_no_data, b)
          else
            (handle_success (parse_use_proto (rs_headers response))
               (get_one "content-encoding" (rs_headers response) ≫= header_str) bytes
               (parse_since_time (rs_headers response) lcut context), b)
    end.
Definition on_outcome `{BodyHash} (context : AuthorizedRequestContext) (lcut : N) (outcome : RequestBuilderOutcome)
    (b : request_builder) : DataProviderResult * request_builder :=
  match outcome with
  | Response response => on_response context lcut response b
  | BuilderNoData _ => (handle_no_data, b)
  end.

Definition provider_get `{BodyHash} (b : request_builder) (context : AuthorizedRequestContext) (lcut : N)
    : http (option DataProviderResult * request_builder) :=
  let returning (r : DataProviderResult * request_builder) := http_ret (Some r.1, r.2) in
  do first <- make_request b context lcut;
  let '(first, b) := first in
  match first with
  | None => http_ret (None, b)
  | Some (Ok outcome) => returning (on_outcome context lcut outcome b)
  | Some (Err ConnectError) =>
      do second <- make_request b context lcut;
      let '(second, b) := second in
      match second with
      | None => http_ret (None, b)
      | Some (Ok outcome) => returning (on_outcome context lcut outcome b)
      | Some (Err _) => returning (handle_error None, b)
      end
  | Some (Err _) => returning (handle_error None, b)
  end.
End Builders.

(** ** Answers decide results *)

Section ProviderProofs.
Context `{Transport} `{BodyHash}.

(** The last request of a history and how it was answered. *)
Definition last_answer (sent : list http_request) (answer : result reqwest_error http_response) : Prop :=
  exists pre req, sent = pre ++ [req] /\ respond pre req = answer.
(** At most [n] more requests were sent, and at least one. *)
Definition extends (n : nat) (sent sent' : list http_request) : Prop :=
  exists new, sent' = sent ++ new /\ 1 <= length new <= n.

Lemma extends_weaken n m sent sent' : n <= m -> extends n sent sent' -> extends m sent sent'.
Proof. intros Hle (new & -> & ?). exists new. split; [done|lia]. Qed.
Lemma extends_trans n m sent sent' sent'' :
  extends n sent sent' -> extends m sent' sent'' -> extends (n + m) sent sent''.
Proof.
  intros (a & -> & ?) (b & -> & ?). exists (a ++ b). rewrite app_assoc, length_app. split; [done|lia].
Qed.
Lemma extends_one sent req : extends 1 sent (sent ++ [req]).
Proof. by exists [req]. Qed.
Lemma last_answer_send sent req : last_answer (sent ++ [req]) (respond sent req).
Proof. by exists sent, req. Qed.

(** What a builder's answer says of the last request. *)
Definition outcome_of (sent : list http_request) (o : result reqwest_error RequestBuilderOutcome) : Prop :=
  match o with
  | Ok (Response r) => last_answer sent (Ok r)
  | Ok (BuilderNoData _) => exists r, last_answer sent (Ok r) /\ is_success (rs_status r) = true
  | Err e => last_answer sent (Err e)
  end.

Lemma outcome_of_send sent req : outcome_of (sent ++ [req]) (Response <$> respond sent req).
Proof. destruct (respond sent req) as [r|e] eqn:E; cbn; rewrite <- E; apply last_answer_send. Qed.

Lemma skip_download_spec self context lcut sent skip sent' :
  should_skip_download_using_metadata self context lcut sent = (skip, sent') ->
  (sent' = sent /\ skip = false) \/
  (extends 1 sent sent' /\
   (skip = true -> exists r, last_answer sent' (Ok r) /\ is_success (rs_status r) = true)).
Proof.
  unfold should_skip_download_using_metadata. case_match; [intros [= <- <-]; by left|].
  destruct (build_blob_metadata_request self context) as [req|]; [|intros [= <- <-]; by left].
  unfold http_bind, send, http_ret. intros [= <- <-]. right. split; [apply extends_one|].
  destruct (respond sent req) as [r|e] eqn:E; [|done]. destruct (is_success (rs_status r)) eqn:Es; [|done].
  intros _. exists r. split; [rewrite <- E; apply last_answer_send|done].
Qed.

Lemma dcs_make_request_spec self context lcut sent o sent' :
  dcs_make_request self context lcut sent = (o, sent') -> extends 3 sent sent' /\ outcome_of sent' o.
Proof.
  unfold dcs_make_request. unfold http_bind at 1.
  match goal with |- context [let '(_, _) := ?m sent in _] => destruct (m sent) as [skip sent1] eqn:E1 end.
  assert ((sent1 = sent /\ skip = false) \/ (extends 1 sent sent1 /\
    (skip = true -> exists r, last_answer sent1 (Ok r) /\ is_success (rs_status r) = true))) as Hskip.
  { destruct (use_lcut context && bool_decide (0 < lcut)%N); [by eapply skip_download_spec|].
    injection E1 as <- <-. by left. }
  clear E1. destruct skip.
  { intros [= <- <-]. destruct Hskip as [[_ ?]|[He Hr]]; [done|].
    split; [by eapply extends_weaken; [|exact He]; lia|]. by apply Hr. }
  assert (forall n s, extends n sent1 s -> extends (1 + n) sent s) as Hext.
  { intros n s Hs. destruct Hskip as [[-> _]|[He _]]; [eapply extends_weaken; [|exact Hs]; lia|].
    by eapply extends_trans. }
  destruct (build_blob_body_request self context) as [req|]; unfold http_bind, send, http_ret.
  - destruct (respond sent1 req) as [r|e] eqn:Er.
    + destruct (should_fallback_to_cdn (rs_status r)).
      * intros [= <- <-]. split; [|apply outcome_of_send].
        apply (Hext 2), (extends_trans 1 1 _ (sent1 ++ [req])); apply extends_one.
      * intros [= <- <-]. split; [|cbn; rewrite <- Er; apply last_answer_send].
        eapply extends_weaken; [|apply (Hext 1), extends_one]; lia.
    + intros [= <- <-]. split; [|cbn; rewrite <- Er; apply last_answer_send].
      eapply extends_weaken; [|apply (Hext 1), extends_one]; lia.
  - intros [= <- <-]. split; [|apply outcome_of_send].
    eapply extends_weaken; [|apply (Hext 1), extends_one]; lia.
Qed.

Lemma make_request_spec b context lcut sent o b' sent' :
  make_request b context lcut sent = (Some o, b', sent') -> extends 3 sent sent' /\ outcome_of sent' o.
Proof.
  destruct b as [d|i|f|]; cbn [make_request]; unfold http_bind, http_ret.
  - destruct (dcs_make_request d context lcut sent) as [r s] eqn:E. intros [= <- <- <-].
    by eapply dcs_make_request_spec.
  - unfold idlist_make_request, http_bind, http_ret, send. intros [= <- <- <-]. split.
    { eapply extends_weaken; [|apply extends_one]; lia. }
    pose proof (outcome_of_send sent (idlist_build_request i context)) as Ho.
    by destruct (respond sent (idlist_build_request i context)).
  - unfold send. intros [= <- <- <-]. split; [|apply outcome_of_send].
    eapply extends_weaken; [|apply extends_one]; lia.
  - done.
Qed.

Lemma make_request_some b context lcut sent :
  b <> BNoop -> exists o b' sent', make_request b context lcut sent = (Some o, b', sent') /\ b' <> BNoop.
Proof.
  destruct b as [d|i|f|]; [| | |done]; intros _; cbn [make_request]; unfold http_bind, http_ret, send.
  - destruct (dcs_make_request d context lcut sent). by do 3 eexists.
  - destruct (idlist_make_request i context sent) as [[? ?] ?]. by do 3 eexists.
  - by do 3 eexists.
Qed.

(** What a result of the provider says of the last answer of the origin. *)
Definition result_of (sent : list http_request) (context : AuthorizedRequestContext) (lcut : N)
    (res : DataProviderResult) : Prop :=
  match dp_result res with
  | DataAvailable =>
      exists r bytes payload, last_answer sent (Ok r) /\ is_success (rs_status r) = true /\ rs_status r <> 204%N /\
        rs_body r = Some bytes /\ dp_body res = Some payload /\ data payload = bytes /\
        dp_lcut res = parse_since_time (rs_headers r) lcut context
  | NoDataAvailable =>
      dp_body res = None /\ exists r, last_answer sent (Ok r) /\ is_success (rs_status r) = true
  | Unauthorized =>
      dp_body res = None /\ exists r, last_answer sent (Ok r) /\ (rs_status r = 401 \/ rs_status r = 403)%N
  | ClientError =>
      dp_body res = None /\ exists r, last_answer sent (Ok r) /\
        (400 <= rs_status r <= 499 /\ rs_status r <> 401 /\ rs_status r <> 403)%N
  | RequestError =>
      dp_body res = None /\
      ((exists e, last_answer sent (Err e)) \/
       exists r, last_answer sent (Ok r) /\ ~ (400 <= rs_status r <= 499)%N /\
         (is_success (rs_status r) = false \/ rs_body r = None))
  end.

Lemma handle_error_of sent context lcut r :
  last_answer sent (Ok r) -> is_success (rs_status r) = false \/ rs_body r = None ->
  result_of sent context lcut (handle_error (Some (rs_status r))).
Proof.
  intros Hl Hbad. unfold result_of, handle_error. cbn.
  destruct (bool_decide (rs_status r = 401%N \/ rs_status r = 403%N)) eqn:E1.
  { apply bool_decide_eq_true in E1. cbn. eauto. }
  apply bool_decide_eq_false in E1. destruct (bool_decide (400 <= rs_status r <= 499)%N) eqn:E2.
  - apply bool_decide_eq_true in E2. cbn. split; [done|]. exists r. split; [done|]. split; [done|]. split; lia.
  - apply bool_decide_eq_false in E2. cbn. split; [done|]. right. eauto.
Qed.

Lemma on_outcome_of sent context lcut o b :
  outcome_of sent (Ok o) -> result_of sent context lcut (on_outcome context lcut o b).1.
Proof.
  destruct o as [r|code]; [|by split]. cbn [on_outcome]. intros Ho. cbn in Ho. unfold on_response.
  destruct (bool_decide (rs_status r = 204%N)) eqn:E204.
  { apply bool_decide_eq_true in E204. split; [done|]. exists r. split; [done|]. by rewrite E204. }
  apply bool_decide_eq_false in E204. destruct (rs_body r) as [bytes|] eqn:Eb.
  2: { apply handle_error_of; auto. }
  destruct (is_success (rs_status r)) eqn:Es; cbn [negb].
  2: { apply handle_error_of; auto. }
  destruct (is_an_update b bytes (rs_headers r) context) as [[|] b1]; cbn [negb].
  - unfold result_of, handle_success; cbn. do 3 eexists. by repeat split.
  - split; [done|]. eauto.
Qed.

(** C17: every fetch has a result, and it is what the origin's last answer says. Data is
    reported only with the body of a successful answer and its time; a key is reported as refused only
    when the answer was 401 or 403, other client errors as such; transport failures, unreadable bodies and
    server errors are errors without data. A fetch sends at most six requests (three
    per attempt, one retry). *)
Theorem provider_get_sound b context lcut sent :
  b <> BNoop ->
  exists res b' sent', provider_get b context lcut sent = (Some res, b', sent') /\
    extends 6 sent sent' /\ result_of sent' context lcut res.
Proof.
  intros Hb.
  destruct (make_request_some b context lcut sent Hb) as (o1 & b1 & s1 & E1 & Hb1).
  destruct (make_request_spec _ _ _ _ _ _ _ E1) as [He1 Ho1].
  unfold provider_get. unfold http_bind at 1. rewrite E1. destruct o1 as [o|[|]].
  { do 3 eexists. split; [reflexivity|]. split; [eapply extends_weaken; [|exact He1]; lia|]. by apply on_outcome_of. }
  2: { do 3 eexists. split; [reflexivity|]. split; [eapply extends_weaken; [|exact He1]; lia|].
       split; [done|]. left. by exists OtherRequestError. }
  destruct (make_request_some b1 context lcut s1 Hb1) as (o2 & b2 & s2 & E2 & Hb2).
  destruct (make_request_spec _ _ _ _ _ _ _ E2) as [He2 Ho2].
  pose proof (extends_trans _ _ _ _ _ He1 He2) as He. unfold http_bind. rewrite E2. destruct o2 as [o|e].
  - do 3 eexists. split; [reflexivity|]. split; [done|]. by apply on_outcome_of.
  - do 3 eexists. split; [reflexivity|]. split; [done|]. split; [done|]. left. by exists e.
Qed.
End ProviderProofs.

Module OutboundExample.
(** The first connection fails; the retry is answered. *)
#[export] Instance origin : Transport := {|
  respond sent _ :=
    match sent with
    | [] => Err ConnectError
    | _ => Ok {| rs_status := 200; rs_headers := [("X-Since-Time", "7")]; rs_body := Some "{}" |}
    end |}.
#[export] Instance hash : BodyHash := {| sha256_hex := id |}.
Definition builder : request_builder := BDcs {| dcs_base_url := "https://api"; dcs_blob_config := None |}.
Definition context : AuthorizedRequestContext := context_new "secret-key" V1DownloadConfigSpecs [Gzip].
End OutboundExample.

Lemma provider_get_sound_witness :
  exists r, last_answer (H := OutboundExample.origin)
      (provider_get (H := OutboundExample.origin) (H0 := OutboundExample.hash)
        OutboundExample.builder OutboundExample.context 3 []).2 (Ok r) /\
    is_success (rs_status r) = true.
Proof.
  destruct (provider_get_sound (H := OutboundExample.origin) (H0 := OutboundExample.hash)
    OutboundExample.builder OutboundExample.context 3 [] ltac:(discriminate)) as (res & b' & sent' & E & _ & Hr).
  rewrite E. vm_compute in E. injection E as <- <- <-.
  unfold result_of in Hr. cbn [dp_result] in Hr. destruct Hr as (r & bytes & payload & Hl & Hs & _).
  exists r. split; [exact Hl|exact Hs].
Defined.

(** ** Polling the manifests *)

(** The times at which manifest requests for a context are let through, given
    the clock at each poll. *)
Fixpoint granted (self : IdlistRequestBuilder) (context : AuthorizedRequestContext) (clock : list N) : list N :=
  match clock with
  | [] => []
  | now :: clock =>
      let '(yes, self) := idlist_should_make_request self context now now in
      if yes then now :: granted self context clock else granted self context clock
  end.

Definition a_minute_later (a b : N) : Prop := (a + from_secs 60 < b)%N.

Lemma granted_from self context clock last :
  last_request_by_key self !! hash_input context = Some last ->
  StronglySorted N.le clock -> Forall (fun t => last <= t)%N clock ->
  Forall (a_minute_later last) (granted self context clock) /\
  StronglySorted a_minute_later (granted self context clock).
Proof.
  intros Hl Hs. revert self last Hl. induction Hs as [|now clock Hs IH Hnow]; intros self last Hl Hge.
  { split; constructor. }
  apply Forall_cons in Hge as [Hle Hge]. cbn [granted]. unfold idlist_should_make_request. rewrite Hl.
  destruct (bool_decide (from_secs 60 < now - last)%N) eqn:Eb; [|by apply IH].
  apply bool_decide_eq_true in Eb.
  destruct (IH {| idl_base_url := idl_base_url self;
                  last_request_by_key := <[hash_input context := now]> (last_request_by_key self);
                  last_response_hash := last_response_hash self |} now) as [H1 H2];
    [apply lookup_insert_eq|done|].
  split; constructor; [unfold a_minute_later; lia| |done|done].
  eapply Forall_impl; [exact H1|]. unfold a_minute_later. lia.
Qed.

(** Manifest requests for a context are let through more than a minute apart. *)
Lemma manifest_polls_spaced self context clock :
  last_request_by_key self !! hash_input context = None -> StronglySorted N.le clock ->
  StronglySorted a_minute_later (granted self context clock).
Proof.
  intros Hl Hs. destruct Hs as [|now clock Hs Hnow]; [constructor|]. cbn [granted].
  unfold idlist_should_make_request. rewrite Hl.
  destruct (granted_from {| idl_base_url := idl_base_url self;
                  last_request_by_key := <[hash_input context := now]> (last_request_by_key self);
                  last_response_hash := last_response_hash self |} context clock now) as [H1 H2];
    [apply lookup_insert_eq|done|done|].
  by constructor.
Qed.

(** A manifest counts as an update exactly when its hash is not the one last
    recorded for the context, and recording it makes a repetition no update. *)
Lemma manifest_update_once `{BodyHash} self context body :
  let '(update, self') := idlist_is_an_update self body context in
  (update = true <-> last_response_hash self !! hash_input context <> Some (sha256_hex body)) /\
  last_response_hash self' !! hash_input context = Some (sha256_hex body) /\
  (idlist_is_an_update self' body context).1 = false.
Proof.
  unfold idlist_is_an_update. destruct (last_response_hash self !! hash_input context) as [h|] eqn:Eh.
  - destruct (decide (sha256_hex body = h)) as [<-|Hne].
    + rewrite bool_decide_true by done. cbn. rewrite Eh, bool_decide_true by done. by split.
    + rewrite bool_decide_false by done. cbn. rewrite lookup_insert_eq, bool_decide_true by done.
      split; [|done]. split; [|done]. intros _ [= ?]. done.
  - cbn. rewrite lookup_insert_eq, bool_decide_true by done. by split.
Qed.
