(* ===== verification/Fetch.v ===== *)
(** * Fetch: polling the origin and handing its answers to the stores

    Models [src/src/datastore/data_providers/background_data_provider.rs],
    [src/src/observers/http_data_provider_observer.rs], the wiring of the observers in
    [src/src/server.rs], and the requests that wait for a fetch ([get_config_spec],
    [get_id_lists], [get_or_fetch], [ensure_fresh_enough]). One update of one
    observer is one step; the redis cache and the other observers that are not
    waited for run later, and are kept as what was spawned. *)
From S2P Require Import Prelude Encoding Request Namespaces Backoff Stores SpecDeltas Outbound.

(** ** Observers *)

Record Observer (W : Type) := {
  force_notifier_to_wait_for_update : bool;
  obs_update : AuthorizedRequestContext -> ResponseContext -> W -> W;
}.
Arguments force_notifier_to_wait_for_update {W} _.
Arguments obs_update {W} _ _ _ _.

Inductive spawned (W : Type) :=
| SpawnUpdates (observers : list (Observer W)) (context : AuthorizedRequestContext) (response : ResponseContext)
| SpawnTouch (context : AuthorizedRequestContext).
Arguments SpawnUpdates {W} observers context response.
Arguments SpawnTouch {W} context.

Section Providers.
Context {W : Type}.

Definition notify_all (observers : list (Observer W)) (context : AuthorizedRequestContext)
    (response : ResponseContext) (w : W) : W * list (spawned W) :=
  let async_observers := filter (fun o => force_notifier_to_wait_for_update o = false) observers in
  let sync_observers := filter (fun o => force_notifier_to_wait_for_update o = true) observers in
  (foldl (fun w o => obs_update o context response w) w sync_observers,
   match async_observers with [] => [] | _ => [SpawnUpdates async_observers context response] end).

Definition empty_payload : ResponsePayload := {| encoding := PlainText; use_proto := false; data := "" |}.

(** [permit]: whether one of the 64 permits for touching the backup cache was free. *)
Definition dispatch_backup_cache_touch (permit : bool) (context : AuthorizedRequestContext) : list (spawned W) :=
  if permit then [SpawnTouch context] else [].

Definition process_result (observers : list (Observer W))
    (backup : AuthorizedRequestContext -> W -> option ConfigSpecForCompany) (permit : bool)
    (dp : DataProviderResult) (context : AuthorizedRequestContext) (asked : N)
    (clear_datastore_on_unauthorized : bool) (w : W)
    : DataProviderRequestResult * (W * list (spawned W)) :=
  let response (l : N) (b : ResponsePayload) :=
    {| result_type := dp_result dp; lcut := l; request_since_time := asked; body := b |} in
  (dp_result dp,
   match dp_result dp with
   | DataAvailable =>
       match dp_body dp with
       | Some d =>
           if negb (use_lcut context) || negb (bool_decide (asked = dp_lcut dp))
           then notify_all observers context (response (dp_lcut dp) d) w
           else (w, [])
       | None => (w, [])
       end
   | NoDataAvailable => (w, dispatch_backup_cache_touch permit context)
   | RequestError =>
       match backup context w with
       | Some backup_data => notify_all observers context (response (cs_lcut backup_data) (cs_config backup_data)) w
       | None => (w, [])
       end
   | Unauthorized =>
       if clear_datastore_on_unauthorized then notify_all observers context (response asked empty_payload) w
       else (w, [])
   | ClientError => notify_all observers context (response asked empty_payload) w
   end).
End Providers.

(** ** The proxy *)

Section Proxy.
Context `{SpecsProto} `{PayloadLib}.

Record proxy := {
  px_keys : keystore;
  px_specs : specs;
  px_id_lists : id_lists_map;
  px_files : file_cache;
  px_deltas : option DeltasStore;
}.
Definition proxy_new (deltas : option DeltasStore) : proxy :=
  {| px_keys := ∅; px_specs := ∅; px_id_lists := ∅; px_files := ∅; px_deltas := deltas |}.

Definition sdk_key_observer : Observer proxy := {|
  force_notifier_to_wait_for_update := true;
  obs_update context response w :=
    {| px_keys := sdk_key_update context response (px_keys w) (px_keys w); px_specs := px_specs w;
       px_id_lists := px_id_lists w; px_files := px_files w; px_deltas := px_deltas w |} |}.
Definition config_spec_observer : Observer proxy := {|
  force_notifier_to_wait_for_update := true;
  obs_update context response w :=
    {| px_keys := px_keys w; px_specs := config_spec_update context response (px_specs w) (px_specs w) (px_specs w);
       px_id_lists := px_id_lists w; px_files := px_files w; px_deltas := px_deltas w |} |}.
Definition id_list_observer : Observer proxy := {|
  force_notifier_to_wait_for_update := true;
  obs_update context response w :=
    {| px_keys := px_keys w; px_specs := px_specs w; px_id_lists := id_list_update context response (px_id_lists w);
       px_files := px_files w; px_deltas := px_deltas w |} |}.
Definition file_observer : Observer proxy := {|
  force_notifier_to_wait_for_update := true;
  obs_update context response w :=
    {| px_keys := px_keys w; px_specs := px_specs w; px_id_lists := px_id_lists w;
       px_files := file_update context response (px_files w); px_deltas := px_deltas w |} |}.
Definition deltas_observer : Observer proxy := {|
  force_notifier_to_wait_for_update := true;
  obs_update context response w :=
    {| px_keys := px_keys w; px_specs := px_specs w; px_id_lists := px_id_lists w; px_files := px_files w;
       px_deltas := deltas_update context response <$> px_deltas w |} |}.

(** The observers of a path, in the order [server.rs] adds them. [caches] stands for
    those that keep nothing the proxy serves from: the redis cache and what publishes events. *)
Definition observers_of (caches : list (Observer proxy)) (p : NormalizedPath) : list (Observer proxy) :=
  match p with
  | V1DownloadConfigSpecs | V2DownloadConfigSpecs =>
      [sdk_key_observer; config_spec_observer] ++ caches ++ [deltas_observer]
  | V1GetIdLists => [sdk_key_observer; id_list_observer] ++ caches
  | V1DownloadIdListFile => [file_observer]
  | V2DownloadConfigSpecsDeltas => [deltas_observer]
  | _ => []
  end.

(** ** Requests that may wait for a fetch *)

(** [fetch] is [foreground_fetch] with the data provider of the store. *)
Context (fetch : AuthorizedRequestContext -> N -> proxy -> proxy).

Definition get_config_spec (context : AuthorizedRequestContext) (since_time : N) (w : proxy)
    : option ConfigSpecForCompany * proxy :=
  let w := if has_key context (px_keys w) then w else fetch context 0%N w in
  (config_spec_answer (px_specs w !! hash_input context) since_time, w).

(** The JSON config a delta client is given besides, fetched in a task of its own; [read]
    and [write] are the cache of contexts at its two locks. *)
Definition shadow_fetch_json_config_spec (read write : context_cache) (context : AuthorizedRequestContext)
    (since_time : N) (w : proxy) : context_cache * proxy :=
  let '(shadow, cache) := get_or_insert (sdk_key context) (path context) [Gzip] false false None read write in
  (cache, (get_config_spec shadow since_time w).2).

Definition get_id_lists (context : AuthorizedRequestContext) (w : proxy) : option ResponsePayload * proxy :=
  let w := if has_key context (px_keys w) then w else fetch context 0%N w in
  (px_id_lists w !! hash_input context, w).

Definition ensure_fresh_enough (context : AuthorizedRequestContext) (w : proxy) : bool * proxy :=
  if is_fresh_enough context (px_files w) then (true, w)
  else
    match file_id context with
    | None => (false, w)
    | Some _ => let w := fetch context 0%N w in (is_fresh_enough context (px_files w), w)
    end.

Definition get_or_fetch (context : AuthorizedRequestContext) (w : proxy) : option string * proxy :=
  match get_cached_hit context (px_files w) with
  | Some hit => (Some hit, w)
  | None =>
      match file_id context with
      | None => (None, w)
      | Some _ => let w := fetch context 0%N w in (get_stored_body context (px_files w), w)
      end
  end.

(** *** The handlers *)

Definition get_download_config_specs `{CompressLib} (deltas_background_loop_enabled : bool)
    (context : AuthorizedRequestContext) (since_time : option N) (query_accept_deltas : option bool) (w : proxy)
    : RequestPayloads * proxy :=
  let since_time := default 0%N since_time in
  let delta :=
    if default false query_accept_deltas then
      store ← px_deltas w;
      result_ok (try_build_delta_payload deltas_background_loop_enabled store context since_time no_update_config)
    else None in
  match delta with
  | Some payload => (payload, w)
  | None =>
      let '(answer, w) := get_config_spec context since_time w in
      (match answer with
       | Some d => to_request_payload (cs_config d) (cs_lcut d)
       | None => UnauthorizedPayload
       end, w)
  end.

Definition post_download_config_specs (context : AuthorizedRequestContext) (since_time : option N) (w : proxy)
    : RequestPayloads * proxy :=
  let '(answer, w) := get_config_spec context (default 0%N since_time) w in
  (match answer with
   | Some d => to_request_payload (cs_config d) (cs_lcut d)
   | None => UnauthorizedPayload
   end, w).

Definition post_get_id_lists (context : AuthorizedRequestContext) (w : proxy) : RequestPayloads * proxy :=
  let '(answer, w) := get_id_lists context w in
  (match answer with Some d => to_request_payload d 0 | None => UnauthorizedPayload end, w).

Definition get_download_id_list_file
    (guard : result DownloadIdListFileRequestError AuthorizedRequestContext) (w : proxy)
    : RequestPayloads * proxy :=
  match guard with
  | Err error => (PayloadError 400 (error_body error), w)
  | Ok context =>
      let '(answer, w) := get_or_fetch context w in
      (match answer with
       | Some bytes => build_download_id_list_file_payload context bytes
       | None => UnauthorizedPayload
       end, w)
  end.
End Proxy.

(** ** A registered key is served *)

Section ProxyInvariant.
Context `{SpecsProto} `{PayloadLib}.

(** Every context the code builds has the flag of its path. *)
Definition context_wf (context : AuthorizedRequestContext) : Prop :=
  use_lcut context = use_lcut (context_new "" (path context) []).

Definition stored_for (context : AuthorizedRequestContext) (item : SdkKeyStoreItem) (w : proxy) : Prop :=
  match path context with
  | V1DownloadConfigSpecs | V2DownloadConfigSpecs =>
      exists c, px_specs w !! hash_input context = Some c /\ (item_lcut item <= cs_lcut c)%N
  | V1GetIdLists => is_Some (px_id_lists w !! hash_input context)
  | _ => True
  end.
Definition stores_ok (w : proxy) : Prop :=
  forall context item, px_keys w !! hash_input context = Some item -> stored_for context item w.

(** One result of the data provider, handed to the observers of its path. *)
Inductive proxy_step (caches : list (Observer proxy)) (w : proxy) : proxy -> Prop :=
| step_result context backup permit dp asked clear :
    context_wf context ->
    proxy_step caches w
      (process_result (observers_of caches (path context)) backup permit dp context asked clear w).2.1.

Definition all_async (caches : list (Observer proxy)) : Prop :=
  Forall (fun o => force_notifier_to_wait_for_update o = false) caches.

Lemma sync_of_caches caches :
  all_async caches -> filter (fun o => force_notifier_to_wait_for_update o = true) caches = [].
Proof.
  intros Ha. apply elem_of_nil_inv. intros o [Ho Hin]%list_elem_of_filter. unfold all_async in Ha.
  rewrite Forall_forall in Ha. rewrite (Ha o Hin) in Ho. done.
Qed.

Lemma hash_path a b : hash_input a = hash_input b -> path a = path b.
Proof. unfold hash_input. by intros [= _ ? _]. Qed.

Lemma sdk_key_update_ne context r m1 m2 id :
  hash_input context <> id -> sdk_key_update context r m1 m2 !! id = m2 !! id.
Proof.
  intros Hne. unfold sdk_key_update, keystore_insert.
  destruct (result_type r); try done; [|by rewrite lookup_delete_ne].
  destruct (negb _ || _); [by rewrite lookup_insert_ne|done].
Qed.

Lemma id_list_update_cases context r m :
  id_list_update context r m =
    match result_type r with
    | DataAvailable | RequestError => <[hash_input context := body r]> m
    | Unauthorized => delete (hash_input context) m
    | _ => m
    end.
Proof. unfold id_list_update. by destruct (result_type r). Qed.

Lemma newer_spec_kept (m : specs) id c r :
  m !! id = Some c ->
  exists c', (if bool_decide (cs_lcut c < lcut r)%N
              then <[id := {| cs_lcut := lcut r; cs_config := body r |}]> m else m) !! id = Some c' /\
             cs_lcut c' = N.max (cs_lcut c) (lcut r).
Proof.
  intros Hc. case_bool_decide.
  - rewrite lookup_insert_eq. eexists. split; [done|]. cbn. lia.
  - exists c. split; [done|]. lia.
Qed.

(** The key and the config of a context move together. *)
Lemma spec_updates_ok context r w item :
  use_lcut context = true -> stores_ok w -> path context = V1DownloadConfigSpecs \/ path context = V2DownloadConfigSpecs ->
  sdk_key_update context r (px_keys w) (px_keys w) !! hash_input context = Some item ->
  exists c, config_spec_update context r (px_specs w) (px_specs w) (px_specs w) !! hash_input context = Some c /\
            (item_lcut item <= cs_lcut c)%N.
Proof.
  intros Hu Hok Hp. rewrite config_spec_update_cases. unfold sdk_key_update, keystore_insert. rewrite Hu. cbn [negb orb].
  assert (forall it, px_keys w !! hash_input context = Some it ->
    exists c, px_specs w !! hash_input context = Some c /\ (item_lcut it <= cs_lcut c)%N) as Hold.
  { intros it Hit. specialize (Hok context it Hit). unfold stored_for in Hok. destruct Hp as [Hp|Hp]; by rewrite Hp in Hok. }
  assert (forall c, px_specs w !! hash_input context = Some c ->
    exists c', (if bool_decide (from_option cs_lcut 0%N (Some c) < lcut r)%N
      then <[hash_input context := {| cs_lcut := lcut r; cs_config := body r |}]> (px_specs w) else px_specs w)
        !! hash_input context = Some c' /\ cs_lcut c' = N.max (cs_lcut c) (lcut r)) as Hnew.
  { intros c Hc. by apply newer_spec_kept. }
  destruct (result_type r).
  - destruct (px_specs w !! hash_input context) as [c|] eqn:Ec.
    + destruct (Hnew c eq_refl) as (c' & Hc' & Hl). intros Hit. exists c'. split; [done|]. rewrite Hl.
      destruct (px_keys w !! hash_input context) as [it|] eqn:Ek.
      * destruct (Hold it eq_refl) as (c0 & [= <-] & Hle).
        destruct (bool_decide (item_lcut it < lcut r)%N); [rewrite lookup_insert_eq in Hit|rewrite Ek in Hit];
          injection Hit as <-; cbn; lia.
      * rewrite lookup_insert_eq in Hit. injection Hit as <-. cbn. lia.
    + destruct (px_keys w !! hash_input context) as [it|] eqn:Ek.
      { by destruct (Hold it eq_refl) as (c0 & ? & _). }
      rewrite !lookup_insert_eq. intros [= <-]. eexists. split; [done|]. done.
  - apply Hold.
  - by rewrite lookup_delete_eq.
  - apply Hold.
  - intros Hit. destruct (Hold item Hit) as (c & Hc & Hle). destruct (Hnew c Hc) as (c' & Hc' & Hl).
    rewrite Hc. exists c'. split; [done|lia].
Qed.

Lemma notify_specs caches p context r w :
  all_async caches -> p = V1DownloadConfigSpecs \/ p = V2DownloadConfigSpecs ->
  (notify_all (observers_of caches p) context r w).1 =
    {| px_keys := sdk_key_update context r (px_keys w) (px_keys w);
       px_specs := config_spec_update context r (px_specs w) (px_specs w) (px_specs w);
       px_id_lists := px_id_lists w; px_files := px_files w;
       px_deltas := deltas_update context r <$> px_deltas w |}.
Proof.
  intros Ha [-> | ->]; unfold notify_all, observers_of; cbn [fst];
    rewrite !filter_app, (sync_of_caches caches Ha); reflexivity.
Qed.
Lemma notify_id_lists caches context r w :
  all_async caches ->
  (notify_all (observers_of caches V1GetIdLists) context r w).1 =
    {| px_keys := sdk_key_update context r (px_keys w) (px_keys w); px_specs := px_specs w;
       px_id_lists := id_list_update context r (px_id_lists w); px_files := px_files w; px_deltas := px_deltas w |}.
Proof.
  intros Ha. unfold notify_all, observers_of; cbn [fst]. rewrite filter_app, (sync_of_caches caches Ha). reflexivity.
Qed.

Lemma notify_specs_ok caches context r w :
  all_async caches -> context_wf context -> stores_ok w ->
  path context = V1DownloadConfigSpecs \/ path context = V2DownloadConfigSpecs ->
  stores_ok (notify_all (observers_of caches (path context)) context r w).1.
Proof.
  intros Ha Hwf Hok Hp ctx item. rewrite notify_specs by done. unfold stored_for.
  cbn [px_keys px_specs px_id_lists].
  destruct (decide (hash_input context = hash_input ctx)) as [Heq|Hne].
  - rewrite <- Heq, <- (hash_path _ _ Heq). intros Hit.
    assert (use_lcut context = true) as Hu by (rewrite Hwf; by destruct Hp as [-> | ->]).
    pose proof (spec_updates_ok context r w item Hu Hok Hp Hit). destruct Hp as [-> | ->]; done.
  - rewrite sdk_key_update_ne, config_spec_update_ne by done. apply (Hok ctx item).
Qed.

Lemma notify_id_lists_ok caches context r w :
  all_async caches -> context_wf context -> stores_ok w -> path context = V1GetIdLists ->
  stores_ok (notify_all (observers_of caches (path context)) context r w).1.
Proof.
  intros Ha Hwf Hok Hp ctx item. rewrite Hp, notify_id_lists by done. unfold stored_for.
  cbn [px_keys px_specs px_id_lists]. rewrite id_list_update_cases.
  destruct (decide (hash_input context = hash_input ctx)) as [Heq|Hne].
  - rewrite <- Heq, <- (hash_path _ _ Heq), Hp. pose proof (Hok context item) as Hc. unfold stored_for in Hc. rewrite Hp in Hc.
    unfold sdk_key_update. destruct (result_type r); [|exact Hc| |exact Hc|].
    + intros _. rewrite lookup_insert_eq. eauto.
    + by rewrite lookup_delete_eq.
    + intros _. rewrite lookup_insert_eq. eauto.
  - rewrite sdk_key_update_ne by done. pose proof (Hok ctx item) as Hc. unfold stored_for in Hc.
    destruct (result_type r); rewrite ?lookup_insert_ne, ?lookup_delete_ne by done; exact Hc.
Qed.

Lemma notify_ok caches context r w :
  all_async caches -> context_wf context -> stores_ok w ->
  stores_ok (notify_all (observers_of caches (path context)) context r w).1.
Proof.
  intros Ha Hwf Hok. destruct (path context) eqn:Ep; try exact Hok; rewrite <- Ep.
  - apply notify_specs_ok; auto.
  - by apply notify_id_lists_ok.
  - apply notify_specs_ok; auto.
Qed.

Lemma proxy_step_ok caches w w' : all_async caches -> stores_ok w -> proxy_step caches w w' -> stores_ok w'.
Proof.
  intros Ha Hok [context backup permit dp asked clear Hwf]. unfold process_result. cbn [snd].
  destruct (dp_result dp).
  - destruct (dp_body dp); [|done]. destruct (negb _ || negb _); [by apply notify_ok|done].
  - done.
  - destruct clear; [by apply notify_ok|done].
  - by apply notify_ok.
  - destruct (backup context w); [by apply notify_ok|done].
Qed.

(** C8: once a key is registered, requests for it are answered from the stores: after any
    sequence of provider results, of any kind and for any contexts, a registered config-spec
    context is answered without a fetch, with a config at least as new as its
    registered time, or with "no updates" only when the client already is at the
    stored time; and the manifest of a registered ID-list context is there. *)
Theorem registered_key_is_served caches deltas w fetch context item since_time :
  all_async caches -> rtc (proxy_step caches) (proxy_new deltas) w ->
  px_keys w !! hash_input context = Some item ->
  match path context with
  | V1DownloadConfigSpecs | V2DownloadConfigSpecs =>
      exists c, px_specs w !! hash_input context = Some c /\ (item_lcut item <= cs_lcut c)%N /\
        get_config_spec fetch context since_time w =
          (Some (if bool_decide (since_time < cs_lcut c)%N then c
                 else {| cs_lcut := cs_lcut c; cs_config := no_update_config |}), w)
  | V1GetIdLists => exists payload, get_id_lists fetch context w = (Some payload, w)
  | _ => True
  end.
Proof.
  intros Ha Hrun Hk.
  assert (stores_ok w) as Hok.
  { assert (stores_ok (proxy_new deltas)) as Hnew.
    { intros ctx it Hit. cbn in Hit. by rewrite lookup_empty in Hit. }
    revert Hnew. clear Hk. induction Hrun as [|w1 w2 w3 Hstep _ IH]; [done|]. intros Hok. apply IH.
    by eapply proxy_step_ok. }
  specialize (Hok context item Hk). unfold stored_for in Hok.
  assert (has_key context (px_keys w) = true) as Hh by (apply bool_decide_eq_true; eauto).
  unfold get_config_spec, get_id_lists. rewrite Hh.
  destruct (path context); try done.
  - destruct Hok as (c & Hc & Hle). exists c. by rewrite Hc.
  - destruct Hok as [p ->]. by exists p.
  - destruct Hok as (c & Hc & Hle). exists c. by rewrite Hc.
Qed.
End ProxyInvariant.

Module FetchExample.
Definition context : AuthorizedRequestContext := context_new "secret-key" V1DownloadConfigSpecs [Gzip].
Definition payload : ResponsePayload := {| encoding := PlainText; use_proto := false; data := "specs" |}.
Definition polled : proxy (H := SpecDeltaExample.proto) :=
  (process_result (observers_of (H0 := SpecDeltaExample.payloads) [] V1DownloadConfigSpecs) (fun _ _ => None) true
     {| dp_result := DataAvailable; dp_body := Some payload; dp_lcut := 7 |} context 0 false (proxy_new None)).2.1.
End FetchExample.

Lemma registered_key_is_served_witness :
  exists c, px_specs FetchExample.polled !! hash_input FetchExample.context = Some c /\ (7 <= cs_lcut c)%N.
Proof.
  assert (px_keys FetchExample.polled !! hash_input FetchExample.context =
    Some {| item_context := FetchExample.context; item_lcut := 7 |}) as Hk by (vm_compute; reflexivity).
  destruct (registered_key_is_served (H0 := SpecDeltaExample.payloads) [] None FetchExample.polled
    (fun _ _ w => w) FetchExample.context _ 3%N ltac:(constructor)
    ltac:(apply rtc_once; exact (step_result [] (proxy_new None) FetchExample.context (fun _ _ => None) true
      {| dp_result := DataAvailable; dp_body := Some FetchExample.payload; dp_lcut := 7 |} 0 false eq_refl)) Hk)
    as (c & Hc & Hle & _).
  exists c. split; [exact Hc|exact Hle].
Defined.

(** ** Between two observers *)

(** The key store hears of an answer before the config store does: a request that comes
    between the two updates finds its key registered and no config, does not fetch, and is
    answered as unauthorized. *)
Lemma served_between_observers `{SpecsProto} `{PayloadLib} context r w fetch since_time :
  result_type r = DataAvailable -> px_keys w !! hash_input context = None ->
  px_specs w !! hash_input context = None ->
  (get_config_spec fetch context since_time (obs_update sdk_key_observer context r w)).1 = None.
Proof.
  intros Hr Hk Hs. unfold get_config_spec. cbn [obs_update sdk_key_observer px_keys px_specs].
  unfold sdk_key_update. rewrite Hr, Hk, orb_true_r. unfold has_key, keystore_insert.
  rewrite lookup_insert_eq, bool_decide_true by eauto. cbn [px_specs]. by rewrite Hs.
Qed.
