(* ===== verification/Polling.v ===== *)
(** * Polling: which requests a poll makes, and how they are run

    Models the rest of [src/src/datastore/data_providers/background_data_provider.rs]: choosing and
    ordering the requests of a cycle, running them with bounded concurrency and
    launch spacing, recording their results, the loop around the cycles, and the
    lock that limits foreground fetches. *)
From S2P Require Import Prelude Encoding Request Namespaces Backoff Stores SpecDeltas Outbound.

(** ** Choosing the requests of a cycle *)

Inductive FetchExecutionMode := Foreground | BackgroundPoll (poll_cycle : N).

Record PreparedFetchItem := { p_item : SdkKeyStoreItem; p_key : RequestBackoffKey }.

(** The builders registered by path; a path without one has the builder that never asks. *)
Abbreviation builders := (gmap NormalizedPath request_builder).
Definition get_request_builder (bs : builders) (p : NormalizedPath) : request_builder := default BNoop (bs !! p).

(** The clock at the three places an item reads it. *)
Record reads := { at_check : N; at_note : N; at_backoff : N }.

Record choice := { c_builders : builders; c_backoff : backoff_map; c_prepared : list PreparedFetchItem }.

Definition request_key (item : SdkKeyStoreItem) : RequestBackoffKey := (hash_input (item_context item), None).

Definition prepare_one (s : choice) (it : SdkKeyStoreItem * reads) : choice :=
  let '(item, clock) := it in
  let context := item_context item in
  let '(should, b) :=
    should_make_request (get_request_builder (c_builders s) (path context)) context (at_check clock) (at_note clock) in
  let bs := match c_builders s !! path context with
            | Some _ => <[path context := b]> (c_builders s)
            | None => c_builders s
            end in
  if negb should then {| c_builders := bs; c_backoff := c_backoff s; c_prepared := c_prepared s |}
  else
    let '(allowed, m) := can_attempt_at (request_key item) (at_backoff clock) (c_backoff s) in
    {| c_builders := bs; c_backoff := m;
       c_prepared := if allowed then c_prepared s ++ [{| p_item := item; p_key := request_key item |}]
                     else c_prepared s |}.
Definition prepare (bs : builders) (m : backoff_map) (items : list (SdkKeyStoreItem * reads)) : choice :=
  foldl prepare_one {| c_builders := bs; c_backoff := m; c_prepared := [] |} items.

Definition rank_le `{KeyHasher} (poll_cycle seed : N) (a b : PreparedFetchItem) : bool :=
  bool_decide (dispatch_rank (p_key a) poll_cycle seed <= dispatch_rank (p_key b) poll_cycle seed)%N.
Definition order_prepared `{KeyHasher} (config : BackgroundPollDispatchConfig) (mode : FetchExecutionMode)
    (prepared : list PreparedFetchItem) : list PreparedFetchItem :=
  match mode with
  | BackgroundPoll poll_cycle =>
      if background_dispatch_shaping_enabled config (N.of_nat (length prepared))
      then sort_by (rank_le poll_cycle (jitter_seed config)) prepared
      else prepared
  | Foreground => prepared
  end.
Definition execution_spacing (config : BackgroundPollDispatchConfig) (mode : FetchExecutionMode) : N :=
  match mode with BackgroundPoll _ => launch_spacing config | Foreground => 0 end.

(** ** Running them *)

(** [slots] are the instants the launches were due at. *)
Record execution := {
  pending : list PreparedFetchItem;
  in_flight : list PreparedFetchItem;
  finished : list PreparedFetchItem;
  slots : list N;
  next_launch_at : N;
}.
Definition execution_new (prepared : list PreparedFetchItem) (now : N) : execution :=
  {| pending := prepared; in_flight := []; finished := []; slots := []; next_launch_at := now |}.

(** [wait_for_launch_slot]: when the launch is due, and the earliest next one. *)
Definition wait_for_launch_slot (next_launch_at spacing now : N) : N * N :=
  if bool_decide (spacing = 0%N) then (now, next_launch_at)
  else let launch_at := N.max next_launch_at now in (launch_at, (launch_at + spacing)%N).

(** The loop fills the free places while there are requests, then waits for one of
    the running requests, whichever ends first. *)
Inductive execution_step (max_in_flight spacing : N) (s : execution) : execution -> Prop :=
| step_launch now prepared_request rest :
    (N.of_nat (length (in_flight s)) < max_in_flight)%N -> pending s = prepared_request :: rest ->
    execution_step max_in_flight spacing s
      {| pending := rest; in_flight := in_flight s ++ [prepared_request]; finished := finished s;
         slots := slots s ++ [(wait_for_launch_slot (next_launch_at s) spacing now).1];
         next_launch_at := (wait_for_launch_slot (next_launch_at s) spacing now).2 |}
| step_join before ended after :
    (max_in_flight <= N.of_nat (length (in_flight s)))%N \/ pending s = [] ->
    in_flight s = before ++ ended :: after ->
    execution_step max_in_flight spacing s
      {| pending := pending s; in_flight := before ++ after; finished := finished s ++ [ended];
         slots := slots s; next_launch_at := next_launch_at s |}.

(** The count the executor returns. *)
Definition attempted_count (s : execution) : nat := length (slots s).

(** ** Recording a result *)

(** [None]: the request was cut off by the guard timeout. The interval between completed
    requests is kept for background polls only. *)
Definition finish_request (policy : RequestBackoffPolicy) (mode : FetchExecutionMode) (key : RequestBackoffKey)
    (result : option DataProviderRequestResult) (now completed_at : N)
    (m : backoff_map) (intervals : gmap context_id N) : option N * (backoff_map * gmap context_id N) :=
  let m := match result with
           | Some r => record_result policy key r now m
           | None => record_failure_at policy key now m
           end in
  match mode with
  | BackgroundPoll _ =>
      let '(interval, intervals) := record_completed_request_at key.1 completed_at intervals in
      (interval, (m, intervals))
  | Foreground => (None, (m, intervals))
  end.

(** ** The loop and the foreground lock *)

Record poll_state := { poll_cycle : N; next_poll_at : N }.
Definition after_poll (config : BackgroundPollDispatchConfig) (policy : RequestBackoffPolicy)
    (polling_interval_in_s now : N) (seen : backoff_map) (s : poll_state) (m : backoff_map)
    : poll_state * backoff_map :=
  let base_poll_interval := from_secs (N.max polling_interval_in_s 1) in
  let cycle := N.land (poll_cycle s + 1) u64_max in
  ({| poll_cycle := cycle;
      next_poll_at := next_poll_at s + poll_interval_for_cycle config base_poll_interval cycle |},
   prune_stale_at policy now seen m).

(** [true]: fetched less than thirty seconds ago. [fetch] returns how many requests it
    attempted. The write lock of the key is held throughout, so a caller that waited for it sees
    the flag the holder left. *)
Abbreviation fetch_locks := (gmap RequestBackoffKey bool).
Definition foreground_fetch {W} (fetch : W -> nat * W) (key : RequestBackoffKey) (locks : fetch_locks) (w : W)
    : fetch_locks * W :=
  if default false (locks !! key) then (locks, w)
  else
    let '(attempted, w) := fetch w in
    if bool_decide (attempted = 0) then (delete key locks, w) else (<[key := true]> locks, w).
Definition evict_lock (key : RequestBackoffKey) (locks : fetch_locks) : fetch_locks := delete key locks.

(** ** Every chosen request runs once *)

Section Execution.
Context (max_in_flight spacing : N) (prepared : list PreparedFetchItem).

Definition spaced (a b : N) : Prop := (a + spacing <= b)%N.

Definition execution_ok (s : execution) : Prop :=
  (N.of_nat (length (in_flight s)) <= max_in_flight)%N /\
  finished s ++ in_flight s ++ pending s ≡ₚ prepared /\
  pending s = drop (attempted_count s) prepared /\ attempted_count s <= length prepared /\
  (spacing <> 0%N ->
   StronglySorted spaced (slots s) /\ Forall (fun t => spaced t (next_launch_at s)) (slots s)).

Lemma slots_snoc l next now :
  spacing <> 0%N -> StronglySorted spaced l -> Forall (fun t => spaced t next) l ->
  let '(launch_at, next') := wait_for_launch_slot next spacing now in
  StronglySorted spaced (l ++ [launch_at]) /\ Forall (fun t => spaced t next') (l ++ [launch_at]).
Proof.
  intros Hn Hs Hf. unfold wait_for_launch_slot. rewrite bool_decide_false by done. unfold spaced in *. split.
  - apply StronglySorted_app. split; [|split; [done|by repeat constructor]].
    intros x y Hx ->%list_elem_of_singleton. rewrite Forall_forall in Hf. specialize (Hf x Hx). lia.
  - apply Forall_app. split; [|by repeat constructor].
    eapply Forall_impl; [exact Hf|]. cbn. lia.
Qed.

Lemma execution_step_ok s s' : execution_ok s -> execution_step max_in_flight spacing s s' -> execution_ok s'.
Proof.
  intros (Hm & Hp & Hd & Hle & Hsp) [now p rest Hroom Hpend|before ended after Hfull Hin].
  - unfold execution_ok, attempted_count in *; cbn. rewrite !length_app. cbn.
    assert (length (slots s) < length prepared) as Hlt.
    { assert (length (pending s) = length prepared - length (slots s)) as Hl by (by rewrite Hd, length_drop).
      rewrite Hpend in Hl. cbn in Hl. lia. }
    split; [lia|]. split; [|split; [|split; [lia|]]].
    + rewrite <- Hp, Hpend. by rewrite <- !app_assoc.
    + rewrite Nat.add_comm. cbn. rewrite <- (skipn_skipn 1). rewrite <- Hd, Hpend. done.
    + intros Hn. destruct (Hsp Hn) as [Hs Hf]. pose proof (slots_snoc _ _ now Hn Hs Hf) as Hsn.
      by destruct (wait_for_launch_slot (next_launch_at s) spacing now).
  - unfold execution_ok, attempted_count in *; cbn. rewrite Hin in Hm, Hp. rewrite length_app in *. cbn in Hm.
    split; [lia|]. split; [|done]. rewrite <- Hp, <- (Permutation_middle before after ended).
    rewrite <- !app_assoc. cbn. by rewrite <- app_assoc.
Qed.

(** Launches still to be made count twice, running requests once. *)
Definition work (s : execution) : nat := 2 * length (pending s) + length (in_flight s).

Lemma execution_step_work s s' : execution_step max_in_flight spacing s s' -> work s = S (work s').
Proof.
  intros [now p rest _ Hpend|before ended after _ Hin]; unfold work; cbn.
  - rewrite Hpend, length_app. cbn. lia.
  - rewrite Hin, !length_app. cbn. lia.
Qed.

Lemma execution_progress s :
  (1 <= max_in_flight)%N -> 0 < work s -> exists s', execution_step max_in_flight spacing s s'.
Proof.
  intros Hm Hw. destruct (decide (N.of_nat (length (in_flight s)) < max_in_flight)%N) as [Hroom|Hfull].
  - destruct (pending s) as [|p rest] eqn:Hp; [|eexists; by eapply (step_launch _ _ _ 0%N)].
    destruct (in_flight s) as [|e after] eqn:Hi; [unfold work in Hw; rewrite Hp, Hi in Hw; cbn in Hw; lia|].
    eexists. eapply (step_join _ _ _ [] e after); [by right|done].
  - destruct (in_flight s) as [|e after] eqn:Hi; [cbn in Hfull; lia|].
    eexists. eapply (step_join _ _ _ [] e after); [left; rewrite Hi; lia|done].
Qed.
End Execution.

(** C9: the executor runs every request of a cycle exactly once and then stops, in whatever
    order the requests end: after [k] steps it has at most the configured number in flight, has launched a
    prefix of the requests in their order, at due times at least the spacing
    apart, and has lost or repeated none; it can always go on while [k] is less than
    twice the number of requests, and is done, with all of them finished, when [k] is that. *)
Theorem execution_complete max_in_flight spacing prepared now k s :
  (1 <= max_in_flight)%N ->
  nsteps (execution_step max_in_flight spacing) k (execution_new prepared now) s ->
  execution_ok max_in_flight spacing prepared s /\
  k <= 2 * length prepared /\
  (k < 2 * length prepared -> exists s', execution_step max_in_flight spacing s s') /\
  (k = 2 * length prepared ->
     finished s ≡ₚ prepared /\ pending s = [] /\ in_flight s = [] /\ attempted_count s = length prepared).
Proof.
  intros Hm Hrun.
  assert (forall k s0 s1, nsteps (execution_step max_in_flight spacing) k s0 s1 ->
    execution_ok max_in_flight spacing prepared s0 ->
    execution_ok max_in_flight spacing prepared s1 /\ work s0 = k + work s1) as Hinv.
  { clear. induction 1 as [|k s0 s1 s2 Hstep _ IH]; intros Hok; [done|].
    destruct IH as [Hok' Hw]; [by eapply execution_step_ok|].
    split; [done|]. apply execution_step_work in Hstep. lia. }
  destruct (Hinv _ _ _ Hrun) as [Hok Hw].
  { unfold execution_ok, attempted_count; cbn. split; [lia|]. split; [done|]. split; [done|]. split; [lia|].
    intros _. split; constructor. }
  assert (work (execution_new prepared now) = 2 * length prepared) as Hw0 by (unfold work; cbn; lia).
  rewrite Hw0 in Hw. split; [done|]. split; [lia|]. split.
  - intros Hk. apply execution_progress; [done|lia].
  - intros Hk. unfold work in Hw. destruct Hok as (_ & Hp & Hd & Hle & _).
    assert (pending s = []) as Epend by (apply nil_length_inv; lia).
    assert (in_flight s = []) as Efl by (apply nil_length_inv; lia).
    rewrite Epend, Efl in Hp. rewrite !app_nil_r in Hp. split; [done|]. split; [done|]. split; [done|].
    assert (length (pending s) = length prepared - attempted_count s) as Hl by (by rewrite Hd, length_drop).
    rewrite Epend in Hl. cbn in Hl. lia.
Qed.

Module PollingExample.
Definition context : AuthorizedRequestContext := context_new "secret-key" V1DownloadConfigSpecs [Gzip].
Definition item : SdkKeyStoreItem := {| item_context := context; item_lcut := 7 |}.
Definition prepared : list PreparedFetchItem := [{| p_item := item; p_key := request_key item |}].
Definition ended : execution :=
  {| pending := []; in_flight := []; finished := prepared; slots := [5%N]; next_launch_at := 8 |}.
End PollingExample.

Lemma execution_complete_witness :
  finished PollingExample.ended ≡ₚ PollingExample.prepared /\ attempted_count PollingExample.ended = 1.
Proof.
  destruct (execution_complete 1 3 PollingExample.prepared 2 2 PollingExample.ended) as (_ & _ & _ & Hend).
  - lia.
  - eapply (nsteps_l _ _ _ {| pending := []; in_flight := PollingExample.prepared; finished := []; slots := [5%N];
                              next_launch_at := 8 |}).
    + eapply (step_launch 1 3 (execution_new PollingExample.prepared 2) 5%N); [cbn; lia|reflexivity].
    + eapply nsteps_l; [|apply nsteps_O].
      eapply (step_join 1 3 {| pending := []; in_flight := PollingExample.prepared; finished := [];
                               slots := [5%N]; next_launch_at := 8 |} []); [by right|reflexivity].
  - destruct (Hend eq_refl) as (Hf & _ & _ & Ha). by split.
Defined.

(** ** The chosen requests *)

Definition item_id (it : SdkKeyStoreItem * reads) : context_id := hash_input (item_context it.1).

(** Whether the builder of its path wants the request, and it is not backing off. *)
Definition wanted (bs : builders) (it : SdkKeyStoreItem * reads) : bool :=
  (should_make_request (get_request_builder bs (path (item_context it.1))) (item_context it.1)
     (at_check it.2) (at_note it.2)).1.
Definition allowed (m : backoff_map) (it : SdkKeyStoreItem * reads) : bool :=
  (can_attempt_at (request_key it.1) (at_backoff it.2) m).1.

Lemma idlist_should_result i c t1 t2 :
  (idlist_should_make_request i c t1 t2).1 =
    match last_request_by_key i !! hash_input c with
    | Some last => bool_decide (from_secs 60 < t1 - last)%N
    | None => true
    end.
Proof.
  unfold idlist_should_make_request. destruct (last_request_by_key i !! hash_input c) as [last|]; [|done].
  by destruct (bool_decide (from_secs 60 < t1 - last)%N).
Qed.
Lemma idlist_should_other i c t1 t2 id :
  hash_input c <> id ->
  last_request_by_key (idlist_should_make_request i c t1 t2).2 !! id = last_request_by_key i !! id.
Proof.
  intros Hne. unfold idlist_should_make_request.
  destruct (last_request_by_key i !! hash_input c) as [last|]; [|apply lookup_insert_ne; done].
  destruct (bool_decide (from_secs 60 < t1 - last)%N); [apply lookup_insert_ne; done|done].
Qed.

Lemma should_make_request_other b c1 c2 t1 t2 t3 t4 :
  hash_input c1 <> hash_input c2 ->
  (should_make_request (should_make_request b c1 t1 t2).2 c2 t3 t4).1 = (should_make_request b c2 t3 t4).1.
Proof.
  intros Hne. destruct b as [d|i|f|]; try done. cbn [should_make_request].
  pose proof (idlist_should_other i c1 t1 t2 (hash_input c2) Hne) as Ho.
  destruct (idlist_should_make_request i c1 t1 t2) as [u i']. cbn [snd] in *. cbn [should_make_request].
  pose proof (idlist_should_result i' c2 t3 t4) as H1. pose proof (idlist_should_result i c2 t3 t4) as H2.
  destruct (idlist_should_make_request i' c2 t3 t4), (idlist_should_make_request i c2 t3 t4).
  rewrite Ho in H1. cbn [fst] in H1, H2 |- *. congruence.
Qed.

Lemma can_attempt_other k1 k2 t1 t2 m :
  k1 <> k2 -> (can_attempt_at k2 t2 (can_attempt_at k1 t1 m).2).1 = (can_attempt_at k2 t2 m).1.
Proof.
  intros Hne. unfold can_attempt_at. destruct (m !! k1); cbn; [|done]. rewrite lookup_insert_ne by done.
  by destruct (m !! k2).
Qed.

Lemma prepare_one_prepared s it :
  c_prepared (prepare_one s it) =
    c_prepared s ++ (if wanted (c_builders s) it && allowed (c_backoff s) it
                     then [{| p_item := it.1; p_key := request_key it.1 |}] else []).
Proof.
  destruct it as [item clock]. unfold prepare_one, wanted, allowed. cbn [fst snd].
  destruct (should_make_request _ _ _ _) as [[|] b]; cbn [negb andb fst]; [|by rewrite app_nil_r].
  destruct (can_attempt_at _ _ _) as [[|] m']; cbn; [done|by rewrite app_nil_r].
Qed.

Lemma prepare_one_other s it it' :
  item_id it <> item_id it' ->
  wanted (c_builders (prepare_one s it)) it' = wanted (c_builders s) it' /\
  allowed (c_backoff (prepare_one s it)) it' = allowed (c_backoff s) it'.
Proof.
  destruct it as [item clock], it' as [item' clock']. unfold item_id; cbn [fst]. intros Hne.
  assert (request_key item <> request_key item') as Hk by (unfold request_key; congruence).
  unfold prepare_one, wanted, allowed; cbn [fst snd].
  pose proof (should_make_request_other (get_request_builder (c_builders s) (path (item_context item)))
    _ _ (at_check clock) (at_note clock) (at_check clock') (at_note clock') Hne) as Hsh.
  pose proof (can_attempt_other _ _ (at_backoff clock) (at_backoff clock') (c_backoff s) Hk) as Hca.
  destruct (should_make_request (get_request_builder (c_builders s) (path (item_context item))) _ _ _) as [should b] eqn:Eb.
  cbn [snd] in Hsh.
  set (bs := match c_builders s !! path (item_context item) with Some _ => _ | None => _ end).
  assert ((should_make_request (get_request_builder bs (path (item_context item'))) (item_context item')
             (at_check clock') (at_note clock')).1 =
          (should_make_request (get_request_builder (c_builders s) (path (item_context item'))) (item_context item')
             (at_check clock') (at_note clock')).1) as Hbs.
  { subst bs. unfold get_request_builder in *. destruct (c_builders s !! path (item_context item)) eqn:Ep; [|done].
    destruct (decide (path (item_context item) = path (item_context item'))) as [E|E].
    - rewrite <- E, lookup_insert_eq, Ep. done.
    - by rewrite lookup_insert_ne. }
  destruct should; cbn [negb]; [|done].
  destruct (can_attempt_at (request_key item) (at_backoff clock) (c_backoff s)) as [ok m']. by split.
Qed.

(** C38: a poll makes exactly the requests it should. Of the registered contexts, each once, the
    chosen ones are those whose builder wants a request and which are not backing off; the dispatch
    order of a background cycle only permutes them. *)
Theorem poll_requests_exact `{KeyHasher} config mode bs m items :
  NoDup (item_id <$> items) ->
  order_prepared config mode (c_prepared (prepare bs m items)) ≡ₚ
    (fun it => {| p_item := it.1; p_key := request_key it.1 |})
      <$> filter (fun it => wanted bs it && allowed m it = true) items.
Proof.
  intros Hnd.
  assert (forall l, order_prepared config mode l ≡ₚ l) as ->.
  { intros l. unfold order_prepared. destruct mode; [done|].
    destruct (background_dispatch_shaping_enabled _ _); [apply sort_by_perm|done]. }
  assert (forall rest, NoDup (item_id <$> items ++ rest) ->
    c_prepared (prepare bs m items) =
      (fun it => {| p_item := it.1; p_key := request_key it.1 |})
        <$> filter (fun it => wanted bs it && allowed m it = true) items /\
    forall it, it ∈ rest -> wanted (c_builders (prepare bs m items)) it = wanted bs it /\
                            allowed (c_backoff (prepare bs m items)) it = allowed m it) as Hall.
  2: { destruct (Hall []) as [-> _]; [by rewrite app_nil_r|done]. }
  clear Hnd. induction items as [|it items IH] using rev_ind; intros rest Hnd; [done|].
  unfold prepare in *. rewrite foldl_snoc. set (s := foldl prepare_one _ items) in *.
  rewrite <- app_assoc in Hnd. cbn in Hnd. destruct (IH _ Hnd) as [Hp Hr].
  destruct (Hr it ltac:(by left)) as [Hw Ha]. split.
  - rewrite prepare_one_prepared, Hp, Hw, Ha, filter_app, fmap_app. f_equal. rewrite filter_cons, filter_nil.
    destruct (wanted bs it && allowed m it); [rewrite decide_True by done|rewrite decide_False by done]; done.
  - intros it' Hit'. destruct (Hr it' ltac:(by right)) as [<- <-]. apply prepare_one_other.
    rewrite fmap_app in Hnd. apply NoDup_app in Hnd as (_ & _ & Hnd). cbn in Hnd.
    apply NoDup_cons in Hnd as [Hnin _]. intros E. apply Hnin. rewrite E. apply list_elem_of_fmap. by exists it'.
Qed.

Lemma poll_requests_exact_witness :
  order_prepared (H := {| key_hash := fun _ => 0%N |}) (dispatch_config_new 4 0 0 0) (BackgroundPoll 1)
    (c_prepared (prepare {[V1DownloadConfigSpecs := OutboundExample.builder]} ∅
      [(PollingExample.item, {| at_check := 1; at_note := 1; at_backoff := 1 |})])) ≡ₚ PollingExample.prepared.
Proof.
  etransitivity; [apply (poll_requests_exact (H := {| key_hash := fun _ => 0%N |}))|].
  - apply NoDup_singleton.
  - vm_compute. reflexivity.
Defined.

(** ** The foreground lock *)

(** Between two evictions of its lock, at most one fetch of a key attempts a request:
    [results] are the attempts each fetch would make if it ran. *)
Fixpoint foreground_attempts (key : RequestBackoffKey) (results : list nat) (locks : fetch_locks) : nat :=
  match results with
  | [] => 0
  | n :: results =>
      let '(locks', ran) := foreground_fetch (fun w => (n, S w)) key locks 0 in
      (if bool_decide (ran = 0) then 0 else min n 1) + foreground_attempts key results locks'
  end.

Lemma foreground_locked key results locks :
  locks !! key = Some true -> foreground_attempts key results locks = 0.
Proof.
  intros Hl. induction results as [|n results IH]; [done|]. cbn [foreground_attempts]. unfold foreground_fetch.
  rewrite Hl. cbn [default from_option id]. by rewrite bool_decide_true.
Qed.

Lemma foreground_fetch_once key results locks : foreground_attempts key results locks <= 1.
Proof.
  revert locks. induction results as [|n results IH]; intros locks; [cbn; lia|].
  cbn [foreground_attempts]. unfold foreground_fetch.
  destruct (default false (locks !! key)) eqn:El.
  { rewrite bool_decide_true by done. apply IH. }
  destruct (decide (n = 0)) as [->|Hn].
  - rewrite (bool_decide_true (0 = 0)), bool_decide_false by done. apply (IH (delete key locks)).
  - rewrite (bool_decide_false (n = 0)), bool_decide_false by done.
    rewrite foreground_locked by apply lookup_insert_eq. lia.
Qed.
