(* ===== verification/LogEvents.v ===== *)
(** * LogEvents: removing repeated exposure events

    Models [src/src/datastore/log_event_store.rs] and the event types of
    [src/src/datatypes/log_event.rs]. JSON values appear as their printed text, the
    hash of a key and the clock are inputs; the request that forwards a batch is I/O. *)
From S2P Require Import Prelude.

(** ** Events *)

Inductive EventName := ConfigExposure | GateExposure | OtherEvent (event_name : string).
#[export] Instance EventName_eq : EqDecision EventName.
Proof. solve_decision. Defined.

(** [custom_ids]: the fields of the object in their order with their printed values; [None] for
    anything that is not an object. *)
Record User := { user_id : option string; custom_ids : option (list (string * string)) }.
Record StatsigMetadata := { stable_id : option string }.
Record LogEvent := {
  event_name : EventName;
  user : option User;
  ev_time : option N;
  metadata : option (gmap string string);
  ev_statsig_metadata : option StatsigMetadata;
}.
Inductive PossiblyLogEvent := ValidLogEvent (e : LogEvent) | InvalidLogEvent.
Record LogEventRequest := { events : list PossiblyLogEvent; statsig_metadata : option StatsigMetadata }.

Definition get_metadata (e : LogEvent) (key : string) : string :=
  default "" (m ← metadata e; m !! key).

(** ** The key of an exposure *)

Definition millis_per_minute : N := 60000.

(** The milliseconds [DateTime::from_timestamp_millis] of [chrono] can represent. *)
Class Calendar := { representable : N -> bool }.

(** The minute of an event's time; a time that does not fit or cannot be represented is replaced by [now]. *)
Definition exposure_minute `{Calendar} (time : option N) (now : N) : N :=
  let t :=
    match time with
    | Some t => if bool_decide (t <= i64_max)%N && representable t then t else now
    | None => now
    end in
  (t - t mod millis_per_minute)%N.

Definition compute_key `{Calendar} (sdk_key : string) (e : LogEvent) (global_metadata : option StatsigMetadata) (now : N)
    : option string :=
  let uid := default "" (u ← user e; user_id u) in
  let local_sid := m ← ev_statsig_metadata e; stable_id m in
  let sid := match local_sid with Some s => s | None => default "" (m ← global_metadata; stable_id m) end in
  let prefix :=
    "k:" +:+ sdk_key +:+ ";u:" +:+ uid +:+ ";s:" +:+ sid +:+ ";" +:+
    foldr (fun kv rest => kv.1 +:+ ":" +:+ kv.2 +:+ ";" +:+ rest) ""
      (default [] (u ← user e; custom_ids u)) in
  let suffix := ";t" +:+ show_u64 (exposure_minute (ev_time e) now) in
  match event_name e with
  | ConfigExposure =>
      Some (prefix +:+ "n:$" +:+ get_metadata e "config" +:+ ";r:" +:+ get_metadata e "ruleID" +:+ suffix)
  | GateExposure =>
      Some (prefix +:+ "n:" +:+ get_metadata e "gate" +:+ ";r:" +:+ get_metadata e "ruleID"
            +:+ ";v:" +:+ get_metadata e "gateValue" +:+ suffix)
  | OtherEvent _ => None
  end.

(** ** The cache *)

(** [RandomState::hash_one], seeded when the store is made. *)
Class EventHash := { hash_one : string -> N }.

Section Dedupe.
Context `{Calendar} `{EventHash} (dedupe_cache_limit : nat).

Definition check_key (key : string) (cache : gset N) : bool * gset N :=
  let cache := if bool_decide (dedupe_cache_limit <= size cache) then ∅ else cache in
  (bool_decide (hash_one key ∉ cache), {[hash_one key]} ∪ cache).

Definition process_event (sdk_key : string) (global : option StatsigMetadata) (now : N)
    (e : PossiblyLogEvent) (cache : gset N) : bool * gset N :=
  match e with
  | ValidLogEvent e =>
      match compute_key sdk_key e global now with
      | Some s => check_key s cache
      | None => (true, cache)
      end
  | InvalidLogEvent => (false, cache)
  end.

(** [Vec::retain]: the events in order, each with the clock it saw ([clock i] for the event at index [i]). *)
Fixpoint retain_events (sdk_key : string) (global : option StatsigMetadata)
    (es : list (PossiblyLogEvent * N)) (cache : gset N) : list PossiblyLogEvent * gset N :=
  match es with
  | [] => ([], cache)
  | (e, now) :: es =>
      let '(keep, cache) := process_event sdk_key global now e cache in
      let '(kept, cache) := retain_events sdk_key global es cache in
      (if keep then e :: kept else kept, cache)
  end.

Record LogEventDedupStats := { batch_in_size : nat; batch_out_size : nat; deduped_count : nat }.

Definition dedupe_events_for_sdk_key (sdk_key : string) (request : LogEventRequest) (clock : nat -> N) (cache : gset N)
    : LogEventDedupStats * (LogEventRequest * gset N) :=
  let '(kept, cache) :=
    retain_events sdk_key (statsig_metadata request) (imap (fun i e => (e, clock i)) (events request)) cache in
  let in_size := length (events request) in
  ({| batch_in_size := in_size; batch_out_size := length kept; deduped_count := in_size - length kept |},
   ({| events := kept; statsig_metadata := statsig_metadata request |}, cache)).

(** [serialize] prints a request as JSON. *)
Definition dedupe_and_serialize_for_sdk_key (serialize : LogEventRequest -> option string)
    (sdk_key : string) (request : LogEventRequest) (clock : nat -> N) (cache : gset N)
    : result N (string * LogEventDedupStats) * gset N :=
  let '(stats, (request, cache)) := dedupe_events_for_sdk_key sdk_key request clock cache in
  ((fun body => (body, stats)) <$> ok_or 500%N (serialize request), cache).

(** ** What is forwarded *)

(** The hash an event is remembered by. *)
Definition exposure_hash (sdk_key : string) (global : option StatsigMetadata) (e : PossiblyLogEvent * N) : option N :=
  match e.1 with
  | ValidLogEvent ev => hash_one <$> compute_key sdk_key ev global e.2
  | InvalidLogEvent => None
  end.
Definition hashes sdk_key global (es : list (PossiblyLogEvent * N)) : gset N :=
  list_to_set (omap (exposure_hash sdk_key global) es).

(** The events kept when the cache is never full: unknown events, and exposures not seen before. *)
Fixpoint first_seen (sdk_key : string) (global : option StatsigMetadata)
    (es : list (PossiblyLogEvent * N)) (cache : gset N) : list PossiblyLogEvent :=
  match es with
  | [] => []
  | e :: es =>
      match exposure_hash sdk_key global e with
      | Some h => (if bool_decide (h ∈ cache) then [] else [e.1]) ++ first_seen sdk_key global es ({[h]} ∪ cache)
      | None => match e.1 with ValidLogEvent _ => [e.1] | InvalidLogEvent => [] end ++ first_seen sdk_key global es cache
      end
  end.

Lemma check_key_bound key cache :
  size (check_key key cache).2 <= max dedupe_cache_limit 1.
Proof.
  unfold check_key. cbn [snd]. case_bool_decide as Hl.
  - rewrite union_empty_r_L, size_singleton. lia.
  - destruct (decide (hash_one key ∈ cache)).
    + replace ({[hash_one key]} ∪ cache) with cache by set_solver. lia.
    + rewrite size_union by set_solver. rewrite size_singleton. lia.
Qed.

Lemma retain_bound sdk_key global es cache :
  size cache <= max dedupe_cache_limit 1 ->
  size (retain_events sdk_key global es cache).2 <= max dedupe_cache_limit 1.
Proof.
  revert cache. induction es as [|[e now] es IH]; intros cache Hc; [done|]. cbn [retain_events].
  assert (size (process_event sdk_key global now e cache).2 <= max dedupe_cache_limit 1) as Hp.
  { destruct e as [e|]; [|done]. cbn [process_event].
    destruct (compute_key sdk_key e global now); [apply check_key_bound|done]. }
  destruct (process_event sdk_key global now e cache) as [keep c1]. specialize (IH c1 Hp).
  by destruct (retain_events sdk_key global es c1) as [kept c2].
Qed.

(** *** Clearing *)

(** How many hashes the cache may hold. *)
Definition capacity : nat := max dedupe_cache_limit 1.

(** No exposure of [es] finds the cache full. *)
Definition fits (sdk_key : string) (global : option StatsigMetadata) (es : list (PossiblyLogEvent * N)) (cache : gset N) : Prop :=
  forall pre e post, es = pre ++ e :: post -> is_Some (exposure_hash sdk_key global e) ->
    size (hashes sdk_key global pre ∪ cache) < capacity.

(** A batch falls into stretches: each goes on until an exposure finds the cache full;
    the next one begins with that exposure and an empty cache. *)
Inductive stretches (sdk_key : string) (global : option StatsigMetadata)
    : list (PossiblyLogEvent * N) -> gset N -> list PossiblyLogEvent -> gset N -> Prop :=
| stretch_last es cache :
    fits sdk_key global es cache ->
    stretches sdk_key global es cache (first_seen sdk_key global es cache) (hashes sdk_key global es ∪ cache)
| stretch_cleared es e rest cache out cache' :
    fits sdk_key global es cache -> capacity <= size (hashes sdk_key global es ∪ cache) ->
    is_Some (exposure_hash sdk_key global e) -> stretches sdk_key global (e :: rest) ∅ out cache' ->
    stretches sdk_key global (es ++ e :: rest) cache (first_seen sdk_key global es cache ++ out) cache'.

Lemma hashes_cons sdk_key global e es :
  hashes sdk_key global (e :: es) = match exposure_hash sdk_key global e with Some h => {[h]} | None => ∅ end ∪ hashes sdk_key global es.
Proof. unfold hashes. cbn [omap list_omap]. destruct (exposure_hash sdk_key global e); cbn [list_to_set]; set_solver. Qed.

(** The cache after an event that does not find it full, and what is forwarded of it. *)
Definition seen_after sdk_key global e (cache : gset N) : gset N :=
  match exposure_hash sdk_key global e with Some h => {[h]} | None => ∅ end ∪ cache.

Lemma hashes_seen_after sdk_key global e es cache :
  hashes sdk_key global es ∪ seen_after sdk_key global e cache = hashes sdk_key global (e :: es) ∪ cache.
Proof. rewrite hashes_cons. unfold seen_after. set_solver. Qed.

Lemma first_seen_cons sdk_key global e es cache :
  first_seen sdk_key global (e :: es) cache =
    first_seen sdk_key global [e] cache ++ first_seen sdk_key global es (seen_after sdk_key global e cache).
Proof.
  cbn [first_seen]. unfold seen_after. destruct (exposure_hash sdk_key global e); rewrite app_nil_r; [done|].
  by rewrite union_empty_l_L.
Qed.

Lemma fits_cons sdk_key global e es cache :
  (is_Some (exposure_hash sdk_key global e) -> size cache < capacity) ->
  fits sdk_key global es (seen_after sdk_key global e cache) -> fits sdk_key global (e :: es) cache.
Proof.
  intros He Hf [|e' pre] e'' post [= -> Hes] Hx; [rewrite (union_empty_l_L cache : hashes _ _ [] ∪ _ = _); auto|].
  rewrite <- hashes_seen_after. by eapply Hf.
Qed.

(** One more event before a batch, when it does not find the cache full. *)
Lemma stretches_cons sdk_key global e es cache out cache' :
  (is_Some (exposure_hash sdk_key global e) -> size cache < capacity) ->
  stretches sdk_key global es (seen_after sdk_key global e cache) out cache' ->
  stretches sdk_key global (e :: es) cache (first_seen sdk_key global [e] cache ++ out) cache'.
Proof.
  intros He Hs. inversion Hs as [es' c Hf|es' e' rest c out' c' Hf Hfull Hx Hrest]; subst.
  - rewrite <- first_seen_cons, hashes_seen_after. apply stretch_last. by apply fits_cons.
  - rewrite app_assoc, <- first_seen_cons. apply (stretch_cleared _ _ (e :: es')); [by apply fits_cons| |done..].
    by rewrite <- hashes_seen_after.
Qed.

Lemma retain_cons sdk_key global e es cache :
  (is_Some (exposure_hash sdk_key global e) -> size cache < capacity) ->
  retain_events sdk_key global (e :: es) cache =
    (first_seen sdk_key global [e] cache ++ (retain_events sdk_key global es (seen_after sdk_key global e cache)).1,
     (retain_events sdk_key global es (seen_after sdk_key global e cache)).2).
Proof.
  destruct e as [ev now]. intros Hc. cbn [retain_events first_seen]. unfold seen_after. destruct ev as [ev|]; cbn [process_event].
  2: { change (exposure_hash sdk_key global (InvalidLogEvent, now)) with (@None N). rewrite union_empty_l_L.
       by destruct (retain_events sdk_key global es cache). }
  change (exposure_hash sdk_key global (ValidLogEvent ev, now)) with (hash_one <$> compute_key sdk_key ev global now) in *.
  destruct (compute_key sdk_key ev global now) as [s|]; cbn [fmap option_fmap option_map fst] in *.
  2: { rewrite union_empty_l_L. by destruct (retain_events sdk_key global es cache). }
  assert (check_key s cache = (bool_decide (hash_one s ∉ cache), {[hash_one s]} ∪ cache)) as ->.
  { unfold check_key. destruct (bool_decide (dedupe_cache_limit <= size cache)) eqn:Hl; [|done]. apply bool_decide_eq_true in Hl. assert (size cache < capacity) as Hs by (apply Hc; by eexists).
    unfold capacity in Hs. assert (cache = ∅) as -> by (apply leibniz_equiv, size_empty_inv; lia). done. }
  destruct (retain_events sdk_key global es _) as [kept c].
  destruct (decide (hash_one s ∈ cache)); [rewrite bool_decide_eq_false_2, bool_decide_eq_true_2|rewrite bool_decide_eq_true_2, bool_decide_eq_false_2]; by auto.
Qed.

Lemma retain_cleared sdk_key global e es cache h :
  exposure_hash sdk_key global e = Some h -> capacity <= size cache ->
  retain_events sdk_key global (e :: es) cache = retain_events sdk_key global (e :: es) ∅.
Proof.
  destruct e as [[ev|] now]; [|done]. cbn [retain_events process_event].
  change (exposure_hash sdk_key global (ValidLogEvent ev, now)) with (hash_one <$> compute_key sdk_key ev global now).
  intros (s & -> & _)%fmap_Some Hfull. assert (check_key s cache = check_key s ∅) as ->; [|done].
  unfold check_key, capacity in *. rewrite (bool_decide_eq_true_2 (_ <= size cache)) by lia.
  by destruct (bool_decide (dedupe_cache_limit <= size ∅)).
Qed.

(** The loop of the batch goes through its stretches. *)
Lemma retain_stretches sdk_key global es cache :
  stretches sdk_key global es cache (retain_events sdk_key global es cache).1 (retain_events sdk_key global es cache).2.
Proof.
  revert cache. induction es as [|e es IH]; intros cache.
  { rewrite <- (union_empty_l_L cache) at 3. apply stretch_last. by intros [|] ? ?. }
  assert (forall c, (is_Some (exposure_hash sdk_key global e) -> size c < capacity) ->
    stretches sdk_key global (e :: es) c (retain_events sdk_key global (e :: es) c).1 (retain_events sdk_key global (e :: es) c).2) as Hroom.
  { intros c Hc. rewrite retain_cons by done. apply stretches_cons; [done|apply IH]. }
  destruct (exposure_hash sdk_key global e) as [h|] eqn:Eh; [|apply Hroom; by intros []].
  destruct (decide (size cache < capacity)); [by apply Hroom|].
  rewrite (retain_cleared _ _ _ _ _ h) by (done || lia). apply (stretch_cleared _ _ [] e es); [by intros [|] ? ?| |by eexists|].
  - rewrite (union_empty_l_L cache : hashes _ _ [] ∪ _ = _). lia.
  - apply Hroom. intros _. rewrite size_empty. unfold capacity. lia.
Qed.

(** C39: the cache of seen exposures never outgrows its limit, and exactly the events not
    seen before are forwarded: every event that is not an exposure, and of the exposures
    with the same key hash only the first since the cache was last cleared. It is cleared
    exactly when an exposure finds it full, and that exposure, seen before or not, is
    forwarded as the first of what comes after. Malformed events are dropped, the order
    is kept, and the counts add up. One batch is worked on at a time. *)
Theorem dedupe_forwards_first_seen sdk_key request clock cache
    (es := imap (fun i e => (e, clock i)) (events request))
    (out := dedupe_events_for_sdk_key sdk_key request clock cache) :
  size cache <= max dedupe_cache_limit 1 ->
  size out.2.2 <= max dedupe_cache_limit 1 /\
  batch_in_size out.1 = length (events request) /\ batch_out_size out.1 = length (events out.2.1) /\
  deduped_count out.1 = batch_in_size out.1 - batch_out_size out.1 /\
  stretches sdk_key (statsig_metadata request) es cache (events out.2.1) out.2.2.
Proof.
  intros Hc. subst out. unfold dedupe_events_for_sdk_key. fold es.
  pose proof (retain_bound sdk_key (statsig_metadata request) es cache Hc) as Hb.
  pose proof (retain_stretches sdk_key (statsig_metadata request) es cache) as Hs.
  destruct (retain_events sdk_key (statsig_metadata request) es cache) as [kept c]. cbn in *. done.
Qed.
End Dedupe.

Module LogExample.
#[export] Instance calendar : Calendar := {| representable := fun _ => true |}.
#[export] Instance hash : EventHash := {| hash_one := fun s => N.of_nat (String.length s) |}.
Definition exposure : PossiblyLogEvent := ValidLogEvent
  {| event_name := GateExposure; user := Some {| user_id := Some "u"; custom_ids := None |}; ev_time := Some 61234%N;
     metadata := Some {["gate" := "g"]}; ev_statsig_metadata := None |}.
Definition other_exposure : PossiblyLogEvent := ValidLogEvent
  {| event_name := GateExposure; user := Some {| user_id := Some "user"; custom_ids := None |}; ev_time := Some 61234%N;
     metadata := Some {["gate" := "g"]}; ev_statsig_metadata := None |}.
Definition request : LogEventRequest :=
  {| events := [exposure; InvalidLogEvent; exposure; other_exposure; other_exposure; exposure]; statsig_metadata := None |}.
End LogExample.

(** The first exposure is dropped when it comes again; the other one finds the cache full
    when it does, and is forwarded once more. *)
Lemma dedupe_forwards_first_seen_witness :
  let out := dedupe_events_for_sdk_key (H := LogExample.calendar) (H0 := LogExample.hash) 3 "k" LogExample.request (fun _ => 1%N) {[0%N]} in
  events out.2.1 = [LogExample.exposure; LogExample.other_exposure; LogExample.other_exposure; LogExample.exposure] /\
  stretches (H := LogExample.calendar) (H0 := LogExample.hash) 3 "k" None
    (imap (fun i e => (e, 1%N)) (events LogExample.request)) {[0%N]} (events out.2.1) out.2.2.
Proof.
  intros out. split; [vm_compute; reflexivity|].
  apply (dedupe_forwards_first_seen (H := LogExample.calendar) (H0 := LogExample.hash) 3 "k" LogExample.request (fun _ => 1%N) {[0%N]}).
  vm_compute. lia.
Defined.
