(* ===== verification/RedisAuth.v ===== *)
(** * RedisAuth: tokens as Redis passwords and the connections they open

    Models [src/src/datastore/caching/redis_auth.rs]: the request of a token and what its
    answer means, when a token is replaced, the loops that acquire the first token and
    its replacements, and the manager through which a pool opens, checks and retires
    connections. Durations and instants are nanoseconds. *)
From S2P Require Import Prelude Backoff.

(** ** Constants *)

Definition DEFAULT_REFRESH_MARGIN_DIVISOR : N := 4.
Definition MIN_REFRESH_DELAY : N := from_secs 30.
Definition MIN_RETRY_BACKOFF : N := from_secs 1.
Definition MAX_RETRY_BACKOFF : N := from_secs 60.
Definition MIN_USABLE_TOKEN_LIFETIME : N := from_secs 120.
Definition MAX_STARTUP_TIMEOUT : N := from_secs (24 * 60 * 60).
Definition MAX_TOKEN_LIFETIME : N := from_secs (24 * 60 * 60).
Definition MIN_REFRESH_MARGIN : N := from_secs 60.
Definition TOKEN_HARD_EXPIRY_MARGIN : N := from_secs 30.
Definition CONNECTION_LIFETIME_MARGIN_NUMERATOR : N := 3.
Definition CONNECTION_LIFETIME_MARGIN_DENOMINATOR : N := 4.
Definition MIN_CONNECTION_LIFETIME : N := from_secs (5 * 60).
Definition TOKEN_REQUEST_TIMEOUT : N := from_secs 10.
Definition MAX_LOGGED_ERROR_BODY_LEN : nat := 512.
Definition DEFAULT_ENTRA_AUTHORITY_HOST : string := "https://login.microsoftonline.com".

(** ** Data *)

Record EntraOauthConfig := {
  tenant_id : string;
  client_id : string;
  client_secret : string;
  scope : string;
  username : option string;
  configured_margin : option N;
  authority_host : string;
}.

Inductive TokenError :=
| TokenTransport (e : string)
| TokenEndpoint (status : N) (body : string)
| TokenMalformed (e : string).

Definition token_error_str (e : TokenError) : string :=
  match e with
  | TokenTransport e => "failed to reach the Entra token endpoint: " +:+ e
  | TokenEndpoint status body => "Entra token endpoint returned " +:+ show_u64 status +:+ ": " +:+ body
  | TokenMalformed e => "malformed Entra token response: " +:+ e
  end.

Record TokenSnapshot := {
  secret : string;
  expires_at : N;
  refresh_at : N;
  snap_generation : N;
  snap_max_lifetime : N;
}.

Record TokenResponse := { access_token : string; expires_in : N }.

Record EntraTokenProvider := {
  pr_config : EntraOauthConfig;
  token : TokenSnapshot;
  pr_generation : N;
  refresh_task_started : bool;
}.

(** What [Debug] prints of a configuration: its fields, the secret replaced. *)
Inductive debug_value :=
| DebugStr (s : string)
| DebugOptStr (o : option string)
| DebugOptN (o : option N)
| DebugOptBool (o : option bool).

Definition EntraOauthConfig_debug (c : EntraOauthConfig) : list (string * debug_value) := [
  ("tenant_id", DebugStr (tenant_id c));
  ("client_id", DebugStr (client_id c));
  ("client_secret", DebugStr "<redacted>");
  ("scope", DebugStr (scope c));
  ("username", DebugOptStr (username c));
  ("refresh_margin", DebugOptN (configured_margin c));
  ("authority_host", DebugStr (authority_host c))].

(** ** When a token is replaced *)

Definition usable_token_lifetime (expires_in : N) : result TokenError N :=
  let lifetime := from_secs expires_in in
  if bool_decide (lifetime < MIN_USABLE_TOKEN_LIFETIME)%N
  then Err (TokenMalformed ("token lifetime of " +:+ show_u64 expires_in +:+ "s is below the "
                            +:+ show_u64 (as_secs MIN_USABLE_TOKEN_LIFETIME) +:+ "s minimum"))
  else Ok (N.min lifetime MAX_TOKEN_LIFETIME).

Definition configured_margin_fits (lifetime margin : N) : bool :=
  bool_decide (margin <= sat_sub lifetime (N.min MIN_REFRESH_DELAY (lifetime / 2)))%N.

Definition refresh_margin (lifetime : N) (configured : option N) : N :=
  let margin :=
    N.max match configured with
          | Some m => if configured_margin_fits lifetime m then m else (lifetime / DEFAULT_REFRESH_MARGIN_DIVISOR)%N
          | None => (lifetime / DEFAULT_REFRESH_MARGIN_DIVISOR)%N
          end MIN_REFRESH_MARGIN in
  let shortest_delay := N.min MIN_REFRESH_DELAY (lifetime / 2) in
  N.min margin (sat_sub lifetime shortest_delay).

Definition refresh_delay (lifetime : N) (configured : option N) : N :=
  sat_sub lifetime (refresh_margin lifetime configured).

Definition max_connection_lifetime (lifetime : N) (configured : option N) : N :=
  let target := (refresh_margin lifetime configured * CONNECTION_LIFETIME_MARGIN_NUMERATOR
                 / CONNECTION_LIFETIME_MARGIN_DENOMINATOR)%N in
  let ceiling := N.max (lifetime / 2) (from_secs 1) in
  N.min (N.max target MIN_CONNECTION_LIFETIME) ceiling.

(** The warning is printed exactly when a configured margin does not fit. *)
Definition warns_margin_does_not_fit (lifetime : N) (configured : option N) : bool :=
  match configured with
  | None => false
  | Some m => negb (configured_margin_fits lifetime m)
  end.

(** [Instant::checked_duration_since]: nothing when the instant is later. *)
Definition checked_duration_since (later earlier : N) : option N :=
  if bool_decide (earlier <= later)%N then Some (later - earlier)%N else None.

Definition is_token_expiring (now expires_at margin : N) : bool :=
  match checked_duration_since expires_at now with
  | None => true
  | Some remaining => bool_decide (remaining <= margin)%N
  end.

(** ** What is logged of an answer *)

(** [str::char_indices] and [nth]: the bytes before the character with index [n],
    if there is one. A byte [10xxxxxx] continues a character. *)
Definition is_char_start (c : ascii) : bool := negb (bool_decide (128 <= nat_of_ascii c < 192)).
Fixpoint before_char (n : nat) (s : string) : option string :=
  match s with
  | EmptyString => None
  | String c s' =>
      if is_char_start c then
        match n with O => Some EmptyString | S n' => String c <$> before_char n' s' end
      else String c <$> before_char n s'
  end.

Definition truncate_for_log (body : string) : string :=
  match before_char MAX_LOGGED_ERROR_BODY_LEN body with
  | Some start => start +:+ "..."
  | None => body
  end.

(** ** Requesting a token *)

Record token_request := { tr_url : string; tr_form : list (string * string) }.
(** [ta_location] is the header as text, when it is there and is text. *)
Record token_answer := { ta_status : N; ta_location : option string; ta_body : result string string }.

(** The HTTP client and the JSON decoder. Redirects are not followed: the answer is
    the endpoint's own. *)
Class TokenClient := {
  client_build : result string unit;
  token_send : list token_request -> token_request -> result string token_answer;
  token_json : string -> result string TokenResponse;
}.

Definition is_redirection (status : N) : bool := bool_decide (300 <= status < 400)%N.
Definition is_success_status (status : N) : bool := bool_decide (200 <= status < 300)%N.

Definition token_request_of (c : EntraOauthConfig) : token_request := {|
  tr_url := trim_end_matches "/" (authority_host c) +:+ "/" +:+ tenant_id c +:+ "/oauth2/v2.0/token";
  tr_form := [("grant_type", "client_credentials"); ("client_id", client_id c);
              ("client_secret", client_secret c); ("scope", scope c)] |}.

Section Provider.
Context `{TokenClient}.

Definition read_token_answer (answer : token_answer) : result TokenError TokenResponse :=
  let redirect_location :=
    if is_redirection (ta_status answer)
    then Some (default "an unspecified location" (truncate_for_log <$> ta_location answer)) else None in
  body ← map_err TokenTransport (ta_body answer);
  match redirect_location with
  | Some location =>
      Err (TokenEndpoint (ta_status answer)
             ("refused to follow a redirect to " +:+ location +:+ "; this request carries "
              +:+ "client_secret, so it is only ever sent to the configured authority host"))
  | None =>
      if negb (is_success_status (ta_status answer))
      then Err (TokenEndpoint (ta_status answer) (truncate_for_log body))
      else
        response ← map_err TokenMalformed (token_json body);
        if str_empty (trim (access_token response))
        then Err (TokenMalformed "token endpoint returned an empty access_token")
        else Ok response
  end.

(** [sent] lists the requests sent so far. *)
Definition request_token (self : EntraTokenProvider) (sent : list token_request)
    : result TokenError TokenResponse * list token_request :=
  let req := token_request_of (pr_config self) in
  (answer ← map_err TokenTransport (token_send sent req); read_token_answer answer, sent ++ [req]).

(** [AtomicU64::fetch_add] wraps. *)
Definition wrapping_succ (n : N) : N := ((n + 1) mod 2 ^ 64)%N.

(** [now] is the clock after the answer. *)
Definition publish (self : EntraTokenProvider) (response : TokenResponse) (lifetime now : N) : EntraTokenProvider :=
  let generation := wrapping_succ (pr_generation self) in
  let margin := configured_margin (pr_config self) in
  {| pr_config := pr_config self;
     token := {| secret := access_token response;
                 expires_at := now + lifetime;
                 refresh_at := now + refresh_delay lifetime margin;
                 snap_generation := generation;
                 snap_max_lifetime := max_connection_lifetime lifetime margin |};
     pr_generation := generation;
     refresh_task_started := refresh_task_started self |}.

Definition refresh (self : EntraTokenProvider) (now : N) (sent : list token_request)
    : result TokenError EntraTokenProvider * list token_request :=
  let '(r, sent) := request_token self sent in
  (response ← r;
   lifetime ← usable_token_lifetime (expires_in response);
   Ok (publish self response lifetime now), sent).

(** ** The first token *)

(** The clock readings of one round: in [refresh], and after a failure. *)
Record round := { r_now : N; r_failed : N }.
Record connect_outcome := {
  co_result : option (result TokenError EntraTokenProvider);
  co_sent : list token_request;
  co_sleeps : list N;
}.
Definition with_sleep (d : N) (o : connect_outcome) : connect_outcome :=
  {| co_result := co_result o; co_sent := co_sent o; co_sleeps := d :: co_sleeps o |}.

(** [co_result] is [None] when the readings run out before the loop ends. *)
Fixpoint connect_loop (self : EntraTokenProvider) (deadline backoff : N) (rounds : list round)
    (sent : list token_request) : connect_outcome :=
  match rounds with
  | [] => {| co_result := None; co_sent := sent; co_sleeps := [] |}
  | r :: rounds =>
      match refresh self (r_now r) sent with
      | (Ok provider, sent) => {| co_result := Some (Ok provider); co_sent := sent; co_sleeps := [] |}
      | (Err error, sent) =>
          let remaining := sat_sub deadline (r_failed r) in
          if bool_decide (remaining = 0%N)
          then {| co_result := Some (Err error); co_sent := sent; co_sleeps := [] |}
          else with_sleep (N.min backoff remaining)
                 (connect_loop self deadline (N.min (backoff * 2) MAX_RETRY_BACKOFF) rounds sent)
      end
  end.

Definition fresh_provider (config : EntraOauthConfig) (now : N) : EntraTokenProvider := {|
  pr_config := config;
  token := {| secret := ""; expires_at := now; refresh_at := now; snap_generation := 0; snap_max_lifetime := 0 |};
  pr_generation := 0; refresh_task_started := false |}.

Definition provider_connect (config : EntraOauthConfig) (startup_timeout now : N) (rounds : list round)
    (sent : list token_request) : connect_outcome :=
  match client_build with
  | Err e => {| co_result := Some (Err (TokenTransport e)); co_sent := sent; co_sleeps := [] |}
  | Ok _ =>
      connect_loop (fresh_provider config now) (now + N.min startup_timeout MAX_STARTUP_TIMEOUT)
        MIN_RETRY_BACKOFF rounds sent
  end.

(** The cell every cache shares: the first outcome, failure included, is kept. *)
Definition shared_entra_provider (cell : option (result string EntraTokenProvider)) (config : EntraOauthConfig)
    (startup_timeout now : N) (rounds : list round) (sent : list token_request)
    : option (result string EntraTokenProvider) * list token_request :=
  match cell with
  | Some outcome => (Some outcome, sent)
  | None =>
      let o := provider_connect config startup_timeout now rounds sent in
      (map_err token_error_str <$> co_result o, co_sent o)
  end.

(** ** Its replacements *)

(** The wait before the first attempt of a turn of the loop. *)
Definition sleep_until_refresh (self : EntraTokenProvider) (now : N) : N := sat_sub (refresh_at (token self)) now.

(** One turn: attempts until one succeeds. [nows] are the readings in [refresh]. *)
Fixpoint refresh_turn (self : EntraTokenProvider) (backoff : N) (nows : list N) (sent : list token_request)
    : option EntraTokenProvider * list token_request * list N :=
  match nows with
  | [] => (None, sent, [])
  | now :: nows =>
      match refresh self now sent with
      | (Ok provider, sent) => (Some provider, sent, [])
      | (Err _, sent) =>
          let '(p, sent, sleeps) :=
            refresh_turn self (N.min (backoff * 2) MAX_RETRY_BACKOFF) nows sent in
          (p, sent, backoff :: sleeps)
      end
  end.

(** A whole turn, from the reading of the clock it begins with: the sleeps are the wait until
    the refresh is due and then the backoff after each failure. *)
Definition refresh_loop_turn (self : EntraTokenProvider) (began : N) (nows : list N) (sent : list token_request)
    : option EntraTokenProvider * list token_request * list N :=
  let '(p, sent, sleeps) := refresh_turn self MIN_RETRY_BACKOFF nows sent in
  (p, sent, sleep_until_refresh self began :: sleeps).

Definition spawn_refresh_task (self : EntraTokenProvider) : EntraTokenProvider * bool :=
  ({| pr_config := pr_config self; token := token self; pr_generation := pr_generation self;
      refresh_task_started := true |}, negb (refresh_task_started self)).

Definition current (self : EntraTokenProvider) : TokenSnapshot := token self.
Definition current_generation (self : EntraTokenProvider) : N := snap_generation (token self).
End Provider.

(** ** Connections *)

Inductive RedisCredentials :=
| Static (username password : option string)
| Oauth (provider : EntraTokenProvider).

(** [tc_password] is what the handshake sent. *)
Record TrackedConnection := {
  tc_username : option string;
  tc_password : option string;
  generation : N;
  token_expires_at : option N;
}.

Definition should_retire_connection (credentials : RedisCredentials) (connection_generation : N) : bool :=
  match credentials with
  | Oauth provider => negb (bool_decide (connection_generation = current_generation provider))
  | Static _ _ => false
  end.

(** The connection the manager opens with its credentials; the handshake itself may
    fail and is the client library's. *)
Definition manager_connect (credentials : RedisCredentials) : TrackedConnection :=
  match credentials with
  | Static username password =>
      {| tc_username := username; tc_password := password; generation := 0; token_expires_at := None |}
  | Oauth provider =>
      let t := current provider in
      {| tc_username := username (pr_config provider); tc_password := Some (secret t);
         generation := snap_generation t; token_expires_at := Some (expires_at t) |}
  end.

(** [ping] is the answer to the command sent when the token is alive. *)
Definition is_valid (conn : TrackedConnection) (now : N) (ping : bool) : bool :=
  match token_expires_at conn with
  | Some expires_at => if is_token_expiring now expires_at TOKEN_HARD_EXPIRY_MARGIN then false else ping
  | None => ping
  end.

Definition has_broken (credentials : RedisCredentials) (conn : TrackedConnection) : bool :=
  should_retire_connection credentials (generation conn).

(** ** The schedule of a token *)

Ltac unfold_durations :=
  unfold DEFAULT_REFRESH_MARGIN_DIVISOR, MIN_REFRESH_DELAY, MIN_RETRY_BACKOFF, MAX_RETRY_BACKOFF,
    MIN_USABLE_TOKEN_LIFETIME, MAX_STARTUP_TIMEOUT, MAX_TOKEN_LIFETIME, MIN_REFRESH_MARGIN,
    TOKEN_HARD_EXPIRY_MARGIN, CONNECTION_LIFETIME_MARGIN_NUMERATOR, CONNECTION_LIFETIME_MARGIN_DENOMINATOR,
    MIN_CONNECTION_LIFETIME, TOKEN_REQUEST_TIMEOUT, sat_sub, from_secs, ns_per_s in *.

Lemma usable_lifetime_bounds secs lifetime :
  usable_token_lifetime secs = Ok lifetime ->
  (MIN_USABLE_TOKEN_LIFETIME <= lifetime <= MAX_TOKEN_LIFETIME)%N /\ lifetime = N.min (from_secs secs) MAX_TOKEN_LIFETIME.
Proof.
  unfold usable_token_lifetime. destruct (bool_decide _) eqn:E; [done|]. intros [= <-]. boolify.
  split; [|done]. unfold_durations. lia.
Qed.

Lemma refresh_margin_bounds lifetime configured :
  (MIN_USABLE_TOKEN_LIFETIME <= lifetime)%N ->
  (MIN_REFRESH_MARGIN <= refresh_margin lifetime configured <= lifetime - MIN_REFRESH_DELAY)%N.
Proof.
  intros Hl. assert (MIN_REFRESH_DELAY <= lifetime / 2)%N as Hhalf.
  { apply N.div_le_lower_bound; [done|]. unfold_durations. lia. }
  unfold refresh_margin. rewrite (N.min_l MIN_REFRESH_DELAY) by done.
  set (m := match configured with Some _ => _ | None => _ end). unfold_durations. lia.
Qed.

(** A configured margin that fits and is not too small is the margin. *)
Lemma refresh_margin_configured lifetime m :
  (MIN_USABLE_TOKEN_LIFETIME <= lifetime)%N -> (MIN_REFRESH_MARGIN <= m)%N ->
  refresh_margin lifetime (Some m) =
    if configured_margin_fits lifetime m then m else refresh_margin lifetime None.
Proof.
  intros Hl Hm. unfold refresh_margin. destruct (configured_margin_fits lifetime m) eqn:E; [|done].
  unfold configured_margin_fits in E. boolify. rewrite N.max_l by done. by rewrite N.min_l.
Qed.

Lemma refresh_delay_bounds lifetime configured :
  (MIN_USABLE_TOKEN_LIFETIME <= lifetime)%N ->
  (MIN_REFRESH_DELAY <= refresh_delay lifetime configured <= lifetime - MIN_REFRESH_MARGIN)%N.
Proof.
  intros Hl. pose proof (refresh_margin_bounds lifetime configured Hl) as [Hlo Hhi].
  unfold refresh_delay. set (m := refresh_margin lifetime configured) in *. unfold_durations. lia.
Qed.

Lemma max_connection_lifetime_bounds lifetime configured :
  (MIN_USABLE_TOKEN_LIFETIME <= lifetime)%N ->
  (MIN_REFRESH_MARGIN <= max_connection_lifetime lifetime configured <= lifetime / 2)%N.
Proof.
  intros Hl. assert (MIN_REFRESH_MARGIN <= lifetime / 2)%N as Hhalf.
  { apply N.div_le_lower_bound; [done|]. unfold_durations. lia. }
  unfold max_connection_lifetime. set (t := (_ / CONNECTION_LIFETIME_MARGIN_DENOMINATOR)%N).
  set (h := (lifetime / 2)%N) in *. unfold_durations. lia.
Qed.

Section ProviderFacts.
Context `{TokenClient}.

(** What a successful refresh says. *)
Lemma refresh_ok self now sent p sent' :
  refresh self now sent = (Ok p, sent') ->
  sent' = sent ++ [token_request_of (pr_config self)] /\
  exists answer response lifetime,
    token_send sent (token_request_of (pr_config self)) = Ok answer /\
    read_token_answer answer = Ok response /\
    usable_token_lifetime (expires_in response) = Ok lifetime /\
    p = publish self response lifetime now.
Proof.
  unfold refresh, request_token. destruct (token_send sent _) as [answer|e] eqn:Es; cbn [map_err mbind result_bind]; [|done].
  destruct (read_token_answer answer) as [response|e] eqn:Er; cbn [map_err mbind result_bind]; [|done].
  destruct (usable_token_lifetime (expires_in response)) as [lifetime|e] eqn:El; cbn [mbind result_bind]; [|done].
  intros [= <- <-]. split; [done|]. by exists answer, response, lifetime.
Qed.

Lemma refresh_sent self now sent r sent' :
  refresh self now sent = (r, sent') -> sent' = sent ++ [token_request_of (pr_config self)].
Proof. unfold refresh, request_token. by intros [= _ <-]. Qed.

(** An answer is only a token when the endpoint itself answered with success and a
    token that is not blank. *)
Lemma read_token_answer_ok answer response :
  read_token_answer answer = Ok response <->
  is_success_status (ta_status answer) = true /\
  (exists body, ta_body answer = Ok body /\ token_json body = Ok response) /\
  trim (access_token response) <> EmptyString.
Proof.
  unfold read_token_answer, str_empty. destruct (ta_body answer) as [body|e]; cbn [map_err mbind result_bind].
  2:{ split; [done|]. by intros (_ & (? & ? & _) & _). }
  unfold is_redirection, is_success_status.
  destruct (bool_decide (300 <= ta_status answer < 400)%N) eqn:Er;
    destruct (bool_decide (200 <= ta_status answer < 300)%N) eqn:Es; boolify; cbn [negb]; try lia.
  1,3: split; [done|]; intros (? & _); done.
  destruct (token_json body) as [r|e] eqn:Ej; cbn [map_err mbind result_bind].
  2:{ split; [done|]. intros (_ & (? & [= <-] & ?) & _). congruence. }
  split.
  - destruct (bool_decide (trim _ = _)) eqn:Et; [done|]. intros [= <-]. boolify. eauto.
  - intros (_ & (? & [= <-] & ?) & Ht). assert (r = response) as -> by congruence.
    destruct (bool_decide (trim _ = _)) eqn:Et; boolify; done.
Qed.

(** The times of a published token. *)
Record scheduled (now : N) (t : TokenSnapshot) : Prop := {
  sch_delay : (now + MIN_REFRESH_DELAY <= refresh_at t)%N;
  sch_margin : (refresh_at t + MIN_REFRESH_MARGIN <= expires_at t)%N;
  sch_life : (now + MIN_USABLE_TOKEN_LIFETIME <= expires_at t <= now + MAX_TOKEN_LIFETIME)%N;
  sch_conn : (MIN_REFRESH_MARGIN <= snap_max_lifetime t)%N /\ (now + 2 * snap_max_lifetime t <= expires_at t)%N;
}.

Lemma publish_scheduled self response lifetime now :
  (MIN_USABLE_TOKEN_LIFETIME <= lifetime <= MAX_TOKEN_LIFETIME)%N ->
  scheduled now (token (publish self response lifetime now)).
Proof.
  intros [Hlo Hhi]. set (margin := configured_margin (pr_config self)).
  pose proof (refresh_delay_bounds lifetime margin Hlo) as [Hd1 Hd2].
  pose proof (max_connection_lifetime_bounds lifetime margin Hlo) as [Hm1 Hm2].
  assert (2 * (lifetime / 2) <= lifetime)%N as Hhalf by (apply N.Div0.mul_div_le).
  constructor; cbn [publish token refresh_at expires_at snap_max_lifetime]; fold margin;
    set (d := refresh_delay lifetime margin) in *; set (c := max_connection_lifetime lifetime margin) in *;
    set (h := (lifetime / 2)%N) in *; clearbody d c h margin; unfold_durations; lia.
Qed.

(** C27: A token is published only from an answer of the endpoint itself with success
    status and a token that is not blank. Its replacement is asked for no sooner than
    thirty seconds after it was issued and no later than sixty seconds before it
    expires, a configured margin of at least a minute that fits is kept to the
    nanosecond, the lifetime is never taken to be longer than the endpoint says nor
    longer than a day, and connections are recycled within half of it. *)
Theorem token_schedule self now sent p sent' :
  refresh self now sent = (Ok p, sent') ->
  exists answer response,
    token_send sent (token_request_of (pr_config self)) = Ok answer /\
    is_success_status (ta_status answer) = true /\
    trim (access_token response) <> EmptyString /\
    secret (token p) = access_token response /\
    scheduled now (token p) /\
    (expires_at (token p) <= now + from_secs (expires_in response))%N /\
    (forall m, configured_margin (pr_config self) = Some m -> (MIN_REFRESH_MARGIN <= m)%N ->
       configured_margin_fits (expires_at (token p) - now) m = true ->
       expires_at (token p) = (refresh_at (token p) + m)%N).
Proof.
  intros (_ & answer & response & lifetime & Hs & Hr & Hl & ->)%refresh_ok.
  apply read_token_answer_ok in Hr as (Hst & _ & Ht). apply usable_lifetime_bounds in Hl as [Hb Heq].
  exists answer, response. split_and!; [done..|by apply publish_scheduled| |].
  - cbn [publish token expires_at]. rewrite Heq. set (f := from_secs _). lia.
  - intros m Hm Hlo Hf. cbn [publish token expires_at refresh_at] in *.
    replace (now + lifetime - now)%N with lifetime in Hf by lia.
    unfold refresh_delay. rewrite Hm, refresh_margin_configured, Hf by tauto.
    unfold configured_margin_fits in Hf. boolify. unfold sat_sub in *.
    assert (m <= lifetime)%N as Hml by (etrans; [exact Hf|apply N.le_sub_l]). clear - Hml. lia.
Qed.
(** ** The first token *)

(** The attempt [k] of a loop that began with the history [sent]. *)
Definition nth_attempt (self : EntraTokenProvider) (sent : list token_request) (k : nat) (now : N)
    : result TokenError EntraTokenProvider * list token_request :=
  refresh self now (sent ++ replicate k (token_request_of (pr_config self))).

Lemma nth_attempt_S self sent k now :
  nth_attempt self (sent ++ [token_request_of (pr_config self)]) k now = nth_attempt self sent (S k) now.
Proof. unfold nth_attempt. by rewrite <- app_assoc. Qed.
Lemma nth_attempt_O self sent now : nth_attempt self sent 0 now = refresh self now sent.
Proof. unfold nth_attempt. cbn [replicate]. by rewrite app_nil_r. Qed.

(** The clock never goes back, and a sleep takes at least its duration. *)
Fixpoint paced (now deadline backoff : N) (rounds : list round) : Prop :=
  match rounds with
  | [] => True
  | r :: rounds =>
      (now <= r_now r <= r_failed r)%N /\
      paced (r_failed r + N.min backoff (sat_sub deadline (r_failed r))) deadline
        (N.min (backoff * 2) MAX_RETRY_BACKOFF) rounds
  end.

Lemma next_backoff b :
  (MIN_RETRY_BACKOFF <= b)%N -> (MIN_RETRY_BACKOFF <= N.min (b * 2) MAX_RETRY_BACKOFF <= MAX_RETRY_BACKOFF)%N.
Proof. unfold_durations. lia. Qed.

(** The rounds left always suffice for the time left. *)
Lemma rounds_suffice (one b now failed deadline n : N) :
  (0 < one <= b)%N -> (now <= failed < deadline)%N -> (deadline - now + one <= (1 + n) * one)%N ->
  (deadline - (failed + N.min b (deadline - failed)) + one <= n * one)%N.
Proof.
  intros [Ho Hb] [Hn Hf] Hs. rewrite N.mul_add_distr_r, N.mul_1_l in Hs.
  destruct (N.le_ge_cases b (deadline - failed)) as [Hr|Hr].
  - rewrite N.min_l by done. lia.
  - rewrite N.min_r by done. assert (n <> 0)%N as Hn0 by (intros ->; rewrite N.mul_0_l in Hs; lia).
    assert (1 * one <= n * one)%N as Hmul by (apply N.mul_le_mono_r; lia). lia.
Qed.

Lemma connect_loop_ends self deadline rounds : forall now backoff sent,
  (MIN_RETRY_BACKOFF <= backoff)%N -> paced now deadline backoff rounds ->
  (deadline - now + MIN_RETRY_BACKOFF <= N.of_nat (length rounds) * MIN_RETRY_BACKOFF)%N ->
  co_result (connect_loop self deadline backoff rounds sent) <> None.
Proof.
  induction rounds as [|r rounds IH]; intros now backoff sent Hb Hp Hn; cbn [connect_loop length] in *.
  { exfalso. revert Hn. unfold_durations. lia. }
  destruct Hp as [Ht Hp]. destruct (refresh self (r_now r) sent) as [[p|e] sent1]; [done|].
  destruct (bool_decide (sat_sub deadline (r_failed r) = 0%N)) eqn:E; [done|]. boolify. cbn [with_sleep co_result].
  eapply IH; [by apply next_backoff|exact Hp|]. unfold sat_sub in *.
  rewrite Nat2N.inj_succ, <- N.add_1_l in Hn. apply (rounds_suffice _ _ now); [|lia|exact Hn].
  split; [done|exact Hb].
Qed.

Definition total (sleeps : list N) : N := foldr N.add 0%N sleeps.

Lemma connect_loop_sleeps self deadline rounds : forall now backoff sent,
  paced now deadline backoff rounds ->
  (total (co_sleeps (connect_loop self deadline backoff rounds sent)) <= deadline - now)%N.
Proof.
  induction rounds as [|r rounds IH]; intros now backoff sent Hp; cbn [connect_loop]; [apply N.le_0_l|].
  destruct Hp as [Ht Hp]. destruct (refresh self (r_now r) sent) as [[p|e] sent1]; [apply N.le_0_l|].
  destruct (bool_decide (sat_sub deadline (r_failed r) = 0%N)) eqn:E; [apply N.le_0_l|]. boolify.
  cbn [with_sleep co_sleeps total foldr]. eapply (IH _ _ sent1) in Hp. unfold total in Hp.
  set (x := foldr _ _ _) in *. unfold sat_sub in *. lia.
Qed.

Lemma connect_loop_spec self deadline rounds : forall backoff sent res,
  co_result (connect_loop self deadline backoff rounds sent) = Some res ->
  exists k r,
    rounds !! k = Some r /\
    (forall j rj, j < k -> rounds !! j = Some rj ->
       (exists e, (nth_attempt self sent j (r_now rj)).1 = Err e) /\ (r_failed rj < deadline)%N) /\
    nth_attempt self sent k (r_now r) = (res, co_sent (connect_loop self deadline backoff rounds sent)) /\
    (forall e, res = Err e -> (deadline <= r_failed r)%N).
Proof.
  induction rounds as [|r rounds IH]; intros backoff sent res; cbn [connect_loop]; [done|].
  destruct (refresh self (r_now r) sent) as [[p|e] sent1] eqn:Er.
  { cbn [co_result co_sent]. intros [= <-]. exists 0, r. rewrite nth_attempt_O. split_and!; [done| |done|done].
    intros j rj Hj. lia. }
  destruct (bool_decide (sat_sub deadline (r_failed r) = 0%N)) eqn:E; boolify.
  { cbn [co_result co_sent]. intros [= <-]. exists 0, r. rewrite nth_attempt_O. split_and!; [done| |done|].
    - intros j rj Hj. lia.
    - unfold sat_sub in *. intros _ _. lia. }
  cbn [with_sleep co_result co_sent]. intros Hres. apply refresh_sent in Er as Hsent. subst sent1.
  apply IH in Hres as (k & r' & Hk & Hbefore & Ha & He). rewrite nth_attempt_S in Ha.
  exists (S k), r'. split_and!; [done| |done|done].
  intros [|j] rj Hj Hrj; cbn in Hrj.
  - simplify_eq. rewrite nth_attempt_O, Er. split; [by exists e|]. unfold sat_sub in *. lia.
  - rewrite <- nth_attempt_S. apply Hbefore; [lia|done].
Qed.

(** C28: Acquiring the first token ends: when the clock moves on, one attempt per
    second of the startup timeout (a day at most) and one more are enough. It ends with
    the first attempt that succeeds, whose token is published with generation one, or,
    no sooner than the timeout, with the error of the last attempt; it asks once per
    attempt and sleeps no longer than the timeout in all. *)
Theorem provider_connect_ends config startup_timeout start rounds sent :
  client_build = Ok tt ->
  let timeout := N.min startup_timeout MAX_STARTUP_TIMEOUT in
  paced start (start + timeout) MIN_RETRY_BACKOFF rounds ->
  (timeout + MIN_RETRY_BACKOFF <= N.of_nat (length rounds) * MIN_RETRY_BACKOFF)%N ->
  let o := provider_connect config startup_timeout start rounds sent in
  let self := fresh_provider config start in
  exists res k r,
    co_result o = Some res /\ rounds !! k = Some r /\
    (forall j rj, j < k -> rounds !! j = Some rj -> exists e, (nth_attempt self sent j (r_now rj)).1 = Err e) /\
    nth_attempt self sent k (r_now r) = (res, co_sent o) /\
    co_sent o = sent ++ replicate (S k) (token_request_of config) /\
    match res with
    | Ok p => current_generation p = 1%N /\ scheduled (r_now r) (current p)
    | Err _ => (start + timeout <= r_failed r)%N
    end /\
    (total (co_sleeps o) <= timeout)%N.
Proof.
  intros Hb timeout Hp Hn o self.
  assert (o = connect_loop self (start + timeout) MIN_RETRY_BACKOFF rounds sent) as Ho.
  { unfold o, provider_connect. by rewrite Hb. }
  clearbody o. subst o. set (o := connect_loop _ _ _ _ _).
  destruct (co_result o) as [res|] eqn:Er.
  2:{ exfalso. revert Er. apply (connect_loop_ends _ _ _ start); [done|exact Hp|].
      replace (start + timeout - start)%N with timeout by lia. exact Hn. }
  destruct (connect_loop_spec _ _ _ _ _ _ Er) as (k & r & Hk & Hbefore & Ha & He). fold o in Ha.
  exists res, k, r. split_and!; [done|done| |done| | |].
  - intros j rj Hj Hrj. by apply (Hbefore j rj).
  - unfold nth_attempt in Ha. apply refresh_sent in Ha. rewrite Ha, <- app_assoc.
    by rewrite <- (replicate_cons_app k).
  - destruct res as [p|e]; [|by eapply He].
    unfold nth_attempt in Ha. apply refresh_ok in Ha as (_ & answer & response & lifetime & _ & _ & Hl & ->).
    apply usable_lifetime_bounds in Hl as [Hl _]. split; [done|by apply publish_scheduled].
  - pose proof (connect_loop_sleeps self _ _ _ _ sent Hp) as Hs.
    replace (start + timeout - start)%N with timeout in Hs by lia. exact Hs.
Qed.
(** ** Its replacements *)

(** When the attempts of a turn begin and end, given the sleeps of the turn: a sleep may wake
    up to [lag] late, and a request is given up after its timeout. *)
Fixpoint follows_sleeps (lag now : N) (sleeps : list N) (times : list (N * N)) : Prop :=
  match sleeps, times with
  | d :: sleeps, (began, ended) :: times =>
      (now + d <= began <= now + d + lag)%N /\ (began <= ended <= began + TOKEN_REQUEST_TIMEOUT)%N /\
      follows_sleeps lag ended sleeps times
  | _, _ => True
  end.

(** From [back] on, the endpoint answers every attempt with a usable token. *)
Definition answers_from (back : N) (self : EntraTokenProvider) (sent : list token_request) (times : list (N * N)) : Prop :=
  forall k began ended, times !! k = Some (began, ended) -> (back <= began)%N ->
  exists p, (nth_attempt self sent k ended).1 = Ok p.

Definition published_by (lag wake back : N) : N :=
  (N.max (wake + lag) (back + TOKEN_REQUEST_TIMEOUT + MAX_RETRY_BACKOFF + lag) + TOKEN_REQUEST_TIMEOUT)%N.

Lemma published_by_retry lag wake back wake' :
  (wake' <= back + TOKEN_REQUEST_TIMEOUT + MAX_RETRY_BACKOFF)%N ->
  (published_by lag wake' back <= published_by lag wake back)%N.
Proof. unfold published_by. lia. Qed.

Lemma attempts_suffice (one b wake began ended back n : N) :
  (0 < one <= b)%N -> (wake <= began <= ended)%N -> (began < back)%N ->
  (back - wake + one <= (1 + n) * one)%N -> (back - (ended + b) + one <= n * one)%N.
Proof.
  intros [Ho Hb] [Hw He] Hback Hn. rewrite N.mul_add_distr_r, N.mul_1_l in Hn.
  destruct (N.le_ge_cases (ended + b) back) as [Hr|Hr]; [lia|].
  assert (n <> 0)%N as Hn0 by (intros ->; rewrite N.mul_0_l in Hn; lia).
  assert (1 * one <= n * one)%N as Hmul by (apply N.mul_le_mono_r; lia). lia.
Qed.

Lemma refresh_turn_catches_up self back lag times : forall now d backoff sent p sent' sleeps,
  (MIN_RETRY_BACKOFF <= backoff <= MAX_RETRY_BACKOFF)%N ->
  refresh_turn self backoff times.*2 sent = (p, sent', sleeps) ->
  follows_sleeps lag now (d :: sleeps) times -> answers_from back self sent times ->
  (back - (now + d) + MIN_RETRY_BACKOFF <= N.of_nat (length times) * MIN_RETRY_BACKOFF)%N ->
  exists k began ended q,
    p = Some q /\ times !! k = Some (began, ended) /\
    nth_attempt self sent k ended = (Ok q, sent') /\
    (now + d <= ended <= published_by lag (now + d) back)%N.
Proof.
  induction times as [|[began ended] times IH]; intros now d backoff sent p sent' sleeps Hb Hturn Ht Hans Hn.
  { exfalso. revert Hn. cbn [length]. unfold_durations. lia. }
  cbn [follows_sleeps] in Ht. destruct Ht as (Hbegan & Hended & Ht). cbn [refresh_turn fmap list_fmap snd] in Hturn.
  destruct (refresh self ended sent) as [[q|e] sent1] eqn:Er.
  { injection Hturn as <- <- <-. exists 0, began, ended, q. rewrite nth_attempt_O. split_and!; [done..|lia|].
    unfold published_by. lia. }
  assert (began < back)%N as Hback.
  { destruct (N.lt_ge_cases began back) as [|Hge]; [done|exfalso].
    destruct (Hans 0 began ended eq_refl Hge) as [q Hq]. rewrite nth_attempt_O, Er in Hq. done. }
  apply refresh_sent in Er as ->.
  destruct (refresh_turn self (N.min (backoff * 2) MAX_RETRY_BACKOFF) times.*2 (sent ++ [token_request_of (pr_config self)]))
    as [[p0 sent0] sleeps0] eqn:Hrest. injection Hturn as <- <- <-.
  destruct (IH ended backoff (N.min (backoff * 2) MAX_RETRY_BACKOFF) (sent ++ [token_request_of (pr_config self)]) p0 sent0 sleeps0)
    as (k & b & e' & q & -> & Hk & Ha & Hlo & Hhi).
  - apply next_backoff. lia.
  - done.
  - done.
  - intros k b e' Hk Hge. rewrite nth_attempt_S. by apply (Hans (S k) b).
  - cbn [length] in Hn. rewrite Nat2N.inj_succ, <- N.add_1_l in Hn.
    apply (attempts_suffice _ _ (now + d) began); [split; [done|lia]|lia|done|exact Hn].
  - exists (S k), b, e', q. cbn [lookup list_lookup]. rewrite nth_attempt_S in Ha.
    split_and!; [done..|lia|]. etrans; [exact Hhi|]. apply published_by_retry. lia.
Qed.

(** A token is not refused as long as more than the margin is left. *)
Lemma not_expiring now expires_at margin :
  is_token_expiring now expires_at margin = false <-> (now + margin < expires_at)%N.
Proof.
  unfold is_token_expiring, checked_duration_since. destruct (bool_decide (now <= expires_at)%N) eqn:E; boolify.
  - split; [intros ?; boolify; lia|]. intros. apply bool_decide_eq_false. lia.
  - split; [done|lia].
Qed.

(** C22: A token is replaced in time. A turn of the refresh loop sleeps until the refresh is due
    and then, after each failure, for its backoff; each sleep may wake up to [lag] late, and
    each request ends within its timeout. When the endpoint answers every request that begins
    after some instant, the turn ends and publishes the next generation no later than a
    request timeout, the longest backoff and the lag after that instant (or the lag after
    the refresh was due), plus the timeout of one more request. If the lag is under 20
    seconds, the turn begins within it after the token was issued, and the outage ends 110
    seconds and the lag before the token expires, no check of a connection that holds the
    current token refuses it in the meantime. *)
Theorem token_replaced_in_time self minted lag back turn_began times sent p sent' sleeps :
  scheduled minted (current self) ->
  refresh_loop_turn self turn_began times.*2 sent = (p, sent', sleeps) ->
  follows_sleeps lag turn_began sleeps times ->
  answers_from back self sent times ->
  let wake := N.max turn_began (refresh_at (current self)) in
  (back - wake + MIN_RETRY_BACKOFF <= N.of_nat (length times) * MIN_RETRY_BACKOFF)%N ->
  exists published q, p = Some q /\
    current_generation q = wrapping_succ (pr_generation self) /\
    scheduled published (current q) /\
    (wake <= published <= published_by lag wake back)%N /\
    ((lag < from_secs 20)%N -> (turn_began <= minted + lag)%N ->
     (back + from_secs 110 + lag < expires_at (current self))%N ->
     forall now, (now <= published)%N ->
     is_token_expiring now (expires_at (current self)) TOKEN_HARD_EXPIRY_MARGIN = false).
Proof.
  intros Hsch Hloop Hpaced Hans wake Hn. unfold refresh_loop_turn in Hloop.
  destruct (refresh_turn self MIN_RETRY_BACKOFF times.*2 sent) as [[p0 sent0] sleeps0] eqn:Hturn. injection Hloop as -> -> <-.
  assert (turn_began + sleep_until_refresh self turn_began = wake)%N as Hwake.
  { unfold sleep_until_refresh, sat_sub, wake, current. lia. }
  destruct (refresh_turn_catches_up self back lag times turn_began (sleep_until_refresh self turn_began) MIN_RETRY_BACKOFF sent p sent' sleeps0)
    as (k & b & e & q & -> & Hk & Ha & Hlo & Hhi); [done..|by rewrite Hwake|].
  rewrite Hwake in Hlo, Hhi. exists e, q. unfold nth_attempt in Ha.
  apply refresh_ok in Ha as (_ & answer & response & lifetime & _ & _ & Hl & ->).
  apply usable_lifetime_bounds in Hl as [Hl _].
  split_and!; [done|done|by apply publish_scheduled|done..|].
  intros Hlag Hbegan Hback now Hnow. apply not_expiring. destruct Hsch as [Hd Hm _ _].
  unfold wake in *. clear wake Hwake.
  set (x := expires_at (current self)) in *. set (y := refresh_at (current self)) in *. unfold current in Hm, Hd.
  fold x in Hm, Hd. fold y in Hm, Hd. clearbody x y.
  unfold published_by in Hhi. unfold_durations. lia.
Qed.
End ProviderFacts.

(** ** A pool of connections under rotation

    The pool library opens connections in the background, checks one with [is_valid]
    before it hands it out, asks [has_broken] when it comes back, and may drop any
    connection (age, a failed handshake). Handshakes overlap refreshes: [p_opening]
    holds the connections whose credentials are read and that are not yet in the pool.
    [p_idle] notes the generation current when a connection came back, [p_out] the time
    it was handed out. *)
Record pool := {
  p_now : N;
  p_provider : EntraTokenProvider;
  p_refreshes : N;
  p_opening : list TrackedConnection;
  p_idle : list (TrackedConnection * option N);
  p_out : list (TrackedConnection * N);
}.
Definition at_time (t : N) (s : pool) : pool :=
  {| p_now := t; p_provider := p_provider s; p_refreshes := p_refreshes s; p_opening := p_opening s;
     p_idle := p_idle s; p_out := p_out s |}.
Definition holding (s : pool) (opening : list TrackedConnection) (idle : list (TrackedConnection * option N))
    (out : list (TrackedConnection * N)) : pool :=
  {| p_now := p_now s; p_provider := p_provider s; p_refreshes := p_refreshes s; p_opening := opening;
     p_idle := idle; p_out := out |}.

Inductive pool_step : pool -> pool -> Prop :=
| pool_time s t : (p_now s <= t)%N -> pool_step s (at_time t s)
| pool_refresh s response lifetime :
    usable_token_lifetime (expires_in response) = Ok lifetime ->
    pool_step s {| p_now := p_now s; p_provider := publish (p_provider s) response lifetime (p_now s);
                   p_refreshes := p_refreshes s + 1; p_opening := p_opening s;
                   p_idle := p_idle s; p_out := p_out s |}
| pool_open s :
    pool_step s (holding s (manager_connect (Oauth (p_provider s)) :: p_opening s) (p_idle s) (p_out s))
| pool_opened s c l1 l2 :
    p_opening s = l1 ++ c :: l2 -> pool_step s (holding s (l1 ++ l2) ((c, None) :: p_idle s) (p_out s))
| pool_open_failed s c l1 l2 :
    p_opening s = l1 ++ c :: l2 -> pool_step s (holding s (l1 ++ l2) (p_idle s) (p_out s))
| pool_checkout s c n l1 l2 ping :
    p_idle s = l1 ++ (c, n) :: l2 ->
    pool_step s (if is_valid c (p_now s) ping
                 then holding s (p_opening s) (l1 ++ l2) ((c, p_now s) :: p_out s)
                 else holding s (p_opening s) (l1 ++ l2) (p_out s))
| pool_checkin s c t l1 l2 :
    p_out s = l1 ++ (c, t) :: l2 ->
    pool_step s (if has_broken (Oauth (p_provider s)) c
                 then holding s (p_opening s) (p_idle s) (l1 ++ l2)
                 else holding s (p_opening s)
                        ((c, Some (current_generation (p_provider s))) :: p_idle s) (l1 ++ l2))
| pool_drop_idle s c n l1 l2 :
    p_idle s = l1 ++ (c, n) :: l2 -> pool_step s (holding s (p_opening s) (l1 ++ l2) (p_out s))
| pool_drop_out s c t l1 l2 :
    p_out s = l1 ++ (c, t) :: l2 -> pool_step s (holding s (p_opening s) (p_idle s) (l1 ++ l2)).

(** A pool just built around a provider that has its first token. *)
Definition new_pool (provider : EntraTokenProvider) (now : N) : pool :=
  {| p_now := now; p_provider := provider; p_refreshes := 1; p_opening := []; p_idle := []; p_out := [] |}.

Definition connections (s : pool) : list TrackedConnection := p_opening s ++ (p_idle s).*1 ++ (p_out s).*1.

(** A connection holds the token of some refresh [g]; if that is the last one, it is
    the current token. *)
Definition of_token (s : pool) (c : TrackedConnection) : Prop :=
  exists g, (1 <= g <= p_refreshes s)%N /\ generation c = (g mod 2 ^ 64)%N /\
    (g = p_refreshes s ->
     tc_password c = Some (secret (current (p_provider s))) /\
     token_expires_at c = Some (expires_at (current (p_provider s)))).
Definition served_live (c : TrackedConnection) (t : N) : Prop :=
  exists x, token_expires_at c = Some x /\ (t + TOKEN_HARD_EXPIRY_MARGIN < x)%N.
Definition tracked (c : TrackedConnection) : Prop := is_Some (token_expires_at c).

Record pool_ok (s : pool) : Prop := {
  ok_generation : current_generation (p_provider s) = (p_refreshes s mod 2 ^ 64)%N;
  ok_counter : pr_generation (p_provider s) = (p_refreshes s mod 2 ^ 64)%N;
  ok_positive : (1 <= p_refreshes s)%N;
  ok_tokens : Forall (fun c => of_token s c /\ tracked c) (connections s);
  ok_returned : forall c n, (c, Some n) ∈ p_idle s -> generation c = n;
  ok_served : forall c t, (c, t) ∈ p_out s -> served_live c t;
}.

Lemma wrapping_succ_mod n : wrapping_succ (n mod 2 ^ 64) = ((n + 1) mod 2 ^ 64)%N.
Proof. unfold wrapping_succ. by rewrite N.Div0.add_mod_idemp_l. Qed.

Lemma of_token_refresh s s' c :
  p_refreshes s' = (p_refreshes s + 1)%N -> of_token s c -> of_token s' c.
Proof. intros Hr (g & Hg & Hgen & _). exists g. rewrite Hr. split_and!; [lia..|done|lia]. Qed.

Lemma of_token_same s s' c :
  p_refreshes s' = p_refreshes s -> p_provider s' = p_provider s -> of_token s c -> of_token s' c.
Proof. unfold of_token. by intros -> ->. Qed.

Lemma manager_connect_of_token s :
  current_generation (p_provider s) = (p_refreshes s mod 2 ^ 64)%N -> (1 <= p_refreshes s)%N ->
  of_token s (manager_connect (Oauth (p_provider s))) /\ tracked (manager_connect (Oauth (p_provider s))).
Proof. intros Hg Hp. split; [|by eexists]. exists (p_refreshes s). split_and!; [lia..|done|done]. Qed.

(** Moving connections about keeps the invariant when nothing new is held. *)
Lemma pool_ok_holding s opening idle out :
  pool_ok s ->
  (forall c, c ∈ connections (holding s opening idle out) ->
     c ∈ connections s \/ c = manager_connect (Oauth (p_provider s))) ->
  (forall c n, (c, Some n) ∈ idle -> generation c = n) ->
  (forall c t, (c, t) ∈ out -> served_live c t) ->
  pool_ok (holding s opening idle out).
Proof.
  intros [Hg Hc Hp Ht Hr Hs] Hin Hi Ho. constructor; [done..| |done|done].
  apply Forall_forall. intros c Hc'.
  destruct (Hin c Hc') as [Hold| ->].
  - rewrite Forall_forall in Ht. destruct (Ht c Hold). split; [by eapply (of_token_same s)|done].
  - destruct (manager_connect_of_token s Hg Hp). split; [by eapply (of_token_same s)|done].
Qed.

Lemma is_valid_live c now ping : tracked c -> is_valid c now ping = true -> served_live c now.
Proof.
  unfold is_valid, served_live. intros [x Hx]. rewrite Hx. destruct (is_token_expiring _ _ _) eqn:E; [done|].
  intros _. exists x. split; [done|by apply not_expiring].
Qed.

Lemma connections_elem s c :
  c ∈ connections s <-> c ∈ p_opening s \/ (exists n, (c, n) ∈ p_idle s) \/ (exists t, (c, t) ∈ p_out s).
Proof.
  unfold connections. rewrite !elem_of_app, !list_elem_of_fmap. split.
  - intros [?|[([??]&->&?)|([??]&->&?)]]; eauto.
  - intros [?|[[n ?]|[t ?]]]; [by left| |]; right; [left|right]; [by exists (c, n)|by exists (c, t)].
Qed.

(** [l1 ++ l2] holds less than [l1 ++ x :: l2]. *)
Lemma elem_of_without {A} (x y : A) l l1 l2 : l = l1 ++ x :: l2 -> y ∈ l1 ++ l2 -> y ∈ l.
Proof. intros ->. rewrite !elem_of_app, elem_of_cons. tauto. Qed.
Lemma elem_of_split {A} (x : A) l l1 l2 : l = l1 ++ x :: l2 -> x ∈ l.
Proof. intros ->. rewrite elem_of_app, elem_of_cons. tauto. Qed.
Create HintDb pool discriminated.
#[local] Hint Resolve elem_of_without elem_of_split : pool.

Ltac pool_moves :=
  match goal with
  | |- forall c, c ∈ connections _ -> _ =>
      let c := fresh "c" in intros c; rewrite !connections_elem; cbn [holding p_opening p_idle p_out];
      repeat setoid_rewrite elem_of_cons;
      intros [?|[[? ?]|[? ?]]]; destruct_or?; simplify_eq; eauto 8 with pool
  | |- forall c n, _ -> _ => intros ? ?; rewrite ?elem_of_cons; intros ?; destruct_or?; simplify_eq; eauto with pool
  end.

Lemma pool_ok_step s s' : pool_ok s -> pool_step s s' -> pool_ok s'.
Proof.
  intros Hok Hstep.
  assert (forall c n, (c, Some n) ∈ p_idle s -> generation c = n) as Hr by apply Hok.
  assert (forall c t, (c, t) ∈ p_out s -> served_live c t) as Hs by apply Hok.
  destruct Hstep.
  - destruct Hok as [Hg Hc Hp Ht _ _]. constructor; try done.
  - destruct Hok as [Hg Hc Hp Ht _ _]. constructor; cbn [p_provider p_refreshes p_idle p_out]; try done; [| |lia|].
    1,2: unfold current_generation, publish; cbn [token snap_generation pr_generation]; by rewrite Hc, wrapping_succ_mod.
    eapply Forall_impl; [exact Ht|]. intros c [Hc' ?]. split; [by eapply (of_token_refresh s)|done].
  - apply pool_ok_holding; [done|pool_moves..].
  - apply pool_ok_holding; [done|pool_moves..].
  - apply pool_ok_holding; [done|pool_moves..].
  - destruct (is_valid c (p_now s) ping) eqn:E; apply pool_ok_holding; try done; try pool_moves.
    apply (is_valid_live _ _ ping); [|done]. destruct Hok as [_ _ _ Ht _ _]. rewrite Forall_forall in Ht.
    apply Ht, connections_elem. right; left. exists n. by eapply elem_of_split.
  - destruct (has_broken _ c) eqn:E; apply pool_ok_holding; try done; try pool_moves.
    unfold has_broken, should_retire_connection in E. by boolify.
  - apply pool_ok_holding; [done|pool_moves..].
  - apply pool_ok_holding; [done|pool_moves..].
Qed.

Lemma of_token_generation s c :
  (p_refreshes s <= u64_max)%N -> of_token s c ->
  (generation c <= p_refreshes s)%N /\
  (generation c = p_refreshes s ->
   tc_password c = Some (secret (current (p_provider s))) /\
   token_expires_at c = Some (expires_at (current (p_provider s)))).
Proof.
  intros Hmax (g & Hg & Hgen & Hcur). unfold u64_max in Hmax. rewrite N.mod_small in Hgen by lia.
  rewrite Hgen. split; [lia|]. intros ->. by apply Hcur.
Qed.

(** C11: Under any interleaving of refreshes, handshakes, check-outs, check-ins and
    drops, the generation counts the published tokens, no connection is ahead of it,
    and a connection of the current generation was opened with the current token and
    knows when it expires. A connection goes back to the pool only while its token is
    the current one, and none is handed out with thirty seconds or less of its token's
    life left. *)
Theorem rotation_safe provider now s :
  current_generation provider = 1%N -> pr_generation provider = 1%N ->
  rtc pool_step (new_pool provider now) s -> (p_refreshes s <= u64_max)%N ->
  current_generation (p_provider s) = p_refreshes s /\
  (forall c, c ∈ connections s ->
     (generation c <= current_generation (p_provider s))%N /\
     (generation c = current_generation (p_provider s) ->
      tc_password c = Some (secret (current (p_provider s))) /\
      token_expires_at c = Some (expires_at (current (p_provider s))))) /\
  (forall c n, (c, Some n) ∈ p_idle s -> generation c = n) /\
  (forall c t, (c, t) ∈ p_out s -> served_live c t).
Proof.
  intros Hg Hc Hsteps Hmax.
  assert (pool_ok s) as [Hgen Hcount Hpos Ht Hr Hs].
  { assert (pool_ok (new_pool provider now)) as Hinit.
    { constructor; [done..|constructor| |]; intros ?? Hin; by apply elem_of_nil in Hin. }
    clear Hmax Hg Hc. induction Hsteps; eauto using pool_ok_step. }
  assert (current_generation (p_provider s) = p_refreshes s) as Heq.
  { rewrite Hgen. apply N.mod_small. unfold u64_max in Hmax. lia. }
  split_and!; [done| |done|done]. intros c Hin. rewrite Heq. rewrite Forall_forall in Ht.
  apply of_token_generation; [done|by apply Ht].
Qed.

(** ** The endpoint of the examples: down for one request, then hour-long tokens *)

Module Examples.
#[export] Instance client : TokenClient := {
  client_build := Ok tt;
  token_send sent _ :=
    match sent with
    | [] => Err "connection refused"
    | _ => Ok {| ta_status := 200; ta_location := None; ta_body := Ok "token-a" |}
    end;
  token_json body := Ok {| access_token := body; expires_in := 3600 |};
}.
Definition config : EntraOauthConfig := {|
  tenant_id := "t"; client_id := "c"; client_secret := "s"; scope := "api/.default"; username := None;
  configured_margin := Some (from_secs 600); authority_host := "https://login.example/" |}.
Definition start : N := from_secs 1000.
Definition rounds : list round :=
  [{| r_now := from_secs 1001; r_failed := from_secs 1001 |};
   {| r_now := from_secs 1003; r_failed := from_secs 1003 |};
   {| r_now := from_secs 1006; r_failed := from_secs 1006 |}].
Definition published : EntraTokenProvider :=
  publish (fresh_provider config start) {| access_token := "token-a"; expires_in := 3600 |} (from_secs 3600) (from_secs 1003).
End Examples.
#[local] Existing Instances Examples.client.

Lemma token_schedule_witness :
  exists p sent, refresh (fresh_provider Examples.config 0) 5 [token_request_of Examples.config] = (Ok p, sent) /\
    scheduled 5 (token p).
Proof.
  eexists _, _. split; [reflexivity|].
  edestruct (token_schedule (fresh_provider Examples.config 0) 5 [token_request_of Examples.config])
    as (_ & _ & _ & _ & _ & _ & Hs & _); [reflexivity|exact Hs].
Defined.

Lemma provider_connect_ends_witness :
  exists res, co_result (provider_connect Examples.config (from_secs 2) Examples.start Examples.rounds []) = Some (Ok res) /\
    current_generation res = 1%N.
Proof.
  destruct (provider_connect_ends Examples.config (from_secs 2) Examples.start Examples.rounds [])
    as (res & k & r & Hres & _ & _ & _ & _ & Hmatch & _); [reflexivity| |vm_compute; discriminate|].
  - vm_compute. repeat split; discriminate.
  - assert (co_result (provider_connect Examples.config (from_secs 2) Examples.start Examples.rounds [])
            = Some (Ok Examples.published)) as Hc by (vm_compute; reflexivity).
    exists Examples.published. split; [exact Hc|].
    rewrite Hres in Hc. injection Hc as ->. exact (proj1 Hmatch).
Defined.

Lemma token_replaced_in_time_witness :
  exists p sent sleeps,
    refresh_loop_turn Examples.published (from_secs 1004) [from_secs 4004; from_secs 4007] [] = (Some p, sent, sleeps) /\
    sleeps = [from_secs 2999; from_secs 1] /\ current_generation p = 2%N.
Proof.
  destruct (refresh_loop_turn Examples.published (from_secs 1004) [from_secs 4004; from_secs 4007] []) as [[o sent] sleeps] eqn:Hturn.
  assert (sleeps = [from_secs 2999; from_secs 1]) as Hsl.
  { apply (f_equal snd) in Hturn. cbn [snd] in Hturn. rewrite <- Hturn. vm_compute. reflexivity. }
  destruct (token_replaced_in_time Examples.published (from_secs 1003) (from_secs 1) (from_secs 4004) (from_secs 1004)
              [(from_secs 4003, from_secs 4004); (from_secs 4005, from_secs 4007)] [] o sent sleeps)
    as (t & p & -> & Hgen & _).
  - constructor; vm_compute; repeat split; discriminate.
  - exact Hturn.
  - rewrite Hsl. vm_compute. repeat split; discriminate.
  - intros [|[|k]] b e Hk Hb; [|eexists; vm_compute; reflexivity|done].
    exfalso. cbn in Hk. injection Hk as <- <-. revert Hb. vm_compute. intros Hb. by apply Hb.
  - vm_compute. discriminate.
  - exists p, sent, sleeps. split; [reflexivity|]. split; [exact Hsl|]. rewrite Hgen. vm_compute. reflexivity.
Defined.

Definition sample_pool : pool :=
  let c := manager_connect (Oauth Examples.published) in
  holding (new_pool Examples.published (from_secs 1003)) [] [] [(c, from_secs 1003)].

Lemma rotation_safe_witness :
  exists c t, (c, t) ∈ p_out sample_pool /\ served_live c t.
Proof.
  set (c := manager_connect (Oauth Examples.published)). exists c, (from_secs 1003).
  assert ((c, from_secs 1003) ∈ p_out sample_pool) as Hin by apply list_elem_of_here.
  split; [exact Hin|].
  destruct (rotation_safe Examples.published (from_secs 1003) sample_pool)
    as (_ & _ & _ & Hs); [reflexivity|reflexivity| |vm_compute; discriminate|by apply Hs].
  eapply rtc_l; [apply pool_open|]. eapply rtc_l; [by apply (pool_opened _ c [] [])|].
  eapply rtc_l; [apply (pool_checkout _ c None [] [] true); reflexivity|]. apply rtc_refl.
Defined.
