(* ===== verification/RedisPool.v ===== *)
(** * RedisPool: the Redis settings of the environment and the pools built from them

    Models [src/src/datastore/caching/redis_pool.rs]: authentication modes, the checks of
    the OAuth settings, and the construction of a pool, which in OAuth mode acquires the
    shared token and starts its refresh loop. *)
From S2P Require Import Prelude Schema Backoff RedisAuth.

Inductive RedisPoolError :=
| InvalidPort
| MalformedConfig (e : string)
| MalformedUri (e : string)
| OauthToken (e : string)
| Build (e : string).

Definition RedisPoolError_str (e : RedisPoolError) : string :=
  match e with
  | InvalidPort => "Invalid REDIS_ENTERPRISE_PORT"
  | MalformedConfig e | MalformedUri e | OauthToken e | Build e => e
  end.

Record RedisEnvConfig := {
  redis_enterprise_user : option string;
  redis_enterprise_password : option string;
  redis_enterprise_host : string;
  redis_enterprise_port : string;
  redis_connection_pool_max_size : option N;
  redis_connection_pool_min_size : option N;
  redis_memorystore : option bool;
  redis_tls : option bool;
  redis_key_prefix : option string;
  redis_auth_mode : option string;
  redis_oauth_tenant_id : option string;
  redis_oauth_client_id : option string;
  redis_oauth_client_secret : option string;
  redis_oauth_scope : option string;
  redis_oauth_username : option string;
  redis_oauth_refresh_margin_in_s : option string;
  redis_oauth_authority_host : option string;
  redis_oauth_allow_plaintext : option string;
}.

Definition redacted (o : option string) : debug_value := DebugOptStr ((fun _ => "<redacted>") <$> o).

Definition RedisEnvConfig_debug (c : RedisEnvConfig) : list (string * debug_value) := [
  ("redis_enterprise_user", DebugOptStr (redis_enterprise_user c));
  ("redis_enterprise_password", redacted (redis_enterprise_password c));
  ("redis_enterprise_host", DebugStr (redis_enterprise_host c));
  ("redis_enterprise_port", DebugStr (redis_enterprise_port c));
  ("redis_connection_pool_max_size", DebugOptN (redis_connection_pool_max_size c));
  ("redis_connection_pool_min_size", DebugOptN (redis_connection_pool_min_size c));
  ("redis_memorystore", DebugOptBool (redis_memorystore c));
  ("redis_tls", DebugOptBool (redis_tls c));
  ("redis_key_prefix", DebugOptStr (redis_key_prefix c));
  ("redis_auth_mode", DebugOptStr (redis_auth_mode c));
  ("redis_oauth_tenant_id", DebugOptStr (redis_oauth_tenant_id c));
  ("redis_oauth_client_id", DebugOptStr (redis_oauth_client_id c));
  ("redis_oauth_client_secret", redacted (redis_oauth_client_secret c));
  ("redis_oauth_scope", DebugOptStr (redis_oauth_scope c));
  ("redis_oauth_username", DebugOptStr (redis_oauth_username c));
  ("redis_oauth_refresh_margin_in_s", DebugOptStr (redis_oauth_refresh_margin_in_s c));
  ("redis_oauth_authority_host", DebugOptStr (redis_oauth_authority_host c));
  ("redis_oauth_allow_plaintext", DebugOptStr (redis_oauth_allow_plaintext c))].

Inductive RedisAuthMode := PasswordMode | OauthMode.

Definition parse_auth_mode (raw : option string) : result string RedisAuthMode :=
  match (fun mode => to_lower (trim mode)) <$> raw with
  | None => Ok PasswordMode
  | Some mode =>
      if bool_decide (mode = "" \/ mode = "password") then Ok PasswordMode
      else if bool_decide (mode = "oauth") then Ok OauthMode
      else Err ("Unsupported REDIS_AUTH_MODE '" +:+ mode +:+ "'. Expected 'password' or 'oauth'.")
  end.

(** The product wraps at 32 bits. *)
Definition min_idle_is_too_low_for_oauth (min_idle max_size : N) : bool :=
  bool_decide ((min_idle * 2) mod 2 ^ 32 < max_size)%N.

Definition oauth_transport_is_plaintext (config : RedisEnvConfig) : bool := negb (default false (redis_tls config)).

(** ** The OAuth settings *)

Definition trimmed_or_default (value : option string) : string := trim (default "" value).
Definition trimmed_non_empty (value : option string) : option string :=
  value ← value; let value := trim value in if str_empty value then None else Some value.

Definition oauth_seconds_from_env (name : string) (raw : option string) : result string (option N) :=
  match trimmed_non_empty raw with
  | None => Ok None
  | Some value =>
      match parse_u64 value with
      | Some n => Ok (Some n)
      | None => Err (name +:+ " must be a whole number of seconds, got '" +:+ value +:+ "'")
      end
  end.

Definition oauth_flag_from_env (name : string) (raw : option string) : result string (option bool) :=
  match trimmed_non_empty raw with
  | None => Ok None
  | Some value =>
      let lower := to_lower value in
      if bool_decide (lower = "true" \/ lower = "1" \/ lower = "yes") then Ok (Some true)
      else if bool_decide (lower = "false" \/ lower = "0" \/ lower = "no") then Ok (Some false)
      else Err (name +:+ " must be true or false, got '" +:+ value +:+ "'")
  end.

Definition is_secure_authority_host (host : string) : bool := starts_with "https://" (to_lower (trim host)).

Definition required_settings (config : RedisEnvConfig) : list (string * option string) := [
  ("REDIS_OAUTH_TENANT_ID", redis_oauth_tenant_id config);
  ("REDIS_OAUTH_CLIENT_ID", redis_oauth_client_id config);
  ("REDIS_OAUTH_CLIENT_SECRET", redis_oauth_client_secret config);
  ("REDIS_OAUTH_SCOPE", redis_oauth_scope config)].
Definition missing_settings (config : RedisEnvConfig) : list string :=
  (filter (fun p => str_empty (trimmed_or_default p.2) = true) (required_settings config)).*1.

Definition authority_host_of (config : RedisEnvConfig) : string :=
  default DEFAULT_ENTRA_AUTHORITY_HOST (trimmed_non_empty (redis_oauth_authority_host config)).

Definition entra_config_from_env (config : RedisEnvConfig) : result string EntraOauthConfig :=
  let missing := missing_settings config in
  match missing with
  | _ :: _ => Err ("REDIS_AUTH_MODE=oauth requires " +:+ join ", " missing)
  | [] =>
      allow ← oauth_flag_from_env "REDIS_OAUTH_ALLOW_PLAINTEXT" (redis_oauth_allow_plaintext config);
      let allow_plaintext := default false allow in
      if oauth_transport_is_plaintext config && negb allow_plaintext
      then Err ("REDIS_AUTH_MODE=oauth requires REDIS_TLS=true. The Entra access token is sent to "
                +:+ "Redis as the AUTH password, so without TLS it crosses the network in cleartext on "
                +:+ "every handshake. If another layer already encrypts the connection, such as a "
                +:+ "TLS-terminating sidecar reached over loopback, set REDIS_OAUTH_ALLOW_PLAINTEXT=true "
                +:+ "to acknowledge that.")
      else
        let authority := authority_host_of config in
        if negb (is_secure_authority_host authority)
        then Err ("REDIS_OAUTH_AUTHORITY_HOST must be an https:// URL, got '" +:+ authority +:+ "'. The "
                  +:+ "client secret and the returned access token are sent to this host.")
        else
          seconds ← oauth_seconds_from_env "REDIS_OAUTH_REFRESH_MARGIN_IN_S" (redis_oauth_refresh_margin_in_s config);
          let margin := from_secs <$> seconds in
          match margin with
          | Some m =>
              if bool_decide (m < MIN_REFRESH_MARGIN)%N
              then Err ("REDIS_OAUTH_REFRESH_MARGIN_IN_S must be at least " +:+ show_u64 (as_secs MIN_REFRESH_MARGIN)
                        +:+ ", got " +:+ show_u64 (as_secs m) +:+ ". A smaller margin "
                        +:+ "mints the next token only once connections are already being refused for being "
                        +:+ "too close to expiry.")
              else Ok tt
          | None => Ok tt
          end ≫= fun _ =>
          Ok {| tenant_id := trimmed_or_default (redis_oauth_tenant_id config);
                client_id := trimmed_or_default (redis_oauth_client_id config);
                client_secret := trimmed_or_default (redis_oauth_client_secret config);
                scope := trimmed_or_default (redis_oauth_scope config);
                username := trimmed_non_empty (redis_oauth_username config);
                configured_margin := margin;
                authority_host := authority |}
  end.

(** ** Building a pool *)

Definition resolve_redis_auth (user : string) (configured_password : option string) : option string * option string :=
  (if str_empty user then None else Some user,
   match configured_password with
   | Some password => Some password
   | None => if str_empty user then None else Some ""
   end).

Inductive ConnectionAddr :=
| Tcp (host : string) (port : N)
| TcpTls (host : string) (port : N) (insecure : bool)
| Unix (path : string).
Definition is_tls (addr : ConnectionAddr) : bool := match addr with TcpTls _ _ _ => true | _ => false end.

(** The provider is one object all pools share, kept in [w_cell]. *)
Inductive pool_auth := StaticAuth (username password : option string) | SharedEntra.
Record pool_settings := {
  pool_addr : ConnectionAddr;
  pool_credentials : pool_auth;
  pool_connection_timeout : N;
  pool_max_size : N;
  pool_min_idle : N;
  (** [None]: the default of the pool library. *)
  pool_max_lifetime : option N;
}.
(** The library that builds pools and the parser of Redis URIs. *)
Class PoolLib := {
  pool_build : pool_settings -> result string unit;
  connection_info_addr : string -> result string ConnectionAddr;
}.

(** What the process holds: the shared outcome, the requests for tokens sent, the
    refresh loops started. *)
Record oauth_world := {
  w_cell : option (result string EntraTokenProvider);
  w_sent : list token_request;
  w_loops : nat;
}.

Definition with_tls (config : RedisEnvConfig) (tls : option bool) : RedisEnvConfig := {|
  redis_enterprise_user := redis_enterprise_user config;
  redis_enterprise_password := redis_enterprise_password config;
  redis_enterprise_host := redis_enterprise_host config;
  redis_enterprise_port := redis_enterprise_port config;
  redis_connection_pool_max_size := redis_connection_pool_max_size config;
  redis_connection_pool_min_size := redis_connection_pool_min_size config;
  redis_memorystore := redis_memorystore config;
  redis_tls := tls;
  redis_key_prefix := redis_key_prefix config;
  redis_auth_mode := redis_auth_mode config;
  redis_oauth_tenant_id := redis_oauth_tenant_id config;
  redis_oauth_client_id := redis_oauth_client_id config;
  redis_oauth_client_secret := redis_oauth_client_secret config;
  redis_oauth_scope := redis_oauth_scope config;
  redis_oauth_username := redis_oauth_username config;
  redis_oauth_refresh_margin_in_s := redis_oauth_refresh_margin_in_s config;
  redis_oauth_authority_host := redis_oauth_authority_host config;
  redis_oauth_allow_plaintext := redis_oauth_allow_plaintext config |}.

Definition pool_address (config : RedisEnvConfig) (address_override : option ConnectionAddr)
    : result RedisPoolError ConnectionAddr :=
  match address_override with
  | Some addr => Ok addr
  | None =>
      port ← ok_or InvalidPort (parse_bounded 65535 (redis_enterprise_port config));
      Ok (if default false (redis_tls config)
          then TcpTls (redis_enterprise_host config) port false
          else Tcp (redis_enterprise_host config) port)
  end.

Section Building.
Context `{TokenClient} `{PoolLib}.

(** The credentials of a pool, its age cap and the state after acquiring them; [None]
    when the readings of the clock run out. *)
Definition pool_auth_of (config : RedisEnvConfig) (auth_mode : RedisAuthMode) (addr : ConnectionAddr)
    (timeout_in_s now : N) (rounds : list round) (w : oauth_world)
    : option (result RedisPoolError (pool_auth * option N)) * oauth_world :=
  match auth_mode with
  | PasswordMode =>
      let '(username, password) :=
        resolve_redis_auth (default "" (redis_enterprise_user config)) (redis_enterprise_password config) in
      (Some (Ok (StaticAuth username password, None)), w)
  | OauthMode =>
      match entra_config_from_env (with_tls config (Some (is_tls addr))) with
      | Err e => (Some (Err (MalformedConfig e)), w)
      | Ok oauth_config =>
          let '(outcome, sent) :=
            shared_entra_provider (w_cell w) oauth_config (from_secs timeout_in_s) now rounds (w_sent w) in
          let w := {| w_cell := outcome; w_sent := sent; w_loops := w_loops w |} in
          (match outcome with
           | None => None
           | Some (Ok provider) => Some (Ok (SharedEntra, Some (snap_max_lifetime (current provider))))
           | Some (Err error) => Some (Err (OauthToken error))
           end, w)
      end
  end.

(** Starting the loop marks the shared provider, so that it starts once. *)
Definition start_refresh (w : oauth_world) : oauth_world :=
  match w_cell w with
  | Some (Ok provider) =>
      let '(provider, started) := spawn_refresh_task provider in
      {| w_cell := Some (Ok provider); w_sent := w_sent w;
         w_loops := if started then S (w_loops w) else w_loops w |}
  | _ => w
  end.

Definition create_redis_pool_at (config : RedisEnvConfig) (timeout_in_s : N)
    (address_override : option ConnectionAddr) (now : N) (rounds : list round) (w : oauth_world)
    : option (result RedisPoolError pool_settings) * oauth_world :=
  match map_err MalformedConfig (parse_auth_mode (redis_auth_mode config)) with
  | Err e => (Some (Err e), w)
  | Ok auth_mode =>
      match pool_address config address_override with
      | Err e => (Some (Err e), w)
      | Ok addr =>
          let '(auth, w) := pool_auth_of config auth_mode addr timeout_in_s now rounds w in
          match auth with
          | None => (None, w)
          | Some (Err e) => (Some (Err e), w)
          | Some (Ok (credentials, max_lifetime)) =>
              let settings := {|
                pool_addr := addr; pool_credentials := credentials;
                pool_connection_timeout := from_secs timeout_in_s;
                pool_max_size := default 10%N (redis_connection_pool_max_size config);
                pool_min_idle := default 1%N (redis_connection_pool_min_size config);
                pool_max_lifetime := max_lifetime |} in
              match pool_build settings with
              | Err error => (Some (Err (Build error)), w)
              | Ok _ =>
                  (Some (Ok settings),
                   match credentials with SharedEntra => start_refresh w | StaticAuth _ _ => w end)
              end
          end
      end
  end.

Definition redis_address_from_uri (uri : string) : result RedisPoolError ConnectionAddr :=
  map_err (fun error => MalformedUri ("Invalid IDLIST_REDIS_READ_URI: " +:+ error)) (connection_info_addr uri).
End Building.

(** [envy] reads the environment into the record or fails. *)
Definition redis_key_prefix_from_env (env : result string RedisEnvConfig) : string :=
  match env with Ok config => default "" (redis_key_prefix config) | Err _ => "" end.

(** ** Trimming and prefixes *)

Lemma to_lower_app s t : to_lower (s +:+ t) = to_lower s +:+ to_lower t.
Proof. induction s as [|c s IH]; rewrite ?str_nil_app, ?str_cons_app; [done|]. cbn [to_lower]. by rewrite IH. Qed.

Lemma strip_ws_prefix ws a b : strip_ws ws (a +:+ b) = None -> strip_ws ws a = None.
Proof.
  unfold strip_ws. induction ws as [|w ws IH]; [done|]. cbn [omap list_omap].
  destruct (strip_prefix w (a +:+ b)) eqn:E; [done|].
  destruct (strip_prefix w a) as [r|] eqn:Ea; [|done].
  apply strip_prefix_Some in Ea as ->. rewrite str_app_assoc, strip_prefix_app in E. done.
Qed.

Lemma strip_ws_shorter ws s r : Forall (fun w => w <> EmptyString) ws -> strip_ws ws s = Some r ->
  String.length r < String.length s.
Proof.
  unfold strip_ws. intros Hws Hr. apply head_Some_elem_of, list_elem_of_omap in Hr as (w & Hw & Hs).
  rewrite Forall_forall in Hws. apply strip_prefix_Some in Hs as ->. rewrite str_app_length.
  specialize (Hws w Hw). destruct w; [done|]. cbn [String.length]. lia.
Qed.

Lemma trim_start_fuel_clean ws n s : Forall (fun w => w <> EmptyString) ws -> String.length s <= n ->
  strip_ws ws (trim_start_fuel ws n s) = None.
Proof.
  intros Hws. revert s. induction n as [|n IH]; intros s Hl; cbn [trim_start_fuel].
  - destruct (strip_ws ws s) eqn:E; [|done]. apply strip_ws_shorter in E; [lia|done].
  - destruct (strip_ws ws s) as [r|] eqn:E; [|done]. apply IH. apply strip_ws_shorter in E; [lia|done].
Qed.

Lemma trim_start_fuel_suffix ws n s : exists p, s = p +:+ trim_start_fuel ws n s.
Proof.
  revert s. induction n as [|n IH]; intros s; cbn [trim_start_fuel]; [by exists EmptyString|].
  destruct (strip_ws ws s) as [r|] eqn:E; [|by exists EmptyString].
  unfold strip_ws in E. apply head_Some_elem_of, list_elem_of_omap in E as (w & _ & Hs).
  apply strip_prefix_Some in Hs as ->. destruct (IH r) as [p Hp]. exists (w +:+ p). by rewrite str_app_assoc, <- Hp.
Qed.

Lemma trim_end_prefix s : exists r, s = trim_end s +:+ r.
Proof.
  unfold trim_end. destruct (trim_start_fuel_suffix (String.rev <$> unicode_ws) (String.length s) (String.rev s)) as [p Hp].
  exists (String.rev p). rewrite <- str_rev_app, <- Hp. by rewrite str_rev_rev.
Qed.

Lemma trim_start_of_trim s : trim_start (trim s) = trim s.
Proof.
  assert (strip_ws unicode_ws (trim s) = None) as Hc.
  { destruct (trim_end_prefix (trim_start s)) as [r Hr]. unfold trim. eapply (strip_ws_prefix _ _ r). rewrite <- Hr.
    apply trim_start_fuel_clean; [|done]. by repeat (constructor; [done|]). }
  unfold trim_start at 1. destruct (String.length (trim s)); cbn [trim_start_fuel]; [done|]. by rewrite Hc.
Qed.

Lemma trim_prefix_of_trimmed s : exists r, trim s = trim (trim s) +:+ r.
Proof. unfold trim at 2. rewrite trim_start_of_trim. apply trim_end_prefix. Qed.

(** Trailing characters never reach past a prefix that ends with another one. *)
Lemma drop_leading_app c s d t : c <> d -> exists u, drop_leading c (s +:+ String d t) = u +:+ String d t.
Proof.
  intros Hne. induction s as [|e s [u IH]]; rewrite ?str_nil_app, ?str_cons_app; cbn [drop_leading].
  - rewrite decide_False by done. by exists EmptyString.
  - destruct (decide (c = e)); [by exists u|]. exists (String e s). by rewrite str_cons_app.
Qed.
Lemma trim_end_matches_prefix c p d s :
  c <> d -> exists u, trim_end_matches c (p +:+ String d s) = p +:+ String d u.
Proof.
  intros Hne. unfold trim_end_matches. change (String d s) with (String d EmptyString +:+ s).
  rewrite !str_rev_app, str_app_assoc. change (String.rev (String d EmptyString) +:+ String.rev p) with (String d (String.rev p)).
  destruct (drop_leading_app c (String.rev s) d (String.rev p) Hne) as [u ->].
  exists (String.rev u). change (String d (String.rev p)) with (String d EmptyString +:+ String.rev p).
  rewrite !str_rev_app, str_rev_rev, str_app_assoc. done.
Qed.

Lemma to_lower_app_inv s p r : to_lower s = p +:+ r -> exists a b, s = a +:+ b /\ to_lower a = p /\ to_lower b = r.
Proof.
  revert s. induction p as [|c p IH]; intros s; rewrite ?str_nil_app, ?str_cons_app.
  - intros H. by exists EmptyString, s.
  - destruct s as [|d s]; [done|]. cbn [to_lower]. intros [= Hc Hs].
    apply IH in Hs as (a & b & -> & Ha & Hb). exists (String d a), b.
    rewrite str_cons_app. cbn [to_lower]. by rewrite Hc, Ha.
Qed.

(** ** The OAuth settings that are accepted *)

(** A request that carries the client secret goes over TLS. *)
Definition over_tls (req : token_request) : Prop := starts_with "https:" (to_lower (tr_url req)) = true.

Lemma https_url c : starts_with "https://" (to_lower (authority_host c)) = true -> over_tls (token_request_of c).
Proof.
  unfold over_tls. intros [r Hr]%starts_with_spec.
  change ("https://" +:+ r) with ("https" +:+ String ":"%char ("//" +:+ r)) in Hr.
  apply to_lower_app_inv in Hr as (p & b & Ha & Hp & Hb). destruct b as [|d b]; [done|]. injection Hb as Hd Hb.
  assert ("/"%char <> d) as Hne by (intros <-; done).
  cbn [token_request_of tr_url]. rewrite Ha.
  destruct (trim_end_matches_prefix "/" p d b Hne) as [u ->]. apply starts_with_spec.
  rewrite str_app_assoc, str_cons_app, to_lower_app, Hp. cbn [to_lower]. rewrite Hd.
  set (rest := to_lower _). by exists rest.
Qed.

(** The host that is checked is trimmed already. *)
Lemma secure_trimmed s : is_secure_authority_host (trim s) = true -> starts_with "https://" (to_lower (trim s)) = true.
Proof.
  unfold is_secure_authority_host. intros [r Hr]%starts_with_spec. apply starts_with_spec.
  destruct (trim_prefix_of_trimmed s) as [t Ht]. rewrite Ht, to_lower_app, Hr. rewrite str_app_assoc. eauto.
Qed.

Lemma authority_host_https config :
  is_secure_authority_host (authority_host_of config) = true ->
  starts_with "https://" (to_lower (authority_host_of config)) = true.
Proof.
  unfold authority_host_of, trimmed_non_empty. destruct (redis_oauth_authority_host config) as [h|]; [|done].
  cbn [mbind option_bind]. destruct (str_empty (trim h)); [done|]. apply secure_trimmed.
Qed.

Definition plaintext_allowed (config : RedisEnvConfig) : bool :=
  match oauth_flag_from_env "REDIS_OAUTH_ALLOW_PLAINTEXT" (redis_oauth_allow_plaintext config) with
  | Ok allow => default false allow
  | Err _ => false
  end.

(** What an accepted configuration satisfies. *)
Record entra_ok (config : RedisEnvConfig) (c : EntraOauthConfig) : Prop := {
  eo_present : Forall (fun s => s <> EmptyString) [tenant_id c; client_id c; client_secret c; scope c];
  eo_fields : [Some (tenant_id c); Some (client_id c); Some (client_secret c); Some (scope c)] =
    (fun p => trimmed_non_empty p.2) <$> required_settings config;
  eo_username : username c <> Some EmptyString;
  eo_transport : redis_tls config = Some true \/ plaintext_allowed config = true;
  eo_authority : starts_with "https://" (to_lower (authority_host c)) = true;
  eo_margin : forall m, configured_margin c = Some m -> (MIN_REFRESH_MARGIN <= m)%N;
}.

Lemma trimmed_non_empty_None value : trimmed_non_empty value = None <-> trimmed_or_default value = EmptyString.
Proof.
  unfold trimmed_non_empty, trimmed_or_default, str_empty. destruct value as [v|]; cbn [mbind option_bind default]; [|done].
  destruct (bool_decide (trim v = "")) eqn:E; boolify; done.
Qed.
Lemma trimmed_non_empty_Some value :
  trimmed_or_default value <> EmptyString -> trimmed_non_empty value = Some (trimmed_or_default value).
Proof.
  unfold trimmed_non_empty, trimmed_or_default, str_empty. destruct value as [v|]; cbn [mbind option_bind default]; [|done].
  intros Hne. by rewrite bool_decide_eq_false_2.
Qed.
Lemma trimmed_non_empty_nonblank value : trimmed_non_empty value <> Some EmptyString.
Proof.
  unfold trimmed_non_empty, str_empty. destruct value as [v|]; cbn [mbind option_bind]; [|done].
  destruct (bool_decide (trim v = "")) eqn:E; boolify; congruence.
Qed.

Lemma missing_settings_nil config :
  missing_settings config = [] ->
  Forall (fun p => trimmed_or_default p.2 <> EmptyString) (required_settings config).
Proof.
  unfold missing_settings. intros Hm%fmap_nil_inv. apply Forall_forall. intros p Hp He.
  assert (p ∈ filter (fun p => str_empty (trimmed_or_default p.2) = true) (required_settings config)) as Hin.
  { apply list_elem_of_filter. split; [|done]. unfold str_empty. by apply bool_decide_eq_true. }
  rewrite Hm in Hin. by apply elem_of_nil in Hin.
Qed.

Lemma entra_config_ok config c : entra_config_from_env config = Ok c -> entra_ok config c.
Proof.
  unfold entra_config_from_env. destruct (missing_settings config) as [|m ms] eqn:Em; [|done].
  apply missing_settings_nil in Em as Hp. unfold required_settings in Hp.
  rewrite !Forall_cons in Hp. cbn [snd] in Hp. destruct Hp as (H1 & H2 & H3 & H4 & _).
  destruct (oauth_flag_from_env _ _) as [allow|e] eqn:Ef; cbn [mbind result_bind]; [|done].
  destruct (oauth_transport_is_plaintext config && negb (default false allow)) eqn:Et; [done|].
  destruct (is_secure_authority_host (authority_host_of config)) eqn:Ea; cbn [negb]; [|done].
  destruct (oauth_seconds_from_env _ _) as [seconds|e] eqn:Es; cbn [mbind result_bind]; [|done].
  destruct (match from_secs <$> seconds with Some m => _ | None => _ end) as [[]|e] eqn:Emg; [|done].
  intros [= <-]. constructor; cbn [tenant_id client_id client_secret scope username authority_host configured_margin].
  - by repeat constructor.
  - unfold required_settings. cbn [fmap list_fmap snd]. by rewrite !trimmed_non_empty_Some.
  - apply trimmed_non_empty_nonblank.
  - unfold plaintext_allowed. rewrite Ef. unfold oauth_transport_is_plaintext in Et.
    destruct (redis_tls config) as [[]|]; cbn in Et; [by left|..]; right; by destruct (default false allow).
  - by apply authority_host_https.
  - intros m Hm. rewrite Hm in Emg. destruct (bool_decide (m < MIN_REFRESH_MARGIN)%N) eqn:E; [done|].
    boolify. lia.
Qed.

Lemma entra_config_accepts config f s :
  missing_settings config = [] ->
  oauth_flag_from_env "REDIS_OAUTH_ALLOW_PLAINTEXT" (redis_oauth_allow_plaintext config) = Ok f ->
  redis_tls config = Some true \/ f = Some true ->
  is_secure_authority_host (authority_host_of config) = true ->
  oauth_seconds_from_env "REDIS_OAUTH_REFRESH_MARGIN_IN_S" (redis_oauth_refresh_margin_in_s config) = Ok s ->
  (forall n, s = Some n -> (60 <= n)%N) ->
  exists c, entra_config_from_env config = Ok c.
Proof.
  intros Hm Hf Ht Ha Hs Hn. unfold entra_config_from_env. rewrite Hm, Hf. cbn [mbind result_bind].
  assert (oauth_transport_is_plaintext config && negb (default false f) = false) as ->.
  { unfold oauth_transport_is_plaintext. destruct Ht as [->| ->]; cbn [default negb]; [done|]. by rewrite andb_false_r. }
  rewrite Ha, Hs. cbn [negb mbind result_bind]. destruct s as [n|]; cbn [fmap option_fmap option_map]; [|by eexists].
  rewrite bool_decide_eq_false_2; [by eexists|]. specialize (Hn n eq_refl). unfold MIN_REFRESH_MARGIN, from_secs, ns_per_s. lia.
Qed.

(** C25: An OAuth configuration is well formed whenever it is accepted: the four
    required settings are present and trimmed, the authority is an https URL, a
    configured margin is at least a minute, and the connection is encrypted unless the
    operator said that it need not be. Nothing else is refused: settings that satisfy
    this are accepted, and when required ones are missing the error names all of them. *)
Theorem entra_settings_checked config :
  (forall c, entra_config_from_env config = Ok c -> entra_ok config c) /\
  (missing_settings config <> [] ->
   entra_config_from_env config = Err ("REDIS_AUTH_MODE=oauth requires " +:+ join ", " (missing_settings config))) /\
  (forall name value, (name, value) ∈ required_settings config ->
   (name ∈ missing_settings config <-> trimmed_non_empty value = None)) /\
  (forall f s,
   missing_settings config = [] ->
   oauth_flag_from_env "REDIS_OAUTH_ALLOW_PLAINTEXT" (redis_oauth_allow_plaintext config) = Ok f ->
   redis_tls config = Some true \/ f = Some true ->
   is_secure_authority_host (authority_host_of config) = true ->
   oauth_seconds_from_env "REDIS_OAUTH_REFRESH_MARGIN_IN_S" (redis_oauth_refresh_margin_in_s config) = Ok s ->
   (forall n, s = Some n -> (60 <= n)%N) ->
   exists c, entra_config_from_env config = Ok c).
Proof.
  split_and!; [apply entra_config_ok| | |apply entra_config_accepts].
  - intros Hne. unfold entra_config_from_env. by destruct (missing_settings config).
  - intros name value Hin. rewrite trimmed_non_empty_None. unfold missing_settings.
    rewrite list_elem_of_fmap. setoid_rewrite list_elem_of_filter. unfold str_empty. split.
    + intros ([name' value'] & [= ->] & Hb & Hin'). boolify. cbn in Hb. revert Hin Hin'. unfold required_settings.
      rewrite !elem_of_cons, !elem_of_nil. intros Hin Hin'. destruct_or?; simplify_eq; done.
    + intros He. exists (name, value). cbn. split_and!; [done| |done]. by apply bool_decide_eq_true.
Qed.

(** ** Pools share one token *)

Section Sharing.
Context `{TokenClient} `{PoolLib}.

(** Pools are built one after the other; once a loop runs, it replaces the token. *)
Inductive world_step : oauth_world -> oauth_world -> Prop :=
| world_create config timeout_in_s address now rounds w res w' :
    create_redis_pool_at config timeout_in_s address now rounds w = (Some res, w') -> world_step w w'
| world_refresh w provider provider' backoff nows sent sleeps :
    w_cell w = Some (Ok provider) -> refresh_task_started provider = true ->
    refresh_turn provider backoff nows (w_sent w) = (Some provider', sent, sleeps) ->
    world_step w {| w_cell := Some (Ok provider'); w_sent := sent; w_loops := w_loops w |}.

Definition no_world : oauth_world := {| w_cell := None; w_sent := []; w_loops := 0 |}.

Definition secure_config (c : EntraOauthConfig) : Prop :=
  starts_with "https://" (to_lower (authority_host c)) = true.

(** The loops that run are counted by the flag of the shared provider. *)
Record world_ok (w : oauth_world) : Prop := {
  wo_sent : Forall over_tls (w_sent w);
  wo_loops : w_loops w = match w_cell w with
                         | Some (Ok p) => if refresh_task_started p then 1 else 0
                         | _ => 0
                         end;
  wo_config : forall p, w_cell w = Some (Ok p) -> secure_config (pr_config p);
}.

Lemma refresh_turn_sent self nows : forall backoff sent p sent' sleeps,
  refresh_turn self backoff nows sent = (p, sent', sleeps) ->
  (exists n, sent' = sent ++ replicate n (token_request_of (pr_config self))) /\
  (forall p', p = Some p' -> pr_config p' = pr_config self /\ refresh_task_started p' = refresh_task_started self).
Proof.
  induction nows as [|now nows IH]; intros backoff sent p sent' sleeps; cbn [refresh_turn].
  { intros [= <- <- <-]. split; [exists 0; by rewrite app_nil_r|done]. }
  destruct (refresh self now sent) as [[q|e] sent1] eqn:Er; apply refresh_sent in Er as Hs; subst sent1.
  - intros [= <- <- <-]. split; [by exists 1|]. intros p' [= <-].
    apply refresh_ok in Er as (_ & ? & ? & ? & _ & _ & _ & ->). done.
  - destruct (refresh_turn self _ nows _) as [[q sent2] sl] eqn:Et. intros [= <- <- <-].
    apply IH in Et as [[n ->] Hp]. split; [|done]. exists (S n). by rewrite <- app_assoc.
Qed.

Lemma connect_sent config timeout now rounds sent :
  let o := provider_connect config timeout now rounds sent in
  (exists n, co_sent o = sent ++ replicate n (token_request_of config)) /\
  (forall p, co_result o = Some (Ok p) -> pr_config p = config /\ refresh_task_started p = false).
Proof.
  cbn zeta. unfold provider_connect. destruct client_build as [|e].
  2:{ cbn [co_sent co_result]. split; [exists 0; by rewrite app_nil_r|done]. }
  assert (forall self backoff deadline sent,
    (exists n, co_sent (connect_loop self deadline backoff rounds sent) = sent ++ replicate n (token_request_of (pr_config self))) /\
    (forall p, co_result (connect_loop self deadline backoff rounds sent) = Some (Ok p) ->
       pr_config p = pr_config self /\ refresh_task_started p = refresh_task_started self)) as Hloop.
  2:{ apply (Hloop (fresh_provider config now)). }
  clear. induction rounds as [|r rounds IH]; intros self backoff deadline sent; cbn [connect_loop].
  { cbn [co_sent co_result]. split; [exists 0; by rewrite app_nil_r|done]. }
  destruct (refresh self (r_now r) sent) as [[q|e] sent1] eqn:Er; apply refresh_sent in Er as Hs; subst sent1.
  - cbn [co_sent co_result]. split; [by exists 1|]. intros p [= <-].
    apply refresh_ok in Er as (_ & ? & ? & ? & _ & _ & _ & ->). done.
  - destruct (bool_decide _); cbn [co_sent co_result with_sleep]; [split; [by exists 1|done]|].
    edestruct IH as [[n Hn] Hp]. split; [|exact Hp]. exists (S n). by rewrite Hn, <- app_assoc.
Qed.

Lemma over_tls_sent sent n c :
  Forall over_tls sent -> secure_config c -> Forall over_tls (sent ++ replicate n (token_request_of c)).
Proof.
  intros Hs Hc. apply Forall_app. split; [done|]. apply Forall_replicate. by apply https_url.
Qed.

(** Acquiring the credentials of a pool. *)
Lemma pool_auth_ok config mode addr t now rounds w auth w' :
  world_ok w -> pool_auth_of config mode addr t now rounds w = (Some auth, w') ->
  world_ok w' /\
  (forall max_lifetime, auth = Ok (SharedEntra, max_lifetime) ->
     (is_tls addr = true \/ plaintext_allowed config = true) /\
     exists p, w_cell w' = Some (Ok p) /\ max_lifetime = Some (snap_max_lifetime (current p))) /\
  (forall outcome, w_cell w = Some outcome -> w' = w).
Proof.
  intros Hok. destruct mode; unfold pool_auth_of.
  { destruct (resolve_redis_auth _ _). intros [= <- <-]. split_and!; done. }
  destruct (entra_config_from_env _) as [c|e] eqn:Ec; [|intros [= <- <-]; split_and!; done].
  apply entra_config_ok in Ec as [_ _ _ Ht Ha _].
  unfold shared_entra_provider. destruct (w_cell w) as [outcome|] eqn:Ecell.
  - intros Heq. assert (w' = w) as ->.
    { destruct w as [cell sent loops]. cbn in Ecell. subst cell. by destruct outcome; simplify_eq/=. }
    split_and!; [done| |done]. intros m Hm. rewrite Ecell. destruct outcome as [p|e]; simplify_eq/=.
    split; [|eauto]. destruct Ht as [[= ?]|?]; [by left|by right].
  - destruct (connect_sent c (from_secs t) now rounds (w_sent w)) as [[n Hn] Hp]. revert Hn Hp.
    set (o := provider_connect _ _ _ _ _). intros Hn Hp. destruct (co_result o) as [r|] eqn:Er; cbn [fmap option_fmap option_map]; [|done].
    intros Heq. split_and!; [| |done].
    + destruct Hok as [Hs Hl Hc]. destruct r as [p|e]; cbn [map_err] in Heq; simplify_eq/=.
      all: constructor; cbn [w_sent w_loops w_cell]; [rewrite Hn; by apply over_tls_sent| | ].
      * destruct (Hp p eq_refl) as [_ ->]. by rewrite Hl, Ecell.
      * intros p' [= <-]. destruct (Hp p eq_refl) as [-> _]. done.
      * by rewrite Hl, Ecell.
      * done.
    + intros m Hm. destruct r as [p|e]; cbn [map_err] in Heq; simplify_eq/=.
      split; [|eauto]. destruct Ht as [[= ?]|?]; [by left|by right].
Qed.

Lemma start_refresh_ok w : world_ok w -> world_ok (start_refresh w).
Proof.
  intros Hok. unfold start_refresh. destruct (w_cell w) as [[p|e]|] eqn:E; [|done..]. destruct Hok as [Hs Hl Hc].
  cbn [spawn_refresh_task]. constructor; cbn [w_sent w_loops w_cell].
  - done.
  - cbn [refresh_task_started]. rewrite Hl, E. by destruct (refresh_task_started p).
  - intros p' [= <-]. cbn [pr_config]. by apply Hc.
Qed.

Lemma create_ok config t address now rounds w res w' :
  world_ok w -> create_redis_pool_at config t address now rounds w = (Some res, w') ->
  world_ok w' /\
  (forall s, res = Ok s -> pool_credentials s = SharedEntra ->
     (is_tls (pool_addr s) = true \/ plaintext_allowed config = true) /\
     exists p, w_cell w' = Some (Ok p) /\ refresh_task_started p = true /\
       pool_max_lifetime s = Some (snap_max_lifetime (current p))).
Proof.
  intros Hok. unfold create_redis_pool_at. destruct (map_err _ _) as [mode|e]; [|intros [= <- <-]; done].
  destruct (pool_address config address) as [addr|e]; [|intros [= <- <-]; done].
  destruct (pool_auth_of config mode addr t now rounds w) as [[auth|] w1] eqn:Ea; [|done].
  apply pool_auth_ok in Ea as (Hok1 & Hshared & _); [|done].
  destruct auth as [[cred lifetime]|e]; [|intros [= <- <-]; done].
  destruct (pool_build _) as [|e]; [|intros [= <- <-]; done].
  intros [= <- <-]. split; [destruct cred; [done|by apply start_refresh_ok]|].
  intros s [= <-] Hc. cbn [pool_credentials] in Hc. subst cred. cbn [pool_addr pool_max_lifetime].
  destruct (Hshared lifetime eq_refl) as (Htls & p & Hp & Hlt). split; [done|].
  unfold start_refresh. rewrite Hp. cbn. eexists. by rewrite Hlt.
Qed.

Lemma world_ok_step w w' : world_ok w -> world_step w w' -> world_ok w'.
Proof.
  intros Hok Hstep. destruct Hstep as [config t address now rounds w res w1 Hc|w p p' b nows sent sleeps Hcell Hstarted Ht].
  - by apply create_ok in Hc as [? _].
  - destruct Hok as [Hs Hl Hc]. apply refresh_turn_sent in Ht as [[n ->] Hp]. destruct (Hp p' eq_refl) as [Hcfg Hst].
    constructor; cbn [w_sent w_loops w_cell].
    + apply over_tls_sent; [done|by apply Hc].
    + by rewrite Hl, Hcell, Hst.
    + intros q [= <-]. rewrite Hcfg. by apply Hc.
Qed.

(** However many pools a process builds and however often their token is replaced,
    at most one refresh loop runs, every request that carries the client secret goes to
    an https URL, and a pool that authenticates with the shared token talks TLS unless
    the operator allowed otherwise, has its refresh loop running and recycles its
    connections by the current token's cap. *)
Theorem shared_token_safe w :
  rtc world_step no_world w ->
  w_loops w <= 1 /\ Forall over_tls (w_sent w) /\
  forall config timeout_in_s address now rounds s w',
    create_redis_pool_at config timeout_in_s address now rounds w = (Some (Ok s), w') ->
    pool_credentials s = SharedEntra ->
    w_loops w' = 1 /\ Forall over_tls (w_sent w') /\
    (is_tls (pool_addr s) = true \/ plaintext_allowed config = true) /\
    exists p, w_cell w' = Some (Ok p) /\ pool_max_lifetime s = Some (snap_max_lifetime (current p)).
Proof.
  intros Hsteps. assert (world_ok w) as Hok.
  { assert (world_ok no_world) as Hinit by by constructor. induction Hsteps; eauto using world_ok_step. }
  split_and!; [|apply Hok|].
  - destruct Hok as [_ -> _]. by repeat case_match; lia.
  - intros config t address now rounds s w' Hc Hs. apply create_ok in Hc as [Hok' Hpool]; [|done].
    destruct (Hpool s eq_refl Hs) as (Htls & p & Hp & Hst & Hl). split_and!; [|apply Hok'|done|eauto].
    destruct Hok' as [_ -> _]. by rewrite Hp, Hst.
Qed.

(** In password mode nothing of the OAuth settings matters: two environments that
    agree on the other settings give the same pool, or the same error, no token is
    requested and the shared state is left alone. *)
Theorem password_mode_ignores_oauth config config' timeout_in_s address now rounds now' rounds' w w' :
  parse_auth_mode (redis_auth_mode config) = Ok PasswordMode ->
  redis_auth_mode config' = redis_auth_mode config ->
  redis_enterprise_user config' = redis_enterprise_user config ->
  redis_enterprise_password config' = redis_enterprise_password config ->
  redis_enterprise_host config' = redis_enterprise_host config ->
  redis_enterprise_port config' = redis_enterprise_port config ->
  redis_connection_pool_max_size config' = redis_connection_pool_max_size config ->
  redis_connection_pool_min_size config' = redis_connection_pool_min_size config ->
  redis_tls config' = redis_tls config ->
  exists res,
    create_redis_pool_at config timeout_in_s address now rounds w = (Some res, w) /\
    create_redis_pool_at config' timeout_in_s address now' rounds' w' = (Some res, w').
Proof.
  intros Hm Hmode Hu Hp Hh Hport Hmax Hmin Htls. unfold create_redis_pool_at, pool_address.
  rewrite Hmode, Hm, Hh, Hport, Htls, Hmax, Hmin. cbn [map_err].
  destruct (match address with Some addr => _ | None => _ end) as [addr|e]; [|by eexists].
  unfold pool_auth_of. rewrite Hu, Hp. destruct (resolve_redis_auth _ _) as [u p].
  destruct (pool_build _) as [|e]; by eexists.
Qed.
End Sharing.

(** ** A deployment of the examples *)

Module Deployment.
#[export] Instance pool_lib : PoolLib := {
  pool_build _ := Ok tt;
  connection_info_addr uri := Err uri;
}.
Definition env (mode : string) (tenant : option string) : RedisEnvConfig := {|
  redis_enterprise_user := Some "app"; redis_enterprise_password := None;
  redis_enterprise_host := "redis.internal"; redis_enterprise_port := "6380";
  redis_connection_pool_max_size := Some 20%N; redis_connection_pool_min_size := None;
  redis_memorystore := None; redis_tls := Some true; redis_key_prefix := None;
  redis_auth_mode := Some mode; redis_oauth_tenant_id := tenant; redis_oauth_client_id := Some "client";
  redis_oauth_client_secret := Some " secret "; redis_oauth_scope := Some "api/.default";
  redis_oauth_username := None; redis_oauth_refresh_margin_in_s := Some "600";
  redis_oauth_authority_host := None; redis_oauth_allow_plaintext := None |}.
End Deployment.
#[local] Existing Instances Examples.client Deployment.pool_lib.

Lemma entra_settings_checked_witness :
  entra_config_from_env (Deployment.env "oauth" None) = Err "REDIS_AUTH_MODE=oauth requires REDIS_OAUTH_TENANT_ID" /\
  exists c, entra_config_from_env (Deployment.env "oauth" (Some "tenant")) = Ok c /\ entra_ok (Deployment.env "oauth" (Some "tenant")) c.
Proof.
  split; [apply (entra_settings_checked (Deployment.env "oauth" None)); vm_compute; discriminate|].
  eexists. split; [vm_compute; reflexivity|]. by apply entra_settings_checked.
Defined.

(** The state after two pools are built: the second one found the token there. *)
Definition two_pools : oauth_world :=
  let create w := (create_redis_pool_at (Deployment.env "oauth" (Some "tenant")) 2 None Examples.start Examples.rounds w).2 in
  create (create no_world).

Lemma shared_token_safe_witness :
  w_loops two_pools = 1 /\ length (w_sent two_pools) = 2 /\ Forall over_tls (w_sent two_pools).
Proof.
  split; [vm_compute; reflexivity|]. split; [vm_compute; reflexivity|]. apply shared_token_safe.
  eapply rtc_l; [eapply (world_create (Deployment.env "oauth" (Some "tenant")) 2 None Examples.start Examples.rounds); vm_compute; reflexivity|].
  eapply rtc_l; [eapply (world_create (Deployment.env "oauth" (Some "tenant")) 2 None Examples.start Examples.rounds); vm_compute; reflexivity|].
  apply rtc_refl.
Defined.

Lemma password_mode_ignores_oauth_witness :
  exists res, create_redis_pool_at (Deployment.env "Password " None) 2 None 0 [] no_world = (Some res, no_world) /\
    create_redis_pool_at (Deployment.env "Password " (Some "tenant")) 2 None 7 [] no_world = (Some res, no_world).
Proof. apply password_mode_ignores_oauth; reflexivity. Defined.
