(* ===== verification/RateLimiter.v ===== *)
(** * RateLimiter: a token bucket in double precision

    Models [src/src/utils/rate_limiter.rs]. [f64] is the binary64 format of the
    Standard Library's executable specification of floating point numbers: every
    operation rounds to the nearest number, ties to even. Instants are nanoseconds. *)
From S2P Require Import Prelude Backoff.
From Stdlib Require Import SpecFloat.

(** ** [f64] *)

Definition f64_add : spec_float -> spec_float -> spec_float := SFadd 53 1024.
Definition f64_sub : spec_float -> spec_float -> spec_float := SFsub 53 1024.
Definition f64_mul : spec_float -> spec_float -> spec_float := SFmul 53 1024.
Definition f64_div : spec_float -> spec_float -> spec_float := SFdiv 53 1024.
(** [n as f64] for an unsigned integer. *)
Definition f64_of_N (n : N) : spec_float := binary_normalize 53 1024 (Z.of_N n) 0 false.
(** [f64::min]: a NaN gives way to the other argument. *)
Definition f64_min (a b : spec_float) : spec_float :=
  match a, b with
  | S754_nan, _ => b
  | _, S754_nan => a
  | _, _ => if SFltb a b then a else b
  end.
Definition f64_ge (a b : spec_float) : bool := SFleb b a.
(** [Duration::as_secs_f64] *)
Definition as_secs_f64 (d : N) : spec_float :=
  f64_add (f64_of_N (d / ns_per_s)) (f64_div (f64_of_N (d mod ns_per_s)) (f64_of_N ns_per_s)).

(** ** The limiter *)

Record RateLimiter := {
  tokens : spec_float;
  last_update : N;
  rate : spec_float;
  capacity : spec_float;
}.

Definition limiter_new (rate : spec_float) (now : N) : RateLimiter :=
  {| tokens := rate; last_update := now; rate := rate; capacity := rate |}.

(** [Instant::duration_since] saturates. *)
Definition refilled (self : RateLimiter) (now : N) : spec_float :=
  f64_min (f64_add (tokens self) (f64_mul (as_secs_f64 (sat_sub now (last_update self))) (rate self))) (capacity self).

Definition limiter_try_acquire (self : RateLimiter) (now : N) : bool * RateLimiter :=
  let tokens := refilled self now in
  let granted := f64_ge tokens (f64_of_N 1) in
  (granted,
   {| tokens := if granted then f64_sub tokens (f64_of_N 1) else tokens;
      last_update := now; rate := rate self; capacity := capacity self |}).

(** Requests that arrive at the given instants, one after the other. *)
Fixpoint acquire_all (self : RateLimiter) (nows : list N) : list bool * RateLimiter :=
  match nows with
  | [] => ([], self)
  | now :: nows =>
      let '(granted, self) := limiter_try_acquire self now in
      let '(rest, self) := acquire_all self nows in
      (granted :: rest, self)
  end.

(** ** The bucket never overflows *)

Lemma SFcompare_refl x : x <> S754_nan -> SFcompare x x = Some Eq.
Proof.
  destruct x as [s|s| |s m e]; [done|by destruct s|done|]. intros _. cbn [SFcompare].
  rewrite Z.compare_refl, Pos.compare_cont_refl. by destruct s.
Qed.

Lemma f64_min_le a c : c <> S754_nan -> SFleb (f64_min a c) c = true.
Proof.
  intros Hc. assert (SFleb c c = true) as Hcc by (unfold SFleb; by rewrite SFcompare_refl).
  assert (SFleb (if SFltb a c then a else c) c = true) as Hif.
  { destruct (SFltb a c) eqn:E; [|done]. unfold SFltb, SFleb in *. by destruct (SFcompare a c) as [[]|]. }
  unfold f64_min. destruct a; [..|destruct c; done]; by destruct c.
Qed.

(** ** Whole numbers below [2 ^ 53] are exact *)

(** [p * 2 ^ k] *)
Definition up (k : nat) (p : positive) : positive := Nat.iter k xO p.

Lemma up_add j k p : up j (up k p) = up (j + k) p.
Proof. unfold up. by rewrite Nat.iter_add. Qed.
Lemma up_Z k p : Z.pos (up k p) = (Z.pos p * 2 ^ Z.of_nat k)%Z.
Proof.
  induction k as [|k IH]; [symmetry; apply Z.mul_1_r|]. change (up (S k) p) with (xO (up k p)).
  rewrite Pos2Z.inj_xO, IH, Nat2Z.inj_succ, Z.pow_succ_r by lia. lia.
Qed.
Lemma up_inj_lt k p q : (up k p < up k q)%positive <-> (p < q)%positive.
Proof.
  change (Z.pos (up k p) < Z.pos (up k q) <-> Z.pos p < Z.pos q)%Z. rewrite !up_Z.
  symmetry. apply Z.mul_lt_mono_pos_r. lia.
Qed.
Lemma iter_xO d p : Pos.iter xO p d = up (Pos.to_nat d) p.
Proof. unfold up. by rewrite Pos2Nat.inj_iter. Qed.

Definition digits (p : positive) : Z := Z.pos (digits2_pos p).
Lemma digits_up k p : digits (up k p) = (Z.of_nat k + digits p)%Z.
Proof.
  unfold digits. induction k as [|k IH]; [done|]. change (up (S k) p) with (xO (up k p)).
  cbn [digits2_pos]. rewrite Pos2Z.inj_succ, IH. lia.
Qed.
Lemma digits_bounds p : (2 ^ (digits p - 1) <= Z.pos p < 2 ^ digits p)%Z.
Proof.
  assert (forall q, digits (xO q) = (digits q + 1)%Z /\ digits (xI q) = (digits q + 1)%Z) as Hs.
  { intros q. unfold digits. cbn [digits2_pos]. rewrite !Pos2Z.inj_succ. lia. }
  assert (forall q, 1 <= digits q)%Z as H1 by (intros q; unfold digits; lia).
  induction p as [p IH|p IH|]; [..|done]; destruct (Hs p) as [H2 H3]; rewrite ?H2, ?H3;
    specialize (H1 p); replace (digits p + 1 - 1)%Z with (Z.succ (digits p - 1)) by lia;
    rewrite Z.add_1_r, !Z.pow_succ_r by lia; lia.
Qed.
Lemma digits_small p : (Z.pos p < 2 ^ 53)%Z -> (1 <= digits p <= 53)%Z.
Proof.
  intros Hp. pose proof (digits_bounds p) as [Hlo _]. split; [unfold digits; lia|].
  destruct (Z.le_gt_cases (digits p) 53) as [|Hgt]; [done|exfalso].
  assert (2 ^ 53 <= 2 ^ (digits p - 1))%Z by (apply Z.pow_le_mono_r; lia). lia.
Qed.

Lemma fexp_small e : (1 <= e <= 53)%Z -> fexp 53 1024 e = (e - 53)%Z.
Proof. unfold fexp, emin. lia. Qed.

Lemma iter_pos_nat {A} (f : A -> A) n x : iter_pos f n x = Nat.iter (Pos.to_nat n) f x.
Proof.
  revert x. induction n as [n IH|n IH|]; intros x; cbn [iter_pos]; rewrite ?IH, <- ?Nat.iter_add; [|f_equal; lia|done].
  rewrite <- Nat.iter_succ_r. f_equal. lia.
Qed.
Lemma shr_1_up j k p :
  Nat.iter j shr_1 {| shr_m := Z.pos (up (j + k) p); shr_r := false; shr_s := false |}
  = {| shr_m := Z.pos (up k p); shr_r := false; shr_s := false |}.
Proof.
  induction j as [|j IH]; [done|]. rewrite Nat.iter_succ_r.
  change (up (S j + k) p) with (xO (up (j + k) p)). exact IH.
Qed.

(** The canonical form of [p]. *)
Definition canonical (p : positive) : spec_float :=
  S754_finite false (up (Z.to_nat (53 - digits p)) p) (digits p - 53).

(** Shifting a number to its canonical form loses nothing. *)
Lemma shr_fexp_exact p k :
  (1 <= digits p <= 53)%Z -> (53 - digits p <= Z.of_nat k)%Z ->
  shr_fexp 53 1024 (Z.pos (up k p)) (- Z.of_nat k) loc_Exact
  = ({| shr_m := Z.pos (up (Z.to_nat (53 - digits p)) p); shr_r := false; shr_s := false |}, (digits p - 53)%Z).
Proof.
  intros Hd Hk. unfold shr_fexp. cbn [Zdigits2 shr_record_of_loc]. fold (digits (up k p)). rewrite digits_up.
  rewrite fexp_small by lia.
  remember (Z.of_nat k + digits p + - Z.of_nat k - 53 - - Z.of_nat k)%Z as n eqn:Hn.
  destruct n as [|n|n]; [|..|lia]; cbn [shr].
  - f_equal; [|lia]. replace (Z.to_nat (53 - digits p)) with k by lia. done.
  - rewrite iter_pos_nat. f_equal; [|lia].
    replace k with (Pos.to_nat n + Z.to_nat (53 - digits p)) at 1 by lia. apply shr_1_up.
Qed.
Lemma round_aux_exact p k :
  (1 <= digits p <= 53)%Z -> (53 - digits p <= Z.of_nat k)%Z ->
  binary_round_aux 53 1024 false (Z.pos (up k p)) (- Z.of_nat k) loc_Exact = canonical p.
Proof.
  intros Hd Hk. unfold binary_round_aux. rewrite shr_fexp_exact by done.
  cbn [shr_m loc_of_shr_record round_nearest_even].
  set (j := Z.to_nat (53 - digits p)). replace (digits p - 53)%Z with (- Z.of_nat j)%Z by lia.
  rewrite shr_fexp_exact by lia. cbn [shr_m]. fold j.
  rewrite (proj2 (Z.leb_le _ _)) by lia. done.
Qed.
Lemma round_exact p k :
  (1 <= digits p <= 53)%Z -> binary_round 53 1024 false (up k p) (- Z.of_nat k) = canonical p.
Proof.
  intros Hd. unfold binary_round. fold (digits (up k p)). rewrite digits_up, fexp_small by lia.
  unfold shl_align. remember (Z.of_nat k + digits p + - Z.of_nat k - 53 - - Z.of_nat k)%Z as n eqn:Hn.
  destruct n as [|n|n]; try (apply round_aux_exact; lia).
  rewrite iter_xO, up_add.
  replace (Z.of_nat k + digits p + - Z.of_nat k - 53)%Z with (- Z.of_nat (Pos.to_nat n + k))%Z by lia.
  apply round_aux_exact; lia.
Qed.

Lemma f64_of_pos p : (Z.pos p < 2 ^ 53)%Z -> f64_of_N (N.pos p) = canonical p.
Proof. intros Hp. apply (round_exact p 0). by apply digits_small. Qed.

(** Comparison and subtraction agree with those of the numbers. *)
Lemma digits_mono p q : (p <= q)%positive -> (digits p <= digits q)%Z.
Proof.
  intros Hle. destruct (Z.le_gt_cases (digits p) (digits q)) as [|Hgt]; [done|exfalso].
  pose proof (digits_bounds p) as [Hp _]. pose proof (digits_bounds q) as [_ Hq].
  assert (2 ^ digits q <= 2 ^ (digits p - 1))%Z by (apply Z.pow_le_mono_r; [lia|unfold digits in *; lia]). lia.
Qed.
Lemma exact_lt p q : (p < q)%positive -> SFltb (canonical p) (canonical q) = true.
Proof.
  intros Hlt. unfold SFltb, canonical. cbn [SFcompare]. pose proof (digits_mono p q) as Hd.
  destruct (Z.compare_spec (digits p - 53) (digits q - 53)) as [He| |]; [|done|lia].
  replace (digits p) with (digits q) by lia. change (Pos.compare_cont Eq) with Pos.compare.
  apply (up_inj_lt (Z.to_nat (53 - digits q))) in Hlt. unfold Pos.lt in Hlt. by rewrite Hlt.
Qed.
Lemma exact_le p q : (p <= q)%positive -> SFleb (canonical p) (canonical q) = true.
Proof.
  intros Hle. apply Pos.lt_eq_cases in Hle as [Hlt| ->].
  - apply exact_lt in Hlt. unfold SFltb, SFleb in *. by destruct (SFcompare _ _) as [[]|].
  - unfold SFleb. by rewrite SFcompare_refl.
Qed.

Lemma align_one p : (1 <= digits p <= 53)%Z ->
  fst (shl_align (up (Z.to_nat (53 - digits p)) p) (digits p - 53) (-52)) = up 52 p.
Proof.
  intros Hd. unfold shl_align. remember (-52 - (digits p - 53))%Z as n eqn:Hn. destruct n as [|n|n]; [..|]; cbn [fst].
  - by replace (Z.to_nat (53 - digits p)) with 52 by lia.
  - lia.
  - rewrite iter_xO, up_add. f_equal. lia.
Qed.

Lemma f64_sub_one n : (1 <= n < 2 ^ 53)%N -> f64_sub (f64_of_N n) (f64_of_N 1) = f64_of_N (n - 1).
Proof.
  intros Hn. destruct n as [|p]; [lia|]. rewrite f64_of_pos by lia. rewrite (f64_of_pos 1) by done.
  assert (1 <= digits p <= 53)%Z as Hd by (apply digits_small; lia).
  unfold f64_sub, canonical at 1 2. cbn [SFsub]. change (digits 1) with 1%Z.
  replace (Z.min (digits p - 53) (1 - 53)) with (-52)%Z by lia. rewrite align_one by done.
  change (fst (shl_align (up (Z.to_nat (53 - 1)) 1) (1 - 53) (-52))) with (up 52 1). cbn [cond_Zopp].
  rewrite !up_Z, <- Z.mul_sub_distr_r. destruct (Pos.succ_pred_or p) as [-> |Hs]; [done|].
  set (q := Pos.pred p) in *. replace (Z.pos p - 1)%Z with (Z.pos q) by lia. rewrite <- up_Z.
  cbn [binary_normalize]. replace (N.pos p - 1)%N with (N.pos q) by lia. rewrite f64_of_pos by lia.
  apply (round_exact q 52). apply digits_small. lia.
Qed.

(** ** Bursts *)

(** The bucket holds [m] tokens and at most [r]. *)
Definition holds (r m : N) (now : N) (self : RateLimiter) : Prop :=
  tokens self = f64_of_N m /\ last_update self = now /\ rate self = f64_of_N r /\ capacity self = f64_of_N r.

Lemma refilled_now r m now self :
  (m <= r)%N -> (1 <= r < 2 ^ 53)%N -> holds r m now self -> refilled self now = f64_of_N m.
Proof.
  intros Hm Hr (Ht & Hl & Hrate & Hcap). unfold refilled. rewrite Ht, Hl, Hrate, Hcap.
  replace (sat_sub now now) with 0%N by (unfold sat_sub; lia).
  change (as_secs_f64 0) with (S754_zero false).
  destruct r as [|q]; [lia|]. rewrite (f64_of_pos q) by lia. destruct m as [|p]; [done|].
  rewrite (f64_of_pos p) by lia. unfold f64_mul, f64_add, canonical at 1 2. cbn [SFmul SFadd xorb].
  fold (canonical p). change (f64_min (canonical p) (canonical q)) with (if SFltb (canonical p) (canonical q) then canonical p else canonical q).
  destruct (decide (p = q)) as [->|Hne]; [by destruct (SFltb _ _)|]. by rewrite exact_lt by lia.
Qed.

Lemma try_acquire_now r m now self :
  (m <= r)%N -> (1 <= r < 2 ^ 53)%N -> holds r m now self ->
  exists self', limiter_try_acquire self now = (bool_decide (0 < m)%N, self') /\ holds r (m - 1) now self'.
Proof.
  intros Hm Hr Hh. unfold limiter_try_acquire. rewrite (refilled_now r m) by done.
  destruct Hh as (Ht & Hl & Hrate & Hcap).
  assert (f64_ge (f64_of_N m) (f64_of_N 1) = bool_decide (0 < m)%N) as ->.
  { destruct m as [|p]; [done|]. unfold f64_ge. rewrite !f64_of_pos by lia.
    rewrite bool_decide_eq_true_2 by lia. apply exact_le. lia. }
  eexists. split; [done|]. unfold holds. cbn [tokens last_update rate capacity]. split_and!; [|done..].
  destruct m as [|p]; [done|]. rewrite bool_decide_eq_true_2 by lia. apply f64_sub_one. lia.
Qed.

Lemma acquire_all_now r now k : forall m self,
  (m <= r)%N -> (1 <= r < 2 ^ 53)%N -> holds r m now self ->
  (acquire_all self (replicate k now)).1 =
    replicate (Nat.min k (N.to_nat m)) true ++ replicate (k - N.to_nat m) false.
Proof.
  induction k as [|k IH]; intros m self Hm Hr Hh; [done|]. cbn [replicate acquire_all].
  destruct (try_acquire_now r m now self Hm Hr Hh) as (self' & -> & Hh').
  specialize (IH (m - 1)%N self' ltac:(lia) Hr Hh').
  destruct (acquire_all self' (replicate k now)) as [rest self''] eqn:E. cbn [fst] in *. rewrite IH.
  destruct (N.eq_0_gt_0_cases m) as [->|Hpos].
  - rewrite bool_decide_eq_false_2 by lia. change (N.to_nat 0) with 0. change (N.to_nat (0 - 1)) with 0.
    rewrite !Nat.min_0_r, !Nat.sub_0_r. done.
  - rewrite bool_decide_eq_true_2 by lia. replace (N.to_nat m) with (S (N.to_nat (m - 1))) by lia. done.
Qed.

(** A limiter for [r] requests a second lets a burst of exactly [r] requests
    through: of any number of requests that come at the instant it was made, the first
    [r] are granted and the others refused, for every whole rate below [2 ^ 53] and in
    the rounding arithmetic of doubles. Its bucket never fills beyond its capacity. *)
Theorem burst_is_exact r now k :
  (1 <= r < 2 ^ 53)%N ->
  (acquire_all (limiter_new (f64_of_N r) now) (replicate k now)).1 =
    replicate (Nat.min k (N.to_nat r)) true ++ replicate (k - N.to_nat r) false /\
  forall self later, capacity self = f64_of_N r -> SFleb (refilled self later) (capacity self) = true.
Proof.
  intros Hr. split; [by apply (acquire_all_now r)|]. intros self later Hc. unfold refilled. apply f64_min_le.
  rewrite Hc. destruct r as [|p]; [lia|]. by rewrite f64_of_pos by lia.
Qed.

Lemma burst_is_exact_witness :
  (acquire_all (limiter_new (f64_of_N 2) 5) (replicate 4 5%N)).1 = [true; true; false; false].
Proof. apply (burst_is_exact 2 5 4). lia. Defined.
