(* ===== verification/Enrichment.v ===== *)
(** * Enrichment: the ID lists of a user, over HTTP

    Models [src/src/servers/http_apis/user_enrichment_api.rs] and its
    [company_resolver.rs]: which identifiers a request asks for, who may ask and how
    often, the lookup in the namespace of the key's company, and the answer. Metrics are
    left out. *)
From S2P Require Import Prelude Encoding Request Schema Effects Dict WorkerCore ListView Planning Namespaces Membership SpecDeltas RateLimiter.

(** ** Configuration *)

Definition DEFAULT_MAX_LOOKUPS : N := 100.
Definition DEFAULT_RATE_LIMIT_RPS_PER_KEY : N := 0.
Definition ID_LISTS_ENRICHMENT : string := "id_lists".

Record UserEnrichmentConfig := { max_lookups : N; rate_limit_rps_per_key : N }.
Definition UserEnrichmentConfig_default : UserEnrichmentConfig :=
  {| max_lookups := DEFAULT_MAX_LOOKUPS; rate_limit_rps_per_key := DEFAULT_RATE_LIMIT_RPS_PER_KEY |}.

(** [usize] has 64 bits. *)
Definition enrichment_env_usize (env : string -> env_var) (name : string) (dflt : N) : result string N :=
  value ← env_u64 env name dflt;
  if decide (value <= u64_max)%N then Ok value else Err (name +:+ " is too large, got '" +:+ show_u64 value +:+ "'").

Definition enrichment_config_from_env (env : string -> env_var) : result string UserEnrichmentConfig :=
  let defaults := UserEnrichmentConfig_default in
  lookups ← enrichment_env_usize env "USER_ENRICHMENT_MAX_LOOKUPS" (max_lookups defaults);
  if bool_decide (lookups = 0%N) then Err "USER_ENRICHMENT_MAX_LOOKUPS must be greater than zero"
  else
    rate ← env_u64 env "USER_ENRICHMENT_RATE_LIMIT_RPS_PER_KEY" (rate_limit_rps_per_key defaults);
    Ok {| max_lookups := lookups; rate_limit_rps_per_key := rate |}.

(** ** Requests *)

Record EnrichmentUser := { eu_user_id : option string; eu_custom_ids : gmap string string }.
Record UserEnrichmentRequest := {
  id_list_lookups : list string;
  user : option EnrichmentUser;
  enrichments : option (list string);
}.
Record UserEnrichmentResponse := { id_lists : gmap string (list string); unsupported_enrichments : list string }.

Section Requests.
Context `{Digest}.

(** The hash is ASCII, so its first eight characters are its first eight bytes. *)
Definition hash_lookup_id (id : string) : string := String.substring 0 8 (sha256_base64 id).

(** [if seen.insert(lookup.clone()) { lookups.push(lookup) }] *)
Definition push_lookup (st : gset string * list string) (lookup : string) : gset string * list string :=
  let '(seen, lookups) := st in
  if decide (lookup ∈ seen) then st else ({[lookup]} ∪ seen, lookups ++ [lookup]).

Definition prepare_request (request : UserEnrichmentRequest) : list string * list string * bool :=
  let st := foldl push_lookup (∅, []) (id_list_lookups request) in
  let st :=
    match user request with
    | Some user =>
        let st := match eu_user_id user with Some user_id => push_lookup st (hash_lookup_id user_id) | None => st end in
        foldl (fun st '(_, id) => push_lookup st (hash_lookup_id id)) st (btree_iter (eu_custom_ids user))
    | None => st
    end in
  let requested := default [] (enrichments request) in
  let unsupported := (foldl push_lookup (∅, []) (filter (fun e => e <> ID_LISTS_ENRICHMENT) requested)).2 in
  let resolve_id_lists :=
    match enrichments request with
    | None => true
    | Some requested => existsb (fun e => bool_decide (e = ID_LISTS_ENRICHMENT)) requested
    end in
  (st.2, unsupported, resolve_id_lists).
End Requests.

(** ** Keys *)

Record KeyContext := { kc_key_hash : string; kc_server_key : string; kc_rate_limiter : option RateLimiter }.
Record UserEnrichmentService := { se_keys : gmap string KeyContext; se_config : UserEnrichmentConfig }.

Definition rate_limiter (rate now : N) : option RateLimiter :=
  if bool_decide (0 < rate)%N then Some (limiter_new (f64_of_N rate) now) else None.

Definition key_context `{Digest} (config : UserEnrichmentConfig) (now : N) (server_key : string) : KeyContext :=
  {| kc_key_hash := hash_server_key server_key; kc_server_key := server_key;
     kc_rate_limiter := rate_limiter (rate_limit_rps_per_key config) now |}.
Definition service_from_redis `{Digest} (namespaces : IdListNamespaces) (config : UserEnrichmentConfig) (now : N)
    : UserEnrichmentService :=
  {| se_keys := foldl (fun keys server_key => <[server_key := key_context config now server_key]> keys)
       ∅ (ns_server_keys namespaces);
     se_config := config |}.

Record UserEnrichmentRequestContext := { uc_key : KeyContext; uc_encodings : list CompressionEncoder }.
Inductive guard_outcome := GuardError (status : N) | GuardSuccess (context : UserEnrichmentRequestContext).

Definition with_limiter (server_key : string) (limiter : RateLimiter) (self : UserEnrichmentService)
    : UserEnrichmentService :=
  {| se_keys := alter (fun key => {| kc_key_hash := kc_key_hash key; kc_server_key := kc_server_key key;
                                     kc_rate_limiter := Some limiter |}) server_key (se_keys self);
     se_config := se_config self |}.

(** The request guard; it may take a token from the key's limiter. *)
Definition enrichment_from_request (service : option UserEnrichmentService) (hs : list (string * string)) (now : N)
    : guard_outcome * option UserEnrichmentService :=
  match service with
  | None => (GuardError 500, None)
  | Some self =>
      match get_one "statsig-api-key" hs with
      | None => (GuardError 401, service)
      | Some server_key =>
          match se_keys self !! server_key with
          | None => (GuardError 401, service)
          | Some key =>
              let '(allowed, service) :=
                match kc_rate_limiter key with
                | Some limiter =>
                    let '(granted, limiter) := limiter_try_acquire limiter now in
                    (granted, Some (with_limiter server_key limiter self))
                | None => (true, service)
                end in
              if allowed then
                (GuardSuccess {| uc_key := key;
                                 uc_encodings := acceptable_encodings (from_header_values (header_values "Accept-Encoding" hs)) |},
                 service)
              else (GuardError 429, service)
          end
      end
  end.

(** ** The lookup of a key's company *)

(** [RedisIdListMembershipFetcher::new]: the fetcher and the dictionary it starts with. *)
Definition fetcher_new (schema : IdListKeySchema) (skh : string) (config : IdListMembershipConfig)
    : prog IdListMembershipError (RedisIdListMembershipFetcher * DictSnapshot) :=
  let self := {| f_enable_reverse_index := mc_enable_reverse_index config; f_schema := schema; f_skh := skh;
                 f_fetch_timeout_ms := fetch_timeout_ms config |} in
  if mc_enable_reverse_index config then snapshot ← load_dictionary self; Ret (self, snapshot)
  else Ret (self, {| name_to_token := ∅; token_to_name := ∅ |}).

Record CompanyMembershipPool := { cp_schema : IdListKeySchema; cp_config : IdListMembershipConfig }.

(** The namespaces as they are at the five times they are read: for the scope, before
    the fetch and after it. *)
Record resolve_reads := {
  scope_company : IdListNamespaces; scope_lists : IdListNamespaces;
  fetch_lists : IdListNamespaces;
  answer_company : IdListNamespaces; answer_lists : IdListNamespaces;
}.

Section Resolver.
Context `{Digest} `{HashOrder}.

(** The names of a hash set in the order it is iterated. *)
Definition hash_set_iter (s : gset string) : list string := (hash_iter (gset_to_gmap tt s)).*1.

Definition fetcher_of (self : CompanyMembershipPool) (company_hash : string) : RedisIdListMembershipFetcher :=
  {| f_enable_reverse_index := mc_enable_reverse_index (cp_config self); f_schema := cp_schema self;
     f_skh := company_hash; f_fetch_timeout_ms := fetch_timeout_ms (cp_config self) |}.

(** The company of the key, when it is known and the key sees any list. *)
Definition company_scope (reads : resolve_reads) (server_key : string) : option string :=
  match namespace_for_key (scope_company reads) server_key, visible_lists (scope_lists reads) server_key with
  | Some company_hash, Some visible => if bool_decide (visible = ∅) then None else Some company_hash
  | _, _ => None
  end.

(** [OnceCell::get_or_try_init] *)
Definition initialize_fetcher (self : CompanyMembershipPool) (company_hash : string) (cells : gmap string DictSnapshot)
    : prog redis_error (result IdListMembershipError (RedisIdListMembershipFetcher * DictSnapshot)) :=
  match cells !! company_hash with
  | Some dictionary => Ret (Ok (fetcher_of self company_hash, dictionary))
  | None => attempt (fetcher_new (cp_schema self) company_hash (cp_config self))
  end.

(** What the key may see once the reads are done: nothing when its company changed. *)
Definition visible_after (reads : resolve_reads) (server_key company_hash : string) : gset string :=
  if bool_decide (namespace_for_key (answer_company reads) server_key = Some company_hash)
  then default ∅ (visible_lists (answer_lists reads) server_key) else ∅.
Definition retain_visible (visible : gset string) (memberships : ResolvedMemberships) : ResolvedMemberships :=
  (fun names => names ∩ visible) <$> memberships.

(** [cells] holds the dictionaries of the fetchers that were initialized; a failed
    initialization leaves its cell empty. [refreshed] is what the background refresh
    made of a dictionary by the time the reads are done. *)
Definition company_resolve (self : CompanyMembershipPool) (server_key : string) (reads : resolve_reads)
    (refreshed : DictSnapshot -> DictSnapshot) (cells : gmap string DictSnapshot) (lookup_ids : list string)
    : prog redis_error (result IdListMembershipError ResolvedMemberships * gmap string DictSnapshot) :=
  match company_scope reads server_key with
  | None => Ret (Ok (empty_memberships lookup_ids), cells)
  | Some company_hash =>
      initialized ← initialize_fetcher self company_hash cells;
      match initialized : result IdListMembershipError (RedisIdListMembershipFetcher * DictSnapshot) with
      | Err e => Ret (Err e, cells)
      | Ok (fetcher, dictionary) =>
          let cells := <[company_hash := dictionary]> cells in
          let visible := default ∅ (visible_lists (fetch_lists reads) server_key) in
          fetched ← attempt (F := redis_error) (fetch_visible fetcher (refreshed dictionary) lookup_ids (hash_set_iter visible));
          match fetched : result IdListMembershipError ResolvedMemberships with
          | Err e => Ret (Err e, cells)
          | Ok memberships =>
              Ret (Ok (retain_visible (visible_after reads server_key company_hash) memberships), cells)
          end
      end
  end.
End Resolver.

(** ** The endpoint *)

(** [serde_json::to_vec] of a response. *)
Class EnrichmentJson := { response_json : UserEnrichmentResponse -> option string }.

Record UserEnrichmentHttpResponse := {
  er_status : N;
  er_data : string;
  er_encoding : CompressionEncoder;
}.

Section Endpoint.
Context `{Digest} `{CompressLib} `{EnrichmentJson}.

Definition quote : string := byte_str [34].
Definition error_json (message : string) : string :=
  "{" +:+ quote +:+ "error" +:+ quote +:+ ":" +:+ quote +:+ message +:+ quote +:+ "}".

Definition encoded (status : N) (data : string) (encodings : list CompressionEncoder) : UserEnrichmentHttpResponse :=
  let requested := preferred_response_compression encodings in
  match compress_response_payload data requested with
  | Some compressed => {| er_status := status; er_data := compressed; er_encoding := requested |}
  | None => {| er_status := status; er_data := data; er_encoding := PlainText |}
  end.
Definition enrichment_json (status : N) (value : UserEnrichmentResponse) (encodings : list CompressionEncoder)
    : UserEnrichmentHttpResponse :=
  encoded status (default (error_json "failed to serialize response") (response_json value)) encodings.
Definition enrichment_error (status : N) (message : string) (encodings : list CompressionEncoder)
    : UserEnrichmentHttpResponse :=
  encoded status (error_json message) encodings.

(** [Responder::respond_to]: status, headers and body. *)
Definition enrichment_respond_to (self : UserEnrichmentHttpResponse) : N * list (string * string) * string :=
  (er_status self,
   ("Content-Type", "application/json") ::
     match content_encoding_header_value (er_encoding self) with
     | Some value => [("Content-Encoding", value)]
     | None => []
     end,
   er_data self).

Definition sorted_names (names : gset string) : list string := sort_by str_le (elements names).

(** The handler, with the resolver of the key as the trait object it is. [State] is
    what the resolver keeps from request to request. *)
Definition post_user_enrichment {State} (config : UserEnrichmentConfig) (context : UserEnrichmentRequestContext)
    (resolve : list string -> prog redis_error (result IdListMembershipError ResolvedMemberships * State)) (st : State)
    (request : UserEnrichmentRequest) : prog redis_error (UserEnrichmentHttpResponse * State) :=
  let '(lookups, unsupported, resolve_id_lists) := prepare_request request in
  if bool_decide (max_lookups config < N.of_nat (length lookups))%N
  then Ret (enrichment_error 413 "too many id list lookups" (uc_encodings context), st)
  else
    '(memberships, st) ←
      (if resolve_id_lists && negb (bool_decide (lookups = [])) then resolve lookups else Ret (Ok ∅, st));
    match memberships : result IdListMembershipError ResolvedMemberships with
    | Err _ => Ret (enrichment_error 503 "id list resolution unavailable" (uc_encodings context), st)
    | Ok memberships =>
        Ret (enrichment_json 200
               {| id_lists := sorted_names <$> memberships; unsupported_enrichments := unsupported |}
               (uc_encodings context), st)
    end.
End Endpoint.

(** ** What a request asks for *)

Section RequestFacts.
Context `{Digest}.

(** The identifiers in the order they are considered. *)
Definition asked (request : UserEnrichmentRequest) : list string :=
  id_list_lookups request ++
  match user request with
  | Some user =>
      match eu_user_id user with Some user_id => [hash_lookup_id user_id] | None => [] end ++
      ((fun p => hash_lookup_id p.2) <$> btree_iter (eu_custom_ids user))
  | None => []
  end.

Lemma foldl_push_lookup ids seen lookups :
  foldl push_lookup (seen, lookups) ids = (list_to_set ids ∪ seen, lookups ++ dedupe_from seen ids).
Proof.
  revert seen lookups. induction ids as [|id ids IH]; intros seen lookups; cbn [foldl dedupe_from list_to_set].
  { rewrite app_nil_r. f_equal. set_solver. }
  cbn [push_lookup]. case_decide as Hin; rewrite IH.
  - f_equal. set_solver.
  - rewrite <- app_assoc. f_equal. set_solver.
Qed.

(** Each step adds the first occurrences of what it considers. *)
Lemma push_all a b :
  foldl push_lookup (foldl push_lookup (∅, []) a) b = foldl push_lookup (∅, []) (a ++ b).
Proof. by rewrite foldl_app. Qed.
Lemma foldl_push_custom st (l : list (string * string)) :
  foldl (fun st '(_, id) => push_lookup st (hash_lookup_id id)) st l =
  foldl push_lookup st ((fun p => hash_lookup_id p.2) <$> l).
Proof. revert st. induction l as [|[k id] l IH]; intros st; [done|]. cbn [foldl fmap list_fmap snd]. apply IH. Qed.

Lemma prepare_request_lookups request :
  (prepare_request request).1.1 = dedupe_lookup_ids (asked request).
Proof.
  assert (forall ids, (foldl push_lookup (∅, []) ids).2 = dedupe_lookup_ids ids) as Hd.
  { intros ids. by rewrite foldl_push_lookup. }
  unfold prepare_request, asked. cbn [fst]. rewrite <- Hd. f_equal.
  destruct (user request) as [u|]; [|by rewrite app_nil_r].
  rewrite foldl_push_custom. destruct (eu_user_id u) as [id|].
  - change (push_lookup ?st ?x) with (foldl push_lookup st [x]). by rewrite !push_all, <- app_assoc.
  - by rewrite push_all.
Qed.

Lemma prepare_request_unsupported request :
  (prepare_request request).1.2 =
    dedupe_lookup_ids (filter (fun e => e <> ID_LISTS_ENRICHMENT) (default [] (enrichments request))).
Proof. unfold prepare_request. cbn [fst snd]. by rewrite foldl_push_lookup. Qed.

Lemma prepare_request_resolve request :
  (prepare_request request).2 = true <->
  match enrichments request with None => True | Some requested => ID_LISTS_ENRICHMENT ∈ requested end.
Proof.
  unfold prepare_request. cbn [snd]. destruct (enrichments request) as [requested|]; [|done].
  rewrite existsb_exists. setoid_rewrite bool_decide_eq_true. split.
  - by intros (x & Hx%list_elem_of_In & ->).
  - intros Hin. eexists. by rewrite <- list_elem_of_In.
Qed.
End RequestFacts.

(** ** The answer of a resolver *)

(** What a resolver promises: it answers every identifier it is asked for and no
    other, and names only lists the key may see. *)
Class Resolver `{ScanOrder} {State} (env : environment) (allowed : string -> Prop)
    (resolve : list string -> prog redis_error (result IdListMembershipError ResolvedMemberships * State)) : Prop := {
  resolver_answers ids :
    delivers env (resolve ids) (fun out => forall r, out.1 = Ok r ->
      (forall id, is_Some (r !! id) <-> id ∈ ids) /\ (forall id name, listed r id name -> allowed name));
}.

Section Domain.
Context `{ScanOrder} (env : environment).

Lemma delivers_attempt {E F A} (p : prog E A) (P : A -> Prop) :
  delivers env p P -> delivers (E := F) env (attempt p) (fun res => forall a, res = Ok a -> P a).
Proof.
  intros Hp ks. apply wp_attempt. eapply wp_mono; [apply Hp|]. intros [a|e|] ks' Hq; [|intros res Hres; by simplify_eq|done].
  intros res [= <-] a' [= <-]. by apply Hq.
Qed.
Lemma delivers_lost {E A} (k : bool -> prog E A) (P : A -> Prop) :
  (forall b, delivers env (k b) P) -> delivers env (Lost k) P.
Proof. intros Hk ks b. apply Hk. Qed.
Lemma delivers_throw {E A} (e : E) (P : A -> Prop) : delivers env (Throw e) P.
Proof. intros ks a. done. Qed.
Lemma delivers_weaken {E A} (p : prog E A) (P Q : A -> Prop) :
  delivers env p P -> (forall a, P a -> Q a) -> delivers env p Q.
Proof. intros Hp HPQ ks. eapply wp_mono; [apply Hp|]. intros out ks' Ho a ->. by apply HPQ, Ho. Qed.

Lemma pipe_reads_length {X R} (f : X -> cmd R) (xs : list X) :
  (forall x, cmd_keys (f x) = []) ->
  delivers env (pipe_reads (E := IdListMembershipError) (f <$> xs)) (fun rs => length rs = length xs).
Proof.
  intros Hf ks. eapply wp_mono.
  { apply (wp_pipe_reads env (fun _ => True) ltac:(done) f (fun _ _ => True) xs); [|done].
    apply Forall_forall. intros x _. split; [apply Hf|done]. }
  intros out ks' Hq rs ->. destruct (Hq rs eq_refl) as [_ HF]. symmetry. by apply Forall2_length in HF.
Qed.

Lemma parse_token_sets_length rs sets : parse_token_sets rs = Some sets -> length sets = length rs.
Proof.
  revert sets. induction rs as [|r rs IH]; intros sets; cbn [parse_token_sets]; [by intros [= <-]|].
  intros Hp. apply bind_Some in Hp as (t & _ & Hp). apply bind_Some in Hp as (ts & Hts & [= <-]).
  cbn [length]. f_equal. by apply IH.
Qed.

Lemma list_to_map_zip_dom {A} (ids : list string) (xs : list A) id :
  length xs = length ids -> is_Some ((list_to_map (zip ids xs) : gmap string A) !! id) <-> id ∈ ids.
Proof.
  revert xs. induction ids as [|x ids IH]; intros [|a xs] Hl; cbn in Hl; try done.
  { cbn [zip zip_with]. rewrite list_to_map_nil, lookup_empty, elem_of_nil. split; [by intros []|done]. }
  cbn [zip zip_with]. rewrite list_to_map_cons, elem_of_cons. destruct (decide (x = id)) as [->|Hne].
  - rewrite lookup_insert_eq. naive_solver.
  - rewrite lookup_insert_ne by done. rewrite IH by lia. naive_solver.
Qed.

Lemma fetch_domain self dictionary ids :
  delivers env (fetch self dictionary ids) (fun r => forall id, is_Some (r.1 !! id) <-> id ∈ ids).
Proof.
  unfold fetch. cbn zeta. set (dids := dedupe_lookup_ids ids).
  assert (forall id, is_Some (empty_memberships dids !! id) <-> id ∈ ids) as Hempty.
  { intros id. rewrite <- elem_of_dedupe. fold dids. rewrite empty_memberships_lookup.
    case_decide; by split. }
  destruct (bool_decide (dids = [])); [by apply delivers_ret|].
  destruct (negb (f_enable_reverse_index self)); [by apply delivers_ret|].
  eapply (delivers_bind _ _ _ (fun sets => length sets = length dids)).
  - unfold with_timeout. apply delivers_lost. intros [|]; [apply delivers_throw|].
    apply delivers_skip. intros _. eapply delivers_bind; [by apply pipe_reads_length|]. intros replies Hl.
    destruct (parse_token_sets replies) as [sets|] eqn:Ep; [|apply delivers_throw].
    apply delivers_ret. etrans; [by apply parse_token_sets_length|exact Hl].
  - intros sets Hl. apply delivers_ret. cbn [fst]. intros id. rewrite list_to_map_zip_dom.
    + apply elem_of_dedupe.
    + by rewrite length_fmap.
Qed.

Lemma fetch_forward_domain self ids visible :
  delivers env (fetch_forward self ids visible) (fun r => forall id, is_Some (r !! id) <-> id ∈ ids).
Proof.
  assert (forall id, is_Some (empty_memberships ids !! id) <-> id ∈ ids) as Hempty.
  { intros id. rewrite empty_memberships_lookup. case_decide; by split. }
  unfold fetch_forward. destruct (_ || _); [by apply delivers_ret|].
  unfold with_timeout. apply delivers_lost. intros [|]; [apply delivers_throw|].
  apply delivers_skip. intros _. apply delivers_skip. intros versions.
  destruct (bool_decide (queried visible versions = [])); [by apply delivers_ret|].
  apply delivers_skip. intros replies. apply delivers_ret. intros id.
  rewrite (proj1 (foldl_add_memberships ids _ _ id "")). apply Hempty.
Qed.

Lemma fetch_visible_domain self dictionary ids visible :
  delivers env (fetch_visible self dictionary ids visible) (fun r => forall id, is_Some (r !! id) <-> id ∈ ids).
Proof.
  unfold fetch_visible. destruct (f_enable_reverse_index self).
  - eapply delivers_bind; [apply fetch_domain|]. intros [r ts] Hr. by apply delivers_ret.
  - eapply delivers_weaken; [apply fetch_forward_domain|]. intros r Hr id. etrans; [apply Hr|apply elem_of_dedupe].
Qed.
End Domain.

(** ** The resolver of a company *)

Section CompanyResolver.
Context `{ScanOrder} `{Digest} `{HashOrder} (env : environment).
Context (self : CompanyMembershipPool) (server_key : string) (reads : resolve_reads).
Context (refreshed : DictSnapshot -> DictSnapshot) (cells : gmap string DictSnapshot).

(** A list the key sees, in the namespace its company had all along. *)
Definition still_visible (name : string) : Prop :=
  (exists company_hash,
     company_scope reads server_key = Some company_hash /\
     namespace_for_key (answer_company reads) server_key = Some company_hash) /\
  exists visible, visible_lists (answer_lists reads) server_key = Some visible /\ name ∈ visible.

Lemma visible_after_spec company_hash name :
  company_scope reads server_key = Some company_hash ->
  name ∈ visible_after reads server_key company_hash <-> still_visible name.
Proof.
  intros Hs. unfold visible_after, still_visible. rewrite Hs. split.
  - destruct (bool_decide _) eqn:E; [|set_solver]. boolify. intros Hin.
    destruct (visible_lists (answer_lists reads) server_key) as [v|]; cbn [default] in Hin; [|set_solver].
    split; [by exists company_hash|by exists v].
  - intros [(h & [= <-] & Hh) (v & Hv & Hin)]. rewrite bool_decide_eq_true_2 by done. by rewrite Hv.
Qed.

Lemma retain_visible_spec visible (r : ResolvedMemberships) :
  (forall id, is_Some (retain_visible visible r !! id) <-> is_Some (r !! id)) /\
  (forall id name, listed (retain_visible visible r) id name <-> listed r id name /\ name ∈ visible).
Proof.
  unfold retain_visible, listed. split.
  - intros id. by rewrite lookup_fmap, fmap_is_Some.
  - intros id name. rewrite lookup_fmap. destruct (r !! id) as [ns|]; cbn [fmap option_fmap option_map]; [|naive_solver].
    split; [intros (? & [= <-] & Hin); set_solver|]. intros [(? & [= <-] & ?) ?]. eexists. split; [done|]. set_solver.
Qed.

Lemma company_resolve_answers ids :
  delivers env (company_resolve self server_key reads refreshed cells ids) (fun out => forall r, out.1 = Ok r ->
    (forall id, is_Some (r !! id) <-> id ∈ ids) /\ (forall id name, listed r id name -> still_visible name)).
Proof.
  unfold company_resolve. destruct (company_scope reads server_key) as [company_hash|] eqn:Es.
  2:{ apply delivers_ret. intros r [= <-]. split.
      - intros id. rewrite empty_memberships_lookup. case_decide; by split.
      - intros id name (ns & Hl & Hin). rewrite empty_memberships_lookup in Hl. case_decide; set_solver. }
  apply delivers_skip. intros [[fetcher dictionary]|e]; [|by apply delivers_ret].
  eapply delivers_bind; [apply delivers_attempt, fetch_visible_domain|].
  intros [memberships|e] Hm; [|by apply delivers_ret]. specialize (Hm memberships eq_refl).
  apply delivers_ret. intros r [= <-]. destruct (retain_visible_spec (visible_after reads server_key company_hash) memberships) as [Hd Hl].
  split; [intros id; by rewrite Hd|]. intros id name [_ Hin]%Hl. by eapply visible_after_spec.
Qed.

#[export] Instance company_resolver : Resolver env still_visible (company_resolve self server_key reads refreshed cells).
Proof. constructor. apply company_resolve_answers. Qed.
End CompanyResolver.

(** ** The endpoint *)

Definition cmp_le {A} (c : A -> A -> comparison) (x y : A) : bool := match c x y with Gt => false | _ => true end.
Lemma cmp_sorted {A} (c : A -> A -> comparison) l : cmp_ok c -> StronglySorted (cmp_le c) (sort_by (cmp_le c) l).
Proof.
  intros [Ho Ht]. apply sort_by_sorted; unfold cmp_le.
  - intros x y. rewrite (Ho x y). by destruct (c x y); auto.
  - intros x y z Hxy Hyz. destruct (Ht x y z) as [Hxz _]; [by destruct (c x y)|by destruct (c y z)|].
    by destruct (c x z).
Qed.

Lemma sorted_names_spec names :
  StronglySorted str_le (sorted_names names) /\ NoDup (sorted_names names) /\
  forall name, name ∈ sorted_names names <-> name ∈ names.
Proof.
  unfold sorted_names. split_and!.
  - apply (cmp_sorted String.compare), string_cmp_ok.
  - rewrite sort_by_perm. apply NoDup_elements.
  - intros name. rewrite sort_by_perm. apply elem_of_elements.
Qed.

Section EndpointFacts.
Context `{ScanOrder} `{Digest} `{CompressLib} `{EnrichmentJson}.

(** Does the request ask for ID lists at all? *)
Definition wants_id_lists (request : UserEnrichmentRequest) : Prop :=
  match enrichments request with None => True | Some requested => ID_LISTS_ENRICHMENT ∈ requested end.

(** An answer with status 200 for the identifiers asked for. *)
Record answers_request (allowed : string -> Prop) (request : UserEnrichmentRequest)
    (response : UserEnrichmentResponse) : Prop := {
  ar_ids : forall id, is_Some (id_lists response !! id) <-> wants_id_lists request /\ id ∈ asked request;
  ar_names : forall id names, id_lists response !! id = Some names ->
    StronglySorted str_le names /\ NoDup names /\ Forall allowed names;
  ar_unsupported : NoDup (unsupported_enrichments response) /\
    forall e, e ∈ unsupported_enrichments response <->
      e <> ID_LISTS_ENRICHMENT /\ e ∈ default [] (enrichments request);
}.

Lemma answers_resolved allowed request memberships unsupported :
  unsupported = dedupe_lookup_ids (filter (fun e => e <> ID_LISTS_ENRICHMENT) (default [] (enrichments request))) ->
  (forall id, is_Some (memberships !! id) <-> wants_id_lists request /\ id ∈ asked request) ->
  (forall id name, listed memberships id name -> allowed name) ->
  answers_request allowed request
    {| id_lists := sorted_names <$> memberships; unsupported_enrichments := unsupported |}.
Proof.
  intros -> Hids Hall. constructor; cbn [id_lists unsupported_enrichments].
  - intros id. rewrite lookup_fmap, fmap_is_Some. apply Hids.
  - intros id names. rewrite lookup_fmap. intros (ns & Hns & ->)%fmap_Some.
    destruct (sorted_names_spec ns) as (Hs & Hn & Hin). split_and!; [done..|].
    apply Forall_forall. intros name Hname%Hin. apply (Hall id). by exists ns.
  - split; [apply dedupe_from_NoDup|]. intros e. by rewrite elem_of_dedupe, list_elem_of_filter.
Qed.

Lemma post_user_enrichment_spec {State} env allowed resolve `{!Resolver (State := State) env allowed resolve}
    config context st request ks :
  let lookups := dedupe_lookup_ids (asked request) in
  wp env (post_user_enrichment config context resolve st request) (fun out ks' =>
    forall response st', out = Returned (response, st') ->
    if bool_decide (max_lookups config < N.of_nat (length lookups))%N
    then response = enrichment_error 413 "too many id list lookups" (uc_encodings context) /\ st' = st /\ ks' = ks
    else response = enrichment_error 503 "id list resolution unavailable" (uc_encodings context) \/
         exists r, response = enrichment_json 200 r (uc_encodings context) /\ answers_request allowed request r) ks.
Proof.
  cbn zeta. pose proof (prepare_request_lookups request) as Hl. pose proof (prepare_request_unsupported request) as Hu.
  pose proof (prepare_request_resolve request) as Hr. unfold post_user_enrichment.
  destruct (prepare_request request) as [[lookups unsupported] want]. cbn [fst snd] in Hl, Hu, Hr. subst lookups.
  set (ids := dedupe_lookup_ids (asked request)) in *.
  assert (forall id, id ∈ ids <-> id ∈ asked request) as Hids by apply elem_of_dedupe.
  destruct (bool_decide (max_lookups config < N.of_nat (length ids))%N) eqn:E; [by intros ? ? [= <- <-]|].
  apply wp_bind. destruct (want && negb (bool_decide (ids = []))) eqn:Ew.
  - apply andb_true_iff in Ew as [Hw _]. eapply wp_mono; [apply (resolver_answers ids)|].
    intros [[[memberships|e] st1]| |] ks' Hq; [| |done..]; intros response st' [= <- <-]; [right|by left].
    destruct (Hq _ eq_refl memberships eq_refl) as [Hd Hn]. eexists. split; [done|].
    apply answers_resolved; [done| |done]. intros id. rewrite Hd, Hids. unfold wants_id_lists. rewrite <- Hr. tauto.
  - intros response st' [= <- <-]. right. eexists. split; [done|].
    apply answers_resolved; [done| |]; [|intros id name (ns & Hns & _); by rewrite lookup_empty in Hns].
    intros id. rewrite lookup_empty. split; [by intros []|]. intros [Hw Hid]. unfold wants_id_lists in Hw.
    apply Hr in Hw. rewrite Hw in Ew. cbn [andb] in Ew. boolify. apply Hids in Hid. rewrite Ew in Hid. by apply elem_of_nil in Hid.
Qed.
End EndpointFacts.

(** ** Runs that meet trouble *)

(** A reply that fails a lookup: an error, or a member set that holds something else than
    tokens. *)
Definition troubled {R} (c : cmd R) (r : result redis_error R) : bool :=
  match r with
  | Err _ => true
  | Ok a =>
      match c in cmd R return R -> bool with
      | SMEMBERS _ => fun tokens => bool_decide (parse_tokens tokens = None)
      | _ => fun _ => false
      end a
  end.

Section Trouble.
Context `{ScanOrder} (env : environment).

(** The runs of a program, with whether a reply was troubled or a timeout expired. *)
Fixpoint observed {E A} (p : prog E A) (ks : keyspace) (trouble : bool) (out : outcome E A) (ks' : keyspace) : Prop :=
  match p with
  | Ret a => out = Returned a /\ ks' = ks /\ trouble = false
  | Throw e => out = Failed e /\ ks' = ks /\ trouble = false
  | OutOfFuel => out = NoFuel /\ ks' = ks /\ trouble = false
  | Redis c k => exists ks1 r ks2 rest, rely env ks ks1 /\ contract c ks1 r ks2 /\
      observed (k r) ks2 rest out ks' /\ trouble = troubled c r || rest
  | Http q k => exists r, http_ok env q r /\ observed (k r) ks trouble out ks'
  | Lost k => exists expired rest, observed (k expired) ks rest out ks' /\ trouble = expired || rest
  end.

(** Observing leaves no run out and adds none. *)
Lemma observed_runs {E A} (p : prog E A) ks out ks' :
  runs env p ks out ks' <-> exists trouble, observed p ks trouble out ks'.
Proof.
  revert ks. induction p as [a|e| |R c k IH|q k IH|k IH]; intros ks; cbn [runs observed].
  1-3: naive_solver.
  - setoid_rewrite IH. naive_solver.
  - setoid_rewrite IH. naive_solver.
  - setoid_rewrite IH. naive_solver.
Qed.

(** What holds of the trouble met, on top of [b], and of the outcome, whatever Redis answers. *)
Fixpoint flagged {E A} (p : prog E A) (b : bool) (Q : bool -> outcome E A -> Prop) : Prop :=
  match p with
  | Ret a => Q b (Returned a)
  | Throw e => Q b (Failed e)
  | OutOfFuel => Q b NoFuel
  | Redis c k => forall r, flagged (k r) (b || troubled c r) Q
  | Http q k => forall r, flagged (k r) b Q
  | Lost k => forall expired, flagged (k expired) (b || expired) Q
  end.

Lemma flagged_adequate {E A} (p : prog E A) b Q ks trouble out ks' :
  flagged p b Q -> observed p ks trouble out ks' -> Q (b || trouble) out.
Proof.
  revert b ks trouble. induction p as [a|e| |R c k IH|q k IH|k IH]; intros b ks trouble Hf; cbn [flagged observed] in *.
  1-3: intros (-> & _ & ->); by rewrite orb_false_r.
  - intros (ks1 & r & ks2 & rest & _ & _ & Hr & ->). rewrite orb_assoc. by eapply IH.
  - intros (r & _ & Hr). by eapply IH.
  - intros (l & rest & Hr & ->). rewrite orb_assoc. by eapply IH.
Qed.

Lemma flagged_mono {E A} (p : prog E A) b (Q Q' : bool -> outcome E A -> Prop) :
  flagged p b Q -> (forall b' out, Q b' out -> Q' b' out) -> flagged p b Q'.
Proof. intros Hp HQ. revert b Hp. induction p; intros b Hp; cbn [flagged] in *; eauto. Qed.

Lemma flagged_bind {E A B} (p : prog E A) (f : A -> prog E B) b Q :
  flagged p b (fun b' out => match out with
    | Returned a => flagged (f a) b' Q
    | Failed e => Q b' (Failed e)
    | NoFuel => Q b' NoFuel
    end) -> flagged (p ≫= f) b Q.
Proof. revert b. induction p; intros b Hp; cbn [flagged mbind prog_bind] in *; eauto. Qed.

Lemma flagged_attempt {E F A} (p : prog E A) b (Q : bool -> outcome F (result E A) -> Prop) :
  flagged p b (fun b' out => match out with
    | Returned a => Q b' (Returned (Ok a))
    | Failed e => Q b' (Returned (Err e))
    | NoFuel => Q b' NoFuel
    end) -> flagged (attempt p) b Q.
Proof. revert b. induction p; intros b Hp; cbn [flagged attempt] in *; eauto. Qed.

(** The program fails exactly when it meets trouble. *)
Definition fails_in_trouble {E A} (b : bool) (out : outcome E A) : Prop :=
  match out with Returned _ => b = false | Failed _ => b = true | NoFuel => False end.

Lemma flagged_bind_honest {E A B} (p : prog E A) (f : A -> prog E B) :
  flagged p false fails_in_trouble -> (forall a, flagged (f a) false fails_in_trouble) ->
  flagged (p ≫= f) false fails_in_trouble.
Proof.
  intros Hp Hf. apply flagged_bind. eapply flagged_mono; [exact Hp|]. intros b [a|e|]; cbn; [intros ->; apply Hf|done..].
Qed.

Lemma flagged_redis {E} `{FromRedis E} {R} (c : cmd R) :
  (forall a, troubled c (Ok a) = false) -> flagged (redis (E := E) c) false fails_in_trouble.
Proof. intros Hc [a|e]; cbn [flagged orb]; [by rewrite Hc|done]. Qed.

Lemma flagged_timeout {A} ms (p : prog IdListMembershipError A) :
  flagged p false fails_in_trouble -> flagged (with_timeout ms p) false fails_in_trouble.
Proof. intros Hp [|]; [done|exact Hp]. Qed.

(** A pipeline of reads fails on an error; what else is troubled is in its replies. *)
Lemma flagged_pipe_reads {E R} `{FromRedis E} (bad : R -> bool) (cs : list (cmd R)) :
  Forall (fun c => forall a, troubled c (Ok a) = bad a) cs ->
  flagged (pipe_reads (E := E) cs) false (fun b out => match out with
    | Returned rs => b = existsb bad rs
    | Failed _ => b = true
    | NoFuel => False
    end).
Proof.
  intros Hcs. unfold pipe_reads.
  assert (forall err acc b, (is_Some err -> b = true) -> (err = None -> b = existsb bad acc) ->
    flagged (pipe_reads_from (E := E) err acc cs) b (fun b out => match out with
      | Returned rs => b = existsb bad rs | Failed _ => b = true | NoFuel => False end)) as Hgen.
  2:{ apply Hgen; [by intros []|done]. }
  induction Hcs as [|c cs Hc _ IH]; intros err acc b Herr Hacc; cbn [pipe_reads_from flagged].
  - destruct err as [e|]; cbn [flagged]; [by apply Herr|]. rewrite Hacc by done.
    clear. induction acc as [|a acc IH]; [done|]. rewrite reverse_cons, existsb_app, <- IH. cbn [existsb]. rewrite orb_false_r. apply orb_comm.
  - intros [a|e]; apply IH.
    + intros He. by rewrite Herr.
    + intros ->. rewrite Hc, (Hacc eq_refl). apply orb_comm.
    + intros _. apply orb_true_r.
    + done.
Qed.

Lemma parse_token_sets_bad rs :
  existsb (fun tokens => bool_decide (parse_tokens tokens = None)) rs = bool_decide (parse_token_sets rs = None).
Proof.
  induction rs as [|r rs IH]; [done|]. cbn [existsb parse_token_sets]. rewrite IH.
  destruct (parse_tokens r); cbn [mbind option_bind]; [|done]. by destruct (parse_token_sets rs).
Qed.

Lemma fetch_flagged self dictionary ids : flagged (fetch self dictionary ids) false fails_in_trouble.
Proof.
  unfold fetch. cbn zeta. destruct (bool_decide _); [done|]. destruct (negb _); [done|].
  apply flagged_bind_honest; [|done]. apply flagged_timeout. apply flagged_bind_honest; [by apply flagged_redis|].
  intros _. apply flagged_bind. eapply flagged_mono.
  { apply (flagged_pipe_reads (fun tokens => bool_decide (parse_tokens tokens = None))). by apply Forall_fmap, Forall_forall. }
  intros b [rs|e|]; [intros ->|done..]. rewrite parse_token_sets_bad. by destruct (parse_token_sets rs).
Qed.

Lemma flagged_plain_reads {X R} (f : X -> cmd R) (xs : list X) :
  (forall x a, troubled (f x) (Ok a) = false) ->
  flagged (pipe_reads (E := IdListMembershipError) (f <$> xs)) false fails_in_trouble.
Proof.
  intros Hf. eapply flagged_mono; [apply (flagged_pipe_reads (fun _ => false)); apply Forall_fmap, Forall_forall; intros x _ a; apply Hf|].
  intros b [rs|e|]; [|done..]. intros ->. cbn. by induction rs.
Qed.

Lemma fetch_forward_flagged self ids visible : flagged (fetch_forward self ids visible) false fails_in_trouble.
Proof.
  unfold fetch_forward. destruct (_ || _); [done|]. apply flagged_timeout.
  apply flagged_bind_honest; [by apply flagged_redis|]. intros _.
  apply flagged_bind_honest; [by apply flagged_plain_reads|]. intros versions.
  cbn zeta. destruct (bool_decide _); [done|]. apply flagged_bind_honest; [|done].
  by apply flagged_plain_reads; intros [list version].
Qed.

Lemma fetch_visible_flagged self dictionary ids visible :
  flagged (fetch_visible self dictionary ids visible) false fails_in_trouble.
Proof.
  unfold fetch_visible. destruct (f_enable_reverse_index self); [|apply fetch_forward_flagged].
  apply flagged_bind_honest; [apply fetch_flagged|by intros []].
Qed.

Lemma fetcher_new_flagged schema skh config : flagged (fetcher_new schema skh config) false fails_in_trouble.
Proof.
  unfold fetcher_new. cbn zeta. destruct (mc_enable_reverse_index config); [|done].
  apply flagged_bind_honest; [|done]. unfold load_dictionary. apply flagged_timeout. unfold snapshot.
  apply flagged_bind_honest; [by apply flagged_redis|]. intros _. apply flagged_bind_honest; [by apply flagged_redis|done].
Qed.

(** A resolver always returns, an error exactly when it met trouble. *)
Definition resolved_honestly {E State} (b : bool)
    (out : outcome E (result IdListMembershipError ResolvedMemberships * State)) : Prop :=
  exists m st, out = Returned (m, st) /\ match m with Ok _ => b = false | Err _ => b = true end.

Lemma company_resolve_flagged `{Digest} `{HashOrder} self server_key reads refreshed cells ids :
  flagged (company_resolve self server_key reads refreshed cells ids) false resolved_honestly.
Proof.
  unfold company_resolve. destruct (company_scope reads server_key) as [company_hash|]; [|by do 2 eexists].
  apply flagged_bind. unfold initialize_fetcher.
  assert (forall fetcher dictionary, flagged
    (let cells := <[company_hash := dictionary]> cells in
     let visible := default ∅ (visible_lists (fetch_lists reads) server_key) in
     fetched ← attempt (F := redis_error) (fetch_visible fetcher (refreshed dictionary) ids (hash_set_iter visible));
     match fetched : result IdListMembershipError ResolvedMemberships with
     | Err e => Ret (Err e, cells)
     | Ok memberships => Ret (Ok (retain_visible (visible_after reads server_key company_hash) memberships), cells)
     end) false resolved_honestly) as Hfetch.
  { intros fetcher dictionary. cbn zeta. apply flagged_bind, flagged_attempt.
    eapply flagged_mono; [apply fetch_visible_flagged|]. intros b [m|e|]; cbn; [| |done]; intros ->; by do 2 eexists. }
  destruct (cells !! company_hash) as [dictionary|]; [apply Hfetch|].
  apply flagged_attempt. eapply flagged_mono; [apply fetcher_new_flagged|].
  intros b [[fetcher dictionary]|e|]; cbn [fails_in_trouble flagged]; [intros ->; apply Hfetch|intros ->; by do 2 eexists|done].
Qed.

Lemma encoded_status `{CompressLib} status data encodings : er_status (encoded status data encodings) = status.
Proof. unfold encoded. by destruct (compress_response_payload _ _). Qed.

(** The endpoint always answers; within the limit its status is 503 in trouble and 200 otherwise. *)
Lemma post_user_enrichment_flagged `{Digest} `{CompressLib} `{EnrichmentJson} {State} config context
    (resolve : list string -> prog redis_error (result IdListMembershipError ResolvedMemberships * State)) st request :
  (forall ids, flagged (resolve ids) false resolved_honestly) ->
  flagged (post_user_enrichment config context resolve st request) false (fun b out =>
    exists response st', out = Returned (response, st') /\
      er_status response =
        (if bool_decide (max_lookups config < N.of_nat (length (dedupe_lookup_ids (asked request))))%N then 413%N
         else if b then 503%N else 200%N)).
Proof.
  intros Hres. rewrite <- prepare_request_lookups. unfold post_user_enrichment.
  destruct (prepare_request request) as [[lookups unsupported] want]. cbn [fst].
  destruct (bool_decide (max_lookups config < _)%N).
  { do 2 eexists. split; [done|]. apply encoded_status. }
  apply flagged_bind. destruct (want && _).
  - eapply flagged_mono; [apply Hres|]. intros b out ([m|e] & st' & -> & ->); do 2 eexists; (split; [done|]); apply encoded_status.
  - do 2 eexists. split; [done|]. apply encoded_status.
Qed.
End Trouble.

(** ** Who may ask *)

Section GuardFacts.
Context `{Digest}.

(** Every key of the service is one of the configured keys, under its own name. *)
Definition service_ok (namespaces : IdListNamespaces) (self : UserEnrichmentService) : Prop :=
  forall server_key key, se_keys self !! server_key = Some key ->
  server_key ∈ ns_server_keys namespaces /\ kc_server_key key = server_key /\
  kc_key_hash key = hash_server_key server_key.

Lemma foldl_insert_lookup {A} (mk : string -> A) (l : list string) (m : gmap string A) k :
  foldl (fun keys k => <[k := mk k]> keys) m l !! k = if decide (k ∈ l) then Some (mk k) else m !! k.
Proof.
  revert m. induction l as [|x l IH]; intros m; cbn [foldl].
  { rewrite decide_False by apply not_elem_of_nil. done. }
  rewrite IH. destruct (decide (k ∈ l)) as [Hin|Hin]; [by rewrite decide_True by (by right)|].
  destruct (decide (k = x)) as [->|Hne].
  - rewrite lookup_insert_eq, decide_True by (by left). done.
  - rewrite lookup_insert_ne, decide_False by (rewrite ?elem_of_cons; naive_solver). done.
Qed.

Lemma service_from_redis_ok namespaces config now :
  service_ok namespaces (service_from_redis namespaces config now) /\
  forall server_key, is_Some (se_keys (service_from_redis namespaces config now) !! server_key) <->
    server_key ∈ ns_server_keys namespaces.
Proof.
  unfold service_ok, service_from_redis. cbn [se_keys].
  split.
  - intros k key. rewrite foldl_insert_lookup, lookup_empty. destruct (decide _); [by intros [= <-]|done].
  - intros k. rewrite foldl_insert_lookup, lookup_empty. destruct (decide _); by split.
Qed.

(** What the guard decides, from the service and the headers. *)
Definition admits (self : UserEnrichmentService) (server_key : string) (now : N) : Prop :=
  forall key limiter, se_keys self !! server_key = Some key -> kc_rate_limiter key = Some limiter ->
  (limiter_try_acquire limiter now).1 = true.

Lemma guard_cases namespaces self hs now out service' :
  service_ok namespaces self ->
  enrichment_from_request (Some self) hs now = (out, service') ->
  (exists self', service' = Some self' /\ service_ok namespaces self' /\ se_config self' = se_config self) /\
  match out with
  | GuardSuccess context =>
      exists server_key, get_one "statsig-api-key" hs = Some server_key /\
        server_key ∈ ns_server_keys namespaces /\ kc_server_key (uc_key context) = server_key /\
        is_Some (se_keys self !! server_key) /\ admits self server_key now
  | GuardError status =>
      (status = 401%N /\ forall server_key, get_one "statsig-api-key" hs = Some server_key -> se_keys self !! server_key = None) \/
      (status = 429%N /\ exists server_key, get_one "statsig-api-key" hs = Some server_key /\ ~ admits self server_key now)
  end.
Proof.
  intros Hok. cbn [enrichment_from_request]. destruct (get_one "statsig-api-key" hs) as [k|] eqn:Ek.
  2:{ intros [= <- <-]. split; [eauto|]. by left. }
  destruct (se_keys self !! k) as [key|] eqn:El.
  2:{ intros [= <- <-]. split; [eauto|]. left. split; [done|]. by intros ? [= <-]. }
  destruct (Hok k key El) as (Hin & Hkey & Hhash). destruct (kc_rate_limiter key) as [limiter|] eqn:Er.
  2:{ intros [= <- <-]. split; [eauto|]. exists k. cbn [uc_key]. split_and!; [done..|by rewrite El|]. intros key' limiter Hk Hlim.
      congruence. }
  destruct (limiter_try_acquire limiter now) as [granted limiter'] eqn:Et. intros Heq.
  assert (exists self', service' = Some self' /\ service_ok namespaces self' /\ se_config self' = se_config self) as Hs.
  { exists (with_limiter k limiter' self). split_and!; [by destruct granted; simplify_eq/=| |done].
    intros k' key'. cbn [with_limiter se_keys]. destruct (decide (k = k')) as [<-|Hne].
    - rewrite lookup_alter_eq, El. by intros [= <-].
    - rewrite lookup_alter_ne by done. apply Hok. }
  split; [done|]. destruct granted; simplify_eq/=.
  - exists (kc_server_key key). split_and!; [done..|by rewrite El|]. intros key' lim' Hk Hlim.
    assert (lim' = limiter) as -> by congruence. by rewrite Et.
  - right. split; [done|]. exists (kc_server_key key). split; [done|]. intros Ha. specialize (Ha key limiter El Er). by rewrite Et in Ha.
Qed.
End GuardFacts.

(** ** From the request to the answer *)

Section EndToEnd.
Context `{ScanOrder} `{Digest} `{HashOrder} `{CompressLib} `{EnrichmentJson}.

(** C10: A user's ID lists are only told to a configured key that is within its rate,
    and only those the key sees: a request without a known key is refused with 401, one
    over the limit with 429, and every other one is answered: with 413 exactly when the
    distinct identifiers are too many (and Redis is left alone); else with 503 exactly when,
    in this run, a Redis command failed, a timeout expired or a member set held something
    else than tokens; and else with 200 and every identifier asked for, explicitly or
    through the hash of a user's IDs, and no other; its lists are sorted, without
    duplicates, and each is visible to the asking key after the reads, in the company the
    key had before them. *)
Theorem enrichment_end_to_end env namespaces self hs now out service' pool reads refreshed cells request :
  service_ok namespaces self ->
  enrichment_from_request (Some self) hs now = (out, service') ->
  match out with
  | GuardError status =>
      (status = 401%N /\ forall server_key, get_one "statsig-api-key" hs = Some server_key -> se_keys self !! server_key = None) \/
      (status = 429%N /\ exists server_key, get_one "statsig-api-key" hs = Some server_key /\ ~ admits self server_key now)
  | GuardSuccess context =>
      exists server_key,
        get_one "statsig-api-key" hs = Some server_key /\ server_key ∈ ns_server_keys namespaces /\
        is_Some (se_keys self !! server_key) /\ admits self server_key now /\
        forall ks trouble answer ks',
          observed env (post_user_enrichment (se_config self) context
            (company_resolve pool (kc_server_key (uc_key context)) reads refreshed cells) cells request)
            ks trouble answer ks' ->
          exists response cells', answer = Returned (response, cells') /\
          if bool_decide (max_lookups (se_config self) < N.of_nat (length (dedupe_lookup_ids (asked request))))%N
          then response = enrichment_error 413 "too many id list lookups" (uc_encodings context) /\ ks' = ks
          else if trouble then response = enrichment_error 503 "id list resolution unavailable" (uc_encodings context)
          else exists r, response = enrichment_json 200 r (uc_encodings context) /\
                 answers_request (still_visible server_key reads) request r
  end.
Proof.
  intros Hok Hg. destruct (guard_cases namespaces self hs now out service' Hok Hg) as [_ Hout].
  destruct out as [status|context]; [done|].
  destruct Hout as (k & Hk & Hin & Hkey & Hknown & Hadm). exists k. split_and!; [done..|]. rewrite Hkey.
  intros ks trouble answer ks' Hobs.
  destruct (flagged_adequate env _ false _ ks trouble answer ks' (post_user_enrichment_flagged (se_config self) context
    (company_resolve pool k reads refreshed cells) cells request
    (company_resolve_flagged pool k reads refreshed cells)) Hobs) as (response & cells' & -> & Hstatus).
  exists response, cells'. split; [done|].
  pose proof (proj2 (observed_runs env _ ks (Returned (response, cells')) ks') (ex_intro _ trouble Hobs)) as Hrun.
  pose proof (wp_adequate _ _ _ _ _ _ (post_user_enrichment_spec env (still_visible k reads)
    (company_resolve pool k reads refreshed cells) (se_config self) context cells request ks) Hrun response cells' eq_refl) as Hspec.
  cbn zeta in Hspec. destruct (bool_decide _); [by destruct Hspec as (? & _ & ?)|]. cbn [orb] in Hstatus.
  destruct Hspec as [->|(r & -> & Hr)]; unfold enrichment_error, enrichment_json in Hstatus; rewrite encoded_status in Hstatus;
    destruct trouble; [done|done|done|by exists r].
Qed.

(** The namespaces do not change during a lookup. *)
Definition same_reads (namespaces : IdListNamespaces) : resolve_reads :=
  {| scope_company := namespaces; scope_lists := namespaces; fetch_lists := namespaces;
     answer_company := namespaces; answer_lists := namespaces |}.

Lemma hash_set_iter_elem (s : gset string) name : name ∈ hash_set_iter s <-> name ∈ s.
Proof.
  unfold hash_set_iter. rewrite list_elem_of_fmap. setoid_rewrite hash_iter_perm. setoid_rewrite elem_of_map_to_list'.
  setoid_rewrite lookup_gset_to_gmap_Some. split; [by intros ([] & -> & ? & _)|]. intros Hin. by exists (name, tt).
Qed.

(** While the manifest of the key, its company's identity and the keys that are read
    stay as they are, a lookup that succeeds answers each identifier with exactly the
    visible lists it belongs to: by the tokens of its member set when the reverse index
    is on, by the serving generation of each list when it is off. *)
Theorem company_resolve_exact env pool server_key namespaces refreshed cells ids ks r cells' ks' company_hash visible dictionary :
  namespace_for_key namespaces server_key = Some company_hash ->
  visible_lists namespaces server_key = Some visible -> visible <> ∅ ->
  cells !! company_hash = Some dictionary ->
  let fetcher := fetcher_of pool company_hash in
  stable env (visible_same fetcher (hash_set_iter visible) ks) ->
  stable env (members_same fetcher ids ks) ->
  runs env (company_resolve pool server_key (same_reads namespaces) refreshed cells ids) ks (Returned (Ok r, cells')) ks' ->
  (forall id, is_Some (r !! id) <-> id ∈ ids) /\
  forall id name, id ∈ ids -> listed r id name <->
    name ∈ visible /\
    if mc_enable_reverse_index (cp_config pool)
    then named fetcher (refreshed dictionary) ks id name else serves fetcher ks name id.
Proof.
  intros Hns Hv Hne Hcell fetcher Hvs Hms Hrun.
  assert (wp env (fetch_visible fetcher (refreshed dictionary) ids (hash_set_iter visible)) (fun out _ =>
    forall r, out = Returned r -> (forall id, is_Some (r !! id) <-> id ∈ ids) /\
    forall id name, id ∈ ids -> name ∈ visible -> listed r id name <->
      if mc_enable_reverse_index (cp_config pool)
      then named fetcher (refreshed dictionary) ks id name else serves fetcher ks name id) ks) as Hwp.
  { unfold fetch_visible. cbn [fetcher fetcher_of f_enable_reverse_index].
    destruct (mc_enable_reverse_index (cp_config pool)) eqn:Em.
    - apply wp_bind. eapply wp_mono; [apply (wp_fetch fetcher env (refreshed dictionary) ids ks Hms); exact Em|].
      intros [[r1 ts]|e|] ks1 Hq; [|done..]. intros r0 [= <-]. destruct (Hq _ eq_refl) as (Hd & Hl & _).
      split; [apply Hd|]. intros id name Hid _. by apply Hl.
    - eapply wp_mono; [apply (wp_fetch_forward fetcher env (hash_set_iter visible) ks Hvs); apply dedupe_from_NoDup|].
      intros [r1|e|] ks1 Hq; [|done..]. intros r0 [= <-]. destruct (Hq _ eq_refl) as [Hd Hl].
      split; [intros id; etrans; [apply Hd|apply elem_of_dedupe]|]. intros id name Hid Hname.
      rewrite Hl by (by apply elem_of_dedupe). rewrite hash_set_iter_elem. tauto. }
  assert (wp env (company_resolve pool server_key (same_reads namespaces) refreshed cells ids) (fun out _ =>
    forall r c, out = Returned (Ok r, c) -> (forall id, is_Some (r !! id) <-> id ∈ ids) /\
    forall id name, id ∈ ids -> listed r id name <->
      name ∈ visible /\
      if mc_enable_reverse_index (cp_config pool)
      then named fetcher (refreshed dictionary) ks id name else serves fetcher ks name id) ks) as Hres.
  2:{ exact (wp_adequate _ _ _ _ _ _ Hres Hrun r cells' eq_refl). }
  unfold company_resolve, company_scope, initialize_fetcher. cbn [same_reads scope_company scope_lists fetch_lists].
  rewrite Hns, Hv, bool_decide_eq_false_2, Hcell by done. fold fetcher.
  apply wp_bind. cbn [wp default]. apply wp_bind, wp_attempt. eapply wp_mono; [exact Hwp|].
  intros [memberships|e|] ks1 Hq; [|by intros ? ? ?|done]. intros r0 c [= <- <-].
  destruct (Hq memberships eq_refl) as [Hd Hl]. unfold visible_after. cbn [same_reads answer_company answer_lists].
  rewrite bool_decide_eq_true_2, Hv by done. cbn [default].
  destruct (retain_visible_spec visible memberships) as [Hd' Hl'].
  split; [intros id; by rewrite Hd'|]. intros id name Hid. rewrite Hl'. specialize (Hl id name Hid). tauto.
Qed.
End EndToEnd.

(** ** An example *)

#[local] Existing Instances Namespaces.toy_digest Namespaces.list_order.

Module EnrichmentExample.
#[export] Instance no_compression : CompressLib := {| gzip_compress _ := None; brotli_compress _ := None |}.
#[export] Instance sized_json : EnrichmentJson := {| response_json r := Some (show_u64 (N.of_nat (size (id_lists r)))) |}.
Definition namespaces : IdListNamespaces := {|
  ns_company_ids := {| cid_server_keys := {["k1"]}; company_ids := {["k1" := "acme"]} |};
  ns_server_keys := ["k1"];
  ns_manifests := {["k1" := {["l" := entry_of "l" "f" 10 1]}]} |}.
Definition service : UserEnrichmentService :=
  service_from_redis namespaces {| max_lookups := 2; rate_limit_rps_per_key := 1 |} 0.
Definition pool : CompanyMembershipPool := {|
  cp_schema := LookupExample.sch;
  cp_config := {| mc_enable_reverse_index := false; pool_size := 1; read_uri := None; fetch_timeout_ms := 50;
                  dict_refresh_interval_s := 60 |} |}.
Definition skh : string := hash_company_id "acme".
Definition ks : keyspace :=
  {[state_key LookupExample.sch skh "l" := {| val := VHash LookupExample.state; ttl := None |};
    fwd_key LookupExample.sch skh "l" "v1" := {| val := VSet {["x"]}; ttl := None |}]}.
Definition no_dict : DictSnapshot := {| name_to_token := ∅; token_to_name := ∅ |}.
Definition cells : gmap string DictSnapshot := {[skh := no_dict]}.
Definition resolve := company_resolve pool "k1" (same_reads namespaces) id cells.
Definition resolved := eval LookupExample.no_http (resolve ["x"; "y"]) ks.
Definition answer : ResolvedMemberships := {["x" := {["l"]}; "y" := ∅]}.
Definition request : UserEnrichmentRequest := {| id_list_lookups := ["x"; "x"]; user := None; enrichments := None |}.
Definition headers : list (string * string) := [("statsig-api-key", "k1")].
Definition context : UserEnrichmentRequestContext :=
  {| uc_key := key_context {| max_lookups := 2; rate_limit_rps_per_key := 1 |} 0 "k1"; uc_encodings := [] |}.
Definition answered := eval LookupExample.no_http (post_user_enrichment (se_config service) context resolve cells request) ks.
End EnrichmentExample.
#[local] Existing Instances EnrichmentExample.no_compression EnrichmentExample.sized_json.
Import EnrichmentExample.

Lemma company_resolve_exact_witness : listed answer "x" "l" <-> "l" ∈ ({["l"]} : gset string) /\ serves (fetcher_of pool skh) ks "l" "x".
Proof.
  assert (runs LookupExample.quiet (resolve ["x"; "y"]) ks (Returned (Ok answer, cells)) resolved.2) as Hrun.
  { replace (Returned (Ok answer, cells)) with resolved.1 by (vm_compute; reflexivity). by apply eval_runs. }
  destruct (company_resolve_exact LookupExample.quiet pool "k1" namespaces id cells ["x"; "y"] ks answer cells resolved.2
    skh {["l"]} no_dict) as [_ Hexact]; [reflexivity|vm_compute; reflexivity|done|vm_compute; reflexivity|..].
  - apply LookupExample.quiet_stable.
  - apply LookupExample.quiet_stable.
  - exact Hrun.
  - exact (Hexact "x" "l" (list_elem_of_here _ _)).
Defined.

Lemma enrichment_end_to_end_witness :
  exists r, answered.1 = Returned (enrichment_json 200 r [], cells) /\
    answers_request (still_visible "k1" (same_reads namespaces)) request r.
Proof.
  assert (exists r, answered.1 = Returned (enrichment_json 200 r [], cells)) as [r0 Hans].
  { exists {| id_lists := {["x" := ["l"]]}; unsupported_enrichments := [] |}. vm_compute. reflexivity. }
  assert (runs LookupExample.quiet (post_user_enrichment (se_config service) context resolve cells request) ks
            (Returned (enrichment_json 200 r0 [], cells)) answered.2) as Hrun.
  { rewrite <- Hans. by apply eval_runs. }
  edestruct (enrichment_end_to_end LookupExample.quiet namespaces service headers 0
    (GuardSuccess context) (enrichment_from_request (Some service) headers 0).2 pool (same_reads namespaces) id cells request)
    as (k & Hk & _ & _ & _ & Hspec); [apply service_from_redis_ok|vm_compute; reflexivity|].
  injection Hk as <-. apply observed_runs in Hrun as [trouble Hobs].
  destruct (Hspec ks trouble _ _ Hobs) as (response & cells' & Heq & Hcase). injection Heq as <- <-.
  replace (bool_decide _) with false in Hcase by (vm_compute; reflexivity).
  destruct trouble; [exfalso; revert Hcase; vm_compute; discriminate|].
  destruct Hcase as (r & Hr & Hok). exists r. split; [by rewrite Hans, Hr|exact Hok].
Defined.
