(* ===== verification/RedisCache.v ===== *)
(** * RedisCache: the backup of responses in Redis

    Models [src/src/datastore/caching/redis_cache.rs] and [disabled_cache.rs]: which keys a
    payload is kept under, which pod may write it, what a read returns when the origin
    cannot be reached, and how an entry is kept alive while its config does not change.
    Every operation returns the events it publishes. *)
From S2P Require Import Prelude Encoding Request Schema Effects Namespaces Membership Backoff Stores SpecDeltas RedisAuth RedisPool.

Record ActiveCacheKeys := { ak_keys : list string; ak_lcut : N }.

(** [rc_connected]: is there a pool? *)
Record RedisCache := {
  rc_connected : bool;
  rc_uuid : string;
  rc_leader_key_ttl : Z;
  rc_check_lcut : bool;
  rc_ttl_in_s : Z;
  rc_double_write : bool;
  rc_key_prefix : string;
}.
Record cache_state := {
  hash_cache : gmap string string;
  active_cache_keys : gmap context_id ActiveCacheKeys;
}.

Definition REDIS_LEADER_KEY : string := "statsig_forward_proxy::leader".

Inductive CacheEvent :=
| ReadMiss | ReadSucceed | ReadFailed
| TtlRefreshed | TtlRefreshMissed | TtlRefreshFailed
| WriteSucceed | WriteFailed | WriteSkipped
| DeleteSucceed | DeleteFailed.
#[export] Instance CacheEvent_eq : EqDecision CacheEvent.
Proof. solve_decision. Defined.

(** The task dies: a string is cut inside a character. *)
Inductive panic := Panicked.

(** [RedisCache::new]; a malformed configuration ends the process. *)
Definition redis_cache_new (pool : result RedisPoolError pool_settings) (prefix uuid : string)
    (leader_key_ttl : Z) (check_lcut : bool) (ttl_in_s : Z) (double_write : bool) : option RedisCache :=
  let with_connection connected := Some {|
    rc_connected := connected; rc_uuid := uuid; rc_leader_key_ttl := leader_key_ttl; rc_check_lcut := check_lcut;
    rc_ttl_in_s := ttl_in_s; rc_double_write := double_write; rc_key_prefix := prefix |} in
  match pool with
  | Ok _ => with_connection true
  | Err (Build _) | Err (OauthToken _) => with_connection false
  | Err _ => None
  end.

(** ** Keys *)

Section Keys.
Context `{Digest} (self : RedisCache).

Definition prefixed_key (key : string) : string := apply_key_prefix (rc_key_prefix self) key.
Definition leader_key : string := prefixed_key REDIS_LEADER_KEY.

(** [String::truncate] panics when the length is not at the border of a character. *)
Definition truncate (n : nat) (s : string) : option string :=
  match String.get n s with
  | None => Some s
  | Some c => if is_char_start c then Some (String.substring 0 n s) else None
  end.

Definition hash_key (key : string) (cache : gmap string string) : string * gmap string string :=
  match cache !! key with
  | Some hashed => (hashed, cache)
  | None => let hashed := sha256_base64 key in (hashed, <[key := hashed]> cache)
  end.

Definition cache_key_of (context : AuthorizedRequestContext) (encoding : CompressionEncoder) (sdk_key : string) : string :=
  prefixed_key ("statsig|" +:+ trim_end_matches "/" (path_str (path context)) +:+ "|" +:+ encoder_str encoding
                +:+ "|" +:+ sdk_key).

Definition get_redis_key (context : AuthorizedRequestContext) (payload : option ResponsePayload) (use_legacy : bool)
    (cache : gmap string string) : option (string * gmap string string) :=
  let encoding :=
    match payload with
    | Some payload => if use_proto payload then StatsigBrotli else PlainText
    | None => PlainText
    end in
  if use_legacy then
    let '(hashed, cache) := hash_key (sdk_key context) cache in Some (cache_key_of context encoding hashed, cache)
  else
    sdk_key_prefix ← truncate 20 (sdk_key context);
    Some (cache_key_of context encoding sdk_key_prefix, cache).

Definition get_redis_keys_for_payload (context : AuthorizedRequestContext) (payload : ResponsePayload)
    (cache : gmap string string) : option (list string * gmap string string) :=
  '(key, cache) ← get_redis_key context (Some payload) false cache;
  if rc_double_write self then
    '(legacy, cache) ← get_redis_key context (Some payload) true cache;
    Some ([key; legacy], cache)
  else Some ([key], cache).
End Keys.

(** ** Operations *)

Section Operations.
Context `{Digest} `{PayloadLib} `{CompressLib} (self : RedisCache).

(** [i64 as i32] *)
Definition as_i32 (z : Z) : Z := ((z + 2 ^ 31) mod 2 ^ 32 - 2 ^ 31)%Z.

Definition refresh_ttl (redis_keys : list string) (expected_lcut : N) : prog panic CacheEvent :=
  if bool_decide (redis_keys = []) then Ret TtlRefreshMissed
  else
    result ← attempt (E := redis_error) (pipe_reads
      ((fun key => REFRESH_TTL_SCRIPT key (show_u64 expected_lcut) (rc_ttl_in_s self)) <$> redis_keys));
    Ret match result with
        | Ok refreshed =>
            if bool_decide (length refreshed = length redis_keys) && forallb (fun r => bool_decide (r = 1%Z)) refreshed
            then TtlRefreshed else TtlRefreshMissed
        | Err _ => TtlRefreshFailed
        end.

(** What is written: JSON uncompressed, everything else as it came. *)
Definition data_to_write (payload : ResponsePayload) : option string :=
  match encoding payload with
  | Gzip => gunzip (data payload)
  | Brotli => brotli_decompress (data payload)
  | PlainText | StatsigBrotli | Deflate | Compress | Identity | Zstd => Some (data payload)
  end.

(** The commands of the election, as they are queued in the pipeline. *)
Definition election (redis_key : string) : list tcmd :=
  let leader := leader_key self in
  [T_TTL leader; T_SETNX leader (rc_uuid self); T_GET leader; T_HGET redis_key "lcut"].

(** The replies at the types the code asks for: the age of the leader key, its holder
    and the stored version. *)
Definition election_replies (r : result redis_error (list treply)) : option (Z * string * option string) :=
  match r with
  | Ok [RInt ttl; RInt _; RBulk (Some holder); RBulk stored] => Some (as_i32 ttl, holder, stored)
  | _ => None
  end.

(** May this pod write the version? *)
Definition wins (holder : string) (stored : option string) (lcut : N) : bool :=
  let is_leader := bool_decide (holder = rc_uuid self) in
  if rc_check_lcut self then
    is_leader && match stored ≫= parse_u64 with Some existing => bool_decide (existing < lcut)%N | None => true end
  else is_leader.

(** The pipeline is never cleared: each query sends again what was queued before. *)
Definition write_commands (redis_key : string) (queued : list tcmd) (lcut : N) (data : string) : list tcmd :=
  queued ++
  [T_WRITE (HSET redis_key [("encoding", "plain_text")]);
   T_WRITE (HSET redis_key [("lcut", show_u64 lcut)]);
   T_WRITE (HSET redis_key [("config", data)]);
   T_WRITE (EXPIRE redis_key (rc_ttl_in_s self));
   T_WRITE (EXPIRE (leader_key self) (rc_leader_key_ttl self))].

(** The election: whether to write, and what is queued by then. *)
Definition elect (redis_key : string) (lcut : N) : prog panic (bool * list tcmd) :=
  let queued := election redis_key in
  reply ← attempt (E := redis_error) (redis (EXEC queued));
  match election_replies reply with
  | None => Ret (false, queued)
  | Some (ttl, holder, stored) =>
      if bool_decide (ttl = -1)%Z && negb (bool_decide (holder = rc_uuid self)) then
        let queued := queued ++ [T_WRITE (EXPIRE (leader_key self) (rc_leader_key_ttl self))] in
        _ ← attempt (E := redis_error) (redis (EXEC queued));
        Ret (wins holder stored lcut, queued)
      else Ret (wins holder stored lcut, queued)
  end.

Definition update_impl (redis_key : string) (result : DataProviderRequestResult) (context : AuthorizedRequestContext)
    (lcut : N) (payload : ResponsePayload) : prog panic (list CacheEvent) :=
  match result with
  | DataAvailable =>
      if negb (rc_connected self) then Ret []
      else
        connection ← attempt (E := redis_error) get_conn;
        match connection with
        | Err _ => Ret [WriteFailed]
        | Ok _ =>
            '(should_update, queued) ← elect redis_key lcut;
            if negb (use_lcut context) || should_update then
              match data_to_write payload with
              | None => Ret [WriteFailed]
              | Some data =>
                  written ← attempt (E := redis_error) (redis (EXEC (write_commands redis_key queued lcut data)));
                  Ret match written with Ok _ => [WriteSucceed] | Err _ => [WriteFailed] end
              end
            else
              event ← refresh_ttl [redis_key] lcut;
              Ret [event; WriteSkipped]
        end
  | Unauthorized =>
      if negb (rc_connected self) then Ret []
      else
        connection ← attempt (E := redis_error) get_conn;
        match connection with
        | Err _ => Ret [DeleteFailed]
        | Ok _ =>
            deleted ← attempt (E := redis_error) (write (DEL redis_key));
            Ret match deleted with Ok _ => [DeleteSucceed] | Err _ => [DeleteFailed] end
        end
  | _ => Ret []
  end.

Fixpoint update_keys (redis_keys : list string) (context : AuthorizedRequestContext) (response : ResponseContext)
    : prog panic (list CacheEvent) :=
  match redis_keys with
  | [] => Ret []
  | key :: redis_keys =>
      events ← update_impl key (result_type response) context (lcut response) (body response);
      rest ← update_keys redis_keys context response;
      Ret (events ++ rest)
  end.

Definition cache_update (context : AuthorizedRequestContext) (response : ResponseContext) (st : cache_state)
    : prog panic (cache_state * list CacheEvent) :=
  match get_redis_keys_for_payload self context (body response) (hash_cache st) with
  | None => Throw Panicked
  | Some (redis_keys, hashes) =>
      let active :=
        if bool_decide (result_type response = DataAvailable)
        then <[hash_input context := {| ak_keys := redis_keys; ak_lcut := lcut response |}]> (active_cache_keys st)
        else active_cache_keys st in
      events ← update_keys redis_keys context response;
      Ret ({| hash_cache := hashes; active_cache_keys := active |}, events)
  end.

(** The replies of a read: the version, if any, and the config, empty when there is none. *)
Definition read_replies (r : result redis_error (list treply)) : option (option N * string) :=
  match r with
  | Ok [RBulk lcut; RBulk config] =>
      match lcut with
      | None => Some (None, default "" config)
      | Some s => n ← parse_u64 s; Some (Some n, default "" config)
      end
  | _ => None
  end.

Definition cached_config (context : AuthorizedRequestContext) (lcut : option N) (data : string)
    : option ConfigSpecForCompany :=
  if bool_decide (Gzip ∈ encodings context) then
    compressed ← gzip_compress data;
    if str_empty compressed then None
    else Some {| cs_lcut := default 0%N lcut;
                 cs_config := {| encoding := Gzip; use_proto := false; data := compressed |} |}
  else Some {| cs_lcut := default 0%N lcut;
               cs_config := {| encoding := PlainText; use_proto := false; data := data |} |}.

Definition cache_get (context : AuthorizedRequestContext) (st : cache_state)
    : prog panic (option ConfigSpecForCompany * list CacheEvent) :=
  if negb (rc_connected self) then Ret (None, [])
  else
    connection ← attempt (E := redis_error) get_conn;
    match get_redis_key self context None false (hash_cache st) with
    | None => Throw Panicked
    | Some (redis_key, _) =>
        match connection with
        | Err _ => Ret (None, [ReadFailed])
        | Ok _ =>
            reply ← attempt (E := redis_error) (redis (EXEC [T_HGET redis_key "lcut"; T_HGET redis_key "config"]));
            Ret match read_replies reply with
                | None => (None, [ReadFailed])
                | Some (lcut, data) =>
                    if str_empty data then (None, [ReadMiss]) else (cached_config context lcut data, [ReadSucceed])
                end
        end
    end.

Definition cache_touch (context : AuthorizedRequestContext) (st : cache_state) : prog panic (list CacheEvent) :=
  let active := default {| ak_keys := []; ak_lcut := 0 |} (active_cache_keys st !! hash_input context) in
  if bool_decide (ak_keys active = []) then Ret []
  else if negb (rc_connected self) then Ret []
  else
    connection ← attempt (E := redis_error) get_conn;
    match connection with
    | Err _ => Ret [TtlRefreshFailed]
    | Ok _ => event ← refresh_ttl (ak_keys active) (ak_lcut active); Ret [event]
    end.
End Operations.

(** [DisabledCache]: nothing is kept. *)
Definition disabled_cache_get (_ : AuthorizedRequestContext) : option ConfigSpecForCompany := None.

(** ** Lemmas: keys *)

Lemma apply_key_prefix_inj prefix a b : apply_key_prefix prefix a = apply_key_prefix prefix b -> a = b.
Proof.
  unfold apply_key_prefix. destruct (str_empty _); [done|]. destruct (ends_with _ _).
  - apply str_app_inj_l.
  - intros Heq%str_app_inj_l. by apply str_app_inj_l in Heq.
Qed.

Lemma cache_key_not_leader self context encoding sdk_key :
  cache_key_of self context encoding sdk_key <> leader_key self.
Proof.
  unfold cache_key_of, leader_key, prefixed_key. intros Heq%apply_key_prefix_inj.
  unfold REDIS_LEADER_KEY in Heq. change ("statsig|" +:+ ?r) with (String "s" (String "t" (String "a" (String "t"
    (String "s" (String "i" (String "g" (String "|" r)))))))) in Heq. discriminate.
Qed.

(** The cache of hashes holds hashes. *)
Definition hashes_ok `{Digest} (cache : gmap string string) : Prop :=
  forall key hashed, cache !! key = Some hashed -> hashed = sha256_base64 key.

Lemma hash_key_correct `{Digest} key cache :
  hashes_ok cache -> (hash_key key cache).1 = sha256_base64 key /\ hashes_ok (hash_key key cache).2.
Proof.
  unfold hash_key, hashes_ok. intros Hok. destruct (cache !! key) as [hashed|] eqn:E; cbn [fst snd]; [by auto|].
  split; [done|]. intros k h. destruct (decide (k = key)) as [->|Hne].
  - rewrite lookup_insert_eq. congruence.
  - rewrite lookup_insert_ne by done. apply Hok.
Qed.

(** ** Lemmas: transactions *)

Lemma exec_txn_app a b ks : exec_txn (a ++ b) ks = exec_txn b (exec_txn a ks).
Proof. unfold exec_txn. by rewrite foldl_app. Qed.

Lemma txn_replies_app a b ks rs :
  txn_replies (a ++ b) ks = Ok rs ->
  exists ra rb, txn_replies a ks = Ok ra /\ txn_replies b (exec_txn a ks) = Ok rb.
Proof.
  revert ks rs. induction a as [|c a IH]; intros ks rs; cbn [app txn_replies exec_txn foldl]; [eauto|].
  destruct ((exec_t c ks).1) as [r|e]; [|done]. destruct (txn_replies (a ++ b) _) as [rs'|e] eqn:E; [|done].
  intros _. destruct (IH _ _ E) as (ra & rb & -> & Hb). eauto.
Qed.

Lemma exec_hset k f v ks :
  exec_t (T_WRITE (HSET k [(f, v)])) ks =
    match as_hash ks k with
    | Some h => (Ok (RInt (Z.of_N (N.of_nat (size (({[f := v]} : gmap string string) ∖ h))))), put k (VHash (<[f := v]> h)) ks)
    | None => (Err WrongType, ks)
    end.
Proof.
  cbn [exec_t exec_w]. destruct (as_hash ks k) as [h|]; [|done]. cbn [foldl fst snd list_to_map foldr uncurry].
  unfold put_hash. rewrite decide_False by apply insert_non_empty. done.
Qed.

Lemma as_hash_put k h ks : as_hash (put k (VHash h) ks) k = Some h.
Proof. unfold as_hash, put. by rewrite lookup_insert_eq. Qed.

(** The three fields of an entry. *)
Definition with_entry (lcut : N) (data : string) (h : gmap string string) : gmap string string :=
  <["config" := data]> (<["lcut" := show_u64 lcut]> (<["encoding" := "plain_text"]> h)).

(** Nobody has a deadline in the past. *)
Record cache_ok (self : RedisCache) : Prop := {
  ttl_pos : (0 < rc_ttl_in_s self)%Z;
  leader_ttl_pos : (0 < rc_leader_key_ttl self)%Z;
}.

Section Writes.
Context (self : RedisCache) (Hok : cache_ok self) (key : string) (Hkey : key <> leader_key self).

Abbreviation hsets lcut d := [T_WRITE (HSET key [("encoding", "plain_text")]);
  T_WRITE (HSET key [("lcut", show_u64 lcut)]); T_WRITE (HSET key [("config", d)]);
  T_WRITE (EXPIRE key (rc_ttl_in_s self)); T_WRITE (EXPIRE (leader_key self) (rc_leader_key_ttl self))].

Lemma exec_expire_other k t ks k' : k <> k' -> (exec_t (T_WRITE (EXPIRE k t)) ks).2 !! k' = ks !! k'.
Proof. intros Hne. apply exec_t_frame. cbn. set_solver. Qed.

(** What the write leaves at the key. *)
Lemma write_effect lcut d ks h :
  as_hash ks key = Some h ->
  exec_txn (hsets lcut d) ks !! key =
    Some {| val := VHash (with_entry lcut d h); ttl := Some (Z.to_N (rc_ttl_in_s self)) |}.
Proof.
  intros Hh. unfold exec_txn. cbn [foldl]. rewrite !exec_hset, Hh. cbn [snd]. rewrite as_hash_put. cbn [snd].
  rewrite as_hash_put. cbn [snd]. rewrite exec_expire_other by done.
  set (ks1 := put key _ _). assert (exists t, ks1 !! key = Some {| val := VHash (with_entry lcut d h); ttl := t |}) as [t Ht].
  { unfold ks1, put. eexists. by rewrite lookup_insert_eq. }
  cbn [exec_t exec_w snd]. unfold expire. rewrite Ht. cbn [val]. destruct Hok as [Hpos _].
  rewrite bool_decide_eq_true_2 by done. by rewrite lookup_insert_eq.
Qed.

(** A value that is no hash only gets a deadline. *)
Lemma write_foreign lcut d ks :
  as_hash ks key = None ->
  exec_txn (hsets lcut d) ks !! key = (fun e => {| val := val e; ttl := Some (Z.to_N (rc_ttl_in_s self)) |}) <$> ks !! key.
Proof.
  intros Hh. unfold exec_txn. cbn [foldl]. rewrite !exec_hset, Hh. cbn [snd]. rewrite Hh. cbn [snd]. rewrite Hh. cbn [snd].
  rewrite exec_expire_other by done. cbn [exec_t exec_w snd]. unfold expire. destruct (ks !! key) as [e|] eqn:Ek; [|by rewrite Ek].
  destruct Hok as [Hpos _]. rewrite bool_decide_eq_true_2 by done. by rewrite lookup_insert_eq.
Qed.

(** The write is refused when the key is no hash. *)
Lemma write_replies lcut d ks rs : txn_replies (hsets lcut d) ks = Ok rs -> is_Some (as_hash ks key).
Proof.
  cbn [txn_replies]. rewrite exec_hset. destruct (as_hash ks key) as [h|]; [eauto|done].
Qed.

(** The election and the deadline of the leader key leave other keys alone. *)
Lemma queued_frame queued ks :
  Forall (fun c => forall k, k ∈ tcmd_keys c -> k = leader_key self) queued -> exec_txn queued ks !! key = ks !! key.
Proof.
  intros Hq. apply exec_txn_frame. intros Hin. apply list_elem_of_bind in Hin as (c & Hk & Hc).
  rewrite Forall_forall in Hq. by apply Hkey, (Hq c Hc).
Qed.
End Writes.

(** ** What an update does to an entry *)

Section Updates.
Context `{ScanOrder} `{Digest} `{PayloadLib} `{CompressLib} (env : environment).
Context (self : RedisCache) (Hok : cache_ok self) (key : string) (Hkey : key <> leader_key self).

(** A command whose outcome the code looks at. *)
Lemma wp_try {F R} (c : cmd R) (Q : outcome F (result redis_error R) -> keyspace -> Prop) ks :
  (forall ks1 r ks2, rely env ks ks1 -> contract c ks1 r ks2 -> Q (Returned r) ks2) ->
  wp env (attempt (E := redis_error) (redis c)) Q ks.
Proof. intros HQ ks1 r ks2 Hr Hc. specialize (HQ ks1 r ks2 Hr Hc). by destruct r. Qed.

Lemma wp_try_conn {F A} (f : result redis_error unit -> prog F A) Q (P : keyspace -> Prop) ks :
  stable env P -> P ks -> (forall r ks', P ks' -> wp env (f r) Q ks') ->
  wp env (attempt (E := redis_error) get_conn ≫= f) Q ks.
Proof.
  intros HS HP Hf. apply wp_bind, wp_try. intros ks1 r ks2 Hr Hc. apply contract_read in Hc as ->; [|done].
  apply Hf. by eapply HS.
Qed.

(** What is queued writes the leader key only. *)
Definition leader_only (queued : list tcmd) : Prop :=
  Forall (fun c => forall k, k ∈ tcmd_keys c -> k = leader_key self) queued.

Lemma election_leader_only : leader_only (election self key).
Proof. clear. repeat constructor; cbn; set_solver. Qed.
Lemma election_expire_leader_only :
  leader_only (election self key ++ [T_WRITE (EXPIRE (leader_key self) (rc_leader_key_ttl self))]).
Proof. clear. apply Forall_app. split; [apply election_leader_only|]. repeat constructor; cbn; set_solver. Qed.

Lemma exec_leader_only queued r ks ks' :
  leader_only queued -> contract (EXEC queued) ks r ks' -> ks' !! key = ks !! key.
Proof.
  intros Hq Hc. eapply contract_frame; [exact Hc|]. cbn [cmd_keys]. intros Hin.
  apply list_elem_of_bind in Hin as (c & Hk & Hc'). unfold leader_only in Hq. rewrite Forall_forall in Hq.
  by apply Hkey, (Hq c Hc').
Qed.

(** The entry of the key, seen by a predicate others respect. *)
Definition entry_is (e : option entry) (ks : keyspace) : Prop := ks !! key = e.

(** The replies of an election that was held. *)
Lemma election_reply ks r ks' ttl holder stored :
  contract (EXEC (election self key)) ks r ks' -> election_replies r = Some (ttl, holder, stored) ->
  stored = hash_at ks key !! "lcut".
Proof.
  unfold contract. cbn [exec]. intros [[-> _]|[[e ->] _]]; [|done]. cbn [election txn_replies exec_t fst snd].
  set (ks1 := match ks !! leader_key self with Some _ => _ | None => _ end).
  assert (ks1.2 !! key = ks !! key) as Hk.
  { unfold ks1. destruct (ks !! leader_key self); cbn [snd]; [done|]. by rewrite lookup_insert_ne. }
  replace (fst ks1) with (Ok (E := redis_error) (RInt (match ks !! leader_key self with Some _ => 0 | None => 1 end)))
    by (unfold ks1; by destruct (ks !! leader_key self)).
  unfold reply_of. destruct (as_str _ _) as [v|]; cbn [fst snd fmap result_fmap]; [|done].
  rewrite (hash_at_ext ks ks1.2) by done. unfold hash_at.
  destruct (as_hash ks1.2 key) as [h|]; cbn [fst snd fmap result_fmap default]; [|done].
  destruct v as [v|]; [|done]. by intros [= _ _ <-].
Qed.

(** The election leaves the entry alone, and a pod that may write a version it checks
    saw an older one. *)
Lemma wp_elect e lcut ks :
  stable env (entry_is e) -> entry_is e ks ->
  wp env (elect self key lcut) (fun out ks' => forall should queued, out = Returned (should, queued) ->
    entry_is e ks' /\ leader_only queued /\
    (should = true -> rc_check_lcut self = true ->
     forall existing, hash_at ks key !! "lcut" ≫= parse_u64 = Some existing -> (existing < lcut)%N)) ks.
Proof.
  intros HS He. unfold elect. apply wp_bind, wp_try. intros ks1 r ks2 Hr Hc.
  assert (entry_is e ks1) as He1 by (by eapply HS).
  assert (entry_is e ks2) as He2.
  { unfold entry_is in *. by rewrite (exec_leader_only _ _ _ _ election_leader_only Hc). }
  destruct (election_replies r) as [[[ttl holder] stored]|] eqn:Er.
  2:{ intros should queued [= <- <-]. split_and!; [done|apply election_leader_only|done]. }
  pose proof (election_reply _ _ _ _ _ _ Hc Er) as Hst. rewrite (hash_at_ext ks1 ks) in Hst.
  2:{ unfold entry_is in *. congruence. }
  assert (wins self holder stored lcut = true -> rc_check_lcut self = true ->
    forall existing, hash_at ks key !! "lcut" ≫= parse_u64 = Some existing -> (existing < lcut)%N) as Hwins.
  { unfold wins. intros Hw Hcheck existing Hex. rewrite Hcheck in Hw. apply andb_true_iff in Hw as [_ Hw].
    rewrite Hst, Hex in Hw. by boolify. }
  destruct (_ && _); [|intros should queued [= <- <-]; split_and!; [done|apply election_leader_only|done]].
  apply wp_bind, wp_try. intros ks3 r' ks4 Hr' Hc'. intros should queued [= <- <-].
  split_and!; [|apply election_expire_leader_only|done].
  assert (entry_is e ks3) as He3 by (by eapply HS). unfold entry_is in *.
  by rewrite (exec_leader_only _ _ _ _ election_expire_leader_only Hc').
Qed.

(** Other clients leave the entry alone while an operation runs. *)
Definition undisturbed : Prop := forall ks ks1, rely env ks ks1 -> ks1 !! key = ks !! key.
Lemma undisturbed_stable e : undisturbed -> stable env (entry_is e).
Proof. intros Hu ks ks1 He Hr. unfold entry_is in *. by rewrite (Hu _ _ Hr). Qed.

(** How an operation may change the entry: not at all, a new deadline for the version
    it expects (or for a value that is no entry of this cache), or a new version. *)
Definition hash_of (e : option entry) : option (gmap string string) :=
  match e with
  | None => Some ∅
  | Some e => match val e with VHash h => Some h | _ => None end
  end.
Definition version_of (e : option entry) : option N := hash_of e ≫= fun h => h !! "lcut" ≫= parse_u64.

Inductive entry_change (lcut : N) (d : option string) (may_write : Prop) : option entry -> option entry -> Prop :=
| entry_kept e : entry_change lcut d may_write e e
| entry_renewed h t :
    h !! "lcut" = Some (show_u64 lcut) ->
    entry_change lcut d may_write (Some {| val := VHash h; ttl := t |})
      (Some {| val := VHash h; ttl := Some (Z.to_N (rc_ttl_in_s self)) |})
| entry_foreign v t :
    hash_of (Some {| val := v; ttl := t |}) = None -> may_write ->
    entry_change lcut d may_write (Some {| val := v; ttl := t |}) (Some {| val := v; ttl := Some (Z.to_N (rc_ttl_in_s self)) |})
| entry_written e h x :
    hash_of e = Some h -> d = Some x -> may_write ->
    entry_change lcut d may_write e
      (Some {| val := VHash (with_entry lcut x h); ttl := Some (Z.to_N (rc_ttl_in_s self)) |}).

(** The script renews the version it expects, or does nothing. *)
Lemma contract_refresh lcut ks r ks' :
  contract (REFRESH_TTL_SCRIPT key (show_u64 lcut) (rc_ttl_in_s self)) ks r ks' ->
  (ks' = ks /\ r <> Ok 1%Z) \/
  (exists h t, ks !! key = Some {| val := VHash h; ttl := t |} /\ h !! "lcut" = Some (show_u64 lcut) /\
     (ks' = ks /\ (exists e, r = Err e) \/
      ks' = <[key := {| val := VHash h; ttl := Some (Z.to_N (rc_ttl_in_s self)) |}]> ks)).
Proof.
  unfold contract. cbn [exec]. destruct (as_hash ks key) as [h|] eqn:Eh.
  2:{ intros [[-> ->]|[[e ->] [-> | ->]]]; by left. }
  destruct (decide (h !! "lcut" = Some (show_u64 lcut))) as [Hl|Hl].
  2:{ intros [[-> ->]|[[e ->] [-> | ->]]]; by left. }
  unfold as_hash in Eh. destruct (ks !! key) as [[v t]|] eqn:Ek; [|injection Eh as <-; by rewrite lookup_empty in Hl].
  cbn [val] in Eh. destruct v as [|h'| |]; [done| |done..]. injection Eh as ->.
  assert (expire key (rc_ttl_in_s self) ks = <[key := {| val := VHash h; ttl := Some (Z.to_N (rc_ttl_in_s self)) |}]> ks) as ->.
  { unfold expire. rewrite Ek. cbn [val]. destruct Hok as [Hpos _]. by rewrite bool_decide_eq_true_2. }
  intros Hc. right. exists h, t. split_and!; [done..|].
  destruct Hc as [[-> ->]|[He [-> | ->]]]; eauto.
Qed.

Lemma entry_change_refresh lcut d may_write ks r ks' :
  contract (REFRESH_TTL_SCRIPT key (show_u64 lcut) (rc_ttl_in_s self)) ks r ks' ->
  entry_change lcut d may_write (ks !! key) (ks' !! key).
Proof.
  intros [[-> _]|(h & t & Hk & Hl & [[-> _]| ->])]%contract_refresh; [apply entry_kept..|].
  rewrite lookup_insert_eq, Hk. by apply entry_renewed.
Qed.

Lemma hash_of_lookup ks : hash_of (ks !! key) = as_hash ks key.
Proof. done. Qed.

(** The write, executed or failed. *)
Lemma entry_change_write lcut d queued may_write ks r ks' :
  leader_only queued -> (may_write : Prop) ->
  contract (EXEC (write_commands self key queued lcut d)) ks r ks' ->
  entry_change lcut (Some d) may_write (ks !! key) (ks' !! key) /\
  (forall rs, r = Ok rs -> exists h, hash_of (ks !! key) = Some h /\
     ks' !! key = Some {| val := VHash (with_entry lcut d h); ttl := Some (Z.to_N (rc_ttl_in_s self)) |}).
Proof.
  intros Hq Hmay. unfold contract, write_commands. cbn [exec]. set (writes := [_; _; _; _; _]).
  rewrite exec_txn_app. assert (exec_txn queued ks !! key = ks !! key) as Hsame by by apply (queued_frame self).
  assert (as_hash (exec_txn queued ks) key = as_hash ks key) as Has by (unfold as_hash; by rewrite Hsame).
  assert (entry_change lcut (Some d) may_write (ks !! key) (exec_txn writes (exec_txn queued ks) !! key)) as Hdone.
  { destruct (as_hash ks key) as [h|] eqn:Eh.
    - unfold writes. rewrite (write_effect self Hok key Hkey lcut d _ h) by (by rewrite Has). by eapply entry_written.
    - rewrite (write_foreign self Hok key Hkey lcut d) by done. rewrite Hsame.
      destruct (ks !! key) as [[v t]|] eqn:Ek; [|apply entry_kept]. cbn [val fmap option_fmap option_map]. apply entry_foreign; [|done].
      unfold as_hash in Eh. by rewrite Ek in Eh. }
  intros [[-> ->]|[[e ->] [-> | ->]]]; (split; [exact Hdone || apply entry_kept|]); [|done..].
  intros rs Hrs. apply txn_replies_app in Hrs as (ra & rb & _ & Hb). apply write_replies in Hb as [h Hh].
  rewrite Has in Hh. exists h. split; [done|]. apply write_effect; [done..|by rewrite Has].
Qed.

(** A refresh of one key. *)
Lemma wp_refresh_one lcut d may_write ks :
  undisturbed ->
  wp env (refresh_ttl self [key] lcut) (fun out ks' => forall ev, out = Returned ev ->
    entry_change lcut d may_write (ks !! key) (ks' !! key) /\ ev <> WriteSucceed) ks.
Proof.
  intros Hu. unfold refresh_ttl. rewrite bool_decide_eq_false_2 by done. cbn [fmap list_fmap].
  apply wp_bind, wp_attempt. unfold pipe_reads. cbn [pipe_reads_from wp]. intros ks1 r ks2 Hr Hc.
  apply (entry_change_refresh lcut d may_write) in Hc. rewrite (Hu _ _ Hr) in Hc.
  destruct r as [z|e]; cbn [pipe_reads_from wp]; intros ev [= <-]; (split; [exact Hc|]); [|done].
  by destruct (_ && _).
Qed.

(** May the pod write this version? *)
Definition may_write (context : AuthorizedRequestContext) (lcut : N) (e : option entry) : Prop :=
  use_lcut context = true -> rc_check_lcut self = true ->
  forall existing, version_of e = Some existing -> (existing < lcut)%N.

Lemma version_of_lookup ks : hash_at ks key !! "lcut" ≫= parse_u64 = version_of (ks !! key).
Proof.
  unfold version_of, hash_at. rewrite hash_of_lookup. destruct (as_hash ks key) as [h|]; [done|].
  cbn. by rewrite lookup_empty.
Qed.

Lemma wp_update_available context lcut payload ks :
  undisturbed ->
  wp env (update_impl self key DataAvailable context lcut payload) (fun out ks' => forall events, out = Returned events ->
    entry_change lcut (data_to_write payload) (may_write context lcut (ks !! key)) (ks !! key) (ks' !! key) /\
    (WriteSucceed ∈ events -> exists h x, hash_of (ks !! key) = Some h /\ data_to_write payload = Some x /\
       ks' !! key = Some {| val := VHash (with_entry lcut x h); ttl := Some (Z.to_N (rc_ttl_in_s self)) |})) ks.
Proof.
  intros Hu. assert (forall ev, ev ∈ [WriteFailed] -> ev <> WriteSucceed) as Hwf.
  { intros ev ->%list_elem_of_singleton. done. }
  cbn [update_impl]. destruct (negb (rc_connected self)).
  { intros events [= <-]. split; [apply entry_kept|]. by intros ?%elem_of_nil. }
  apply (wp_try_conn _ _ (entry_is (ks !! key))); [by apply undisturbed_stable|done|]. intros [[]|e] ks1 Hk1.
  2:{ intros events [= <-]. rewrite Hk1. split; [apply entry_kept|]. by intros ?%Hwf. }
  apply wp_bind. eapply wp_mono; [apply (wp_elect (ks !! key) lcut ks1); [by apply undisturbed_stable|done]|].
  intros [[should queued]|e|] ks2 Hq; [|done..]. destruct (Hq _ _ eq_refl) as (Hk2 & Hleader & Hwins). clear Hq.
  rewrite version_of_lookup in Hwins. unfold entry_is in Hk1, Hk2. rewrite Hk1 in Hwins.
  destruct (negb (use_lcut context) || should) eqn:Ew.
  - destruct (data_to_write payload) as [x|] eqn:Ed.
    2:{ intros events [= <-]. rewrite Hk2. split; [apply entry_kept|]. by intros ?%Hwf. }
    apply wp_bind, wp_try. intros ks3 r ks4 Hr Hc.
    apply (entry_change_write lcut x queued (may_write context lcut (ks !! key))) in Hc as [Hchange Hok']; [|done|].
    2:{ intros Hl Hcheck. rewrite Hl in Ew. cbn in Ew. by apply Hwins. }
    rewrite (Hu _ _ Hr), Hk2 in Hchange, Hok'. intros events [= <-]. split; [done|].
    destruct r as [rs|e]; [|by intros ?%Hwf]. intros _. destruct (Hok' rs eq_refl) as (h & Hh & Hk). eauto.
  - apply wp_bind. eapply wp_mono; [by apply (wp_refresh_one lcut (data_to_write payload) (may_write context lcut (ks !! key)))|].
    intros [ev|e|] ks3 Hev; [|done..]. destruct (Hev ev eq_refl) as [Hchange Hne]. rewrite Hk2 in Hchange.
    intros events [= <-]. split; [done|]. rewrite !elem_of_cons, elem_of_nil. intros [?|[?|[]]]; congruence.
Qed.

(** The fields stay as they are, or a newer version is there. *)
Lemma entry_change_version context lcut d e e' :
  is_u64 lcut -> use_lcut context = true -> rc_check_lcut self = true ->
  entry_change lcut d (may_write context lcut e) e e' ->
  forall v, version_of e = Some v ->
  hash_of e' = hash_of e \/ exists v', version_of e' = Some v' /\ (v < v')%N.
Proof.
  intros Hu64 Hl Hcheck Hchange v Hv.
  inversion Hchange as [e0|h t Hlc|u t Hnone _|e0 h x Hh Hd Hmay]; subst; [by left..| |].
  - unfold version_of in Hv. by rewrite Hnone in Hv.
  - right. exists lcut. split.
    + unfold version_of, with_entry. cbn [hash_of val mbind option_bind]. rewrite lookup_insert_ne by done.
      rewrite lookup_insert_eq. by apply parse_u64_show.
    + specialize (Hmay Hl Hcheck v Hv). lia.
Qed.
End Updates.

(** ** What whole operations do to an entry *)

Section Whole.
Context `{ScanOrder} `{Digest} `{PayloadLib} `{CompressLib} (env : environment).
Context (self : RedisCache) (Hok : cache_ok self) (key : string) (Hkey : key <> leader_key self).
Context (Hu : undisturbed env key).

(** A later entry: the fields of a version are untouched, or a newer version is there. *)
Definition version_le (e e' : option entry) : Prop :=
  forall v, version_of e = Some v ->
  hash_of e' = hash_of e \/ exists v', version_of e' = Some v' /\ (v < v')%N.
#[local] Instance version_le_preorder : PreOrder version_le.
Proof.
  split; [intros e v Hv; by left|]. intros e1 e2 e3 H12 H23 v Hv.
  destruct (H12 v Hv) as [Heq|(v2 & Hv2 & ?)].
  - assert (version_of e2 = Some v) as Hv2 by (unfold version_of in *; by rewrite Heq).
    destruct (H23 v Hv2) as [Heq'|?]; [left; by rewrite Heq'|by right].
  - right. destruct (H23 v2 Hv2) as [Heq'|(v3 & Hv3 & ?)].
    + exists v2. split; [|done]. unfold version_of in *. by rewrite Heq'.
    + exists v3. split; [done|lia].
Qed.

(** An update of another key leaves this one alone. *)
Lemma stays e : stable env (entry_is key e).
Proof. by apply undisturbed_stable. Qed.

Lemma frame_step {R} (c : cmd R) e ks ks1 r ks2 :
  key ∉ cmd_keys c -> entry_is key e ks -> rely env ks ks1 -> contract c ks1 r ks2 -> entry_is key e ks2.
Proof.
  intros Hk He Hr Hc. apply (stays e) in Hr; [|done]. unfold entry_is in *. rewrite <- Hr. by eapply contract_frame.
Qed.

Lemma leader_only_spares queued : leader_only self queued -> key ∉ cmd_keys (EXEC queued).
Proof.
  cbn [cmd_keys]. intros Hq (c & Hk & Hc)%list_elem_of_bind. unfold leader_only in Hq.
  rewrite Forall_forall in Hq. by apply Hkey, (Hq c Hc).
Qed.

Lemma write_commands_spares other queued lcut x :
  other <> key -> leader_only self queued -> key ∉ cmd_keys (EXEC (write_commands self other queued lcut x)).
Proof.
  intros Hne Hq. apply leader_only_spares in Hq. cbn [cmd_keys] in *. unfold write_commands. rewrite bind_app, elem_of_app.
  intros [Hin|Hin]; [done|]. cbn in Hin. rewrite !elem_of_cons, elem_of_nil in Hin. naive_solver.
Qed.

Lemma wp_elect_frame other lcut e ks :
  entry_is key e ks ->
  wp env (elect self other lcut) (fun out ks' => forall should queued, out = Returned (should, queued) ->
    entry_is key e ks' /\ leader_only self queued) ks.
Proof.
  intros He. unfold elect. apply wp_bind, wp_try. intros ks1 r ks2 Hr Hc.
  eapply frame_step in Hc; [|apply leader_only_spares, election_leader_only|exact He|exact Hr].
  destruct (election_replies r) as [[[ttl holder] stored]|].
  2:{ intros should queued [= <- <-]. split; [done|apply election_leader_only]. }
  destruct (_ && _); [|intros should queued [= <- <-]; split; [done|apply election_leader_only]].
  apply wp_bind, wp_try. intros ks3 r' ks4 Hr' Hc'. intros should queued [= <- <-].
  split; [|apply election_expire_leader_only].
  eapply frame_step; [apply leader_only_spares, election_expire_leader_only|exact Hc|exact Hr'|exact Hc'].
Qed.

Lemma wp_refresh_frame (keys : list string) lcut e ks :
  key ∉ keys -> entry_is key e ks ->
  wp env (refresh_ttl self keys lcut) (fun out ks' => forall ev, out = Returned ev -> entry_is key e ks') ks.
Proof.
  intros Hk He. unfold refresh_ttl. destruct (bool_decide (keys = [])); [by intros ev [= <-]|].
  apply wp_bind, wp_attempt. unfold pipe_reads.
  assert (forall err acc, wp env (pipe_reads_from (E := redis_error) err acc
    ((fun k => REFRESH_TTL_SCRIPT k (show_u64 lcut) (rc_ttl_in_s self)) <$> keys)) (fun out ks' => entry_is key e ks') ks) as Hgen.
  2:{ eapply wp_mono; [apply Hgen|]. intros [rs|err|] ks' He'; [| |done]; by intros ev [= <-]. }
  revert ks He. induction keys as [|k keys IH]; intros ks He err acc; cbn [fmap list_fmap pipe_reads_from].
  { by destruct err. }
  intros ks1 r ks2 Hr Hc. rewrite elem_of_cons in Hk.
  assert (entry_is key e ks2) as He2 by (eapply frame_step; [|exact He|exact Hr|exact Hc]; cbn; set_solver).
  destruct r; apply IH; tauto.
Qed.

Lemma wp_update_frame other result context lcut payload e ks :
  other <> key -> entry_is key e ks ->
  wp env (update_impl self other result context lcut payload) (fun out ks' => forall events, out = Returned events -> entry_is key e ks') ks.
Proof.
  intros Hne He. destruct result; cbn [update_impl]; try (by intros events [= <-]).
  - destruct (negb (rc_connected self)); [by intros events [= <-]|].
    apply (wp_try_conn _ _ _ (entry_is key e)); [apply stays|done|]. intros [[]|err] ks1 He1; [|by intros events [= <-]].
    apply wp_bind. eapply wp_mono; [by apply wp_elect_frame|].
    intros [[should queued]|err|] ks2 Hq; [|done..]. destruct (Hq _ _ eq_refl) as [He2 Hlead].
    destruct (_ || _).
    + destruct (data_to_write payload); [|by intros events [= <-]].
      apply wp_bind, wp_try. intros ks3 r ks4 Hr Hc. intros events [= <-].
      eapply frame_step; [by apply write_commands_spares|exact He2|exact Hr|exact Hc].
    + apply wp_bind. eapply wp_mono; [apply (wp_refresh_frame [other] lcut e); [set_solver|done]|].
      intros [ev|err|] ks3 Hq'; [|done..]. intros events [= <-]. by eapply Hq'.
  - destruct (negb (rc_connected self)); [by intros events [= <-]|].
    apply (wp_try_conn _ _ _ (entry_is key e)); [apply stays|done|]. intros [[]|err] ks1 He1; [|by intros events [= <-]].
    apply wp_bind, wp_try. intros ks3 r ks4 Hr Hc. intros events [= <-].
    eapply frame_step; [|exact He1|exact Hr|exact Hc]. cbn. set_solver.
Qed.

(** One key of an update that is not a revocation. *)
Lemma wp_update_version other result context lcut payload e ks :
  result <> Unauthorized -> is_u64 lcut -> use_lcut context = true -> rc_check_lcut self = true ->
  version_le e (ks !! key) ->
  wp env (update_impl self other result context lcut payload)
    (fun out ks' => forall events, out = Returned events -> version_le e (ks' !! key)) ks.
Proof.
  intros Hres Hl Hlcut Hcheck He. destruct (decide (other = key)) as [->|Hne].
  2:{ eapply wp_mono; [apply (wp_update_frame other result context lcut payload (ks !! key)); [done|by unfold entry_is]|].
      intros out ks' Hq events Hout. by rewrite (Hq events Hout). }
  destruct result; try done; try (by intros events [= <-]).
  eapply wp_mono; [by apply (wp_update_available env self Hok key Hkey)|]. intros out ks' Hq events Hout.
  destruct (Hq events Hout) as [Hchange _]. etrans; [exact He|]. intros v.
  by apply (entry_change_version self context lcut (data_to_write payload)).
Qed.

Lemma wp_update_keys_version keys context response e : forall ks,
  result_type response <> Unauthorized -> is_u64 (lcut response) -> use_lcut context = true -> rc_check_lcut self = true ->
  version_le e (ks !! key) ->
  wp env (update_keys self keys context response)
    (fun out ks' => forall events, out = Returned events -> version_le e (ks' !! key)) ks.
Proof.
  induction keys as [|k keys IH]; intros ks Hres Hl Hlcut Hcheck He; cbn [update_keys]; [by intros events [= <-]|].
  apply wp_bind. eapply wp_mono; [by apply wp_update_version|]. intros [events|err|] ks1 Hq; [|done..].
  apply wp_bind. eapply wp_mono; [apply IH; [done..|by eapply Hq]|]. intros [rest|err|] ks2 Hq2; [|done..].
  intros events' [= <-]. by eapply Hq2.
Qed.

(** A read of an entry that is left alone. *)
Lemma read_replies_entry h t lcut x ks r ks' :
  is_u64 lcut -> ks !! key = Some {| val := VHash (with_entry lcut x h); ttl := t |} ->
  contract (EXEC [T_HGET key "lcut"; T_HGET key "config"]) ks r ks' ->
  read_replies r = Some (Some lcut, x) \/ read_replies r = None.
Proof.
  intros Hl Hk Hc. assert (as_hash ks key = Some (with_entry lcut x h)) as Hh by (unfold as_hash; by rewrite Hk).
  unfold contract in Hc. cbn [exec] in Hc. destruct Hc as [[-> _]|[[err ->] _]]; [left|by right].
  cbn [txn_replies exec_t fst snd]. rewrite Hh. cbn [reply_of fmap result_fmap read_replies].
  unfold with_entry. rewrite (lookup_insert_ne _ "config" "lcut"), !lookup_insert_eq by done. rewrite parse_u64_show by done. done.
Qed.
End Whole.

(** ** What renewing deadlines does to an entry *)

Section Renewals.
Context `{ScanOrder} `{Digest} (env : environment).
Context (self : RedisCache) (Hok : cache_ok self) (key : string) (Hu : undisturbed env key) (lcut : N).

(** The entry held the version and now has the full time to live; its fields are the same. *)
Definition confirmed (e e' : option entry) : Prop :=
  exists h t, e = Some {| val := VHash h; ttl := t |} /\ h !! "lcut" = Some (show_u64 lcut) /\
    e' = Some {| val := VHash h; ttl := Some (Z.to_N (rc_ttl_in_s self)) |}.

(** Where the scripts have got to: [keys] are done with the replies [acc]. *)
Definition renewed_so_far (e : option entry) (keys : list string) (err : option redis_error) (acc : list Z)
    (e' : option entry) : Prop :=
  (e' = e \/ key ∈ keys /\ confirmed e e') /\
  (err = None -> Forall (fun r => r = 1%Z) acc -> key ∈ keys -> confirmed e e').

Lemma confirmed_again e e1 e2 : confirmed e e1 -> confirmed e1 e2 -> confirmed e e2.
Proof. intros (h & t & -> & Hl & ->) (h' & t' & [= <- <-] & _ & ->). by exists h, t. Qed.

Lemma script_step e keys err acc k ks r ks' :
  renewed_so_far e keys err acc (ks !! key) ->
  contract (REFRESH_TTL_SCRIPT k (show_u64 lcut) (rc_ttl_in_s self)) ks r ks' ->
  match r with
  | Ok n => renewed_so_far e (keys ++ [k]) err (n :: acc) (ks' !! key)
  | Err x => renewed_so_far e (keys ++ [k]) (Some (default x err)) acc (ks' !! key)
  end.
Proof.
  intros [Hchange Hall] Hc. unfold renewed_so_far. destruct (decide (k = key)) as [->|Hne].
  - apply contract_refresh in Hc; [|done]. destruct Hc as [[-> Hr]|(h & t & Hk & Hl & Hres)].
    + destruct r as [n|x]; (split; [rewrite elem_of_app; tauto|]); [|done].
      intros _ Hone _. inversion Hone; subst. by destruct Hr.
    + assert (ks' = ks \/ confirmed (ks !! key) (ks' !! key)) as Hnew.
      { destruct Hres as [[-> _]| ->]; [by left|right]. rewrite lookup_insert_eq, Hk. by exists h, t. }
      assert (ks' !! key = e \/ confirmed e (ks' !! key)) as Hnow.
      { destruct Hchange as [Heq|[_ Hcf]]; destruct Hnew as [-> |Hnew]; [by left|right; by rewrite <- Heq|by right|].
        right. by eapply confirmed_again. }
      assert (key ∈ keys ++ [key]) as Hin by (rewrite elem_of_app, list_elem_of_singleton; by right).
      destruct r as [n|x]; (split; [destruct Hnow; [by left|by right]|]); [|done].
      intros _ _ _. destruct Hres as [[_ [x ?]]| ->]; [done|].
      rewrite lookup_insert_eq. destruct Hchange as [Heq|[_ Hcf]]; [rewrite <- Heq; by exists h, t|].
      eapply confirmed_again; [exact Hcf|]. by exists h, t.
  - assert (ks' !! key = ks !! key) as ->.
    { eapply contract_frame; [exact Hc|]. cbn. rewrite list_elem_of_singleton. congruence. }
    destruct r as [n|x]; rewrite elem_of_app, list_elem_of_singleton; (split; [naive_solver|]); [|done].
    intros Herr Hone. inversion Hone; subst. naive_solver.
Qed.

Lemma wp_scripts e todo : forall keys err acc ks,
  renewed_so_far e keys err acc (ks !! key) ->
  wp env (pipe_reads_from (E := redis_error) err acc
    ((fun k => REFRESH_TTL_SCRIPT k (show_u64 lcut) (rc_ttl_in_s self)) <$> todo))
    (fun out ks' => exists err' acc', renewed_so_far e (keys ++ todo) err' acc' (ks' !! key) /\
       forall rs, out = Returned rs -> err' = None /\ rs = reverse acc') ks.
Proof.
  induction todo as [|k todo IH]; intros keys err acc ks Hinv; cbn [fmap list_fmap pipe_reads_from].
  { rewrite app_nil_r. destruct err as [x|]; cbn [wp]; eexists _, acc; (split; [exact Hinv|]); [done|].
    by intros rs [= <-]. }
  cbn [wp]. intros ks1 r ks2 Hr Hc. rewrite <- (Hu _ _ Hr) in Hinv. apply (script_step _ _ _ _ _ _ _ _ Hinv) in Hc.
  rewrite (cons_middle k keys todo), app_assoc. destruct r; by apply IH.
Qed.

Lemma wp_refresh_confirms keys ks :
  wp env (refresh_ttl self keys lcut) (fun out ks' => forall ev, out = Returned ev ->
    (ks' !! key = ks !! key \/ key ∈ keys /\ confirmed (ks !! key) (ks' !! key)) /\
    (ev = TtlRefreshed -> key ∈ keys -> confirmed (ks !! key) (ks' !! key))) ks.
Proof.
  unfold refresh_ttl. destruct (bool_decide (keys = [])).
  { intros ev [= <-]. split; [by left|done]. }
  apply wp_bind, wp_attempt. unfold pipe_reads. eapply wp_mono; [apply (wp_scripts (ks !! key) keys [])|].
  { split; [by left|]. by intros _ _ ?%elem_of_nil. }
  intros out ks' (err & acc & [Hchange Hall] & Hrs).
  destruct out as [rs|x|]; [| |done]; intros ev [= <-]; (split; [done|]); [|done].
  destruct (Hrs rs eq_refl) as [-> ->]. destruct (_ && _) eqn:E; [|done]. intros _. apply Hall; [done|].
  apply andb_true_iff in E as [_ E]. rewrite Forall_forall. intros n Hn.
  rewrite forallb_forall in E. specialize (E n). rewrite <- list_elem_of_In, elem_of_reverse in E.
  specialize (E Hn). by boolify.
Qed.
End Renewals.

(** ** Properties *)

Section Properties.
Context `{ScanOrder} `{Digest} `{PayloadLib} `{CompressLib} (env : environment) (self : RedisCache).

(** An update is what it does to its keys. *)
Lemma wp_cache_update context response st (P : list CacheEvent -> keyspace -> Prop) ks :
  (forall keys hashes, get_redis_keys_for_payload self context (body response) (hash_cache st) = Some (keys, hashes) ->
   wp env (update_keys self keys context response) (fun out ks' => forall events, out = Returned events -> P events ks') ks) ->
  wp env (cache_update self context response st)
    (fun out ks' => forall st' events, out = Returned (st', events) -> P events ks') ks.
Proof.
  intros HP. unfold cache_update. destruct (get_redis_keys_for_payload _ _ _ _) as [[keys hashes]|]; [|done].
  apply wp_bind. eapply wp_mono; [by eapply HP|]. intros [events|err|] ks' Hq; [|done..].
  intros st' events' [= _ <-]. by apply Hq.
Qed.

(** C12: A cached config is only replaced by a newer one: while other clients leave the
    entry alone, an update with the check of versions turned on, on an endpoint that has
    versions and not a revocation, either leaves every field of an entry with a version
    as it is (only its deadline may be renewed) or leaves a strictly newer version there,
    whichever commands fail. The times to live are taken to be positive. *)
Theorem cache_versions_monotone context response st key ks st' events ks' v :
  cache_ok self -> rc_check_lcut self = true -> use_lcut context = true -> is_u64 (lcut response) ->
  result_type response <> Unauthorized ->
  key <> leader_key self -> undisturbed env key ->
  runs env (cache_update self context response st) ks (Returned (st', events)) ks' ->
  version_of (ks !! key) = Some v ->
  hash_of (ks' !! key) = hash_of (ks !! key) \/ exists v', version_of (ks' !! key) = Some v' /\ (v < v')%N.
Proof.
  intros Hok Hcheck Hl Hu64 Hres Hkey Hu Hrun Hv.
  assert (wp env (cache_update self context response st)
    (fun out ks' => forall st' events, out = Returned (st', events) -> version_le (ks !! key) (ks' !! key)) ks) as Hwp.
  { apply (wp_cache_update _ _ _ (fun _ ks' => version_le (ks !! key) (ks' !! key))). intros keys hashes _.
    apply wp_update_keys_version; [done..|]. intros u _. by left. }
  exact (wp_adequate _ _ _ _ _ _ Hwp Hrun st' events eq_refl v Hv).
Qed.

Lemma wp_anything {E A} (p : prog E A) ks : wp env p (fun _ _ => True) ks.
Proof. revert ks. induction p; intros ks; cbn [wp]; auto. Qed.
Lemma wp_and {E A} (p : prog E A) (Q Q' : outcome E A -> keyspace -> Prop) ks :
  wp env p Q ks -> wp env p Q' ks -> wp env p (fun out ks' => Q out ks' /\ Q' out ks') ks.
Proof. revert ks. induction p; intros ks Hq Hq'; cbn [wp] in *; eauto. Qed.

(** The keys of a payload that is not protobuf: the plain one first. *)
Lemma plain_keys context response st keys hashes :
  use_proto (body response) = false ->
  get_redis_keys_for_payload self context (body response) (hash_cache st) = Some (keys, hashes) ->
  exists p rest, truncate 20 (sdk_key context) = Some p /\ keys = cache_key_of self context PlainText p :: rest.
Proof.
  unfold get_redis_keys_for_payload, get_redis_key. intros ->. destruct (truncate 20 (sdk_key context)) as [p|]; [|done].
  cbn [mbind option_bind]. destruct (rc_double_write self).
  - destruct (hash_key _ _) as [hashed cache]. cbn [mbind option_bind]. intros [= <- _]. eauto.
  - intros [= <- _]. eauto.
Qed.

(** An update of available data reports something unless there is no pool. *)
Lemma wp_update_reports key context lcut payload ks :
  wp env (update_impl self key DataAvailable context lcut payload)
    (fun out ks' => forall events, out = Returned events -> rc_connected self = true -> events <> []) ks.
Proof.
  revert ks. change (delivers env (update_impl self key DataAvailable context lcut payload)
    (fun events => rc_connected self = true -> events <> [])).
  unfold update_impl. destruct (negb (rc_connected self)) eqn:Ec.
  { apply delivers_ret. intros Hc. by rewrite Hc in Ec. }
  apply delivers_skip. intros [[]|e]; [|by apply delivers_ret]. apply delivers_skip. intros [should queued].
  destruct (_ || _).
  - destruct (data_to_write payload); [|by apply delivers_ret]. apply delivers_skip. intros [rs|e]; by apply delivers_ret.
  - apply delivers_skip. intros ev. by apply delivers_ret.
Qed.

Lemma wp_update_silent key context lcut payload ks :
  rc_connected self = false ->
  wp env (update_impl self key DataAvailable context lcut payload)
    (fun out ks' => forall events, out = Returned events -> events = []) ks.
Proof. intros Hc. cbn [update_impl]. rewrite Hc. by intros events [= <-]. Qed.

(** What a key holds after an update that wrote it. *)
Definition holds (key : string) (response : ResponseContext) (ks : keyspace) : Prop :=
  exists h x, data_to_write (body response) = Some x /\
    ks !! key = Some {| val := VHash (with_entry (lcut response) x h); ttl := Some (Z.to_N (rc_ttl_in_s self)) |}.

Section Written.
Context (Hok : cache_ok self) (key : string) (Hkey : key <> leader_key self) (Hu : undisturbed env key).
Context (context : AuthorizedRequestContext) (response : ResponseContext) (Hres : result_type response = DataAvailable).

(** The other keys of the update leave it there, or write the same. *)
Lemma wp_update_keys_holds rest : forall ks,
  holds key response ks ->
  wp env (update_keys self rest context response) (fun out ks' => forall events, out = Returned events ->
    Forall (fun ev => ev = WriteSucceed) events -> holds key response ks') ks.
Proof.
  induction rest as [|other rest IH]; intros ks Hh; cbn [update_keys]; [by intros events [= <-]|].
  rewrite Hres. apply wp_bind.
  assert (wp env (update_impl self other DataAvailable context (lcut response) (body response))
    (fun out ks' => forall events, out = Returned events ->
       Forall (fun ev => ev = WriteSucceed) events -> holds key response ks') ks) as Hone.
  { destruct (decide (other = key)) as [->|Hne].
    - destruct (rc_connected self) eqn:Ec.
      + eapply wp_mono; [apply wp_and; [by apply (wp_update_available env self Hok key Hkey)|apply wp_update_reports]|].
        intros out ks' [Hq Hne] events Hout Hall. destruct (Hq events Hout) as [_ Hsucc].
        destruct events as [|ev events]; [by destruct (Hne [] Hout Ec)|]. inversion Hall; subst.
        destruct Hsucc as (h & x & _ & Hx & Hk); [by left|]. by exists h, x.
      + cbn [update_impl]. rewrite Ec. by intros events [= <-].
    - eapply wp_mono; [apply (wp_update_frame env self Hok key Hkey Hu other DataAvailable context (lcut response) (body response) (ks !! key)); done|].
      intros out ks' Hq events Hout _. specialize (Hq events Hout). unfold entry_is in Hq. unfold holds. by rewrite Hq. }
  eapply wp_mono; [exact Hone|]. intros [events|err|] ks1 Hq; [|done..]. apply wp_bind.
  destruct (decide (Forall (fun ev => ev = WriteSucceed) events)) as [Hall|Hnot].
  - eapply wp_mono; [by apply IH, (Hq events eq_refl)|]. intros [more|err|] ks2 Hq2; [|done..].
    intros events' [= <-] [_ Hmore]%Forall_app. by apply (Hq2 more).
  - eapply wp_mono; [apply wp_anything|]. intros [more|err|] ks2 _; [|done..].
    intros events' [= <-] [Hall _]%Forall_app. done.
Qed.

(** An update that reports only successes, and any, has written its first key. *)
Lemma wp_update_keys_written rest ks :
  wp env (update_keys self (key :: rest) context response) (fun out ks' => forall events, out = Returned events ->
    events <> [] -> Forall (fun ev => ev = WriteSucceed) events -> holds key response ks') ks.
Proof.
  cbn [update_keys]. rewrite Hres. destruct (rc_connected self) eqn:Ec.
  - apply wp_bind. eapply wp_mono; [apply wp_and; [by apply (wp_update_available env self Hok key Hkey)|apply wp_update_reports]|].
    intros [events|err|] ks1 [Hq Hne]; [|done..]. destruct (Hq events eq_refl) as [_ Hsucc]. specialize (Hne events eq_refl Ec).
    apply wp_bind. destruct (decide (WriteSucceed ∈ events)) as [Hin|Hnot].
    + destruct (Hsucc Hin) as (h & x & _ & Hx & Hk).
      eapply wp_mono; [apply wp_update_keys_holds; by exists h, x|]. intros [more|err|] ks2 Hq2; [|done..].
      intros events' [= <-] _ [_ Hmore]%Forall_app. by apply (Hq2 more).
    + eapply wp_mono; [apply wp_anything|]. intros [more|err|] ks2 _; [|done..].
      intros events' [= <-] _ [Hall _]%Forall_app. destruct events as [|ev events]; [done|].
      inversion Hall; subst. destruct Hnot. by left.
  - assert (forall keys ks, wp env (update_keys self keys context response)
      (fun out _ => forall events, out = Returned events -> events = []) ks) as Hsilent.
    { induction keys as [|k keys IH]; intros ks0; cbn [update_keys]; [by intros events [= <-]|].
      rewrite Hres. apply wp_bind. eapply wp_mono; [by apply wp_update_silent|]. intros [events|err|] ks1 Hq; [|done..].
      rewrite (Hq events eq_refl). apply wp_bind. eapply wp_mono; [apply IH|]. intros [more|err|] ks2 Hq2; [|done..].
      intros events' [= <-]. by apply Hq2. }
    specialize (Hsilent (key :: rest) ks). cbn [update_keys] in Hsilent. rewrite Hres in Hsilent.
    eapply wp_mono; [exact Hsilent|]. intros out ks' Hq events Hout Hne. by destruct (Hne (Hq events Hout)).
Qed.
End Written.

(** C23: What a pod writes is what a pod reads, for payloads that are not protobuf (those
    are written under a key reads do not look at): after an update whose every report is a
    success, with or without the second copy under the legacy key, and while other
    clients leave the entry alone, a read of the same context finds the decompressed payload
    with its version, compressed again when the client takes gzip, unless Redis fails or
    there was nothing to keep; the entry expires after the configured time, which is
    taken to be positive. *)
Theorem cache_round_trip context response st ks st' written ks1 r events ks2 :
  cache_ok self -> is_u64 (lcut response) ->
  result_type response = DataAvailable -> use_proto (body response) = false ->
  (forall p, truncate 20 (sdk_key context) = Some p -> undisturbed env (cache_key_of self context PlainText p)) ->
  runs env (cache_update self context response st) ks (Returned (st', written)) ks1 ->
  written <> [] -> Forall (fun ev => ev = WriteSucceed) written ->
  runs env (cache_get self context st') ks1 (Returned (r, events)) ks2 ->
  exists p x, truncate 20 (sdk_key context) = Some p /\ data_to_write (body response) = Some x /\
    ks1 !! cache_key_of self context PlainText p ≫= ttl = Some (Z.to_N (rc_ttl_in_s self)) /\
    if decide (events = [ReadSucceed]) then x <> "" /\ r = cached_config context (Some (lcut response)) x
    else r = None /\ (events = [ReadMiss] -> x = "").
Proof.
  intros Hok Hu64 Hres Hproto Hundist Hup Hsome Hall Hget.
  assert (exists p, truncate 20 (sdk_key context) = Some p /\ holds (cache_key_of self context PlainText p) response ks1)
    as (p & Hp & h & x & Hx & Hk1).
  { assert (wp env (cache_update self context response st) (fun out ks' => forall st' written, out = Returned (st', written) ->
      written <> [] -> Forall (fun ev => ev = WriteSucceed) written ->
      exists p, truncate 20 (sdk_key context) = Some p /\ holds (cache_key_of self context PlainText p) response ks') ks) as Hwp.
    { apply (wp_cache_update _ _ _ (fun written ks' => written <> [] -> Forall (fun ev => ev = WriteSucceed) written ->
        exists p, truncate 20 (sdk_key context) = Some p /\ holds (cache_key_of self context PlainText p) response ks')).
      intros keys hashes Hkeys. apply plain_keys in Hkeys as (p & rest & Hp & ->); [|done].
      eapply wp_mono; [apply wp_update_keys_written; [done|apply cache_key_not_leader|by apply Hundist|done]|].
      intros out ks' Hq evs Hout Hne Hev. exists p. split; [done|]. by eapply Hq. }
    exact (wp_adequate _ _ _ _ _ _ Hwp Hup st' written eq_refl Hsome Hall). }
  set (key := cache_key_of self context PlainText p) in *.
  pose proof (Hundist p Hp) as Hu. fold key in Hu.
  exists p, x. split; [done|]. split; [done|]. split; [fold key; by rewrite Hk1|].
  assert (wp env (cache_get self context st') (fun out ks' => forall r events, out = Returned (r, events) ->
    if decide (events = [ReadSucceed]) then x <> "" /\ r = cached_config context (Some (lcut response)) x
    else r = None /\ (events = [ReadMiss] -> x = "")) ks1) as Hwp.
  2:{ exact (wp_adequate _ _ _ _ _ _ Hwp Hget r events eq_refl). }
  unfold cache_get. destruct (negb (rc_connected self)); [by intros ? ? [= <- <-]|].
  apply (wp_try_conn _ _ _ (entry_is key (ks1 !! key))); [by apply undisturbed_stable|done|]. intros conn ks3 Hk3.
  unfold get_redis_key. rewrite Hp. cbn [mbind option_bind]. fold key.
  destruct conn as [[]|err]; [|by intros ? ? [= <- <-]].
  apply wp_bind, wp_try. intros ks4 reply ks5 Hr Hc. unfold entry_is in Hk3. rewrite <- (Hu _ _ Hr), Hk1 in Hk3.
  intros r' events' Hout.
  destruct (read_replies_entry key h _ (lcut response) x ks4 reply ks5 Hu64 Hk3 Hc) as [Hread|Hread]; rewrite Hread in Hout.
  2:{ by injection Hout as <- <-. }
  unfold str_empty in Hout. destruct (decide (x = "")) as [->|Hne].
  - by injection Hout as <- <-.
  - rewrite bool_decide_eq_false_2 in Hout by done. by injection Hout as <- <-.
Qed.

(** What an update remembers for later renewals. *)
Lemma wp_update_active context response st ks :
  result_type response = DataAvailable ->
  wp env (cache_update self context response st) (fun out ks' => forall st' events, out = Returned (st', events) ->
    exists keys hashes, get_redis_keys_for_payload self context (body response) (hash_cache st) = Some (keys, hashes) /\
      active_cache_keys st' !! hash_input context = Some {| ak_keys := keys; ak_lcut := lcut response |}) ks.
Proof.
  intros Hres. unfold cache_update. destruct (get_redis_keys_for_payload _ _ _ _) as [[keys hashes]|]; [|done].
  apply wp_bind. eapply wp_mono; [apply wp_anything|].
  intros [events|err|] ks' _; [|done..]. intros st' events' [= <- _]. exists keys, hashes. split; [done|].
  cbn [active_cache_keys]. rewrite bool_decide_eq_true_2 by done. by rewrite lookup_insert_eq.
Qed.

(** A poll that finds nothing new renews the version it confirmed and no other: after
    an update, even one whose write failed, [touch] gives an entry of the update's keys
    its full time to live only when it holds the version of that update, never changes a
    field, leaves every other key alone, and reports a renewal only when every key was
    renewed. *)
Theorem touch_confirms context response st ks st' events ks1 touched ks2 key :
  cache_ok self -> result_type response = DataAvailable -> undisturbed env key ->
  runs env (cache_update self context response st) ks (Returned (st', events)) ks1 ->
  runs env (cache_touch self context st') ks1 (Returned touched) ks2 ->
  exists keys hashes, get_redis_keys_for_payload self context (body response) (hash_cache st) = Some (keys, hashes) /\
    (ks2 !! key = ks1 !! key \/ key ∈ keys /\ confirmed self (lcut response) (ks1 !! key) (ks2 !! key)) /\
    (touched = [TtlRefreshed] -> key ∈ keys -> confirmed self (lcut response) (ks1 !! key) (ks2 !! key)).
Proof.
  intros Hok Hres Hu Hup Htouch.
  destruct (wp_adequate _ _ _ _ _ _ (wp_update_active context response st ks Hres) Hup _ _ eq_refl)
    as (keys & hashes & Hkeys & Hactive).
  exists keys, hashes. split; [done|].
  assert (wp env (cache_touch self context st') (fun out ks' => forall touched, out = Returned touched ->
    (ks' !! key = ks1 !! key \/ key ∈ keys /\ confirmed self (lcut response) (ks1 !! key) (ks' !! key)) /\
    (touched = [TtlRefreshed] -> key ∈ keys -> confirmed self (lcut response) (ks1 !! key) (ks' !! key))) ks1) as Hwp.
  2:{ exact (wp_adequate _ _ _ _ _ _ Hwp Htouch _ eq_refl). }
  unfold cache_touch. rewrite Hactive. cbn [default from_option id ak_keys ak_lcut].
  destruct (bool_decide (keys = [])); [intros ev [= <-]; split; [by left|done]|].
  destruct (negb (rc_connected self)); [intros ev [= <-]; split; [by left|done]|].
  apply (wp_try_conn _ _ _ (entry_is key (ks1 !! key))); [by apply undisturbed_stable|done|]. intros conn ks3 Hk3.
  destruct conn as [[]|err]; [|intros ev [= <-]; split; [by left|done]].
  apply wp_bind. unfold entry_is in Hk3. rewrite <- Hk3.
  eapply wp_mono; [by apply (wp_refresh_confirms env self Hok key Hu)|].
  intros [ev|err|] ks4 Hq; [|done..]. destruct (Hq ev eq_refl) as [Hchange Hall].
  intros ev' [= <-]. split; [done|]. intros [= ->]. by apply Hall.
Qed.
End Properties.

(** ** Witnesses *)

Module CacheExample.
#[export] Instance forty_four : Digest.
Proof.
  refine {| sha256_base64 := fun _ => "AAAAAAAAAAAAAAAAAAAAAAAAAAAAAAAAAAAAAAAAAAA=" |}; intros; reflexivity.
Defined.
#[export] Instance plain_payload : PayloadLib :=
  {| gunzip s := Some s; brotli_decompress s := Some s; json_manifest _ := None; json_identity _ := None |}.
#[export] Instance plain_compress : CompressLib := {| gzip_compress s := Some s; brotli_compress s := Some s |}.

Definition self : RedisCache :=
  {| rc_connected := true; rc_uuid := "pod-1"; rc_leader_key_ttl := 70; rc_check_lcut := true; rc_ttl_in_s := 3600;
     rc_double_write := false; rc_key_prefix := "sfp" |}.
Definition context : AuthorizedRequestContext := context_new "secret-0123456789abcdef" V1DownloadConfigSpecs [].
Definition response (version : N) (config : string) : ResponseContext :=
  {| result_type := DataAvailable; lcut := version; request_since_time := 0;
     body := {| encoding := PlainText; use_proto := false; data := config |} |}.
Definition empty : cache_state := {| hash_cache := ∅; active_cache_keys := ∅ |}.
Definition key : string := cache_key_of self context PlainText "secret-0123456789abc".

Definition run {A} (p : prog panic A) (ks : keyspace) := eval LookupExample.no_http p ks.
Definition updated (r : outcome panic (cache_state * list CacheEvent) * keyspace) : cache_state :=
  match r.1 with Returned (st, _) => st | _ => empty end.
Definition published (r : outcome panic (cache_state * list CacheEvent) * keyspace) : option (list CacheEvent) :=
  match r.1 with Returned (_, events) => Some events | _ => None end.
Definition first := run (cache_update self context (response 7 "{}") empty) ∅.
Definition second := run (cache_update self context (response 6 "[]") empty) first.2.
Definition read := run (cache_get self context (updated first)) first.2.
Definition touch := run (cache_touch self context (updated first)) first.2.

Lemma published_runs r events : published r = Some events -> r.1 = Returned (updated r, events).
Proof. unfold published, updated. destruct (r.1) as [[st ev]|e|]; [by intros [= ->]|done..]. Qed.
Lemma evaluated {A} (p : prog panic A) ks out :
  (run p ks).1 = out -> runs LookupExample.quiet p ks out (run p ks).2.
Proof. intros <-. by apply eval_runs. Qed.
Lemma self_ok : cache_ok self.
Proof. by split. Qed.
Lemma quiet_undisturbed k : undisturbed LookupExample.quiet k.
Proof. by intros ks ks1 ->. Qed.
End CacheExample.
#[local] Existing Instances CacheExample.forty_four CacheExample.plain_payload CacheExample.plain_compress.
Import CacheExample.

Lemma first_written : first.1 = Returned (updated first, [WriteSucceed]).
Proof. apply published_runs. vm_compute. reflexivity. Qed.

Lemma cache_versions_monotone_witness :
  hash_of (second.2 !! key) = hash_of (first.2 !! key) \/ exists v', version_of (second.2 !! key) = Some v' /\ (7 < v')%N.
Proof.
  assert (second.1 = Returned (updated second, [TtlRefreshMissed; WriteSkipped])) as Hrun
    by (apply published_runs; vm_compute; reflexivity).
  assert (version_of (first.2 !! key) = Some 7%N) as Hv by (vm_compute; reflexivity).
  assert (use_lcut context = true) as Hl by reflexivity.
  assert (is_u64 (lcut (response 6 "[]"))) as Hu64 by done.
  assert (result_type (response 6 "[]") <> Unauthorized) as Hres by discriminate.
  exact (cache_versions_monotone LookupExample.quiet self context (response 6 "[]") empty key first.2
    _ _ second.2 7 self_ok eq_refl Hl Hu64 Hres (cache_key_not_leader _ _ _ _) (quiet_undisturbed _)
    (evaluated _ _ _ Hrun) Hv).
Defined.

Lemma cache_round_trip_witness :
  read.1 = Returned (Some {| cs_lcut := 7; cs_config := {| encoding := PlainText; use_proto := false; data := "{}" |} |}, [ReadSucceed]) /\
  first.2 !! key ≫= ttl = Some 3600%N.
Proof.
  assert (read.1 = Returned (Some {| cs_lcut := 7; cs_config := {| encoding := PlainText; use_proto := false; data := "{}" |} |}, [ReadSucceed]))
    as Hread by (vm_compute; reflexivity).
  split; [exact Hread|]. assert (is_u64 (lcut (response 7 "{}"))) as Hu64 by done.
  destruct (cache_round_trip LookupExample.quiet self context (response 7 "{}") empty ∅ (updated first) [WriteSucceed] first.2
    _ _ read.2 self_ok Hu64 eq_refl eq_refl (fun p _ => quiet_undisturbed _)
    (evaluated _ _ _ first_written) ltac:(discriminate) ltac:(by repeat constructor) (evaluated _ _ _ Hread))
    as (p & x & Hp & _ & Httl & _).
  injection Hp as <-.
  exact Httl.
Defined.

Lemma touch_confirms_witness : touch.1 = Returned [TtlRefreshed] /\ confirmed self 7 (first.2 !! key) (touch.2 !! key).
Proof.
  assert (touch.1 = Returned [TtlRefreshed]) as Ht by (vm_compute; reflexivity). split; [exact Ht|].
  destruct (touch_confirms LookupExample.quiet self context (response 7 "{}") empty ∅ (updated first) [WriteSucceed] first.2
    _ touch.2 key self_ok eq_refl (quiet_undisturbed _)
    (evaluated _ _ _ first_written) (evaluated _ _ _ Ht)) as (keys & hashes & Hkeys & _ & Hall).
  apply Hall; [reflexivity|]. injection Hkeys as <- _. apply list_elem_of_here.
Defined.
