(* ===== verification/Grpc.v ===== *)
(** * Grpc: config specs over gRPC, on request and streamed

    Models [src/src/servers/grpc_server.rs] and [src/src/servers/streaming_channel.rs].
    A stream starts with the config its key has now and then follows a channel that all
    streams of the same context share: an observer of the poll results puts every newer
    config into it, and each stream forwards what its receiver finds. The streams, the
    observer and the shutdown interleave; every event below is one section that the code
    runs under a lock or between two waits. *)
From S2P Require Import Prelude Encoding Request Namespaces Backoff Stores SpecDeltas Outbound Fetch.

(** ** Messages *)

Record ConfigSpecRequest := {
  rq_sdk_key : string;
  rq_since_time : option N;
  (** an [i32] *)
  rq_version : option Z;
}.
Record ConfigSpecResponse := { spec : string; response_lcut : N; zstd_dict_id : option string }.

Inductive Status := PermissionDenied (message : string) | ResourceExhausted (message : string).

Definition NO_UPDATE_JSON : string := "{" +:+ String "034" "has_updates" +:+ String "034" ":false}".

Definition show_i32 (z : Z) : string :=
  if bool_decide (z < 0)%Z then "-" +:+ show_u64 (Z.to_N (- z)) else show_u64 (Z.to_N z).

(** No version and version 0 are version 1. *)
Definition get_api_version_from_request (request : ConfigSpecRequest) : Z :=
  let version_number := default 1%Z (rq_version request) in
  if bool_decide (version_number = 0)%Z then 1%Z else version_number.

Definition get_normalized_path_from_request (request : ConfigSpecRequest) : NormalizedPath :=
  let version := get_api_version_from_request request in
  if bool_decide (version = 1)%Z then V1DownloadConfigSpecs
  else if bool_decide (version = 2)%Z then V2DownloadConfigSpecs
  else RawPath ("/v" +:+ show_i32 version +:+ "/download_config_specs/").

Definition context_of_request (request : ConfigSpecRequest) (read write : context_cache)
    : AuthorizedRequestContext * context_cache :=
  get_or_insert (rq_sdk_key request) (get_normalized_path_from_request request) [PlainText] false false None read write.

(** The code compares pointers: the store hands out its own "no update" payload exactly
    when the record is not newer than the time the client has. *)
Definition config_spec_reply (data : ConfigSpecForCompany) (since_time : N) : ConfigSpecResponse := {|
  spec := if bool_decide (cs_lcut data <= since_time)%N then NO_UPDATE_JSON else Namespaces.data (cs_config data);
  response_lcut := cs_lcut data;
  zstd_dict_id := None |}.

(** The whole call, with the fetch of a key that is not registered. *)
Definition grpc_get_config_spec `{SpecsProto} `{PayloadLib}
    (fetch : AuthorizedRequestContext -> N -> proxy -> proxy) (request : ConfigSpecRequest)
    (read write : context_cache) (w : proxy) : result Status ConfigSpecResponse * (context_cache * proxy) :=
  let '(context, cache) := context_of_request request read write in
  let since_time := default 0%N (rq_since_time request) in
  let '(answer, w) := get_config_spec fetch context since_time w in
  (match answer with
   | Some data => Ok (config_spec_reply data since_time)
   | None => Err (PermissionDenied "Unauthorized")
   end, (cache, w)).

(** ** Health *)

Inductive ServingStatus := Serving | NotServing.

(** [HealthService::check]; the division fails when no stream is allowed. *)
Definition health_check (max_concurrent_streams threshold active_connections : N) : option ServingStatus :=
  if bool_decide (max_concurrent_streams = 0)%N then None
  else Some (if bool_decide (active_connections * 100 / max_concurrent_streams <= threshold)%N then Serving else NotServing).

(** ** The channel of a context *)

Definition StreamPayload : Type := option (ResponsePayload * N).

Inductive recv_result :=
| Received (m : StreamPayload)
(** messages were overwritten before they were read *)
| Lagged
(** there is nothing to read yet *)
| Waiting.

(** [tokio::sync::broadcast] with room for one message. *)
Class Broadcast := {
  bc_sender : Type;
  bc_receiver : Type;
  (** [channel(1)] after its first receiver is dropped *)
  bc_channel : bc_sender;
  (** [None]: nobody listens *)
  bc_send : StreamPayload -> bc_sender -> option bc_sender;
  bc_subscribe : bc_sender -> bc_sender * bc_receiver;
  bc_drop : bc_receiver -> bc_sender -> bc_sender;
  bc_recv : bc_sender -> bc_receiver -> recv_result * bc_receiver;
}.

(** Its documentation, in terms of all messages ever sent, the number of receivers, and
    how many messages were sent before the next one a receiver is due. *)
Class BroadcastLaws `{Broadcast} := {
  sent : bc_sender -> list StreamPayload;
  receivers : bc_sender -> nat;
  position : bc_receiver -> nat;
  bc_channel_new : sent bc_channel = [] /\ receivers bc_channel = 0;
  bc_send_nobody m s : receivers s = 0 -> bc_send m s = None;
  bc_send_all m s : receivers s <> 0 ->
    exists s', bc_send m s = Some s' /\ sent s' = sent s ++ [m] /\ receivers s' = receivers s;
  bc_subscribe_new s :
    sent (bc_subscribe s).1 = sent s /\ receivers (bc_subscribe s).1 = S (receivers s) /\
    position (bc_subscribe s).2 = length (sent s);
  bc_drop_one r s : sent (bc_drop r s) = sent s /\ receivers (bc_drop r s) = pred (receivers s);
  bc_recv_nothing s r : position r = length (sent s) -> bc_recv s r = (Waiting, r);
  bc_recv_next s r l m : sent s = l ++ [m] -> position r = length l ->
    exists r', bc_recv s r = (Received m, r') /\ position r' = length (sent s);
  bc_recv_lagged s r : S (position r) < length (sent s) ->
    exists r', bc_recv s r = (Lagged, r') /\ S (position r') = length (sent s);
}.

Section Streams.
Context `{Broadcast}.

Record StreamingChannel := {
  sc_context : AuthorizedRequestContext;
  last_updated : N;
  sender : bc_sender;
}.
Definition channel_new (context : AuthorizedRequestContext) : StreamingChannel :=
  {| sc_context := context; last_updated := 0; sender := bc_channel |}.
Definition with_sender (s : bc_sender) (self : StreamingChannel) : StreamingChannel :=
  {| sc_context := sc_context self; last_updated := last_updated self; sender := s |}.

Definition streaming_update (context : AuthorizedRequestContext) (response : ResponseContext)
    (self : StreamingChannel) : StreamingChannel :=
  let is_newer_lcut := bool_decide (last_updated self < lcut response)%N in
  if is_newer_lcut && context_eqb (sc_context self) context && bool_decide (result_type response = DataAvailable) then
    match bc_send (Some (body response, lcut response)) (sender self) with
    | None => self
    | Some s => {| sc_context := sc_context self; last_updated := lcut response; sender := s |}
    end
  else self.

Abbreviation channels := (gmap context_id StreamingChannel).

(** Subscribing, with the channel of the context or a new one. *)
Definition subscribe (context : AuthorizedRequestContext) (cache : channels) : bc_receiver * channels :=
  let sc := default (channel_new context) (cache !! hash_input context) in
  let '(s, rc) := bc_subscribe (sender sc) in
  (rc, <[hash_input context := with_sender s sc]> cache).

(** [shutdown_signal], for one channel. *)
Definition shutdown_channel (sc : StreamingChannel) : StreamingChannel :=
  match bc_send None (sender sc) with Some s => with_sender s sc | None => sc end.

(** ** Streams *)

(** How far [stream_config_spec] has got: let in, with its first value, subscribed, in
    the loop of its task, or over. *)
Inductive stream_phase :=
| LetIn (since_time : N)
| Initialised (init_value : ConfigSpecResponse)
| Subscribed (init_value : ConfigSpecResponse) (rc : bc_receiver)
| Streaming (rc : bc_receiver) (latest_lcut : N)
| Disconnected.

(** [s_out]: what was handed to the client so far. *)
Record stream := {
  s_context : AuthorizedRequestContext;
  s_phase : stream_phase;
  s_out : list ConfigSpecResponse;
}.
Definition in_phase (p : stream_phase) (s : stream) : stream :=
  {| s_context := s_context s; s_phase := p; s_out := s_out s |}.
Definition hand_out (r : ConfigSpecResponse) (s : stream) : stream :=
  {| s_context := s_context s; s_phase := s_phase s; s_out := s_out s ++ [r] |}.

Record grpc := {
  g_specs : specs;
  update_broadcast_cache : channels;
  g_streams : gmap nat stream;
  CONNECTION_COUNTER : N;
}.
Definition set_streams (f : gmap nat stream -> gmap nat stream) (g : grpc) : grpc :=
  {| g_specs := g_specs g; update_broadcast_cache := update_broadcast_cache g; g_streams := f (g_streams g);
     CONNECTION_COUNTER := CONNECTION_COUNTER g |}.
Definition set_channels (f : channels -> channels) (g : grpc) : grpc :=
  {| g_specs := g_specs g; update_broadcast_cache := f (update_broadcast_cache g); g_streams := g_streams g;
     CONNECTION_COUNTER := CONNECTION_COUNTER g |}.
Definition set_counter (n : N) (g : grpc) : grpc :=
  {| g_specs := g_specs g; update_broadcast_cache := update_broadcast_cache g; g_streams := g_streams g;
     CONNECTION_COUNTER := n |}.

Definition admission (max_concurrent_streams counter : N) : result Status unit :=
  if bool_decide (max_concurrent_streams <= counter)%N
  then Err (ResourceExhausted "Max concurrent streams reached") else Ok tt.

Definition config_response (data : ResponsePayload) (lcut : N) : ConfigSpecResponse :=
  {| spec := Namespaces.data data; response_lcut := lcut; zstd_dict_id := None |}.
Definition heartbeat (latest_lcut : N) : ConfigSpecResponse :=
  {| spec := NO_UPDATE_JSON; response_lcut := latest_lcut; zstd_dict_id := None |}.

(** One turn of the loop of a stream. A turn without a message is the end of a wait of
    30 seconds; [accepted]: is the client still there? *)
Definition stream_turn (accepted : bool) (sc : StreamingChannel) (s : stream) (rc : bc_receiver) (latest_lcut : N)
    : stream * StreamingChannel :=
  let stop rc := (in_phase Disconnected s, with_sender (bc_drop rc (sender sc)) sc) in
  match bc_recv (sender sc) rc with
  | (Received (Some (data, lcut)), rc) =>
      if accepted then (in_phase (Streaming rc lcut) (hand_out (config_response data lcut) s), sc) else stop rc
  | (Received None, rc) => stop rc
  | (Lagged, old) =>
      let '(subscribed, rc) := bc_subscribe (sender sc) in
      (in_phase (Streaming rc latest_lcut) s, with_sender (bc_drop old subscribed) sc)
  | (Waiting, rc) =>
      if accepted then (in_phase (Streaming rc latest_lcut) (hand_out (heartbeat latest_lcut) s), sc) else stop rc
  end.

(** ** Events *)

Inductive grpc_event :=
| EvStored (context : AuthorizedRequestContext) (response : ResponseContext)
| EvNotified (channel : context_id) (context : AuthorizedRequestContext) (response : ResponseContext)
| EvRequest (id : nat) (context : AuthorizedRequestContext) (since_time : N)
| EvInit (id : nat)
| EvSubscribe (id : nat)
| EvBegin (id : nat) (accepted : bool)
| EvTurn (id : nat) (accepted : bool)
| EvShutdown (channel : context_id).

Definition is_streaming (s : stream) : bool := match s_phase s with Streaming _ _ => true | _ => false end.

(** [None]: the event cannot happen now. Losing the channel of a stream would be the
    [expect] of the code, and is shown not to happen. *)
Definition grpc_step (max_concurrent_streams : N) (e : grpc_event) (g : grpc) : option grpc :=
  match e with
  | EvStored context response =>
      Some {| g_specs := config_spec_update context response (g_specs g) (g_specs g) (g_specs g);
              update_broadcast_cache := update_broadcast_cache g; g_streams := g_streams g;
              CONNECTION_COUNTER := CONNECTION_COUNTER g |}
  | EvNotified k context response =>
      sc ← update_broadcast_cache g !! k;
      Some (set_channels <[k := streaming_update context response sc]> g)
  | EvRequest id context since_time =>
      match g_streams g !! id, admission max_concurrent_streams (CONNECTION_COUNTER g) with
      | Some _, _ => None
      | None, Err _ => Some g
      | None, Ok _ =>
          Some (set_streams <[id := {| s_context := context; s_phase := LetIn since_time; s_out := [] |}]> g)
      end
  | EvInit id =>
      s ← g_streams g !! id;
      match s_phase s with
      | LetIn since_time =>
          Some match config_spec_answer (g_specs g !! hash_input (s_context s)) since_time with
               | Some data => set_streams <[id := in_phase (Initialised (config_spec_reply data since_time)) s]> g
               | None => set_streams (delete id) g
               end
      | _ => None
      end
  | EvSubscribe id =>
      s ← g_streams g !! id;
      match s_phase s with
      | Initialised init =>
          let '(rc, cache) := subscribe (s_context s) (update_broadcast_cache g) in
          Some (set_streams <[id := in_phase (Subscribed init rc) s]> (set_channels (fun _ => cache) g))
      | _ => None
      end
  | EvBegin id accepted =>
      s ← g_streams g !! id;
      match s_phase s with
      | Subscribed init rc =>
          let s := in_phase (Streaming rc (response_lcut init)) (if accepted then hand_out init s else s) in
          Some (set_counter (CONNECTION_COUNTER g + 1) (set_streams <[id := s]> g))
      | _ => None
      end
  | EvTurn id accepted =>
      s ← g_streams g !! id;
      match s_phase s with
      | Streaming rc latest_lcut =>
          sc ← update_broadcast_cache g !! hash_input (s_context s);
          let '(s, sc) := stream_turn accepted sc s rc latest_lcut in
          Some (set_counter (if is_streaming s then CONNECTION_COUNTER g else CONNECTION_COUNTER g - 1)
                 (set_streams <[id := s]> (set_channels <[hash_input (s_context s) := sc]> g)))
      | _ => None
      end
  | EvShutdown k =>
      sc ← update_broadcast_cache g !! k;
      Some (set_channels <[k := shutdown_channel sc]> g)
  end.

Definition grpc_new : grpc := {| g_specs := ∅; update_broadcast_cache := ∅; g_streams := ∅; CONNECTION_COUNTER := 0 |}.

Fixpoint grpc_run (max_concurrent_streams : N) (events : list grpc_event) (g : grpc) : option grpc :=
  match events with
  | [] => Some g
  | e :: events => g ← grpc_step max_concurrent_streams e g; grpc_run max_concurrent_streams events g
  end.
End Streams.

(** ** Counting streams *)

Section Counting.
Context {A : Type} (P : A -> bool).
Implicit Types m : gmap nat A.

Definition count (m : gmap nat A) : nat := size (filter (fun p => P p.2 = true) m).

Lemma count_insert_new m id s : m !! id = None -> count (<[id := s]> m) = Nat.b2n (P s) + count m.
Proof.
  intros Hid. unfold count. destruct (P s) eqn:E; cbn [Nat.b2n].
  - rewrite map_filter_insert_True by done. rewrite map_size_insert_None; [done|].
    apply map_lookup_filter_None. by left.
  - rewrite map_filter_insert_False by (cbn; congruence). by rewrite delete_id.
Qed.

Lemma count_delete m id s : m !! id = Some s -> count m = Nat.b2n (P s) + count (delete id m).
Proof. intros Hid. rewrite <- (insert_delete_id _ _ _ Hid) at 1. apply count_insert_new, lookup_delete_eq. Qed.

Lemma count_update m id s s' :
  m !! id = Some s -> count (<[id := s']> m) + Nat.b2n (P s) = count m + Nat.b2n (P s').
Proof.
  intros Hid. rewrite <- insert_delete_eq, count_insert_new by apply lookup_delete_eq.
  rewrite (count_delete m id s Hid). lia.
Qed.

Lemma count_same m id s s' : m !! id = Some s -> P s' = P s -> count (<[id := s']> m) = count m.
Proof. intros Hid HP. pose proof (count_update m id s s' Hid) as Hc. rewrite HP in Hc. lia. Qed.

Lemma count_zero m : (forall id s, m !! id = Some s -> P s = false) -> count m = 0.
Proof.
  intros Hnone. unfold count. apply map_size_empty_iff, map_empty. intros id.
  apply map_lookup_filter_None. right. intros s Hid. cbn. by rewrite (Hnone id s Hid).
Qed.
End Counting.

(** ** What a turn does *)

Section Turns.
Context `{BroadcastLaws}.

Inductive turned (sc : StreamingChannel) (s : stream) (rc : bc_receiver) (latest : N) : stream -> StreamingChannel -> Prop :=
| turned_beat rc' :
    position rc = length (sent (sender sc)) -> position rc' = position rc ->
    turned sc s rc latest (in_phase (Streaming rc' latest) (hand_out (heartbeat latest) s)) sc
| turned_config rc' l data lcut :
    sent (sender sc) = l ++ [Some (data, lcut)] -> position rc = length l ->
    position rc' = length (sent (sender sc)) ->
    turned sc s rc latest (in_phase (Streaming rc' lcut) (hand_out (config_response data lcut) s)) sc
| turned_lag rc' snd :
    S (position rc) < length (sent (sender sc)) -> position rc' = length (sent (sender sc)) ->
    sent snd = sent (sender sc) -> receivers snd = receivers (sender sc) ->
    turned sc s rc latest (in_phase (Streaming rc' latest) s) (with_sender snd sc)
| turned_stop snd :
    sent snd = sent (sender sc) -> receivers snd = pred (receivers (sender sc)) ->
    turned sc s rc latest (in_phase Disconnected s) (with_sender snd sc).

Lemma stop_turned sc s rc latest rc' :
  turned sc s rc latest (in_phase Disconnected s) (with_sender (bc_drop rc' (sender sc)) sc).
Proof. destruct (bc_drop_one rc' (sender sc)). by apply turned_stop. Qed.

Lemma stream_turn_turned accepted sc s rc latest :
  position rc <= length (sent (sender sc)) ->
  turned sc s rc latest (stream_turn accepted sc s rc latest).1 (stream_turn accepted sc s rc latest).2.
Proof.
  intros Hpos. unfold stream_turn.
  destruct (decide (position rc = length (sent (sender sc)))) as [Hnone|Hnone].
  { rewrite bc_recv_nothing by done. destruct accepted; [by apply turned_beat|apply stop_turned]. }
  destruct (decide (S (position rc) = length (sent (sender sc)))) as [Hone|Hmany].
  - assert (exists l m, sent (sender sc) = l ++ [m] /\ position rc = length l) as (l & m & El & Hl).
    { destruct (sent (sender sc)) as [|m l _] using rev_ind; [done|]. exists l, m. split; [done|].
      rewrite length_app in Hone. cbn in Hone. lia. }
    destruct (bc_recv_next (sender sc) rc l m El Hl) as (rc' & -> & Hpos').
    destruct m as [[data lcut]|]; [|apply stop_turned].
    destruct accepted; [|apply stop_turned]. by eapply turned_config.
  - destruct (bc_recv_lagged (sender sc) rc) as (old & -> & _); [lia|].
    pose proof (bc_subscribe_new (sender sc)) as Hsub. destruct (bc_subscribe (sender sc)) as [snd' rc']. cbn [fst snd] in *.
    destruct Hsub as (Hsent & Hrecv & Hpos'). destruct (bc_drop_one old snd') as [Hsent' Hrecv'].
    apply turned_lag; [lia|done|congruence|]. rewrite Hrecv', Hrecv. done.
Qed.
End Turns.

(** ** The invariant *)

Section Invariant.
Context `{BroadcastLaws}.
Implicit Types (hist : list grpc_event) (chans : gmap context_id StreamingChannel) (k : context_id).

(** A poll for an equal context brought this config with this time. *)
Definition notified hist k (data : ResponsePayload) (l : N) : Prop :=
  exists context response, EvNotified k context response ∈ hist /\ hash_input context = k /\
    result_type response = DataAvailable /\ body response = data /\ lcut response = l.

(** What a client was handed: its first config, configs that polls brought, each newer
    than the ones before it from the channel, and repetitions of the last time. [floor]
    is the time of the last config from the channel. *)
Inductive handed hist k (init : ConfigSpecResponse) : list ConfigSpecResponse -> N -> N -> Prop :=
| handed_none : handed hist k init [] (response_lcut init) 0
| handed_init : handed hist k init [init] (response_lcut init) 0
| handed_config out latest floor data l :
    handed hist k init out latest floor -> (floor < l)%N -> notified hist k data l ->
    handed hist k init (out ++ [config_response data l]) l l
| handed_beat out latest floor :
    handed hist k init out latest floor -> handed hist k init (out ++ [heartbeat latest]) latest floor.

(** The receiver has its channel, and what it has not read is newer than [floor]. *)
Definition listens chans k (rc : bc_receiver) (floor : N) : Prop :=
  exists sc, chans !! k = Some sc /\ position rc <= length (sent (sender sc)) /\ (floor <= last_updated sc)%N /\
    forall data l, Some (data, l) ∈ drop (position rc) (sent (sender sc)) -> (floor < l)%N.

(** What the store holds after a history. *)
Definition stored_step (m : specs) (e : grpc_event) : specs :=
  match e with EvStored context response => config_spec_update context response m m m | _ => m end.
Definition stored_specs hist : specs := foldl stored_step ∅ hist.

(** The first value of a stream: what the store had for its context, at the time the client
    asked from, when the stream was initialised. *)
Definition first_value hist (id : nat) (context : AuthorizedRequestContext) (init : ConfigSpecResponse) : Prop :=
  exists before after since_time record,
    hist = before ++ EvInit id :: after /\ EvRequest id context since_time ∈ before /\
    config_spec_answer (stored_specs before !! hash_input context) since_time = Some record /\
    init = config_spec_reply record since_time.

Definition stream_ok hist chans (id : nat) (s : stream) : Prop :=
  let k := hash_input (s_context s) in
  let first := first_value hist id (s_context s) in
  match s_phase s with
  | LetIn since_time => s_out s = [] /\ EvRequest id (s_context s) since_time ∈ hist
  | Initialised init => s_out s = [] /\ first init
  | Subscribed init rc => s_out s = [] /\ first init /\ listens chans k rc 0
  | Streaming rc latest => exists init floor, first init /\ handed hist k init (s_out s) latest floor /\ listens chans k rc floor
  | Disconnected => exists init latest floor, first init /\ handed hist k init (s_out s) latest floor
  end.

Definition channel_ok hist k (n : nat) (sc : StreamingChannel) : Prop :=
  hash_input (sc_context sc) = k /\ receivers (sender sc) = n /\
  forall data l, Some (data, l) ∈ sent (sender sc) -> (0 < l <= last_updated sc)%N /\ notified hist k data l.

Definition attached k (s : stream) : bool :=
  match s_phase s with
  | Subscribed _ _ | Streaming _ _ => bool_decide (hash_input (s_context s) = k)
  | _ => false
  end.

Record grpc_ok hist (g : grpc) : Prop := {
  ok_counter : CONNECTION_COUNTER g = N.of_nat (count is_streaming (g_streams g));
  ok_channel k sc : update_broadcast_cache g !! k = Some sc -> channel_ok hist k (count (attached k) (g_streams g)) sc;
  ok_stream id s : g_streams g !! id = Some s -> stream_ok hist (update_broadcast_cache g) id s;
}.

(** *** Monotonicity *)

(** Channels only grow, and by newer configs. *)
Definition evolves (sc sc' : StreamingChannel) : Prop :=
  (last_updated sc <= last_updated sc')%N /\
  exists new, sent (sender sc') = sent (sender sc) ++ new /\ forall data l, Some (data, l) ∈ new -> (last_updated sc < l)%N.
Definition channels_evolve chans chans' : Prop :=
  forall k sc, chans !! k = Some sc -> exists sc', chans' !! k = Some sc' /\ evolves sc sc'.

Lemma evolves_same sc sc' :
  last_updated sc' = last_updated sc -> sent (sender sc') = sent (sender sc) -> evolves sc sc'.
Proof. intros Hl Hs. split; [lia|]. exists []. rewrite app_nil_r. split; [done|]. by intros ?? ?%elem_of_nil. Qed.

Lemma channels_evolve_insert chans k sc' :
  (forall sc, chans !! k = Some sc -> evolves sc sc') -> channels_evolve chans (<[k := sc']> chans).
Proof.
  intros Hk k' sc Hsc. destruct (decide (k = k')) as [<-|Hne].
  - exists sc'. rewrite lookup_insert_eq. auto.
  - exists sc. rewrite lookup_insert_ne by done. split; [done|]. by apply evolves_same.
Qed.

Lemma listens_mono chans chans' k rc floor :
  channels_evolve chans chans' -> listens chans k rc floor -> listens chans' k rc floor.
Proof.
  intros Hev (sc & Hsc & Hpos & Hfloor & Hun). destruct (Hev k sc Hsc) as (sc' & Hsc' & Hle & new & Hsent & Hnew).
  exists sc'. rewrite Hsent, length_app. split_and!; [done|lia|lia|].
  intros data l. rewrite drop_app_le by done. rewrite elem_of_app. intros [Hin|Hin]; [by eapply Hun|].
  specialize (Hnew data l Hin). lia.
Qed.

Lemma notified_mono hist hist' k data l : hist ⊆ hist' -> notified hist k data l -> notified hist' k data l.
Proof. intros Hsub (c & r & Hin & ?). exists c, r. split; [by apply Hsub|done]. Qed.

Lemma handed_mono hist hist' k init out latest floor :
  hist ⊆ hist' -> handed hist k init out latest floor -> handed hist' k init out latest floor.
Proof. intros Hsub. induction 1; econstructor; eauto using notified_mono. Qed.

Lemma hist_ext hist ext : hist ⊆ hist ++ ext.
Proof. intros x. rewrite elem_of_app. auto. Qed.
Lemma first_value_mono hist ext id context init :
  first_value hist id context init -> first_value (hist ++ ext) id context init.
Proof.
  intros (before & after & since & record & -> & Hreq & Hans & ->). exists before, (after ++ ext), since, record.
  by rewrite <- app_assoc.
Qed.

Lemma stream_ok_mono hist ext chans chans' id s :
  channels_evolve chans chans' -> stream_ok hist chans id s -> stream_ok (hist ++ ext) chans' id s.
Proof.
  pose proof (hist_ext hist ext) as Hh. unfold stream_ok. intros Hc.
  destruct (s_phase s) as [since|init|init rc|rc latest|].
  - intros [? ?]. split; [done|by apply Hh].
  - intros [? ?]. by split; [|apply first_value_mono].
  - intros (? & ? & ?). split_and!; [done|by apply first_value_mono|by eapply listens_mono].
  - intros (init & floor & ? & ? & ?). exists init, floor. split_and!;
      [by apply first_value_mono|by eapply handed_mono|by eapply listens_mono].
  - intros (init & latest & floor & ? & ?). exists init, latest, floor. split; [by apply first_value_mono|by eapply handed_mono].
Qed.

Lemma channel_ok_mono hist hist' k n sc : hist ⊆ hist' -> channel_ok hist k n sc -> channel_ok hist' k n sc.
Proof.
  intros Hh (Hk & Hn & Hall). split_and!; [done..|]. intros data l Hin. destruct (Hall data l Hin). eauto using notified_mono.
Qed.

(** *** Every event keeps the invariant *)

Lemma grpc_ok_change hist e g g' :
  grpc_ok hist g -> channels_evolve (update_broadcast_cache g) (update_broadcast_cache g') ->
  CONNECTION_COUNTER g' = N.of_nat (count is_streaming (g_streams g')) ->
  (forall k sc, update_broadcast_cache g' !! k = Some sc -> channel_ok (hist ++ [e]) k (count (attached k) (g_streams g')) sc) ->
  (forall id s, g_streams g' !! id = Some s ->
    g_streams g !! id = Some s \/ stream_ok (hist ++ [e]) (update_broadcast_cache g') id s) ->
  grpc_ok (hist ++ [e]) g'.
Proof.
  intros Hok Hev Hcount Hchan Hstream. split; [done|done|]. intros id s Hs.
  destruct (Hstream id s Hs) as [Hold|Hnew]; [|done]. eapply stream_ok_mono; [done|by eapply ok_stream].
Qed.

Lemma channels_evolve_refl chans : channels_evolve chans chans.
Proof. intros k sc Hsc. exists sc. split; [done|]. by apply evolves_same. Qed.

Lemma hist_step hist e : hist ⊆ hist ++ [e].
Proof. apply hist_ext. Qed.

(** One channel changes, with as many receivers as before. *)
Lemma grpc_ok_channel hist e g k sc sc' :
  grpc_ok hist g -> update_broadcast_cache g !! k = Some sc -> evolves sc sc' ->
  (channel_ok hist k (receivers (sender sc)) sc -> channel_ok (hist ++ [e]) k (receivers (sender sc)) sc') ->
  grpc_ok (hist ++ [e]) (set_channels <[k := sc']> g).
Proof.
  intros Hok Hsc Hev Hchan. apply (grpc_ok_change hist e g); cbn [set_channels update_broadcast_cache g_streams CONNECTION_COUNTER];
    [done|apply channels_evolve_insert; intros ? [= <-]%(eq_trans (eq_sym Hsc)); exact Hev|by apply (ok_counter hist)| |by left].
  intros k' sc0. destruct (decide (k = k')) as [<-|Hne].
  - rewrite lookup_insert_eq. intros [= <-]. pose proof (ok_channel _ _ Hok k sc Hsc) as Hold.
    assert (receivers (sender sc) = count (attached k) (g_streams g)) as Hr by apply Hold. rewrite <- Hr in Hold |- *.
    by apply Hchan.
  - rewrite lookup_insert_ne by done. intros Hsc0. eapply channel_ok_mono; [apply hist_step|by eapply ok_channel].
Qed.

(** What an update of a channel does. *)
Lemma streaming_update_cases context response sc :
  streaming_update context response sc = sc \/
  (last_updated sc < lcut response)%N /\ hash_input (sc_context sc) = hash_input context /\
  result_type response = DataAvailable /\
  exists s', sent s' = sent (sender sc) ++ [Some (body response, lcut response)] /\ receivers s' = receivers (sender sc) /\
    streaming_update context response sc = {| sc_context := sc_context sc; last_updated := lcut response; sender := s' |}.
Proof.
  unfold streaming_update. destruct (_ && _) eqn:E; [|by left].
  apply andb_true_iff in E as [[Hl Hc]%andb_true_iff Hr]. boolify. apply context_eq_hash in Hc.
  destruct (decide (receivers (sender sc) = 0)) as [Hz|Hz].
  - left. by rewrite bc_send_nobody.
  - destruct (bc_send_all (Some (body response, lcut response)) (sender sc) Hz) as (s' & Hs & Hsent & Hrecv).
    rewrite Hs. right. eauto 10.
Qed.

Lemma notified_keeps hist g k context response sc :
  grpc_ok hist g -> update_broadcast_cache g !! k = Some sc ->
  grpc_ok (hist ++ [EvNotified k context response]) (set_channels <[k := streaming_update context response sc]> g).
Proof.
  intros Hok Hsc. destruct (streaming_update_cases context response sc) as [->|(Hl & Hc & Hr & s' & Hsent & Hrecv & ->)].
  - eapply grpc_ok_channel; [done|done|by apply evolves_same|]. apply channel_ok_mono, hist_step.
  - eapply grpc_ok_channel; [done|exact Hsc| |].
    + split; cbn [last_updated sender]; [lia|]. eexists. split; [exact Hsent|].
      intros data l [= -> ->]%list_elem_of_singleton. done.
    + intros (Hk & Hn & Hall). split_and!; cbn [sc_context sender last_updated]; [done|done|]. intros data l.
      rewrite Hsent, elem_of_app, list_elem_of_singleton. intros [Hin|[= -> ->]].
      * destruct (Hall data l Hin) as [? ?]. split; [lia|]. eauto using notified_mono, hist_step.
      * split; [lia|]. exists context, response. rewrite elem_of_app, list_elem_of_singleton.
        split_and!; [by right|congruence|done..].
Qed.

Lemma shutdown_keeps hist g k sc :
  grpc_ok hist g -> update_broadcast_cache g !! k = Some sc ->
  grpc_ok (hist ++ [EvShutdown k]) (set_channels <[k := shutdown_channel sc]> g).
Proof.
  intros Hok Hsc. unfold shutdown_channel. destruct (decide (receivers (sender sc) = 0)) as [Hz|Hz].
  - rewrite bc_send_nobody by done.
    eapply grpc_ok_channel; [done|done|by apply evolves_same|]. apply channel_ok_mono, hist_step.
  - destruct (bc_send_all None (sender sc) Hz) as (s' & -> & Hsent & Hrecv).
    eapply grpc_ok_channel; [done|exact Hsc| |].
    + split; cbn [with_sender last_updated sender]; [lia|]. eexists. split; [exact Hsent|]. by intros data l ?%list_elem_of_singleton.
    + intros (Hk & Hn & Hall). split_and!; cbn [with_sender sc_context sender last_updated]; [done|done|]. intros data l.
      rewrite Hsent, elem_of_app, list_elem_of_singleton. intros [Hin|?]; [|done].
      destruct (Hall data l Hin) as [? ?]. split; [lia|]. eauto using notified_mono, hist_step.
Qed.

(** One stream changes, and goes on listening or not listening. *)
Lemma grpc_ok_stream hist e g id s s' n :
  grpc_ok hist g -> g_streams g !! id = Some s -> (forall k, attached k s' = attached k s) ->
  stream_ok (hist ++ [e]) (update_broadcast_cache g) id s' ->
  (n + N.b2n (is_streaming s) = CONNECTION_COUNTER g + N.b2n (is_streaming s'))%N ->
  grpc_ok (hist ++ [e]) (set_counter n (set_streams <[id := s']> g)).
Proof.
  intros Hok Hs Hatt Hs' Hn. apply (grpc_ok_change hist e g);
    cbn [set_counter set_streams update_broadcast_cache g_streams CONNECTION_COUNTER]; [done|apply channels_evolve_refl| | |].
  - pose proof (count_update is_streaming _ id s s' Hs) as Hc. rewrite (ok_counter _ _ Hok) in Hn.
    destruct (is_streaming s), (is_streaming s'); cbn [Nat.b2n N.b2n] in *; lia.
  - intros k sc Hsc. rewrite (count_same _ _ id s s' Hs (Hatt k)).
    eapply channel_ok_mono; [apply hist_step|by eapply ok_channel].
  - intros id' s0. destruct (decide (id = id')) as [<-|Hne].
    + rewrite lookup_insert_eq. intros [= <-]. by right.
    + rewrite lookup_insert_ne by done. by left.
Qed.

(** A stream and its channel change together. *)
Lemma grpc_ok_both hist e g id s s' k sc' n :
  grpc_ok hist g -> g_streams g !! id = Some s -> s_context s' = s_context s -> k = hash_input (s_context s) ->
  (forall sc, update_broadcast_cache g !! k = Some sc -> evolves sc sc') ->
  channel_ok (hist ++ [e]) k (count (attached k) (<[id := s']> (g_streams g))) sc' ->
  stream_ok (hist ++ [e]) (<[k := sc']> (update_broadcast_cache g)) id s' ->
  (n + N.b2n (is_streaming s) = CONNECTION_COUNTER g + N.b2n (is_streaming s'))%N ->
  grpc_ok (hist ++ [e]) (set_counter n (set_streams <[id := s']> (set_channels <[k := sc']> g))).
Proof.
  intros Hok Hs Hctx Hk Hev Hchan Hs' Hn. apply (grpc_ok_change hist e g);
    cbn [set_counter set_streams set_channels update_broadcast_cache g_streams CONNECTION_COUNTER];
    [done|by apply channels_evolve_insert| | |].
  - pose proof (count_update is_streaming _ id s s' Hs) as Hc. rewrite (ok_counter _ _ Hok) in Hn.
    destruct (is_streaming s), (is_streaming s'); cbn [Nat.b2n N.b2n] in *; lia.
  - intros k' sc0. destruct (decide (k = k')) as [<-|Hne].
    + rewrite lookup_insert_eq. by intros [= <-].
    + rewrite lookup_insert_ne by done. intros Hsc0. rewrite (count_same _ _ id s s' Hs).
      * eapply channel_ok_mono; [apply hist_step|by eapply ok_channel].
      * unfold attached. rewrite Hctx, bool_decide_eq_false_2 by congruence. by destruct (s_phase s), (s_phase s').
  - intros id' s0. destruct (decide (id = id')) as [<-|Hne].
    + rewrite lookup_insert_eq. intros [= <-]. by right.
    + rewrite lookup_insert_ne by done. by left.
Qed.

Lemma request_keeps hist g id context since_time (e := EvRequest id context since_time) :
  grpc_ok hist g -> g_streams g !! id = None ->
  grpc_ok (hist ++ [e]) (set_streams <[id := {| s_context := context; s_phase := LetIn since_time; s_out := [] |}]> g).
Proof.
  intros Hok Hid. apply (grpc_ok_change hist e g); cbn [set_streams update_broadcast_cache g_streams CONNECTION_COUNTER];
    [done|apply channels_evolve_refl| | |].
  - rewrite count_insert_new by done. apply (ok_counter hist g Hok).
  - intros k sc Hsc. rewrite count_insert_new by done. eapply channel_ok_mono; [apply hist_step|by eapply ok_channel].
  - intros id' s0. destruct (decide (id = id')) as [<-|Hne].
    + rewrite lookup_insert_eq. intros [= <-]. right. split; [done|]. rewrite elem_of_app, list_elem_of_singleton. by right.
    + rewrite lookup_insert_ne by done. by left.
Qed.

Lemma refused_keeps hist e g id s since_time :
  grpc_ok hist g -> g_streams g !! id = Some s -> s_phase s = LetIn since_time ->
  grpc_ok (hist ++ [e]) (set_streams (delete id) g).
Proof.
  intros Hok Hs Hp. apply (grpc_ok_change hist e g); cbn [set_streams update_broadcast_cache g_streams CONNECTION_COUNTER];
    [done|apply channels_evolve_refl| | |].
  - rewrite (ok_counter hist g Hok). rewrite (count_delete is_streaming _ id s Hs). unfold is_streaming at 1. by rewrite Hp.
  - intros k sc Hsc. pose proof (ok_channel _ _ Hok k sc Hsc) as Hold. rewrite (count_delete _ _ id s Hs) in Hold.
    unfold attached at 1 in Hold. rewrite Hp in Hold. by eapply channel_ok_mono; [apply hist_step|].
  - intros id' s0 [_ Hs0]%lookup_delete_Some. by left.
Qed.

Lemma nobody_attached hist g k : grpc_ok hist g -> update_broadcast_cache g !! k = None -> count (attached k) (g_streams g) = 0.
Proof.
  intros Hok Hk. apply count_zero. intros id s Hs. pose proof (ok_stream _ _ Hok id s Hs) as Hst.
  unfold stream_ok, attached in *. destruct (s_phase s); try done; apply bool_decide_eq_false_2; intros Heq;
    rewrite Heq in Hst; unfold listens in Hst; rewrite Hk in Hst; naive_solver.
Qed.

(** The channel of a context, or a new one, as a stream finds it. *)
Lemma found_channel_ok hist g context :
  grpc_ok hist g ->
  let k := hash_input context in
  channel_ok hist k (count (attached k) (g_streams g)) (default (channel_new context) (update_broadcast_cache g !! k)).
Proof.
  intros Hok k. destruct (update_broadcast_cache g !! k) as [sc|] eqn:E; cbn [default from_option]; [by apply ok_channel|].
  rewrite (nobody_attached hist g k Hok E). destruct bc_channel_new as [Hs Hr].
  split_and!; cbn [channel_new sc_context sender]; [done|done|]. rewrite Hs. by intros data l ?%elem_of_nil.
Qed.

Lemma subscribe_keeps hist g id s init :
  grpc_ok hist g -> g_streams g !! id = Some s -> s_phase s = Initialised init ->
  let '(rc, cache) := subscribe (s_context s) (update_broadcast_cache g) in
  grpc_ok (hist ++ [EvSubscribe id]) (set_streams <[id := in_phase (Subscribed init rc) s]> (set_channels (fun _ => cache) g)).
Proof.
  intros Hok Hs Hp. unfold subscribe. set (k := hash_input (s_context s)). set (sc := default _ _).
  pose proof (found_channel_ok hist g (s_context s) Hok) as Hsc. cbn zeta in Hsc. fold k sc in Hsc. destruct Hsc as (Hk & Hn & Hall).
  pose proof (bc_subscribe_new (sender sc)) as Hsub. destruct (bc_subscribe (sender sc)) as [s' rc]. cbn [fst snd] in Hsub.
  destruct Hsub as (Hsent & Hrecv & Hpos).
  assert (stream_ok hist (update_broadcast_cache g) id s) as Hst by (by eapply ok_stream).
  unfold stream_ok in Hst. rewrite Hp in Hst.
  apply (grpc_ok_both hist (EvSubscribe id) g id s (in_phase (Subscribed init rc) s) k (with_sender s' sc) (CONNECTION_COUNTER g));
    [done|done|done|done| | | |].
  - intros sc0 Hsc0. apply evolves_same; unfold sc; rewrite Hsc0; [done|]. cbn [with_sender sender default from_option]. unfold sc in Hsent.
    by rewrite Hsc0 in Hsent.
  - split_and!; cbn [with_sender sc_context sender last_updated]; [done| |].
    + pose proof (count_update (attached k) _ id s (in_phase (Subscribed init rc) s) Hs) as Hc.
      assert (attached k s = false) as Hno by (unfold attached; by rewrite Hp).
      assert (attached k (in_phase (Subscribed init rc) s) = true) as Hyes by (by apply bool_decide_eq_true_2).
      rewrite Hno, Hyes in Hc. cbn [Nat.b2n] in Hc. lia.
    + intros data l. rewrite Hsent. intros Hin. destruct (Hall data l Hin). eauto using notified_mono, hist_step.
  - unfold stream_ok. cbn [in_phase s_phase s_out s_context]. fold k. destruct Hst as [Hout Hfirst].
    split; [done|]. split; [by apply first_value_mono|].
    exists (with_sender s' sc). rewrite lookup_insert_eq. cbn [with_sender sender last_updated]. rewrite Hsent, Hpos, drop_all.
    split_and!; [done|lia|lia|]. by intros ?? ?%elem_of_nil.
  - unfold is_streaming. rewrite Hp. cbn. lia.
Qed.

Lemma begin_keeps hist g id (accepted : bool) s init rc :
  grpc_ok hist g -> g_streams g !! id = Some s -> s_phase s = Subscribed init rc ->
  let s' := in_phase (Streaming rc (response_lcut init)) (if accepted then hand_out init s else s) in
  grpc_ok (hist ++ [EvBegin id accepted]) (set_counter (CONNECTION_COUNTER g + 1) (set_streams <[id := s']> g)).
Proof.
  intros Hok Hs Hp s'.
  assert (stream_ok hist (update_broadcast_cache g) id s) as Hst by (by eapply ok_stream).
  unfold stream_ok in Hst. rewrite Hp in Hst. destruct Hst as (Hout & Hfirst & Hlisten).
  apply (grpc_ok_stream hist _ g id s s'); [done|done| | |].
  - intros k. unfold attached. rewrite Hp. by destruct accepted.
  - unfold stream_ok, s'. cbn [in_phase s_phase]. exists init, 0%N. split_and!.
    + apply first_value_mono. by destruct accepted.
    + destruct accepted; cbn [in_phase hand_out s_out s_context]; rewrite Hout; [apply handed_init|apply handed_none].
    + by destruct accepted.
  - unfold is_streaming. rewrite Hp. cbn. lia.
Qed.

(** The channel after a turn: the same messages, and one receiver fewer when the stream stopped. *)
Lemma turned_channel hist k sc s rc latest s' sc' m id :
  turned sc s rc latest s' sc' -> k = hash_input (s_context s) -> m !! id = Some s -> attached k s = true ->
  channel_ok hist k (count (attached k) m) sc ->
  s_context s' = s_context s /\ evolves sc sc' /\ channel_ok hist k (count (attached k) (<[id := s']> m)) sc'.
Proof.
  intros Ht Hk Hs Hatt (Hctx & Hn & Hall).
  assert (forall rc' latest' out, attached k {| s_context := s_context s; s_phase := Streaming rc' latest'; s_out := out |} = attached k s)
    as Hsame by (intros; rewrite Hatt; by apply bool_decide_eq_true_2).
  destruct Ht as [rc' _ _|rc' l data lc _ _ _|rc' snd' _ _ Hsent Hrecv|snd' Hsent Hrecv];
    (split; [done|]); (split; [by apply evolves_same|]).
  - erewrite (count_same (attached k) m id s); [|exact Hs|apply Hsame]. done.
  - erewrite (count_same (attached k) m id s); [|exact Hs|apply Hsame]. done.
  - erewrite (count_same (attached k) m id s); [|exact Hs|apply Hsame].
    split_and!; cbn [with_sender sc_context sender last_updated]; [done|congruence|by rewrite Hsent].
  - split_and!; cbn [with_sender sc_context sender last_updated]; [done| |by rewrite Hsent].
    pose proof (count_update (attached k) _ id s (in_phase Disconnected s) Hs) as Hc.
    rewrite Hatt in Hc. cbn [attached in_phase s_phase Nat.b2n] in Hc. lia.
Qed.

(** The stream after a turn. *)
Lemma turned_stream hist chans k sc id s rc latest s' sc' n init floor :
  turned sc s rc latest s' sc' -> k = hash_input (s_context s) -> channel_ok hist k n sc ->
  first_value hist id (s_context s) init -> handed hist k init (s_out s) latest floor ->
  position rc <= length (sent (sender sc)) -> (floor <= last_updated sc)%N ->
  (forall data l, Some (data, l) ∈ drop (position rc) (sent (sender sc)) -> (floor < l)%N) ->
  stream_ok hist (<[k := sc']> chans) id s'.
Proof.
  intros Ht -> (_ & _ & Hall) Hfirst Hh Hpos Hfloor Hun.
  destruct Ht as [rc' _ Hpos'|rc' l data lc Hsent Hlen Hpos'|rc' snd' _ Hpos' Hsent _|snd' _ _];
    unfold stream_ok, listens; cbn [in_phase hand_out s_phase s_out s_context].
  - exists init, floor. split; [done|]. split; [by apply handed_beat|]. exists sc. rewrite lookup_insert_eq, Hpos'. done.
  - destruct (Hall data lc) as [Hle Hnot]; [rewrite Hsent, elem_of_app, list_elem_of_singleton; by right|].
    exists init, lc. split_and!; [done| |].
    + eapply handed_config; [done| |done]. apply (Hun data). rewrite Hsent, Hlen, drop_app_length. by left.
    + exists sc. rewrite lookup_insert_eq, Hpos', drop_all. split_and!; [done|lia|lia|]. by intros ?? ?%elem_of_nil.
  - exists init, floor. split; [done|]. split; [done|]. exists (with_sender snd' sc). rewrite lookup_insert_eq.
    cbn [with_sender sender last_updated]. rewrite Hsent, Hpos', drop_all.
    split_and!; [done|lia|done|]. by intros ?? ?%elem_of_nil.
  - by exists init, latest, floor.
Qed.

Lemma turn_keeps hist g id accepted s rc latest sc :
  grpc_ok hist g -> g_streams g !! id = Some s -> s_phase s = Streaming rc latest ->
  update_broadcast_cache g !! hash_input (s_context s) = Some sc ->
  let '(s', sc') := stream_turn accepted sc s rc latest in
  grpc_ok (hist ++ [EvTurn id accepted])
    (set_counter (if is_streaming s' then CONNECTION_COUNTER g else CONNECTION_COUNTER g - 1)
      (set_streams <[id := s']> (set_channels <[hash_input (s_context s') := sc']> g))).
Proof.
  intros Hok Hs Hp Hsc. pose proof (ok_stream _ _ Hok id s Hs) as Hst. set (k := hash_input (s_context s)) in *.
  unfold stream_ok in Hst. rewrite Hp in Hst. fold k in Hst. destruct Hst as (init & floor & Hfirst & Hh & sc0 & Hsc0 & Hpos & Hfloor & Hun).
  apply (first_value_mono _ [EvTurn id accepted]) in Hfirst.
  rewrite Hsc in Hsc0. injection Hsc0 as <-.
  apply (handed_mono _ (hist ++ [EvTurn id accepted])) in Hh; [|apply hist_step].
  assert (channel_ok (hist ++ [EvTurn id accepted]) k (count (attached k) (g_streams g)) sc) as Hchan.
  { eapply channel_ok_mono; [apply hist_step|by apply (ok_channel hist g Hok)]. }
  assert (attached k s = true) as Hatt by (unfold attached; rewrite Hp; by apply bool_decide_eq_true_2).
  assert (is_streaming s = true) as Hss by (unfold is_streaming; by rewrite Hp).
  pose proof (stream_turn_turned accepted sc s rc latest Hpos) as Ht. destruct (stream_turn accepted sc s rc latest) as [s' sc'].
  cbn [fst snd] in Ht. destruct (turned_channel _ k _ _ _ _ _ _ _ id Ht eq_refl Hs Hatt Hchan) as (Hctx & Hev & Hchan').
  rewrite Hctx. fold k. eapply grpc_ok_both; [done|exact Hs|done|done| |done| |].
  - by intros sc1 [= <-]%(eq_trans (eq_sym Hsc)).
  - by eapply turned_stream.
  - rewrite Hss. pose proof (ok_counter _ _ Hok) as Hcount. rewrite (count_delete _ _ id s Hs), Hss in Hcount.
    destruct (is_streaming s'); cbn [Nat.b2n N.b2n] in *; lia.
Qed.

(** *** Runs *)

(** Looking into a step. *)
Ltac open_step :=
  repeat match goal with
  | Hstep : (match ?x with _ => _ end) = Some _ |- _ => let E := fresh "E" in destruct x eqn:E; try discriminate Hstep
  | Hstep : (?o ≫= _) = Some _ |- _ => let E := fresh "E" in destruct o eqn:E; [cbn [mbind option_bind] in Hstep|discriminate Hstep]
  | Hstep : Some _ = Some _ |- _ => injection Hstep as <-
  end.

(** A step does to the store what it says in the history. *)
Lemma step_stores max e g g' : grpc_step max e g = Some g' -> g_specs g' = stored_step (g_specs g) e.
Proof. intros Hstep. destruct e; cbn [grpc_step stored_step] in *; open_step; repeat case_match; done. Qed.

Lemma step_keeps max hist e g g' :
  g_specs g = stored_specs hist -> grpc_ok hist g -> grpc_step max e g = Some g' -> grpc_ok (hist ++ [e]) g'.
Proof.
  intros Hspecs Hok. destruct e as [context response|k context response|id context since|id|id|id accepted|id accepted|k]; cbn [grpc_step].
  - intros [= <-]. destruct Hok as [Hcount Hchan Hstream]. split; [done| |];
      cbn [update_broadcast_cache g_streams].
    + intros k sc Hsc. eapply channel_ok_mono; [apply hist_step|by apply Hchan].
    + intros id s Hs. eapply stream_ok_mono; [apply channels_evolve_refl|by eapply Hstream].
  - destruct (update_broadcast_cache g !! k) as [sc|] eqn:Esc; [|done]. intros [= <-]. by apply notified_keeps.
  - destruct (g_streams g !! id) eqn:Eid; [done|]. destruct (admission _ _).
    + intros [= <-]. by apply request_keeps.
    + intros [= <-]. eapply grpc_ok_change; [done|apply channels_evolve_refl|by eapply ok_counter| |by left].
      intros k sc Hsc. eapply channel_ok_mono; [apply hist_step|by eapply ok_channel].
  - destruct (g_streams g !! id) as [s|] eqn:Es; [|done]. cbn [mbind option_bind]. destruct (s_phase s) eqn:Ep; try done.
    intros [= <-]. destruct (config_spec_answer _ _) as [data|] eqn:Ea; [|by eapply refused_keeps].
    apply (grpc_ok_stream hist _ g id s _ (CONNECTION_COUNTER g)); [done|done| | |].
    + intros k. unfold attached. by rewrite Ep.
    + pose proof (ok_stream _ _ Hok id s Es) as Hst. unfold stream_ok in *. rewrite Ep in Hst. destruct Hst as [Hout Hreq].
      split; [done|]. exists hist, [], since_time, data. split_and!; [done|done| |done]. by rewrite <- Hspecs.
    + unfold is_streaming. by rewrite Ep.
  - destruct (g_streams g !! id) as [s|] eqn:Es; [|done]. cbn [mbind option_bind]. destruct (s_phase s) eqn:Ep; try done.
    pose proof (subscribe_keeps _ _ _ _ _ Hok Es Ep) as Hk. destruct (subscribe _ _) as [rc cache]. by intros [= <-].
  - destruct (g_streams g !! id) as [s|] eqn:Es; [|done]. cbn [mbind option_bind]. destruct (s_phase s) eqn:Ep; try done.
    intros [= <-]. by eapply begin_keeps.
  - destruct (g_streams g !! id) as [s|] eqn:Es; [|done]. cbn [mbind option_bind]. destruct (s_phase s) eqn:Ep; try done.
    destruct (update_broadcast_cache g !! hash_input (s_context s)) as [sc|] eqn:Esc; [|done]. cbn [mbind option_bind].
    pose proof (turn_keeps _ _ id accepted _ _ _ _ Hok Es Ep Esc) as Hk. destruct (stream_turn _ _ _ _ _) as [s' sc'].
    by intros [= <-].
  - destruct (update_broadcast_cache g !! k) as [sc|] eqn:Esc; [|done]. intros [= <-]. by apply shutdown_keeps.
Qed.

(** The state a history leads to. *)
Definition reached hist (g : grpc) : Prop := grpc_ok hist g /\ g_specs g = stored_specs hist.

Lemma reached_new : reached [] grpc_new.
Proof. split; [|done]. split; [done|intros k sc Hk|intros id s Hk]; cbn in Hk; by rewrite lookup_empty in Hk. Qed.
Lemma reached_step max hist e g g' : reached hist g -> grpc_step max e g = Some g' -> reached (hist ++ [e]) g'.
Proof.
  intros [Hok Hspecs] Hstep. split; [by eapply step_keeps|]. rewrite (step_stores max e g g' Hstep), Hspecs.
  unfold stored_specs. by rewrite foldl_app.
Qed.

Lemma run_reaches max events : forall hist g g', reached hist g -> grpc_run max events g = Some g' -> reached (hist ++ events) g'.
Proof.
  induction events as [|e events IH]; intros hist g g' Hok; cbn [grpc_run]; [intros [= <-]; by rewrite app_nil_r|].
  destruct (grpc_step max e g) as [g1|] eqn:E; [|done]. cbn [mbind option_bind]. intros Hrun.
  replace (hist ++ e :: events) with ((hist ++ [e]) ++ events) by (by rewrite <- app_assoc).
  eapply IH; [by eapply reached_step|done].
Qed.
Lemma run_keeps max events g : grpc_run max events grpc_new = Some g -> grpc_ok events g.
Proof. intros Hrun. exact (proj1 (run_reaches max events [] _ _ reached_new Hrun)). Qed.

(** *** A stream that fell behind *)

(** The event brings nothing to the channel. *)
Definition quiet k (e : grpc_event) : Prop :=
  match e with EvNotified k' _ _ | EvShutdown k' => k' <> k | _ => True end.
(** The stream an event is about. *)
Definition event_stream (e : grpc_event) : option nat :=
  match e with
  | EvRequest id _ _ | EvInit id | EvSubscribe id | EvBegin id _ | EvTurn id _ => Some id
  | _ => None
  end.

Lemma step_other_stream max e g g' id :
  grpc_step max e g = Some g' -> event_stream e <> Some id -> g_streams g' !! id = g_streams g !! id.
Proof.
  intros Hstep Hid. destruct e; cbn [grpc_step event_stream] in *; open_step; repeat case_match;
    cbn [set_counter set_streams set_channels g_streams]; rewrite ?lookup_insert_ne, ?lookup_delete_ne by congruence; done.
Qed.

Lemma subscribe_sent context cache k sc :
  cache !! k = Some sc -> exists sc', (subscribe context cache).2 !! k = Some sc' /\ sent (sender sc') = sent (sender sc).
Proof.
  intros Hk. unfold subscribe. set (found := default _ _). pose proof (bc_subscribe_new (sender found)) as (Hsent & _ & _).
  destruct (bc_subscribe (sender found)) as [s' rc]. cbn [fst snd] in *. destruct (decide (hash_input context = k)) as [<-|Hne].
  - exists (with_sender s' found). rewrite lookup_insert_eq. split; [done|]. cbn [with_sender sender]. rewrite Hsent.
    unfold found. by rewrite Hk.
  - exists sc. by rewrite lookup_insert_ne.
Qed.

Lemma turned_sent sc s rc latest s' sc' :
  turned sc s rc latest s' sc' -> s_context s' = s_context s /\ sent (sender sc') = sent (sender sc).
Proof. by destruct 1. Qed.

Lemma quiet_step_sent max hist e g g' k sc :
  grpc_ok hist g -> grpc_step max e g = Some g' -> quiet k e -> update_broadcast_cache g !! k = Some sc ->
  exists sc', update_broadcast_cache g' !! k = Some sc' /\ sent (sender sc') = sent (sender sc).
Proof.
  intros Hok Hstep Hq Hk. destruct e; cbn [grpc_step quiet] in *; try (exists sc; open_step; repeat case_match;
    cbn [set_counter set_streams set_channels update_broadcast_cache]; rewrite ?lookup_insert_ne by done; done).
  - destruct (g_streams g !! id) as [s|] eqn:Es; [|done]. cbn [mbind option_bind] in Hstep. destruct (s_phase s) eqn:Ep; try done.
    pose proof (subscribe_sent (s_context s) _ _ _ Hk) as Hsub. destruct (subscribe _ _) as [rc cache]. injection Hstep as <-.
    exact Hsub.
  - destruct (g_streams g !! id) as [s|] eqn:Es; [|done]. cbn [mbind option_bind] in Hstep. destruct (s_phase s) as [| | |rc latest|] eqn:Ep; try done.
    destruct (update_broadcast_cache g !! hash_input (s_context s)) as [sc0|] eqn:Esc; [|done]. cbn [mbind option_bind] in Hstep.
    assert (position rc <= length (sent (sender sc0))) as Hpos.
    { pose proof (ok_stream _ _ Hok id s Es) as Hst. unfold stream_ok in Hst. rewrite Ep in Hst. destruct Hst as (_ & _ & _ & _ & sc1 & Hsc1 & Hpos & _).
      by rewrite Esc in Hsc1; injection Hsc1 as <-. }
    pose proof (turned_sent _ _ _ _ _ _ (stream_turn_turned accepted sc0 s rc latest Hpos)) as [Hctx Hsent].
    destruct (stream_turn _ _ _ _ _) as [s' sc']. cbn [fst snd] in *. injection Hstep as <-.
    cbn [set_counter set_streams set_channels update_broadcast_cache]. rewrite Hctx.
    destruct (decide (hash_input (s_context s) = k)) as [<-|Hne].
    + rewrite lookup_insert_eq. exists sc'. split; [done|]. by rewrite Hk in Esc; injection Esc as ->.
    + rewrite lookup_insert_ne by done. by exists sc.
Qed.

(** The stream has read everything, or is over; since then it handed out repetitions. *)
Definition only_beats k id (out : list ConfigSpecResponse) (latest : N) (g : grpc) : Prop :=
  exists s n, g_streams g !! id = Some s /\ hash_input (s_context s) = k /\
    s_out s = out ++ replicate n (heartbeat latest) /\
    (s_phase s = Disconnected \/
     exists rc sc, s_phase s = Streaming rc latest /\ update_broadcast_cache g !! k = Some sc /\ position rc = length (sent (sender sc))).

Lemma quiet_step_beats max hist e g g' k id out latest :
  grpc_ok hist g -> grpc_step max e g = Some g' -> quiet k e -> only_beats k id out latest g -> only_beats k id out latest g'.
Proof.
  intros Hok Hstep Hq (s & n & Hs & Hctx & Hout & Hphase). destruct (decide (event_stream e = Some id)) as [He|He].
  - destruct e; cbn [event_stream] in He; try done; injection He as ->; cbn [grpc_step] in Hstep; rewrite Hs in Hstep;
      cbn [mbind option_bind] in Hstep; try done; destruct Hphase as [Hp|(rc & sc & Hp & Hsc & Hpos)]; rewrite Hp in Hstep; try done.
    rewrite Hctx, Hsc in Hstep. cbn [mbind option_bind] in Hstep. unfold stream_turn in Hstep.
    rewrite bc_recv_nothing in Hstep by done. destruct accepted; injection Hstep as <-.
    + exists (in_phase (Streaming rc latest) (hand_out (heartbeat latest) s)), (S n).
      cbn [set_counter set_streams set_channels g_streams update_broadcast_cache in_phase hand_out s_phase s_context s_out].
      rewrite !lookup_insert_eq, Hctx, lookup_insert_eq, Hout, replicate_S_end, app_assoc. eauto 10.
    + exists (in_phase Disconnected s), n. cbn [set_counter set_streams set_channels g_streams]. rewrite lookup_insert_eq. eauto.
  - exists s, n. rewrite (step_other_stream max e g g' id Hstep He). split_and!; [done..|].
    destruct Hphase as [Hp|(rc & sc & Hp & Hsc & Hpos)]; [by left|right].
    destruct (quiet_step_sent max hist e g g' k sc Hok Hstep Hq Hsc) as (sc' & Hsc' & Hsent).
    exists rc, sc'. by rewrite Hsent.
Qed.

Lemma quiet_run_beats max events k id out latest : forall hist g g',
  reached hist g -> grpc_run max events g = Some g' -> Forall (quiet k) events ->
  only_beats k id out latest g -> only_beats k id out latest g'.
Proof.
  induction events as [|e events IH]; intros hist g g' Hok; cbn [grpc_run]; [by intros [= <-]|].
  destruct (grpc_step max e g) as [g1|] eqn:E; [|done]. cbn [mbind option_bind]. intros Hrun [Hq Hqs]%Forall_cons Hb.
  eapply (IH (hist ++ [e])); [by eapply reached_step|done..|]. eapply quiet_step_beats; [exact (proj1 Hok)|done..].
Qed.
End Invariant.

(** ** Properties *)

Section Properties.
Context `{BroadcastLaws} (max : N).

(** C24: Streams are counted right and never lose their channel, however requests, polls,
    turns and shutdown interleave: the counter is the number of streams in their loop,
    every subscribed stream has the channel of its context (the lookup the code expects
    to succeed does), and a channel has exactly one receiver per subscribed stream, so
    that an update is dropped for want of listeners only when there are none. *)
Theorem streams_counted events g :
  grpc_run max events grpc_new = Some g ->
  CONNECTION_COUNTER g = N.of_nat (count is_streaming (g_streams g)) /\
  (forall id s, g_streams g !! id = Some s -> attached (hash_input (s_context s)) s = true ->
     is_Some (update_broadcast_cache g !! hash_input (s_context s))) /\
  (forall k sc, update_broadcast_cache g !! k = Some sc ->
     hash_input (sc_context sc) = k /\ receivers (sender sc) = count (attached k) (g_streams g)).
Proof.
  intros Hrun. pose proof (run_keeps max events _ Hrun) as [Hcount Hchan Hstream].
  split_and!; [done| |].
  - intros id s Hs. specialize (Hstream id s Hs). unfold stream_ok, listens, attached in *.
    destruct (s_phase s); try done; intros _; naive_solver.
  - intros k sc Hsc. destruct (Hchan k sc Hsc) as (Hk & Hn & _). done.
Qed.

(** C16: A stream hands its client only what is meant for it: nothing before it began, then its
    first value, which is what the store had for the stream's own context and the time the
    client asked from when the stream was initialised; after that only configs that polls
    of an equal context brought, each newer than every earlier one from the channel, and
    repetitions of the last time handed out. The channel does not know the first value, so
    a config from it may be that one again or an older one ([first_value_may_repeat]). *)
Theorem stream_hands_out events g id s :
  grpc_run max events grpc_new = Some g -> g_streams g !! id = Some s ->
  match s_phase s with
  | LetIn _ | Initialised _ | Subscribed _ _ => s_out s = []
  | Streaming _ latest => exists init floor,
      first_value events id (s_context s) init /\ handed events (hash_input (s_context s)) init (s_out s) latest floor
  | Disconnected => exists init latest floor,
      first_value events id (s_context s) init /\ handed events (hash_input (s_context s)) init (s_out s) latest floor
  end.
Proof.
  intros Hrun Hs. pose proof (ok_stream _ _ (run_keeps max events _ Hrun) id s Hs) as Hst.
  unfold stream_ok in Hst. destruct (s_phase s); naive_solver.
Qed.

(** A stream that reads in time is brought up to date: when one message is unread, its
    next turn hands out that config, which is the newest of the channel, or ends the
    stream when the message is the shutdown; when none is unread it repeats the time. *)
Theorem prompt_stream_is_current events g id s rc latest sc g' :
  grpc_run max events grpc_new = Some g -> g_streams g !! id = Some s -> s_phase s = Streaming rc latest ->
  update_broadcast_cache g !! hash_input (s_context s) = Some sc -> length (sent (sender sc)) <= S (position rc) ->
  grpc_step max (EvTurn id true) g = Some g' ->
  exists s', g_streams g' !! id = Some s' /\
    match drop (position rc) (sent (sender sc)) with
    | [] => s_out s' = s_out s ++ [heartbeat latest]
    | Some (data, l) :: _ => s_out s' = s_out s ++ [config_response data l] /\ (exists rc', s_phase s' = Streaming rc' l)
    | None :: _ => s_phase s' = Disconnected /\ CONNECTION_COUNTER g = (CONNECTION_COUNTER g' + 1)%N
    end.
Proof.
  intros Hrun Hs Hp Hsc Hread. pose proof (run_keeps max events _ Hrun) as Hok.
  pose proof (ok_stream _ _ Hok id s Hs) as Hst. unfold stream_ok in Hst. rewrite Hp in Hst.
  destruct Hst as (_ & _ & _ & _ & sc0 & Hsc0 & Hpos & _). rewrite Hsc in Hsc0. injection Hsc0 as <-.
  cbn [grpc_step]. rewrite Hs. cbn [mbind option_bind]. rewrite Hp, Hsc. cbn [mbind option_bind]. unfold stream_turn.
  destruct (decide (position rc = length (sent (sender sc)))) as [Hnone|Hone].
  { rewrite bc_recv_nothing by done. intros [= <-]. eexists. cbn [set_counter set_streams set_channels g_streams].
    rewrite lookup_insert_eq, Hnone, drop_all. done. }
  destruct (sent (sender sc)) as [|m l _] eqn:El using rev_ind; [cbn in *; lia|]. rewrite length_app in *. cbn [length] in *.
  destruct (bc_recv_next (sender sc) rc l m) as (rc' & -> & _); [done|lia|].
  replace (position rc) with (length l) by lia. rewrite drop_app_length. destruct m as [[data lc]|]; intros [= <-];
    eexists; cbn [set_counter set_streams set_channels g_streams CONNECTION_COUNTER]; rewrite lookup_insert_eq.
  - split; [done|]. split; [done|]. by exists rc'.
  - split; [done|]. split; [done|]. cbn. pose proof (ok_counter _ _ Hok) as Hcount.
    assert (is_streaming s = true) as Hss by (unfold is_streaming; by rewrite Hp).
    rewrite (count_delete _ _ id s Hs), Hss in Hcount. cbn [Nat.b2n] in Hcount. lia.
Qed.

(** A stream that falls behind goes stale: when two updates arrive before it reads, its
    next turn subscribes again behind both, and until a poll brings yet another config the
    client gets nothing but repetitions of the old time, whatever else happens. *)
Theorem lagging_stream_goes_stale events g id s rc latest sc accepted g1 later g2 :
  grpc_run max events grpc_new = Some g -> g_streams g !! id = Some s -> s_phase s = Streaming rc latest ->
  let k := hash_input (s_context s) in
  update_broadcast_cache g !! k = Some sc -> S (position rc) < length (sent (sender sc)) ->
  grpc_step max (EvTurn id accepted) g = Some g1 -> grpc_run max later g1 = Some g2 -> Forall (quiet k) later ->
  exists s2 n, g_streams g2 !! id = Some s2 /\ s_out s2 = s_out s ++ replicate n (heartbeat latest).
Proof.
  intros Hrun Hs Hp k Hsc Hlag Hstep Hlater Hq. pose proof (run_keeps max events _ Hrun) as Hok.
  pose proof (reached_step max _ _ _ _ (run_reaches max events [] _ _ reached_new Hrun) Hstep) as Hok1.
  assert (only_beats k id (s_out s) latest g1) as Hb.
  2:{ destruct (quiet_run_beats max later k id _ _ _ _ _ Hok1 Hlater Hq Hb) as (s2 & n & Hs2 & _ & Hout & _). eauto. }
  cbn [grpc_step] in Hstep. rewrite Hs in Hstep. cbn [mbind option_bind] in Hstep. fold k in Hstep. rewrite Hp, Hsc in Hstep.
  cbn [mbind option_bind] in Hstep.
  pose proof (stream_turn_turned accepted sc s rc latest ltac:(lia)) as Ht. unfold stream_turn in Hstep, Ht.
  destruct (bc_recv_lagged (sender sc) rc Hlag) as (old & Hrecv & _). rewrite Hrecv in Hstep, Ht.
  pose proof (bc_subscribe_new (sender sc)) as Hsub. destruct (bc_subscribe (sender sc)) as [snd' rc'].
  destruct Hsub as (Hsent & _ & Hpos'). destruct (bc_drop_one old snd') as [Hsent' _]. injection Hstep as <-.
  exists (in_phase (Streaming rc' latest) s), 0. cbn [set_counter set_streams set_channels g_streams update_broadcast_cache].
  rewrite lookup_insert_eq, app_nil_r. split_and!; [done..|]. right. exists rc', (with_sender (bc_drop old snd') sc).
  cbn [in_phase s_context s_phase]. fold k. rewrite lookup_insert_eq. cbn [with_sender sender]. cbn [fst snd] in *.
  split_and!; [done..|]. by rewrite Hsent', Hsent.
Qed.
End Properties.

(** ** Witnesses *)

(** A channel as its messages and its number of receivers, a receiver as its place. *)
Module ListChannel.
#[export] Instance list_broadcast : Broadcast := {|
  bc_sender := list StreamPayload * nat;
  bc_receiver := nat;
  bc_channel := ([], 0);
  bc_send m s := if decide (s.2 = 0) then None else Some (s.1 ++ [m], s.2);
  bc_subscribe s := ((s.1, S s.2), length s.1);
  bc_drop _ s := (s.1, pred s.2);
  bc_recv s r :=
    match drop r s.1 with
    | [] => (Waiting, r)
    | [m] => (Received m, length s.1)
    | _ => (Lagged, pred (length s.1))
    end |}.
#[export] Instance list_broadcast_laws : BroadcastLaws.
Proof.
  refine {| sent := fun s : bc_sender => (s : list StreamPayload * nat).1;
            receivers := fun s : bc_sender => (s : list StreamPayload * nat).2;
            position := fun r : bc_receiver => (r : nat) |}; cbn; try done.
  - intros m s Hs. by rewrite decide_True.
  - intros m s Hs. rewrite decide_False by done. eauto.
  - intros [l n] r ->. cbn. by rewrite drop_all.
  - intros [l' n] r l m ? ->. cbn in *. subst l'. rewrite drop_app_length. eauto.
  - intros [l n] r Hr. cbn in *. destruct (drop r l) as [|m [|m' rest]] eqn:E; apply (f_equal length) in E; rewrite length_drop in E; cbn in E; try lia.
    eexists. split; [done|]. lia.
Defined.

Definition context : AuthorizedRequestContext := context_new "k" V1DownloadConfigSpecs [PlainText].
Definition k : context_id := hash_input context.
Definition update (version : N) : ResponseContext :=
  {| result_type := DataAvailable; lcut := version; request_since_time := 0;
     body := {| encoding := PlainText; use_proto := false; data := "v" +:+ show_u64 version |} |}.
Definition opened : list grpc_event :=
  [EvStored context (update 1); EvRequest 0 context 0; EvInit 0; EvSubscribe 0; EvBegin 0 true].
Definition behind : list grpc_event := opened ++ [EvNotified k context (update 2); EvNotified k context (update 3)].
Definition notified_once : list grpc_event := opened ++ [EvNotified k context (update 2)].
Definition later : list grpc_event := [EvStored context (update 3); EvTurn 0 true; EvTurn 0 true].

Definition channel_with (version : N) (messages : list StreamPayload) : StreamingChannel :=
  {| sc_context := context; last_updated := version; sender := (messages, 1) : @bc_sender list_broadcast |}.
Definition after (events : list grpc_event) : grpc := default grpc_new (grpc_run 8 events grpc_new).
Definition outputs (g : grpc) (id : nat) : option (list (string * N)) :=
  (fun s => (fun r => (spec r, response_lcut r)) <$> s_out s) <$> g_streams g !! id.
Lemma ran events : match grpc_run 8 events grpc_new with Some _ => true | None => false end = true -> grpc_run 8 events grpc_new = Some (after events).
Proof. unfold after. by destruct (grpc_run 8 events grpc_new). Qed.
Lemma stepped events e :
  match grpc_step 8 e (after events) with Some _ => true | None => false end = true ->
  grpc_step 8 e (after events) = Some (default grpc_new (grpc_step 8 e (after events))).
Proof. by destruct (grpc_step 8 e (after events)). Qed.
End ListChannel.
#[local] Existing Instances ListChannel.list_broadcast ListChannel.list_broadcast_laws.
Import ListChannel.

Lemma streams_counted_witness : CONNECTION_COUNTER (after behind) = 1%N /\ count is_streaming (g_streams (after behind)) = 1.
Proof.
  destruct (streams_counted 8 behind (after behind)) as [Hcount _]; [apply ran; vm_compute; reflexivity|].
  assert (CONNECTION_COUNTER (after behind) = 1%N) as H1 by (vm_compute; reflexivity). rewrite H1 in Hcount. split; [exact H1|lia].
Defined.

Definition follower : stream := {|
  s_context := context; s_phase := Streaming (0 : bc_receiver) 1;
  s_out := [{| spec := "v1"; response_lcut := 1; zstd_dict_id := None |}] |}.

Lemma stream_hands_out_witness :
  exists init floor, first_value behind 0 context init /\
    handed behind k init [{| spec := "v1"; response_lcut := 1; zstd_dict_id := None |}] 1 floor.
Proof.
  exact (stream_hands_out 8 behind (after behind) 0 follower (ran behind ltac:(vm_compute; reflexivity)) ltac:(vm_compute; reflexivity)).
Defined.

(** The store learns of a poll before the channel does: a stream that begins in between is
    handed the same config twice. *)
Lemma first_value_may_repeat :
  outputs (after (opened ++ [EvNotified k context (update 1); EvTurn 0 true])) 0 = Some [("v1", 1%N); ("v1", 1%N)].
Proof. vm_compute. reflexivity. Qed.

Lemma prompt_stream_is_current_witness :
  exists g' s', grpc_step 8 (EvTurn 0 true) (after notified_once) = Some g' /\ g_streams g' !! 0 = Some s' /\
    s_out s' = s_out follower ++ [config_response (body (update 2)) 2].
Proof.
  eexists.
  pose proof (stepped notified_once (EvTurn 0 true) ltac:(vm_compute; reflexivity)) as Hstep.
  destruct (prompt_stream_is_current 8 notified_once (after notified_once) 0 follower 0 1
    (channel_with 2 [Some (body (update 2), 2%N)]) _
    (ran notified_once ltac:(vm_compute; reflexivity)) ltac:(vm_compute; reflexivity) eq_refl
    ltac:(vm_compute; reflexivity) ltac:(cbn; lia) Hstep) as (s' & Hs' & Hout & _).
  exists s'. split; [exact Hstep|]. split; [exact Hs'|exact Hout].
Defined.

Lemma lagging_stream_goes_stale_witness :
  exists g1 g2 s2 n, grpc_step 8 (EvTurn 0 true) (after behind) = Some g1 /\ grpc_run 8 later g1 = Some g2 /\
    g_streams g2 !! 0 = Some s2 /\ s_out s2 = s_out follower ++ replicate n (heartbeat 1).
Proof.
  pose proof (stepped behind (EvTurn 0 true) ltac:(vm_compute; reflexivity)) as Hstep.
  set (g1 := default grpc_new _) in Hstep.
  assert (exists g2, grpc_run 8 later g1 = Some g2) as [g2 Hlater].
  { destruct (grpc_run 8 later g1) as [g2|] eqn:E; [by exists g2|]. exfalso. revert E.
    assert (match grpc_run 8 later g1 with Some _ => true | None => false end = true) as Hsome by (vm_compute; reflexivity).
    destruct (grpc_run 8 later g1); discriminate. }
  destruct (lagging_stream_goes_stale 8 behind (after behind) 0 follower 0 1
    (channel_with 3 [Some (body (update 2), 2%N); Some (body (update 3), 3%N)])
    true g1 later g2 (ran behind ltac:(vm_compute; reflexivity)) ltac:(vm_compute; reflexivity) eq_refl
    ltac:(vm_compute; reflexivity) ltac:(cbn; lia) Hstep Hlater) as (s2 & n & Hs2 & Hout).
  - repeat constructor.
  - exists g1, g2, s2, n. split; [exact Hstep|]. split; [exact Hlater|]. split; [exact Hs2|exact Hout].
Defined.
