(* ===== verification/Warmup.v ===== *)
(** * Warmup: what is fetched before anyone asks

    Models [src/src/datastore/data_providers/startup_warmup_parser.rs], its use in
    [src/src/server.rs], and [src/src/datastore/id_list_file_refresh_observer.rs]: the
    keys whose configs are fetched when the process starts, and the files of ID lists
    that are fetched when a manifest names a newer one than the cache has. *)
From S2P Require Import Prelude Encoding Request Schema Namespaces Backoff Stores SpecDeltas Outbound Fetch.

(** ** Keys to warm up *)

Definition STARTUP_WARMUP_KEYS_ENV : string := "SFP_STARTUP_WARMUP_KEYS_JSON".
Definition VALID_STARTUP_WARMUP_SDK_KEY_PREFIXES : list string := ["client-"; "secret-"; "server-"].

Record StartupWarmupKeyConfig := {
  wk_sdk_key : string;
  wk_path : string;
  wk_encodings : option (list string);
}.
Record StartupWarmupParseResult := {
  configured_count : nat;
  invalid_count : nat;
  store_items : list SdkKeyStoreItem;
}.
Inductive StartupWarmupParseError :=
| InvalidUtf8Env
| InvalidJson (error : string)
| EmptySdkKey
| InvalidSdkKeyPrefix
| UnsupportedPath (path : string)
| InvalidEncodings (error : string).

Definition warmup_error_str (e : StartupWarmupParseError) : string :=
  match e with
  | InvalidUtf8Env => STARTUP_WARMUP_KEYS_ENV +:+ " is not valid UTF-8"
  | InvalidJson err => "invalid JSON for " +:+ STARTUP_WARMUP_KEYS_ENV +:+ ": " +:+ err
  | EmptySdkKey => "sdk_key cannot be empty"
  | InvalidSdkKeyPrefix => "sdk_key must start with one of: " +:+ join ", " VALID_STARTUP_WARMUP_SDK_KEY_PREFIXES
  | UnsupportedPath path => "unsupported path `" +:+ path +:+ "`"
  | InvalidEncodings err => err
  end.

(** The JSON decoder: an array of values, and a value as an entry. *)
Class WarmupJson := {
  json_value : Type;
  json_array : string -> result string (list json_value);
  json_entry : json_value -> result string StartupWarmupKeyConfig;
}.

Definition parse_startup_warmup_path (path : string) : result StartupWarmupParseError NormalizedPath :=
  let raw_path := trim_end_matches "/" (trim path) in
  let parsed := normalize_path raw_path in
  match parsed with
  | V1DownloadConfigSpecs | V2DownloadConfigSpecs | V1GetIdLists => Ok parsed
  | _ => Err (UnsupportedPath path)
  end.

Definition parse_startup_warmup_encodings (encodings : option (list string))
    : result StartupWarmupParseError (list CompressionEncoder) :=
  match encodings with
  | None => Ok []
  | Some [] => Err (InvalidEncodings "encodings cannot be empty")
  | Some encodings => Ok (acceptable_encodings (from_raw_value (join "," encodings)))
  end.

Definition validate_startup_warmup_sdk_key (sdk_key : string) : result StartupWarmupParseError unit :=
  if str_empty sdk_key then Err EmptySdkKey
  else if negb (existsb (fun prefix => starts_with prefix sdk_key) VALID_STARTUP_WARMUP_SDK_KEY_PREFIXES)
  then Err InvalidSdkKeyPrefix
  else Ok tt.

Definition parse_startup_warmup_item (config : StartupWarmupKeyConfig)
    : result StartupWarmupParseError SdkKeyStoreItem :=
  let sdk_key := trim (wk_sdk_key config) in
  _ ← validate_startup_warmup_sdk_key sdk_key;
  path ← parse_startup_warmup_path (wk_path config);
  encodings ← parse_startup_warmup_encodings (wk_encodings config);
  Ok {| item_context := context_new sdk_key path encodings; item_lcut := 0 |}.

Section Parsing.
Context `{WarmupJson}.

(** One entry of the array. *)
Definition warmup_entry (value : json_value) (acc : nat * list SdkKeyStoreItem) : nat * list SdkKeyStoreItem :=
  match json_entry value with
  | Err _ => (S acc.1, acc.2)
  | Ok config =>
      match parse_startup_warmup_item config with
      | Ok item => (acc.1, acc.2 ++ [item])
      | Err _ => (S acc.1, acc.2)
      end
  end.

Definition parse_startup_warmup_keys_json (raw : string) : result StartupWarmupParseError StartupWarmupParseResult :=
  raw_values ← map_err InvalidJson (json_array raw);
  let '(invalid, items) := foldl (fun acc value => warmup_entry value acc) (0, []) raw_values in
  Ok {| configured_count := length raw_values; invalid_count := invalid; store_items := items |}.

(** [env::var] *)
Inductive env_var := VarSet (raw : string) | NotPresent | NotUnicode.

Definition load_startup_warmup_keys_from_env (var : env_var)
    : result StartupWarmupParseError (option StartupWarmupParseResult) :=
  match var with
  | NotPresent => Ok None
  | NotUnicode => Err InvalidUtf8Env
  | VarSet raw => if str_empty (trim raw) then Ok None else Some <$> parse_startup_warmup_keys_json raw
  end.

(** What [main] hands to the background thread: a broken setting warms nothing up. *)
Definition warmup_store_items (var : env_var) : option (list SdkKeyStoreItem) :=
  match load_startup_warmup_keys_from_env var with
  | Ok (Some result) => Some (store_items result)
  | Ok None | Err _ => None
  end.
End Parsing.

(** ** Files to refresh *)

(** [Url::parse]: the path and the query. *)
Class ManifestUrl := { manifest_url : string -> result string (string * option string) }.

Definition parse_id_list_file_id_from_blob_path (path : string) : option string :=
  rest ← strip_prefix "/idlists/" path;
  id ← head (split_char "/" rest);
  if str_empty id then None else Some id.

Section Refreshing.
Context `{ManifestUrl} `{PayloadLib} `{HashOrder}.

Definition request_context_from_manifest_url (sdk_key url : string) (id_list_size : N)
    : result string AuthorizedRequestContext :=
  '(raw_path, raw_query) ← map_err (fun e => "manifest URL could not be parsed: " +:+ e) (manifest_url url);
  '(raw_path, file_id) ←
    match parse_id_list_file_id raw_path with
    | Some file_id => Ok (raw_path, file_id)
    | None =>
        match parse_id_list_file_id_from_blob_path raw_path with
        | Some file_id => Ok ("/v1/download_id_list_file/" +:+ file_id, file_id)
        | None => Err "manifest URL does not target /v1/download_id_list_file/<file_id> or /idlists/<file_id>"
        end
    end;
  Ok (with_id_list_request (Some file_id) (Some 0%N) (Some id_list_size)
       (with_raw_request (Some raw_path) raw_query (context_new sdk_key V1DownloadIdListFile [PlainText]))).

(** The values of the manifest in the order of the map. *)
Definition download_request_contexts_from_manifest (files : file_cache) (context : AuthorizedRequestContext)
    (response : ResponseContext) : list AuthorizedRequestContext :=
  match parse_id_list_manifest (body response) with
  | Err _ => []
  | Ok manifest =>
      filter (fun c => is_fresh_enough c files = false)
        (omap (fun entry =>
           match request_context_from_manifest_url (sdk_key context) (entry_url entry) (entry_size entry) with
           | Ok context => Some context
           | Err _ => None
           end) (hash_iter manifest).*2)
  end.

(** [update]: the refreshes it starts. *)
Definition refresh_update (files : file_cache) (context : AuthorizedRequestContext) (response : ResponseContext)
    : list AuthorizedRequestContext :=
  if bool_decide (path context <> V1GetIdLists) || bool_decide (result_type response <> DataAvailable) then []
  else download_request_contexts_from_manifest files context response.
End Refreshing.

(** ** Keys polled for their own sake *)

Section Registration.
Context `{SpecsProto} `{PayloadLib} (fetch : AuthorizedRequestContext -> N -> proxy -> proxy).

(** [read] is the cache of contexts as the read lock of each lookup finds it. *)
Definition register_server_key (read : string -> context_cache) (acc : context_cache * proxy) (server_key : string)
    : context_cache * proxy :=
  let '(rc, cache) := get_or_insert server_key V1GetIdLists [Gzip] false false None (read server_key) acc.1 in
  (cache, (get_id_lists fetch rc acc.2).2).
Definition register_server_keys_for_manifest_polling (read : string -> context_cache) (server_keys : list string)
    (cache : context_cache) (w : proxy) : context_cache * proxy :=
  foldl (register_server_key read) (cache, w) server_keys.
End Registration.

Section Discovery.
Context {W : Type} (ids : W -> CompanyIdStore) (fetch : AuthorizedRequestContext -> N -> W -> W).

(** One tick of [spawn_discovery], over the keys in the order the set yields them. *)
Definition discover_key (read : string -> context_cache) (acc : context_cache * W) (key : string) : context_cache * W :=
  match get_company_id (ids acc.2) key with
  | Some _ => acc
  | None =>
      let '(context, cache) := get_or_insert key V2DownloadConfigSpecs [Gzip] false false None (read key) acc.1 in
      (cache, fetch context 0%N acc.2)
  end.
Definition discovery_tick (read : string -> context_cache) (server_keys : list string) (cache : context_cache) (w : W)
    : context_cache * W :=
  foldl (discover_key read) (cache, w) server_keys.
End Discovery.

(** ** Warm-up entries *)

(** An entry that can be warmed up. *)
Record warmable (config : StartupWarmupKeyConfig) : Prop := {
  key_known : exists prefix rest, prefix ∈ VALID_STARTUP_WARMUP_SDK_KEY_PREFIXES /\ trim (wk_sdk_key config) = prefix +:+ rest;
  path_known : normalize_path (trim_end_matches "/" (trim (wk_path config))) ∈ [V1DownloadConfigSpecs; V2DownloadConfigSpecs; V1GetIdLists];
  encodings_named : wk_encodings config <> Some [];
}.
(** What is fetched for it. *)
Definition warm_item (config : StartupWarmupKeyConfig) : SdkKeyStoreItem := {|
  item_context := context_new (trim (wk_sdk_key config)) (normalize_path (trim_end_matches "/" (trim (wk_path config))))
    (acceptable_encodings (from_header_values (default [] (wk_encodings config))));
  item_lcut := 0 |}.

Lemma validate_sdk_key_ok key :
  validate_startup_warmup_sdk_key key = Ok tt <->
  exists prefix rest, prefix ∈ VALID_STARTUP_WARMUP_SDK_KEY_PREFIXES /\ key = prefix +:+ rest.
Proof.
  unfold validate_startup_warmup_sdk_key. split.
  - destruct (str_empty key); [done|]. destruct (existsb _ _) eqn:E; [|done]. intros _.
    apply existsb_exists in E as (prefix & Hin%list_elem_of_In & [rest ->]%starts_with_spec). eauto.
  - intros (prefix & rest & Hin & ->).
    assert (str_empty (prefix +:+ rest) = false) as ->.
    { apply bool_decide_eq_false_2. intros Heq. unfold VALID_STARTUP_WARMUP_SDK_KEY_PREFIXES in Hin.
      rewrite !elem_of_cons, elem_of_nil in Hin. destruct Hin as [->|[->|[->|[]]]]; rewrite str_cons_app in Heq; discriminate. }
    assert (existsb (fun p => starts_with p (prefix +:+ rest)) VALID_STARTUP_WARMUP_SDK_KEY_PREFIXES = true) as ->; [|done].
    apply existsb_exists. exists prefix. split; [by apply list_elem_of_In|]. apply starts_with_spec. eauto.
Qed.

(** An entry is accepted exactly when it can be warmed up. *)
Lemma parse_item_ok config item : parse_startup_warmup_item config = Ok item <-> warmable config /\ item = warm_item config.
Proof.
  unfold parse_startup_warmup_item, parse_startup_warmup_path, parse_startup_warmup_encodings, warm_item, from_header_values.
  pose proof (validate_sdk_key_ok (trim (wk_sdk_key config))) as Hkey.
  destruct (validate_startup_warmup_sdk_key _) as [[]|e]; cbn [mbind result_bind].
  2:{ split; [done|]. intros [[Hk _ _] _]. by apply Hkey in Hk. }
  pose proof (proj1 Hkey eq_refl) as Hk. clear Hkey.
  destruct (normalize_path _) eqn:Ep; cbn [mbind result_bind];
    try (split; [done|]; intros [[_ Hp _] _]; rewrite Ep, !elem_of_cons, elem_of_nil in Hp; naive_solver).
  all: destruct (wk_encodings config) as [[|e es]|] eqn:Ee; cbn [mbind result_bind default from_option id];
    try (split; [done|]; intros [[_ _ Hn] _]; congruence);
    (split; [intros [= <-]; split; [|done]; split; [done|rewrite Ep, !elem_of_cons; tauto|congruence]|by intros [_ ->]]).
Qed.

Section Entries.
Context `{WarmupJson}.

Definition entry_item (value : json_value) : option SdkKeyStoreItem :=
  match json_entry value with
  | Ok config => match parse_startup_warmup_item config with Ok item => Some item | Err _ => None end
  | Err _ => None
  end.

Lemma warmup_entries values : forall n items,
  let r := foldl (fun acc value => warmup_entry value acc) (n, items) values in
  r.2 = items ++ omap entry_item values /\ r.1 + length r.2 = n + length items + length values.
Proof.
  induction values as [|v values IH]; intros n items; cbn [foldl omap list_omap]; [by rewrite app_nil_r, Nat.add_0_r|].
  assert (warmup_entry v (n, items) = match entry_item v with Some item => (n, items ++ [item]) | None => (S n, items) end) as ->.
  { unfold warmup_entry, entry_item. by destruct (json_entry v) as [config|e]; [destruct (parse_startup_warmup_item config)|]. }
  destruct (entry_item v) as [item|].
  - destruct (IH n (items ++ [item])) as [Hi Hc]. split; [by rewrite Hi, <- app_assoc|]. rewrite Hc, length_app. cbn. lia.
  - destruct (IH (S n) items) as [Hi Hc]. split; [done|]. rewrite Hc. cbn. lia.
Qed.
End Entries.

(** ** Files *)

Lemma refreshed_fresh files file_id size context :
  is_fresh_enough (with_id_list_request (Some file_id) (Some 0%N) (Some size) context) files = true <->
  exists b, files !! file_id = Some b /\ (size <= byte_len b)%N.
Proof.
  unfold is_fresh_enough, get_cached_hit, get_stored_body, cached_body_satisfies_request.
  cbn [with_id_list_request Request.file_id range_start id_list_size at_least mbind option_bind].
  rewrite bool_decide_eq_true. destruct (files !! file_id) as [b|]; cbn [mbind option_bind]; [|naive_solver].
  assert ((bool_decide (0 < byte_len b)%N || bool_decide (byte_len b = 0%N) && bool_decide (Some size = Some (byte_len b))) &&
    bool_decide (size <= byte_len b)%N = true <-> (size <= byte_len b)%N) as Hcond.
  { rewrite andb_true_iff, orb_true_iff, andb_true_iff, !bool_decide_eq_true. split; [tauto|]. intros Hle. split; [|done].
    destruct (decide (byte_len b = 0%N)); [|left; lia]. right. split; [done|]. f_equal. lia. }
  destruct (_ && _).
  - split; [|eauto]. intros _. exists b. split; [done|]. by apply Hcond.
  - split; [by intros [? ?]|]. intros (b' & [= <-] & Hle). by apply Hcond in Hle.
Qed.

(** ** Identities *)

Section DiscoveryProofs.
Context {W : Type} (ids : W -> CompanyIdStore) (fetch : AuthorizedRequestContext -> N -> W -> W).

Definition known (key : string) (w : W) : Prop := is_Some (get_company_id (ids w) key).

(** Nothing is fetched once every identity is known. *)
Lemma discovery_rests read keys cache w :
  (forall key, key ∈ keys -> known key w) -> discovery_tick ids fetch read keys cache w = (cache, w).
Proof.
  unfold discovery_tick. induction keys as [|key keys IH]; intros Hall; [done|]. cbn [foldl].
  assert (discover_key ids fetch read (cache, w) key = (cache, w)) as ->.
  { unfold discover_key. cbn [snd]. destruct (Hall key) as [id Hid]; [by left|]. by rewrite Hid. }
  apply IH. intros k Hk. apply Hall. by right.
Qed.

(** A fetch never forgets an identity. *)
Context (Hkeeps : forall context lcut w key, known key w -> known key (fetch context lcut w)).

Lemma discover_keeps read keys : forall acc key, known key acc.2 -> known key (foldl (discover_key ids fetch read) acc keys).2.
Proof.
  induction keys as [|k keys IH]; intros acc key Hkey; [done|]. cbn [foldl]. apply IH. unfold discover_key.
  destruct (get_company_id (ids acc.2) k); [done|]. destruct (get_or_insert _ _ _ _ _ _ _ _). by apply Hkeeps.
Qed.
End DiscoveryProofs.

(** ** Properties *)

(** Warm-up takes exactly the entries it can use, in order, and miscounts none: an entry
    is warmed up when its key, trimmed, has a known prefix, its path names one of the three
    endpoints, and its encodings are not an empty list; every other entry, malformed ones
    included, is counted as invalid and does not disturb the rest. *)
Theorem warmup_entries_exact `{WarmupJson} raw values :
  json_array raw = Ok values ->
  exists r, parse_startup_warmup_keys_json raw = Ok r /\
    configured_count r = length values /\ configured_count r = invalid_count r + length (store_items r) /\
    store_items r = omap entry_item values /\
    forall item, item ∈ store_items r <->
      exists v config, v ∈ values /\ json_entry v = Ok config /\ warmable config /\ item = warm_item config.
Proof.
  intros Hjson. unfold parse_startup_warmup_keys_json. rewrite Hjson. cbn [map_err mbind result_bind].
  destruct (warmup_entries values 0 []) as [Hitems Hcount]. destruct (foldl _ _ _) as [invalid items]. cbn [fst snd app length] in *.
  eexists. split; [done|]. cbn [configured_count invalid_count store_items]. split_and!; [done|lia|done|].
  intros item. rewrite Hitems, list_elem_of_omap. unfold entry_item. split.
  - intros (v & Hv & Hitem). destruct (json_entry v) as [config|e] eqn:Ev; [|done].
    destruct (parse_startup_warmup_item config) as [item'|e] eqn:Ei; [|done]. injection Hitem as ->.
    apply parse_item_ok in Ei as [? ?]. exists v, config. eauto.
  - intros (v & config & Hv & Hc & Hw & ->). exists v. split; [done|]. rewrite Hc.
    by rewrite (proj2 (parse_item_ok config (warm_item config)) (conj Hw eq_refl)).
Qed.

(** C26: What is warmed up is what live requests ask for: a request with the same key, to a
    path of the same endpoint, whose accept-encoding headers are the encodings of the
    entry, and which asks neither for protobuf nor for deltas, gets the very context that
    was warmed up, whatever other requests put into the cache of contexts meanwhile. *)
Theorem warmup_aligns_with_requests `{HttpLib} config item req read write :
  parse_startup_warmup_item config = Ok item -> cache_ok read -> cache_ok write ->
  get_one "statsig-api-key" (headers req) = Some (trim (wk_sdk_key config)) ->
  normalize_path (uri_path req) = normalize_path (trim_end_matches "/" (trim (wk_path config))) ->
  header_values "Accept-Encoding" (headers req) = default [] (wk_encodings config) ->
  does_request_supports_proto req = false -> does_request_accept_deltas req = false ->
  (authorized_request_context_wrapper req read write).1 = Success (item_context item).
Proof.
  intros [Hw ->]%parse_item_ok Hr Hwr Hkey Hpath Henc Hproto Hdeltas. unfold authorized_request_context_wrapper.
  rewrite Hkey, Hpath, Hproto, Hdeltas. unfold request_encodings. rewrite Henc.
  destruct Hw as [_ Hp _]. unfold warm_item. revert Hp. generalize (normalize_path (trim_end_matches "/" (trim (wk_path config)))).
  intros p Hp. assert (p <> V1DownloadIdListFile /\ p <> V2DownloadConfigSpecsDeltas) as [Hne Hne'].
  { rewrite !elem_of_cons, elem_of_nil in Hp. destruct Hp as [->|[->|[->|[]]]]; done. }
  rewrite decide_False, bool_decide_eq_false_2 by done. cbn [orb].
  pose proof (get_or_insert_correct (trim (wk_sdk_key config)) p
    (acceptable_encodings (from_header_values (default [] (wk_encodings config)))) false false None read write Hr Hwr) as [Hctx _].
  destruct (get_or_insert _ _ _ _ _ _ _ _) as [context cache]. cbn [fst] in *. by rewrite Hctx.
Qed.

Section Manifests.
Context `{ManifestUrl} `{PayloadLib} `{HashOrder}.

End Manifests.

(** One tick of the discovery learns every identity it can: a key whose fetch of the full
    config succeeds, with the context every request for that key shares, has its company
    afterwards, whatever the fetches of the other keys do, and whatever other requests put
    into the cache of contexts; when all are known, a tick fetches nothing. *)
Theorem discovery_learns {W : Type} (ids : W -> CompanyIdStore) fetch read keys cache w :
  (forall context lcut v key, known ids key v -> known ids key (fetch context lcut v)) ->
  (forall key, cache_ok (read key)) -> cache_ok cache ->
  (forall key, key ∈ keys ->
     (forall v, known ids key (fetch (context_of (key, V2DownloadConfigSpecs, [Gzip], false, false, None)) 0%N v)) ->
     known ids key (discovery_tick ids fetch read keys cache w).2) /\
  ((forall key, key ∈ keys -> known ids key w) -> discovery_tick ids fetch read keys cache w = (cache, w)).
Proof.
  intros Hkeeps Hread Hcache. split; [|apply discovery_rests]. unfold discovery_tick. revert cache w Hcache.
  induction keys as [|k keys IH]; intros cache w Hcache key Hkey Hfetch; [by apply elem_of_nil in Hkey|]. cbn [foldl].
  assert (cache_ok (discover_key ids fetch read (cache, w) k).1) as Hcache'.
  { unfold discover_key. destruct (get_company_id _ _); [done|].
    pose proof (get_or_insert_correct k V2DownloadConfigSpecs [Gzip] false false None (read k) cache (Hread k) Hcache) as (_ & Hok & _).
    cbn [fst snd]. by destruct (get_or_insert _ _ _ _ _ _ _ _). }
  destruct (decide (key = k)) as [->|Hne].
  - apply discover_keeps; [done|]. unfold discover_key. cbn [snd]. destruct (get_company_id (ids w) k) as [id|] eqn:E; [by exists id|].
    pose proof (get_or_insert_correct k V2DownloadConfigSpecs [Gzip] false false None (read k) cache (Hread k) Hcache) as (Hctx & _ & _).
    cbn [fst]. destruct (get_or_insert _ _ _ _ _ _ _ _) as [context c]. cbn [fst snd] in *. rewrite Hctx. apply Hfetch.
  - destruct (discover_key ids fetch read (cache, w) k) as [c v] eqn:E. cbn [fst] in Hcache'.
    apply IH; [done| |done]. apply elem_of_cons in Hkey as [?|?]; done.
Qed.

(** ** Witnesses *)

Module WarmupExample.
Definition good : StartupWarmupKeyConfig :=
  {| wk_sdk_key := " secret-1 "; wk_path := "/v1/download_config_specs/"; wk_encodings := Some ["gzip"; "br"] |}.
Definition bad : StartupWarmupKeyConfig := {| wk_sdk_key := "key"; wk_path := "/v1/get_id_lists"; wk_encodings := None |}.
(** Values that are entries or malformed. *)
Definition values : list (option StartupWarmupKeyConfig) := [Some good; None; Some bad].
#[export] Instance two_entries : WarmupJson := {|
  json_value := option StartupWarmupKeyConfig;
  json_array _ := Ok values;
  json_entry v := match v with Some c => Ok c | None => Err "schema" end |}.
Definition live : request := {|
  req_method := Post; uri_path := "/v1/download_config_specs"; uri_query := None;
  headers := [("STATSIG-API-KEY", "secret-1"); ("accept-encoding", "gzip"); ("accept-encoding", "br")] |}.
End WarmupExample.
#[local] Existing Instance WarmupExample.two_entries.
Import WarmupExample.

Lemma warmup_entries_exact_witness :
  exists r, parse_startup_warmup_keys_json "" = Ok r /\ configured_count r = 3 /\ invalid_count r = 2 /\ store_items r = [warm_item good].
Proof.
  destruct (warmup_entries_exact (H := two_entries) "" values eq_refl) as (r & Hr & Hc & Hsum & Hitems & _).
  exists r. assert (store_items r = [warm_item good]) as Hone by (rewrite Hitems; vm_compute; reflexivity).
  rewrite Hone in Hsum. cbn in Hsum, Hc. split; [exact Hr|]. split; [exact Hc|]. split; [lia|exact Hone].
Defined.

Lemma warmup_aligns_with_requests_witness :
  (authorized_request_context_wrapper (H := plain_http) live ∅ ∅).1 = Success (item_context (warm_item good)).
Proof.
  apply (warmup_aligns_with_requests (H := plain_http) good (warm_item good) live ∅ ∅);
    [vm_compute; reflexivity|apply cache_ok_empty|apply cache_ok_empty|vm_compute; reflexivity..].
Defined.
