(* ===== verification/Responses.v ===== *)
(** * Responses: what the endpoints put on the wire

    Models the responder of [src/src/servers/http_server.rs] and the forwarding of log
    events of [src/src/datastore/log_event_store.rs], and shows that a proxy behind
    another one gets from it what the origin would have said. *)
From S2P Require Import Prelude Encoding Request Namespaces Backoff Stores SpecDeltas Outbound Fetch LogEvents.

(** ** Writing a response *)

Definition UNAUTHORIZED_RESPONSE : ResponsePayload :=
  {| encoding := PlainText; use_proto := false; data := "Unauthorized" |}.
Definition DCS_NO_UPDATE_JSON : string := "{" +:+ String "034" "has_updates" +:+ String "034" ":false}".

Definition attach_delta_used_header (delta_used : bool) : list (string * string) :=
  if delta_used then [("x-deltas-used", "true")] else [].

(** The content types of the framework. *)
Definition json_type : string * string := ("Content-Type", "application/json").
Definition plain_type : string * string := ("Content-Type", "text/plain; charset=utf-8").
Definition since_header (lcut : N) : string * string := ("x-since-time", show_u64 lcut).

Definition respond_to (self : RequestPayloads) : http_response :=
  match self with
  | Gzipped data lcut delta_used => {|
      rs_status := 200;
      rs_headers := [json_type; ("Content-Encoding", "gzip"); since_header lcut] ++ attach_delta_used_header delta_used;
      rs_body := Some data |}
  | BrotliPayload data lcut delta_used => {|
      rs_status := 200;
      rs_headers := [json_type; ("Content-Encoding", "br"); since_header lcut] ++ attach_delta_used_header delta_used;
      rs_body := Some data |}
  | Proto data lcut encoding delta_used => {|
      rs_status := 200;
      rs_headers := [("Content-Type", "application/octet-stream")]
        ++ match content_encoding_header_value encoding with Some e => [("Content-Encoding", e)] | None => [] end
        ++ attach_delta_used_header delta_used ++ [since_header lcut];
      rs_body := Some data |}
  | Text data status content_range => {|
      rs_status := status;
      rs_headers := [("Content-Type", "application/octet-stream"); ("Accept-Ranges", "bytes")]
        ++ match content_range with Some r => [("Content-Range", r)] | None => [] end;
      rs_body := Some data |}
  | RangeNotSatisfiable complete_length => {|
      rs_status := 416;
      rs_headers := [("Content-Type", "application/octet-stream"); ("Accept-Ranges", "bytes");
                     ("Content-Range", "bytes */" +:+ show_u64 complete_length)];
      rs_body := Some "" |}
  | Plain data lcut delta_used => {|
      rs_status := 200;
      rs_headers := [json_type; since_header lcut] ++ attach_delta_used_header delta_used
        ++ (if bool_decide (data = DCS_NO_UPDATE_JSON) then [("x-cache-hit", "true")] else []);
      rs_body := Some data |}
  | UnauthorizedPayload => {| rs_status := 401; rs_headers := [plain_type]; rs_body := Some (data UNAUTHORIZED_RESPONSE) |}
  | PayloadError status body => {| rs_status := status; rs_headers := [plain_type]; rs_body := Some body |}
  end.

(** ** Forwarding log events *)

Section LogEvent.
Context `{Transport}.

Definition log_event_url (base_url : string) : string := base_url +:+ "/v1/log_event".

(** The answer is the text of whatever the origin says; only a request without an
    answer, or a body cut short, is an error. *)
Definition log_event `{EventHash} `{Calendar} (limit : nat) (base_url : string) (serialize : LogEventRequest -> option string)
    (request : LogEventRequest) (context : AuthorizedRequestContext) (clock : nat -> N) (cache : gset N)
    : http (result N string * gset N) := fun sent =>
  let '(repackaged, cache) := dedupe_and_serialize_for_sdk_key limit serialize (sdk_key context) request clock cache in
  match repackaged with
  | Err status => ((Err status, cache), sent)
  | Ok (body, stats) =>
      let req := {|
        rq_method := Post; rq_url := log_event_url base_url; rq_query := ∅;
        rq_headers := [("statsig-api-key", sdk_key context);
                       ("statsig-event-count", show_u64 (N.of_nat (batch_out_size stats)))];
        rq_body := Some body |} in
      let answer :=
        match respond sent req with
        | Ok response => ok_or 500%N (rs_body response)
        | Err _ => Err 500%N
        end in
      ((answer, cache), sent ++ [req])
  end.

(** The endpoint hands the batch to a task and answers at once, whatever comes of it. *)
Definition post_log_event `{EventHash} `{Calendar} (limit : nat) (base_url : string) (serialize : LogEventRequest -> option string)
    (request : LogEventRequest) (context : AuthorizedRequestContext) (clock : nat -> N) (cache : gset N)
    : http (N * bool * gset N) := fun sent =>
  let '((_, cache), sent) := log_event limit base_url serialize request context clock cache sent in
  ((202%N, true, cache), sent).
End LogEvent.

(** ** Reading headers back *)

Lemma get_one_cons name n v hs :
  get_one name ((n, v) :: hs) = if eq_ignore_ascii_case n name then Some v else get_one name hs.
Proof.
  unfold get_one, header_values. rewrite filter_cons. cbn [fst]. destruct (eq_ignore_ascii_case n name) eqn:E.
  - by rewrite decide_True.
  - by rewrite decide_False by done.
Qed.

(** Looking up a named header among named headers. *)
Ltac read_headers :=
  repeat (rewrite get_one_cons;
    match goal with
    | |- context [eq_ignore_ascii_case ?a ?b] =>
        let r := eval vm_compute in (eq_ignore_ascii_case a b) in change (eq_ignore_ascii_case a b) with r; cbn iota
    end).

Lemma header_str_show n : is_u64 n -> header_str (show_u64 n) = Some (show_u64 n).
Proof.
  intros Hn. unfold header_str. pose proof (parse_u64_chars _ _ (parse_u64_show n Hn)) as [_ Hall].
  erewrite str_forall_impl; [done| |exact Hall]. intros c. rewrite orb_true_iff, !bool_decide_eq_true.
  unfold is_digit. rewrite ?bool_decide_eq_true. intros [Hd| ->]; [|right; vm_compute; lia]. boolify. lia.
Qed.

Lemma since_time_read n hs context lcut :
  is_u64 n -> use_lcut context = true -> get_one "x-since-time" hs = Some (show_u64 n) ->
  parse_since_time hs lcut context = n.
Proof.
  intros Hn Hl Hh. unfold parse_since_time, header_u64. rewrite Hl, Hh. cbn [negb mbind option_bind].
  rewrite header_str_show by done. cbn [mbind option_bind]. by rewrite parse_u64_show.
Qed.

(** A payload whose encoding the responder can say. *)
Definition expressible (payload : ResponsePayload) : Prop :=
  if use_proto payload then encoding payload <> Identity
  else encoding payload = PlainText \/ encoding payload = Gzip \/ encoding payload = Brotli.

Lemma content_encoding_read e :
  e <> Identity -> default PlainText ((content_encoding_header_value e ≫= header_str) ≫= encoder_from_str) = e.
Proof. destruct e; try done; intros _; vm_compute; reflexivity. Qed.

(** What the next proxy makes of a config that is not the "no update" text. *)
Lemma config_read `{BodyHash} context lcut payload l b :
  use_lcut context = true -> is_u64 l -> expressible payload -> data payload <> DCS_NO_UPDATE_JSON ->
  (on_response context lcut (respond_to (to_request_payload payload l)) (BDcs b)).1 =
    {| dp_result := DataAvailable; dp_body := Some payload; dp_lcut := l |}.
Proof.
  intros Hl Hu Hex Hdata. destruct payload as [e proto d]. unfold expressible in Hex. cbn [use_proto encoding data] in *.
  unfold to_request_payload, to_request_payload_with_delta_used. cbn [use_proto encoding data].
  assert (forall hs, rs_headers (respond_to (if proto then Proto d l e false else if bool_decide (e = Gzip) then Gzipped d l false
      else if bool_decide (e = Brotli) then BrotliPayload d l false else Plain d l false)) = hs ->
    get_one "x-cache-hit" hs = None /\ get_one "x-since-time" hs = Some (show_u64 l) /\ parse_use_proto hs = proto /\
    default PlainText ((get_one "content-encoding" hs ≫= header_str) ≫= encoder_from_str) = e) as Hread.
  { intros hs <-. destruct proto.
    - pose proof (content_encoding_read e Hex) as He. cbn [respond_to rs_headers attach_delta_used_header app].
      destruct (content_encoding_header_value e) as [v|]; cbn [app]; unfold since_header, parse_use_proto; read_headers; (split_and!; [done..|]);
        exact He.
    - destruct Hex as [->|[->| ->]]; cbn [bool_decide decide decide_rel CompressionEncoder_eq]; 
        (rewrite ?bool_decide_eq_false_2 by done); cbn [respond_to rs_headers attach_delta_used_header app];
        unfold json_type, since_header, parse_use_proto; rewrite ?bool_decide_eq_false_2 by done; read_headers; done. }
  specialize (Hread _ eq_refl) as (Hhit & Hsince & Hproto & Henc). revert Hhit Hsince Hproto Henc.
  set (r := respond_to _). assert (rs_status r = 200%N /\ rs_body r = Some d) as [Hst Hb].
  { unfold r. destruct proto; [done|]. by repeat case_bool_decide. }
  intros Hhit Hsince Hproto Henc. unfold on_response. rewrite Hst, Hb.
  rewrite bool_decide_eq_false_2 by done. unfold is_success. rewrite bool_decide_eq_true_2 by lia.
  cbn [negb is_an_update]. unfold dcs_is_an_update. rewrite Hhit. cbn [mbind option_bind negb fst].
  unfold handle_success. by rewrite Hproto, Henc, (since_time_read l).
Qed.

(** ** A poll between two proxies *)

(** The typed query parameters of the GET handler, from the query of a request; how the web
    framework reads a boolean is its own affair. *)
Definition query_since_time (req : http_request) : option N := rq_query req !! "sinceTime" ≫= parse_u64.
Definition query_accept_deltas (form_bool : string -> option bool) (req : http_request) : option bool :=
  rq_query req !! "accept_deltas" ≫= form_bool.

Lemma poll_query b outer lcut form_bool :
  is_u64 lcut ->
  default 0%N (query_since_time (build_cdn_request b outer lcut)) = lcut /\
  query_accept_deltas form_bool (build_cdn_request b outer lcut) = None.
Proof.
  intros Hl. unfold query_since_time, query_accept_deltas. cbn [build_cdn_request rq_query]. split.
  - destruct (decide (lcut = 0%N)) as [->|Hne].
    + rewrite bool_decide_eq_false_2 by lia. destruct (supports_proto outer); [|done].
      rewrite (left_id_L ∅ (∪)), lookup_singleton_ne by done. done.
    + rewrite bool_decide_eq_true_2 by lia. rewrite (lookup_union_Some_l _ _ _ (show_u64 lcut)) by apply lookup_singleton_eq.
      cbn [mbind option_bind]. by rewrite parse_u64_show.
  - assert (forall (m m' : gmap string string), m !! "accept_deltas" = None -> m' !! "accept_deltas" = None ->
      (m ∪ m') !! "accept_deltas" = None) as Hunion by (intros m m' Hm Hm'; by apply lookup_union_None).
    rewrite Hunion; [done|case_bool_decide|destruct (supports_proto outer)]; done || by rewrite lookup_singleton_ne.
Qed.

(** C13: A proxy behind another one is none the wiser. When one proxy polls another for config
    specs, with the request its builder makes (a GET with the time it has, if any), it makes
    of the response what the other has for the context of that request: a refusal when it
    has no config for the key, "no update" when its config is not newer than the poll asks
    for, and otherwise that config, byte for byte, with its encoding, its format and its
    time. The endpoint is one with times, and the config that is kept is one the responder
    can name the encoding of ([expressible]: JSON in plain text, gzip or Brotli, or protobuf
    in anything but identity), does not read like the "no update" text, and has
    a time of 64 bits. *)
Theorem layered_proxies_agree `{SpecsProto} `{PayloadLib} `{CompressLib} `{BodyHash}
    fetch form_bool deltas_enabled context w outer lcut b (req := build_cdn_request b outer lcut) :
  use_lcut outer = true -> is_u64 lcut ->
  let '(payload, w') :=
    get_download_config_specs fetch deltas_enabled context (query_since_time req) (query_accept_deltas form_bool req) w in
  (forall record, px_specs w' !! hash_input context = Some record ->
     is_u64 (cs_lcut record) /\ expressible (cs_config record) /\ data (cs_config record) <> DCS_NO_UPDATE_JSON) ->
  (on_response outer lcut (respond_to payload) (BDcs b)).1 =
    match px_specs w' !! hash_input context with
    | None => {| dp_result := Unauthorized; dp_body := None; dp_lcut := 0 |}
    | Some record =>
        if bool_decide (lcut < cs_lcut record)%N
        then {| dp_result := DataAvailable; dp_body := Some (cs_config record); dp_lcut := cs_lcut record |}
        else {| dp_result := NoDataAvailable; dp_body := None; dp_lcut := 0 |}
    end.
Proof.
  intros Hl Hlcut. destruct (poll_query b outer lcut form_bool Hlcut) as [Hsince Hdeltas]. fold req in Hsince, Hdeltas.
  unfold get_download_config_specs, get_config_spec. rewrite Hsince, Hdeltas. cbn [default from_option id].
  set (w' := if has_key _ _ then _ else _). clearbody w'. intros Hrec.
  destruct (px_specs w' !! hash_input context) as [record|]; cbn [config_spec_answer fmap option_fmap option_map]; [|done].
  destruct (Hrec record eq_refl) as (Hu & Hex & Hdata). destruct (bool_decide (lcut < cs_lcut record)%N).
  - by apply config_read.
  - reflexivity.
Qed.

(** ** Witnesses *)

#[local] Existing Instances SpecDeltaExample.proto SpecDeltaExample.payloads OutboundExample.hash.

Module LayeredExample.
#[export] Instance no_compress : CompressLib := {| gzip_compress _ := None; brotli_compress _ := None |}.
Definition context : AuthorizedRequestContext := context_new "k" V1DownloadConfigSpecs [Gzip].
Definition config : ResponsePayload := {| encoding := Gzip; use_proto := false; data := "zipped" |}.
Definition inner : proxy := {|
  px_keys := ∅; px_specs := {[hash_input context := {| cs_lcut := 2; cs_config := config |}]};
  px_id_lists := ∅; px_files := ∅; px_deltas := None |}.
Definition no_fetch (_ : AuthorizedRequestContext) (_ : N) (w : proxy) : proxy := w.
Definition builder : DcsRequestBuilder := {| dcs_base_url := "http://inner"; dcs_blob_config := None |}.
Definition poll (lcut : N) : http_request := build_cdn_request builder context lcut.
Definition answered (lcut : N) : RequestPayloads * proxy :=
  get_download_config_specs no_fetch true context (query_since_time (poll lcut)) (query_accept_deltas (fun _ => None) (poll lcut)) inner.
End LayeredExample.
#[local] Existing Instance LayeredExample.no_compress.
Import LayeredExample.

Lemma layered_proxies_agree_witness :
  (on_response context 1 (respond_to (answered 1).1) (BDcs builder)).1 =
    {| dp_result := DataAvailable; dp_body := Some config; dp_lcut := 2 |}.
Proof.
  pose proof (layered_proxies_agree no_fetch (fun _ => None) true context inner context 1 builder eq_refl ltac:(done)) as Hagree.
  assert ((answered 1).2 = inner) as Hinner.
  { unfold answered, get_download_config_specs. cbn [default from_option id query_accept_deltas poll].
    destruct (poll_query builder context 1 (fun _ => None) ltac:(done)) as [_ Hdeltas]. unfold poll. rewrite Hdeltas.
    cbn [default from_option id]. unfold get_config_spec, no_fetch. cbn [snd]. by destruct (has_key _ _). }
  unfold answered, poll in *. destruct (get_download_config_specs _ _ _ _ _ _) as [payload w'] eqn:E.
  cbn [fst snd] in *. subst w'. rewrite Hagree.
  - cbn [inner px_specs]. rewrite lookup_singleton_eq. reflexivity.
  - intros record. cbn [inner px_specs]. rewrite lookup_singleton_eq. intros [= <-]. cbn [cs_lcut cs_config config data].
    split; [done|]. split; [right; by left|discriminate].
Defined.
