(* ===== verification/Events.v ===== *)
(** * Events: what the proxy reports about itself

    Models the events of [src/src/observers/mod.rs] and the fairing of
    [src/src/servers/request_logging_fairing.rs] that reports every request. *)
From S2P Require Import Prelude Encoding Request Namespaces Backoff Stores SpecDeltas Outbound Fetch LogEvents Responses.

(** ** Events *)

Inductive ProxyEventType :=
| HttpServerRequestSuccess | HttpServerRequestFailed | HttpDataProviderGotData | HttpDataProviderNoData
| HttpDataProviderNoDataDueToBadLcut | HttpDataProviderError | DownloadIdListFileSizeBytes
| BackgroundDataProviderRequestInterval | DcsFetchSource | RedisCacheWriteSucceed | RedisCacheWriteFailed
| RedisCacheReadSucceed | RedisCacheReadMiss | RedisCacheWriteSkipped | RedisCacheTtlRefreshed
| RedisCacheTtlRefreshMissed | RedisCacheTtlRefreshFailed | RedisCacheDeleteSucceed | RedisCacheDeleteFailed
| RedisCacheReadFailed | InMemoryCacheWriteSucceed | InMemoryCacheWriteSkipped | InMemoryCacheReadSucceed
| ConfigSpecStoreGotData | GrpcStreamingStreamedInitialized | GrpcStreamingStreamedResponse
| GrpcStreamingStreamUnauthorized | GrpcStreamingHealthcheckSent | GrpcStreamingStreamDisconnected
| GrpcEstimatedActiveStreams | StreamingChannelGotNewData | UpdateConfigSpecStorePropagationDelayMs
| ConfigSpecCurrentLcut | LogEventStoreDeduped | LogEventStoreDedupeCacheCleared | NginxCacheBytesUsed
| NginxCacheBytesLimit | IdListProducerRunSuccess | IdListProducerRunSkipped | IdListProducerRunFailed
| IdListProducerDurationMs | IdListTasksEnqueued | IdListQueueDepth | IdListManifestUnavailable
| IdListTaskCompleted | IdListTaskFailed | IdListTaskDurationMs | IdListTaskClaimConflict
| IdListStaleTaskDropped | IdListDeltaApplied | IdListFullReloadStarted | IdListFullReloadCommitted
| IdListFullReloadResumed | IdListDiffPartitionsDone | IdListScanVerifyFailed | IdListOrphanExpired
| IdListVersionRepersisted | IdListRemoved | IdListSyncCheckpointLag | IdListStalenessSeconds | IdListClaimHeld
| IdListRedisStateReset | IdListMembershipFetchFailed | IdListResolverMiss | IdListDictRefreshSuccess
| IdListDictRefreshFailed | IdListDictTargetedRefresh | IdListReadPoolConnections
| IdListReadPoolIdleConnections | UserEnrichmentRequestSuccess | UserEnrichmentRequestFailed
| UserEnrichmentLatencyMs | UserEnrichmentLookupsPerRequest.
#[export] Instance ProxyEventType_eq : EqDecision ProxyEventType.
Proof. solve_decision. Defined.

(** [fmt::Display] *)
Definition event_type_str (t : ProxyEventType) : string :=
  match t with
  | HttpServerRequestSuccess => "HttpServerRequestSuccess" | HttpServerRequestFailed => "HttpServerRequestFailed"
  | HttpDataProviderGotData => "HttpDataProviderGotData" | HttpDataProviderNoData => "HttpDataProviderNoData"
  | HttpDataProviderNoDataDueToBadLcut => "HttpDataProviderNoDataDueToBadLcut"
  | HttpDataProviderError => "HttpDataProviderError"
  | DownloadIdListFileSizeBytes => "DownloadIdListFileSizeBytes"
  | BackgroundDataProviderRequestInterval => "BackgroundDataProviderRequestInterval"
  | DcsFetchSource => "DcsFetchSource" | RedisCacheWriteSucceed => "RedisCacheWriteSucceed"
  | RedisCacheWriteFailed => "RedisCacheWriteFailed" | RedisCacheReadSucceed => "RedisCacheReadSucceed"
  | RedisCacheReadMiss => "RedisCacheReadMiss" | RedisCacheWriteSkipped => "RedisCacheWriteSkipped"
  | RedisCacheTtlRefreshed => "RedisCacheTtlRefreshed"
  | RedisCacheTtlRefreshMissed => "RedisCacheTtlRefreshMissed"
  | RedisCacheTtlRefreshFailed => "RedisCacheTtlRefreshFailed"
  | RedisCacheDeleteSucceed => "RedisCacheDeleteSucceed" | RedisCacheDeleteFailed => "RedisCacheDeleteFailed"
  | RedisCacheReadFailed => "RedisCacheReadFailed" | InMemoryCacheWriteSucceed => "InMemoryCacheWriteSucceed"
  | InMemoryCacheWriteSkipped => "InMemoryCacheWriteSkipped"
  | InMemoryCacheReadSucceed => "InMemoryCacheReadSucceed" | ConfigSpecStoreGotData => "ConfigSpecStoreGotData"
  | GrpcStreamingStreamedInitialized => "GrpcStreamingStreamedInitialized"
  | GrpcStreamingStreamedResponse => "GrpcStreamingStreamedResponse"
  | GrpcStreamingStreamUnauthorized => "GrpcStreamingStreamUnauthorized"
  | GrpcStreamingHealthcheckSent => "GrpcStreamingHealthcheckSent"
  | GrpcStreamingStreamDisconnected => "GrpcStreamingStreamDisconnected"
  | GrpcEstimatedActiveStreams => "GrpcEstimatedActiveStreams"
  | StreamingChannelGotNewData => "StreamingChannelGotNewData"
  | UpdateConfigSpecStorePropagationDelayMs => "UpdateConfigSpecStorePropagationDelayMs"
  | ConfigSpecCurrentLcut => "ConfigSpecCurrentLcut" | LogEventStoreDeduped => "LogEventStoreDeduped"
  | LogEventStoreDedupeCacheCleared => "LogEventStoreDedupeCacheCleared"
  | NginxCacheBytesUsed => "NginxCacheBytesUsed" | NginxCacheBytesLimit => "NginxCacheBytesLimit"
  | IdListProducerRunSuccess => "IdListProducerRunSuccess"
  | IdListProducerRunSkipped => "IdListProducerRunSkipped" | IdListProducerRunFailed => "IdListProducerRunFailed"
  | IdListProducerDurationMs => "IdListProducerDurationMs" | IdListTasksEnqueued => "IdListTasksEnqueued"
  | IdListQueueDepth => "IdListQueueDepth" | IdListManifestUnavailable => "IdListManifestUnavailable"
  | IdListTaskCompleted => "IdListTaskCompleted" | IdListTaskFailed => "IdListTaskFailed"
  | IdListTaskDurationMs => "IdListTaskDurationMs" | IdListTaskClaimConflict => "IdListTaskClaimConflict"
  | IdListStaleTaskDropped => "IdListStaleTaskDropped" | IdListDeltaApplied => "IdListDeltaApplied"
  | IdListFullReloadStarted => "IdListFullReloadStarted"
  | IdListFullReloadCommitted => "IdListFullReloadCommitted"
  | IdListFullReloadResumed => "IdListFullReloadResumed" | IdListDiffPartitionsDone => "IdListDiffPartitionsDone"
  | IdListScanVerifyFailed => "IdListScanVerifyFailed" | IdListOrphanExpired => "IdListOrphanExpired"
  | IdListVersionRepersisted => "IdListVersionRepersisted" | IdListRemoved => "IdListRemoved"
  | IdListSyncCheckpointLag => "IdListSyncCheckpointLag" | IdListStalenessSeconds => "IdListStalenessSeconds"
  | IdListClaimHeld => "IdListClaimHeld" | IdListRedisStateReset => "IdListRedisStateReset"
  | IdListMembershipFetchFailed => "IdListMembershipFetchFailed" | IdListResolverMiss => "IdListResolverMiss"
  | IdListDictRefreshSuccess => "IdListDictRefreshSuccess" | IdListDictRefreshFailed => "IdListDictRefreshFailed"
  | IdListDictTargetedRefresh => "IdListDictTargetedRefresh"
  | IdListReadPoolConnections => "IdListReadPoolConnections"
  | IdListReadPoolIdleConnections => "IdListReadPoolIdleConnections"
  | UserEnrichmentRequestSuccess => "UserEnrichmentRequestSuccess"
  | UserEnrichmentRequestFailed => "UserEnrichmentRequestFailed"
  | UserEnrichmentLatencyMs => "UserEnrichmentLatencyMs"
  | UserEnrichmentLookupsPerRequest => "UserEnrichmentLookupsPerRequest"
  end.

Inductive OperationType := Distribution | Timing | Gauge | IncrByValue.
#[export] Instance OperationType_eq : EqDecision OperationType.
Proof. solve_decision. Defined.

Record EventStat := { stat_operation : OperationType; stat_value : Z }.

Record ProxyEvent := {
  event_type : ProxyEventType;
  request_context : option AuthorizedRequestContext;
  ev_lcut : option N;
  stat : option EventStat;
  status_code : option N;
  response_encoding : option string;
  ev_sdk_type : option string;
  ev_sdk_version : option string;
  accept_encoding : option string;
  ev_service : option string;
  response_payload_type : option string;
}.

Definition event_new (t : ProxyEventType) : ProxyEvent := {|
    event_type := t; request_context := None; ev_lcut := None; stat := None;
    status_code := None; response_encoding := None; ev_sdk_type := None; ev_sdk_version := None;
    accept_encoding := None; ev_service := None; response_payload_type := None |}.
Definition event_new_with_rc (t : ProxyEventType) (rc : AuthorizedRequestContext) : ProxyEvent := {|
    event_type := t; request_context := Some rc; ev_lcut := None; stat := None;
    status_code := None; response_encoding := None; ev_sdk_type := None; ev_sdk_version := None;
    accept_encoding := None; ev_service := None; response_payload_type := None |}.

Definition with_lcut (v : N) (self : ProxyEvent) : ProxyEvent := {|
    event_type := event_type self; request_context := request_context self; ev_lcut := Some v; stat := stat self;
    status_code := status_code self; response_encoding := response_encoding self; ev_sdk_type := ev_sdk_type self; ev_sdk_version := ev_sdk_version self;
    accept_encoding := accept_encoding self; ev_service := ev_service self; response_payload_type := response_payload_type self |}.
Definition with_stat (v : EventStat) (self : ProxyEvent) : ProxyEvent := {|
    event_type := event_type self; request_context := request_context self; ev_lcut := ev_lcut self; stat := Some v;
    status_code := status_code self; response_encoding := response_encoding self; ev_sdk_type := ev_sdk_type self; ev_sdk_version := ev_sdk_version self;
    accept_encoding := accept_encoding self; ev_service := ev_service self; response_payload_type := response_payload_type self |}.
Definition with_status_code (v : N) (self : ProxyEvent) : ProxyEvent := {|
    event_type := event_type self; request_context := request_context self; ev_lcut := ev_lcut self; stat := stat self;
    status_code := Some v; response_encoding := response_encoding self; ev_sdk_type := ev_sdk_type self; ev_sdk_version := ev_sdk_version self;
    accept_encoding := accept_encoding self; ev_service := ev_service self; response_payload_type := response_payload_type self |}.
Definition with_sdk_type (v : string) (self : ProxyEvent) : ProxyEvent := {|
    event_type := event_type self; request_context := request_context self; ev_lcut := ev_lcut self; stat := stat self;
    status_code := status_code self; response_encoding := response_encoding self; ev_sdk_type := Some v; ev_sdk_version := ev_sdk_version self;
    accept_encoding := accept_encoding self; ev_service := ev_service self; response_payload_type := response_payload_type self |}.
Definition with_sdk_version (v : string) (self : ProxyEvent) : ProxyEvent := {|
    event_type := event_type self; request_context := request_context self; ev_lcut := ev_lcut self; stat := stat self;
    status_code := status_code self; response_encoding := response_encoding self; ev_sdk_type := ev_sdk_type self; ev_sdk_version := Some v;
    accept_encoding := accept_encoding self; ev_service := ev_service self; response_payload_type := response_payload_type self |}.
Definition with_accept_encoding (v : string) (self : ProxyEvent) : ProxyEvent := {|
    event_type := event_type self; request_context := request_context self; ev_lcut := ev_lcut self; stat := stat self;
    status_code := status_code self; response_encoding := response_encoding self; ev_sdk_type := ev_sdk_type self; ev_sdk_version := ev_sdk_version self;
    accept_encoding := Some v; ev_service := ev_service self; response_payload_type := response_payload_type self |}.
Definition with_service (v : string) (self : ProxyEvent) : ProxyEvent := {|
    event_type := event_type self; request_context := request_context self; ev_lcut := ev_lcut self; stat := stat self;
    status_code := status_code self; response_encoding := response_encoding self; ev_sdk_type := ev_sdk_type self; ev_sdk_version := ev_sdk_version self;
    accept_encoding := accept_encoding self; ev_service := Some v; response_payload_type := response_payload_type self |}.
Definition with_response_payload_type (v : string) (self : ProxyEvent) : ProxyEvent := {|
    event_type := event_type self; request_context := request_context self; ev_lcut := ev_lcut self; stat := stat self;
    status_code := status_code self; response_encoding := response_encoding self; ev_sdk_type := ev_sdk_type self; ev_sdk_version := ev_sdk_version self;
    accept_encoding := accept_encoding self; ev_service := ev_service self; response_payload_type := Some v |}.

(** Metric tags are split at commas: encodings are joined with a plus sign. *)
Definition encoding_parts (value : string) : list string :=
  filter (fun part => str_empty part = false) (trim <$> split_char "," value).
Definition with_response_encoding (encoding : string) (self : ProxyEvent) : ProxyEvent :=
  let normalized := join "+" (encoding_parts encoding) in {|
    event_type := event_type self; request_context := request_context self; ev_lcut := ev_lcut self; stat := stat self;
    status_code := status_code self; response_encoding := Some normalized; ev_sdk_type := ev_sdk_type self; ev_sdk_version := ev_sdk_version self;
    accept_encoding := accept_encoding self; ev_service := ev_service self; response_payload_type := response_payload_type self |}.

(** *** What an event says of its request *)

(** [SDK_KEY_CACHE]; [read] is the cache under the read lock, [cache] under the write lock. *)
Definition get_sdk_key (read cache : gmap string string) (self : ProxyEvent) : option string * gmap string string :=
  match request_context self with
  | None => (None, cache)
  | Some rc =>
      match read !! sdk_key rc with
      | Some cached_key => (Some cached_key, cache)
      | None =>
          match cache !! sdk_key rc with
          | Some cached_key => (Some cached_key, cache)
          | None => let new_key := sdk_key_prefix (sdk_key rc) in (Some new_key, <[sdk_key rc := new_key]> cache)
          end
      end
  end.

Definition get_path (self : ProxyEvent) : option string := path_str ∘ path <$> request_context self.

Definition get_id_list_file_id (self : ProxyEvent) : option string :=
  rc ← request_context self;
  if bool_decide (path rc = V1DownloadIdListFile) then file_id rc else None.

Definition should_tag_id_list_file_id (self : ProxyEvent) : bool :=
  bool_decide (event_type self = DownloadIdListFileSizeBytes).

Definition get_accept_encodings (self : ProxyEvent) : option string :=
  match accept_encoding self with
  | Some accept_encoding => Some accept_encoding
  | None =>
      rc ← request_context self;
      if bool_decide (encodings rc = []) then Some "none"
      else Some (join "+" (encoder_str <$> dedup (sort_by priority_le (encodings rc))))
  end.

(** *** Identity *)

(** [PartialEq]: the measured value is not part of an event's identity. *)
Definition event_eqb (self other : ProxyEvent) : bool :=
  bool_decide (event_type self = event_type other)
  && match request_context self, request_context other with
     | Some a, Some b => context_eqb a b
     | None, None => true
     | _, _ => false
     end
  && bool_decide (ev_lcut self = ev_lcut other)
  && bool_decide (response_encoding self = response_encoding other)
  && bool_decide (accept_encoding self = accept_encoding other)
  && bool_decide (ev_sdk_type self = ev_sdk_type other)
  && bool_decide (ev_sdk_version self = ev_sdk_version other)
  && bool_decide (ev_service self = ev_service other)
  && bool_decide (response_payload_type self = response_payload_type other)
  && bool_decide (status_code self = status_code other).

(** [Hash]: what is fed to the hasher. *)
Definition event_hash_input (self : ProxyEvent) :=
  (event_type self, (fun rc => (sdk_key rc, path rc)) <$> request_context self, ev_lcut self, response_encoding self,
   accept_encoding self, ev_sdk_type self, ev_sdk_version self, ev_service self, response_payload_type self, status_code self).

(** ** The report of a request *)

Definition MISSING_TIMER_SENTINEL_MS : Z := -2.

Record RequestContextInput := {
  in_sdk_key : string;
  in_path : NormalizedPath;
  in_parsed_encoding : ParsedAcceptEncoding;
  in_supports_proto : bool;
  in_accept_deltas : bool;
  in_raw_path : option string;
  in_raw_query : option string;
  in_file_id : option string;
  in_range_start : option N;
  in_id_list_size : option N;
}.

(** The milliseconds since the timer of the request was started, if it was. *)
Definition request_duration_ms (elapsed : option N) : Z :=
  match elapsed with
  | None => MISSING_TIMER_SENTINEL_MS
  | Some ms => if bool_decide (ms <= i64_max)%N then Z.of_N ms else MISSING_TIMER_SENTINEL_MS
  end.

Definition should_log_response_payload_type (path : NormalizedPath) (success : bool) : bool :=
  success && bool_decide (path ∈ [V1DownloadConfigSpecs; V2DownloadConfigSpecs; V2DownloadConfigSpecsDeltas]).

Definition header_is_true (resp : http_response) (header_name : string) : bool :=
  match get_one header_name (rs_headers resp) with
  | Some value => eq_ignore_ascii_case value "true"
  | None => false
  end.

Definition classify_response_payload_type (resp : http_response) : string :=
  let no_update := header_is_true resp "x-cache-hit" in
  let delta := header_is_true resp "x-deltas-used" in
  match delta, no_update with
  | true, true => "delta_no_update"
  | true, false => "delta"
  | false, true => "no_update"
  | false, false => "full"
  end.

Definition build_request_context (input : RequestContextInput) (read write : context_cache)
    : AuthorizedRequestContext * context_cache :=
  if bool_decide (in_path input = V1DownloadIdListFile) then
    (with_id_list_request (in_file_id input) (in_range_start input) (in_id_list_size input)
      (with_raw_request (in_raw_path input) (in_raw_query input)
        (with_request_capabilities (in_supports_proto input) (in_accept_deltas input)
          (context_new (in_sdk_key input) (in_path input) (acceptable_encodings (in_parsed_encoding input))))), write)
  else
    get_or_insert (in_sdk_key input) (in_path input) (acceptable_encodings (in_parsed_encoding input))
      (in_supports_proto input) (in_accept_deltas input) (in_file_id input) read write.

Definition parse_logged_id_list_file_size (hs : list (string * string)) : option N :=
  value ← get_one "statsig-id-list-file-size" hs; parse_u64 (trim value).

Definition parse_logged_id_list_file_range_start (hs : list (string * string)) : option N :=
  value ← get_one "Range" hs;
  start ← match (range ← strip_prefix "bytes=" (trim value); fst <$> split_once "-" range) with
          | Some start => Some start
          | None => strip_prefix "bytes=" (trim value)
          end;
  parse_u64 start.

(** What the fairing reads off the request. *)
Definition logged_input `{HttpLib} (req : request) : RequestContextInput :=
  let path := normalize_path (uri_path req) in
  let raw_path := if bool_decide (path = V1DownloadIdListFile) then Some (uri_path req) else None in
  {| in_sdk_key := default "no-key-provided" (get_one "statsig-api-key" (headers req));
     in_path := path;
     in_parsed_encoding := from_header_values (header_values "Accept-Encoding" (headers req));
     in_supports_proto := does_request_supports_proto req;
     in_accept_deltas := does_request_accept_deltas req;
     in_raw_path := raw_path;
     in_raw_query := if bool_decide (path = V1DownloadIdListFile) then uri_query req else None;
     in_file_id := raw_path ≫= parse_id_list_file_id;
     in_range_start := parse_logged_id_list_file_range_start (headers req);
     in_id_list_size := parse_logged_id_list_file_size (headers req) |}.

(** [on_response] of the fairing: the event it publishes and the cache of contexts. *)
Definition response_event `{HttpLib} (elapsed : option N) (req : request) (resp : http_response) (read write : context_cache)
    : ProxyEvent * context_cache :=
  let ms := request_duration_ms elapsed in
  let hs := headers req in
  let input := logged_input req in
  let lcut := default 0%N (get_one "x-since-time" (rs_headers resp) ≫= parse_u64) in
  let success := is_success (rs_status resp) in
  let content_encoding := join "+" (header_values "Content-Encoding" (rs_headers resp)) in
  let sdk_type := default "unknown" (get_one "statsig-sdk-type" hs) in
  let sdk_version :=
    match trim <$> get_one "statsig-sdk-version" hs with
    | Some value => if str_empty value then "unknown" else value
    | None => "unknown"
    end in
  let service := default "unknown" (get_one "x-request-service" hs) in
  let '(context, cache) := build_request_context input read write in
  let event :=
    with_stat {| stat_operation := Distribution; stat_value := ms |} (with_service service (with_sdk_version sdk_version
      (with_sdk_type sdk_type (with_response_encoding content_encoding (with_lcut lcut (with_status_code (rs_status resp)
        (event_new_with_rc (if success then HttpServerRequestSuccess else HttpServerRequestFailed) context))))))) in
  let event :=
    match logger_tag (in_parsed_encoding input) with Some tag => with_accept_encoding tag event | None => event end in
  let event :=
    if should_log_response_payload_type (in_path input) success
    then with_response_payload_type (classify_response_payload_type resp) event else event in
  (event, cache).

(** ** Events as keys *)

#[export] Instance event_equiv : Equiv ProxyEvent := fun a b => event_eqb a b = true.

(** The identity of an event: everything but its value, the context by its own identity. *)
Definition event_identity (e : ProxyEvent) :=
  (event_type e, hash_input <$> request_context e, ev_lcut e, response_encoding e, accept_encoding e, ev_sdk_type e,
   ev_sdk_version e, ev_service e, response_payload_type e, status_code e).

Lemma event_equiv_identity a b : a ≡ b <-> event_identity a = event_identity b.
Proof.
  unfold equiv, event_equiv, event_eqb, event_identity. rewrite !andb_true_iff, !bool_decide_eq_true.
  assert (match request_context a, request_context b with Some x, Some y => context_eqb x y | None, None => true | _, _ => false end = true
    <-> hash_input <$> request_context a = hash_input <$> request_context b) as ->.
  { destruct (request_context a) as [x|], (request_context b) as [y|]; cbn; [|done..]. rewrite context_eq_hash.
    split; [congruence|by intros ?%(inj Some)]. }
  split; [by intros (((((((((-> & ->) & ->) & ->) & ->) & ->) & ->) & ->) & ->) & ->)|].
  by intros [= -> -> -> -> -> -> -> -> -> ->].
Qed.

#[export] Instance event_equiv_equivalence : Equivalence (≡@{ProxyEvent}).
Proof.
  split; [intros a|intros a b|intros a b c]; rewrite !event_equiv_identity; congruence.
Qed.

(** Equal events hash alike. *)
#[export] Instance event_hash_proper : Proper ((≡) ==> (=)) event_hash_input.
Proof.
  intros a b. rewrite event_equiv_identity. unfold event_identity, event_hash_input, hash_input.
  intros [= -> Hrc -> -> -> -> -> -> -> ->]. do 8 f_equal. f_equal.
  destruct (request_context a) as [x|], (request_context b) as [y|]; cbn in *; congruence.
Qed.

(** *** Keys are cut before they are shown *)

Definition key_cache_ok (cache : gmap string string) : Prop :=
  forall key shown, cache !! key = Some shown -> shown = sdk_key_prefix key.

Lemma get_sdk_key_ok read cache e :
  key_cache_ok read -> key_cache_ok cache ->
  (get_sdk_key read cache e).1 = sdk_key_prefix ∘ sdk_key <$> request_context e /\ key_cache_ok (get_sdk_key read cache e).2.
Proof.
  intros Hr Hc. unfold get_sdk_key. destruct (request_context e) as [rc|]; [|done].
  destruct (read !! sdk_key rc) eqn:E; [by rewrite (Hr _ _ E)|]. destruct (cache !! sdk_key rc) eqn:E'; [by rewrite (Hc _ _ E')|].
  split; [done|]. cbn [snd]. intros key shown [[<- <-]|[_ Hl]]%lookup_insert_Some; [done|by apply Hc].
Qed.

(** ** Properties *)

(** What the event of a response says, field by field. *)
Lemma response_event_fields `{HttpLib} elapsed req resp read write :
  let e := (response_event elapsed req resp read write).1 in
  request_context e = Some (build_request_context (logged_input req) read write).1 /\
  event_type e = (if is_success (rs_status resp) then HttpServerRequestSuccess else HttpServerRequestFailed) /\
  status_code e = Some (rs_status resp) /\
  response_payload_type e =
    (if should_log_response_payload_type (normalize_path (uri_path req)) (is_success (rs_status resp))
     then Some (classify_response_payload_type resp) else None).
Proof.
  unfold response_event. destruct (build_request_context _ _ _) as [context cache]. cbn [fst].
  change (in_path (logged_input req)) with (normalize_path (uri_path req)).
  destruct (logger_tag _), (should_log_response_payload_type _ _); done.
Qed.

(** The strict and the lenient reading of a range agree where both read one. *)
Lemma strict_range_logged hs start :
  parse_strict_id_list_file_range_start hs = Ok start -> parse_logged_id_list_file_range_start hs = start.
Proof.
  unfold parse_strict_id_list_file_range_start, parse_logged_id_list_file_range_start.
  destruct (get_one "Range" hs) as [value|]; [|by intros [= <-]]. cbn [mbind option_bind].
  destruct (strip_prefix "bytes=" (trim value)) as [range|]; [|done]. cbn.
  destruct (_ || _); [done|]. destruct (split_once "-" range) as [[a b]|]; [|done]. cbn.
  destruct (_ || _); [done|]. destruct (parse_u64 a); [|done]. by intros [= <-].
Qed.

Lemma strict_size_logged hs size :
  parse_strict_id_list_file_size hs = Ok size -> parse_logged_id_list_file_size hs = size.
Proof.
  unfold parse_strict_id_list_file_size, parse_logged_id_list_file_size.
  destruct (get_one "statsig-id-list-file-size" hs) as [value|]; [|by intros [= <-]]. cbn.
  destruct (parse_u64 (trim value)); [|done]. by intros [= <-].
Qed.

Lemma request_key_header `{HttpLib} req key k :
  get_one "statsig-api-key" (headers req) = Some key -> request_sdk_key req = Ok k -> k = key.
Proof.
  unfold request_sdk_key. intros ->. destruct (uri_query req ≫= _); [case_decide|]; congruence.
Qed.

(** Past the normalization, every request a guard lets through has its key in the header:
    a download of a file must be a GET, as its route is, for the key of its signed query
    to be copied there. *)
Lemma served_key_in_header `{HttpLib} req0 keys read write rc :
  let req := (sdk_key_normalization req0 keys).1 in
  (authorized_request_context_wrapper req read write).1 = Success rc \/
  req_method req0 = Get /\ download_id_list_file_guard req = Success (Authorized rc) ->
  is_Some (get_one "statsig-api-key" (headers req)).
Proof.
  intros req [Hguard|[Hget Hguard]].
  { unfold authorized_request_context_wrapper in Hguard. by destruct (get_one _ (headers req)). }
  unfold download_id_list_file_guard in Hguard. case_decide as Hp; [done|].
  destruct (request_sdk_key req) as [k|] eqn:Hk; [|done]. clear Hguard. subst req. unfold sdk_key_normalization in *.
  case_bool_decide as Hh; [unfold get_one; destruct (header_values _ _); [done|by eexists]|].
  rewrite bool_decide_eq_true_2 in * by done. cbn [negb] in *.
  destruct (bool_decide (normalize_path (uri_path req0) = V1DownloadIdListFile)) eqn:Hf.
  - destruct (uri_query req0 ≫= extract_download_id_list_file_sdk_key) as [key|] eqn:Hq; cbn [fst] in *.
    + unfold get_one. rewrite header_values_add. destruct (header_values _ _); by eexists.
    + unfold request_sdk_key in Hk. rewrite Hq in Hk. by destruct (get_one _ (headers req0)).
  - destruct (keys !! uri_path req0); cbn [fst]; unfold get_one; rewrite header_values_add; destruct (header_values _ _); by eexists.
Qed.

(** C30: A request is reported as it was served: when a guard lets a request through that
    the normalization fairing has seen, the event published after its response carries
    the very context the handlers worked with, a key taken from the path or from a signed
    query included, whatever other requests do to the cache of contexts meanwhile, and
    says success exactly when the status does. Downloads of ID list files have a guard of
    their own and are GET requests; the other guard serves the other paths. Only the
    delta endpoint is reported without the delta flag its path implies. *)
Theorem requests_reported_as_served `{HttpLib} elapsed req0 keys resp read write read' write' rc :
  cache_ok read -> cache_ok write -> cache_ok read' -> cache_ok write' ->
  let req := (sdk_key_normalization req0 keys).1 in
  (authorized_request_context_wrapper req read write).1 = Success rc /\ path rc <> V1DownloadIdListFile \/
  req_method req0 = Get /\ download_id_list_file_guard req = Success (Authorized rc) ->
  let e := (response_event elapsed req resp read' write').1 in
  request_context e =
    Some (if bool_decide (path rc = V2DownloadConfigSpecsDeltas)
          then with_request_capabilities (supports_proto rc) (does_request_accept_deltas req) rc else rc) /\
  (event_type e = HttpServerRequestSuccess <-> is_success (rs_status resp) = true).
Proof.
  intros Hr Hw Hr' Hw' req Hserved e.
  destruct (served_key_in_header req0 keys read write rc) as [key Hkey]; [fold req; tauto|]. fold req in Hkey. clearbody req.
  destruct (response_event_fields elapsed req resp read' write') as (Hctx & Hty & _).
  fold e in Hctx, Hty. split; [|rewrite Hty; by destruct (is_success _)]. rewrite Hctx. f_equal. clear Hctx Hty e.
  unfold build_request_context, logged_input. cbn [in_path in_sdk_key in_file_id in_range_start in_id_list_size in_raw_path
    in_raw_query in_supports_proto in_accept_deltas in_parsed_encoding]. rewrite Hkey. cbn [default from_option id].
  destruct Hserved as [[Hguard Hpath]|[_ Hguard]].
  - unfold authorized_request_context_wrapper in Hguard. rewrite Hkey in Hguard.
    set (p := normalize_path (uri_path req)) in *. set (d := does_request_accept_deltas req) in *.
    match type of Hguard with context [get_or_insert _ _ _ _ ?d' ?f _ _] =>
      pose proof (get_or_insert_correct key p (request_encodings req) (does_request_supports_proto req) d' f read write Hr Hw) as [Hc _] end.
    destruct (get_or_insert _ _ _ _ _ _ read write) as [rc0 ?]. cbn [fst] in *. injection Hguard as ->. subst rc.
    cbn [path context_of with_id_list_request with_request_capabilities context_new] in Hpath |- *.
    rewrite (bool_decide_eq_false_2 (p = V1DownloadIdListFile)) by done. rewrite decide_False by done. cbn [mbind option_bind].
    pose proof (get_or_insert_correct key p (request_encodings req) (does_request_supports_proto req) d None read' write' Hr' Hw') as [Hc' _].
    unfold request_encodings in *. rewrite Hc'. case_bool_decide as Hdelta; [done|]. by rewrite orb_false_r.
  - unfold download_id_list_file_guard in Hguard. case_decide as Hp; [done|]. rewrite Hp in *.
    rewrite bool_decide_eq_true_2 by done. cbn [mbind option_bind].
    destruct (request_sdk_key req) as [k|] eqn:Ek; [|done]. rewrite (request_key_header _ _ _ Hkey Ek) in Hguard.
    cbn in Hguard. unfold parse_required_id_list_file_id in Hguard.
    destruct (parse_id_list_file_id (uri_path req)) as [fid|]; [|done]. cbn in Hguard.
    destruct (parse_strict_id_list_file_range_start (headers req)) as [start|] eqn:Es; [|done]. cbn in Hguard.
    destruct (parse_strict_id_list_file_size (headers req)) as [size|] eqn:Ez; [|done]. cbn in Hguard.
    injection Hguard as <-. by rewrite (strict_range_logged _ _ Es), (strict_size_logged _ _ Ez).
Qed.

(** The kind of a payload, as its variant and flag say. *)
Definition payload_kind (payload : RequestPayloads) : string :=
  match payload with
  | Gzipped _ _ delta_used | BrotliPayload _ _ delta_used | Proto _ _ _ delta_used =>
      if delta_used then "delta" else "full"
  | Plain data _ delta_used =>
      if bool_decide (data = DCS_NO_UPDATE_JSON) then (if delta_used then "delta_no_update" else "no_update")
      else if delta_used then "delta" else "full"
  | _ => "full"
  end.

(** The payload type of a report is the one the handler chose: the headers the responder
    writes tell a full config, a delta and "no update" apart, whatever the encoding, and
    the type is reported for config specs and deltas that were answered, only. *)
Theorem payload_type_reported `{HttpLib} elapsed req payload read write :
  response_payload_type (response_event elapsed req (respond_to payload) read write).1 =
    if is_success (rs_status (respond_to payload)) &&
       bool_decide (normalize_path (uri_path req) ∈ [V1DownloadConfigSpecs; V2DownloadConfigSpecs; V2DownloadConfigSpecsDeltas])
    then Some (payload_kind payload) else None.
Proof.
  destruct (response_event_fields elapsed req (respond_to payload) read write) as (_ & _ & _ & ->).
  unfold should_log_response_payload_type. assert (classify_response_payload_type (respond_to payload) = payload_kind payload) as ->; [|done].
  unfold classify_response_payload_type, header_is_true.
  destruct payload as [d l []|d l []|d l e []|d l []|d st [r|]|n|st b|]; cbn [respond_to rs_headers attach_delta_used_header app payload_kind];
    try destruct (content_encoding_header_value e); try case_bool_decide; cbn [app];
    unfold json_type, plain_type, since_header; read_headers; reflexivity.
Qed.

(** ** Witnesses *)

Module EventsExample.
(** A download of a file with the key in its signed query, as the guard reads it. *)
Definition req : request := (sdk_key_normalization (H := plain_http) signed_request ∅).1.
Definition rc : AuthorizedRequestContext :=
  with_id_list_request (Some "abc") (Some 7%N) None
    (with_raw_request (Some "/v1/download_id_list_file/abc") (Some "k=secret-1&s=2")
      (context_new "secret-1" V1DownloadIdListFile (request_encodings req))).
Definition resp : http_response := respond_to UnauthorizedPayload.
End EventsExample.

Lemma requests_reported_as_served_witness :
  request_context (response_event (H := plain_http) (Some 5%N) EventsExample.req EventsExample.resp ∅ ∅).1 = Some EventsExample.rc /\
  (event_type (response_event (H := plain_http) (Some 5%N) EventsExample.req EventsExample.resp ∅ ∅).1 = HttpServerRequestSuccess <->
   is_success (rs_status EventsExample.resp) = true).
Proof.
  apply (requests_reported_as_served (H := plain_http) (Some 5%N) signed_request ∅ EventsExample.resp ∅ ∅ ∅ ∅ EventsExample.rc
    cache_ok_empty cache_ok_empty cache_ok_empty cache_ok_empty).
  right. split; [reflexivity|]. vm_compute. reflexivity.
Defined.
