(* ===== verification/Metrics.v ===== *)
(** * Metrics: what becomes of events

    Models [src/src/loggers/stats_logger.rs]: the tags of an event and their cache, the
    batching of operations and what is handed to the sinks; and
    [src/src/loggers/nginx_cache_monitor.rs]. Instants are nanoseconds. *)
From S2P Require Import Prelude Encoding Request Namespaces Backoff Stores SpecDeltas Outbound Fetch LogEvents RateLimiter Responses Events.
From Stdlib Require Import SpecFloat.

(** ** Which sinks are on *)

Record LoggingFlags := { flag_statsd : bool; flag_datadog : bool; flag_statsig : bool; flag_otlp : bool }.
#[export] Instance LoggingFlags_eq : EqDecision LoggingFlags.
Proof. solve_decision. Defined.
Definition DEFAULT_LOGGING_FLAGS : LoggingFlags :=
  {| flag_statsd := false; flag_datadog := false; flag_statsig := false; flag_otlp := false |}.
(** [LOGGING_FLAGS] is set once; a later value is reported and dropped. *)
Definition logging_flags (cell : option LoggingFlags) : LoggingFlags := default DEFAULT_LOGGING_FLAGS cell.
Definition init_logging_flags (new_flags : LoggingFlags) (cell : option LoggingFlags) : option LoggingFlags :=
  match cell with None => Some new_flags | Some flags => Some flags end.

(** ** Tags *)

Definition sdk_key_tag (sdk_key : string) : string := "sdk_key:" +:+ sdk_key.
Definition path_tag (path : string) : string := "path:" +:+ path.
Definition lcut_tag (lcut : N) : string := "lcut:" +:+ show_u64 lcut.
Definition status_code_tag (code : N) : string := "status_code:" +:+ show_u64 code.
Definition format_tag (tag value : string) : string := tag +:+ String ":" value.

Definition normalize_content_encoding (value : string) : string :=
  match encoding_parts value with [] => value | normalized => join "+" normalized end.

Definition push_tag (f : string -> string) (value : option string) : list string :=
  match value with Some value => [f value] | None => [] end.

(** The tags of an event whose key is shown as [sdk_key]. *)
Definition create_tags (sdk_key : option string) (event : ProxyEvent) : list string :=
  push_tag sdk_key_tag sdk_key
  ++ push_tag path_tag (get_path event)
  ++ (if should_tag_id_list_file_id event then push_tag (format_tag "file_id") (get_id_list_file_id event) else [])
  ++ match ev_lcut event with Some lcut => [lcut_tag lcut] | None => [] end
  ++ match status_code event with Some code => [status_code_tag code] | None => [] end
  ++ push_tag (format_tag "accept-encoding") (get_accept_encodings event)
  ++ push_tag (fun enc => format_tag "content-encoding" (normalize_content_encoding enc)) (response_encoding event)
  ++ push_tag (format_tag "sdk_type") (ev_sdk_type event)
  ++ push_tag (format_tag "sdk_version") (ev_sdk_version event)
  ++ push_tag (format_tag "client_service") (ev_service event)
  ++ push_tag (format_tag "response_payload_type") (response_payload_type event).

(** [TAG_CACHE]: a hash map with the identity of events as key. *)
Definition TagCache : Type := list (ProxyEvent * (list string * N)).
Fixpoint tag_entry (event : ProxyEvent) (cache : TagCache) : option (list string) :=
  match cache with
  | [] => None
  | (e, (tags, _)) :: cache => if event_eqb e event then Some tags else tag_entry event cache
  end.

(** [shown] is [SDK_KEY_CACHE]; the tags are made while the tag cache is locked. *)
Definition get_or_create_tags (read shown : gmap string string) (now : N) (event : ProxyEvent) (cache : TagCache)
    : list string * (gmap string string * TagCache) :=
  match tag_entry event cache with
  | Some tags => (tags, (shown, cache))
  | None =>
      let '(sdk_key, shown) := get_sdk_key read shown event in
      let tags := create_tags sdk_key event in
      (tags, (shown, (event, (tags, now)) :: cache))
  end.

(** The sweep that runs every minute. *)
Definition TAG_CACHE_AGE : N := 60 * ns_per_s.
Definition sweep_tags (now : N) (cache : TagCache) : TagCache :=
  filter (fun entry => (TAG_CACHE_AGE < sat_sub now entry.2.2)%N) cache.

(** ** Operations *)

Record Operation := {
  op_type : OperationType;
  counter_name : string;
  op_value : Z;
  op_tags : list string;
}.

Definition operation_suffix (t : OperationType) : string :=
  match t with Distribution | Timing => "latency" | Gauge => "gauge" | IncrByValue => "count" end.

Definition determine_operation_type (flags : LoggingFlags) (t : OperationType) : OperationType :=
  match t with
  | Distribution | Timing => if flag_datadog flags then Distribution else Timing
  | Gauge | IncrByValue => t
  end.

Definition create_counter_name (event_type suffix : string) : string :=
  "statsig.forward_proxy." +:+ event_type +:+ "." +:+ suffix.

(** The operation sent to the batching task; an event without a value is not counted. *)
Definition handle_event (flags : LoggingFlags) (read shown : gmap string string) (now : N) (event : ProxyEvent) (cache : TagCache)
    : option Operation * (gmap string string * TagCache) :=
  match stat event with
  | None => (None, (shown, cache))
  | Some stat =>
      let '(tags, caches) := get_or_create_tags read shown now event cache in
      (Some {| op_type := determine_operation_type flags (stat_operation stat);
               counter_name := create_counter_name (event_type_str (event_type event)) (operation_suffix (stat_operation stat));
               op_value := stat_value stat; op_tags := tags |}, caches)
  end.

(** ** Batching *)

(** [i64] addition in a release build. *)
Definition i64_wrap (z : Z) : Z := ((z + 2 ^ 63) mod 2 ^ 64 - 2 ^ 63)%Z.

Definition IncrementKey : Type := string * list string.
Record batching := {
  batch : list Operation;
  incr_op_map : gmap IncrementKey Z;
  last_updated : N;
}.

Definition add_operation (operation : Operation) (self : batching) : batching :=
  match op_type operation with
  | IncrByValue =>
      let key := (counter_name operation, op_tags operation) in
      {| batch := batch self;
         incr_op_map := <[key := i64_wrap (default 0%Z (incr_op_map self !! key) + op_value operation)]> (incr_op_map self);
         last_updated := last_updated self |}
  | _ => {| batch := batch self ++ [operation]; incr_op_map := incr_op_map self; last_updated := last_updated self |}
  end.

(** What [flush] hands to [send]: the counters, in the order of the map, then the rest. *)
Definition increments (m : gmap IncrementKey Z) : list Operation :=
  (fun entry : IncrementKey * Z =>
    {| op_type := IncrByValue; counter_name := entry.1.1; op_value := entry.2; op_tags := entry.1.2 |}) <$> map_to_list m.
Definition flush (self : batching) : list Operation := increments (incr_op_map self) ++ batch self.

Section Batching.
Context (max_batch_size : nat) (max_batch_time : N).

(** One round of [process_operations] that receives an operation: the state, and the flush
    that is spawned, if any, as the operations it is going to send. *)
Definition receive (operation : Operation) (now : N) (self : batching) : batching * option (list Operation) :=
  let self := add_operation operation self in
  if bool_decide (max_batch_size <= length (batch self) + size (incr_op_map self))
     || bool_decide (max_batch_time <= sat_sub now (last_updated self))%N
  then ({| batch := []; incr_op_map := ∅; last_updated := now |}, Some (flush self))
  else (self, None).

(** Rounds until the shutdown token is cancelled, which ends the loop at once; with the
    flushes that were spawned, each a task of its own. *)
Fixpoint process_operations (received : list (Operation * N)) (self : batching) : batching * list (list Operation) :=
  match received with
  | [] => (self, [])
  | (operation, now) :: received =>
      let '(self, spawned) := receive operation now self in
      let '(self, later) := process_operations received self in
      (self, option_list spawned ++ later)
  end.
End Batching.

(** The spawned tasks run side by side, in any order: what they sent so far, and what each of
    them has left. *)
Inductive flushing (tasks : list (list Operation)) : list Operation -> list (list Operation) -> Prop :=
| flushing_start : flushing tasks [] tasks
| flushing_send sent left i op rest :
    flushing tasks sent left -> left !! i = Some (op :: rest) ->
    flushing tasks (sent ++ [op]) (<[i := rest]> left).

(** ** Sinks *)

Definition show_i64 (z : Z) : string :=
  if bool_decide (z < 0)%Z then String "-" (show_u64 (Z.to_N (- z))) else show_u64 (Z.to_N z).
(** [value as f64] *)
Definition f64_of_Z (z : Z) : spec_float := binary_normalize 53 1024 z 0 false.

(** The first colon splits a tag. *)
Definition parse_key_value (s : string) : option (string * string) := split_once ":" s.
(** [split_at] leaves the colon at the head of the value. *)
Definition convert_tags (tags : list string) : list (string * string) :=
  omap (fun t => prod_map id (String ":") <$> split_once ":" t) tags.

Inductive instrument := OtlpCounter | OtlpGauge | OtlpHistogram.
Inductive sink_call :=
| StatsigLogEvent (event_name : string) (value : Z) (metadata : gmap string string)
| StatsdTiming (name : string) (value : Z) (tags : list string)
| StatsdDistribution (name value : string) (tags : list string)
| StatsdGauge (name value : string) (tags : list string)
| StatsdIncrByValue (name : string) (value : Z) (tags : list string)
| OtlpBuild (kind : instrument) (name : string)
| OtlpRecord (kind : instrument) (name : string) (value : spec_float) (attributes : list (string * string)).

(** Later entries of the collected map replace earlier ones. *)
Definition send_to_statsig (event : Operation) : list sink_call :=
  [StatsigLogEvent (counter_name event) (op_value event)
    (foldl (fun m kv => <[kv.1 := kv.2]> m) ∅ (omap parse_key_value (op_tags event)))].

(** Nothing is sent without a client; errors of the client are printed. *)
Definition send_to_statsd (client : bool) (event : Operation) : list sink_call :=
  if negb client then [] else
  match op_type event with
  | Timing => [StatsdTiming (counter_name event) (op_value event) (op_tags event)]
  | Distribution => [StatsdDistribution (counter_name event) (show_i64 (op_value event)) (op_tags event)]
  | Gauge => [StatsdGauge (counter_name event) (show_i64 (op_value event)) (op_tags event)]
  | IncrByValue => [StatsdIncrByValue (counter_name event) (op_value event) (op_tags event)]
  end.

(** The instruments that were built, by name. *)
Record OTLPLogger := { counter_map : gset string; gauge_map : gset string; histogram_map : gset string }.

Definition otlp_calls (kind : instrument) (known : gset string) (event : Operation) : list sink_call :=
  (if bool_decide (counter_name event ∈ known) then [] else [OtlpBuild kind (counter_name event)])
  ++ [OtlpRecord kind (counter_name event) (f64_of_Z (op_value event)) (convert_tags (op_tags event))].
Definition send_histogram_event (event : Operation) (self : OTLPLogger) : list sink_call * OTLPLogger :=
  (otlp_calls OtlpHistogram (histogram_map self) event,
   {| counter_map := counter_map self; gauge_map := gauge_map self; histogram_map := {[counter_name event]} ∪ histogram_map self |}).
Definition send_count_event (event : Operation) (self : OTLPLogger) : list sink_call * OTLPLogger :=
  (otlp_calls OtlpCounter (counter_map self) event,
   {| counter_map := {[counter_name event]} ∪ counter_map self; gauge_map := gauge_map self; histogram_map := histogram_map self |}).
Definition send_gauge_event (event : Operation) (self : OTLPLogger) : list sink_call * OTLPLogger :=
  (otlp_calls OtlpGauge (gauge_map self) event,
   {| counter_map := counter_map self; gauge_map := {[counter_name event]} ∪ gauge_map self; histogram_map := histogram_map self |}).

(** [None]: no exporter could be built. *)
Definition send_to_otlp (event : Operation) (otlp : option OTLPLogger) : list sink_call * option OTLPLogger :=
  match otlp with
  | None => ([], None)
  | Some self =>
      prod_map id Some
        match op_type event with
        | Distribution | Timing => send_histogram_event event self
        | Gauge => send_gauge_event event self
        | IncrByValue => send_count_event event self
        end
  end.

(** The calls, whether any sink was on, and the instruments. *)
Definition send_operation (flags : LoggingFlags) (statsd_client : bool) (event : Operation) (otlp : option OTLPLogger)
    : bool * list sink_call * option OTLPLogger :=
  let to_statsig := if flag_statsig flags then send_to_statsig event else [] in
  let to_statsd := if flag_statsd flags || flag_datadog flags then send_to_statsd statsd_client event else [] in
  let '(to_otlp, otlp) := if flag_otlp flags then send_to_otlp event otlp else ([], otlp) in
  (flag_statsig flags || (flag_statsd flags || flag_datadog flags) || flag_otlp flags, to_statsig ++ to_statsd ++ to_otlp, otlp).

(** *** Settings of the sinks *)

Record EnvConfig := {
  datadog_max_batch_time_ms : option N;
  datadog_max_batch_event_count : option N;
  dogstatsd_max_buffer_size : option N;
  dogstatsd_max_time_ms : option N;
  dogstatsd_max_retry_attempt : option N;
  dogstatsd_initial_retry_delay : option N;
  statsd_host_override : option string;
  statsd_port_override : option string;
  statsd_socket : option string;
  datadog_sender_buffer_size : option N;
  otel_exporter_endpoint : option string;
  otel_exporter_otlp_protocol : option string;
}.
Record DefaultTagsConfig := { dd_env : option string; dd_version : option string; dd_service : option string }.

Definition get_hostname (hostname : option string) : string := default "localhost" hostname.

(** What the options of the statsd client are built from; [None] as address is the
    library's own. *)
Record StatsdOptions := {
  opt_to_addr : option string;
  opt_socket_path : option string;
  opt_max_buffer_size : N;
  opt_max_time_ms : N;
  opt_max_retry_attempts : N;
  opt_initial_retry_delay : N;
  opt_default_tags : list string;
}.
Definition initialize_datadog_client_options (config : EnvConfig) (tags : DefaultTagsConfig) (hostname : option string)
    : StatsdOptions := {|
  opt_to_addr :=
    match statsd_host_override config, statsd_port_override config with
    | Some host, Some port => Some (host +:+ ":" +:+ port)
    | _, _ => None
    end;
  opt_socket_path := statsd_socket config;
  opt_max_buffer_size := default 8000%N (dogstatsd_max_buffer_size config);
  opt_max_time_ms := default 30000%N (dogstatsd_max_time_ms config);
  opt_max_retry_attempts := default 3%N (dogstatsd_max_retry_attempt config);
  opt_initial_retry_delay := default 10%N (dogstatsd_initial_retry_delay config);
  opt_default_tags := omap id [(fun v => "version:" +:+ v) <$> dd_version tags; (fun v => "env:" +:+ v) <$> dd_env tags;
    (fun v => "service:" +:+ v) <$> dd_service tags; Some ("pod_name:" +:+ get_hostname hostname)] |}.

(** The limits [process_operations] works with. *)
Definition batch_limits (config : EnvConfig) : nat * N :=
  (N.to_nat (default 3000%N (datadog_max_batch_event_count config)),
   default 10000%N (datadog_max_batch_time_ms config) * ns_per_ms)%N.

Inductive Protocol := OtlpGrpc | HttpBinary | HttpJson.
Definition otlp_protocol (config : EnvConfig) : Protocol :=
  match otel_exporter_otlp_protocol config with
  | Some p => if bool_decide (p = "grpc") then OtlpGrpc else if bool_decide (p = "http/protobuf") then HttpBinary else HttpJson
  | None => HttpJson
  end.

(** ** The size of nginx's caches *)

Record NginxCacheConfig := {
  proxy_cache_path_configuration : option string;
  proxy_cache_download_path_configuration : option string;
  proxy_cache_download_id_list_path_configuration : option string;
  proxy_cache_max_size_in_mb : N;
}.

Definition cache_paths (config : NginxCacheConfig) : list string :=
  match proxy_cache_download_path_configuration config, proxy_cache_download_id_list_path_configuration config with
  | Some download_path, Some id_list_path => [download_path; id_list_path]
  | _, _ => match proxy_cache_path_configuration config with Some path => [path] | None => [] end
  end.

Definition max_cache_size_bytes (config : NginxCacheConfig) : N :=
  sat_mul (sat_mul (sat_mul (proxy_cache_max_size_in_mb config) 1024) 1024) (N.of_nat (length (cache_paths config))).

Definition event_stat_value (value : N) : Z := Z.of_N (if bool_decide (value <= i64_max)%N then value else i64_max).

(** What the file system shows at a path: something that is not a directory, with its
    length, or a directory that can be listed or not; an entry may fail to be read. *)
Inductive fs_node :=
| FsFile (len : N)
| FsDir (entries : option (list fs_entry))
with fs_entry :=
| FsEntry (node : fs_node)
| FsUnreadable.

Definition wrapping_add (a b : N) : N := ((a + b) mod 2 ^ 64)%N.

(** The walk below a directory; the first failure ends it. *)
Definition walk_entries (dir_size : fs_node -> option N) : N -> list fs_entry -> option N :=
  fix walk (total : N) (entries : list fs_entry) : option N :=
    match entries with
    | [] => Some total
    | FsUnreadable :: _ => None
    | FsEntry entry :: entries =>
        match dir_size entry with
        | Some size => walk (wrapping_add total size) entries
        | None => None
        end
    end.
Fixpoint dir_size (node : fs_node) : option N :=
  match node with
  | FsFile len => Some len
  | FsDir None => None
  | FsDir (Some entries) => walk_entries dir_size 0%N entries
  end.
(** A path that is not a directory has size zero. *)
Definition calculate_dir_size (node : option fs_node) : option N :=
  match node with
  | Some (FsDir entries) => dir_size (FsDir entries)
  | _ => Some 0%N
  end.
Definition calculate_cache_size (fs : string -> option fs_node) (paths : list string) : option N :=
  foldl (fun total path => total_size ← total; size ← calculate_dir_size (fs path); Some (sat_add total_size size)) (Some 0%N) paths.

(** One round of the monitor: the events it publishes. *)
Definition monitor_round (fs : string -> option fs_node) (config : NginxCacheConfig) : list ProxyEvent :=
  match calculate_cache_size fs (cache_paths config) with
  | Some size =>
      [with_stat {| stat_operation := Gauge; stat_value := event_stat_value size |} (event_new NginxCacheBytesUsed);
       with_stat {| stat_operation := Gauge; stat_value := event_stat_value (max_cache_size_bytes config) |}
         (event_new NginxCacheBytesLimit)]
  | None => []
  end.

(** ** Tags *)

(** The tags of an event, its key cut. *)
Definition event_tags (event : ProxyEvent) : list string :=
  create_tags (sdk_key_prefix ∘ sdk_key <$> request_context event) event.

#[export] Instance event_tags_proper : Proper ((≡) ==> (=)) event_tags.
Proof.
  intros a b. rewrite event_equiv_identity. unfold event_identity.
  intros [= Ht Hrc Hl Hre Hae Hst Hsv Hs Hp Hc]. unfold event_tags, create_tags, get_path, get_id_list_file_id, get_accept_encodings,
    should_tag_id_list_file_id. rewrite Ht, Hl, Hre, Hae, Hst, Hsv, Hs, Hp, Hc.
  destruct (request_context a) as [x|], (request_context b) as [y|]; cbn in Hrc; try discriminate; [|done].
  unfold hash_input in Hrc. injection Hrc as Hk Hpa He _ _ Hf _. cbn. by rewrite Hk, Hpa, He, Hf.
Qed.

Definition tag_cache_ok (cache : TagCache) : Prop := Forall (fun entry => entry.2.1 = event_tags entry.1) cache.

Lemma tag_entry_ok event cache tags : tag_cache_ok cache -> tag_entry event cache = Some tags -> tags = event_tags event.
Proof.
  unfold tag_cache_ok. induction 1 as [|[e [ts t]] cache Hhead _ IH]; cbn in *; [done|]. destruct (event_eqb e event) eqn:E; [|done].
  intros [= <-]. rewrite Hhead. by apply event_tags_proper.
Qed.

Lemma get_or_create_tags_ok read shown now event cache :
  key_cache_ok read -> key_cache_ok shown -> tag_cache_ok cache ->
  let '(tags, (shown', cache')) := get_or_create_tags read shown now event cache in
  tags = event_tags event /\ key_cache_ok shown' /\ tag_cache_ok cache'.
Proof.
  intros Hr Hs Hc. unfold get_or_create_tags. destruct (tag_entry event cache) as [tags|] eqn:E; [by rewrite (tag_entry_ok _ _ _ Hc E)|].
  pose proof (get_sdk_key_ok read shown event Hr Hs) as [Hk Hs']. destruct (get_sdk_key read shown event) as [k s]. cbn in Hk, Hs'. subst k.
  split; [done|]. split; [done|]. by constructor.
Qed.

Lemma sweep_tags_ok now cache : tag_cache_ok cache -> tag_cache_ok (sweep_tags now cache).
Proof. unfold tag_cache_ok, sweep_tags. rewrite !Forall_forall. intros Hall x [_ Hx]%list_elem_of_filter. by apply Hall. Qed.

(** *** Names and values of tags *)

(** The tags of an event, taken apart. *)
Definition tag_pairs (sdk_key : option string) (event : ProxyEvent) : list (string * string) :=
  let field (name : string) (value : option string) := match value with Some v => [(name, v)] | None => [] end in
  field "sdk_key" sdk_key ++ field "path" (get_path event)
  ++ (if should_tag_id_list_file_id event then field "file_id" (get_id_list_file_id event) else [])
  ++ field "lcut" (show_u64 <$> ev_lcut event) ++ field "status_code" (show_u64 <$> status_code event)
  ++ field "accept-encoding" (get_accept_encodings event)
  ++ field "content-encoding" (normalize_content_encoding <$> response_encoding event)
  ++ field "sdk_type" (ev_sdk_type event) ++ field "sdk_version" (ev_sdk_version event)
  ++ field "client_service" (ev_service event) ++ field "response_payload_type" (response_payload_type event).

Lemma create_tags_pairs k event : create_tags k event = uncurry format_tag <$> tag_pairs k event.
Proof.
  unfold create_tags, tag_pairs, push_tag. rewrite !fmap_app.
  repeat (f_equal; [by repeat case_match; simplify_eq/=|]). by case_match.
Qed.

Lemma tag_pairs_names k event : Forall (fun p => no_char ":" p.1 = true) (tag_pairs k event).
Proof. unfold tag_pairs. rewrite !Forall_app. split_and!; repeat case_match; try apply Forall_nil_2; by apply Forall_singleton. Qed.

Lemma parse_format_tag name value : no_char ":" name = true -> split_once ":" (format_tag name value) = Some (name, value).
Proof. intros Hn. unfold format_tag. by apply split_once_app_char. Qed.

(** ** Batches *)

Definition is_increment (op : Operation) : bool := bool_decide (op_type op = IncrByValue).
Definition key_of (op : Operation) : IncrementKey := (counter_name op, op_tags op).
(** What is added to a counter by operations. *)
Definition total (key : IncrementKey) (ops : list Operation) : Z :=
  foldr (fun op acc => if is_increment op && bool_decide (key_of op = key) then (op_value op + acc)%Z else acc) 0%Z ops.
Definition measures (ops : list Operation) : list Operation := filter (fun op => is_increment op = false) ops.
(** Equal as [i64]s that wrap around. *)
Definition same_i64 (a b : Z) : Prop := (a mod 2 ^ 64 = b mod 2 ^ 64)%Z.

Lemma i64_wrap_same z : same_i64 (i64_wrap z) z.
Proof.
  unfold same_i64, i64_wrap. by rewrite Zminus_mod, Zmod_mod, <- Zminus_mod, Z.add_simpl_r.
Qed.

Lemma same_i64_add a a' b b' : same_i64 a a' -> same_i64 b b' -> same_i64 (a + b) (a' + b').
Proof. unfold same_i64. intros Ha Hb. by rewrite Zplus_mod, Ha, Hb, <- Zplus_mod. Qed.

Lemma total_app key xs ys : total key (xs ++ ys) = (total key xs + total key ys)%Z.
Proof. unfold total. induction xs as [|x xs IH]; [done|]. cbn [app foldr]. rewrite IH. case_match; lia. Qed.

Lemma total_cons key op ops : total key (op :: ops) = (total key [op] + total key ops)%Z.
Proof. apply (total_app key [op]). Qed.

Lemma measures_app xs ys : measures (xs ++ ys) = measures xs ++ measures ys.
Proof. apply filter_app. Qed.

Lemma increments_measures m : measures (increments m) = [].
Proof. unfold measures, increments. induction (map_to_list m) as [|e l IH]; [done|]. cbn [fmap list_fmap]. by rewrite filter_cons_False. Qed.

Lemma increments_total key m : total key (increments m) = default 0%Z (m !! key).
Proof.
  unfold increments. rewrite <- (list_to_map_to_list m) at 2. pose proof (NoDup_fst_map_to_list m) as Hnd. revert Hnd.
  generalize (map_to_list m). induction l as [|[k v] l IH]; cbn [fmap list_fmap fst]; intros Hnd; [done|]. inversion_clear Hnd as [|?? Hk Hnd'].
  rewrite total_cons, IH by done. clear IH. cbn [total foldr].
  unfold is_increment, key_of. rewrite bool_decide_eq_true_2 by done. cbn [op_type counter_name op_tags fst snd op_value andb].
  rewrite <- surjective_pairing. case_bool_decide as He; cbn [list_to_map foldr].
  - subst. rewrite lookup_insert_eq, (not_elem_of_list_to_map_1 l key) by done. cbn. lia.
  - by rewrite lookup_insert_ne.
Qed.

(** What is waiting in the state. *)
Definition pending (key : IncrementKey) (self : batching) : Z := total key (flush self).
Definition only_measures (self : batching) : Prop := measures (batch self) = batch self.

Lemma total_measures key ops : measures ops = ops -> total key ops = 0%Z.
Proof.
  intros Hm. induction ops as [|op ops IH]; [done|]. unfold measures in Hm. rewrite filter_cons in Hm. case_decide as Ho.
  - injection Hm as Hm. cbn. rewrite Ho. cbn. by apply IH.
  - exfalso. assert (op ∈ filter (fun op => is_increment op = false) ops) as Hin by (rewrite Hm; by left).
    by apply list_elem_of_filter in Hin as [? _].
Qed.

Lemma pending_map key self : only_measures self -> pending key self = default 0%Z (incr_op_map self !! key).
Proof. intros Hm. unfold pending, flush. rewrite total_app, increments_total, (total_measures _ _ Hm). lia. Qed.

Lemma pending_empty key now : pending key {| batch := []; incr_op_map := ∅; last_updated := now |} = 0%Z.
Proof. rewrite pending_map by done. cbn [incr_op_map]. by rewrite lookup_empty. Qed.

Lemma add_operation_measures op self :
  only_measures self ->
  only_measures (add_operation op self) /\ batch (add_operation op self) = batch self ++ measures [op].
Proof.
  unfold only_measures, add_operation, measures. intros Hm. rewrite filter_cons. unfold is_increment in *.
  destruct (op_type op) eqn:E; cbn [batch]; (case_bool_decide; [|]); rewrite ?decide_True, ?decide_False by done;
    rewrite ?filter_nil, ?app_nil_r; try done; (split; [|done]); rewrite filter_app, Hm, filter_cons, E; done.
Qed.

Lemma add_operation_pending key op self :
  only_measures self -> same_i64 (pending key (add_operation op self)) (pending key self + total key [op])%Z.
Proof.
  intros Hm. rewrite !pending_map by (done || by apply add_operation_measures). unfold add_operation, total, is_increment, key_of. cbn [foldr].
  destruct (op_type op) eqn:E; cbn [incr_op_map]; [by rewrite (bool_decide_eq_false_2 (_ = IncrByValue)) by done; cbn; rewrite Z.add_0_r..|].
  rewrite (bool_decide_eq_true_2 (IncrByValue = _)) by done. cbn [andb]. case_bool_decide as Hk.
  - subst. rewrite lookup_insert_eq. cbn. rewrite Z.add_0_r. apply i64_wrap_same.
  - rewrite lookup_insert_ne by done. by rewrite Z.add_0_r.
Qed.

Section Rounds.
Context (max_batch_size : nat) (max_batch_time : N).
#[local] Abbreviation recv := (receive max_batch_size max_batch_time).
#[local] Abbreviation process := (process_operations max_batch_size max_batch_time).

(** One round: what is sent and what waits is what waited and came; the state stays small. *)
Lemma receive_round op now self :
  only_measures self ->
  let '(self', spawned) := recv op now self in
  let sent := default [] spawned in
  only_measures self' /\ measures sent ++ batch self' = batch self ++ measures [op] /\
  (forall key, same_i64 (total key sent + pending key self') (pending key self + total key [op])) /\
  length (batch self') + size (incr_op_map self') < max 1 max_batch_size.
Proof.
  intros Hm. pose proof (add_operation_measures op self Hm) as [Hm' Hb]. unfold receive. cbn zeta.
  destruct (_ || _) eqn:E; cbn [batch incr_op_map default from_option id].
  - split; [done|]. split.
    { unfold flush. rewrite measures_app, increments_measures, Hm', app_nil_r. exact Hb. }
    split; [|rewrite map_size_empty; cbn; lia]. intros key. fold (pending key (add_operation op self)).
    rewrite (pending_empty key now), Z.add_0_r. by apply add_operation_pending.
  - apply orb_false_iff in E as [E _]. boolify. split; [done|]. split; [exact Hb|]. split; [|lia].
    intros key. by apply add_operation_pending.
Qed.

Lemma process_operations_rounds received : forall self,
  only_measures self ->
  let '(self', sent) := process received self in
  measures (concat sent) ++ batch self' = batch self ++ measures received.*1 /\
  (forall key, same_i64 (total key (concat sent) + pending key self') (pending key self + total key received.*1)) /\
  (length (batch self') + size (incr_op_map self') < max 1 (max max_batch_size (S (length (batch self) + size (incr_op_map self))))).
Proof.
  induction received as [|[op now] received IH]; intros self Hm.
  { cbn. split; [by rewrite app_nil_r|]. split; [|lia]. intros key. by rewrite Z.add_0_r. }
  cbn [process_operations fmap list_fmap fst]. pose proof (receive_round op now self Hm) as Hround.
  destruct (recv op now self) as [self1 spawned]. set (sent := default [] spawned) in *.
  assert (forall later, concat (option_list spawned ++ later) = sent ++ concat later) as Hconcat
    by (intros later; by destruct spawned).
  destruct Hround as (Hm1 & Hb1 & Ht1 & Hs1).
  specialize (IH self1 Hm1). destruct (process received self1) as [self2 later]. destruct IH as (Hb2 & Ht2 & Hs2).
  split; [|split].
  - rewrite Hconcat, measures_app, <- (app_assoc (measures sent)), Hb2, app_assoc, Hb1, <- app_assoc, <- measures_app. done.
  - intros key. rewrite Hconcat, total_app, (total_cons key op), <- Z.add_assoc.
    specialize (Ht1 key). specialize (Ht2 key). unfold same_i64 in *.
    rewrite Zplus_mod, Ht2, <- Zplus_mod, !Z.add_assoc, Zplus_mod, Ht1, <- Zplus_mod. done.
  - lia.
Qed.
End Rounds.

Lemma concat_insert (l : list (list Operation)) i op rest :
  l !! i = Some (op :: rest) -> concat l ≡ₚ op :: concat (<[i := rest]> l).
Proof.
  revert i. induction l as [|t l IH]; intros [|i]; cbn; [done..|by intros [= ->]|].
  intros Hi. rewrite (IH i Hi). by rewrite <- Permutation_middle.
Qed.

(** Whatever the order, the tasks send what they were given and each in its order. *)
Lemma flushing_spec tasks sent left :
  flushing tasks sent left ->
  concat tasks ≡ₚ sent ++ concat left /\
  Forall2 (fun task rest => exists done, task = done ++ rest /\ done `sublist_of` sent) tasks left.
Proof.
  induction 1 as [|sent left i op rest _ [IHp IHf] Hi].
  { split; [done|]. apply Forall2_same_length_lookup_2; [done|]. intros i task rest -> [= <-]. exists []. split; [done|]. apply sublist_nil_l. }
  split.
  - rewrite IHp, (concat_insert left i op rest Hi). by rewrite <- app_assoc.
  - apply Forall2_same_length_lookup. apply Forall2_same_length_lookup in IHf as [Hlen IHf].
    split; [by rewrite length_insert|]. intros j task rest' Hj Hr.
    destruct (decide (i = j)) as [<-|Hne].
    + rewrite list_lookup_insert_eq in Hr by (by eapply lookup_lt_Some). injection Hr as <-.
      destruct (IHf i task (op :: rest) Hj Hi) as (done & -> & Hsub). exists (done ++ [op]). split; [by rewrite <- app_assoc|].
      by apply sublist_app.
    + rewrite list_lookup_insert_ne in Hr by done. destruct (IHf j task rest' Hj Hr) as (done & -> & Hsub).
      exists done. split; [done|]. etrans; [exact Hsub|]. by apply sublist_inserts_r.
Qed.

Lemma total_perm key xs ys : xs ≡ₚ ys -> total key xs = total key ys.
Proof.
  induction 1 as [|x xs ys _ IH|x y xs|xs ys zs _ IH1 _ IH2]; [done| | |congruence].
  - rewrite (total_cons key x xs), (total_cons key x ys). lia.
  - rewrite (total_cons key y (x :: xs)), (total_cons key x xs), (total_cons key x (y :: xs)), (total_cons key y xs). lia.
Qed.
Lemma measures_perm xs ys : xs ≡ₚ ys -> measures xs ≡ₚ measures ys.
Proof. intros Hp. unfold measures. by rewrite Hp. Qed.

(** ** The walk *)

(** The lengths of the files below a node. *)
Definition entries_bytes (file_bytes : fs_node -> N) : list fs_entry -> N :=
  fix bytes (entries : list fs_entry) : N :=
    match entries with
    | [] => 0
    | FsUnreadable :: entries => bytes entries
    | FsEntry entry :: entries => file_bytes entry + bytes entries
    end%N.
Fixpoint file_bytes (node : fs_node) : N :=
  match node with
  | FsFile len => len
  | FsDir None => 0%N
  | FsDir (Some entries) => entries_bytes file_bytes entries
  end.

(** Induction through the entries of directories. *)
Definition in_entry (P : fs_node -> Prop) (entry : fs_entry) : Prop :=
  match entry with FsEntry node => P node | FsUnreadable => True end.
Fixpoint fs_node_nested_ind (P : fs_node -> Prop) (Hfile : forall len, P (FsFile len)) (Hunlisted : P (FsDir None))
    (Hdir : forall entries, Forall (in_entry P) entries -> P (FsDir (Some entries))) (node : fs_node) : P node :=
  match node with
  | FsFile len => Hfile len
  | FsDir None => Hunlisted
  | FsDir (Some entries) =>
      Hdir entries ((fix all (entries : list fs_entry) : Forall (in_entry P) entries :=
        match entries with
        | [] => @List.Forall_nil _ (in_entry P)
        | entry :: entries =>
            @List.Forall_cons _ (in_entry P) entry entries
              match entry return in_entry P entry with
              | FsEntry node => fs_node_nested_ind P Hfile Hunlisted Hdir node
              | FsUnreadable => I
              end (all entries)
        end) entries)
  end.

Lemma dir_size_bytes node size : dir_size node = Some size -> (file_bytes node < 2 ^ 64)%N -> size = file_bytes node.
Proof.
  revert size. induction node as [len| |entries Hall] using fs_node_nested_ind; intros size; cbn [dir_size file_bytes]; [by intros [= <-]|done|].
  enough (forall total, walk_entries dir_size total entries = Some size -> (total + entries_bytes file_bytes entries < 2 ^ 64)%N ->
    size = (total + entries_bytes file_bytes entries)%N) as Hw by apply (Hw 0%N).
  induction Hall as [|[node|] entries Hnode _ IH]; intros total; cbn [walk_entries entries_bytes]; [intros [= <-]; lia| |done].
  cbn [in_entry] in Hnode. destruct (dir_size node) as [s|]; [|done]. intros Hwalk Hb.
  assert (s = file_bytes node) as -> by (apply Hnode; [done|lia]).
  assert (wrapping_add total (file_bytes node) = total + file_bytes node)%N as Hadd by (apply N.mod_small; lia).
  rewrite Hadd in Hwalk. apply IH in Hwalk; lia.
Qed.

(** ** Properties *)

(** C29: Metrics are neither lost nor counted twice: whatever operations arrive, whenever batches
    are flushed, and however the flushes, which are tasks of their own, are interleaved, the
    measurements sent, still to be sent by a flush and waiting for one are those received,
    each once, and what was sent to a counter, is still to be sent and waits for it adds
    up, as a 64-bit integer, to what was received for it. Batches are cut in the order the
    measurements came, and each flush sends its own in order; between flushes there is
    no order. Less than a batch ever waits for a flush. *)
Theorem metrics_conserved max_batch_size max_batch_time start received :
  let '(self, tasks) := process_operations max_batch_size max_batch_time received
    {| batch := []; incr_op_map := ∅; last_updated := start |} in
  measures (concat tasks) ++ batch self = measures received.*1 /\
  length (batch self) + size (incr_op_map self) < max 1 max_batch_size /\
  forall sent left, flushing tasks sent left ->
    measures sent ++ measures (concat left) ++ batch self ≡ₚ measures received.*1 /\
    (forall key, same_i64 (total key sent + total key (concat left) + pending key self) (total key received.*1)) /\
    Forall2 (fun task rest => exists done, task = done ++ rest /\ done `sublist_of` sent) tasks left.
Proof.
  pose proof (process_operations_rounds max_batch_size max_batch_time received {| batch := []; incr_op_map := ∅; last_updated := start |} eq_refl) as Hrun.
  destruct (process_operations _ _ _ _) as [self tasks]. destruct Hrun as (Hb & Ht & Hs). split; [exact Hb|]. split.
  { cbn [batch incr_op_map] in Hs. rewrite map_size_empty in Hs. cbn [length] in Hs. lia. }
  intros sent left Hf. apply flushing_spec in Hf as [Hp Hall]. split; [|split; [|done]].
  - cbn [batch app] in Hb. rewrite <- Hb, app_assoc, <- measures_app. by rewrite (measures_perm _ _ Hp).
  - intros key. rewrite <- total_app, <- (total_perm key _ _ Hp). exact (Ht key).
Qed.

(** What happens to the tag cache: events are counted, and it is swept. *)
Inductive tag_action := TagEvent (read : gmap string string) (now : N) (event : ProxyEvent) | TagSweep (now : N).

(** The operations sent for a sequence of actions. *)
Fixpoint run_tags (flags : LoggingFlags) (actions : list tag_action) (shown : gmap string string) (cache : TagCache) : list Operation :=
  match actions with
  | [] => []
  | TagSweep now :: actions => run_tags flags actions shown (sweep_tags now cache)
  | TagEvent read now event :: actions =>
      let '(op, (shown, cache)) := handle_event flags read shown now event cache in
      match op with Some op => [op] | None => [] end ++ run_tags flags actions shown cache
  end.

(** The operation an event stands for. *)
Definition event_operation (flags : LoggingFlags) (event : ProxyEvent) : option Operation :=
  (fun stat => {|
    op_type := determine_operation_type flags (stat_operation stat);
    counter_name := create_counter_name (event_type_str (event_type event)) (operation_suffix (stat_operation stat));
    op_value := stat_value stat; op_tags := event_tags event |}) <$> stat event.

(** The caches of tags and of shown keys do not show: whatever was counted or swept
    before, each event with a value gives one operation, with the tags of that event,
    in which its SDK key is cut to its prefix. *)
Theorem tags_transparent flags actions shown cache :
  key_cache_ok shown -> tag_cache_ok cache ->
  Forall (fun a => match a with TagEvent read _ _ => key_cache_ok read | TagSweep _ => True end) actions ->
  run_tags flags actions shown cache =
    omap (fun a => match a with TagEvent _ _ event => event_operation flags event | TagSweep _ => None end) actions.
Proof.
  intros Hs Hc Hall. revert shown cache Hs Hc. induction Hall as [|[read now event|now] actions Ha _ IH]; intros shown cache Hs Hc; [done| |].
  - cbn [run_tags omap list_omap]. unfold handle_event, event_operation. destruct (stat event) as [st|]; cbn [fmap option_fmap option_map].
    + pose proof (get_or_create_tags_ok read shown now event cache Ha Hs Hc) as Hok.
      destruct (get_or_create_tags _ _ _ _ _) as [tags [shown' cache']]. destruct Hok as (-> & Hs' & Hc'). cbn [app]. by rewrite IH.
    + cbn [app]. by apply IH.
  - cbn [run_tags omap list_omap]. apply IH; [done|by apply sweep_tags_ok].
Qed.

(** The tags of an event are name and value pairs that read back: Statsig gets each name
    with its value, even if the value has colons of its own. The attributes sent to an
    OTLP collector keep the colon in front of every value. *)
Theorem tags_read_back event :
  omap parse_key_value (event_tags event) = tag_pairs (sdk_key_prefix ∘ sdk_key <$> request_context event) event /\
  convert_tags (event_tags event) =
    prod_map id (String ":") <$> tag_pairs (sdk_key_prefix ∘ sdk_key <$> request_context event) event.
Proof.
  unfold event_tags, convert_tags, parse_key_value. rewrite create_tags_pairs.
  generalize (tag_pairs_names (sdk_key_prefix ∘ sdk_key <$> request_context event) event).
  induction 1 as [|[name value] pairs Hn _ [IH1 IH2]]; [done|]. cbn [fmap list_fmap omap list_omap uncurry fst snd].
  rewrite parse_format_tag by done. cbn [fmap option_fmap option_map]. by rewrite IH1, IH2.
Qed.

(** The sweep works the wrong way around: what is at most a minute old goes, and what is
    older stays for good. *)
Theorem sweep_keeps_old now later cache entry :
  (now <= later)%N -> entry ∈ sweep_tags now cache ->
  (entry.2.2 + TAG_CACHE_AGE < now)%N /\ entry ∈ sweep_tags later (sweep_tags now cache).
Proof.
  intros Hle Hin. unfold sweep_tags in *. rewrite !list_elem_of_filter in *. unfold sat_sub in *. destruct Hin as [Hage Hin].
  split_and!; try done; lia.
Qed.

(** The gauge of the monitor is the bytes of the files below the caches, as far as they fit
    the gauge; nothing is reported when a directory cannot be read. *)
Theorem monitor_counts_files fs config :
  (forall path node, path ∈ cache_paths config -> fs path = Some node -> (file_bytes node < 2 ^ 64)%N) ->
  forall size, calculate_cache_size fs (cache_paths config) = Some size ->
  size = N.min u64_max (foldr (fun path acc =>
    (match fs path with Some (FsDir entries) => file_bytes (FsDir entries) | _ => 0 end + acc)%N) 0%N (cache_paths config)).
Proof.
  intros Hb size. unfold calculate_cache_size.
  enough (forall paths start, (start <= u64_max)%N -> paths ⊆ cache_paths config ->
    foldl (fun total path => total_size ← total; size ← calculate_dir_size (fs path); Some (sat_add total_size size)) (Some start) paths
      = Some size ->
    size = N.min u64_max (start + foldr (fun path acc =>
      (match fs path with Some (FsDir entries) => file_bytes (FsDir entries) | _ => 0 end + acc)%N) 0%N paths)) as Hw.
  { intros Hf. by apply (Hw _ 0%N) in Hf. }
  induction paths as [|path paths IH]; intros start Hs Hsub; cbn [foldl foldr]; [intros [= <-]; lia|].
  assert (forall n, calculate_dir_size (fs path) = Some n ->
    n = match fs path with Some (FsDir entries) => file_bytes (FsDir entries) | _ => 0%N end) as Hn.
  { intros n. unfold calculate_dir_size. destruct (fs path) as [[len|entries]|] eqn:E; [by intros [= <-]| |by intros [= <-]].
    intros Hd. apply dir_size_bytes; [done|]. apply (Hb path); [apply Hsub; by left|done]. }
  cbn [mbind option_bind]. destruct (calculate_dir_size (fs path)) as [n|] eqn:E.
  - rewrite <- (Hn n) by done. cbn [mbind option_bind]. intros Hf. apply IH in Hf; [|unfold sat_add; lia|intros x Hx; apply Hsub; by right].
    unfold sat_add in Hf. lia.
  - cbn. intros Hf. exfalso. clear -Hf. induction paths; cbn in Hf; [done|by apply IHpaths].
Qed.

(** ** Witnesses *)

Module MetricsExample.
Definition event : ProxyEvent :=
  with_stat {| stat_operation := IncrByValue; stat_value := 1 |}
    (with_lcut 7 (event_new_with_rc ConfigSpecStoreGotData (context_new "secret-0123456789abcdefgh" V1GetIdLists [Gzip]))).
Definition op : Operation := {|
  op_type := IncrByValue; counter_name := "statsig.forward_proxy.ConfigSpecStoreGotData.count"; op_value := 1;
  op_tags := ["sdk_key:secret-0123456789abc***"; "path:/v1/get_id_lists/"; "lcut:7"; "accept-encoding:gzip"] |}.
End MetricsExample.

Lemma tags_transparent_witness :
  run_tags DEFAULT_LOGGING_FLAGS [TagEvent ∅ 0 MetricsExample.event; TagEvent ∅ 1 MetricsExample.event; TagSweep 2] ∅ []
  = [MetricsExample.op; MetricsExample.op].
Proof.
  assert (key_cache_ok ∅) as He by (intros k v Hl; by rewrite lookup_empty in Hl).
  rewrite (tags_transparent DEFAULT_LOGGING_FLAGS [TagEvent ∅ 0 MetricsExample.event; TagEvent ∅ 1 MetricsExample.event; TagSweep 2] ∅ []).
  - vm_compute. reflexivity.
  - exact He.
  - apply Forall_nil_2.
  - repeat constructor; exact He.
Defined.
