(* ===== verification/Utf8.v ===== *)
(** * Utf8: which bytes are text

    Models [str::from_utf8] and [String::from_utf8], which
    [src/src/datatypes/gzip_data.rs] and
    [src/src/datastore/data_providers/http_data_provider.rs] rely on, and shows that they
    accept exactly the encodings of sequences of Unicode scalar values. *)
From S2P Require Import Prelude Parser Encoding Request.
#[local] Ltac Zify.zify_post_hook ::= Z.to_euclidean_division_equations.

(** ** Validation *)

Definition byte_in (lo hi : N) (c : ascii) : bool := bool_decide (lo <= N_of_ascii c <= hi)%N.
(** A byte that continues a character. *)
Definition cont (c : ascii) : bool := byte_in 128 191 c.

(** The second byte of a character of three or four bytes: no overlong forms, no
    surrogates, nothing beyond the last code point. *)
Definition second_of_three (b1 b2 : ascii) : bool :=
  byte_in (if bool_decide (N_of_ascii b1 = 224%N) then 160 else 128) (if bool_decide (N_of_ascii b1 = 237%N) then 159 else 191) b2.
Definition second_of_four (b1 b2 : ascii) : bool :=
  byte_in (if bool_decide (N_of_ascii b1 = 240%N) then 144 else 128) (if bool_decide (N_of_ascii b1 = 244%N) then 143 else 191) b2.

Fixpoint from_utf8 (s : string) : bool :=
  match s with
  | EmptyString => true
  | String b1 s1 =>
      if byte_in 0 127 b1 then from_utf8 s1
      else
        match s1 with
        | EmptyString => false
        | String b2 s2 =>
            if byte_in 194 223 b1 then cont b2 && from_utf8 s2
            else
              match s2 with
              | EmptyString => false
              | String b3 s3 =>
                  if byte_in 224 239 b1 then second_of_three b1 b2 && cont b3 && from_utf8 s3
                  else
                    match s3 with
                    | EmptyString => false
                    | String b4 s4 =>
                        byte_in 240 244 b1 && second_of_four b1 b2 && cont b3 && cont b4 && from_utf8 s4
                    end
              end
        end
  end.

(** ** The encoding *)

(** Code points that are not surrogates. *)
Definition is_scalar (c : N) : Prop := (c < 55296 \/ 57344 <= c < 1114112)%N.

Definition bytes_of (bs : list N) : string := foldr (fun b s => String (ascii_of_N b) s) EmptyString bs.
Definition encode_char (c : N) : string :=
  bytes_of
    (if bool_decide (c < 128) then [c]
     else if bool_decide (c < 2048) then [192 + c / 64; 128 + c mod 64]
     else if bool_decide (c < 65536) then [224 + c / 4096; 128 + (c / 64) mod 64; 128 + c mod 64]
     else [240 + c / 262144; 128 + (c / 4096) mod 64; 128 + (c / 64) mod 64; 128 + c mod 64])%N.
Definition encode_chars (cs : list N) : string := foldr (fun c s => encode_char c +:+ s) EmptyString cs.

(** ** Bytes and numbers *)

Lemma byte_in_of_N lo hi b : (b < 256)%N -> byte_in lo hi (ascii_of_N b) = bool_decide (lo <= b <= hi)%N.
Proof. intros Hb. unfold byte_in. by rewrite N_ascii_embedding. Qed.

Lemma byte_in_spec lo hi c : byte_in lo hi c = true <-> (lo <= N_of_ascii c <= hi)%N.
Proof. apply bool_decide_eq_true. Qed.
Lemma byte_in_false lo hi c : byte_in lo hi c = false <-> ~ (lo <= N_of_ascii c <= hi)%N.
Proof. apply bool_decide_eq_false. Qed.

(** Decides the comparisons of a goal by arithmetic. *)
Ltac decide_bytes :=
  repeat match goal with
  | |- context [bool_decide ?P] =>
      first [rewrite (bool_decide_eq_true_2 P) by lia | rewrite (bool_decide_eq_false_2 P) by lia]; cbn [andb]
  end.

(** Validation goes over an encoded character. *)
Lemma from_utf8_char c s : is_scalar c -> from_utf8 (encode_char c +:+ s) = from_utf8 s.
Proof.
  unfold is_scalar, encode_char. intros Hc. repeat case_bool_decide; cbn [bytes_of foldr]; rewrite !str_cons_app, str_nil_app;
    cbn [from_utf8]; unfold second_of_three, second_of_four, cont; rewrite ?N_ascii_embedding by lia.
  - rewrite !byte_in_of_N by lia. by decide_bytes.
  - rewrite !byte_in_of_N by lia. by decide_bytes.
  - rewrite !byte_in_of_N by lia. destruct (decide (c < 4096)%N) as [?|?], (decide (53248 <= c < 57344)%N) as [?|?]; by decide_bytes.
  - rewrite !byte_in_of_N by lia. destruct (decide (c < 262144)%N) as [?|?], (decide (1048576 <= c)%N) as [?|?]; by decide_bytes.
Qed.

(** The code point of the bytes of a character. *)
Definition point2 (b1 b2 : ascii) : N := ((N_of_ascii b1 - 192) * 64 + (N_of_ascii b2 - 128))%N.
Definition point3 (b1 b2 b3 : ascii) : N := ((N_of_ascii b1 - 224) * 4096 + (N_of_ascii b2 - 128) * 64 + (N_of_ascii b3 - 128))%N.
Definition point4 (b1 b2 b3 b4 : ascii) : N :=
  ((N_of_ascii b1 - 240) * 262144 + (N_of_ascii b2 - 128) * 4096 + (N_of_ascii b3 - 128) * 64 + (N_of_ascii b4 - 128))%N.

Lemma ascii_of_N_eq n c : n = N_of_ascii c -> ascii_of_N n = c.
Proof. intros ->. apply ascii_N_embedding. Qed.

(** Turns the tests of validation into inequalities. *)
Ltac byte_ranges :=
  repeat match goal with
  | H : _ && _ = true |- _ => apply andb_true_iff in H as [? ?]
  | H : byte_in _ _ _ = true |- _ => apply byte_in_spec in H
  | H : byte_in _ _ _ = false |- _ => apply byte_in_false in H
  end.

Lemma encode_point1 b1 : byte_in 0 127 b1 = true -> is_scalar (N_of_ascii b1) /\ encode_char (N_of_ascii b1) = String b1 "".
Proof.
  intros H1. byte_ranges. split; [unfold is_scalar; lia|]. unfold encode_char. decide_bytes. cbn. f_equal. by apply ascii_of_N_eq.
Qed.
Lemma encode_point2 b1 b2 :
  byte_in 194 223 b1 = true -> cont b2 = true ->
  is_scalar (point2 b1 b2) /\ encode_char (point2 b1 b2) = String b1 (String b2 "").
Proof.
  unfold cont, point2. intros H1 H2. byte_ranges. set (x := N_of_ascii b1) in *. set (y := N_of_ascii b2) in *.
  split; [unfold is_scalar; lia|]. unfold encode_char. decide_bytes. cbn. repeat f_equal; apply ascii_of_N_eq; lia.
Qed.
Lemma encode_point3 b1 b2 b3 :
  byte_in 224 239 b1 = true -> second_of_three b1 b2 = true -> cont b3 = true ->
  is_scalar (point3 b1 b2 b3) /\ encode_char (point3 b1 b2 b3) = String b1 (String b2 (String b3 "")).
Proof.
  unfold second_of_three, cont, point3. intros H1 H2 H3. byte_ranges.
  assert (128 <= N_of_ascii b2 <= 191 /\ (N_of_ascii b1 = 224 -> 160 <= N_of_ascii b2) /\ (N_of_ascii b1 = 237 -> N_of_ascii b2 <= 159))%N
    as (Hb & Hlo & Hhi) by (repeat case_bool_decide; lia). clear H2.
  set (x := N_of_ascii b1) in *. set (y := N_of_ascii b2) in *. set (z := N_of_ascii b3) in *.
  assert (x = 224 \/ x = 237 \/ x <> 224 /\ x <> 237)%N as Hx by lia.
  split; [unfold is_scalar; lia|]. unfold encode_char. decide_bytes. cbn. repeat f_equal; apply ascii_of_N_eq; lia.
Qed.
Lemma encode_point4 b1 b2 b3 b4 :
  byte_in 240 244 b1 = true -> second_of_four b1 b2 = true -> cont b3 = true -> cont b4 = true ->
  is_scalar (point4 b1 b2 b3 b4) /\ encode_char (point4 b1 b2 b3 b4) = String b1 (String b2 (String b3 (String b4 ""))).
Proof.
  unfold second_of_four, cont, point4. intros H1 H2 H3 H4. byte_ranges.
  assert (128 <= N_of_ascii b2 <= 191 /\ (N_of_ascii b1 = 240 -> 144 <= N_of_ascii b2) /\ (N_of_ascii b1 = 244 -> N_of_ascii b2 <= 143))%N
    as (Hb & Hlo & Hhi) by (repeat case_bool_decide; lia). clear H2.
  set (x := N_of_ascii b1) in *. set (y := N_of_ascii b2) in *. set (z := N_of_ascii b3) in *. set (w := N_of_ascii b4) in *.
  assert (x = 240 \/ x = 244 \/ x <> 240 /\ x <> 244)%N as Hx by lia.
  split; [unfold is_scalar; lia|]. unfold encode_char. decide_bytes. cbn. repeat f_equal; apply ascii_of_N_eq; lia.
Qed.

(** Valid text starts with a character. *)
Lemma from_utf8_head s :
  from_utf8 s = true -> s = EmptyString \/ exists c rest, is_scalar c /\ s = encode_char c +:+ rest /\ from_utf8 rest = true.
Proof.
  destruct s as [|b1 s1]; [by left|]. intros Hv. right. cbn [from_utf8] in Hv. destruct (byte_in 0 127 b1) eqn:E1.
  { destruct (encode_point1 b1 E1) as [Hs He]. exists (N_of_ascii b1), s1. by rewrite He, str_cons_app, str_nil_app. }
  destruct s1 as [|b2 s2]; [done|]. destruct (byte_in 194 223 b1) eqn:E2.
  { apply andb_true_iff in Hv as [H2 Hv]. destruct (encode_point2 b1 b2 E2 H2) as [Hs He].
    exists (point2 b1 b2), s2. by rewrite He, !str_cons_app, str_nil_app. }
  destruct s2 as [|b3 s3]; [done|]. destruct (byte_in 224 239 b1) eqn:E3.
  { apply andb_true_iff in Hv as [[H2 H3]%andb_true_iff Hv]. destruct (encode_point3 b1 b2 b3 E3 H2 H3) as [Hs He].
    exists (point3 b1 b2 b3), s3. by rewrite He, !str_cons_app, str_nil_app. }
  destruct s3 as [|b4 s4]; [done|]. apply andb_true_iff in Hv as [[[[H1 H2]%andb_true_iff H3]%andb_true_iff H4]%andb_true_iff Hv].
  destruct (encode_point4 b1 b2 b3 b4 H1 H2 H3 H4) as [Hs He].
  exists (point4 b1 b2 b3 b4), s4. by rewrite He, !str_cons_app, str_nil_app.
Qed.

Lemma encode_char_length c : 0 < String.length (encode_char c).
Proof. unfold encode_char. repeat case_bool_decide; cbn; lia. Qed.

(** ** Text is what encodes characters *)

Lemma from_utf8_chars s : from_utf8 s = true <-> exists cs, Forall is_scalar cs /\ s = encode_chars cs.
Proof.
  split.
  - remember (String.length s) as n eqn:Hn. revert s Hn. induction n as [n IH] using lt_wf_ind. intros s -> Hv.
    destruct (from_utf8_head s Hv) as [->|(c & rest & Hc & -> & Hrest)]; [by exists []|].
    destruct (IH (String.length rest)) with (s := rest) as (cs & Hcs & ->); [|done|done|].
    { rewrite str_app_length. pose proof (encode_char_length c). lia. }
    exists (c :: cs). split; [by constructor|done].
  - intros (cs & Hcs & ->). induction Hcs as [|c cs Hc _ IH]; [done|]. cbn [encode_chars foldr]. by rewrite from_utf8_char.
Qed.

(** Bytes are taken for text exactly when they are the encoding of a sequence of Unicode
    scalar values: overlong forms, surrogates, truncated characters and values beyond the
    last code point are refused, and no text is. *)
Theorem from_utf8_exact s :
  from_utf8 s = true <-> exists cs, Forall is_scalar cs /\ s = encode_chars cs.
Proof. apply from_utf8_chars. Qed.

(** Texts in a row are text: characters are delimited. *)
Lemma from_utf8_app a b : from_utf8 a = true -> from_utf8 (a +:+ b) = from_utf8 b.
Proof.
  intros (cs & Hcs & ->)%from_utf8_chars. induction Hcs as [|c cs Hc _ IH]; [by rewrite str_nil_app|].
  cbn [encode_chars foldr]. by rewrite str_app_assoc, from_utf8_char.
Qed.

(** ** Characters *)

(** The number of characters of a text ([chars().count()]). *)
Fixpoint char_count (s : string) : nat :=
  match s with
  | EmptyString => 0
  | String c s => (if is_continuation c then 0 else 1) + char_count s
  end.

Lemma char_count_app a b : char_count (a +:+ b) = char_count a + char_count b.
Proof. induction a as [|c a IH]; rewrite ?str_nil_app, ?str_cons_app; cbn; [done|]. rewrite IH. lia. Qed.

Lemma char_count_length s : char_count s <= String.length s.
Proof. induction s as [|c s IH]; cbn; [done|]. case_match; lia. Qed.

(** Splitting before a character splits the count. *)
Lemma split_at_char_count n s :
  match split_at_char n s with
  | Some (p, q) => s = p +:+ q /\ char_count p = n
  | None => char_count s <= n
  end.
Proof.
  revert n. induction s as [|c s IH]; intros n; cbn [split_at_char char_count]; [lia|].
  destruct (is_continuation c) eqn:E.
  - specialize (IH n). destruct (split_at_char n s) as [[p q]|]; cbn; [|lia]. destruct IH as [-> Hc].
    rewrite str_cons_app. cbn. by rewrite E.
  - destruct n as [|n]; [done|]. specialize (IH n). destruct (split_at_char n s) as [[p q]|]; cbn; [|lia]. destruct IH as [-> Hc].
    rewrite str_cons_app. cbn. rewrite E, Hc. done.
Qed.

(** A byte that starts a character, or the end of the text. *)
Definition boundary (s : string) : Prop := match s with EmptyString => True | String c _ => is_continuation c = false end.

Lemma is_continuation_of_N b : (b < 256)%N -> is_continuation (ascii_of_N b) = bool_decide (128 <= b < 192)%N.
Proof.
  intros Hb. unfold is_continuation, nat_of_ascii. rewrite N_ascii_embedding by done. apply bool_decide_ext. lia.
Qed.

(** The first byte of a character starts it, the others continue it. *)
Lemma encode_char_bytes c :
  is_scalar c -> exists b rest, encode_char c = String b rest /\ is_continuation b = false /\ str_forall is_continuation rest = true.
Proof.
  unfold is_scalar, encode_char. intros Hc.
  repeat case_bool_decide; cbn [bytes_of foldr]; eexists _, _; (split; [done|]); cbn [str_forall];
    rewrite ?is_continuation_of_N by lia; decide_bytes; done.
Qed.

Lemma split_at_conts n t s :
  str_forall is_continuation t = true -> split_at_char n (t +:+ s) = prod_map (String.append t) id <$> split_at_char n s.
Proof.
  induction t as [|c t IH]; cbn [str_forall]; intros Ht.
  - rewrite str_nil_app. destruct (split_at_char n s) as [[p q]|]; cbn; [by rewrite str_nil_app|done].
  - apply andb_true_iff in Ht as [Hc Ht]. rewrite str_cons_app. cbn [split_at_char]. rewrite Hc, IH by done.
    destruct (split_at_char n s) as [[p q]|]; cbn; [by rewrite str_cons_app|done].
Qed.

(** Valid text is split before a character into valid texts. *)
Lemma split_at_char_chars n cs :
  Forall is_scalar cs ->
  split_at_char n (encode_chars cs) =
    if bool_decide (n < length cs) then Some (encode_chars (take n cs), encode_chars (drop n cs)) else None.
Proof.
  intros Hcs. revert n. induction Hcs as [|c cs Hc _ IH]; intros n; cbn [length]; [by rewrite bool_decide_eq_false_2 by lia|].
  cbn [encode_chars foldr]. destruct (encode_char_bytes c Hc) as (b & rest & He & Hb & Hrest). fold (encode_chars cs).
  rewrite He, str_cons_app. cbn [split_at_char]. rewrite Hb. destruct n as [|n].
  - rewrite bool_decide_eq_true_2 by lia. cbn [take drop]. cbn [encode_chars foldr]. fold (encode_chars cs). by rewrite He, str_cons_app.
  - rewrite split_at_conts, IH by done. cbn [take drop encode_chars foldr]. case_bool_decide; case_bool_decide; try lia; cbn; [|done].
    by rewrite He, !str_cons_app.
Qed.

Lemma str_app_split (a b c d : string) :
  a +:+ b = c +:+ d -> String.length c <= String.length a -> exists e, a = c +:+ e /\ d = e +:+ b.
Proof.
  revert a. induction c as [|x c IH]; intros a Heq Hlen; rewrite ?str_nil_app, ?str_cons_app in *; [by exists a; rewrite str_nil_app|].
  destruct a as [|y a]; cbn in Hlen; [lia|]. rewrite str_cons_app in Heq. injection Heq as -> Heq.
  destruct (IH a Heq) as (e & -> & ->); [lia|]. exists e. by rewrite str_cons_app.
Qed.

(** Valid text that is cut where a character starts is valid before the cut. *)
Lemma from_utf8_cut a b : from_utf8 (a +:+ b) = true -> boundary b -> from_utf8 a = true.
Proof.
  remember (String.length a) as n eqn:Hn. revert a Hn. induction n as [n IH] using lt_wf_ind. intros a -> Hv Hb.
  destruct a as [|x a]; [done|]. destruct (from_utf8_head _ Hv) as [He|(c & rest & Hc & He & Hrest)]; [by rewrite str_cons_app in He|].
  destruct (decide (String.length (encode_char c) <= String.length (String x a))) as [Hle|Hgt].
  - destruct (str_app_split _ _ _ _ He Hle) as (e & Ha & ->). rewrite Ha, from_utf8_char by done.
    eapply (IH (String.length e)); [|done|done|done]. rewrite Ha, str_app_length. pose proof (encode_char_length c). lia.
  - exfalso. symmetry in He. destruct (str_app_split _ _ _ _ He) as (e & Hc' & Hbe); [lia|].
    destruct (encode_char_bytes c Hc) as (b1 & t & Hbytes & _ & Hconts). rewrite Hbytes, str_cons_app in Hc'. injection Hc' as _ Ht.
    destruct e as [|y e].
    { rewrite Hbytes, Ht, str_app_nil_r in Hgt. cbn in Hgt. rewrite str_app_nil_r in Ht. cbn in Hgt. lia. }
    rewrite Ht in Hconts. rewrite Hbe, str_cons_app in Hb. cbn in Hb.
    assert (forall p q, str_forall is_continuation (p +:+ q) = true -> str_forall is_continuation q = true) as Hsuf.
    { clear. induction p as [|z p IH]; intros q; rewrite ?str_nil_app, ?str_cons_app; cbn; [done|]. intros [_ Hq]%andb_true_iff. by apply IH. }
    apply Hsuf in Hconts. cbn in Hconts. rewrite Hb in Hconts. done.
Qed.

(** ** Trimming *)

(** The code points of white space. *)
Definition ws_points : list N :=
  [9; 10; 11; 12; 13; 32; 133; 160; 5760; 8192; 8193; 8194; 8195; 8196; 8197; 8198; 8199; 8200; 8201; 8202; 8232; 8233; 8239; 8287; 12288]%N.

Lemma unicode_ws_chars : unicode_ws = encode_char <$> ws_points.
Proof. vm_compute. reflexivity. Qed.

Lemma ws_is_char w : w ∈ unicode_ws -> exists c, is_scalar c /\ w = encode_char c.
Proof.
  rewrite unicode_ws_chars. intros (c & -> & Hc)%list_elem_of_fmap. exists c. split; [|done].
  assert (Forall is_scalar ws_points) as Hall by (repeat constructor; unfold is_scalar; lia).
  rewrite Forall_forall in Hall. by apply Hall.
Qed.

Lemma strip_ws_Some ws s r : strip_ws ws s = Some r -> exists w, w ∈ ws /\ s = w +:+ r.
Proof.
  unfold strip_ws. intros Hh%head_Some_elem_of. apply list_elem_of_omap in Hh as (w & Hw & Hs%strip_prefix_Some). eauto.
Qed.

Lemma trim_start_utf8 s : from_utf8 s = true -> from_utf8 (trim_start s) = true.
Proof.
  unfold trim_start. generalize (String.length s). intros n. revert s. induction n as [|n IH]; intros s Hs; [done|]. cbn [trim_start_fuel].
  destruct (strip_ws unicode_ws s) as [r|] eqn:E; [|done]. apply strip_ws_Some in E as (w & Hw & ->).
  destruct (ws_is_char w Hw) as (c & Hc & ->). rewrite from_utf8_char in Hs by done. by apply IH.
Qed.

Lemma trim_end_utf8 s : from_utf8 s = true -> from_utf8 (trim_end s) = true.
Proof.
  unfold trim_end. generalize (String.length s). intros n. rewrite <- (str_rev_rev s) at 1. generalize (String.rev s). clear s.
  induction n as [|n IH]; intros s Hs; [done|]. cbn [trim_start_fuel]. destruct (strip_ws (String.rev <$> unicode_ws) s) as [r|] eqn:E; [|done].
  apply strip_ws_Some in E as (w' & (w & -> & Hw)%list_elem_of_fmap & ->). apply IH.
  rewrite str_rev_app, str_rev_rev in Hs. eapply from_utf8_cut; [exact Hs|].
  destruct (ws_is_char w Hw) as (c & Hc & ->). destruct (encode_char_bytes c Hc) as (b & rest & -> & Hb & _). exact Hb.
Qed.

Lemma trim_utf8 s : from_utf8 s = true -> from_utf8 (trim s) = true.
Proof. intros Hs. by apply trim_end_utf8, trim_start_utf8. Qed.

(** ** The check of the file parser *)

Lemma in_range_byte lo hi lo' hi' c : N.of_nat lo = lo' -> N.of_nat hi = hi' -> in_range lo hi c = byte_in lo' hi' c.
Proof.
  intros <- <-. unfold byte_in, in_range, nat_of_ascii. rewrite <- bool_decide_and. apply bool_decide_ext. lia.
Qed.
Lemma second_of_three_cases b1 b2 :
  second_of_three b1 b2 =
    (if in_range 224 224 b1 then in_range 160 191 b2 else if in_range 237 237 b1 then in_range 128 159 b2 else cont b2).
Proof.
  unfold second_of_three, cont. rewrite (in_range_byte 224 224 224 224), (in_range_byte 160 191 160 191),
    (in_range_byte 237 237 237 237), (in_range_byte 128 159 128 159) by done. unfold byte_in.
  repeat case_bool_decide; try reflexivity; exfalso; lia.
Qed.
Lemma second_of_four_cases b1 b2 :
  second_of_four b1 b2 =
    (if in_range 240 240 b1 then in_range 144 191 b2 else if in_range 244 244 b1 then in_range 128 143 b2 else cont b2).
Proof.
  unfold second_of_four, cont. rewrite (in_range_byte 240 240 240 240), (in_range_byte 144 191 144 191),
    (in_range_byte 244 244 244 244), (in_range_byte 128 143 128 143) by done. unfold byte_in.
  repeat case_bool_decide; try reflexivity; exfalso; lia.
Qed.

(** The members of ID lists are checked over lists of bytes, to the same effect. *)
Lemma utf8_valid_from_utf8 s : utf8_valid (String.list_ascii_of_string s) = from_utf8 s.
Proof.
  induction s as [s IH] using (induction_ltof1 _ String.length). unfold ltof in IH.
  assert (forall c, Parser.cont c = cont c) as Hcont by (intros c; by apply in_range_byte).
  destruct s as [|b1 s1]; [done|]. cbn [String.list_ascii_of_string utf8_valid from_utf8].
  rewrite (in_range_byte 0 127 0 127), (in_range_byte 194 223 194 223), (in_range_byte 224 239 224 239), (in_range_byte 240 244 240 244) by done.
  rewrite IH by (cbn; lia). destruct (byte_in 0 127 b1); [done|].
  destruct s1 as [|b2 s2]; cbn [String.list_ascii_of_string]; [by repeat case_match|].
  rewrite Hcont, IH by (cbn; lia). destruct (byte_in 194 223 b1); [done|].
  destruct s2 as [|b3 s3]; cbn [String.list_ascii_of_string]; [by repeat case_match|].
  rewrite <- second_of_three_cases, !Hcont, IH by (cbn; lia). destruct (byte_in 224 239 b1); [done|].
  destruct s3 as [|b4 s4]; cbn [String.list_ascii_of_string]; [by case_match|].
  rewrite <- second_of_four_cases, !Hcont, IH by (cbn; lia). by destruct (byte_in 240 244 b1).
Qed.
Lemma parser_utf8_agrees s : Parser.from_utf8 (String.list_ascii_of_string s) = if from_utf8 s then Some s else None.
Proof. unfold Parser.from_utf8. by rewrite String.string_of_list_ascii_of_string, utf8_valid_from_utf8. Qed.
