(* ===== verification/Body.v ===== *)
(** * Body: the JSON bodies clients post

    Models [src/src/datatypes/gzip_data.rs]: reading a body within its limit, inflating it
    within the same limit, and the status a refused body is answered with. *)
From S2P Require Import Prelude Encoding Request Utf8.

(** ** Errors *)

Inductive io_kind := UnexpectedEof | InvalidData | OtherIo.
#[export] Instance io_kind_eq : EqDecision io_kind.
Proof. solve_decision. Defined.
(** [serde_json::error::Category] *)
Inductive json_category := JsonIo | JsonSyntax | JsonData | JsonEof.
#[export] Instance json_category_eq : EqDecision json_category.
Proof. solve_decision. Defined.
(** [rocket::serde::json::Error] *)
Inductive body_error := BodyIo (kind : io_kind) | BodyParse (text : string) (category : json_category).

(** The gzip decoder: a reader that is made of the bytes it inflates. *)
Class GzipDecoder := {
  gz_state : Type;
  gz_new : string -> option gz_state;
  gz_read : gz_state -> result io_kind (string * gz_state);
}.

(** ** Reading a body *)

Record LoggedBodyJSON (A : Type) := { body : A; size : N }.
Arguments body {A}.
Arguments size {A}.
Definition into_inner {A} (self : LoggedBodyJSON A) : A := body self.

Definition str_len (s : string) : N := N.of_nat (String.length s).

(** The limit of the framework for JSON, used when there is none for strings. *)
Definition LIMITS_JSON : N := 1048576.
Definition body_limit (limits : string -> option N) : N := default LIMITS_JSON (limits "string").

Section Body.
Context `{GzipDecoder}.

(** The loop over the decoder; [None] when [fuel] reads were not enough. *)
Fixpoint inflate (fuel : nat) (limit : N) (decoder : gz_state) (buf : string) : option (result body_error string) :=
  match fuel with
  | O => None
  | S fuel =>
      match gz_read decoder with
      | Err kind => Some (Err (BodyIo kind))
      | Ok (chunk, decoder) =>
          if str_empty chunk then Some (Ok buf)
          else if bool_decide (limit < str_len buf + str_len chunk)%N then Some (Err (BodyIo UnexpectedEof))
          else inflate fuel limit decoder (buf +:+ chunk)
      end
  end.

(** Reads that are enough whatever the decoder does: each adds a byte. *)
Definition inflate_fuel (limit : N) : nat := S (S (N.to_nat limit)).

(** What is parsed: the raw bytes, inflated if the request says so. [stream] is what the
    client sends; the framework reads no more than the limit of it. *)
Definition body_bytes (limit : N) (content_encoding : option string) (stream : result io_kind string)
    : option (result body_error string) :=
  match stream with
  | Err kind => Some (Err (BodyIo kind))
  | Ok raw_bytes =>
      if bool_decide (limit < str_len raw_bytes)%N then Some (Err (BodyIo UnexpectedEof))
      else if bool_decide (content_encoding = Some "gzip") then
        match gz_new raw_bytes with
        | None => Some (Err (BodyIo InvalidData))
        | Some decoder => inflate (inflate_fuel limit) limit decoder EmptyString
        end
      else Some (Ok raw_bytes)
  end.

Definition body_from_data {A} (parse : string -> result json_category A) (limits : string -> option N) (req : request)
    (stream : result io_kind string) : option (result body_error (LoggedBodyJSON A)) :=
  bytes ← body_bytes (body_limit limits) (get_one "Content-Encoding" (headers req)) stream;
  Some (
    s ← bytes;
    if negb (from_utf8 s) then Err (BodyIo InvalidData)
    else
      match parse s with
      | Ok json => Ok {| body := json; size := str_len s |}
      | Err category => Err (BodyParse s category)
      end).

(** [FromData]: the outcome the framework acts on. *)
Definition body_outcome {A} (r : result body_error (LoggedBodyJSON A)) : Outcome (LoggedBodyJSON A) body_error :=
  match r with
  | Ok value => Success value
  | Err (BodyIo kind) => Error (if bool_decide (kind = UnexpectedEof) then 413 else 400)%N (BodyIo kind)
  | Err (BodyParse s e) => Error (if bool_decide (e = JsonData) then 422 else 400)%N (BodyParse s e)
  end.

(** ** What the decoder delivers *)

(** The decoder ends after these bytes. *)
Inductive delivers : gz_state -> string -> Prop :=
| delivers_end decoder rest : gz_read decoder = Ok (EmptyString, rest) -> delivers decoder EmptyString
| delivers_chunk decoder chunk rest d :
    gz_read decoder = Ok (chunk, rest) -> chunk <> EmptyString -> delivers rest d -> delivers decoder (chunk +:+ d).

Lemma str_len_app a b : str_len (a +:+ b) = (str_len a + str_len b)%N.
Proof. unfold str_len. rewrite str_app_length. lia. Qed.

Lemma str_len_pos s : s <> EmptyString -> (0 < str_len s)%N.
Proof. destruct s; [done|]. unfold str_len. cbn. lia. Qed.

(** The loop ends, and keeps the buffer within the limit. *)
Lemma inflate_ends fuel limit decoder buf :
  (str_len buf <= limit)%N -> (limit < str_len buf + N.of_nat fuel)%N ->
  exists r, inflate fuel limit decoder buf = Some r /\ (forall s, r = Ok s -> (str_len s <= limit)%N).
Proof.
  revert decoder buf. induction fuel as [|fuel IH]; intros decoder buf Hb Hf; [lia|]. cbn [inflate].
  destruct (gz_read decoder) as [[chunk rest]|kind]; [|eexists; split; [done|by intros ? [=]]].
  unfold str_empty. case_bool_decide as He; [eexists; split; [done|by intros ? [= <-]]|].
  case_bool_decide; [eexists; split; [done|by intros ? [=]]|]. apply str_len_pos in He. apply IH; rewrite str_len_app; lia.
Qed.

Lemma inflate_delivers fuel limit decoder buf d :
  delivers decoder d -> (str_len buf <= limit)%N -> (limit < str_len buf + N.of_nat fuel)%N ->
  inflate fuel limit decoder buf =
    Some (if bool_decide (limit < str_len buf + str_len d)%N then Err (BodyIo UnexpectedEof) else Ok (buf +:+ d)).
Proof.
  intros Hd. revert fuel buf. induction Hd as [decoder rest Hr|decoder chunk rest d Hr Hne _ IH]; intros fuel buf Hb Hf;
    (destruct fuel as [|fuel]; [lia|]); cbn [inflate]; rewrite Hr; unfold str_empty.
  - rewrite bool_decide_eq_true_2 by done. rewrite bool_decide_eq_false_2 by (change (str_len "") with 0%N; lia). by rewrite str_app_nil_r.
  - rewrite bool_decide_eq_false_2 by done. apply str_len_pos in Hne. case_bool_decide as Hlim.
    + rewrite bool_decide_eq_true_2; [done|]. rewrite str_len_app. lia.
    + rewrite IH by (rewrite str_len_app; lia). rewrite !str_len_app, str_app_assoc, N.add_assoc. done.
Qed.

Lemma body_bytes_ends limit enc stream :
  exists r, body_bytes limit enc stream = Some r /\ (forall s, r = Ok s -> (str_len s <= limit)%N).
Proof.
  unfold body_bytes. destruct stream as [raw|kind]; [|eexists; split; [done|by intros ? [=]]].
  case_bool_decide; [eexists; split; [done|by intros ? [=]]|]. case_bool_decide.
  - destruct (gz_new raw) as [decoder|]; [|eexists; split; [done|by intros ? [=]]].
    apply inflate_ends; unfold inflate_fuel, str_len; cbn [String.length]; lia.
  - eexists. split; [done|]. intros ? [= <-]. lia.
Qed.

(** ** Properties *)

(** C21: A posted body is read within its limit, whatever the client sends and whatever the
    decoder makes of it: reading ends after at most two reads more than the limit has
    bytes, and what is parsed is text of at most that many bytes. *)
Theorem body_within_limit {A} (parse : string -> result json_category A) limits req stream :
  exists r, body_from_data parse limits req stream = Some r /\
  forall value, r = Ok value ->
    exists s, from_utf8 s = true /\ parse s = Ok (body value) /\ size value = str_len s /\ (str_len s <= body_limit limits)%N.
Proof.
  unfold body_from_data. destruct (body_bytes_ends (body_limit limits) (get_one "Content-Encoding" (headers req)) stream) as (r & -> & Hlen).
  cbn [mbind option_bind]. eexists. split; [done|]. intros value. destruct r as [s|]; [|by intros [=]]. cbn.
  destruct (from_utf8 s) eqn:E; [|by intros [=]]. cbn. destruct (parse s) eqn:Ep; [|by intros [=]]. intros [= <-].
  exists s. split_and!; try done. by apply Hlen.
Qed.

(** A body that is inflated is the one the client deflated, if it fits: it is parsed
    when its bytes, before and after inflation, are within the limit and text, is
    answered with 413 when they are too many, and with 422 when it is JSON of another
    shape. *)
Theorem gzip_body_exact {A} (parse : string -> result json_category A) limits req raw decoder d :
  get_one "Content-Encoding" (headers req) = Some "gzip" -> gz_new raw = Some decoder -> delivers decoder d ->
  body_outcome <$> body_from_data parse limits req (Ok raw) =
    Some (
      if bool_decide (body_limit limits < str_len raw)%N || bool_decide (body_limit limits < str_len d)%N
      then Error 413%N (BodyIo UnexpectedEof)
      else if negb (from_utf8 d) then Error 400%N (BodyIo InvalidData)
      else
        match parse d with
        | Ok json => Success {| body := json; size := str_len d |}
        | Err JsonData => Error 422%N (BodyParse d JsonData)
        | Err category => Error 400%N (BodyParse d category)
        end).
Proof.
  intros Henc Hnew Hd. unfold body_from_data, body_bytes. rewrite Henc. set (limit := body_limit limits).
  destruct (bool_decide (limit < str_len raw)%N); [done|]. rewrite bool_decide_eq_true_2 by done. rewrite Hnew.
  rewrite (inflate_delivers _ _ _ _ d) by (done || unfold inflate_fuel, str_len; cbn [String.length]; lia).
  rewrite str_nil_app. change (str_len "") with 0%N. rewrite N.add_0_l. cbn [orb mbind option_bind].
  destruct (bool_decide (limit < str_len d)%N); [done|]. cbn. destruct (from_utf8 d); cbn; [|done].
  destruct (parse d) as [|[]]; done.
Qed.
End Body.

(** ** Witnesses *)

(** A decoder that hands out what it was made of, in two halves. *)
Module BodyExample.
#[export] Instance halves : GzipDecoder := {|
  gz_state := list string;
  gz_new raw := Some [String.substring 0 2 raw; String.substring 2 (String.length raw - 2) raw];
  gz_read chunks := match chunks with [] => Ok ("", []) | c :: rest => Ok (c, rest) end;
|}.
Definition req : request := {|
  req_method := Post; uri_path := "/v1/log_event"; uri_query := None; headers := [("content-encoding", "gzip")] |}.
Definition parse (s : string) : result json_category string := if bool_decide (s = "null") then Err JsonData else Ok s.
End BodyExample.
#[local] Existing Instance BodyExample.halves.

Lemma gzip_body_exact_witness :
  body_outcome <$> body_from_data BodyExample.parse (fun _ => Some 4%N) BodyExample.req (Ok "1234")
    = Some (Success {| body := "1234"; size := 4 |}) /\
  body_outcome <$> body_from_data BodyExample.parse (fun _ => Some 4%N) BodyExample.req (Ok "null")
    = Some (Error 422%N (BodyParse "null" JsonData)).
Proof.
  assert (forall a b, a <> "" -> b <> "" -> delivers (H := BodyExample.halves) [a; b] (a +:+ b +:+ "")) as Hd.
  { intros a b Ha Hb. eapply delivers_chunk; [reflexivity|done|]. eapply delivers_chunk; [reflexivity|done|]. by eapply delivers_end. }
  split.
  - by rewrite (gzip_body_exact (H := BodyExample.halves) BodyExample.parse (fun _ => Some 4%N) BodyExample.req "1234" ["12"; "34"] "1234") by (done || by apply Hd).
  - by rewrite (gzip_body_exact (H := BodyExample.halves) BodyExample.parse (fun _ => Some 4%N) BodyExample.req "null" ["nu"; "ll"] "null") by (done || by apply Hd).
Defined.
