(* ===== verification/Diagnostics.v ===== *)
(** * Diagnostics: what the proxy says of its fetches

    Models the reporting half of
    [src/src/datastore/data_providers/http_data_provider.rs]: the event of each result and
    the line printed for a failed one, with its redacted message and body preview. The
    results themselves are in [Outbound.v]. *)
From S2P Require Import Prelude Parser Encoding Request Namespaces Backoff Stores SpecDeltas Outbound Fetch LogEvents Responses Events Utf8.

(** ** The events of a fetch *)

(** [as_millis() as i64]: the low 64 bits. *)
Definition ms_as_i64 (ms : N) : Z := as_i64 (N.land ms u64_max).
Definition distribution (ms : N) : EventStat := {| stat_operation := Distribution; stat_value := ms_as_i64 ms |}.

Definition error_event (context : AuthorizedRequestContext) (lcut ms : N) (status_code : option N)
    (response_encoding : option string) : ProxyEvent :=
  let event := with_stat (distribution ms) (with_lcut lcut (event_new_with_rc HttpDataProviderError context)) in
  let event := match status_code with Some code => with_status_code code event | None => event end in
  match response_encoding with Some enc => with_response_encoding enc event | None => event end.

Definition no_data_event (context : AuthorizedRequestContext) (lcut ms status_code : N) : ProxyEvent :=
  with_stat (distribution ms) (with_status_code status_code (with_lcut lcut (event_new_with_rc HttpDataProviderNoData context))).

(** A response that should carry its time and does not. *)
Definition bad_lcut_event (context : AuthorizedRequestContext) (hs : list (string * string)) (lcut ms : N) : list ProxyEvent :=
  if use_lcut context && bool_decide (header_u64 "x-since-time" hs = None) && bool_decide (header_u64 "x-ms-meta-lcut" hs = None)
  then [with_stat (distribution ms) (with_lcut lcut (event_new_with_rc HttpDataProviderNoDataDueToBadLcut context))]
  else [].

Definition publish_download_id_list_file_size_metric (context : AuthorizedRequestContext) (fetched_blob_len : N) : list ProxyEvent :=
  if bool_decide (path context <> V1DownloadIdListFile) then []
  else [with_stat {| stat_operation := Gauge; stat_value := Z.of_N (N.min fetched_blob_len i64_max) |}
          (event_new_with_rc DownloadIdListFileSizeBytes context)].

Definition success_events (context : AuthorizedRequestContext) (encoding_str : option string) (data : string)
    (since_time ms status_code : N) : list ProxyEvent :=
  let encoding := default PlainText (encoding_str ≫= encoder_from_str) in
  with_stat (distribution ms) (with_status_code status_code (with_response_encoding (encoder_str encoding)
    (with_lcut since_time (event_new_with_rc HttpDataProviderGotData context))))
  :: publish_download_id_list_file_size_metric context (N.of_nat (String.length data)).

(** What is published for a response; [ms_lcut] and [ms] are readings of the clock. *)
Definition response_events `{BodyHash} (context : AuthorizedRequestContext) (lcut ms_lcut ms : N) (response : http_response)
    (b : request_builder) : list ProxyEvent :=
  let status := rs_status response in
  let hs := rs_headers response in
  if bool_decide (status = 204%N) then [no_data_event context lcut ms status]
  else
    match rs_body response with
    | None => [error_event context lcut ms (Some status) None]
    | Some bytes =>
        if negb (is_success status) then
          [error_event context lcut ms (Some status) (get_one "content-encoding" hs ≫= header_str)]
        else if negb (is_an_update b bytes hs context).1 then [no_data_event context lcut ms status]
        else
          bad_lcut_event context hs lcut ms_lcut
          ++ success_events context (get_one "content-encoding" hs ≫= header_str) bytes (parse_since_time hs lcut context) ms status
    end.

(** What is published for what a builder came back with: a download it skipped has the
    status the builder names. *)
Definition outcome_events `{BodyHash} (context : AuthorizedRequestContext) (lcut ms_lcut ms : N) (outcome : RequestBuilderOutcome)
    (b : request_builder) : list ProxyEvent :=
  match outcome with
  | Response response => response_events context lcut ms_lcut ms response b
  | BuilderNoData status_code => [no_data_event context lcut ms status_code]
  end.

(** What the provider publishes in one fetch: the run of [provider_get], event by event. *)
Definition provider_get_events `{Transport} `{BodyHash} (b : request_builder) (context : AuthorizedRequestContext)
    (lcut ms_lcut ms : N) : http (list ProxyEvent) :=
  (do first <- make_request b context lcut;
   let '(first, b) := first in
   match first with
   | None => http_ret []
   | Some (Ok outcome) => http_ret (outcome_events context lcut ms_lcut ms outcome b)
   | Some (Err ConnectError) =>
       do second <- make_request b context lcut;
       let '(second, b) := second in
       match second with
       | None => http_ret []
       | Some (Ok outcome) => http_ret (outcome_events context lcut ms_lcut ms outcome b)
       | Some (Err _) => http_ret [error_event context lcut ms None None]
       end
   | Some (Err _) => http_ret [error_event context lcut ms None None]
   end)%http.

(** ** The line printed for a failure *)

(** An error and its sources. *)
Definition make_useful_error_message (err : string) (sources : list string) : string :=
  foldl (fun s src => s +:+ "\nCaused by: " +:+ src) err sources.

(** The pattern [secret-[a-zA-Z0-9]+] and [replace_all] with a template of the regex
    library, in which a dollar sign stands for a group of the match. *)
Class RegexTemplate := { expand : string -> string -> string }.
Class RegexTemplateLaws `{RegexTemplate} := { expand_plain : forall t m, no_char "$" t = true -> expand t m = t }.

Fixpoint replace_secrets `{RegexTemplate} (fuel : nat) (template s : string) : string :=
  match fuel, s with
  | S fuel, String c s' =>
      match match_kind s "secret-" with
      | Some (key, rest) => expand template key +:+ replace_secrets fuel template rest
      | None => String c (replace_secrets fuel template s')
      end
  | _, _ => s
  end.
Definition redact_error `{RegexTemplate} (template err_msg : string) : string :=
  replace_secrets (String.length err_msg) template err_msg.

(** The key of the request, cut, takes the place of every secret. *)
Definition error_line `{RegexTemplate} (read shown : gmap string string) (event : ProxyEvent) (err_msg : string) : string :=
  "Failed to get data from http provider. " +:+ redact_error (default "REDACTED" (get_sdk_key read shown event).1) err_msg.

(** *** The preview of a body *)

Definition MAX_PREVIEW_LEN : nat := 256.
Definition MAX_HEX_BYTES : nat := 32.

Definition decompress_error_body `{PayloadLib} (data : string) (response_encoding : option string) : option string :=
  match (fun e => to_lower (trim e)) <$> response_encoding with
  | None => Some data
  | Some e =>
      if bool_decide (e = "gzip") then gunzip data
      else if bool_decide (e = "br" \/ e = "statsig-br") then brotli_decompress data
      else if str_empty e then Some data
      else None
  end.

(** [chars().take(n)], and whether there are more. *)
Definition take_chars (n : nat) (s : string) : string :=
  match split_at_char n s with Some (prefix, _) => prefix | None => s end.
Definition more_chars (n : nat) (s : string) : bool := bool_decide (is_Some (split_at_char n s)).

Fixpoint bytes_list (s : string) : list ascii :=
  match s with EmptyString => [] | String c s => c :: bytes_list s end.

Definition format_error_body_preview `{PayloadLib} (data : string) (response_encoding : option string) : string :=
  match decompress_error_body data response_encoding with
  | None => "<unable_to_decode encoding=" +:+ default "unknown" response_encoding +:+ ">"
  | Some decoded =>
      if from_utf8 decoded then
        let trimmed := trim decoded in
        if str_empty trimmed then "<empty>"
        else take_chars MAX_PREVIEW_LEN trimmed +:+ (if more_chars MAX_PREVIEW_LEN trimmed then "...<truncated>" else "")
      else
        "<non_utf8 hex=" +:+ join " " (Parser.hex_byte <$> take MAX_HEX_BYTES (bytes_list decoded))
          +:+ (if bool_decide (MAX_HEX_BYTES < String.length decoded) then " ...<truncated>" else "") +:+ ">"
  end.

(** The message of a response that is not a success. *)
Definition status_message `{PayloadLib} (response : http_response) (bytes : string) : string :=
  let response_encoding := get_one "content-encoding" (rs_headers response) ≫= header_str in
  let content_type := get_one "content-type" (rs_headers response) ≫= header_str in
  "status=" +:+ show_u64 (rs_status response) +:+ " content_type=" +:+ default "unknown" content_type
  +:+ " response_encoding=" +:+ default "none" response_encoding
  +:+ " body_len=" +:+ show_u64 (N.of_nat (String.length bytes))
  +:+ " body_preview=" +:+ format_error_body_preview bytes response_encoding.

(** ** Properties *)

(** The type of the event that tells a result. *)
Definition result_event (r : DataProviderRequestResult) : ProxyEventType :=
  match r with
  | DataAvailable => HttpDataProviderGotData
  | NoDataAvailable => HttpDataProviderNoData
  | _ => HttpDataProviderError
  end.
(** The events that tell results. *)
Definition outcome_types : list ProxyEventType := [HttpDataProviderGotData; HttpDataProviderNoData; HttpDataProviderError].

(** The one event of [evs] that tells a result tells [r], with this status. *)
Definition tells (context : AuthorizedRequestContext) (lcut : N) (status : option N) (r : DataProviderResult)
    (evs : list ProxyEvent) : Prop :=
  exists e, filter (fun e => event_type e ∈ outcome_types) evs = [e] /\
    event_type e = result_event (dp_result r) /\ request_context e = Some context /\ status_code e = status /\
    ev_lcut e = Some (if bool_decide (dp_result r = DataAvailable) then dp_lcut r else lcut).

Lemma handle_error_tells status :
  dp_result (handle_error status) <> DataAvailable /\ result_event (dp_result (handle_error status)) = HttpDataProviderError.
Proof. unfold handle_error. cbn. repeat case_match; done. Qed.

Lemma error_event_tells context lcut ms status enc : tells context lcut status (handle_error status) [error_event context lcut ms status enc].
Proof.
  destruct (handle_error_tells status) as [Hne Hty]. unfold tells. rewrite Hty, (bool_decide_eq_false_2 _ Hne).
  destruct status, enc; (eexists; split; [reflexivity|done]).
Qed.

Lemma no_data_event_tells context lcut ms status : tells context lcut (Some status) handle_no_data [no_data_event context lcut ms status].
Proof. eexists. split; [reflexivity|done]. Qed.

Lemma response_events_tell `{BodyHash} context lcut ms_lcut ms response b :
  tells context lcut (Some (rs_status response)) (on_response context lcut response b).1 (response_events context lcut ms_lcut ms response b).
Proof.
  unfold on_response, response_events. case_bool_decide as H204; [rewrite H204; apply no_data_event_tells|].
  destruct (rs_body response) as [bytes|]; cbn zeta; [|apply error_event_tells].
  destruct (is_success (rs_status response)); cbn [negb]; [|apply error_event_tells].
  destruct (is_an_update b bytes (rs_headers response) context) as [[] b']; cbn [fst negb]; [|apply no_data_event_tells].
  unfold tells, bad_lcut_event, success_events, publish_download_id_list_file_size_metric.
  destruct (_ && _); case_bool_decide; (eexists; split; [reflexivity|done]).
Qed.

Section Reported.
Context `{Transport} `{BodyHash}.

(** The last request was a metadata probe, answered that the blob is not newer. *)
Definition probed_not_newer (lcut : N) (sent : list http_request) : Prop :=
  exists pre req r blob_lcut, sent = pre ++ [req] /\ rq_method req = Head /\ respond pre req = Ok r /\
    is_success (rs_status r) = true /\ parse_blob_metadata_lcut (rs_headers r) = Some blob_lcut /\ (blob_lcut <= lcut)%N.

(** What the status of a report says of the requests of its fetch. *)
Definition status_of (lcut : N) (sent : list http_request) (r : DataProviderResult) (status : option N) : Prop :=
  match status with
  | None => exists err, last_answer sent (Err err)
  | Some s =>
      (exists response, last_answer sent (Ok response) /\ s = rs_status response) \/
      s = 204%N /\ dp_result r = NoDataAvailable /\ probed_not_newer lcut sent
  end.

Lemma skip_download_probed self context lcut sent sent' :
  should_skip_download_using_metadata self context lcut sent = (true, sent') -> probed_not_newer lcut sent'.
Proof.
  unfold should_skip_download_using_metadata. case_match; [done|].
  destruct (build_blob_metadata_request self context) as [req|] eqn:Eq; [|done]. unfold http_bind, send, http_ret. intros [= Hs <-].
  destruct (respond sent req) as [r|] eqn:Er; [|done]. destruct (is_success (rs_status r)) eqn:Es; [|done]. cbn [negb] in Hs.
  destruct (parse_blob_metadata_lcut (rs_headers r)) as [blob_lcut|] eqn:El; [|done].
  exists sent, req, r, blob_lcut. repeat (split; [done|]). split.
  { unfold build_blob_metadata_request in Eq. by apply fmap_Some in Eq as (? & _ & ->). }
  repeat (split; [done|]). unfold should_skip_blob_download in Hs. apply andb_true_iff in Hs as [_ ?%bool_decide_eq_true]. done.
Qed.

Lemma no_data_outcome b context lcut sent s b' sent' :
  make_request b context lcut sent = (Some (Ok (BuilderNoData s)), b', sent') -> s = 204%N /\ probed_not_newer lcut sent'.
Proof.
  destruct b as [d|i|f|]; cbn [make_request]; unfold http_bind, http_ret.
  - destruct (dcs_make_request d context lcut sent) as [r s1] eqn:E. intros [= -> <- <-]. revert E.
    unfold dcs_make_request. unfold http_bind at 1.
    match goal with |- context [let '(_, _) := ?m sent in _] => destruct (m sent) as [skip s2] eqn:Es end. destruct skip.
    { intros [= <- <-]. split; [done|]. destruct (use_lcut context && bool_decide (0 < lcut)%N); [by eapply skip_download_probed|by unfold http_ret in Es]. }
    assert (forall x : result reqwest_error http_response, Response <$> x <> Ok (BuilderNoData s)) as Hresp by (intros []; discriminate).
    destruct (build_blob_body_request d context) as [req|]; unfold http_bind, http_ret, send.
    + destruct (respond s2 req) as [r|]; [|done]. destruct (should_fallback_to_cdn (rs_status r)); [|by intros [=]]. by intros [= ?%Hresp _].
    + by intros [= ?%Hresp _].
  - unfold idlist_make_request, http_bind, http_ret, send. destruct (respond _ _); done.
  - unfold send. intros [= Hr _ _]. by destruct (respond _ _).
  - done.
Qed.

Lemma outcome_events_tell b context lcut ms_lcut ms sent o b' sent' :
  make_request b context lcut sent = (Some (Ok o), b', sent') ->
  let r := (on_outcome context lcut o b').1 in
  exists status, tells context lcut status r (outcome_events context lcut ms_lcut ms o b') /\ status_of lcut sent' r status.
Proof.
  intros Hm r. destruct (make_request_spec _ _ _ _ _ _ _ Hm) as [_ Ho]. subst r. destruct o as [response|s]; cbn [on_outcome outcome_events].
  - exists (Some (rs_status response)). split; [apply response_events_tell|]. left. by exists response.
  - destruct (no_data_outcome _ _ _ _ _ _ _ Hm) as [-> Hp]. exists (Some 204%N). split; [apply no_data_event_tells|]. by right.
Qed.

(** C31: Every fetch is reported once and as what it came to: of the events the provider
    publishes in it exactly one tells a result, and it is the event of the result the
    stores are given, with the context of the request and, for a config, the time it was
    given out with. Its status is that of the last answer of the origin; a fetch that the
    blob's metadata made unnecessary is reported as 204, and one whose last request got no
    answer without a status. Answers before the last one (of a probe, or of a blob that
    was not found) are not reported as results. *)
Theorem fetch_reported b context lcut ms_lcut ms sent :
  b <> BNoop ->
  exists r b' sent' status,
    provider_get b context lcut sent = (Some r, b', sent') /\
    (provider_get_events b context lcut ms_lcut ms sent).2 = sent' /\
    tells context lcut status r (provider_get_events b context lcut ms_lcut ms sent).1 /\ status_of lcut sent' r status.
Proof.
  intros Hb. destruct (make_request_some b context lcut sent Hb) as (o1 & b1 & s1 & E1 & Hb1).
  unfold provider_get, provider_get_events, http_bind. rewrite E1. destruct o1 as [o|[|]].
  - destruct (outcome_events_tell _ _ _ ms_lcut ms _ _ _ _ E1) as (status & ? & ?). by do 3 eexists; exists status.
  - destruct (make_request_some b1 context lcut s1 Hb1) as (o2 & b2 & s2 & E2 & _). rewrite E2. destruct o2 as [o|e].
    + destruct (outcome_events_tell _ _ _ ms_lcut ms _ _ _ _ E2) as (status & ? & ?). by do 3 eexists; exists status.
    + destruct (make_request_spec _ _ _ _ _ _ _ E2) as [_ Ho]. do 3 eexists. exists None. do 2 (split; [reflexivity|]). split; [apply error_event_tells|by exists e].
  - destruct (make_request_spec _ _ _ _ _ _ _ E1) as [_ Ho]. do 3 eexists. exists None. do 2 (split; [reflexivity|]). split; [apply error_event_tells|by exists OtherRequestError].
Qed.
End Reported.

(** A fetch whose first connection fails, and is answered when tried again. *)
Lemma fetch_reported_witness :
  exists r b' sent' status,
    provider_get (H := OutboundExample.origin) (H0 := OutboundExample.hash) OutboundExample.builder OutboundExample.context 3 [] = (Some r, b', sent') /\
    (provider_get_events (H := OutboundExample.origin) (H0 := OutboundExample.hash)
       OutboundExample.builder OutboundExample.context 3 0 12 []).2 = sent' /\
    tells OutboundExample.context 3 status r
      (provider_get_events (H := OutboundExample.origin) (H0 := OutboundExample.hash)
         OutboundExample.builder OutboundExample.context 3 0 12 []).1 /\
    status_of (H := OutboundExample.origin) 3 sent' r status.
Proof.
  apply (fetch_reported (H := OutboundExample.origin) (H0 := OutboundExample.hash)
    OutboundExample.builder OutboundExample.context 3 0 12 []). discriminate.
Defined.

Lemma join_hex_length l : String.length (join " " (Parser.hex_byte <$> l)) <= 3 * length l.
Proof.
  induction l as [|c [|c' l] IH]; [cbn; lia..|]. change (join " " (Parser.hex_byte <$> c :: c' :: l)) with
    (Parser.hex_byte c +:+ " " +:+ join " " (Parser.hex_byte <$> c' :: l)). rewrite !str_app_length. cbn [length] in *. cbn [String.length Parser.hex_byte]. lia.
Qed.

Lemma hex_byte_utf8 c : from_utf8 (Parser.hex_byte c) = true.
Proof. by destruct c as [[] [] [] [] [] [] [] []]; vm_compute. Qed.

Lemma join_hex_utf8 l : from_utf8 (join " " (Parser.hex_byte <$> l)) = true.
Proof.
  induction l as [|c [|c' l] IH]; [done|apply hex_byte_utf8|]. change (join " " (Parser.hex_byte <$> c :: c' :: l)) with
    (Parser.hex_byte c +:+ " " +:+ join " " (Parser.hex_byte <$> c' :: l)). by rewrite !from_utf8_app by (done || apply hex_byte_utf8).
Qed.

(** A body preview is short and readable: whatever the origin answers, at most 256
    characters of it and a mark are shown (or 32 bytes in hexadecimal, or the name of the
    unknown encoding), and a body that is text is cut between characters, so that the
    preview is text too. *)
Theorem preview_bounded `{PayloadLib} data response_encoding :
  char_count (format_error_body_preview data response_encoding) <= 270 + char_count (default "" response_encoding) /\
  (from_utf8 (default "" response_encoding) = true -> from_utf8 (format_error_body_preview data response_encoding) = true).
Proof.
  unfold format_error_body_preview. destruct (decompress_error_body data response_encoding) as [decoded|].
  - destruct (from_utf8 decoded) eqn:Hu.
    + unfold str_empty. case_bool_decide as He; [split; [change (char_count "<empty>") with 7; lia|done]|]. apply trim_utf8 in Hu. split; [|intros _].
      * rewrite char_count_app. unfold take_chars. pose proof (split_at_char_count MAX_PREVIEW_LEN (trim decoded)) as Hs.
        assert (char_count (if more_chars MAX_PREVIEW_LEN (trim decoded) then "...<truncated>" else "") <= 14) by (destruct (more_chars _ _); apply Nat.leb_le; reflexivity).
        unfold MAX_PREVIEW_LEN in *. destruct (split_at_char 256 (trim decoded)) as [[p q]|]; lia.
      * apply from_utf8_chars in Hu as (cs & Hcs & ->).
        assert (exists cs', Forall is_scalar cs' /\ take_chars MAX_PREVIEW_LEN (encode_chars cs) = encode_chars cs') as (cs' & Hcs' & ->).
        { unfold take_chars. rewrite split_at_char_chars by done. case_bool_decide; [|by exists cs].
          eexists. split; [|done]. by apply Forall_take. }
        rewrite from_utf8_app by (apply from_utf8_chars; by exists cs'). by case_match.
    + split.
      * rewrite !char_count_app. pose proof (char_count_length (join " " (Parser.hex_byte <$> take MAX_HEX_BYTES (bytes_list decoded)))) as Hj.
        pose proof (join_hex_length (take MAX_HEX_BYTES (bytes_list decoded))) as Hl. rewrite length_take in Hl. unfold MAX_HEX_BYTES in *.
        assert (char_count (if bool_decide (32 < String.length decoded) then " ...<truncated>" else "") <= 15) by (destruct (bool_decide _); apply Nat.leb_le; reflexivity).
        change (char_count "<non_utf8 hex=") with 14. change (char_count ">") with 1. lia.
      * intros _. rewrite !from_utf8_app by (done || apply join_hex_utf8 || by case_match). done.
  - split.
    + rewrite !char_count_app. change (char_count "<unable_to_decode encoding=") with 27. change (char_count ">") with 1.
      destruct response_encoding; cbn [default from_option]; [lia|]. apply Nat.leb_le. reflexivity.
    + intros Hu. rewrite !from_utf8_app; [done| |done]. by destruct response_encoding.
Qed.

Section Redaction.
Context `{RegexTemplateLaws} (template : string).

Lemma match_secret_spec s key rest :
  match_kind s "secret-" = Some (key, rest) -> s = key +:+ rest /\ 0 < String.length key.
Proof.
  unfold match_kind. intros Hm. apply bind_Some in Hm as (r & ->%strip_prefix_Some & Hm).
  destruct (span is_alnum r) as [body rest'] eqn:Hs. apply span_spec in Hs as [-> _]. case_match; [done|].
  injection Hm as <- <-. rewrite str_app_assoc. split; [done|]. rewrite str_app_length. cbn. lia.
Qed.

Lemma replace_secrets_fuel fuel s : String.length s <= fuel -> replace_secrets fuel template s = redact_error template s.
Proof.
  unfold redact_error. remember (String.length s) as n eqn:Hn. revert fuel s Hn. induction n as [n IH] using lt_wf_ind.
  intros fuel [|c s] -> Hf; [by destruct fuel|]. cbn [String.length] in *. destruct fuel as [|fuel]; [lia|]. cbn [replace_secrets].
  destruct (match_kind (String c s) "secret-") as [[key rest]|] eqn:Em; f_equal; [|apply (IH (String.length s)); lia].
  apply match_secret_spec in Em as [Es Hk]. apply (f_equal String.length) in Es. rewrite str_app_length in Es. cbn in Es.
  rewrite (IH (String.length rest)) by lia. symmetry. apply (IH (String.length rest)); lia.
Qed.

(** No secret starts inside [pre] when [rest] follows it. *)
Definition no_secret_starts (pre rest : string) : Prop :=
  forall a b, pre = a +:+ b -> b <> EmptyString -> match_kind (b +:+ rest) "secret-" = None.

(** A printed error shows the key of its request, cut, in place of the first secret it
    names, keeps the text before it, and goes on after it in the same way; text without
    secrets is printed as it is. *)
Theorem error_redacted pre s key rest :
  no_char "$" template = true -> no_secret_starts pre s -> match_kind s "secret-" = Some (key, rest) \/ s = EmptyString /\ key = EmptyString /\ rest = EmptyString ->
  redact_error template (pre +:+ s) =
    pre +:+ (if str_empty s then EmptyString else template +:+ redact_error template rest).
Proof.
  intros Ht Hno Hs. induction pre as [|c pre IH].
  - rewrite !str_nil_app. destruct Hs as [Hm|(-> & _)]; [|done]. pose proof (match_secret_spec _ _ _ Hm) as [Es Hk].
    destruct s as [|c s]; [destruct key; [cbn in Hk; lia|by rewrite str_cons_app in Es]|]. unfold str_empty. rewrite bool_decide_eq_false_2 by done. unfold redact_error at 1. cbn [String.length replace_secrets].
    rewrite Hm, expand_plain by done. f_equal. apply replace_secrets_fuel. apply (f_equal String.length) in Es.
    rewrite str_app_length in Es. cbn in Es. lia.
  - rewrite !str_cons_app. unfold redact_error at 1. cbn [String.length replace_secrets].
    assert (match_kind (String c (pre +:+ s)) "secret-" = None) as ->.
    { rewrite <- str_cons_app. by apply (Hno EmptyString). }
    f_equal. rewrite replace_secrets_fuel by done. apply IH. intros a b -> Hb. apply (Hno (String c a)); [by rewrite str_cons_app|done].
Qed.
End Redaction.
