(* ===== verification/Loops.v ===== *)
(** * Loops: the tasks that keep the proxy fresh, and the client they share

    Models the client settings of [src/src/datastore/data_providers/mod.rs] with the lazily
    built client, the background thread of [background_data_provider.rs], and the pauses of
    the ID-list worker ([worker/run.rs]). Durations and instants are nanoseconds. *)
From S2P Require Import Prelude Encoding Request Namespaces Planning Effects WorkerCore Backoff Stores SpecDeltas Outbound Polling.

(** ** Client settings *)

Record HttpClientConfig := {
  request_timeout : N;
  read_timeout : N;
  connect_timeout : N;
  pool_idle_timeout : N;
  pool_max_idle_per_host : N;
}.
Definition http_client_config_new (request_timeout_in_s read_timeout_in_s connect_timeout_in_s pool_idle_timeout_in_s
    pool_max_idle_per_host : N) : HttpClientConfig := {|
  request_timeout := from_secs request_timeout_in_s;
  read_timeout := from_secs read_timeout_in_s;
  connect_timeout := from_secs connect_timeout_in_s;
  pool_idle_timeout := from_secs pool_idle_timeout_in_s;
  pool_max_idle_per_host := pool_max_idle_per_host |}.
Definition http_client_config_default : HttpClientConfig := http_client_config_new 30 10 10 30 10.

(** A request is cut off no sooner than five seconds after the client's own timeout. *)
Definition background_request_guard_timeout (self : HttpClientConfig) : N :=
  let buffered := (request_timeout self + from_secs 5)%N in
  N.max (if bool_decide (buffered <= duration_max)%N then buffered else request_timeout self) (from_secs 60).

(** ** The client is built once *)

Section LazyHttpClient.
Context {C E : Type}.

(** Where a call of [get_or_build] is: before its first look, waiting for the lock,
    holding it, or returned. *)
Inductive lazy_phase := LookFirst | AwaitLock | HoldLock | Returned (r : result E C).
Record LazyHttpClient := {
  lz_client : option C;
  build_lock : option nat;
  lz_calls : gmap nat lazy_phase;
  (** every client ever built *)
  lz_built : list C;
}.
Definition lazy_new (calls : gset nat) : LazyHttpClient :=
  {| lz_client := None; build_lock := None; lz_calls := gset_to_gmap LookFirst calls; lz_built := [] |}.
Definition set_call (t : nat) (phase : lazy_phase) (lock : option nat) (s : LazyHttpClient) : LazyHttpClient :=
  {| lz_client := lz_client s; build_lock := lock; lz_calls := <[t := phase]> (lz_calls s); lz_built := lz_built s |}.

(** [build] may fail, and a later call tries again. *)
Inductive get_or_build_step (s : LazyHttpClient) : LazyHttpClient -> Prop :=
| look_hit t c :
    lz_calls s !! t = Some LookFirst -> lz_client s = Some c ->
    get_or_build_step s (set_call t (Returned (Ok c)) (build_lock s) s)
| look_miss t :
    lz_calls s !! t = Some LookFirst -> lz_client s = None ->
    get_or_build_step s (set_call t AwaitLock (build_lock s) s)
| lock_taken t :
    lz_calls s !! t = Some AwaitLock -> build_lock s = None ->
    get_or_build_step s (set_call t HoldLock (Some t) s)
| look_again_hit t c :
    lz_calls s !! t = Some HoldLock -> lz_client s = Some c ->
    get_or_build_step s (set_call t (Returned (Ok c)) None s)
| build_failed t e :
    lz_calls s !! t = Some HoldLock -> lz_client s = None ->
    get_or_build_step s (set_call t (Returned (Err e)) None s)
| build_succeeded t c :
    lz_calls s !! t = Some HoldLock -> lz_client s = None ->
    get_or_build_step s
      {| lz_client := Some c; build_lock := None; lz_calls := <[t := Returned (Ok c)]> (lz_calls s);
         lz_built := lz_built s ++ [c] |}.
End LazyHttpClient.
Arguments LazyHttpClient : clear implicits.
Arguments lazy_phase : clear implicits.

(** ** The background thread *)

Record ForegroundFetchConfig := {
  fc_request_guard_timeout : N;
  fc_clear_datastore_on_unauthorized : bool;
  fc_execution_mode : FetchExecutionMode;
  fc_dispatch_config : BackgroundPollDispatchConfig;
}.
Record PreparedFetchExecutionConfig := {
  xc_max_in_flight : N;
  xc_launch_spacing : N;
  xc_request_guard_timeout : N;
  xc_clear_datastore_on_unauthorized : bool;
  xc_publish_background_request_interval : bool;
}.
(** The settings [impl_foreground_fetch] runs its requests with. *)
Definition execution_config_of (config : ForegroundFetchConfig) : PreparedFetchExecutionConfig := {|
  xc_max_in_flight := max_in_flight (fc_dispatch_config config);
  xc_launch_spacing := execution_spacing (fc_dispatch_config config) (fc_execution_mode config);
  xc_request_guard_timeout := fc_request_guard_timeout config;
  xc_clear_datastore_on_unauthorized := fc_clear_datastore_on_unauthorized config;
  xc_publish_background_request_interval :=
    match fc_execution_mode config with BackgroundPoll _ => true | Foreground => false end |}.

Section Thread.
Context {C E W : Type}.
(** A fetch with a client: how many requests it attempted, and the state after it. *)
Context (impl_foreground_fetch : C -> ForegroundFetchConfig -> list SdkKeyStoreItem -> W -> nat * W).

Definition impl_foreground_fetch_with_cached_client (client_config : HttpClientConfig) (client : result E C)
    (clear_datastore_on_unauthorized : bool) (mode : FetchExecutionMode) (dispatch : BackgroundPollDispatchConfig)
    (items : list SdkKeyStoreItem) (w : W) : nat * W :=
  let config := {| fc_request_guard_timeout := background_request_guard_timeout client_config;
                   fc_clear_datastore_on_unauthorized := clear_datastore_on_unauthorized;
                   fc_execution_mode := mode; fc_dispatch_config := dispatch |} in
  match client with
  | Ok client => impl_foreground_fetch client config items w
  | Err _ => (0, w)
  end.

(** What is done before the loop is spawned. *)
Definition warm_up (client_config : HttpClientConfig) (client : result E C) (clear : bool) (dispatch : BackgroundPollDispatchConfig)
    (startup_warmup_items : option (list SdkKeyStoreItem)) (w : W) : W :=
  match startup_warmup_items with
  | Some (item :: items) =>
      (impl_foreground_fetch_with_cached_client client_config client clear Foreground dispatch (item :: items) w).2
  | _ => w
  end.

(** One round of the loop after its sleep: the registered keys are fetched, then the next
    poll is scheduled and the backoff map pruned. *)
Definition fetch_interval_round (client_config : HttpClientConfig) (client : result E C) (clear : bool)
    (dispatch : BackgroundPollDispatchConfig) (policy : RequestBackoffPolicy) (polling_interval_in_s : N)
    (registered : W -> list SdkKeyStoreItem) (backoff : W -> backoff_map) (set_backoff : backoff_map -> W -> W)
    (now : N) (s : poll_state) (w : W) : poll_state * W :=
  let w := (impl_foreground_fetch_with_cached_client client_config client clear (BackgroundPoll (poll_cycle s)) dispatch (registered w) w).2 in
  let '(s, m) := after_poll dispatch policy polling_interval_in_s now (backoff w) s (backoff w) in
  (s, set_backoff m w).
End Thread.

(** When polls start, given how long each takes: a poll that is late starts at once. *)
Definition advance (dispatch : BackgroundPollDispatchConfig) (polling_interval_in_s : N) (s : poll_state) : poll_state :=
  {| poll_cycle := N.land (poll_cycle s + 1) u64_max;
     next_poll_at := next_poll_at s
       + poll_interval_for_cycle dispatch (from_secs (N.max polling_interval_in_s 1)) (N.land (poll_cycle s + 1) u64_max) |}.
Fixpoint poll_times (dispatch : BackgroundPollDispatchConfig) (polling_interval_in_s : N) (s : poll_state) (now : N)
    (durations : list N) : list N :=
  match durations with
  | [] => []
  | d :: durations =>
      let start := N.max now (next_poll_at s) in
      start :: poll_times dispatch polling_interval_in_s (advance dispatch polling_interval_in_s s) (start + d) durations
  end.

(** ** The worker *)

(** How long the worker sleeps after a run: it goes on at once while there is work. *)
Definition worker_pause (poll_interval_ms : N) (r : result WorkerError WorkerRunOutcome) : option N :=
  match r with
  | Ok Idle => Some (from_millis poll_interval_ms)
  | Ok _ => None
  | Err _ => Some (from_millis poll_interval_ms)
  end.

(** ** One client *)

Section LazyProofs.
Context {C E : Type}.
Implicit Types s : LazyHttpClient C E.

(** The lock is held by the call that is past it; what was returned or built is the client. *)
Record lazy_ok (s : LazyHttpClient C E) : Prop := {
  lock_held : forall t, lz_calls s !! t = Some HoldLock <-> build_lock s = Some t;
  returned_client : forall t c, lz_calls s !! t = Some (Returned (Ok c)) -> lz_client s = Some c;
  built_once : lz_built s = match lz_client s with Some c => [c] | None => [] end;
}.

Definition is_returned (p : lazy_phase C E) : bool := match p with Returned _ => true | _ => false end.

Lemma lazy_new_ok calls : lazy_ok (lazy_new calls).
Proof.
  assert (forall t p, gset_to_gmap (LookFirst : lazy_phase C E) calls !! t = Some p -> p = LookFirst) as Hl.
  { intros t p [_ <-]%lookup_gset_to_gmap_Some. done. }
  split; cbn; [|by intros t c Ht%Hl|done]. intros t. split; [by intros Ht%Hl|done].
Qed.

Lemma set_call_ok t phase lock s :
  lazy_ok s ->
  (forall c, phase = Returned (Ok c) -> lz_client s = Some c) ->
  (phase = HoldLock /\ build_lock s = None /\ lock = Some t \/
   phase <> HoldLock /\ build_lock s = Some t /\ lock = None \/
   phase <> HoldLock /\ lz_calls s !! t <> Some HoldLock /\ lock = build_lock s) ->
  lazy_ok (set_call t phase lock s).
Proof.
  intros [Hlock Hret Hbuilt] Hphase Hcase. split; cbn; [| |done].
  - intros t'. destruct (decide (t' = t)) as [->|Hne].
    + rewrite lookup_insert_eq. specialize (Hlock t). naive_solver.
    + rewrite lookup_insert_ne, Hlock by done. specialize (Hlock t'). naive_solver.
  - intros t' c. destruct (decide (t' = t)) as [->|Hne]; [rewrite lookup_insert_eq; intros [= ->]; by apply Hphase|].
    rewrite lookup_insert_ne by done. apply Hret.
Qed.

Lemma lazy_step_ok s s' : get_or_build_step s s' -> lazy_ok s -> lazy_ok s'.
Proof.
  intros Hstep Hok. pose proof (lock_held _ Hok) as Hlock. destruct Hstep as [t c Ht Hc|t Ht Hc|t Ht Hl|t c Ht Hc|t e Ht Hc|t c Ht Hc].
  1-5: apply set_call_ok; [done|by intros ? [=]; simplify_eq|]. 1-2: right; right; split_and!; [done|by rewrite Ht|done]. 1: by left.
  1-2: right; left; split; [done|]; split; [by apply Hlock|done].
  destruct Hok as [_ Hret Hbuilt]. rewrite Hc in Hbuilt. split; cbn; [| |by rewrite Hbuilt].
  - intros t'. split; [|done]. destruct (decide (t' = t)) as [->|Hne]; [by rewrite lookup_insert_eq|].
    rewrite lookup_insert_ne by done. intros Ht'%Hlock. apply Hlock in Ht. congruence.
  - intros t' c'. destruct (decide (t' = t)) as [->|Hne]; [by rewrite lookup_insert_eq; intros [= ->]|].
    rewrite lookup_insert_ne by done. intros Ht'%Hret. congruence.
Qed.

Lemma lazy_reached_ok calls s : rtc get_or_build_step (lazy_new calls) s -> lazy_ok s.
Proof.
  generalize (lazy_new_ok calls). generalize (lazy_new (C := C) (E := E) calls). intros s0 H0.
  induction 1 as [|s0 s1 s2 Hstep _ IH]; [done|]. by eapply IH, lazy_step_ok.
Qed.

(** How many steps a call has left at most. *)
Definition rank (p : lazy_phase C E) : nat :=
  match p with LookFirst => 3 | AwaitLock => 2 | HoldLock => 1 | Returned _ => 0 end.
Definition steps_left (m : gmap nat (lazy_phase C E)) : nat := map_fold (fun _ p n => rank p + n) 0 m.

Lemma steps_left_insert m t p : m !! t = None -> steps_left (<[t := p]> m) = rank p + steps_left m.
Proof. intros Ht. unfold steps_left. rewrite map_fold_insert_L; [done|intros; lia|done]. Qed.
Lemma steps_left_update m t p p' :
  m !! t = Some p -> steps_left (<[t := p']> m) + rank p = steps_left m + rank p'.
Proof.
  intros Ht. rewrite <- (insert_delete_id m t p Ht) at 2. rewrite <- insert_delete_eq.
  rewrite !steps_left_insert by apply lookup_delete_eq. lia.
Qed.
Lemma steps_left_new calls : steps_left (gset_to_gmap LookFirst calls) = 3 * size calls.
Proof.
  induction calls as [|t calls Ht IH] using set_ind_L; [by rewrite gset_to_gmap_empty, size_empty|].
  rewrite gset_to_gmap_union_singleton, steps_left_insert by (by apply lookup_gset_to_gmap_None).
  rewrite IH, size_union by set_solver. rewrite size_singleton. cbn [rank]. lia.
Qed.

(** Every step takes a call further. *)
Lemma lazy_step_progress s s' : get_or_build_step s s' -> S (steps_left (lz_calls s')) <= steps_left (lz_calls s).
Proof.
  destruct 1 as [t c Ht _|t Ht _|t Ht _|t c Ht _|t e Ht _|t c Ht _]; cbn [set_call lz_calls];
    match goal with |- context [<[t := ?p]> _] => pose proof (steps_left_update _ t _ p Ht) as Hl end; cbn [rank] in Hl; lia.
Qed.
Lemma lazy_steps_bound n s s' : nsteps get_or_build_step n s s' -> n + steps_left (lz_calls s') <= steps_left (lz_calls s).
Proof. induction 1 as [|n s0 s1 s2 Hstep _ IH]; [lia|]. apply lazy_step_progress in Hstep. lia. Qed.

Lemma lazy_runs_on s :
  lazy_ok s -> Inhabited E ->
  (forall t phase, lz_calls s !! t = Some phase -> exists r, phase = Returned r) \/ exists s', get_or_build_step s s'.
Proof.
  intros [Hlock _ _] HE. destruct (build_lock s) as [t|] eqn:Hl.
  - right. pose proof (proj2 (Hlock t) eq_refl) as Ht. destruct (lz_client s) as [c|] eqn:Hc.
    + eexists. by eapply look_again_hit.
    + eexists. by apply (build_failed _ t inhabitant).
  - destruct (decide (map_Forall (fun _ (p : lazy_phase C E) => is_returned p = true) (lz_calls s))) as [Hall|Hnot].
    + left. intros t phase Ht. specialize (Hall t phase Ht). destruct phase; try done. eauto.
    + right. apply map_not_Forall in Hnot as (t & phase & Ht & Hp); [|apply _]. destruct phase; try done.
      * destruct (lz_client s) as [c|] eqn:Hc; eexists; [by eapply look_hit|by apply (look_miss _ t)].
      * eexists. by apply (lock_taken _ t).
      * apply Hlock in Ht. congruence.
Qed.

(** A call that holds the lock can return the client there is, or one it builds. *)
Lemma holder_returns s t c :
  lz_calls s !! t = Some HoldLock ->
  exists s', get_or_build_step s s' /\ lz_client s' = Some (default c (lz_client s)) /\ build_lock s' = None /\
    lz_calls s' = <[t := Returned (Ok (default c (lz_client s)))]> (lz_calls s).
Proof.
  intros Ht. destruct (lz_client s) as [c0|] eqn:Hc; cbn [default from_option id].
  - eexists. split; [by eapply look_again_hit|]. by cbn.
  - eexists. split; [by eapply (build_succeeded _ t c)|]. by cbn.
Qed.
Lemma waiter_returns s t c :
  lazy_ok s -> lz_calls s !! t = Some AwaitLock ->
  exists s', rtc get_or_build_step s s' /\ lz_calls s' !! t = Some (Returned (Ok (default c (lz_client s)))).
Proof.
  intros Hok Ht.
  assert (forall s1, build_lock s1 = None -> lz_calls s1 !! t = Some AwaitLock -> default c (lz_client s1) = default c (lz_client s) ->
    exists s', rtc get_or_build_step s1 s' /\ lz_calls s' !! t = Some (Returned (Ok (default c (lz_client s))))) as Hfree.
  { intros s1 Hl Ht1 Hc1. destruct (holder_returns (set_call t HoldLock (Some t) s1) t c) as (s2 & Hstep & _ & _ & Hcalls).
    { cbn. apply lookup_insert_eq. }
    exists s2. split; [eapply rtc_l; [by apply lock_taken|by apply rtc_once]|].
    rewrite Hcalls. cbn [set_call lz_client]. rewrite lookup_insert_eq. by rewrite Hc1. }
  destruct (build_lock s) as [t2|] eqn:Hl; [|by apply Hfree].
  pose proof (proj2 (lock_held _ Hok t2) Hl) as Ht2. destruct (holder_returns s t2 c Ht2) as (s1 & Hstep & Hc & Hl1 & Hcalls).
  destruct (Hfree s1) as (s' & Hrun & Hret); [done| |by rewrite Hc|].
  - rewrite Hcalls, lookup_insert_ne; [done|]. intros ->. congruence.
  - exists s'. split; [by eapply rtc_l|done].
Qed.
Lemma call_returns s t phase c :
  lazy_ok s -> lz_calls s !! t = Some phase -> is_returned phase = false ->
  exists s', rtc get_or_build_step s s' /\ lz_calls s' !! t = Some (Returned (Ok (default c (lz_client s)))).
Proof.
  intros Hok Ht Hp. destruct phase; [| | |done].
  - destruct (lz_client s) as [c0|] eqn:Hc; cbn [default from_option id].
    + eexists. split; [apply rtc_once; by eapply look_hit|]. cbn. apply lookup_insert_eq.
    + destruct (waiter_returns (set_call t AwaitLock (build_lock s) s) t c) as (s' & Hrun & Hret).
      * eapply lazy_step_ok; [by apply look_miss|done].
      * cbn. apply lookup_insert_eq.
      * exists s'. split; [eapply rtc_l; [by apply look_miss|done]|]. cbn [set_call lz_client] in Hret. by rewrite Hc in Hret.
  - by apply waiter_returns.
  - destruct (holder_returns s t c Ht) as (s' & Hstep & _ & _ & Hcalls). exists s'. split; [by apply rtc_once|].
    rewrite Hcalls. apply lookup_insert_eq.
Qed.
End LazyProofs.

(** ** Properties *)

(** C18: However many fetches start at once, they share one client: at most one is built, and
    every call that gets one gets that one. Every call returns: it takes at most three
    steps, and until all have returned some call can take one. Whatever failed before, a
    call that has not returned can still get a client: the one there is, or, when there
    is none yet, any that can be built. *)
Theorem lazy_client_shared {C E : Type} `{Inhabited E} (calls : gset nat) (n : nat) (s : LazyHttpClient C E) :
  nsteps get_or_build_step n (lazy_new calls) s ->
  length (lz_built s) <= 1 /\
  (forall t c, lz_calls s !! t = Some (Returned (Ok c)) -> lz_client s = Some c /\ lz_built s = [c]) /\
  n <= 3 * size calls /\
  ((forall t phase, lz_calls s !! t = Some phase -> exists r, phase = Returned r) \/ exists s', get_or_build_step s s') /\
  (forall t phase c, lz_calls s !! t = Some phase -> is_returned phase = false ->
     exists s', rtc get_or_build_step s s' /\ lz_calls s' !! t = Some (Returned (Ok (default c (lz_client s))))).
Proof.
  intros Hrun. assert (lazy_ok s) as Hok by (apply (lazy_reached_ok calls); by eapply rtc_nsteps_2).
  split_and!.
  - rewrite (built_once _ Hok). destruct (lz_client s); cbn; lia.
  - intros t c Ht. pose proof (returned_client _ Hok t c Ht) as Hc. by rewrite (built_once _ Hok), Hc.
  - apply lazy_steps_bound in Hrun. cbn [lazy_new lz_calls] in Hrun. rewrite steps_left_new in Hrun. lia.
  - by apply lazy_runs_on.
  - intros t phase c. by apply call_returns.
Qed.

(** *** The cadence of polls *)

Section Cadence.
Context (dispatch : BackgroundPollDispatchConfig) (polling_interval_in_s : N).

(** The configured interval in milliseconds and how far jitter moves it. *)
Definition base_ms : N := N.min (N.max (as_millis (from_secs (N.max polling_interval_in_s 1))) 1) u64_max.
Definition window_ms : N := N.max (base_ms / POLL_INTERVAL_JITTER_DIVISOR) 1.
Definition shortest : N := from_millis (base_ms - window_ms).
Definition longest : N := from_millis (base_ms + window_ms).

Lemma advance_bounds s :
  (next_poll_at s + shortest <= next_poll_at (advance dispatch polling_interval_in_s s) <= next_poll_at s + longest)%N.
Proof.
  cbn [advance next_poll_at].
  destruct (poll_interval_bounds dispatch (from_secs (N.max polling_interval_in_s 1)) (N.land (poll_cycle s + 1) u64_max)) as (ms & -> & _ & Hms).
  unfold shortest, longest, window_ms, base_ms, from_millis, ns_per_ms. lia.
Qed.

(** The state after a poll is the one the loop computes. *)
Lemma after_poll_advances policy now seen s m :
  (after_poll dispatch policy polling_interval_in_s now seen s m).1 = advance dispatch polling_interval_in_s s.
Proof. reflexivity. Qed.

Lemma poll_times_bounds durations : forall s now k t,
  poll_times dispatch polling_interval_in_s s now durations !! k = Some t ->
  (next_poll_at s + N.of_nat k * shortest <= t /\
   t <= N.max now (next_poll_at s) + N.of_nat k * longest + foldr N.add 0 (take k durations))%N /\
  (Forall (fun d => d <= shortest)%N durations -> (now <= next_poll_at s)%N -> (t <= next_poll_at s + N.of_nat k * longest)%N).
Proof.
  induction durations as [|d durations IH]; intros s now k t Hk; [done|]. cbn [poll_times] in Hk.
  destruct k as [|k]; cbn [lookup list_lookup] in Hk.
  { injection Hk as <-. cbn [take foldr]. lia. }
  apply IH in Hk as [Hb Hfit]. pose proof (advance_bounds s) as Ha. cbn [take foldr].
  set (next := next_poll_at (advance dispatch polling_interval_in_s s)) in *. set (f := foldr N.add 0%N (take k durations)) in *.
  rewrite Nat2N.inj_succ, !N.mul_succ_l. split; [lia|]. intros Hall Hnow. inversion_clear Hall as [|?? Hd Hall'].
  specialize (Hfit Hall'). lia.
Qed.
End Cadence.

Lemma poll_times_length dispatch polling_interval_in_s s now durations :
  length (poll_times dispatch polling_interval_in_s s now durations) = length durations.
Proof. revert s now. induction durations as [|d ds IH]; intros s now; cbn [poll_times length]; [done|]. by rewrite IH. Qed.

(** C19: Registered keys are polled at the configured cadence and never given up: the k-th poll
    after the loop started comes no earlier than k shortest intervals (nine tenths of the
    configured one) after the start, and no later than k longest ones (eleven tenths) plus
    the time the polls before it took; when each poll takes less than an interval, their
    length does not delay the next at all. *)
Theorem poll_cadence dispatch polling_interval_in_s start durations k :
  k < length durations ->
  exists t, poll_times dispatch polling_interval_in_s {| poll_cycle := 0; next_poll_at := start |} start durations !! k = Some t /\
  (start + N.of_nat k * shortest polling_interval_in_s <= t /\
   t <= start + N.of_nat k * longest polling_interval_in_s + foldr N.add 0 (take k durations))%N /\
  (Forall (fun d => d <= shortest polling_interval_in_s)%N durations -> (t <= start + N.of_nat k * longest polling_interval_in_s)%N).
Proof.
  intros Hlen. rewrite <- (poll_times_length dispatch polling_interval_in_s {| poll_cycle := 0; next_poll_at := start |} start) in Hlen.
  apply lookup_lt_is_Some_2 in Hlen as [t Hk]. exists t. split; [done|].
  apply poll_times_bounds in Hk as [[Hlo Hhi] Hfit]. cbn [next_poll_at] in *.
  split; [lia|]. intros Hall. by apply Hfit.
Qed.

(** ** Witnesses *)

Module LoopsExample.
Definition dispatch : BackgroundPollDispatchConfig := {| max_in_flight := 4; item_spacing_ms := 0; jitter_seed := 7 |}.
(** Two calls race: the second waits while the first builds, and finds the client. *)
Definition one_built : LazyHttpClient nat unit :=
  {| lz_client := Some 5; build_lock := None; lz_calls := {[0 := Returned (Ok 5); 1 := Returned (Ok 5)]}; lz_built := [5] |}.
End LoopsExample.

Lemma lazy_client_shared_witness : lz_client LoopsExample.one_built = Some 5 /\ lz_built LoopsExample.one_built = [5].
Proof.
  destruct (lazy_client_shared {[0; 1]} 6 LoopsExample.one_built) as (_ & Hone & _); [|by apply (Hone 0)].
  assert (forall c l m m' b, m = m' -> {| lz_client := c; build_lock := l; lz_calls := m; lz_built := b |}
    = ({| lz_client := c; build_lock := l; lz_calls := m'; lz_built := b |} : LazyHttpClient nat unit)) as Hm by congruence.
  eapply nsteps_l; [apply (look_miss _ 0); reflexivity|]. eapply nsteps_l; [apply (look_miss _ 1); reflexivity|].
  eapply nsteps_l; [apply (lock_taken _ 0); reflexivity|]. eapply nsteps_l; [apply (build_succeeded _ 0 5); reflexivity|].
  eapply nsteps_l; [apply (lock_taken _ 1); reflexivity|]. eapply nsteps_l; [apply (look_again_hit _ 1 5); reflexivity|].
  match goal with |- nsteps _ _ ?a ?b => replace b with a; [apply nsteps_O|] end. apply Hm. vm_compute. reflexivity.
Defined.

Lemma poll_cadence_witness :
  exists t, poll_times LoopsExample.dispatch 10 {| poll_cycle := 0; next_poll_at := 0 |} 0 [1; 1]%N !! 1%nat = Some t /\
    (from_secs 9 <= t <= from_secs 11)%N.
Proof.
  destruct (poll_cadence LoopsExample.dispatch 10 0 [1; 1]%N 1) as (t & Hk & [Hlo _] & Hhi); [apply Nat.ltb_lt; reflexivity|]. exists t. split; [exact Hk|]. clear Hk.
  assert (shortest 10 = from_secs 9 /\ longest 10 = from_secs 11) as [Hs Hl] by (vm_compute; done).
  rewrite Hs in *. rewrite Hl in *. split; [lia|]. assert (1 <= from_secs 9)%N by (vm_compute; done).
  specialize (Hhi ltac:(repeat constructor; done)). lia.
Defined.
