(* ===== verification/Startup.v ===== *)
(** * Startup: how the process is put together

    Models [src/src/server.rs]: the settings, the stores and observers that are wired, the
    tasks that are spawned, and the servers, in the order [main] does it, with every way
    it can refuse to start; the parsing of logging tags
    ([src/src/utils/deserialization_helpers.rs], [statsig_sdk_wrapper.rs]). *)
From S2P Require Import Prelude Encoding Request Schema Planning Effects WorkerCore Namespaces Backoff Stores SpecDeltas Outbound Fetch Membership RedisAuth RedisPool RateLimiter Enrichment RedisCache Warmup Responses Events Polling Metrics Loops.

(** ** Settings *)

Inductive TransportMode := GrpcAndHttp | GrpcOnly | HttpOnly.
Inductive CacheMode := CacheDisabled | CacheRedis.
#[export] Instance CacheMode_eq : EqDecision CacheMode.
Proof. solve_decision. Defined.

Record Cli := {
  cli_mode : TransportMode;
  cli_cache : CacheMode;
  double_write_cache_for_legacy_key : bool;
  datadog_logging : bool;
  statsd_logging : bool;
  otlp_logging : bool;
  statsig_logging : bool;
  statsig_logging_tags : option (list (string * string));
  debug_logging : bool;
  maximum_concurrent_sdk_keys : N;
  polling_interval_in_s : N;
  config_spec_current_lcut_sampling_interval_in_s : N;
  cli_max_in_flight : N;
  background_poll_item_spacing_ms : N;
  redis_connection_timeout_in_s : N;
  redis_leader_key_ttl : Z;
  redis_cache_ttl_in_s : Z;
  log_event_process_queue_size : N;
  force_gcp_profiling_enabled : bool;
  grpc_max_concurrent_streams : N;
  grpc_ready_endpoint_percentage_of_total_streams_threshold : N;
  cli_clear_datastore_on_unauthorized : bool;
  x509_server_cert_path : option string;
  x509_server_key_path : option string;
  x509_client_cert_path : option string;
  enforce_tls : bool;
  enforce_mtls : bool;
  http_connection_pool_max_idle_per_host : N;
  http_connection_pool_idle_timeout_in_s : N;
  http_request_timeout_in_s : N;
  http_read_timeout_in_s : N;
  http_connect_timeout_in_s : N;
  deltas_background_loop_enabled : bool;
  id_list_file_refresh_observer_enabled : bool;
  deltas_background_loop_sleep_time_in_s : option N;
  deltas_num_responses_to_persist : option N;
}.
Definition cli_http_client_config (self : Cli) : HttpClientConfig :=
  http_client_config_new (http_request_timeout_in_s self) (http_read_timeout_in_s self) (http_connect_timeout_in_s self)
    (http_connection_pool_idle_timeout_in_s self) (http_connection_pool_max_idle_per_host self).

Record ConfigurationAndOverrides := {
  statsig_endpoint : option string;
  statsig_endpoint_deltas : option string;
  statsig_endpoint_download_id_list_file : option string;
  enable_blob_storage_for_download_config_specs : option bool;
  dcs_blob_storage_connection_string : option string;
  dcs_blob_storage_company_id : option string;
  statsig_server_sdk_key : option string;
  log_event_statsig_endpoint : option string;
  log_event_dedupe_cache_limit : option N;
  tokio_worker_threads_background : option N;
}.

(** *** Logging tags *)

Definition parse_kv_pair (s : string) : result string (string * string) :=
  ok_or ("Invalid KEY:VALUE: no `:` found in `" +:+ s +:+ "`") (split_once ":" s).

(** [StatsigUserFactory]: the identifiers of the user events are logged for. *)
Definition default_custom_ids (hostname : option string) : gmap string string :=
  {["podID" := default "no_hostname_provided" hostname]}.
Definition set_custom_ids (env : string -> option string) (custom_ids : list (string * string)) : gmap string string :=
  foldl (fun ids kv => <[kv.1 := default "empty" (env kv.2)]> ids) ∅ custom_ids.

(** *** Where requests go *)

Definition CDN : string := "https://api.statsigcdn.com".
Definition resolve_download_id_list_file_base_url (overrides : ConfigurationAndOverrides) : string :=
  match statsig_endpoint_download_id_list_file overrides with
  | Some url => url
  | None => default CDN (statsig_endpoint overrides)
  end.
Definition log_event_base_url (overrides : ConfigurationAndOverrides) : string :=
  default "https://statsigapi.net" (log_event_statsig_endpoint overrides).
Definition log_event_cache_limit (overrides : ConfigurationAndOverrides) : N :=
  default 2000000%N (log_event_dedupe_cache_limit overrides).

(** ** What happens outside *)

(** The pools [main] builds: one for each cache, and two for ID lists. *)
Inductive pool_use := ConfigSpecCachePool | IdListCachePool | IdListPool | IdListReadPool.

(** The results of the libraries and of the environment [main] asks. A unit stands for a
    value that is only passed on. [pool_moment] is what building a pool meets: the time, the
    readings of the clock while it waits for a token, and the token shared by then. *)
Record surroundings := {
  sys_env : string -> WorkerCore.env_var;
  warmup_items : option (list SdkKeyStoreItem);
  install_logger : result string unit;
  statsig_initialize : string -> option string;
  json_keys : string -> result string (list string);
  blob_generator : string -> result string (DcsBlobVersion -> string -> string -> option string);
  cache_uuid : string;
  redis_env : result string RedisEnvConfig;
  pool_moment : pool_use -> N * list round * oauth_world;
  available_parallelism : option N;
  build_runtime : result string unit;
  build_worker_client : result string unit;
  build_log_client : result string unit;
  nginx_config : result string NginxCacheConfig;
  serve_grpc : result string unit;
  serve_http : result string unit;
}.

(** ** What [main] does *)

Inductive channel := ConfigSpecChannel | IdListChannel | IdListFileChannel | DeltasChannel.
#[export] Instance channel_eq : EqDecision channel.
Proof. solve_decision. Defined.
Inductive observer_kind :=
| CompanyIdsObserver | SdkKeyStoreObserver | ConfigSpecStoreObserver | IdListStoreObserver | IdListFileStoreObserver
| CacheObserver | FileRefreshObserver | ManifestObserver (server_keys : list string) | DeltasStoreObserver.
Inductive poller := MainPoller | DeltasPoller.

Inductive boot_action :=
| InstallRedactingLogger
| InitializeStatsig (server_sdk_key : string)
| SetStatsigUser (tags : list (string * string))
| AddStatsLogger (flags : LoggingFlags)
| AddDebugLogger
| SpawnTokenRefresh
| BuildCache (u : pool_use) (cache : option RedisCache)
| AddRequestBuilder (p : NormalizedPath) (b : request_builder)
| AddObserver (c : channel) (o : observer_kind)
| InitializeEnrichment (endpoint : UserEnrichmentConfig) (membership : IdListMembershipConfig)
| BuildRuntime (threads : N)
| SpawnWorker (config : IdListWorkerConfig)
| StartPolling (p : poller) (interval_in_s : N) (warm : option (list SdkKeyStoreItem))
| SpawnDiscovery
| RegisterKeys (server_keys : list string)
| SpawnProducer (interval_s : N) (reverse_index : bool)
| StartNginxMonitor (config : NginxCacheConfig)
| StartLcutMonitoring (interval_in_s : N)
| ServeGrpc
| ServeHttp (enrichment : bool)
| CancelTasks.

(** How a start ends early: an error of [main], a panic, or an error of a server. A start
    whose readings of the clock run out is still waiting for its token. *)
Inductive boot_failure :=
| Refused (message : string) | Panicked (message : string) | ServerFailed (message : string) | StillWaiting.

(** Actions are recorded; a failure ends the start. *)
Definition boot (A : Type) : Type := list boot_action -> result boot_failure A * list boot_action.
#[export] Instance boot_ret : MRet boot := fun A a trace => (Ok a, trace).
#[export] Instance boot_bind : MBind boot := fun A B k m trace =>
  match m trace with
  | (Ok a, trace) => k a trace
  | (Err e, trace) => (Err e, trace)
  end.
Definition act (a : boot_action) : boot unit := fun trace => (Ok tt, trace ++ [a]).
Definition lift {A} (fail : string -> boot_failure) (r : result string A) : boot A := fun trace => (map_err fail r, trace).
Definition stop {A} (e : boot_failure) : boot A := fun trace => (Err e, trace).
Definition when (b : bool) (m : boot unit) : boot unit := if b then m else mret tt.

Section Main.
Context `{TokenClient} `{PoolLib}.
Context (cli : Cli) (overrides : ConfigurationAndOverrides) (sur : surroundings).

(** *** Pools *)

(** [create_redis_pool_at]; the first pool that shares the token starts its refresh. *)
Definition open_pool (u : pool_use) (config : RedisEnvConfig) (address : option ConnectionAddr)
    : boot (result RedisPoolError pool_settings) :=
  let '(now, rounds, w) := pool_moment sur u in
  let '(pool, w') := create_redis_pool_at config (redis_connection_timeout_in_s cli) address now rounds w in
  when (bool_decide (w_loops w < w_loops w')) (act SpawnTokenRefresh);;
  match pool with Some pool => mret pool | None => stop StillWaiting end.

Definition create_redis_pool_from_env (u : pool_use) : boot (result string unit) :=
  match redis_env sur with
  | Err e => mret (Err ("Malformed Redis config: " +:+ e))
  | Ok config =>
      pool ← open_pool u config None;
      mret match pool with Ok _ => Ok tt | Err e => Err (RedisPoolError_str e) end
  end.

Definition with_pool_sizes (max_size min_size : N) (config : RedisEnvConfig) : RedisEnvConfig := {|
  redis_enterprise_user := redis_enterprise_user config;
  redis_enterprise_password := redis_enterprise_password config;
  redis_enterprise_host := redis_enterprise_host config;
  redis_enterprise_port := redis_enterprise_port config;
  redis_connection_pool_max_size := Some max_size;
  redis_connection_pool_min_size := Some min_size;
  redis_memorystore := redis_memorystore config;
  redis_tls := redis_tls config;
  redis_key_prefix := redis_key_prefix config;
  redis_auth_mode := redis_auth_mode config;
  redis_oauth_tenant_id := redis_oauth_tenant_id config;
  redis_oauth_client_id := redis_oauth_client_id config;
  redis_oauth_client_secret := redis_oauth_client_secret config;
  redis_oauth_scope := redis_oauth_scope config;
  redis_oauth_username := redis_oauth_username config;
  redis_oauth_refresh_margin_in_s := redis_oauth_refresh_margin_in_s config;
  redis_oauth_authority_host := redis_oauth_authority_host config;
  redis_oauth_allow_plaintext := redis_oauth_allow_plaintext config |}.

(** The pool of lookups: its own sizes, and its own address when one is set. *)
Definition create_idlist_read_pool_from_env : boot (result string unit) :=
  match membership_config_from_env (sys_env sur) with
  | Err e => mret (Err e)
  | Ok membership_config =>
      match redis_env sur with
      | Err e => mret (Err ("Malformed Redis config: " +:+ e))
      | Ok config =>
          let config := with_pool_sizes (pool_size membership_config)
            (N.min (default 1%N (redis_connection_pool_min_size config)) (pool_size membership_config)) config in
          match match read_uri membership_config with
                | None => Ok None
                | Some uri => Some <$> redis_address_from_uri uri
                end with
          | Err e => mret (Err (RedisPoolError_str e))
          | Ok address =>
              pool ← open_pool IdListReadPool config address;
              mret match pool with Ok _ => Ok tt | Err e => Err (RedisPoolError_str e) end
          end
      end
  end.

(** [RedisCache::new], or the cache that keeps nothing. *)
Definition create_cache (u : pool_use) : boot unit :=
  match cli_cache cli with
  | CacheDisabled => act (BuildCache u None)
  | CacheRedis =>
      config ← lift (fun e => Panicked ("Malformed config: " +:+ e)) (redis_env sur);
      pool ← open_pool u config None;
      match redis_cache_new pool (default "" (redis_key_prefix config)) (cache_uuid sur) (redis_leader_key_ttl cli) true
              (redis_cache_ttl_in_s cli) (double_write_cache_for_legacy_key cli) with
      | Some cache => act (BuildCache u (Some cache))
      | None => stop (Panicked match pool with Err e => RedisPoolError_str e | Ok _ => "" end)
      end
  end.

Definition try_initialize_statsig_sdk_and_profiling : boot unit :=
  match statsig_server_sdk_key overrides with
  | Some server_sdk_key =>
      act (InitializeStatsig server_sdk_key);;
      match statsig_initialize sur server_sdk_key with
      | Some err => stop (Panicked ("Failed to initialize statsig SDK: " +:+ err))
      | None => match statsig_logging_tags cli with Some tags => act (SetStatsigUser tags) | None => mret tt end
      end
  | None =>
      if statsig_logging cli then stop (Panicked "Must define statsig server sdk key if using statsig logging")
      else mret tt
  end.

Definition add_event_observers : boot unit :=
  when (datadog_logging cli || statsd_logging cli || statsig_logging cli || otlp_logging cli)
    (act (AddStatsLogger {| flag_statsd := statsd_logging cli; flag_datadog := datadog_logging cli;
                            flag_statsig := statsig_logging cli; flag_otlp := otlp_logging cli |}));;
  when (debug_logging cli) (act AddDebugLogger).

Definition create_dcs_blob_config : option DcsBlobConfig :=
  if negb (default false (enable_blob_storage_for_download_config_specs overrides)) then None
  else
    connection_string ← dcs_blob_storage_connection_string overrides;
    company_id ← dcs_blob_storage_company_id overrides;
    if str_empty (trim company_id) then None
    else
      match blob_generator sur connection_string with
      | Ok generator => Some {| build_download_url := generator; company_id := company_id |}
      | Err _ => None
      end.

Definition create_config_spec_store : boot unit :=
  let builder := BDcs {| dcs_base_url := default CDN (statsig_endpoint overrides); dcs_blob_config := create_dcs_blob_config |} in
  act (AddRequestBuilder V1DownloadConfigSpecs builder);;
  act (AddRequestBuilder V2DownloadConfigSpecs builder);;
  act (AddObserver ConfigSpecChannel SdkKeyStoreObserver);;
  act (AddObserver ConfigSpecChannel ConfigSpecStoreObserver);;
  act (AddObserver ConfigSpecChannel CacheObserver).

Definition create_id_list_store : boot unit :=
  act (AddRequestBuilder V1GetIdLists
    (BIdlist {| idl_base_url := default CDN (statsig_endpoint overrides); last_request_by_key := ∅; last_response_hash := ∅ |}));;
  act (AddObserver IdListChannel SdkKeyStoreObserver);;
  act (AddObserver IdListChannel IdListStoreObserver);;
  act (AddObserver IdListChannel CacheObserver).

Definition create_id_list_file_store : boot unit :=
  act (AddRequestBuilder V1DownloadIdListFile (BFile {| file_base_url := resolve_download_id_list_file_base_url overrides |}));;
  act (AddObserver IdListFileChannel IdListFileStoreObserver).

(** The interval of the delta poller, and how many deltas it keeps, if it is on. *)
Definition maybe_create_deltas_store : boot (option (N * N)) :=
  if negb (deltas_background_loop_enabled cli) then mret None
  else
    let interval := default (polling_interval_in_s cli) (deltas_background_loop_sleep_time_in_s cli) in
    let keep := default 20%N (deltas_num_responses_to_persist cli) in
    act (AddRequestBuilder V2DownloadConfigSpecsDeltas
      (BDcs {| dcs_base_url := default CDN (statsig_endpoint_deltas overrides); dcs_blob_config := None |}));;
    act (AddObserver DeltasChannel DeltasStoreObserver);;
    act (AddObserver ConfigSpecChannel DeltasStoreObserver);;
    mret (Some (interval, keep)).

Definition idlist_sync_keys_from_env : result string (option (list string)) :=
  match sys_env sur IDLIST_SYNC_KEYS_ENV with
  | WorkerCore.NotPresent => Ok None
  | WorkerCore.NotUnicode error => Err ("failed reading " +:+ IDLIST_SYNC_KEYS_ENV +:+ ": " +:+ error)
  | WorkerCore.EnvOk raw => Some <$> idlist_sync_keys_from_json (json_keys sur raw)
  end.

(** The pool and the lock of synchronization: without a pool it stays off. *)
Definition create_idlist_pool : boot bool :=
  match cli_cache cli with
  | CacheRedis => pool ← create_redis_pool_from_env IdListPool; mret match pool with Ok _ => true | Err _ => false end
  | CacheDisabled => mret false
  end.

(** The enrichment endpoint needs Redis and its own settings. *)
Definition create_user_enrichment (features : bool) : boot bool :=
  if negb features then mret false
  else if bool_decide (cli_cache cli <> CacheRedis)
  then stop (Refused "SFP_IDLIST_SYNC_KEYS_JSON requires Redis cache mode")
  else
    endpoint ← lift Refused (enrichment_config_from_env (sys_env sur));
    membership ← lift Refused (membership_config_from_env (sys_env sur));
    read_pool ← create_idlist_read_pool_from_env;
    _ ← lift Refused read_pool;
    act (InitializeEnrichment endpoint membership);;
    mret true.

Definition prepare_sync (idlist_pool : bool) (server_keys : option (list string)) : boot (option (list string)) :=
  match server_keys with
  | Some keys =>
      if idlist_pool then act (AddObserver IdListChannel (ManifestObserver keys));; mret (Some keys)
      else mret None
  | None => mret None
  end.

Definition start_runtime : boot unit :=
  let threads := default (default 1%N (available_parallelism sur)) (tokio_worker_threads_background overrides) in
  if bool_decide (threads = 0%N) then stop (Refused "TOKIO_WORKER_THREADS_BACKGROUND must be greater than 0")
  else _ ← lift Refused (build_runtime sur); act (BuildRuntime threads).

Definition start_worker (features idlist_pool : bool) : boot unit :=
  when (features && idlist_pool)
    (config ← lift Refused (worker_config_from_env (sys_env sur));
     _ ← lift Refused (build_worker_client sur);
     act (SpawnWorker config)).

Definition sync_interval_from_env : N :=
  parse_sync_interval match sys_env sur "IDLIST_SYNC_INTERVAL_IN_S" with WorkerCore.EnvOk v => Some v | _ => None end.

Definition start_producer (sync : option (list string)) : boot unit :=
  match sync with
  | Some keys =>
      act (RegisterKeys keys);;
      reverse ← lift Refused (reverse_index_enabled_from_env (sys_env sur));
      act (SpawnProducer sync_interval_from_env reverse)
  | None => mret tt
  end.

(** With both servers the errors of either are dropped. *)
Definition start_servers (enrichment : bool) : boot unit :=
  match cli_mode cli with
  | GrpcOnly => act ServeGrpc;; lift ServerFailed (serve_grpc sur)
  | HttpOnly => act (ServeHttp enrichment);; lift ServerFailed (serve_http sur)
  | GrpcAndHttp => act ServeGrpc;; act (ServeHttp enrichment)
  end.

(** Everything before the work is started: with ID lists or not, the pool of ID lists, the
    enrichment endpoint, the keys to synchronize, the deltas. *)
Definition main_setup : boot (bool * bool * bool * option (list string) * option (N * N)) :=
  _ ← lift (fun e => Refused ("[SFP] Failed to install SDK key redacting logger: " +:+ e)) (install_logger sur);
  act InstallRedactingLogger;;
  try_initialize_statsig_sdk_and_profiling;;
  add_event_observers;;
  create_cache ConfigSpecCachePool;;
  create_cache IdListCachePool;;
  server_keys ← lift Refused idlist_sync_keys_from_env;
  let features := bool_decide (is_Some server_keys) in
  idlist_pool ← create_idlist_pool;
  enrichment ← create_user_enrichment features;
  when features (act (AddObserver ConfigSpecChannel CompanyIdsObserver));;
  create_config_spec_store;;
  create_id_list_store;;
  create_id_list_file_store;;
  when (id_list_file_refresh_observer_enabled cli) (act (AddObserver IdListChannel FileRefreshObserver));;
  sync ← prepare_sync idlist_pool server_keys;
  deltas ← maybe_create_deltas_store;
  start_runtime;;
  mret (features, idlist_pool, enrichment, sync, deltas).

(** Everything after. *)
Definition main_run (wired : bool * bool * bool * option (list string) * option (N * N)) : boot unit :=
  let '(features, idlist_pool, enrichment, sync, deltas) := wired in
  start_worker features idlist_pool;;
  act (StartPolling MainPoller (polling_interval_in_s cli) (warmup_items sur));;
  match deltas with Some (interval, _) => act (StartPolling DeltasPoller interval None) | None => mret tt end;;
  when features (act SpawnDiscovery);;
  start_producer sync;;
  _ ← lift (fun _ => Panicked "We must have an http client") (build_log_client sur);
  nginx ← lift (fun _ => Panicked "Failed to load configuration") (nginx_config sur);
  act (StartNginxMonitor nginx);;
  when (bool_decide (0 < config_spec_current_lcut_sampling_interval_in_s cli)%N)
    (act (StartLcutMonitoring (config_spec_current_lcut_sampling_interval_in_s cli)));;
  start_servers enrichment;;
  act CancelTasks.

Definition main : boot unit := wired ← main_setup; main_run wired.
End Main.

(** ** Reasoning about a start *)

Lemma boot_bind_Ok {A B} (m : boot A) (k : A -> boot B) t b t' :
  (m ≫= k) t = (Ok b, t') <-> exists a t1, m t = (Ok a, t1) /\ k a t1 = (Ok b, t').
Proof.
  unfold mbind, boot_bind. destruct (m t) as [[a|e] t1].
  - split; [eauto|]. by intros (? & ? & [= <- <-] & ?).
  - split; [done|]. by intros (? & ? & ? & ?).
Qed.
Lemma boot_bind_Err {A B} (m : boot A) (k : A -> boot B) t e t' :
  (m ≫= k) t = (Err e, t') <-> m t = (Err e, t') \/ exists a t1, m t = (Ok a, t1) /\ k a t1 = (Err e, t').
Proof.
  unfold mbind, boot_bind. destruct (m t) as [[a|e0] t1].
  - split; [eauto|]. by intros [?|(? & ? & [= <- <-] & ?)].
  - split; [left; congruence|]. intros [?|(? & ? & ? & ?)]; congruence.
Qed.
Lemma act_inv a t r t' : act a t = (r, t') -> r = Ok tt /\ t' = t ++ [a].
Proof. by intros [= <- <-]. Qed.
Lemma lift_Ok {A} f (r : result string A) t a t' : lift f r t = (Ok a, t') <-> r = Ok a /\ t' = t.
Proof. unfold lift, map_err. destruct r; naive_solver. Qed.
Lemma lift_Err {A} f (r : result string A) t e t' : lift f r t = (Err e, t') <-> t' = t /\ exists s, r = Err s /\ e = f s.
Proof. unfold lift, map_err. destruct r; naive_solver. Qed.

(** Whatever becomes of [m], it only adds actions with [P]. *)
Definition emits {A} (P : boot_action -> Prop) (m : boot A) : Prop :=
  forall t, exists l, (m t).2 = t ++ l /\ Forall P l.

Lemma emits_ret {A} P (a : A) : emits P (mret a).
Proof. intros t. exists []. by rewrite app_nil_r. Qed.
Lemma emits_act P a : P a -> emits P (act a).
Proof. intros Ha t. exists [a]. split; [done|by constructor]. Qed.
Lemma emits_lift {A} P f (r : result string A) : emits P (lift f r).
Proof. intros t. exists []. by rewrite app_nil_r. Qed.
Lemma emits_stop {A} P e : emits P (stop (A := A) e).
Proof. intros t. exists []. by rewrite app_nil_r. Qed.
Lemma emits_bind {A B} P (m : boot A) (k : A -> boot B) : emits P m -> (forall a, emits P (k a)) -> emits P (m ≫= k).
Proof.
  intros Hm Hk t. unfold mbind, boot_bind. destruct (Hm t) as (l & Hl & HP). destruct (m t) as [[a|e] t1]; cbn in Hl; subst t1; [|eauto].
  destruct (Hk a (t ++ l)) as (l' & -> & HP'). exists (l ++ l'). rewrite app_assoc. split; [done|by apply Forall_app].
Qed.
Lemma emits_when P b m : emits P m -> emits P (when b m).
Proof. destruct b; [done|]. intros _. apply emits_ret. Qed.
Lemma emits_when_true P b m : (b = true -> emits P m) -> emits P (when b m).
Proof. destruct b; [by auto|]. intros _. apply emits_ret. Qed.
Lemma emits_lift_bind {A B} P f (r : result string A) (k : A -> boot B) :
  (forall a, r = Ok a -> emits P (k a)) -> emits P (lift f r ≫= k).
Proof.
  intros Hk t. unfold mbind, boot_bind, lift. destruct r as [a|e]; cbn [map_err]; [by apply Hk|]. exists []. by rewrite app_nil_r.
Qed.
Lemma emits_mono {A} (P Q : boot_action -> Prop) (m : boot A) : emits P m -> (forall a, P a -> Q a) -> emits Q m.
Proof. intros Hm HPQ t. destruct (Hm t) as (l & Hl & HP). exists l. split; [done|]. by eapply Forall_impl. Qed.

(** Breaks a start into its steps. *)
Ltac emits_tac := repeat first [apply emits_bind; [|intros ?] | apply emits_when | apply emits_act; done | apply emits_ret | apply emits_lift
  | apply emits_stop | progress cbn beta iota | case_match].

(** *** What runs *)

(** The tasks a start leaves running, but for those inside the libraries it initializes. *)
Inductive running_task :=
| EventLoop | BatchLoop | MinuteLoop | TokenRefreshLoop
| WorkerLoop | PollLoop (p : poller) | DiscoveryLoop | ProducerLoop | NginxLoop | LcutLoop
| GrpcServer | HttpServer.
#[export] Instance poller_eq : EqDecision poller.
Proof. solve_decision. Defined.
#[export] Instance running_task_eq : EqDecision running_task.
Proof. solve_decision. Defined.

(** [StatsLogger::new] and [ProxyEventObserver::add_observer] spawn loops of their own. *)
Definition spawned (a : boot_action) : list running_task :=
  match a with
  | AddStatsLogger _ => [BatchLoop; MinuteLoop; EventLoop]
  | AddDebugLogger => [EventLoop]
  | SpawnTokenRefresh => [TokenRefreshLoop]
  | SpawnWorker _ => [WorkerLoop]
  | StartPolling p _ _ => [PollLoop p]
  | SpawnDiscovery => [DiscoveryLoop]
  | SpawnProducer _ _ => [ProducerLoop]
  | StartNginxMonitor _ => [NginxLoop]
  | StartLcutMonitoring _ => [LcutLoop]
  | ServeGrpc => [GrpcServer]
  | ServeHttp _ => [HttpServer]
  | InstallRedactingLogger | InitializeStatsig _ | SetStatsigUser _ | BuildCache _ _ | AddRequestBuilder _ _
  | AddObserver _ _ | InitializeEnrichment _ _ | BuildRuntime _ | RegisterKeys _ | CancelTasks => []
  end.

(** The work of the proxy: fetching, synchronizing, monitoring, serving. The loops of the
    loggers and the refresh of the Redis token are not work; they only attend to it. *)
Definition is_work (a : boot_action) : bool :=
  match a with
  | SpawnWorker _ | StartPolling _ _ _ | SpawnDiscovery | RegisterKeys _ | SpawnProducer _ _ | StartNginxMonitor _
  | StartLcutMonitoring _ | ServeGrpc | ServeHttp _ | CancelTasks => true
  | _ => false
  end.
Definition is_wiring (a : boot_action) : bool := match a with AddRequestBuilder _ _ | AddObserver _ _ => true | _ => false end.

(** What may run although nothing works yet: the loops of the loggers that are on, and the
    refresh of the token when Redis is used with OAuth. *)
Definition attends (cli : Cli) (sur : surroundings) (t : running_task) : Prop :=
  match t with
  | BatchLoop | MinuteLoop => datadog_logging cli || statsd_logging cli || statsig_logging cli || otlp_logging cli = true
  | EventLoop => datadog_logging cli || statsd_logging cli || statsig_logging cli || otlp_logging cli || debug_logging cli = true
  | TokenRefreshLoop =>
      exists config, redis_env sur = Ok config /\ parse_auth_mode (redis_auth_mode config) = Ok OauthMode
  | _ => False
  end.
(** Not work, and everything it starts only attends. *)
Definition prepares (cli : Cli) (sur : surroundings) (a : boot_action) : Prop :=
  is_work a = false /\ Forall (attends cli sur) (spawned a).

Section Proofs.
Context `{TokenClient} `{PoolLib}.
Context (cli : Cli) (overrides : ConfigurationAndOverrides) (sur : surroundings).

(** Only a pool of OAuth mode starts a refresh. *)
Lemma pool_starts_loop config timeout address now rounds w pool w' :
  create_redis_pool_at config timeout address now rounds w = (pool, w') -> w_loops w < w_loops w' ->
  parse_auth_mode (redis_auth_mode config) = Ok OauthMode.
Proof.
  unfold create_redis_pool_at. destruct (parse_auth_mode (redis_auth_mode config)) as [[|]|e]; cbn [map_err]; [|done|].
  - destruct (pool_address config address) as [addr|e]; [|intros [= _ <-]; lia].
    cbn [pool_auth_of]. destruct (resolve_redis_auth _ _) as [user password].
    destruct (pool_build _); intros [= _ <-]; lia.
  - intros [= _ <-]. lia.
Qed.

(** What a pool does to the record of a start. *)
Lemma open_pool_emits (P : boot_action -> Prop) u config address :
  (parse_auth_mode (redis_auth_mode config) = Ok OauthMode -> P SpawnTokenRefresh) ->
  emits P (open_pool cli sur u config address).
Proof.
  intros HP. unfold open_pool. destruct (pool_moment sur u) as [[now rounds] w].
  destruct (create_redis_pool_at _ _ _ _ _ _) as [pool w'] eqn:Ep. apply emits_bind.
  - case_bool_decide as Hl; [|apply emits_ret]. apply emits_act, HP. by eapply pool_starts_loop.
  - intros _. destruct pool; [apply emits_ret|apply emits_stop].
Qed.
Lemma open_pool_emits_any (P : boot_action -> Prop) u config address : P SpawnTokenRefresh -> emits P (open_pool cli sur u config address).
Proof. intros HP. by apply open_pool_emits. Qed.

Lemma prepares_plain a : is_work a = false -> spawned a = [] -> prepares cli sur a.
Proof. intros Ha Hs. split; [done|]. rewrite Hs. constructor. Qed.
Lemma open_pool_prepares u config config' address :
  redis_env sur = Ok config -> redis_auth_mode config' = redis_auth_mode config ->
  emits (prepares cli sur) (open_pool cli sur u config' address).
Proof.
  intros He Hmode. apply open_pool_emits. rewrite Hmode. intros Ho. split; [done|]. constructor; [by exists config|constructor].
Qed.
Lemma create_cache_emits u : emits (prepares cli sur) (create_cache cli sur u).
Proof.
  unfold create_cache. destruct (cli_cache cli); [by apply emits_act, prepares_plain|].
  apply emits_lift_bind. intros config He. apply emits_bind; [by eapply open_pool_prepares|]. intros pool.
  destruct (redis_cache_new _ _ _ _ _ _ _); [by apply emits_act, prepares_plain|apply emits_stop].
Qed.
Lemma create_idlist_pool_emits : emits (prepares cli sur) (create_idlist_pool cli sur).
Proof.
  unfold create_idlist_pool, create_redis_pool_from_env. destruct (cli_cache cli); [apply emits_ret|].
  apply emits_bind; [|intros ?; apply emits_ret]. destruct (redis_env sur) as [config|e] eqn:He; [|apply emits_ret].
  apply emits_bind; [by eapply open_pool_prepares|]. intros pool. apply emits_ret.
Qed.
Lemma read_pool_emits : emits (prepares cli sur) (create_idlist_read_pool_from_env cli sur).
Proof.
  unfold create_idlist_read_pool_from_env. destruct (membership_config_from_env _); [|apply emits_ret].
  destruct (redis_env sur) as [config|e] eqn:He; [|apply emits_ret].
  destruct (match read_uri _ with Some _ => _ | None => _ end); [|apply emits_ret].
  apply emits_bind; [by eapply open_pool_prepares|]. intros pool. apply emits_ret.
Qed.
Lemma event_observers_emit : emits (prepares cli sur) (add_event_observers cli).
Proof.
  unfold add_event_observers. apply emits_bind; [|intros _]; apply emits_when_true; intros Hon; apply emits_act; (split; [done|]);
    repeat constructor; cbn [attends]; by rewrite Hon, ?orb_true_r.
Qed.

Lemma setup_emits : emits (prepares cli sur) (main_setup cli overrides sur).
Proof.
  unfold main_setup, try_initialize_statsig_sdk_and_profiling, create_user_enrichment, create_config_spec_store,
    create_id_list_store, create_id_list_file_store, prepare_sync, maybe_create_deltas_store, start_runtime.
  repeat first [apply create_cache_emits | apply create_idlist_pool_emits | apply read_pool_emits | apply event_observers_emit
    | apply emits_bind; [|intros ?] | apply emits_when | apply emits_act; by apply prepares_plain | apply emits_ret | apply emits_lift
    | apply emits_stop | progress cbn beta iota | case_match].
Qed.
Lemma run_emits wired : emits (fun a => is_wiring a = false) (main_run cli sur wired).
Proof.
  destruct wired as [[[[features pool] enrichment] sync] deltas]. unfold main_run, start_worker, start_producer, start_servers. emits_tac.
Qed.

(** *** What a successful setup knows *)

Lemma enrichment_checks features t b t' :
  create_user_enrichment cli sur features t = (Ok b, t') ->
  b = features /\ (features = true -> exists reverse, reverse_index_enabled_from_env (sys_env sur) = Ok reverse).
Proof.
  unfold create_user_enrichment. destruct features; cbn [negb]; [|by intros [= <- <-]]. case_bool_decide; [done|].
  intros (endpoint & t1 & _ & (membership & t2 & [Hm _]%lift_Ok & (? & t3 & _ & (? & t4 & _ & (? & t5 & _ & [= <- _])%boot_bind_Ok)%boot_bind_Ok)%boot_bind_Ok)%boot_bind_Ok)%boot_bind_Ok.
  split; [done|]. intros _. unfold membership_config_from_env in Hm.
  destruct (match sys_env sur "IDLIST_REDIS_READ_URI" with WorkerCore.EnvOk _ => _ | _ => _ end); [|done]. cbn in Hm.
  destruct (reverse_index_enabled_from_env (sys_env sur)) as [reverse|]; [eauto|done].
Qed.

Lemma prepare_sync_keys pool server_keys t sync t' :
  prepare_sync pool server_keys t = (Ok sync, t') -> is_Some sync -> is_Some server_keys.
Proof. unfold prepare_sync. destruct server_keys; [done|]. by intros [= <- <-]. Qed.

Lemma setup_checks t features pool enrichment sync deltas t' :
  main_setup cli overrides sur t = (Ok (features, pool, enrichment, sync, deltas), t') ->
  enrichment = features /\ (is_Some sync -> features = true) /\
  (features = true -> exists reverse, reverse_index_enabled_from_env (sys_env sur) = Ok reverse).
Proof.
  unfold main_setup. intros (? & ? & _ & Hm)%boot_bind_Ok. do 5 apply boot_bind_Ok in Hm as (? & ? & _ & Hm).
  apply boot_bind_Ok in Hm as (server_keys & ? & _ & Hm). apply boot_bind_Ok in Hm as (pool' & ? & _ & Hm).
  apply boot_bind_Ok in Hm as (b & ? & He & Hm).
  apply enrichment_checks in He as [-> Hrev]. do 5 apply boot_bind_Ok in Hm as (? & ? & _ & Hm).
  apply boot_bind_Ok in Hm as (sync' & ? & Hs & Hm). do 2 apply boot_bind_Ok in Hm as (? & ? & _ & Hm).
  injection Hm as <- _ <- <- <- _. split; [done|]. split; [|done]. intros Hsome. apply bool_decide_eq_true. by eapply prepare_sync_keys.
Qed.

(** *** Refusals *)

Lemma worker_refuses features pool t e t' : start_worker sur features pool t = (Err e, t') -> t' = t.
Proof.
  unfold start_worker. destruct (features && pool); [|done]. cbn [when].
  intros [[-> _]%lift_Err|(? & ? & [_ ->]%lift_Ok & [[-> _]%lift_Err|(? & ? & _ & Ha)]%boot_bind_Err)]%boot_bind_Err; [done|done|].
  by apply act_inv in Ha as [? _].
Qed.

Lemma act_never_fails a t e t' : act a t <> (Err e, t').
Proof. by intros [? _]%act_inv. Qed.
Lemma when_act_never_fails b a t e t' : when b (act a) t <> (Err e, t').
Proof. destruct b; [apply act_never_fails|done]. Qed.

(** After the worker, a task is only refused for the setting of the reverse index. *)
Lemma run_refuses features pool enrichment sync deltas t msg t' :
  (is_Some sync -> exists reverse, reverse_index_enabled_from_env (sys_env sur) = Ok reverse) ->
  main_run cli sur (features, pool, enrichment, sync, deltas) t = (Err (Refused msg), t') -> t' = t.
Proof.
  intros Hrev. unfold main_run. intros [Hw|(? & ? & _ & Hm)]%boot_bind_Err; [by eapply worker_refuses|].
  apply boot_bind_Err in Hm as [?%act_never_fails|(? & ? & _ & Hm)]; [done|].
  apply boot_bind_Err in Hm as [Hd|(? & ? & _ & Hm)]; [by destruct deltas as [[]|]; [apply act_never_fails in Hd|]|].
  apply boot_bind_Err in Hm as [?%when_act_never_fails|(? & ? & _ & Hm)]; [done|].
  apply boot_bind_Err in Hm as [Hp|(? & ? & _ & Hm)].
  { unfold start_producer in Hp. destruct sync as [keys|]; [|done]. destruct Hrev as [reverse Hr]; [eauto|].
    apply boot_bind_Err in Hp as [?%act_never_fails|(? & ? & _ & Hp)]; [done|].
    apply boot_bind_Err in Hp as [[_ (? & He & _)]%lift_Err|(? & ? & _ & ?%act_never_fails)]; [congruence|done]. }
  apply boot_bind_Err in Hm as [[_ (? & _ & ?)]%lift_Err|(? & ? & _ & Hm)]; [done|].
  apply boot_bind_Err in Hm as [[_ (? & _ & ?)]%lift_Err|(? & ? & _ & Hm)]; [done|].
  apply boot_bind_Err in Hm as [?%act_never_fails|(? & ? & _ & Hm)]; [done|].
  apply boot_bind_Err in Hm as [?%when_act_never_fails|(? & ? & _ & Hm)]; [done|].
  apply boot_bind_Err in Hm as [Hs|(? & ? & _ & ?%act_never_fails)]; [|done]. unfold start_servers in Hs.
  destruct (cli_mode cli); apply boot_bind_Err in Hs as [?%act_never_fails|(? & ? & _ & Hs)]; try done.
  - by apply lift_Err in Hs as [_ (? & _ & ?)].
  - by apply lift_Err in Hs as [_ (? & _ & ?)].
Qed.
End Proofs.

Module StartupExample.
(** A process with everything on, its environment and its libraries. *)
Definition cli : Cli := {|
  cli_mode := GrpcAndHttp; cli_cache := CacheRedis; double_write_cache_for_legacy_key := false; datadog_logging := false;
  statsd_logging := true; otlp_logging := false; statsig_logging := false; statsig_logging_tags := None; debug_logging := true;
  maximum_concurrent_sdk_keys := 1000; polling_interval_in_s := 10; config_spec_current_lcut_sampling_interval_in_s := 60;
  cli_max_in_flight := 30; background_poll_item_spacing_ms := 0; redis_connection_timeout_in_s := 5; redis_leader_key_ttl := 70;
  redis_cache_ttl_in_s := 86400; log_event_process_queue_size := 20000; force_gcp_profiling_enabled := false;
  grpc_max_concurrent_streams := 500; grpc_ready_endpoint_percentage_of_total_streams_threshold := 90;
  cli_clear_datastore_on_unauthorized := false; x509_server_cert_path := Some "server.crt"; x509_server_key_path := Some "server.key";
  x509_client_cert_path := Some "ca.crt"; enforce_tls := true; enforce_mtls := true; http_connection_pool_max_idle_per_host := 10;
  http_connection_pool_idle_timeout_in_s := 90; http_request_timeout_in_s := 60; http_read_timeout_in_s := 30;
  http_connect_timeout_in_s := 5; deltas_background_loop_enabled := true; id_list_file_refresh_observer_enabled := true;
  deltas_background_loop_sleep_time_in_s := None; deltas_num_responses_to_persist := None;
|}.
Definition overrides : ConfigurationAndOverrides := {|
  statsig_endpoint := None; statsig_endpoint_deltas := None; statsig_endpoint_download_id_list_file := None;
  enable_blob_storage_for_download_config_specs := None; dcs_blob_storage_connection_string := None;
  dcs_blob_storage_company_id := None; statsig_server_sdk_key := None; log_event_statsig_endpoint := None;
  log_event_dedupe_cache_limit := None; tokio_worker_threads_background := Some 4%N;
|}.
Definition env (lock_ttl : string) (name : string) : WorkerCore.env_var :=
  if bool_decide (name = IDLIST_SYNC_KEYS_ENV) then WorkerCore.EnvOk "keys"
  else if bool_decide (name = "IDLIST_LOCK_TTL_IN_S") then WorkerCore.EnvOk lock_ttl
  else WorkerCore.NotPresent.
(** The first pool asks for a token, the others find it. *)
Definition moment (u : pool_use) : N * list round * oauth_world :=
  (Examples.start, Examples.rounds, match u with ConfigSpecCachePool => no_world | _ => two_pools end).
(** Synchronization is on, with a Redis that takes tokens; the worker's lock lives for the given time. *)
Definition sur (lock_ttl : string) : surroundings := {|
  sys_env := env lock_ttl; warmup_items := None; install_logger := Ok tt; statsig_initialize := fun _ => None;
  json_keys := fun _ => Ok ["secret-key"]; blob_generator := fun _ => Err "no blob storage"; cache_uuid := "pod-1";
  redis_env := Ok (Deployment.env "oauth" (Some "tenant")); pool_moment := moment; available_parallelism := None; build_runtime := Ok tt; build_worker_client := Ok tt;
  build_log_client := Ok tt; nginx_config := Err "PROXY_CACHE_MAX_SIZE_IN_MB is not set"; serve_grpc := Ok tt; serve_http := Ok tt;
|}.
End StartupExample.

#[local] Existing Instances Examples.client Deployment.pool_lib.

(** C15: A start that is refused for its settings has not begun to work: when [main] returns an
    error other than one of a server, no worker, poller, discovery, producer or monitor was
    spawned, no key was registered and no server started, not even when the setting is
    only read late. All it can have left running are the loops of the loggers that are
    on, and the refresh of the Redis token when Redis is used with OAuth. What can still
    fail afterwards is a panic over the log client or the nginx settings, or a server itself. *)
Theorem refused_start_does_no_work `{TokenClient} `{PoolLib} cli overrides sur msg trace :
  main cli overrides sur [] = (Err (Refused msg), trace) ->
  Forall (fun a => is_work a = false) trace /\ Forall (attends cli sur) (trace ≫= spawned).
Proof.
  intros Hmain. assert (Forall (prepares cli sur) trace) as Hall.
  { apply boot_bind_Err in Hmain as [Hs|([[[[features pool] enrichment] sync] deltas] & t1 & Hs & Hr)];
      destruct (setup_emits cli overrides sur []) as (l & Hl & Hall); rewrite Hs in Hl; cbn in Hl; subst; [done|].
    destruct (setup_checks _ _ _ _ _ _ _ _ _ _ Hs) as (_ & Hf & Hrev). apply run_refuses in Hr as ->; [done|].
    intros Hsome. by apply Hrev, Hf. }
  split; [eapply Forall_impl; [exact Hall|by intros a [? _]]|]. apply Forall_bind. eapply Forall_impl; [exact Hall|by intros a [_ ?]].
Qed.
Lemma refused_start_does_no_work_witness :
  exists msg trace, main StartupExample.cli StartupExample.overrides (StartupExample.sur "2") [] = (Err (Refused msg), trace) /\
    (trace ≫= spawned) = [BatchLoop; MinuteLoop; EventLoop; EventLoop; TokenRefreshLoop] /\
    Forall (fun a => is_work a = false) trace.
Proof.
  eexists _, _. split; [vm_compute; reflexivity|]. split; [vm_compute; reflexivity|].
  apply (refused_start_does_no_work StartupExample.cli StartupExample.overrides (StartupExample.sur "2")
    "IDLIST worker sizes/intervals must be positive and lock TTL must be >= 3s"). vm_compute. reflexivity.
Defined.

(** ** What is wired *)

(** The builder of each path, as registered. *)
Definition wired_builders (trace : list boot_action) : gmap NormalizedPath request_builder :=
  foldl (fun bs a => match a with AddRequestBuilder p b => <[p := b]> bs | _ => bs end) ∅ trace.
(** The observers of a channel, in the order they were added. *)
Definition wired_observers (c : channel) (trace : list boot_action) : list observer_kind :=
  omap (fun a => match a with AddObserver c' o => if bool_decide (c' = c) then Some o else None | _ => None end) trace.
(** The channel that fetches of a path report to. *)
Definition channel_of (p : NormalizedPath) : option channel :=
  match p with
  | V1DownloadConfigSpecs | V2DownloadConfigSpecs => Some ConfigSpecChannel
  | V1GetIdLists => Some IdListChannel
  | V1DownloadIdListFile => Some IdListFileChannel
  | V2DownloadConfigSpecsDeltas => Some DeltasChannel
  | _ => None
  end.

Definition wirings (trace : list boot_action) : list boot_action := filter (fun a => is_wiring a = true) trace.

Lemma wired_builders_wirings trace : wired_builders trace = wired_builders (wirings trace).
Proof.
  unfold wired_builders, wirings. generalize (∅ : gmap NormalizedPath request_builder).
  induction trace as [|a trace IH]; intros bs; [done|]. cbn [foldl]. rewrite filter_cons. case_decide as Ha; [apply IH|].
  rewrite IH. by destruct a.
Qed.
Lemma wired_observers_wirings c trace : wired_observers c trace = wired_observers c (wirings trace).
Proof.
  unfold wired_observers, wirings. induction trace as [|a trace IH]; [done|]. rewrite filter_cons.
  case_decide as Ha; cbn [omap list_omap]; rewrite IH; [done|]. by destruct a.
Qed.
Lemma wirings_app a b : wirings (a ++ b) = wirings a ++ wirings b.
Proof. apply filter_app. Qed.
Lemma wirings_none l : Forall (fun a => is_wiring a = false) l -> wirings l = [].
Proof. induction 1 as [|a l Ha _ IH]; [done|]. unfold wirings in *. by rewrite filter_cons_False by congruence. Qed.

(** A step that wires nothing. *)
Lemma emits_wirings {A} (m : boot A) t : emits (fun a => is_wiring a = false) m -> wirings (m t).2 = wirings t.
Proof. intros Hm. destruct (Hm t) as (l & -> & Hl). by rewrite wirings_app, (wirings_none l), app_nil_r. Qed.

Section Wiring.
Context `{TokenClient} `{PoolLib}.
Context (cli : Cli) (overrides : ConfigurationAndOverrides) (sur : surroundings).

Definition config_spec_builder : request_builder :=
  BDcs {| dcs_base_url := default CDN (statsig_endpoint overrides); dcs_blob_config := create_dcs_blob_config overrides sur |}.
Definition id_list_builder : request_builder :=
  BIdlist {| idl_base_url := default CDN (statsig_endpoint overrides); last_request_by_key := ∅; last_response_hash := ∅ |}.
Definition file_builder : request_builder := BFile {| file_base_url := resolve_download_id_list_file_base_url overrides |}.
Definition deltas_builder : request_builder :=
  BDcs {| dcs_base_url := default CDN (statsig_endpoint_deltas overrides); dcs_blob_config := None |}.

(** The wiring of a start, in its order. *)
Definition wiring_of (features : bool) (sync : option (list string)) : list boot_action :=
  (if features then [AddObserver ConfigSpecChannel CompanyIdsObserver] else [])
  ++ [AddRequestBuilder V1DownloadConfigSpecs config_spec_builder; AddRequestBuilder V2DownloadConfigSpecs config_spec_builder;
      AddObserver ConfigSpecChannel SdkKeyStoreObserver; AddObserver ConfigSpecChannel ConfigSpecStoreObserver;
      AddObserver ConfigSpecChannel CacheObserver;
      AddRequestBuilder V1GetIdLists id_list_builder;
      AddObserver IdListChannel SdkKeyStoreObserver; AddObserver IdListChannel IdListStoreObserver; AddObserver IdListChannel CacheObserver;
      AddRequestBuilder V1DownloadIdListFile file_builder; AddObserver IdListFileChannel IdListFileStoreObserver]
  ++ (if id_list_file_refresh_observer_enabled cli then [AddObserver IdListChannel FileRefreshObserver] else [])
  ++ match sync with Some keys => [AddObserver IdListChannel (ManifestObserver keys)] | None => [] end
  ++ (if deltas_background_loop_enabled cli
      then [AddRequestBuilder V2DownloadConfigSpecsDeltas deltas_builder; AddObserver DeltasChannel DeltasStoreObserver;
            AddObserver ConfigSpecChannel DeltasStoreObserver]
      else []).

(** [m] succeeds with its wiring and nothing else of it. *)
Lemma step_wirings {A} (m : boot A) t r t' : emits (fun a => is_wiring a = false) m -> m t = (r, t') -> wirings t' = wirings t.
Proof. intros Hm Ht. rewrite <- (emits_wirings m t Hm). by rewrite Ht. Qed.

Lemma when_act_wirings b a t r t' : is_wiring a = true -> when b (act a) t = (r, t') -> wirings t' = wirings t ++ (if b then [a] else []).
Proof.
  intros Ha. destruct b; cbn [when]; [intros [_ ->]%act_inv|intros [= _ <-]; by rewrite app_nil_r].
  rewrite wirings_app. f_equal. unfold wirings. by rewrite filter_cons_True, filter_nil.
Qed.

(** Pools, caches and the enrichment endpoint wire nothing. *)
Lemma create_cache_no_wiring u : emits (fun a => is_wiring a = false) (create_cache cli sur u).
Proof. unfold create_cache. emits_tac. by apply open_pool_emits. Qed.
Lemma create_idlist_pool_no_wiring : emits (fun a => is_wiring a = false) (create_idlist_pool cli sur).
Proof. unfold create_idlist_pool, create_redis_pool_from_env. emits_tac. by apply open_pool_emits. Qed.
Lemma create_user_enrichment_no_wiring features : emits (fun a => is_wiring a = false) (create_user_enrichment cli sur features).
Proof. unfold create_user_enrichment, create_idlist_read_pool_from_env. emits_tac; by apply open_pool_emits. Qed.

Lemma setup_wirings t features pool enrichment sync deltas t' :
  main_setup cli overrides sur t = (Ok (features, pool, enrichment, sync, deltas), t') -> wirings t' = wirings t ++ wiring_of features sync.
Proof.
  unfold main_setup. intros (? & t1 & H1 & Hm)%boot_bind_Ok. apply step_wirings in H1; [|emits_tac].
  apply boot_bind_Ok in Hm as (? & t2 & H2 & Hm). apply step_wirings in H2; [|emits_tac].
  apply boot_bind_Ok in Hm as (? & t3 & H3 & Hm). apply step_wirings in H3; [|unfold try_initialize_statsig_sdk_and_profiling; emits_tac].
  apply boot_bind_Ok in Hm as (? & t4 & H4 & Hm). apply step_wirings in H4; [|unfold add_event_observers; emits_tac].
  apply boot_bind_Ok in Hm as (? & t4a & H4a & Hm). apply step_wirings in H4a; [|apply create_cache_no_wiring].
  apply boot_bind_Ok in Hm as (? & t4b & H4b & Hm). apply step_wirings in H4b; [|apply create_cache_no_wiring].
  apply boot_bind_Ok in Hm as (server_keys & t5 & H5 & Hm). apply step_wirings in H5; [|emits_tac].
  apply boot_bind_Ok in Hm as (pool' & t5a & H5a & Hm). apply step_wirings in H5a; [|apply create_idlist_pool_no_wiring].
  apply boot_bind_Ok in Hm as (? & t6 & H6 & Hm). apply step_wirings in H6; [|apply create_user_enrichment_no_wiring].
  apply boot_bind_Ok in Hm as (? & t7 & H7 & Hm). apply when_act_wirings in H7; [|done].
  apply boot_bind_Ok in Hm as ([] & t8 & H8 & Hm). injection H8 as <-.
  apply boot_bind_Ok in Hm as ([] & t9 & H9 & Hm). injection H9 as <-.
  apply boot_bind_Ok in Hm as ([] & t10 & H10 & Hm). injection H10 as <-.
  apply boot_bind_Ok in Hm as (? & t11 & H11 & Hm). apply when_act_wirings in H11; [|done].
  apply boot_bind_Ok in Hm as (sync' & t12 & H12 & Hm).
  assert (wirings t12 = wirings t11 ++ match sync' with Some keys => [AddObserver IdListChannel (ManifestObserver keys)] | None => [] end) as H12'.
  { unfold prepare_sync in H12. destruct server_keys as [keys|]; [destruct pool'|]; injection H12 as <- <-;
      rewrite ?wirings_app, ?app_nil_r; done. }
  apply boot_bind_Ok in Hm as (deltas' & t13 & H13 & Hm).
  assert (wirings t13 = wirings t12 ++ (if deltas_background_loop_enabled cli
      then [AddRequestBuilder V2DownloadConfigSpecsDeltas deltas_builder; AddObserver DeltasChannel DeltasStoreObserver;
            AddObserver ConfigSpecChannel DeltasStoreObserver] else [])) as H13'.
  { unfold maybe_create_deltas_store in H13. destruct (deltas_background_loop_enabled cli); injection H13 as <- <-;
      rewrite ?wirings_app, <- ?app_assoc, ?app_nil_r; done. }
  apply boot_bind_Ok in Hm as (? & t14 & H14 & Hm). apply step_wirings in H14; [|unfold start_runtime; emits_tac].
  injection Hm as <- _ _ <- _ <-. rewrite H14, H13', H12', H11, !wirings_app, H7, H6, H5a, H5, H4b, H4a, H4, H3, H2, H1. unfold wiring_of.
  rewrite <- !app_assoc. reflexivity.
Qed.
End Wiring.

(** *** The producer starts behind its keys *)

Definition is_producer (a : boot_action) : bool := match a with SpawnProducer _ _ => true | _ => false end.

(** Where the producer is spawned, its keys were registered just before. *)
Definition registered_before (sync : option (list string)) (l : list boot_action) : Prop :=
  forall l1 interval reverse l2, l = l1 ++ SpawnProducer interval reverse :: l2 ->
  exists keys l0, sync = Some keys /\ l1 = l0 ++ [RegisterKeys keys].

Lemma registered_before_app sync l l' :
  Forall (fun a => is_producer a = false) l -> registered_before sync l' -> registered_before sync (l ++ l').
Proof.
  intros Hl. induction Hl as [|a l Ha _ IH]; intros Hl'; [done|]. intros l1 i r l2 Heq. destruct l1 as [|b l1]; cbn in Heq.
  - injection Heq as -> _. done.
  - injection Heq as -> Heq. destruct (IH Hl' _ _ _ _ Heq) as (keys & l0 & Hs & ->). exists keys, (b :: l0). done.
Qed.
Lemma registered_before_none sync l : Forall (fun a => is_producer a = false) l -> registered_before sync l.
Proof.
  intros Hl. rewrite <- (app_nil_r l). apply registered_before_app; [done|]. intros l1 i r l2 Heq. by destruct l1.
Qed.
Lemma registered_before_snoc sync l l' :
  registered_before sync l -> Forall (fun a => is_producer a = false) l' -> registered_before sync (l ++ l').
Proof.
  intros Hl Hl' l1 i r l2 Heq. apply app_eq_app in Heq as [k [[-> Heq]|[-> Heq]]].
  - destruct k as [|a k]; cbn in Heq; [|injection Heq as <- ->; by eapply (Hl l1 i r k)].
    rewrite <- Heq in Hl'. inversion_clear Hl'. done.
  - rewrite Heq, Forall_app, Forall_cons in Hl'. destruct Hl' as (_ & ? & _). done.
Qed.

Lemma producer_registers sur sync (k : unit -> boot unit) t :
  (forall a, emits (fun a => is_producer a = false) (k a)) ->
  exists l, ((start_producer sur sync ≫= k) t).2 = t ++ l /\ registered_before sync l.
Proof.
  intros Hk. unfold start_producer. destruct sync as [keys|].
  - unfold mbind, boot_bind, act, lift. destruct (reverse_index_enabled_from_env (sys_env sur)) as [reverse|e]; cbn [map_err].
    + destruct (Hk tt ((t ++ [RegisterKeys keys]) ++ [SpawnProducer (sync_interval_from_env sur) reverse])) as (l & -> & Hl).
      exists ([RegisterKeys keys; SpawnProducer (sync_interval_from_env sur) reverse] ++ l). split; [by rewrite <- !app_assoc|].
      apply registered_before_snoc; [|done]. intros l1 i r l2 Heq.
      destruct l1 as [|a [|b l1]]; cbn in Heq; [by simplify_eq| |by destruct l1].
      injection Heq as <- _ _ _. by exists keys, [].
    + eexists. split; [done|]. apply registered_before_none. by repeat constructor.
  - unfold mbind, boot_bind, mret, boot_ret. destruct (Hk tt t) as (l & -> & Hl).
    exists l. split; [done|by apply registered_before_none].
Qed.

Lemma run_registers cli sur features pool enrichment sync deltas t :
  exists l, (main_run cli sur (features, pool, enrichment, sync, deltas) t).2 = t ++ l /\ registered_before sync l.
Proof.
  assert (forall {A} (m : boot A) k u, emits (fun a => is_producer a = false) m ->
    (forall a u, exists l, (k a u).2 = u ++ l /\ registered_before sync l) ->
    exists l, ((m ≫= k : boot unit) u).2 = u ++ l /\ registered_before sync l) as Hstep.
  { intros A m k u Hm Hk. destruct (Hm u) as (l & Hl & Hp). unfold mbind, boot_bind. destruct (m u) as [[a|e] u1]; cbn in Hl; subst u1.
    - destruct (Hk a (u ++ l)) as (l' & -> & Hr). exists (l ++ l'). rewrite app_assoc. split; [done|by apply registered_before_app].
    - exists l. split; [done|]. by apply registered_before_none. }
  unfold main_run. apply Hstep; [unfold start_worker; emits_tac|intros _ u1]. apply Hstep; [emits_tac|intros _ u2].
  apply Hstep; [emits_tac|intros _ u3]. apply Hstep; [emits_tac|intros _ u4].
  apply producer_registers. intros []. unfold start_servers. emits_tac.
Qed.

(** *** The observers the model of fetches works with *)

Section Observers.
Context `{TokenClient} `{PoolLib}.
Context `{SpecsProto} `{PayloadLib} (caches : list (Observer proxy)).

(** Observers that keep nothing the proxy serves from are left out there; those of the
    caches are a parameter. *)
Definition observer_impl (o : observer_kind) : list (Observer proxy) :=
  match o with
  | SdkKeyStoreObserver => [sdk_key_observer]
  | ConfigSpecStoreObserver => [config_spec_observer]
  | IdListStoreObserver => [id_list_observer]
  | IdListFileStoreObserver => [file_observer]
  | DeltasStoreObserver => [deltas_observer]
  | CacheObserver => caches
  | CompanyIdsObserver | FileRefreshObserver | ManifestObserver _ => []
  end.
(** Without a deltas store its observer does nothing, and is not added. *)
Definition idle_observers (cli : Cli) (p : NormalizedPath) : list (Observer proxy) :=
  if deltas_background_loop_enabled cli then []
  else match p with V1DownloadConfigSpecs | V2DownloadConfigSpecs | V2DownloadConfigSpecsDeltas => [deltas_observer] | _ => [] end.

#[local] Ltac case_bool_decides := repeat first [rewrite bool_decide_eq_true_2 by done | rewrite bool_decide_eq_false_2 by done].

(** C14: By the time anything works, everything is wired: a start that reaches the first of its
    work (a worker, poller, discovery, producer, monitor or server; the loops of the loggers
    and the refresh of the Redis token come earlier) has registered the builder of every
    path and the observers of every channel before it and registers none after; the
    observers of a path are, in order, those the stores were proved correct with; and the
    producer of ID-list tasks only starts when the manifests of its keys are observed and
    polled. *)
Theorem start_is_wired cli overrides sur r trace :
  main cli overrides sur [] = (r, trace) -> (exists a, a ∈ trace /\ is_work a = true) ->
  exists wiring tasks sync, trace = wiring ++ tasks /\
    Forall (fun a => is_work a = false) wiring /\ Forall (fun a => is_wiring a = false) tasks /\
    (forall p, get_request_builder (wired_builders wiring) p =
       match p with
       | V1DownloadConfigSpecs | V2DownloadConfigSpecs => config_spec_builder overrides sur
       | V1GetIdLists => id_list_builder overrides
       | V1DownloadIdListFile => file_builder overrides
       | V2DownloadConfigSpecsDeltas => if deltas_background_loop_enabled cli then deltas_builder overrides else BNoop
       | _ => BNoop
       end) /\
    (forall p c, channel_of p = Some c ->
       concat (observer_impl <$> wired_observers c wiring) ++ idle_observers cli p = observers_of caches p) /\
    (forall keys, sync = Some keys -> ManifestObserver keys ∈ wired_observers IdListChannel wiring) /\
    registered_before sync tasks.
Proof.
  intros Hmain (a & Ha & Htask).
  destruct (emits_mono _ (fun a => is_work a = false) _ (setup_emits cli overrides sur) ltac:(by intros b [? _]) [])
    as (wiring & Hw & Hall). unfold main in Hmain.
  unfold mbind, boot_bind in Hmain. destruct (main_setup cli overrides sur []) as [[[[[[features pool] enrichment] sync] deltas]|e] t1] eqn:Hs; cbn in Hw; subst t1.
  2: { injection Hmain as _ <-. rewrite Forall_forall in Hall. apply Hall in Ha. congruence. }
  destruct (run_registers cli sur features pool enrichment sync deltas wiring) as (tasks & Ht & Hreg).
  destruct (run_emits cli sur (features, pool, enrichment, sync, deltas) wiring) as (tasks' & Ht' & Hnw).
  rewrite Hmain in Ht, Ht'. cbn in Ht, Ht'. rewrite Ht' in Ht. apply app_inv_head in Ht as ->.
  apply setup_wirings in Hs. cbn in Hs. exists wiring, tasks, sync.
  split; [done|]. split; [done|]. split; [done|]. split; [|split; [|split; [|done]]].
  - intros p. rewrite wired_builders_wirings, Hs. unfold wiring_of, get_request_builder.
    destruct features, (id_list_file_refresh_observer_enabled cli), sync, (deltas_background_loop_enabled cli), p; reflexivity.
  - intros p c Hc. rewrite wired_observers_wirings, Hs. unfold wiring_of, idle_observers.
    destruct p; cbn in Hc; simplify_eq;
      destruct features, (id_list_file_refresh_observer_enabled cli), sync, (deltas_background_loop_enabled cli);
      cbn; case_bool_decides; cbn; rewrite ?app_nil_r, <- ?app_assoc; reflexivity.
  - intros keys ->. rewrite wired_observers_wirings, Hs. unfold wired_observers.
    rewrite list_elem_of_omap. exists (AddObserver IdListChannel (ManifestObserver keys)). split; [|by rewrite bool_decide_eq_true_2].
    unfold wiring_of. rewrite !elem_of_app, list_elem_of_singleton. auto.
Qed.
End Observers.

Lemma start_is_wired_witness :
  exists trace, (main StartupExample.cli StartupExample.overrides (StartupExample.sur "60") []).2 = trace /\
  exists wiring tasks, trace = wiring ++ tasks /\ Forall (fun a => is_work a = false) wiring /\ SpawnDiscovery ∈ tasks /\
    concat (observer_impl (H1 := SpecDeltaExample.proto) (H2 := SpecDeltaExample.payloads) [] <$> wired_observers ConfigSpecChannel wiring) =
    observers_of (H := SpecDeltaExample.proto) (H0 := SpecDeltaExample.payloads) [] V2DownloadConfigSpecs.
Proof.
  eexists. split; [reflexivity|].
  destruct (start_is_wired (H1 := SpecDeltaExample.proto) (H2 := SpecDeltaExample.payloads) [] StartupExample.cli
    StartupExample.overrides (StartupExample.sur "60") _ _ (surjective_pairing _)) as (wiring & tasks & sync & Heq & Hw & _ & _ & Hobs & _ & _).
  { exists SpawnDiscovery. split; [|done]. vm_compute. repeat (left || right). }
  exists wiring, tasks. split; [exact Heq|]. split; [exact Hw|]. split.
  - assert (SpawnDiscovery ∈ wiring ++ tasks) as [Hin|]%elem_of_app; [rewrite <- Heq; vm_compute; repeat (left || right)| |done].
    rewrite Forall_forall in Hw. by apply Hw in Hin.
  - specialize (Hobs V2DownloadConfigSpecs ConfigSpecChannel eq_refl). cbn [idle_observers] in Hobs.
    rewrite <- Hobs. symmetry. apply app_nil_r.
Defined.
