(* ===== verification/Servers.v ===== *)
(** * Servers: what listens, and what is mounted

    Models [GrpcServer::start_server] and the two servers it creates
    ([src/src/servers/grpc_server.rs]), [HttpServer::start_server] with its routes
    ([src/src/servers/http_server.rs], [http_apis/user_enrichment_api.rs]), its catcher, and
    the health checks ([http_apis/healthchecks.rs]). *)
From S2P Require Import Prelude Encoding Request Outbound Events Startup.

(** ** The gRPC listeners *)

Record ServerTlsConfig := {
  tls_cert : string;
  tls_key : string;
  client_auth_optional : bool;
  client_ca_root : option string;
}.
Record grpc_listener := {
  listen_addr : string;
  listen_tls : option ServerTlsConfig;
  listen_max_concurrent_streams : N;
  (** tonic's own limit where none is set *)
  listen_max_decoding_message_size : option N;
}.

Definition GRPC_HTTP_ADDR : string := "0.0.0.0:50051".
Definition GRPC_HTTPS_ADDR : string := "0.0.0.0:50052".

Section Listeners.
(** The files of the certificates, and whether tonic accepts a configuration. *)
Context (read_to_string : string -> result string string) (accepts_tls : ServerTlsConfig -> result string unit).

Definition server_tls_config (cli : Cli) (cert_path key_path : string) : result string ServerTlsConfig :=
  cert ← read_to_string cert_path;
  key ← read_to_string key_path;
  client_ca ← match x509_client_cert_path cli with
              | Some client_cert_path => Some <$> read_to_string client_cert_path
              | None => Ok None
              end;
  let tls := {| tls_cert := cert; tls_key := key; client_auth_optional := negb (enforce_mtls cli); client_ca_root := client_ca |} in
  _ ← accepts_tls tls;
  Ok tls.

Definition create_https_server (cli : Cli) : result string grpc_listener :=
  tls ← match x509_server_cert_path cli, x509_server_key_path cli with
        | Some cert_path, Some key_path => Some <$> server_tls_config cli cert_path key_path
        | _, _ => Ok None
        end;
  Ok {| listen_addr := GRPC_HTTPS_ADDR; listen_tls := tls; listen_max_concurrent_streams := grpc_max_concurrent_streams cli;
        listen_max_decoding_message_size := Some (20 * 1024 * 1024)%N |}.

Definition create_http_server (cli : Cli) : grpc_listener :=
  {| listen_addr := GRPC_HTTP_ADDR; listen_tls := None; listen_max_concurrent_streams := grpc_max_concurrent_streams cli;
     listen_max_decoding_message_size := None |}.

(** The listeners that stay up. Where both servers run, the first to end ends the other, and
    its error is only printed. *)
Definition grpc_start_server (cli : Cli) : result string (list grpc_listener) :=
  if bool_decide (is_Some (x509_server_cert_path cli)) && bool_decide (is_Some (x509_server_key_path cli)) then
    if enforce_tls cli then https ← create_https_server cli; Ok [https]
    else
      match create_https_server cli with
      | Ok https => Ok [https; create_http_server cli]
      | Err _ => Ok []
      end
  else Ok [create_http_server cli].
End Listeners.

(** The event the stream gauge publishes every minute. *)
Definition active_streams_event (connections : N) : ProxyEvent :=
  with_stat {| stat_operation := Gauge; stat_value := as_i64 connections |} (event_new GrpcEstimatedActiveStreams).

(** ** The routes *)

Inductive segment := Fixed (s : string) | Dynamic | DynamicTrail.
Inductive handler :=
| GetDownloadConfigSpecs | PostDownloadConfigSpecs | PostGetIdLists | GetDownloadIdListFile | PostLogEvent
| GetDownloadConfigSpecsDeltas | PostUserEnrichment | HcStartup | HcReady | HcHealth.
Record Route := { route_method : Method; route_base : string; route_segments : list segment; route_handler : handler }.

Definition handler_method (h : handler) : Method :=
  match h with
  | PostDownloadConfigSpecs | PostGetIdLists | PostLogEvent | PostUserEnrichment => Post
  | _ => Get
  end.
Definition handler_segments (h : handler) : list segment :=
  match h with
  | GetDownloadConfigSpecs => [Fixed "download_config_specs"; Dynamic]
  | PostDownloadConfigSpecs => [Fixed "download_config_specs"]
  | PostGetIdLists => [Fixed "get_id_lists"]
  | GetDownloadIdListFile => [Fixed "download_id_list_file"; DynamicTrail]
  | PostLogEvent => [Fixed "log_event"]
  | GetDownloadConfigSpecsDeltas => [Fixed "download_config_specs_deltas"; Dynamic]
  | PostUserEnrichment => [Fixed "user_enrichment"]
  | HcStartup => [Fixed "startup"]
  | HcReady => [Fixed "ready"]
  | HcHealth => [Fixed "health"]
  end.
Definition mount (base : string) (hs : list handler) : list Route :=
  (fun h => {| route_method := handler_method h; route_base := base; route_segments := handler_segments h; route_handler := h |}) <$> hs.

Definition endpoint_routes (enabled : bool) : list handler := if enabled then [PostUserEnrichment] else [].

Definition http_routes (user_enrichment_service : bool) : list Route :=
  mount "/v1" [GetDownloadConfigSpecs; PostDownloadConfigSpecs; PostGetIdLists; GetDownloadIdListFile; PostLogEvent;
               HcStartup; HcReady; HcHealth]
  ++ mount "/v2" [GetDownloadConfigSpecs; GetDownloadConfigSpecsDeltas; PostDownloadConfigSpecs]
  ++ (if user_enrichment_service then mount "/v1" (endpoint_routes true) else []).

(** ** The catcher and the health checks *)

Record DefaultResponse := { response_code : N; response_reason : string }.
Definition default_catcher (reason : N -> option string) (status : N) : DefaultResponse :=
  {| response_code := status; response_reason := default "No Reason Provided." (reason status) |}.

(** Each health check answers an empty object, whatever the process does. *)
Definition health_answer (h : handler) : option (N * string) :=
  match h with HcStartup | HcReady | HcHealth => Some (200%N, "{}") | _ => None end.

(** ** Properties *)

(** When tonic turns away a client without a certificate: it checks certificates only against a
    root of client authorities, and then lets clients without one in when they are optional. *)
Class TonicTls := {
  requires_client_certificate : ServerTlsConfig -> bool;
  requires_client_certificate_spec tls :
    requires_client_certificate tls = true <-> is_Some (client_ca_root tls) /\ client_auth_optional tls = false;
}.

(** The certificates a configuration is made of. *)
Definition tls_from `{TonicTls} (read_to_string : string -> result string string) (cli : Cli) (tls : ServerTlsConfig) : Prop :=
  (requires_client_certificate tls = true <-> enforce_mtls cli = true /\ is_Some (x509_client_cert_path cli)) /\
  (exists path, x509_server_cert_path cli = Some path /\ read_to_string path = Ok (tls_cert tls)) /\
  (exists path, x509_server_key_path cli = Some path /\ read_to_string path = Ok (tls_key tls)) /\
  match x509_client_cert_path cli with
  | Some path => exists root, client_ca_root tls = Some root /\ read_to_string path = Ok root
  | None => client_ca_root tls = None
  end.

Lemma https_listener `{TonicTls} read_to_string accepts_tls cli l :
  is_Some (x509_server_cert_path cli) -> is_Some (x509_server_key_path cli) ->
  create_https_server read_to_string accepts_tls cli = Ok l -> exists tls, listen_tls l = Some tls /\ tls_from read_to_string cli tls.
Proof.
  unfold create_https_server. intros [cert Hc] [key Hk]. rewrite Hc, Hk. unfold server_tls_config.
  destruct (read_to_string cert) as [c|] eqn:Hrc; [|done]. destruct (read_to_string key) as [k|] eqn:Hrk; [|done]. cbn.
  assert (forall tls, client_auth_optional tls = negb (enforce_mtls cli) ->
    (is_Some (client_ca_root tls) <-> is_Some (x509_client_cert_path cli)) ->
    requires_client_certificate tls = true <-> enforce_mtls cli = true /\ is_Some (x509_client_cert_path cli)) as Hreq.
  { intros tls Hopt Hroot. rewrite requires_client_certificate_spec, Hopt, Hroot. destruct (enforce_mtls cli); naive_solver. }
  unfold tls_from. destruct (x509_client_cert_path cli) as [ca|] eqn:Hca.
  - destruct (read_to_string ca) as [root|] eqn:Hroot; [|done]. cbn. destruct (accepts_tls _); [|done]. cbn.
    intros [= <-]. eexists. split; [done|]. split; [by apply Hreq|]. split_and!; cbn; eauto.
  - cbn. destruct (accepts_tls _); [|done]. cbn. intros [= <-]. eexists. split; [done|].
    split; [apply Hreq; cbn; by rewrite ?is_Some_alt|]. split_and!; cbn; eauto.
Qed.

(** C20: TLS is enforced where it can be: with a certificate and a key, enforcing TLS leaves no
    plaintext listener, whatever is in the files (an unreadable one refuses the start);
    every TLS listener uses the configured certificates. It turns away clients without a
    certificate exactly when mTLS is enforced and a client authority is configured:
    enforcing mTLS alone, without the authority, requires nothing. A plaintext listener is
    up exactly when TLS is not configured, or is configured, works and is not enforced. *)
Theorem grpc_tls_enforced `{TonicTls} read_to_string accepts_tls cli listeners :
  grpc_start_server read_to_string accepts_tls cli = Ok listeners ->
  Forall (fun l => forall tls, listen_tls l = Some tls -> tls_from read_to_string cli tls) listeners /\
  ((exists l, l ∈ listeners /\ listen_tls l = None) <->
     (x509_server_cert_path cli = None \/ x509_server_key_path cli = None \/
      (enforce_tls cli = false /\ exists https, create_https_server read_to_string accepts_tls cli = Ok https))).
Proof.
  unfold grpc_start_server. case_bool_decide as Hc; [case_bool_decide as Hk|]; cbn [andb].
  2,3: rewrite <- eq_None_not_Some in *; intros [= <-]; split; [by apply Forall_singleton|];
    split; [auto|intros _; exists (create_http_server cli); split; [by left|done]].
  destruct (create_https_server read_to_string accepts_tls cli) as [https|] eqn:Hh, (enforce_tls cli); cbn;
    intros Hl; simplify_eq/=; pose proof Hc as [? Hcert]; pose proof Hk as [? Hkey]; rewrite Hcert, Hkey;
    [destruct (https_listener _ _ _ _ Hc Hk Hh) as (tls & Htls & Hfrom)..|].
  - split; [apply Forall_singleton; naive_solver|]. setoid_rewrite list_elem_of_singleton. naive_solver.
  - split; [apply Forall_cons; split; [naive_solver|by apply Forall_singleton]|]. split; [eauto|]. intros _. exists (create_http_server cli). split; [by right; left|done].
  - split; [constructor|]. setoid_rewrite elem_of_nil. naive_solver.
Qed.

(** A server that does as documented. *)
Module ServersExample.
Definition required (tls : ServerTlsConfig) : bool :=
  match client_ca_root tls with Some _ => negb (client_auth_optional tls) | None => false end.
#[export] Instance documented : TonicTls.
Proof.
  refine {| requires_client_certificate := required |}. intros tls. unfold required.
  destruct (client_ca_root tls), (client_auth_optional tls); cbn; split; try done; try (by intros [_ ?]); try (by intros [[] _]).
Defined.
End ServersExample.
#[local] Existing Instance ServersExample.documented.

Lemma grpc_tls_enforced_witness :
  exists ls, grpc_start_server (fun p => Ok ("pem of " +:+ p)) (fun _ => Ok tt) StartupExample.cli = Ok ls /\
    ~ (exists l, l ∈ ls /\ listen_tls l = None) /\
    Forall (fun l => forall tls, listen_tls l = Some tls -> requires_client_certificate tls = true) ls.
Proof.
  eexists. split; [reflexivity|].
  destruct (grpc_tls_enforced (fun p => Ok ("pem of " +:+ p)) (fun _ => Ok tt) StartupExample.cli _ eq_refl) as [Htls Hiff].
  split; [rewrite Hiff; intros [[=]|[[=]|[[=] _]]]|].
  eapply Forall_impl; [exact Htls|]. intros l Hl tls Hs. destruct (Hl tls Hs) as [Hreq _]. apply Hreq. split; [reflexivity|by eexists].
Defined.
