(* ===== verification/EventBus.v ===== *)
(** * EventBus: the channel events travel on

    Models [src/src/observers/proxy_event_observer.rs]: publishing events, adding observers
    and the loop of each. *)
From S2P Require Import Prelude Encoding Request Events.

(** ** The channel *)

Inductive event_recv :=
| EventReceived (e : ProxyEvent)
(** so many events were overwritten before they were read *)
| EventsLagged (frames : nat)
| NoEvent.

(** [tokio::sync::broadcast] with room for several messages. *)
Class EventChannel := {
  ec_sender : Type;
  ec_receiver : Type;
  ec_channel : nat -> ec_sender;
  (** [None]: nobody listens *)
  ec_send : ProxyEvent -> ec_sender -> option ec_sender;
  ec_subscribe : ec_sender -> ec_sender * ec_receiver;
  ec_recv : ec_sender -> ec_receiver -> event_recv * ec_receiver;
}.

(** Its documentation, in terms of all events ever sent, the room for those not read, the number
    of receivers, and how many events were sent before the next one a receiver is due. *)
Class EventChannelLaws `{EventChannel} := {
  ec_log : ec_sender -> list ProxyEvent;
  ec_room : ec_sender -> nat;
  ec_receivers : ec_sender -> nat;
  ec_position : ec_receiver -> nat;
  ec_channel_new n : ec_log (ec_channel n) = [] /\ n <= ec_room (ec_channel n) /\ ec_receivers (ec_channel n) = 0;
  ec_send_nobody e s : ec_receivers s = 0 -> ec_send e s = None;
  ec_send_all e s : ec_receivers s <> 0 ->
    exists s', ec_send e s = Some s' /\ ec_log s' = ec_log s ++ [e] /\ ec_room s' = ec_room s /\ ec_receivers s' = ec_receivers s;
  ec_subscribe_new s :
    ec_log (ec_subscribe s).1 = ec_log s /\ ec_room (ec_subscribe s).1 = ec_room s /\
    ec_receivers (ec_subscribe s).1 = S (ec_receivers s) /\ ec_position (ec_subscribe s).2 = length (ec_log s);
  ec_recv_nothing s r : ec_position r = length (ec_log s) -> ec_recv s r = (NoEvent, r);
  ec_recv_next s r e : ec_log s !! ec_position r = Some e -> length (ec_log s) <= ec_position r + ec_room s ->
    exists r', ec_recv s r = (EventReceived e, r') /\ ec_position r' = S (ec_position r);
  ec_recv_lagged s r : ec_position r + ec_room s < length (ec_log s) ->
    exists r', ec_recv s r = (EventsLagged (length (ec_log s) - ec_room s - ec_position r), r') /\
      ec_position r' = length (ec_log s) - ec_room s;
}.

(** ** The observer *)

Definition DEFAULT_EVENT_CHANNEL_SIZE : nat := 1000.

Section Bus.
Context `{EventChannel}.

(** An observer with its receiver: what it was given, where it started, and what it missed. *)
Record observer_loop := { ol_receiver : ec_receiver; ol_handled : list ProxyEvent; ol_missed : nat; ol_start : ec_sender }.
Record ProxyEventObserver := { pe_sender : ec_sender; has_observers : bool; pe_loops : list observer_loop }.

Definition event_observer_new (event_channel_size : option nat) : ProxyEventObserver :=
  {| pe_sender := ec_channel (default DEFAULT_EVENT_CHANNEL_SIZE event_channel_size); has_observers := false; pe_loops := [] |}.

Definition publish_event (e : ProxyEvent) (self : ProxyEventObserver) : ProxyEventObserver :=
  if has_observers self then
    match ec_send e (pe_sender self) with
    | Some s => {| pe_sender := s; has_observers := true; pe_loops := pe_loops self |}
    | None => self
    end
  else self.

(** [add_observer] is two steps: its receiver, and the flag. *)
Definition subscribe_observer (self : ProxyEventObserver) : ProxyEventObserver :=
  let '(s, r) := ec_subscribe (pe_sender self) in
  {| pe_sender := s; has_observers := has_observers self;
     pe_loops := pe_loops self ++ [{| ol_receiver := r; ol_handled := []; ol_missed := 0; ol_start := pe_sender self |}] |}.
Definition announce_observer (self : ProxyEventObserver) : ProxyEventObserver :=
  {| pe_sender := pe_sender self; has_observers := true; pe_loops := pe_loops self |}.

(** One turn of the loop of an observer. *)
Definition loop_turn (s : ec_sender) (l : observer_loop) : observer_loop :=
  let '(received, r) := ec_recv s (ol_receiver l) in
  match received with
  | EventReceived e => {| ol_receiver := r; ol_handled := ol_handled l ++ [e]; ol_missed := ol_missed l; ol_start := ol_start l |}
  | EventsLagged frames => {| ol_receiver := r; ol_handled := ol_handled l; ol_missed := ol_missed l + frames; ol_start := ol_start l |}
  | NoEvent => {| ol_receiver := r; ol_handled := ol_handled l; ol_missed := ol_missed l; ol_start := ol_start l |}
  end.
Definition observer_turn (i : nat) (self : ProxyEventObserver) : ProxyEventObserver :=
  {| pe_sender := pe_sender self; has_observers := has_observers self;
     pe_loops := alter (loop_turn (pe_sender self)) i (pe_loops self) |}.

Inductive bus_action := Publish (e : ProxyEvent) | Subscribe | Announce | Turn (i : nat).
(** The flag is raised after a subscription. *)
Inductive bus_step (b : ProxyEventObserver) : bus_action -> ProxyEventObserver -> Prop :=
| bus_publish e : bus_step b (Publish e) (publish_event e b)
| bus_subscribe : bus_step b Subscribe (subscribe_observer b)
| bus_announce : pe_loops b <> [] -> bus_step b Announce (announce_observer b)
| bus_turn i : bus_step b (Turn i) (observer_turn i b).
Inductive bus_run : ProxyEventObserver -> list bus_action -> ProxyEventObserver -> Prop :=
| run_nil b : bus_run b [] b
| run_cons b a b' l b'' : bus_step b a b' -> bus_run b' l b'' -> bus_run b (a :: l) b''.

(** *** What it promises *)

Context `{!EventChannelLaws}.

(** The events of a run that somebody could listen to: those after the flag was raised. *)
Fixpoint audible (announced : bool) (l : list bus_action) : list ProxyEvent :=
  match l with
  | [] => []
  | Publish e :: l => if announced then e :: audible announced l else audible announced l
  | Announce :: l => audible true l
  | (Subscribe | Turn _) :: l => audible announced l
  end.

Definition loop_ok (log : list ProxyEvent) (l : observer_loop) : Prop :=
  let start := length (ec_log (ol_start l)) in
  let next := ec_position (ol_receiver l) in
  start <= next <= length log /\ ol_handled l `sublist_of` drop start (take next log) /\
  length (ol_handled l) + ol_missed l = next - start.

Record bus_ok (b : ProxyEventObserver) : Prop := {
  bo_loops : Forall (loop_ok (ec_log (pe_sender b))) (pe_loops b);
  bo_receivers : ec_receivers (pe_sender b) = length (pe_loops b);
  bo_flag : has_observers b = true -> pe_loops b <> [];
}.

Lemma drop_take_snoc (start : nat) (log : list ProxyEvent) next e :
  start <= next -> log !! next = Some e -> drop start (take (S next) log) = drop start (take next log) ++ [e].
Proof.
  intros Hle He. pose proof (lookup_lt_Some _ _ _ He). rewrite (take_S_r _ _ e) by done.
  rewrite drop_app_le; [done|]. rewrite length_take. lia.
Qed.

Lemma loop_turn_ok s l : loop_ok (ec_log s) l -> loop_ok (ec_log s) (loop_turn s l).
Proof.
  intros ([Hs Hn] & Hsub & Hcount). unfold loop_turn, loop_ok.
  destruct (decide (ec_position (ol_receiver l) = length (ec_log s))) as [Hend|Hend].
  { rewrite (ec_recv_nothing _ _ Hend). by split_and!. }
  destruct (decide (ec_position (ol_receiver l) + ec_room s < length (ec_log s))) as [Hlag|Hlag].
  - destruct (ec_recv_lagged _ _ Hlag) as (r' & -> & Hr'). cbn [ol_start ol_receiver ol_handled ol_missed]. rewrite Hr'. split_and!; [lia|lia| |lia].
    etrans; [exact Hsub|]. rewrite <- (take_drop (ec_position (ol_receiver l)) (take (length (ec_log s) - ec_room s) (ec_log s))).
    rewrite take_take, Nat.min_l by lia. rewrite drop_app_le by (rewrite length_take; lia). by apply sublist_inserts_r.
  - destruct (lookup_lt_is_Some_2 (ec_log s) (ec_position (ol_receiver l))) as [e He]; [lia|].
    destruct (ec_recv_next _ _ e He) as (r' & -> & Hr'); [lia|]. cbn [ol_start ol_receiver ol_handled ol_missed]. rewrite Hr'.
    split_and!; [lia|lia| |rewrite length_app; cbn; lia]. rewrite (drop_take_snoc _ _ _ e) by (done || lia). by apply sublist_app.
Qed.
Lemma loop_ok_snoc log e l : loop_ok log l -> loop_ok (log ++ [e]) l.
Proof.
  intros ([Hs Hn] & Hsub & Hcount). unfold loop_ok. rewrite length_app, take_app_le by lia. cbn. split_and!; [lia|lia|done|lia].
Qed.

Lemma bus_step_ok b a b' : bus_step b a b' -> bus_ok b ->
  bus_ok b' /\ ec_room (pe_sender b') = ec_room (pe_sender b) /\
  ec_log (pe_sender b') = ec_log (pe_sender b) ++ audible (has_observers b) [a] /\
  has_observers b' = match a with Announce => true | _ => has_observers b end.
Proof.
  intros Hstep Hok. pose proof Hok as [Hl Hr Hf]. destruct Hstep as [e| |Hne|i]; cbn [audible].
  - unfold publish_event. destruct (has_observers b) eqn:Hflag; [|by rewrite app_nil_r].
    destruct (ec_send_all e (pe_sender b)) as (s' & -> & Hlog & Hroom & Hrec).
    { rewrite Hr. specialize (Hf eq_refl). by destruct (pe_loops b). }
    cbn [pe_sender has_observers]. split_and!; [|done|done|done]. constructor; cbn; [|by rewrite Hrec|done]. rewrite Hlog.
    eapply Forall_impl; [exact Hl|]. intros. by apply loop_ok_snoc.
  - unfold subscribe_observer. destruct (ec_subscribe_new (pe_sender b)) as (Hlog & Hroom & Hrec & Hpos).
    destruct (ec_subscribe (pe_sender b)) as [s r]. cbn [fst snd] in *. cbn [pe_sender has_observers]. rewrite app_nil_r.
    split_and!; [|done|done|done]. constructor; cbn [pe_sender has_observers pe_loops].
    + rewrite Hlog, Forall_app, Forall_singleton. split; [done|]. unfold loop_ok. cbn. rewrite Hpos. split_and!; [lia|lia|apply sublist_nil_l|lia].
    + rewrite Hrec, Hr, length_app. cbn. lia.
    + intros _. by destruct (pe_loops b).
  - rewrite app_nil_r. split_and!; [|done|done|done]. by constructor.
  - rewrite app_nil_r. split_and!; [|done|done|done]. constructor; cbn [pe_sender has_observers pe_loops observer_turn].
    + rewrite Forall_lookup. intros j l Hj. rewrite Forall_lookup in Hl. destruct (decide (i = j)) as [->|Hij].
      * rewrite list_lookup_alter_eq in Hj. apply fmap_Some in Hj as (l0 & Hl0 & ->). by eapply loop_turn_ok, Hl.
      * rewrite list_lookup_alter_ne in Hj by done. by eapply Hl.
    + by rewrite length_alter.
    + intros Hflag Hnil. apply (Hf Hflag), length_zero_iff_nil. by rewrite <- (length_alter (loop_turn (pe_sender b)) _ i), Hnil.
Qed.

Lemma bus_run_ok b l b' : bus_run b l b' -> bus_ok b ->
  bus_ok b' /\ ec_room (pe_sender b') = ec_room (pe_sender b) /\
  ec_log (pe_sender b') = ec_log (pe_sender b) ++ audible (has_observers b) l.
Proof.
  induction 1 as [|b a b1 l b2 Hstep _ IH]; intros Hok; [by rewrite app_nil_r|].
  destruct (bus_step_ok _ _ _ Hstep Hok) as (Hok1 & Hroom & Hlog & Hflag). destruct (IH Hok1) as (Hok2 & Hroom2 & Hlog2).
  split_and!; [done|congruence|]. rewrite Hlog2, Hlog, <- app_assoc. f_equal. rewrite Hflag. by destruct a, (has_observers b).
Qed.

(** Without new events a loop that is not behind by more than the room gives its observer
    every event that waits. *)
Lemma loop_catches_up s l :
  loop_ok (ec_log s) l -> length (ec_log s) <= ec_position (ol_receiver l) + ec_room s ->
  let n := length (ec_log s) - ec_position (ol_receiver l) in
  ol_handled (Nat.iter n (loop_turn s) l) = ol_handled l ++ drop (ec_position (ol_receiver l)) (ec_log s) /\
  ol_missed (Nat.iter n (loop_turn s) l) = ol_missed l.
Proof.
  cbn zeta. remember (length (ec_log s) - ec_position (ol_receiver l)) as n eqn:Hn. revert l Hn.
  induction n as [|n IH]; intros l Hn Hok Hroom; pose proof Hok as ([_ Hle] & _).
  - cbn. rewrite drop_ge by lia. by rewrite app_nil_r.
  - destruct (lookup_lt_is_Some_2 (ec_log s) (ec_position (ol_receiver l))) as [e He]; [lia|].
    destruct (ec_recv_next _ _ e He) as (r' & Hrecv & Hr'); [lia|].
    rewrite Nat.iter_succ_r. pose proof (loop_turn_ok _ _ Hok) as Hok'. unfold loop_turn in Hok' |- * at 2 4. rewrite Hrecv in *.
    edestruct IH as [-> ->]; [|exact Hok'|cbn; lia|]; cbn [ol_receiver ol_handled ol_missed]; rewrite ?Hr'; [lia|].
    rewrite (drop_S _ _ _ He), <- app_assoc. done.
Qed.

(** C32: Observers get the events of the process in order. However events, subscriptions and the
    observers' own turns interleave, an observer is given a selection, in order and without
    repetition, of the events published since it subscribed and the first one was announced;
    every event it was due is given or counted as missed; it only misses any when more wait
    than were configured (1000 by default), and otherwise its next turns give it every
    event that waits. *)
Theorem events_observed event_channel_size actions b i l :
  bus_run (event_observer_new event_channel_size) actions b -> pe_loops b !! i = Some l ->
  let log := ec_log (pe_sender b) in
  let start := length (ec_log (ol_start l)) in
  let next := ec_position (ol_receiver l) in
  log = audible false actions /\ start <= next <= length log /\
  ol_handled l `sublist_of` drop start (take next log) /\ length (ol_handled l) + ol_missed l = next - start /\
  (length log - next <= default DEFAULT_EVENT_CHANNEL_SIZE event_channel_size ->
   ol_missed (loop_turn (pe_sender b) l) = ol_missed l /\
   ol_handled (Nat.iter (length log - next) (loop_turn (pe_sender b)) l) = ol_handled l ++ drop next log).
Proof.
  intros Hrun Hl. destruct (ec_channel_new (default DEFAULT_EVENT_CHANNEL_SIZE event_channel_size)) as (Hlog0 & Hroom0 & Hrec0).
  apply bus_run_ok in Hrun as ([Hloops _ _] & Hroom & Hlog); [|constructor; cbn; [done|by rewrite Hrec0|done]].
  cbn [event_observer_new pe_sender has_observers] in *. rewrite Hlog0 in Hlog. rewrite Forall_lookup in Hloops.
  pose proof (Hloops _ _ Hl) as Hok. pose proof Hok as ([Hs Hn] & Hsub & Hcount). split_and!; try done. intros Hbehind. split.
  - unfold loop_turn. destruct (decide (ec_position (ol_receiver l) = length (ec_log (pe_sender b)))) as [Hend|Hend];
      [by rewrite (ec_recv_nothing _ _ Hend)|].
    destruct (lookup_lt_is_Some_2 (ec_log (pe_sender b)) (ec_position (ol_receiver l))) as [e He]; [lia|].
    destruct (ec_recv_next _ _ e He) as (r' & -> & _); [lia|done].
  - apply loop_catches_up; [done|]. lia.
Qed.
End Bus.

Module EventBusExample.
(** A channel that keeps everything and hands out as much as it has room for. *)
Record log_sender := { l_log : list ProxyEvent; l_room : nat; l_receivers : nat }.
Definition log_recv (s : log_sender) (r : nat) : event_recv * nat :=
  if bool_decide (r + l_room s < length (l_log s)) then (EventsLagged (length (l_log s) - l_room s - r), length (l_log s) - l_room s)
  else match l_log s !! r with Some e => (EventReceived e, S r) | None => (NoEvent, r) end.
#[export] Instance log_channel : EventChannel := {|
  ec_sender := log_sender;
  ec_receiver := nat;
  ec_channel n := {| l_log := []; l_room := n; l_receivers := 0 |};
  ec_send e s := match l_receivers s with
                 | O => None
                 | S _ => Some {| l_log := l_log s ++ [e]; l_room := l_room s; l_receivers := l_receivers s |}
                 end;
  ec_subscribe s := ({| l_log := l_log s; l_room := l_room s; l_receivers := S (l_receivers s) |}, length (l_log s));
  ec_recv := log_recv;
|}.
#[export] Instance log_channel_laws : EventChannelLaws (H := log_channel).
Proof.
  refine {| ec_log (s : ec_sender) := l_log s; ec_room (s : ec_sender) := l_room s; ec_receivers (s : ec_sender) := l_receivers s;
            ec_position (r : ec_receiver) := (r : nat) |}; cbn.
  - done.
  - by intros e s ->.
  - intros e s Hs. destruct s as [? ? []]; [done|]. eexists. by split_and!.
  - done.
  - intros s r ->. unfold log_recv. rewrite bool_decide_eq_false_2 by lia. by rewrite lookup_ge_None_2.
  - intros s r e He Hroom. unfold log_recv. rewrite bool_decide_eq_false_2 by lia. rewrite He. eauto.
  - intros s r Hlag. unfold log_recv. rewrite bool_decide_eq_true_2 by lia. eauto.
Defined.
(** Room for two events; the first is published to nobody, and three wait when the observer looks. *)
Definition e1 : ProxyEvent := event_new GrpcEstimatedActiveStreams.
Definition e2 : ProxyEvent := with_lcut 2 e1.
Definition e3 : ProxyEvent := with_lcut 3 e1.
Definition e4 : ProxyEvent := with_lcut 4 e1.
Definition actions : list bus_action :=
  [Publish e1; Subscribe; Announce; Publish e2; Publish e3; Publish e4; Turn 0; Turn 0].
Definition after (b : ProxyEventObserver) (a : bus_action) : ProxyEventObserver :=
  match a with
  | Publish e => publish_event e b
  | Subscribe => subscribe_observer b
  | Announce => announce_observer b
  | Turn i => observer_turn i b
  end.
Definition final : ProxyEventObserver := foldl after (event_observer_new (Some 2)) actions.
End EventBusExample.

Lemma events_observed_witness :
  exists l, pe_loops EventBusExample.final !! 0 = Some l /\ ol_missed l = 1 /\ ol_handled l = [EventBusExample.e3] /\
    ol_handled (loop_turn (pe_sender EventBusExample.final) l) = [EventBusExample.e3; EventBusExample.e4].
Proof.
  eexists. split; [reflexivity|]. split; [reflexivity|]. split; [reflexivity|].
  destruct (events_observed (H := EventBusExample.log_channel) (H0 := EventBusExample.log_channel_laws) (Some 2) EventBusExample.actions EventBusExample.final 0 _
    ltac:(repeat (eapply run_cons; [constructor; try done|]); apply run_nil) eq_refl) as (_ & _ & _ & _ & Hlast).
  apply (Hlast (le_S _ _ (le_n _))).
Defined.
